(* ===== verification/_CoqProject ===== *)
-Q . S2P
Prelude.v
CircularBuffer.v
Kernel.v
CharDriver.v
DriverSpec.v
DriverRefine.v
DriverRead.v
DriverModule.v
DriverTheorems.v
Stdio.v
OutputFile.v
ServerProtocol.v
CommandLine.v
Timestamp.v
RegularFile.v
ServerDevice.v
ServerTheorems.v
Interleaving.v
Serializability.v
Atomicity.v
DriverSteps.v
DriverConcurrency.v
DriverDiscipline.v
DriverInterleavings.v
ServerSessions.v
ServerInterleavings.v
DeviceLog.v
SystemCalls.v
Threading.v
Writer.v
Validate.v
Lifecycle.v
LifecycleInvariant.v
LifecycleTheorems.v
System.v
SystemPool.v
SystemFair.v
SystemStalls.v
SystemStop.v
SystemTheorems.v
SystemDevice.v
