(* ===== verification/Prelude.v ===== *)
(** * Verification library for the AESD assignments repository

    The repository holds the programs of a course on embedded Linux: a character
    device driver that keeps the last ten lines written to it
    (aesd-char-driver/), a socket server that stores its clients' lines in a
    file or in that device and replies with what is stored (server/), and four
    small programs (examples/systemcalls, examples/threading,
    examples/autotest-validate, finder-app/writer.c).  This library models their C
    code as executable definitions and proves what makes each of them correct,
    and, where they are not, exactly where they fail.

    ** How the parts fit together

    The server talks to clients and writes to a stdio stream; the stream is on
    a regular file or on the device; the device is the driver; the driver keeps
    its lines in the ring buffer and its memory in the kernel's allocator.  The
    files follow that structure, from the bottom up:

    - [Prelude]: outcomes of C code ([Done], [Undef], [NoFuel]), loops with
      fuel, machine integers, arrays, a state monad and its tactics.
    - [CircularBuffer] (aesd-circular-buffer.c, .h): the ring, one definition per
      C function and with its name; the list of entries a ring stands for
      ([contents]), well-formedness ([wf]), and the functional theorems.
    - [Kernel]: the kernel services the driver calls, whose code is not in the
      repository, as the class [KernelServices], their documented behaviour as
      the laws [KernelLaws], the state of the allocator, and an instance of both
      ([reference_services], [reference_laws]) on which the witnesses run.
    - [CharDriver] (main.c, aesdchar.h, aesd_ioctl.h): the file operations,
      loading and unloading.  [struct aesd_dev] is the record [aesd_dev], with
      the mutex as a flag; the module's globals are [driver] and
      [module_state].  Taking the lock twice, unlocking it when it is free, a
      use of freed memory and an array access out of range are [Undef].
    - [DriverSpec]: the abstract device, a log of complete commands and the bytes
      pending; [represents] relates a driver state to it and to the set of
      blocks the driver has lost.  [DriverRefine] proves that [aesd_write]
      refines the log's append on every branch, [DriverRead] does the same for
      reading, [llseek] and the ioctl, [DriverModule] for loading, unloading and
      all reachable states; [DriverTheorems] states the results.
    - [Stdio]: C strings, [fgets] on the socket, [strtol], the socket's output.
      [CommandLine] (server.c): from [argv] to the decision to serve.
      [OutputFile]: the stream on the output file over the interface
      [Descriptor] of system calls, with the contract [LogDevice] (what is
      written is appended to a log, reading delivers it) and the proof that the
      stream keeps it.
    - [ServerProtocol] (server_impl.c, [server_protocol]): the conversation with
      one client, proved against [LogDevice].  [RegularFile] and [ServerDevice]
      are the two instances of the contract; the second is proved from the
      driver's refinement lemmas.  [ServerTheorems] states what a client gets.
    - [Timestamp] (server_impl.c, [clock_thread]): the line that the clock writes.
    - [Interleaving]: code as a tree of atomic actions on a shared state ([prog]),
      and the disciplines that calls keep (work under the mutex, or read only).
      [Serializability]: any number of threads in such calls ([config],
      [pool_step]), the interface [Calls] with its laws [CallLaws], and what they
      give for every interleaving.  [Atomicity]: what the mutex alone gives
      ([LockedCalls]), for calls that may be undefined or never end.
    - [DriverSteps]: the driver's operations again, now with every access to the
      ring an action; [DriverConcurrency] proves that they do, alone, what
      [CharDriver] says, [DriverDiscipline] which of them lock and which only
      read, [DriverInterleavings] makes the driver an instance of the interface
      and states the results.
    - [ServerSessions]: the server's conversations and the clock's lines as steps
      under the output file's mutex, the second instance;
      [ServerInterleavings] has the theorems on the log they make.
    - [Lifecycle] (the rest of server_impl.c, server.c): start, main loop and exit,
      the cleanup, clock and client threads, signals and the timer, as a
      step function on one state; a step is the next action of one thread, from
      one call that others can notice to the next.  [LifecycleInvariant] holds in
      every state that a run reaches, [LifecycleTheorems] says what follows.
    - [System]: the complete server, one step function for the process: a thread
      of [Lifecycle] takes its steps in a conversation or a line of
      [ServerSessions], on the stream that is there from [fopen] to [fclose], and
      waits in [fgets] and [fwrite] for the network ([traffic]: how far a client's
      bytes have come and are taken), on streams that may be NULL because [dup] or
      [fdopen] failed.
      [SystemPool] makes each of its runs a run of the pool of [Serializability]
      as long as the file is not closed (and the other way round, step by step);
      [SystemFair], [SystemStop], [SystemStalls] and [SystemTheorems] give what such
      a run guarantees, with any clients and with well-behaved ones; [DeviceLog] and
      [SystemDevice] put the server on the driver.
    - [SystemCalls], [Threading], [Writer], [Validate]: the small programs.

    ** What the theorems show

    - The ring keeps the last ten entries; lookups by position and positions of
      entries are exact and inverse to each other.
    - The driver refines the log: every call on every branch, error codes
      included, from every reachable state, and every call ends.  The only
      undefined behaviour is the ioctl whose index is not reduced modulo the
      ring size ([undefined_iff_overrun]).  Unloading frees every block once.
      The two error paths of [aesd_write] that lose or corrupt pending bytes are
      theorems too.
    - The server stores a line of any length and replies with the log, over any
      log file; over the device the reply is the last ten commands.  Seek commands,
      missing newlines, NUL bytes, a client that hangs up and a full disk are
      treated by a theorem each ([seek_served] has the seek that is undefined on
      the device too).
    - Concurrency.  Under every interleaving the driver's reads and writes are as
      if they had run one after another in the order of the mutex
      ([calls_serializable], [concurrent_log]), the ring's indices are in range
      at every moment ([ring_typed]), and every call can return, unless a seek
      past the first command is undefined on the way ([calls_progress]).  [llseek]
      and the ioctl take no lock: the lemma [lockfree_results] bounds what they
      can return, and the runs of [lockfree_races] show what goes wrong.  The clients' conversations and the clock's lines are
      atomic operations on the output file ([turns_serialized]).  The clock's line
      fits its buffer ([timestamp_fits]).
    - The complete server: in every run, with signals and failing calls and with
      any clients, the conversations are those of the sequential [server_protocol]
      one after another, up to an undefined step that it has too
      ([system_atomic]).  The next five theorems are about runs with well-behaved
      clients ([fair_run]: each sends text without NUL that is no seek command, or
      one whole line with a seek that is defined in every state of the device,
      takes its reply, and there is room for what they send).  The conversations
      are then operations on the log ([system_serialized]); over the regular file,
      which [fopen] truncates, no byte is lost or mixed
      ([system_keeps_every_byte]); on the device the last ten lines of all clients
      are kept ([system_device_last_ten]); from the main loop, when [dup] and
      [fdopen] gave every client its streams, every client can be served once its
      bytes are there and the server stopped with status 0 ([system_stops]); and a
      step is undefined only where the life cycle's is ([system_undefined]).
      However the bytes come the results are the same; but, whatever the clients,
      one whose line does not come or whose reply is not taken holds up all others
      ([held_up_client_blocks]).
    - The life cycle: the undefined steps are known exactly, those of NULL streams
      and of blocks that [malloc] did not give among them
      ([server_undefined_iff]), and runs to each of them are in [hazards_happen]; after
      a stop the exit takes at most 17 steps ([stop_reaches_end]), without one it
      hangs ([exit_without_stop_hangs]), and client threads are never reaped.  The
      server is started exactly for the command lines of [main_start_correct].
    - The small programs: [do_exec] and [do_exec_redirect] are true exactly when
      the command ran and exited with status 0, with its output in the file if
      [dup2] worked; the example's threads exclude
      each other, never deadlock and report truthfully; the writer's exit status
      is right for strings up to the stream's buffer.

    ** Conventions and bounds

    A loop of the code is [do_while] or [while_do] or [forever] with a bound on
    its rounds.  The bound of the loops over the ring, [ring_fuel] = 256, covers
    every value of a [uint8_t] index, and the theorems show that ten rounds are
    enough; the loops over a client's input and a reply take as many rounds as
    the theorems state in terms of the lengths.  Every functional theorem says
    [Done], so no bound is ever reached where a theorem applies.  The loops of
    stepwise code ([DoWhile]) have no bound; that they end is what
    [steps_equivalent], [calls_progress] and [system_stops] say.  Steps of
    threads interleave with every action seen at once by all of them
    (sequential consistency); the result of a call can be relied on only for
    data that the code keeps under its mutex.  Integers are [Z] with the
    wrap-around of their C type written out ([u8], [u32], [u64], [s32], [s64]);
    sizes are those of a 64-bit Linux.

    ** What is assumed

    The kernel services satisfy [KernelLaws]; a theorem about the server on the
    device also assumes memory to spare ([AmpleMemory]).  The C library is
    modelled after the C standard: streams on files are fully buffered, output
    that follows input without a positioning call is undefined unless the input
    met the end of the file, setting the position to the current one makes the
    stream follow the descriptor, the end of a file is remembered.  The reads of
    [server_protocol] from the socket see one sequence of bytes that ends in an
    end of file or an error.  The stream on a socket takes all or a bounded number
    of bytes, those in its buffer included; whether the last of them get to the
    client shows when the stream is closed, after the conversation.

    ** What is not modelled

    Log output ([syslog], [PDEBUG], [perror]); weaker memory orders than
    sequential consistency and torn stores of one field; module loading and
    unloading at the same time as calls (the kernel keeps them apart); the exact
    times of the clock; the addresses of clients; a signal between a [malloc] and
    the [sem_init] or [timer_create] of its block, which are one step; the end of
    the process by SIGPIPE when a client has broken its connection (the write then
    fails); whether closing a client's own streams gives an error, and the values
    that the threads return, which are joined but not looked at; an error of
    [sem_wait] (after a signal it is restarted, as [signal] installs its
    handlers).  Not modelled at all: shell scripts, init scripts, kernel
    configuration and build files, which are not C code.

    ** What could follow

    The server's turns over the stepwise driver, so that other processes write to
    the device at the same time. *)

From stdpp Require Export base numbers list gmap strings.
From Stdlib Require Export Ascii Lia ZArith.

#[global] Open Scope Z_scope.
#[export] Set Default Goal Selector "!".

(** ** Outcomes of C code

    [Done a]: the code returns [a].  [Undef]: the code performs an operation
    the C standard leaves undefined (out of bounds access, use of freed memory,
    signed overflow, self-deadlock on a mutex).  [NoFuel]: the loop bound of
    the model was reached; a theorem that says [Done] therefore shows that the
    loop terminates. *)
Inductive outcome (A : Type) : Type :=
| Done (a : A)
| Undef
| NoFuel.
Arguments Done {A} a.
Arguments Undef {A}.
Arguments NoFuel {A}.

#[export] Instance outcome_ret : MRet outcome := λ A a, Done a.

#[export] Instance outcome_bind : MBind outcome := λ A B f m,
  match m with
  | Done a => f a
  | Undef => Undef
  | NoFuel => NoFuel
  end.

#[export] Instance outcome_eq_dec `{EqDecision A} : EqDecision (outcome A).
Proof. solve_decision. Defined.

(** A loop body either goes on with a new loop state or leaves the function. *)
Inductive flow (S R : Type) : Type :=
| Next (s : S)
| Return (r : R).
Arguments Next {S R} s.
Arguments Return {S R} r.

(** [do body while (cond)]: the body first, then the test. *)
Fixpoint do_while {S R : Type} (fuel : nat) (body : S → outcome (flow S R))
    (cond : S → bool) (s : S) : outcome (flow S R) :=
  match fuel with
  | O => NoFuel
  | Datatypes.S fuel' =>
      o ← body s;
      match o with
      | Return r => Done (Return r)
      | Next s' => if cond s' then do_while fuel' body cond s' else Done (Next s')
      end
  end.

(** [while (cond) body]: the test first, then the body. *)
Fixpoint while_do {S R : Type} (fuel : nat) (body : S → outcome (flow S R))
    (cond : S → bool) (s : S) : outcome (flow S R) :=
  if cond s then
    match fuel with
    | O => NoFuel
    | Datatypes.S fuel' =>
        o ← body s;
        match o with
        | Return r => Done (Return r)
        | Next s' => while_do fuel' body cond s'
        end
    end
  else Done (Next s).

(** ** Machine integers (LP64: [int] 32 bits, [long], [size_t], [loff_t] 64) *)
Definition u8 (z : Z) : Z := z mod 2 ^ 8.
Definition u32 (z : Z) : Z := z mod 2 ^ 32.
Definition u64 (z : Z) : Z := z mod 2 ^ 64.
Definition s32 (z : Z) : Z := (z + 2 ^ 31) mod 2 ^ 32 - 2 ^ 31.
Definition s64 (z : Z) : Z := (z + 2 ^ 63) mod 2 ^ 64 - 2 ^ 63.

Lemma u8_id z : 0 ≤ z < 2 ^ 8 → u8 z = z.
Proof. apply Z.mod_small. Qed.

Lemma u32_id z : 0 ≤ z < 2 ^ 32 → u32 z = z.
Proof. apply Z.mod_small. Qed.

Lemma u64_id z : 0 ≤ z < 2 ^ 64 → u64 z = z.
Proof. apply Z.mod_small. Qed.

Lemma s32_id z : - 2 ^ 31 ≤ z < 2 ^ 31 → s32 z = z.
Proof. intros ?. unfold s32. rewrite Z.mod_small; lia. Qed.

Lemma s64_id z : - 2 ^ 63 ≤ z < 2 ^ 63 → s64 z = z.
Proof. intros ?. unfold s64. rewrite Z.mod_small; lia. Qed.

Lemma u64_bound z : 0 ≤ u64 z < 2 ^ 64.
Proof. by apply Z.mod_pos_bound. Qed.

Lemma u32_bound z : 0 ≤ u32 z < 2 ^ 32.
Proof. by apply Z.mod_pos_bound. Qed.

(** The range lemmas close side conditions [0 ≤ u32 z < 2 ^ 32] and the like. *)
Create HintDb cint.
#[export] Hint Resolve u32_bound u64_bound : cint.

(** Through [int] and back: the value modulo 2^32. *)
Lemma u32_s32 z : u32 (s32 z) = z mod 2 ^ 32.
Proof. unfold u32, s32. rewrite Zminus_mod_idemp_l. f_equal. lia. Qed.

(** [cint] removes the wrap-around of in-range values. *)
Ltac cint :=
  repeat match goal with
  | |- context [u8 ?z] => rewrite (u8_id z) by lia
  | |- context [u32 ?z] => rewrite (u32_id z) by lia
  | |- context [u64 ?z] => rewrite (u64_id z) by lia
  | |- context [s32 ?z] => rewrite (s32_id z) by lia
  | |- context [s64 ?z] => rewrite (s64_id z) by lia
  end.

(** ** Arrays: a C array access outside the array is undefined *)
Definition array_get {A} (l : list A) (i : Z) : outcome A :=
  if bool_decide (0 ≤ i) then
    match l !! Z.to_nat i with Some x => Done x | None => Undef end
  else Undef.

Definition array_set {A} (l : list A) (i : Z) (x : A) : outcome (list A) :=
  if bool_decide (0 ≤ i < Z.of_nat (length l)) then Done (<[Z.to_nat i := x]> l)
  else Undef.

Lemma array_get_Some {A} (l : list A) i x :
  0 ≤ i → l !! Z.to_nat i = Some x → array_get l i = Done x.
Proof. intros Hi Hx. unfold array_get. rewrite bool_decide_true by lia. by rewrite Hx. Qed.

Lemma array_get_oob {A} (l : list A) i :
  Z.of_nat (length l) ≤ i → array_get l i = Undef.
Proof.
  intros Hi. unfold array_get. case_bool_decide; [|done].
  by rewrite lookup_ge_None_2 by lia.
Qed.

Lemma array_set_in {A} (l : list A) i x :
  0 ≤ i < Z.of_nat (length l) → array_set l i x = Done (<[Z.to_nat i := x]> l).
Proof. intros Hi. unfold array_set. by rewrite bool_decide_true. Qed.

(** ** Lists *)

(** The last [n] elements of a list. *)
Definition lastn {A} (n : nat) (l : list A) : list A := drop (length l - n)%nat l.

Definition Zsum (l : list Z) : Z := foldr Z.add 0 l.

Lemma Zsum_app l1 l2 : Zsum (l1 ++ l2) = Zsum l1 + Zsum l2.
Proof. induction l1; simpl; lia. Qed.

#[export] Instance Zsum_Permutation : Proper ((≡ₚ) ==> eq) Zsum.
Proof. induction 1; simpl; lia. Qed.

Lemma Zsum_nonneg l : Forall (λ x, 0 ≤ x) l → 0 ≤ Zsum l.
Proof. induction 1; simpl; lia. Qed.

(** The elements at distinct indices of a list are some of its elements. *)
Lemma all_lookups {A} (l : list A) : (seq 0 (length l) ≫= λ i, option_list (l !! i)) = l.
Proof.
  induction l as [|x l IH]; [done|]. simpl. f_equal. rewrite <- fmap_S_seq, list_fmap_bind.
  exact IH.
Qed.

Lemma lookups_submseteq {A} (l : list A) ids xs :
  NoDup ids → Forall2 (λ i x, l !! i = Some x) ids xs → xs ⊆+ l.
Proof.
  intros Hn Hx. assert (xs = ids ≫= λ i, option_list (l !! i)) as ->.
  { clear Hn. induction Hx as [|i x ids xs Hi _ IH]; simpl; [done|]. by rewrite Hi, IH. }
  trans (seq 0 (length l) ≫= λ i, option_list (l !! i)); [|by rewrite all_lookups].
  apply bind_submseteq, NoDup_submseteq; [done|].
  intros i [k Hk]%list_elem_of_lookup. apply elem_of_seq.
  destruct (Forall2_lookup_l _ _ _ _ _ Hx Hk) as (x & _ & Hl). apply lookup_lt_Some in Hl. lia.
Qed.

Lemma lastn_short {A} n (l : list A) : (length l ≤ n)%nat → lastn n l = l.
Proof. intros H. unfold lastn. by replace (length l - n)%nat with 0%nat by lia. Qed.

Lemma lastn_length {A} n (l : list A) : length (lastn n l) = Nat.min n (length l).
Proof. unfold lastn. rewrite length_drop. lia. Qed.

(** Keeping the last [n] after every append is keeping the last [n] once. *)
Lemma lastn_lastn_app {A} n (l k : list A) : lastn n (lastn n l ++ k) = lastn n (l ++ k).
Proof.
  unfold lastn. rewrite <- drop_app_le by lia.
  rewrite drop_drop, length_drop, !length_app. f_equal. lia.
Qed.

Lemma if_bool_decide_ext {A} (P Q : Prop) `{Decision P, Decision Q} (x y : A) :
  (P ↔ Q) → (if bool_decide P then x else y) = (if bool_decide Q then x else y).
Proof. intros HPQ. by rewrite (bool_decide_ext P Q HPQ). Qed.

(** ** A state monad over outcomes *)
Definition M (S A : Type) : Type := S → outcome (A * S).

#[export] Instance M_ret {S} : MRet (M S) := λ A a s, Done (a, s).

#[export] Instance M_bind {S} : MBind (M S) := λ A B f m s,
  match m s with
  | Done (a, s') => f a s'
  | Undef => Undef
  | NoFuel => NoFuel
  end.

Definition lift {S A} (o : outcome A) : M S A := λ s, a ← o; Done (a, s).
Definition gets {S A} (f : S → A) : M S A := λ s, Done (f s, s).
Definition modify {S} (f : S → S) : M S unit := λ s, Done (tt, f s).

(** The equations with which a monadic definition is run on a given state. *)
Lemma M_bind_Done {S A B} (f : A → M S B) (m : M S A) s a s' :
  m s = Done (a, s') → (m ≫= f) s = f a s'.
Proof. unfold mbind, M_bind. by intros ->. Qed.

Lemma M_bind_Undef {S A B} (f : A → M S B) (m : M S A) s :
  m s = Undef → (m ≫= f) s = Undef.
Proof. unfold mbind, M_bind. by intros ->. Qed.

Lemma M_bind_lift {S A B} (f : A → M S B) (o : outcome A) s a :
  o = Done a → (lift o ≫= f) s = f a s.
Proof. by intros ->. Qed.

Lemma M_bind_gets {S A B} (f : A → M S B) (g : S → A) s :
  (gets g ≫= f) s = f (g s) s.
Proof. done. Qed.

Lemma M_bind_modify {S B} (f : unit → M S B) (g : S → S) s :
  (modify g ≫= f) s = f tt (g s).
Proof. done. Qed.

Lemma M_bind_ret {S A B} (f : A → M S B) (a : A) s : (mret a ≫= f) s = f a s.
Proof. done. Qed.

Lemma M_bind_assoc {S A B C} (m : M S A) (f : A → M S B) (g : B → M S C) s :
  ((m ≫= f) ≫= g) s = (m ≫= (λ a, f a ≫= g)) s.
Proof. unfold mbind, M_bind. by destruct (m s) as [[]| |]. Qed.

Lemma M_bind_cong {S A B} (m1 m2 : M S A) (f1 f2 : A → M S B) s :
  m1 s = m2 s → (∀ a s', m2 s = Done (a, s') → f1 a s' = f2 a s') → (m1 ≫= f1) s = (m2 ≫= f2) s.
Proof.
  intros Hm Hf. unfold mbind, M_bind. rewrite Hm. destruct (m2 s) as [[a s']| |]; [by apply Hf|done..].
Qed.

Lemma lift_state {S A} (o : outcome A) (s : S) a s' : lift o s = Done (a, s') → o = Done a ∧ s' = s.
Proof. unfold lift. destruct o; [|done..]. by intros [= -> ->]. Qed.

(** [run] steps through binds whose first action is known. *)
Create Rewrite HintDb run.
#[export] Hint Rewrite @M_bind_assoc @M_bind_gets @M_bind_modify @M_bind_ret : run.

Ltac run := autorewrite with run; cbn beta.

(** A counting loop [while (i < n)] whose body keeps [P] and steps [i] ends with
    [P] at [n], provided the fuel covers the remaining iterations. *)
Lemma while_do_count {S R} (P : Z → S → Prop) (n : Z)
    (body : Z * S → outcome (flow (Z * S) R)) (cond : Z * S → bool) fuel i s :
  (∀ i s, cond (i, s) = bool_decide (i < n)) →
  (∀ i s, 0 ≤ i < n → P i s → ∃ s', body (i, s) = Done (Next (i + 1, s')) ∧ P (i + 1) s') →
  0 ≤ i ≤ n → n - i ≤ Z.of_nat fuel → P i s →
  ∃ s', while_do fuel body cond (i, s) = Done (Next (n, s')) ∧ P n s'.
Proof.
  intros Hcond Hbody. revert i s. induction fuel as [|fuel IH]; intros i s Hi Hf HP.
  - assert (i = n) as -> by lia. exists s. simpl. rewrite Hcond.
    by rewrite bool_decide_false by lia.
  - destruct (decide (i = n)) as [->|Hne].
    { exists s. simpl. rewrite Hcond. by rewrite bool_decide_false by lia. }
    destruct (Hbody i s) as (s1 & Hb & HP1); [lia|done|].
    destruct (IH (i + 1) s1) as (s' & Hw & HP'); [lia..|done|].
    exists s'. split; [|done]. simpl. rewrite Hcond, bool_decide_true by lia.
    rewrite Hb. simpl. done.
Qed.

(** [while (true) body]: the body leaves the loop with [Some r]. *)
Fixpoint forever {S R} (fuel : nat) (body : M S (option R)) : M S R :=
  match fuel with
  | O => λ _, NoFuel
  | Datatypes.S fuel' =>
      o ← body;
      match o with Some r => mret r | None => forever fuel' body end
  end.

Lemma forever_exit {S R} fuel (body : M S (option R)) s r s' :
  body s = Done (Some r, s') → forever (Datatypes.S fuel) body s = Done (r, s').
Proof. intros Hb. simpl. by rewrite (M_bind_Done _ _ _ _ _ Hb). Qed.

Lemma forever_next {S R} fuel (body : M S (option R)) s s' :
  body s = Done (None, s') → forever (Datatypes.S fuel) body s = forever fuel body s'.
Proof. intros Hb. simpl. by rewrite (M_bind_Done _ _ _ _ _ Hb). Qed.

Lemma forever_undef {S R} fuel (body : M S (option R)) s :
  body s = Undef → forever (Datatypes.S fuel) body s = Undef.
Proof. intros Hb. simpl. by apply M_bind_Undef. Qed.
