(* ===== verification/CircularBuffer.v ===== *)
(** * The circular buffer (aesd-char-driver/aesd-circular-buffer.[ch])

    The ring of the ten most recent write commands.  The definitions follow the
    C functions; the second half relates them to the list of entries the ring
    holds, oldest first ([contents]).  A pointer into the [entry] array is the
    index it points at, a null pointer is [None]. *)

From S2P Require Import Prelude.

Definition AESDCHAR_MAX_WRITE_OPERATIONS_SUPPORTED : Z := 10.
Abbreviation MAXOPS := AESDCHAR_MAX_WRITE_OPERATIONS_SUPPORTED.

Record aesd_buffer_entry := BufferEntry {
  buffptr : Z;       (* address of the bytes, 0 for NULL *)
  entry_size : Z;    (* size_t size *)
}.

#[export] Instance aesd_buffer_entry_eq_dec : EqDecision aesd_buffer_entry.
Proof. solve_decision. Defined.

Record aesd_circular_buffer := CircularBuffer {
  entry : list aesd_buffer_entry;
  in_offs : Z;       (* uint8_t *)
  out_offs : Z;      (* uint8_t *)
  full : bool;
}.

#[export] Instance aesd_circular_buffer_eq_dec : EqDecision aesd_circular_buffer.
Proof. solve_decision. Defined.

(** Bound on the iterations of the loops over the ring: one pass over the
    indices a [uint8_t] offset can name.  The theorems show that a pass over a
    well-formed ring ends after ten. *)
Definition ring_fuel : nat := 256.

Definition aesd_circular_buffer_find_entry_offset_for_fpos
    (buffer : aesd_circular_buffer) (char_offset entry_offset_byte_rtn : Z)
    : outcome (option Z * Z) :=
  r ← do_while ring_fuel
        (λ '(pos_bytes, index),
           e ← array_get (entry buffer) index;
           if bool_decide (char_offset < u64 (pos_bytes + entry_size e))
           then mret (Return (index, u64 (char_offset - pos_bytes)))
           else mret (Next (u64 (pos_bytes + entry_size e),
                            u32 (index + 1) mod MAXOPS)))
        (λ '(_, index), bool_decide (index ≠ out_offs buffer))
        (0, out_offs buffer);
  match r with
  | Return (index, offset) => mret (Some index, offset)
  | Next _ => mret (None, entry_offset_byte_rtn)
  end.

Definition aesd_circular_buffer_fpos_for_entry
    (buffer : aesd_circular_buffer) (entry_ptr entry_offset fpos : Z)
    : outcome (Z * Z) :=
  r ← do_while ring_fuel
        (λ '(pos_bytes, index),
           e ← array_get (entry buffer) index;
           if bool_decide (index = entry_ptr)
           then if bool_decide (entry_offset >= entry_size e)
                then mret (Return (1, fpos))
                else mret (Return (0, u64 (pos_bytes + entry_offset)))
           else mret (Next (u64 (pos_bytes + entry_size e),
                            u32 (index + 1) mod MAXOPS)))
        (λ '(_, index), bool_decide (index ≠ out_offs buffer))
        (0, out_offs buffer);
  match r with
  | Return res => mret res
  | Next _ => mret (1, fpos)
  end.

Definition aesd_circular_buffer_get_count (buffer : aesd_circular_buffer) : Z :=
  if negb (full buffer) then
    if bool_decide (out_offs buffer <= in_offs buffer)
    then u32 (in_offs buffer - out_offs buffer)
    else u32 ((in_offs buffer + MAXOPS) - out_offs buffer)
  else MAXOPS.

Definition aesd_circular_buffer_get_size (buffer : aesd_circular_buffer) : outcome Z :=
  r ← do_while (R := Z) ring_fuel
        (λ '(size, index),
           e ← array_get (entry buffer) index;
           mret (Next (u64 (size + entry_size e), u32 (index + 1) mod MAXOPS)))
        (λ '(_, index), bool_decide (index ≠ out_offs buffer))
        (0, out_offs buffer);
  match r with
  | Return size => mret size
  | Next (size, _) => mret size
  end.

Definition aesd_circular_buffer_add_entry
    (buffer : aesd_circular_buffer) (add_entry : aesd_buffer_entry)
    : outcome aesd_circular_buffer :=
  let entry_count := aesd_circular_buffer_get_count buffer in
  entries ← array_set (entry buffer) (in_offs buffer) add_entry;
  let in_offs' := u8 ((in_offs buffer + 1) mod MAXOPS) in
  if bool_decide (entry_count < MAXOPS) then
    if bool_decide (u32 (entry_count + 1) = MAXOPS)
    then mret (CircularBuffer entries in_offs' (out_offs buffer) true)
    else mret (CircularBuffer entries in_offs' (out_offs buffer) (full buffer))
  else mret (CircularBuffer entries in_offs' in_offs' (full buffer)).

(** [memset] of the whole structure to zero bytes: every pointer is NULL, every
    integer 0 and the flag false, whatever the buffer held. *)
Definition aesd_circular_buffer_init (_ : aesd_circular_buffer) : aesd_circular_buffer :=
  CircularBuffer (replicate (Z.to_nat MAXOPS) (BufferEntry 0 0)) 0 0 false.

(** [AESD_CIRCULAR_BUFFER_FOREACH]: run [body] on the pointer to each entry of the
    array, with a [uint8_t] index that goes from 0 up to the array size. *)
Definition AESD_CIRCULAR_BUFFER_FOREACH {S : Type}
    (body : S → Z → outcome S) (s : S) : outcome S :=
  r ← while_do (R := S) ring_fuel
        (λ '(index, s), s' ← body s index; mret (Next (u8 (index + 1), s')))
        (λ '(index, _), bool_decide (index < MAXOPS))
        (0, s);
  match r with
  | Return s' => mret s'
  | Next (_, s') => mret s'
  end.

(** ** The list a ring stands for *)

(** The array read from [out_offs] around. *)
Definition rotated (b : aesd_circular_buffer) : list aesd_buffer_entry :=
  rotate (Z.to_nat (out_offs b)) (entry b).

Definition ring_count (b : aesd_circular_buffer) : nat :=
  Z.to_nat (aesd_circular_buffer_get_count b).

(** The entries in the ring, oldest first. *)
Definition contents (b : aesd_circular_buffer) : list aesd_buffer_entry :=
  take (ring_count b) (rotated b).

(** The array index of the [k]-th entry from the oldest. *)
Definition slot (b : aesd_circular_buffer) (k : nat) : Z :=
  (out_offs b + Z.of_nat k) mod MAXOPS.

Definition entry_ok (e : aesd_buffer_entry) : Prop := 0 ≤ entry_size e < 2 ^ 64.

Record wf (b : aesd_circular_buffer) : Prop := Wf {
  wf_length : length (entry b) = 10%nat;
  wf_in : 0 ≤ in_offs b < 10;
  wf_out : 0 ≤ out_offs b < 10;
  wf_full : full b = true → in_offs b = out_offs b;
  wf_sizes : Forall entry_ok (entry b);
  (* the slots outside the contents hold no bytes *)
  wf_free : Forall (λ e, entry_size e = 0) (drop (ring_count b) (rotated b));
}.

(** The bytes stored in the ring. *)
Definition total (l : list aesd_buffer_entry) : Z := Zsum (entry_size <$> l).

(** ** Positions in the ring *)

Lemma rotated_length b : length (rotated b) = length (entry b).
Proof. apply length_rotate. Qed.

Lemma slot_range b k : 0 ≤ slot b k < 10.
Proof. by apply Z.mod_pos_bound. Qed.

Lemma slot_0 b : wf b → slot b 0 = out_offs b.
Proof. intros []. unfold slot. rewrite Z.mod_small; [lia|]. unfold MAXOPS. lia. Qed.

Lemma slot_succ b k : (slot b k + 1) mod MAXOPS = slot b (S k).
Proof.
  unfold slot. rewrite Zplus_mod_idemp_l. f_equal. lia.
Qed.

Lemma slot_out b k :
  wf b → (0 < k < 10)%nat → slot b k ≠ out_offs b.
Proof.
  intros [] Hk. unfold slot, MAXOPS.
  destruct (decide (out_offs b + Z.of_nat k < 10)).
  - rewrite Z.mod_small; lia.
  - rewrite <- (Z_mod_plus_full _ (-1)), Z.mod_small; lia.
Qed.

Lemma slot_10 b : wf b → slot b 10 = out_offs b.
Proof.
  intros []. unfold slot, MAXOPS.
  rewrite <- (Z_mod_plus_full _ (-1)), Z.mod_small; lia.
Qed.

Lemma slot_inj b j k :
  wf b → (j < 10)%nat → (k < 10)%nat → slot b j = slot b k → j = k.
Proof.
  intros [] Hj Hk. unfold slot, MAXOPS. intros E.
  pose proof (Z.div_mod (out_offs b + Z.of_nat j) 10).
  pose proof (Z.div_mod (out_offs b + Z.of_nat k) 10). lia.
Qed.

Lemma slot_rotate b k :
  wf b → rotate_nat_add (Z.to_nat (out_offs b)) k (length (entry b)) = Z.to_nat (slot b k).
Proof.
  intros [Hlen _ Hout _ _ _]. unfold rotate_nat_add, slot, MAXOPS. rewrite Hlen.
  repeat f_equal. lia.
Qed.

Lemma rotated_lookup b k :
  wf b → (k < 10)%nat → rotated b !! k = entry b !! Z.to_nat (slot b k).
Proof.
  intros Hwf Hk. unfold rotated.
  rewrite lookup_rotate_r by (rewrite (wf_length b Hwf); lia). by rewrite slot_rotate.
Qed.

Lemma array_get_slot b k e :
  wf b → rotated b !! k = Some e → array_get (entry b) (slot b k) = Done e.
Proof.
  intros Hwf He. pose proof (slot_range b k).
  apply array_get_Some; [lia|].
  rewrite <- rotated_lookup; [done..|].
  apply lookup_lt_Some in He. rewrite rotated_length, (wf_length b Hwf) in He. done.
Qed.

Lemma rotated_sizes b : wf b → Forall entry_ok (rotated b).
Proof.
  intros Hwf. unfold rotated, rotate. apply Forall_app.
  split; [apply Forall_drop | apply Forall_take]; apply Hwf.
Qed.

Lemma wf_in_range b : wf b → 0 ≤ in_offs b < Z.of_nat (length (entry b)).
Proof. intros []. lia. Qed.

(** ** One pass over the ring

    The three loops of the C file have one shape: a pass over the array from
    [out_offs] around, with an accumulator and an early exit.  [scan] is that
    pass on the rotated list. *)
Fixpoint scan {S R} (b : aesd_circular_buffer)
    (f : S → Z → aesd_buffer_entry → flow S R)
    (k : nat) (l : list aesd_buffer_entry) (s : S) : flow S R :=
  match l with
  | [] => Next s
  | e :: l' =>
      match f s (slot b k) e with
      | Next s' => scan b f (Datatypes.S k) l' s'
      | Return r => Return r
      end
  end.

Section RingLoop.
Context {S R : Type} (b : aesd_circular_buffer) (Hwf : wf b).
Context (f : S → Z → aesd_buffer_entry → flow S R).
Context (body : S * Z → outcome (flow (S * Z) R)) (cond : S * Z → bool).
Context (Hbody : ∀ s i e, 0 ≤ i < 10 → array_get (entry b) i = Done e →
  body (s, i) = Done match f s i e with
                     | Next s' => Next (s', (i + 1) mod MAXOPS)
                     | Return r => Return r
                     end).
Context (Hcond : ∀ s i, cond (s, i) = bool_decide (i ≠ out_offs b)).

Lemma ring_loop_from fuel k s :
  (k < 10)%nat → (10 - k ≤ fuel)%nat →
  do_while fuel body cond (s, slot b k)
  = Done match scan b f k (drop k (rotated b)) s with
         | Next s' => Next (s', out_offs b)
         | Return r => Return r
         end.
Proof using Hwf Hbody Hcond.
  revert k s. induction fuel as [|fuel IH]; intros k s Hk Hf; [lia|].
  destruct (lookup_lt_is_Some_2 (rotated b) k) as [e He].
  { rewrite rotated_length, (wf_length b Hwf). lia. }
  rewrite (drop_S _ _ _ He). simpl.
  rewrite (Hbody s _ e (slot_range b k) (array_get_slot b k e Hwf He)).
  simpl. destruct (f s (slot b k) e) as [s'|r]; [|done].
  rewrite Hcond, slot_succ.
  destruct (decide (k = 9)%nat) as [->|].
  - rewrite slot_10 by done. rewrite bool_decide_false by auto.
    rewrite drop_ge; [done|]. rewrite rotated_length, (wf_length b Hwf). lia.
  - rewrite bool_decide_true by (apply slot_out; [done|lia]).
    apply IH; lia.
Qed.

Lemma ring_loop s :
  do_while ring_fuel body cond (s, out_offs b)
  = Done match scan b f 0 (rotated b) s with
         | Next s' => Next (s', out_offs b)
         | Return r => Return r
         end.
Proof using Hwf Hbody Hcond.
  rewrite <- (slot_0 b Hwf) at 1. apply ring_loop_from; unfold ring_fuel; lia.
Qed.
End RingLoop.

(** ** The number of entries and the contents *)

Lemma get_count_range b : wf b → 0 ≤ aesd_circular_buffer_get_count b ≤ 10.
Proof.
  intros []. unfold aesd_circular_buffer_get_count, MAXOPS.
  destruct (full b); simpl; [lia|]. case_bool_decide; cint; lia.
Qed.

Lemma count_le b : wf b → (ring_count b ≤ 10)%nat.
Proof. intros Hwf. pose proof (get_count_range b Hwf). unfold ring_count. lia. Qed.

Lemma get_count_count b : wf b → aesd_circular_buffer_get_count b = Z.of_nat (ring_count b).
Proof. intros Hwf. pose proof (get_count_range b Hwf). unfold ring_count. lia. Qed.

(** A ring that is not full counts the distance between its offsets. *)
Lemma get_count_open es o k :
  0 ≤ o < 10 → 0 ≤ k < 10 →
  aesd_circular_buffer_get_count (CircularBuffer es ((o + k) mod 10) o false) = k.
Proof.
  intros Ho Hk. unfold aesd_circular_buffer_get_count, MAXOPS. simpl.
  destruct (decide (o + k < 10)).
  - rewrite Z.mod_small by lia. rewrite bool_decide_true by lia. cint. lia.
  - rewrite <- (Z_mod_plus_full _ (-1)), Z.mod_small by lia.
    rewrite bool_decide_false by lia. cint. lia.
Qed.

(** The next write goes to the slot after the last entry. *)
Lemma slot_count b : wf b → slot b (ring_count b) = in_offs b.
Proof.
  intros Hwf. unfold slot. rewrite <- get_count_count by done.
  destruct Hwf as [_ Hin Hout Hfull _ _].
  unfold aesd_circular_buffer_get_count, MAXOPS in *.
  destruct (full b); simpl.
  - specialize (Hfull eq_refl). rewrite <- (Z_mod_plus_full _ (-1)), Z.mod_small; lia.
  - case_bool_decide; cint.
    + rewrite Z.mod_small; lia.
    + rewrite <- (Z_mod_plus_full _ (-1)), Z.mod_small; lia.
Qed.

(** Only a full ring has [out_offs = in_offs] with ten entries. *)
Lemma count_full b : wf b → full b = bool_decide (ring_count b = 10%nat).
Proof.
  intros Hwf. unfold ring_count. pose proof Hwf as [_ Hin Hout Hfull _ _].
  unfold aesd_circular_buffer_get_count, MAXOPS in *.
  destruct (full b); simpl; [done|]. symmetry. apply bool_decide_false.
  case_bool_decide; cint; lia.
Qed.

Lemma contents_length b : wf b → length (contents b) = ring_count b.
Proof.
  intros Hwf. unfold contents. rewrite length_take, rotated_length, (wf_length b Hwf).
  pose proof (count_le b Hwf). lia.
Qed.

Lemma contents_lookup b k :
  wf b → (k < ring_count b)%nat → contents b !! k = entry b !! Z.to_nat (slot b k).
Proof.
  intros Hwf Hk. pose proof (count_le b Hwf). unfold contents.
  rewrite lookup_take_lt by done. apply rotated_lookup; [done|lia].
Qed.

Lemma contents_sizes b : wf b → Forall entry_ok (contents b).
Proof. intros Hwf. apply Forall_take, rotated_sizes, Hwf. Qed.

Lemma total_nil : total [] = 0.
Proof. done. Qed.

Lemma total_cons e l : total (e :: l) = entry_size e + total l.
Proof. done. Qed.

Lemma total_app l1 l2 : total (l1 ++ l2) = total l1 + total l2.
Proof. unfold total. by rewrite fmap_app, Zsum_app. Qed.

Lemma total_nonneg l : Forall entry_ok l → 0 ≤ total l.
Proof.
  intros H. apply Zsum_nonneg, Forall_fmap. eapply Forall_impl; [done|].
  intros e []. done.
Qed.

Lemma total_free l : Forall (λ e, entry_size e = 0) l → total l = 0.
Proof. induction 1; rewrite ?total_cons; [done|lia]. Qed.

Lemma total_take l k : Forall entry_ok l → total (take k l) ≤ total l.
Proof.
  intros H. rewrite <- (take_drop k l) at 2. rewrite total_app.
  pose proof (total_nonneg (drop k l) (Forall_drop _ _ _ H)). lia.
Qed.

(** A full ring whose oldest entry is overwritten and which begins one place on. *)
Lemma contents_overwrite b e b' :
  wf b → wf b' → ring_count b = 10%nat → ring_count b' = 10%nat → in_offs b = out_offs b →
  entry b' = <[Z.to_nat (in_offs b) := e]> (entry b) → out_offs b' = slot b 1 →
  contents b' = tail (contents b) ++ [e].
Proof.
  intros Hwf Hwf' Hc Hcnt Hfull Hent Ho. pose proof Hwf as [Hlen Hin Hout _ _ _].
  assert (Hlast : slot b' 9 = in_offs b).
  { unfold slot, MAXOPS. rewrite Ho. unfold slot, MAXOPS. rewrite Zplus_mod_idemp_l.
    rewrite <- (Z_mod_plus_full _ (-1)), Z.mod_small; lia. }
  assert (Hslot : ∀ k, slot b' k = slot b (S k)).
  { intros k. unfold slot, MAXOPS. rewrite Ho. unfold slot, MAXOPS.
    rewrite Zplus_mod_idemp_l. f_equal. lia. }
  assert (Hl : length (contents b) = 10%nat) by (rewrite contents_length; done).
  apply list_eq. intros k. destruct (decide (k < 9)%nat); [|destruct (decide (k = 9)%nat) as [->|]].
  - rewrite contents_lookup by (try done; lia). rewrite Hslot, Hent.
    rewrite list_lookup_insert_ne; last first.
    { rewrite Hfull, <- slot_0 by done. pose proof (slot_range b (S k)).
      pose proof (slot_range b 0). intros E.
      assert (0 = S k)%nat by (apply (slot_inj b); try done; lia). lia. }
    rewrite lookup_app_l by (destruct (contents b); simpl in *; lia).
    rewrite lookup_tail, contents_lookup; [done..|lia].
  - rewrite contents_lookup by (try done; lia). rewrite Hlast, Hent.
    rewrite list_lookup_insert_eq by lia.
    rewrite lookup_app_r by (destruct (contents b); simpl in *; lia).
    by replace (9 - length (tail (contents b)))%nat with 0%nat
      by (destruct (contents b); simpl in *; lia).
  - rewrite !lookup_ge_None_2; [done| |rewrite contents_length; [lia|done]].
    rewrite length_app. destruct (contents b); simpl in *; lia.
Qed.

(** ** Adding an entry *)

Lemma rotated_insert b k e o :
  wf b → (k < 10)%nat → o = out_offs b →
  rotate (Z.to_nat o) (<[Z.to_nat (slot b k) := e]> (entry b)) = <[k := e]> (rotated b).
Proof.
  intros Hwf Hk ->. unfold rotated. rewrite <- (slot_rotate b k Hwf).
  apply rotate_insert_l. rewrite (wf_length b Hwf). lia.
Qed.

Lemma add_entry_room b e :
  wf b → entry_ok e → (ring_count b < 10)%nat →
  ∃ b', aesd_circular_buffer_add_entry b e = Done b' ∧ wf b' ∧
    contents b' = contents b ++ [e] ∧ out_offs b' = out_offs b.
Proof.
  intros Hwf He Hc.
  set (b' := CircularBuffer (<[Z.to_nat (in_offs b) := e]> (entry b))
               ((in_offs b + 1) mod 10) (out_offs b) (bool_decide (ring_count b = 9%nat))).
  exists b'. pose proof Hwf as [Hlen Hin Hout Hfull Hsz Hfree].
  assert (Hadd : aesd_circular_buffer_add_entry b e = Done b').
  { unfold aesd_circular_buffer_add_entry.
    rewrite array_set_in by lia. rewrite get_count_count by done.
    pose proof (Z.mod_pos_bound (in_offs b + 1) 10).
    unfold MAXOPS. simpl. cint. rewrite bool_decide_true by lia.
    subst b'. case_bool_decide; simpl.
    - by rewrite bool_decide_true by lia.
    - rewrite bool_decide_false by lia. rewrite count_full by done.
      by rewrite bool_decide_false by lia. }
  assert (Hrot : rotated b' = <[ring_count b := e]> (rotated b)).
  { unfold rotated at 1; simpl. rewrite <- (slot_count b Hwf). by apply rotated_insert. }
  assert (Hcnt : ring_count b' = S (ring_count b)).
  { unfold ring_count at 1. subst b'. rewrite <- (slot_count b Hwf). unfold slot, MAXOPS.
    rewrite Zplus_mod_idemp_l, <- Z.add_assoc.
    case_bool_decide as H9; [by rewrite H9|].
    rewrite get_count_open by lia. lia. }
  assert (Hrlen : length (rotated b) = 10%nat) by (by rewrite rotated_length).
  split; [done|]. split; [split; simpl|split; [|done]].
  - by rewrite length_insert.
  - by apply Z.mod_pos_bound.
  - done.
  - intros H9%bool_decide_eq_true. rewrite <- (slot_count b Hwf). rewrite H9.
    rewrite slot_succ. by apply slot_10.
  - by apply Forall_insert.
  - rewrite Hcnt, Hrot, drop_insert_lt by lia.
    rewrite <- Nat.add_1_r, <- drop_drop. by apply Forall_drop.
  - unfold contents. rewrite Hcnt, Hrot.
    rewrite (take_S_r _ _ e) by (apply list_lookup_insert_eq; lia).
    by rewrite take_insert_ge.
Qed.

Lemma add_entry_full b e :
  wf b → entry_ok e → ring_count b = 10%nat →
  ∃ b', aesd_circular_buffer_add_entry b e = Done b' ∧ wf b' ∧
    contents b' = tail (contents b) ++ [e] ∧
    out_offs b' = slot b 1.
Proof.
  intros Hwf He Hc.
  pose proof Hwf as [Hlen Hin Hout Hfull Hsz Hfree].
  assert (Hf : full b = true) by (rewrite count_full by done; by rewrite bool_decide_true).
  specialize (Hfull Hf).
  pose proof (Z.mod_pos_bound (in_offs b + 1) 10 ltac:(lia)) as Hmod.
  set (o := (in_offs b + 1) mod 10) in *.
  set (b' := CircularBuffer (<[Z.to_nat (in_offs b) := e]> (entry b)) o o true).
  assert (Hadd : aesd_circular_buffer_add_entry b e = Done b').
  { unfold aesd_circular_buffer_add_entry.
    rewrite array_set_in by lia. rewrite get_count_count by done.
    rewrite Hc. unfold MAXOPS. fold o. simpl. cint. by rewrite Hf. }
  assert (Ho : out_offs b' = slot b 1) by (simpl; subst o; by rewrite Hfull).
  assert (Hcnt : ring_count b' = 10%nat) by done.
  assert (Hwf' : wf b').
  { split; simpl; [by rewrite length_insert|done..| |].
    - by apply Forall_insert.
    - rewrite Hcnt, drop_ge; [done|]. rewrite rotated_length. simpl.
      rewrite length_insert. lia. }
  exists b'. split; [done|]. split; [done|]. split; [|done]. by apply contents_overwrite.
Qed.

(** One more entry: the last ten of the old contents followed by the new one. *)
Lemma add_entry_contents b e :
  wf b → entry_ok e →
  ∃ b', aesd_circular_buffer_add_entry b e = Done b' ∧ wf b' ∧
    contents b' = lastn 10 (contents b ++ [e]).
Proof.
  intros Hwf He. pose proof (count_le b Hwf). pose proof (contents_length b Hwf) as Hl.
  destruct (decide (ring_count b < 10)%nat).
  - destruct (add_entry_room b e) as (b' & ? & ? & Hc & _); [done..|].
    exists b'. split_and!; [done..|]. rewrite lastn_short; [done|].
    rewrite length_app. simpl. lia.
  - destruct (add_entry_full b e) as (b' & ? & ? & Hc & _); [done..|lia|].
    exists b'. split_and!; [done..|]. rewrite Hc. unfold lastn. rewrite length_app. simpl.
    replace (length (contents b) + 1 - 10)%nat with 1%nat by lia.
    destruct (contents b); simpl in *; [lia|done].
Qed.

(** ** Positions in the stored bytes

    [at_pos l off k e o]: byte [off] of the entries of [l] put end to end is
    byte [o] of the [k]-th entry [e]. *)
Definition at_pos (l : list aesd_buffer_entry) (off : Z) (k : nat)
    (e : aesd_buffer_entry) (o : Z) : Prop :=
  l !! k = Some e ∧ 0 ≤ o < entry_size e ∧ off = total (take k l) + o.

Lemma at_pos_cons_S e' l off k e o :
  at_pos (e' :: l) off (S k) e o ↔ at_pos l (off - entry_size e') k e o.
Proof. unfold at_pos. rewrite firstn_cons, total_cons. simpl. intuition lia. Qed.

(** A position inside the stored bytes lies in exactly one entry. *)
Lemma at_pos_exists l off :
  Forall entry_ok l → 0 ≤ off < total l → ∃ k e o, at_pos l off k e o.
Proof.
  intros Hl. revert off.
  induction Hl as [|e l He Hl IH]; intros off; rewrite ?total_nil, ?total_cons; intros Hoff.
  { lia. }
  destruct (decide (off < entry_size e)).
  - exists 0%nat, e, off. unfold at_pos. simpl. rewrite total_nil. intuition lia.
  - destruct (IH (off - entry_size e)) as (k & e' & o & H); [lia|].
    exists (S k), e', o. by apply at_pos_cons_S.
Qed.

Lemma at_pos_bound l off k e o :
  Forall entry_ok l → at_pos l off k e o → 0 ≤ off < total l.
Proof.
  intros Hl (Hk & Ho & ->).
  pose proof (total_nonneg _ (Forall_take _ k _ Hl)).
  pose proof (total_nonneg _ (Forall_drop _ (S k) _ Hl)).
  rewrite <- (take_drop_middle l k e Hk) at 3.
  rewrite total_app, total_cons. lia.
Qed.

(** The rest of the entry lies inside the stored bytes too. *)
Lemma at_pos_end l off k e o :
  Forall entry_ok l → at_pos l off k e o → off + (entry_size e - o) ≤ total l.
Proof.
  intros Hl (Hk & Ho & ->).
  pose proof (total_nonneg _ (Forall_drop _ (S k) _ Hl)).
  rewrite <- (take_drop_middle l k e Hk) at 2. rewrite total_app, total_cons. lia.
Qed.

Lemma at_pos_0 e l off e' o :
  at_pos (e :: l) off 0 e' o ↔ e' = e ∧ off = o ∧ 0 ≤ o < entry_size e.
Proof.
  unfold at_pos. simpl. rewrite total_nil.
  split; [intros ([= ->] & ? & ->) | intros (-> & -> & ?)]; intuition lia.
Qed.

(** ** What the loops compute *)

Definition find_step (char_offset pos_bytes index : Z) (e : aesd_buffer_entry)
    : flow Z (Z * Z) :=
  if bool_decide (char_offset < u64 (pos_bytes + entry_size e))
  then Return (index, u64 (char_offset - pos_bytes))
  else Next (u64 (pos_bytes + entry_size e)).

Lemma find_loop b char_offset rtn :
  wf b →
  aesd_circular_buffer_find_entry_offset_for_fpos b char_offset rtn
  = Done match scan b (find_step char_offset) 0 (rotated b) 0 with
         | Return (i, o) => (Some i, o)
         | Next _ => (None, rtn)
         end.
Proof.
  intros Hwf. unfold aesd_circular_buffer_find_entry_offset_for_fpos.
  rewrite (ring_loop b Hwf (find_step char_offset)).
  - simpl. by destruct (scan _ _ _ _ _) as [|[]].
  - intros s i e Hi He. simpl. rewrite He. simpl. unfold find_step.
    cint. by case_bool_decide.
  - done.
Qed.

Lemma scan_find_hit b char_offset l k pos j e o :
  Forall entry_ok l → 0 ≤ pos → pos + total l < 2 ^ 64 →
  at_pos l (char_offset - pos) j e o →
  scan b (find_step char_offset) k l pos = Return (slot b (k + j), o).
Proof.
  intros Hl. revert pos k j. induction Hl as [|e0 l He Hl IH]; intros pos k j Hpos Htot Hat.
  { by destruct Hat. }
  pose proof (at_pos_bound _ _ _ _ _ (Forall_cons_2 _ _ _ He Hl) Hat) as Hb.
  pose proof (total_nonneg l Hl) as Htl.
  rewrite total_cons in *.
  unfold entry_ok in He. simpl. unfold find_step at 1. cint.
  destruct j as [|j].
  - apply at_pos_0 in Hat as (-> & Ho & ?).
    rewrite bool_decide_true by lia. cint. rewrite Nat.add_0_r, Ho. done.
  - rewrite at_pos_cons_S in Hat. pose proof (at_pos_bound _ _ _ _ _ Hl Hat).
    rewrite bool_decide_false by lia.
    rewrite (IH _ _ j); [by rewrite Nat.add_succ_r|lia|lia|].
    by replace (char_offset - (pos + entry_size e0))
      with (char_offset - pos - entry_size e0) by lia.
Qed.

Lemma scan_find_miss b char_offset l k pos :
  Forall entry_ok l → 0 ≤ pos → pos + total l < 2 ^ 64 →
  pos + total l ≤ char_offset →
  scan b (find_step char_offset) k l pos = Next (pos + total l).
Proof.
  intros Hl. revert pos k. induction Hl as [|e0 l He Hl IH]; intros pos k Hpos Htot Hoff.
  { simpl. rewrite total_nil. f_equal. lia. }
  pose proof (total_nonneg l Hl) as Htl.
  rewrite total_cons in *.
  unfold entry_ok in He. simpl. unfold find_step at 1. cint.
  rewrite bool_decide_false by lia. rewrite IH by lia. f_equal. lia.
Qed.

(** The free slots add no bytes to the rotated array. *)
Lemma rotated_contents b : rotated b = contents b ++ drop (ring_count b) (rotated b).
Proof. unfold contents. by rewrite take_drop. Qed.

Lemma total_rotated b : wf b → total (rotated b) = total (contents b).
Proof.
  intros Hwf. rewrite rotated_contents at 1. rewrite total_app, (total_free (drop _ _)); [lia|].
  apply Hwf.
Qed.

Lemma at_pos_rotated b off k e o :
  at_pos (contents b) off k e o → at_pos (rotated b) off k e o.
Proof.
  intros (Hk & Ho & ->). rewrite rotated_contents.
  pose proof (lookup_lt_Some _ _ _ Hk) as Hlt. split; [|split; [done|]].
  - by rewrite lookup_app_l.
  - by rewrite take_app_le by lia.
Qed.

Lemma find_hit b char_offset rtn k e o :
  wf b → total (contents b) < 2 ^ 64 → at_pos (contents b) char_offset k e o →
  aesd_circular_buffer_find_entry_offset_for_fpos b char_offset rtn
  = Done (Some (slot b k), o).
Proof.
  intros Hwf Htot Hat. rewrite find_loop by done.
  rewrite (scan_find_hit b _ _ 0 0 k e o); [done|by apply rotated_sizes|done| |].
  - rewrite total_rotated by done. lia.
  - rewrite Z.sub_0_r. by apply at_pos_rotated.
Qed.

Lemma find_miss b char_offset rtn :
  wf b → total (contents b) < 2 ^ 64 → total (contents b) ≤ char_offset →
  aesd_circular_buffer_find_entry_offset_for_fpos b char_offset rtn = Done (None, rtn).
Proof.
  intros Hwf Htot Hoff. rewrite find_loop by done.
  rewrite scan_find_miss; [done|by apply rotated_sizes|done|..];
    rewrite total_rotated by done; lia.
Qed.

Definition fpos_step (entry_ptr entry_offset fpos pos_bytes index : Z)
    (e : aesd_buffer_entry) : flow Z (Z * Z) :=
  if bool_decide (index = entry_ptr)
  then if bool_decide (entry_offset >= entry_size e)
       then Return (1, fpos) else Return (0, u64 (pos_bytes + entry_offset))
  else Next (u64 (pos_bytes + entry_size e)).

Lemma fpos_loop b p o fpos :
  wf b →
  aesd_circular_buffer_fpos_for_entry b p o fpos
  = Done match scan b (fpos_step p o fpos) 0 (rotated b) 0 with
         | Return res => res
         | Next _ => (1, fpos)
         end.
Proof.
  intros Hwf. unfold aesd_circular_buffer_fpos_for_entry.
  rewrite (ring_loop b Hwf (fpos_step p o fpos)).
  - simpl. by destruct (scan _ _ _ _ _).
  - intros s i e Hi He. simpl. rewrite He. simpl. unfold fpos_step. cint.
    by repeat case_bool_decide.
  - done.
Qed.

Lemma scan_fpos_hit b o fpos l k pos j e :
  wf b → Forall entry_ok l → (k + length l ≤ 10)%nat → l !! j = Some e →
  0 ≤ pos → 0 ≤ o → pos + total l < 2 ^ 64 →
  scan b (fpos_step (slot b (k + j)) o fpos) k l pos
  = Return (if bool_decide (o < entry_size e) then (0, pos + total (take j l) + o)
            else (1, fpos)).
Proof.
  intros Hwf Hl. revert k pos j.
  induction Hl as [|e0 l He Hl IH]; intros k pos j Hk Hj Hpos Ho Htot; [done|].
  pose proof (total_nonneg l Hl). rewrite total_cons in *. simpl in Hk. simpl.
  unfold entry_ok in He. unfold fpos_step at 1. destruct j as [|j]; simpl in Hj.
  - simplify_eq. rewrite Nat.add_0_r, bool_decide_true by done. simpl. rewrite total_nil.
    destruct (decide (o < entry_size e)).
    + rewrite bool_decide_false, bool_decide_true by lia. cint. repeat f_equal. lia.
    + by rewrite bool_decide_true, bool_decide_false by lia.
  - pose proof (lookup_lt_Some _ _ _ Hj).
    rewrite bool_decide_false; last first.
    { intros E. apply slot_inj in E; [lia|done|lia..]. }
    cint. rewrite Nat.add_succ_r, <- Nat.add_succ_l.
    rewrite IH by (done || lia). rewrite firstn_cons, total_cons.
    case_bool_decide; [do 2 f_equal; lia|done].
Qed.

Lemma scan_fpos_miss b p o fpos l k pos :
  Forall entry_ok l → (∀ j, (j < length l)%nat → slot b (k + j) ≠ p) →
  ∃ pos', scan b (fpos_step p o fpos) k l pos = Next pos'.
Proof.
  intros Hl. revert k pos. induction Hl as [|e0 l He Hl IH]; intros k pos Hp.
  { by exists pos. }
  simpl. unfold fpos_step at 1. rewrite bool_decide_false; last first.
  { rewrite <- (Nat.add_0_r k). apply Hp. simpl. lia. }
  apply IH. intros j Hj. rewrite Nat.add_succ_comm. apply Hp. simpl. lia.
Qed.

Lemma fpos_hit b k e o fpos :
  wf b → total (contents b) < 2 ^ 64 → 0 ≤ o → contents b !! k = Some e →
  aesd_circular_buffer_fpos_for_entry b (slot b k) o fpos
  = Done (if bool_decide (o < entry_size e) then (0, total (take k (contents b)) + o)
          else (1, fpos)).
Proof.
  intros Hwf Htot Ho Hk. rewrite fpos_loop by done.
  pose proof (lookup_lt_Some _ _ _ Hk) as Hlt.
  change (slot b k) with (slot b (0 + k)).
  rewrite (scan_fpos_hit b o fpos (rotated b) 0 0 k e);
    [|done|by apply rotated_sizes|..|done|done|].
  - rewrite rotated_contents, take_app_le by lia. done.
  - rewrite rotated_length, (wf_length b Hwf). lia.
  - rewrite rotated_contents. by rewrite lookup_app_l.
  - rewrite total_rotated by done. lia.
Qed.

(** A pointer that is not one of the live entries: a free slot holds no byte,
    any other pointer is not met by the loop. *)
Lemma fpos_miss b p o fpos :
  wf b → total (contents b) < 2 ^ 64 → 0 ≤ o →
  (∀ k, (k < ring_count b)%nat → slot b k ≠ p) →
  aesd_circular_buffer_fpos_for_entry b p o fpos = Done (1, fpos).
Proof.
  intros Hwf Htot Ho Hp. rewrite fpos_loop by done.
  destruct (decide (Exists (λ k, slot b k = p) (seq 0 10))) as [Hex|Hno].
  - apply Exists_exists in Hex as (k & Hk%elem_of_seq & <-).
    destruct (decide (k < ring_count b)%nat) as [Hlt|Hge]; [by destruct (Hp k Hlt)|].
    destruct (lookup_lt_is_Some_2 (rotated b) k) as [e He].
    { rewrite rotated_length, (wf_length b Hwf). lia. }
    change (slot b k) with (slot b (0 + k)).
    rewrite (scan_fpos_hit b o fpos (rotated b) 0 0 k e);
      [|done|by apply rotated_sizes|..|done|done|done|].
    + pose proof (wf_free b Hwf) as Hfree. rewrite Forall_lookup in Hfree.
      rewrite bool_decide_false; [done|].
      rewrite (Hfree (k - ring_count b)%nat e); [lia|].
      rewrite lookup_drop. by replace (ring_count b + (k - ring_count b))%nat with k by lia.
    + rewrite rotated_length, (wf_length b Hwf). lia.
    + rewrite total_rotated by done. lia.
  - destruct (scan_fpos_miss b p o fpos (rotated b) 0 0) as [pos' ->]; [|..|done].
    + by apply rotated_sizes.
    + intros j Hj Hs. apply Hno, Exists_exists. exists j. split; [|done].
      apply elem_of_seq. rewrite rotated_length, (wf_length b Hwf) in Hj. lia.
Qed.

Definition size_step (sz _index : Z) (e : aesd_buffer_entry) : flow Z Z :=
  Next (u64 (sz + entry_size e)).

Lemma scan_size b l k pos :
  Forall entry_ok l → 0 ≤ pos → pos + total l < 2 ^ 64 →
  scan b size_step k l pos = Next (pos + total l).
Proof.
  intros Hl. revert k pos. induction Hl as [|e l He Hl IH]; intros k pos Hpos Htot.
  { simpl. rewrite total_nil. f_equal. lia. }
  pose proof (total_nonneg l Hl). rewrite total_cons in *. unfold entry_ok in He.
  simpl. cint. rewrite IH by lia. f_equal. lia.
Qed.

Lemma get_size_total b :
  wf b → total (contents b) < 2 ^ 64 →
  aesd_circular_buffer_get_size b = Done (total (contents b)).
Proof.
  intros Hwf Htot. unfold aesd_circular_buffer_get_size.
  rewrite (ring_loop b Hwf size_step).
  - rewrite scan_size; rewrite ?total_rotated by done; [done|by apply rotated_sizes|lia|lia].
  - intros s i e Hi He. simpl. rewrite He. simpl. unfold size_step. by cint.
  - done.
Qed.

(** ** The ring over its whole life *)

Fixpoint add_entries (b : aesd_circular_buffer) (es : list aesd_buffer_entry)
    : outcome aesd_circular_buffer :=
  match es with
  | [] => Done b
  | e :: es' => b' ← aesd_circular_buffer_add_entry b e; add_entries b' es'
  end.

Lemma init_wf b0 :
  wf (aesd_circular_buffer_init b0) ∧ contents (aesd_circular_buffer_init b0) = [].
Proof.
  split; [|done]. split; try done.
  - by repeat constructor.
  - by repeat constructor.
Qed.

Lemma add_entries_contents b es :
  wf b → Forall entry_ok es →
  ∃ b', add_entries b es = Done b' ∧ wf b' ∧ contents b' = lastn 10 (contents b ++ es).
Proof.
  intros Hwf Hes. revert b Hwf. induction Hes as [|e es He Hes IH]; intros b Hwf.
  - exists b. split_and!; [done..|]. rewrite app_nil_r, lastn_short; [done|].
    rewrite contents_length by done. by apply count_le.
  - destruct (add_entry_contents b e Hwf He) as (b1 & Hadd & Hwf1 & Hc1).
    destruct (IH b1 Hwf1) as (b' & Hrec & Hwf' & Hc').
    exists b'. simpl. rewrite Hadd. simpl. split_and!; [done..|].
    by rewrite Hc', Hc1, lastn_lastn_app, <- app_assoc.
Qed.

Lemma add_entries_count b0 es b :
  wf b → contents b = lastn 10 es →
  add_entries (aesd_circular_buffer_init b0) es = Done b →
  aesd_circular_buffer_get_count b = Z.of_nat (Nat.min 10 (length es)).
Proof.
  intros Hwf Hc _. rewrite get_count_count, <- contents_length by done.
  by rewrite Hc, lastn_length.
Qed.

(** ** Theorems *)

(** C1: from initialisation on, whatever memory the structure occupied, adding
    any number of entries never leaves the array, and the ring then holds
    exactly the last ten entries added, oldest first; the count is the number
    of entries added capped at ten and the [full] flag says ten were added. *)
Theorem ring_keeps_last_ten b0 es :
  Forall entry_ok es →
  ∃ b, add_entries (aesd_circular_buffer_init b0) es = Done b ∧ wf b ∧
    contents b = lastn 10 es ∧
    aesd_circular_buffer_get_count b = Z.of_nat (Nat.min 10 (length es)) ∧
    full b = bool_decide (10 ≤ length es)%nat.
Proof.
  intros Hes. destruct (init_wf b0) as [Hwf0 Hc0].
  destruct (add_entries_contents _ es Hwf0 Hes) as (b & Hadd & Hwf & Hc).
  rewrite Hc0 in Hc. simpl in Hc. exists b. split_and!; [done..| |].
  - by eapply add_entries_count.
  - rewrite count_full, <- contents_length, Hc, lastn_length by done.
    apply bool_decide_ext. lia.
Qed.

Definition sample_entries (n : nat) : list aesd_buffer_entry :=
  (λ k, BufferEntry (4096 + Z.of_nat k) (Z.of_nat (k mod 4))) <$> seq 1 n.

Lemma sample_entries_ok n : Forall entry_ok (sample_entries n).
Proof.
  apply Forall_fmap, Forall_forall. intros k _. unfold entry_ok. simpl.
  pose proof (Nat.mod_upper_bound k 4). lia.
Qed.

Lemma ring_keeps_last_ten_witness :
  ∃ b, add_entries (aesd_circular_buffer_init (CircularBuffer [] 7 9 true))
         (sample_entries 13) = Done b ∧ wf b ∧
    contents b = lastn 10 (sample_entries 13) ∧
    aesd_circular_buffer_get_count b = Z.of_nat (Nat.min 10 13) ∧
    full b = bool_decide (10 ≤ 13)%nat.
Proof.
  apply (ring_keeps_last_ten (CircularBuffer [] 7 9 true) (sample_entries 13)).
  apply sample_entries_ok.
Defined.

(** A full ring that has wrapped around: thirteen entries added. *)
Definition sample_ring : aesd_circular_buffer :=
  match add_entries (aesd_circular_buffer_init (CircularBuffer [] 0 0 false))
          (sample_entries 13) with
  | Done b => b
  | _ => CircularBuffer [] 0 0 false
  end.

Lemma sample_ring_wf : wf sample_ring.
Proof.
  destruct (add_entries_contents _ (sample_entries 13)
    (proj1 (init_wf (CircularBuffer [] 0 0 false)))) as (b & Hadd & Hwf & _).
  { apply sample_entries_ok. }
  unfold sample_ring. by rewrite Hadd.
Qed.

(** Adding an entry to any well-formed ring stays inside the array, keeps the
    ring well formed and leaves in it the last ten of the old entries followed
    by the new one, so that a full ring drops exactly its oldest entry. *)
Lemma add_entry_correct b e :
  wf b → entry_ok e →
  ∃ b', aesd_circular_buffer_add_entry b e = Done b' ∧ wf b' ∧
    contents b' = (if full b then tail (contents b) else contents b) ++ [e].
Proof.
  intros Hwf He. rewrite count_full by done. pose proof (count_le b Hwf).
  case_bool_decide.
  - destruct (add_entry_full b e) as (b' & ? & ? & ? & _); [done..|eauto].
  - destruct (add_entry_room b e) as (b' & ? & ? & ? & _); [done|done|lia|eauto].
Qed.

Lemma add_entry_correct_witness :
  ∃ b', aesd_circular_buffer_add_entry sample_ring (BufferEntry 77 5) = Done b' ∧ wf b' ∧
    contents b' = (if full sample_ring then tail (contents sample_ring)
                   else contents sample_ring) ++ [BufferEntry 77 5].
Proof. apply (add_entry_correct sample_ring); [apply sample_ring_wf | done]. Defined.

(** C9: looking up a byte position ends after one pass at most.  A position
    inside the stored bytes gives the entry that holds it and the byte's offset
    in that entry; a position at or past the end gives NULL and leaves the
    output parameter alone. *)
Theorem find_entry_correct b char_offset rtn :
  wf b → total (contents b) < 2 ^ 64 → 0 ≤ char_offset →
  if bool_decide (char_offset < total (contents b)) then
    ∃ k e o, at_pos (contents b) char_offset k e o ∧
      entry b !! Z.to_nat (slot b k) = Some e ∧
      aesd_circular_buffer_find_entry_offset_for_fpos b char_offset rtn
      = Done (Some (slot b k), o)
  else aesd_circular_buffer_find_entry_offset_for_fpos b char_offset rtn
       = Done (None, rtn).
Proof.
  intros Hwf Htot Hoff. case_bool_decide; [|apply find_miss; [done..|lia]].
  destruct (at_pos_exists (contents b) char_offset) as (k & e & o & Hat).
  { by apply contents_sizes. }
  { lia. }
  exists k, e, o. split_and!; [done| |by eapply find_hit].
  destruct Hat as (Hk & _). rewrite <- contents_lookup; [done..|].
  rewrite <- contents_length by done. by eapply lookup_lt_Some.
Qed.

Lemma find_entry_correct_witness :
  total (contents sample_ring) = 13 ∧
  aesd_circular_buffer_find_entry_offset_for_fpos sample_ring 5 0 = Done (Some 6, 2) ∧
  if bool_decide (5 < total (contents sample_ring)) then
    ∃ k e o, at_pos (contents sample_ring) 5 k e o ∧
      entry sample_ring !! Z.to_nat (slot sample_ring k) = Some e ∧
      aesd_circular_buffer_find_entry_offset_for_fpos sample_ring 5 0
      = Done (Some (slot sample_ring k), o)
  else aesd_circular_buffer_find_entry_offset_for_fpos sample_ring 5 0 = Done (None, 0).
Proof.
  split; [reflexivity|split; [reflexivity|]].
  apply (find_entry_correct sample_ring 5 0); [apply sample_ring_wf | done..].
Defined.

(** The position of a byte of an entry: for a pointer to a live entry it is
    the sizes of the older entries plus the offset when the offset is inside
    the entry; an offset past the entry, and a pointer to a free slot or
    outside the array, give error 1 and leave the output parameter alone. *)
Lemma fpos_for_entry_correct b p o fpos :
  wf b → total (contents b) < 2 ^ 64 → 0 ≤ o →
  (∀ k e, contents b !! k = Some e → slot b k = p →
    aesd_circular_buffer_fpos_for_entry b p o fpos
    = Done (if bool_decide (o < entry_size e)
            then (0, total (take k (contents b)) + o) else (1, fpos))) ∧
  ((∀ k, (k < ring_count b)%nat → slot b k ≠ p) →
    aesd_circular_buffer_fpos_for_entry b p o fpos = Done (1, fpos)).
Proof.
  intros Hwf Htot Ho. split.
  - intros k e Hk <-. by apply fpos_hit.
  - intros Hp. by apply fpos_miss.
Qed.

Lemma fpos_for_entry_correct_witness :
  aesd_circular_buffer_fpos_for_entry sample_ring 6 2 0 = Done (0, 5) ∧
  (contents sample_ring !! 3%nat = Some (BufferEntry 4103 3) → slot sample_ring 3 = 6 →
   aesd_circular_buffer_fpos_for_entry sample_ring 6 2 0
   = Done (if bool_decide (2 < 3) then (0, total (take 3 (contents sample_ring)) + 2)
           else (1, 0))).
Proof.
  split; [reflexivity|].
  apply (fpos_for_entry_correct sample_ring 6 2 0); [apply sample_ring_wf | done..].
Defined.

(** The two lookups are inverse to each other: the entry and offset found for
    a position have that position, and the position of an entry's byte finds
    the entry and the offset again. *)
Lemma find_fpos_roundtrip b p o off rtn fpos :
  wf b → total (contents b) < 2 ^ 64 → 0 ≤ off → 0 ≤ o →
  aesd_circular_buffer_find_entry_offset_for_fpos b off rtn = Done (Some p, o) ↔
  aesd_circular_buffer_fpos_for_entry b p o fpos = Done (0, off).
Proof.
  intros Hwf Htot Hoff Ho. split; intros H.
  - destruct (decide (off < total (contents b))); [|by rewrite find_miss in H by (done || lia)].
    destruct (at_pos_exists (contents b) off) as (k & e & o' & Hat); [by apply contents_sizes|lia|].
    rewrite (find_hit b off rtn k e o') in H by done. simplify_eq.
    destruct Hat as (Hk & [] & ->). rewrite (fpos_hit b k e) by done.
    by rewrite bool_decide_true.
  - destruct (decide (Exists (λ k, slot b k = p) (seq 0 (ring_count b)))) as [Hex|Hno].
    + apply Exists_exists in Hex as (k & Hk%elem_of_seq & <-).
      destruct (lookup_lt_is_Some_2 (contents b) k) as [e He].
      { rewrite contents_length; [lia|done]. }
      rewrite (fpos_hit b k e) in H by done. case_bool_decide; simplify_eq.
      by apply (find_hit b _ rtn k e o).
    + rewrite fpos_miss in H; [done..|]. intros k Hk Hs.
      apply Hno, Exists_exists. exists k. split; [|done]. apply elem_of_seq. lia.
Qed.

Lemma find_fpos_roundtrip_witness :
  aesd_circular_buffer_find_entry_offset_for_fpos sample_ring 5 0 = Done (Some 6, 2) ↔
  aesd_circular_buffer_fpos_for_entry sample_ring 6 2 0 = Done (0, 5).
Proof.
  apply (find_fpos_roundtrip sample_ring 6 2 5 0 0); [apply sample_ring_wf | done..].
Defined.
