(* ===== verification/Kernel.v ===== *)
(** * Kernel services (not under src/)

    The driver calls the slab allocator, the user-copy routines, the generic
    [llseek], the ioctl number macros and the character-device registration.
    Their code is not in the repository: [KernelServices] makes them parameters
    of the driver's model and [KernelLaws] states the documented behaviour the
    driver relies on.  [Reference] at the end is an instance of both: the
    witnesses of the driver's theorems run on it. *)

From S2P Require Import Prelude.

Definition EINVAL : Z := 22.
Definition ENOMEM : Z := 12.
Definition EFAULT : Z := 14.
Definition ENOTTY : Z := 25.

Definition SEEK_SET : Z := 0.
Definition SEEK_CUR : Z := 1.
Definition SEEK_END : Z := 2.

(** The largest byte count the VFS passes to a driver's read or write. *)
Definition MAX_RW_COUNT : Z := 2147479552.

Definition newline : ascii := "010".

(** The live blocks of the allocator: their contents by address. *)
Abbreviation blocks := (gmap Z (list ascii)).

Definition blen (c : list ascii) : Z := Z.of_nat (length c).

(** The bytes allocated in all. *)
Definition heap_bytes (h : blocks) : Z := map_fold (λ _ c acc, blen c + acc) 0 h.

Class KernelServices := {
  (* the [n]-th allocator call: None for NULL, else the address and the
     (uninitialised) contents of the new block *)
  kmalloc_result : nat → blocks → Z → option (Z * list ascii);
  (* likewise for a resize of the live block at an address: the address and
     the contents of the block that replaces it *)
  krealloc_result : nat → blocks → Z → Z → option (Z * list ascii);
  (* what lands in the kernel's [n] bytes, and the number of bytes not copied *)
  copy_from_user : list ascii → Z → (list ascii * Z);
  (* the user memory afterwards, and the number of bytes not copied *)
  copy_to_user : list ascii → list ascii → (list ascii * Z);
  (* file position, offset, whence, size: return value and new position *)
  fixed_size_llseek : Z → Z → Z → Z → (Z * Z);
  (* ioctl number macros *)
  IOC_TYPE : Z → Z;
  IOC_NR : Z → Z;
  IOWR : Z → Z → Z → Z;
  (* device numbers and the results of the registration calls *)
  MAJOR : Z → Z;
  MKDEV : Z → Z → Z;
  alloc_chrdev_region_result : gset Z → Z → (Z * Z);
  cdev_add_result : gset Z → Z → Z;
}.

Class KernelLaws `{KernelServices} : Prop := {
  kmalloc_law n h sz p c :
    0 < sz → kmalloc_result n h sz = Some (p, c) →
    0 < p ∧ h !! p = None ∧ blen c = sz ∧ heap_bytes h + sz < 2 ^ 63;
  krealloc_law n h p sz old q c :
    0 < sz → h !! p = Some old → krealloc_result n h p sz = Some (q, c) →
    0 < q ∧ (q = p ∨ h !! q = None) ∧ blen c = sz ∧
    take (Nat.min (length old) (Z.to_nat sz)) c
    = take (Nat.min (length old) (Z.to_nat sz)) old ∧
    heap_bytes (delete p h) + sz < 2 ^ 63;
  copy_from_user_law user n data left :
    0 ≤ n → copy_from_user user n = (data, left) →
    blen data = n ∧ 0 ≤ left ≤ n ∧
    (n ≤ blen user → left = 0) ∧
    (left = 0 → n ≤ blen user ∧ data = take (Z.to_nat n) user);
  copy_to_user_law user src user' left :
    copy_to_user user src = (user', left) →
    length user' = length user ∧ 0 ≤ left ≤ blen src ∧
    (blen src ≤ blen user → left = 0) ∧
    (left = 0 → blen src ≤ blen user ∧ user' = src ++ drop (length src) user);
  llseek_set pos off sz :
    fixed_size_llseek pos off SEEK_SET sz
    = if bool_decide (0 ≤ off ≤ sz) then (off, off) else (- EINVAL, pos);
  llseek_end pos off sz :
    fixed_size_llseek pos off SEEK_END sz
    = if bool_decide (0 ≤ sz + off ≤ sz) then (sz + off, sz + off) else (- EINVAL, pos);
  llseek_cur pos off sz :
    off ≠ 0 →
    fixed_size_llseek pos off SEEK_CUR sz
    = if bool_decide (0 ≤ pos + off ≤ sz) then (pos + off, pos + off)
      else (- EINVAL, pos);
  llseek_tell pos sz : fixed_size_llseek pos 0 SEEK_CUR sz = (pos, pos);
  IOC_TYPE_IOWR t n sz :
    0 ≤ t < 256 → 0 ≤ n < 256 → 0 ≤ sz < 2 ^ 13 → IOC_TYPE (IOWR t n sz) = t;
  IOC_NR_IOWR t n sz :
    0 ≤ t < 256 → 0 ≤ n < 256 → 0 ≤ sz < 2 ^ 13 → IOC_NR (IOWR t n sz) = n;
  (* a region handed out is new, and its number is that of its major *)
  alloc_chrdev_region_law regions minor ret dev :
    alloc_chrdev_region_result regions minor = (ret, dev) →
    ret ≤ 0 ∧ (ret = 0 → (dev ∉ regions) ∧ MKDEV (MAJOR dev) minor = dev);
}.

(** ** The allocator's state *)
Record kernel := KernelState {
  live : blocks;
  calls : nat;
}.

Section Allocator.
Context `{KernelServices}.

Definition kmalloc (sz : Z) (k : kernel) : (Z * kernel) :=
  match kmalloc_result (calls k) (live k) sz with
  | None => (0, KernelState (live k) (S (calls k)))
  | Some (p, c) => (p, KernelState (<[p := c]> (live k)) (S (calls k)))
  end.

(** Resizing a live block; a failed call leaves the block alone. *)
Definition krealloc (p sz : Z) (k : kernel) : outcome (Z * kernel) :=
  match live k !! p with
  | None => Undef
  | Some _ =>
      match krealloc_result (calls k) (live k) p sz with
      | None => Done (0, KernelState (live k) (S (calls k)))
      | Some (q, c) =>
          Done (q, KernelState (<[q := c]> (delete p (live k))) (S (calls k)))
      end
  end.

(** Freeing NULL does nothing; freeing what is not live is undefined. *)
Definition kfree (p : Z) (k : kernel) : outcome kernel :=
  if bool_decide (p = 0) then Done k
  else match live k !! p with
       | None => Undef
       | Some _ => Done (KernelState (delete p (live k)) (S (calls k)))
       end.

(** [n] bytes from offset [off] of the live block at [p]. *)
Definition kread (p off n : Z) (k : kernel) : outcome (list ascii) :=
  match live k !! p with
  | None => Undef
  | Some c =>
      if bool_decide (0 ≤ off ∧ 0 ≤ n ∧ off + n ≤ blen c)
      then Done (take (Z.to_nat n) (drop (Z.to_nat off) c)) else Undef
  end.

(** Overwrite the bytes from offset [off] of the live block at [p]. *)
Definition kwrite (p off : Z) (data : list ascii) (k : kernel) : outcome kernel :=
  match live k !! p with
  | None => Undef
  | Some c =>
      if bool_decide (0 ≤ off ∧ off + blen data ≤ blen c)
      then Done (KernelState
             (<[p := take (Z.to_nat off) c ++ data
                     ++ drop (Z.to_nat off + length data) c]> (live k)) (calls k))
      else Undef
  end.
End Allocator.

(** ** Bytes allocated *)

Lemma heap_bytes_insert h p c :
  h !! p = None → heap_bytes (<[p := c]> h) = blen c + heap_bytes h.
Proof.
  intros Hp. unfold heap_bytes. rewrite map_fold_insert_L; [done| |done].
  intros. lia.
Qed.

Lemma heap_bytes_delete h p c :
  h !! p = Some c → heap_bytes h = blen c + heap_bytes (delete p h).
Proof.
  intros Hp. rewrite <- (heap_bytes_insert (delete p h) p c) by apply lookup_delete_eq.
  by rewrite insert_delete_id.
Qed.

Lemma heap_bytes_nonneg h : 0 ≤ heap_bytes h.
Proof.
  induction h as [|p c h Hp IH] using map_ind; [done|].
  rewrite heap_bytes_insert by done. unfold blen. lia.
Qed.

(** ** A concrete kernel

    Addresses are handed out in increasing order, an allocator call fails when
    [fails] says so (or memory is exhausted), a faulting user copy moves
    nothing.  The ioctl and device numbers are laid out as Linux documents. *)
Section Reference.
Context (fails : nat → bool).

Definition fresh_address (h : blocks) : Z := map_fold (λ p _ m, Z.max p m) 4095 h + 1.

Definition reference_alloc (n : nat) (h : blocks) (sz : Z) (c : list ascii)
    : option (Z * list ascii) :=
  if bool_decide (fails n = false ∧ blen c = sz ∧ heap_bytes h + sz < 2 ^ 63)
  then Some (fresh_address h, c) else None.

Definition next_major (regions : gset Z) : Z :=
  set_fold (λ dev m, Z.max (dev / 2 ^ 20) m) 0 regions + 1.

#[local] Instance reference_services : KernelServices := {
  kmalloc_result n h sz := reference_alloc n h sz (replicate (Z.to_nat sz) "000"%char);
  krealloc_result n h p sz :=
    match h !! p with
    | None => None
    | Some old =>
        match reference_alloc n (delete p h) sz (resize (Z.to_nat sz) "000"%char old) with
        | Some (_, c) => Some (fresh_address h, c)
        | None => None
        end
    end;
  copy_from_user user n :=
    if bool_decide (n ≤ blen user) then (take (Z.to_nat n) user, 0)
    else (replicate (Z.to_nat n) "000"%char, n);
  copy_to_user user src :=
    if bool_decide (blen src ≤ blen user) then (src ++ drop (length src) user, 0)
    else (user, blen src);
  fixed_size_llseek pos off whence sz :=
    let set q := if bool_decide (0 ≤ q ≤ sz) then (q, q) else (- EINVAL, pos) in
    if bool_decide (whence = SEEK_SET) then set off
    else if bool_decide (whence = SEEK_END) then set (sz + off)
    else if bool_decide (whence = SEEK_CUR) then
      if bool_decide (off = 0) then (pos, pos) else set (pos + off)
    else (- EINVAL, pos);
  IOC_TYPE cmd := (cmd / 2 ^ 8) mod 2 ^ 8;
  IOC_NR cmd := cmd mod 2 ^ 8;
  IOWR t n sz := 3 * 2 ^ 30 + sz * 2 ^ 16 + t * 2 ^ 8 + n;
  MAJOR dev := dev / 2 ^ 20;
  MKDEV major minor := major * 2 ^ 20 + minor;
  alloc_chrdev_region_result regions minor :=
    if bool_decide (0 ≤ minor < 2 ^ 20)
    then (0, next_major regions * 2 ^ 20 + minor) else (- EINVAL, 0);
  cdev_add_result regions dev := if bool_decide (dev ∈ regions) then 0 else - EINVAL;
}.

Lemma fresh_address_above h : 4095 < fresh_address h ∧ ∀ p c, h !! p = Some c → p < fresh_address h.
Proof using.
  unfold fresh_address.
  apply (map_fold_weak_ind (λ m h, 4095 < m + 1 ∧ ∀ p c, h !! p = Some c → p < m + 1)).
  - by split; [lia|intros p c; rewrite lookup_empty].
  - intros p c h' m Hp [Hm Hlt]. split; [lia|]. intros q c'.
    rewrite lookup_insert_Some. intros [[<- _]|[_ Hq]]; [lia|].
    specialize (Hlt q c' Hq). lia.
Qed.

Lemma fresh_address_None h : h !! fresh_address h = None.
Proof using.
  destruct (h !! fresh_address h) eqn:E; [|done].
  apply fresh_address_above in E. lia.
Qed.

Lemma reference_alloc_Some n h sz c p c' :
  reference_alloc n h sz c = Some (p, c') →
  p = fresh_address h ∧ c' = c ∧ blen c = sz ∧ heap_bytes h + sz < 2 ^ 63.
Proof using.
  unfold reference_alloc. case_bool_decide; [|done]. intros [= <- <-]. intuition.
Qed.

Lemma next_major_above regions dev :
  0 < next_major regions ∧ (dev ∈ regions → dev / 2 ^ 20 < next_major regions).
Proof using.
  unfold next_major.
  apply (set_fold_ind_L (λ m (X : gset Z), 0 < m + 1 ∧ (dev ∈ X → dev / 2 ^ 20 < m + 1))).
  - split; [lia|set_solver].
  - intros x X m Hx [Hm Hlt]. split; [lia|].
    intros [->%elem_of_singleton|?]%elem_of_union; [lia|]. specialize (Hlt H). lia.
Qed.

Lemma take_resize_min (old : list ascii) n x :
  take (Nat.min (length old) n) (resize n x old) = take (Nat.min (length old) n) old.
Proof using.
  destruct (decide (n ≤ length old)%nat).
  - rewrite resize_le by done. rewrite take_take. f_equal. lia.
  - rewrite resize_ge by lia. rewrite take_app_le by lia. done.
Qed.

Lemma reference_krealloc_law n h p sz old q c :
  0 < sz → h !! p = Some old → krealloc_result n h p sz = Some (q, c) →
  0 < q ∧ (q = p ∨ h !! q = None) ∧ blen c = sz ∧
  take (Nat.min (length old) (Z.to_nat sz)) c
  = take (Nat.min (length old) (Z.to_nat sz)) old ∧
  heap_bytes (delete p h) + sz < 2 ^ 63.
Proof using.
  intros Hsz Hp. simpl. rewrite Hp.
  destruct (reference_alloc _ _ _ _) as [[q' c']|] eqn:E; [|done]. intros [= <- <-].
  apply reference_alloc_Some in E as (_ & -> & Hl & Hb).
  destruct (fresh_address_above h) as [? _]. split_and!; [lia| |done| |done].
  - right. apply fresh_address_None.
  - apply take_resize_min.
Qed.

Ltac seek := intros; simpl; unfold SEEK_SET, SEEK_CUR, SEEK_END in *;
  by repeat (case_bool_decide; try lia).

#[local] Instance reference_laws : KernelLaws.
Proof using.
  split.
  - intros n h sz p c Hsz E. apply reference_alloc_Some in E as (-> & -> & Hl & Hb).
    destruct (fresh_address_above h) as [? _]. split_and!; [lia| |done..].
    apply fresh_address_None.
  - apply reference_krealloc_law.
  - intros user n data left Hn. simpl. unfold blen.
    case_bool_decide; intros [= <- <-];
      rewrite ?length_take, ?length_replicate; split_and!; intros; (lia || done || idtac).
  - intros user src user' left. simpl. unfold blen.
    case_bool_decide; intros [= <- <-];
      rewrite ?length_app, ?length_drop; split_and!; intros; (lia || done || idtac).
  - seek.
  - seek.
  - seek.
  - seek.
  - intros t n sz Ht Hn Hs. simpl. change (2 ^ 8) with 256.
    change (2 ^ 16) with 65536. change (2 ^ 30) with 1073741824.
    rewrite <- (Z.div_unique_pos _ 256 (12582912 + sz * 256 + t) n) by lia.
    rewrite <- (Z.mod_unique_pos _ 256 (49152 + sz) t) by lia. done.
  - intros t n sz Ht Hn Hs. simpl. change (2 ^ 8) with 256.
    change (2 ^ 16) with 65536. change (2 ^ 30) with 1073741824.
    rewrite <- (Z.mod_unique_pos _ 256 (12582912 + sz * 256 + t) n) by lia. done.
  - intros regions minor ret dev. simpl. case_bool_decide; intros [= <- <-].
    + split; [lia|]. intros _. split.
      * intros Hin. pose proof (next_major_above regions
          (next_major regions * 2 ^ 20 + minor)) as [_ Hlt].
        specialize (Hlt Hin). rewrite Z.div_add_l, Z.div_small in Hlt by lia. lia.
      * simpl. rewrite Z.div_add_l, Z.div_small by lia. lia.
    + unfold EINVAL. lia.
Qed.
End Reference.
