(* ===== verification/CharDriver.v ===== *)
(** * The aesdchar device driver (aesd-char-driver/main.c, aesdchar.h, aesd_ioctl.h)

    The driver's state and its file operations, on the kernel services of
    [Kernel].  Each operation is one definition in the state monad, with the
    guards and early returns of the C function; an access the C standard leaves
    undefined, a lock taken twice and an unlock without a lock are [Undef]. *)

From S2P Require Import Prelude CircularBuffer Kernel.

(** [struct aesd_dev]; the mutex is the flag "held". *)
Record aesd_dev := AesdDev {
  buffer : aesd_circular_buffer;
  current_entry : aesd_buffer_entry;
  lock : bool;
}.

(** The module's global [aesd_device] and the allocator it shares. *)
Record driver := Driver {
  aesd_device : aesd_dev;
  kern : kernel;
}.

Definition set_buffer (b : aesd_circular_buffer) (d : driver) : driver :=
  Driver (AesdDev b (current_entry (aesd_device d)) (lock (aesd_device d))) (kern d).

Definition set_current_entry (e : aesd_buffer_entry) (d : driver) : driver :=
  Driver (AesdDev (buffer (aesd_device d)) e (lock (aesd_device d))) (kern d).

Definition set_lock (l : bool) (d : driver) : driver :=
  Driver (AesdDev (buffer (aesd_device d)) (current_entry (aesd_device d)) l) (kern d).

Definition set_kern (k : kernel) (d : driver) : driver := Driver (aesd_device d) k.

Definition set_entries (es : list aesd_buffer_entry) (b : aesd_circular_buffer)
    : aesd_circular_buffer :=
  CircularBuffer es (in_offs b) (out_offs b) (full b).

(** ** Locking: the mutex is not recursive *)
Definition mutex_lock : M driver unit :=
  λ d, if lock (aesd_device d) then Undef else Done (tt, set_lock true d).

Definition mutex_unlock : M driver unit :=
  λ d, if lock (aesd_device d) then Done (tt, set_lock false d) else Undef.

(** ** struct aesd_seekto in user memory: two little-endian 32-bit integers *)
Record aesd_seekto := SeekTo {
  write_cmd : Z;
  write_cmd_offset : Z;
}.

Definition le_decode (bs : list ascii) : Z :=
  foldr (λ b acc, Z.of_N (N_of_ascii b) + 256 * acc) 0 bs.

Definition seekto_of_bytes (bs : list ascii) : aesd_seekto :=
  SeekTo (le_decode (take 4 bs)) (le_decode (take 4 (drop 4 bs))).

Definition sizeof_seekto : Z := 8.

(** The same structure as user space lays it out. *)
Definition le_encode (z : Z) : list ascii :=
  (λ i, ascii_of_N (Z.to_N ((z / 256 ^ i) mod 256))) <$> [0; 1; 2; 3].

Definition seekto_bytes (k off : Z) : list ascii := le_encode k ++ le_encode off.

Lemma byte_value x : Z.of_N (N_of_ascii (ascii_of_N (Z.to_N (x mod 256)))) = x mod 256.
Proof.
  pose proof (Z.mod_pos_bound x 256). rewrite N_ascii_embedding by lia. lia.
Qed.

Lemma le_decode_encode z : 0 ≤ z < 2 ^ 32 → le_decode (le_encode z) = z.
Proof.
  intros Hz. unfold le_encode, le_decode. simpl.
  rewrite !byte_value.
  change (256 ^ 0) with 1. change (256 ^ 1) with 256. change (256 ^ 2) with (256 * 256).
  change (256 ^ 3) with (256 * (256 * 256)). rewrite <- !Z.div_div by lia.
  pose proof (Z.div_mod (z / 1) 256). pose proof (Z.div_mod (z / 256) 256).
  pose proof (Z.div_mod (z / 256 / 256) 256). rewrite Z.div_1_r in *.
  assert (0 ≤ z / 256 / 256 / 256 < 256).
  { rewrite !Z.div_div by lia.
    split; [apply Z.div_pos; lia|apply Z.div_lt_upper_bound; lia]. }
  rewrite (Z.mod_small (z / 256 / 256 / 256)) by lia. lia.
Qed.

Lemma seekto_roundtrip k off :
  0 ≤ k < 2 ^ 32 → 0 ≤ off < 2 ^ 32 →
  seekto_of_bytes (seekto_bytes k off) = SeekTo k off.
Proof.
  intros Hk Hoff. unfold seekto_of_bytes, seekto_bytes.
  change (take 4 (le_encode k ++ le_encode off)) with (le_encode k).
  change (take 4 (drop 4 (le_encode k ++ le_encode off))) with (le_encode off).
  by rewrite !le_decode_encode.
Qed.

Definition AESD_IOC_MAGIC : Z := 0x16.
Definition AESDCHAR_IOC_MAXNR : Z := 1.

Section Driver.
Context `{KernelServices}.

Definition AESDCHAR_IOCSEEKTO : Z := IOWR AESD_IOC_MAGIC 1 sizeof_seekto.

(** Calls into the allocator on the driver's kernel state. *)
Definition do_kmalloc (sz : Z) : M driver Z := λ d,
  let '(p, k) := kmalloc sz (kern d) in Done (p, set_kern k d).

Definition do_krealloc (p sz : Z) : M driver Z := λ d,
  '(q, k) ← krealloc p sz (kern d); Done (q, set_kern k d).

Definition do_kfree (p : Z) : M driver unit := λ d,
  k ← kfree p (kern d); Done (tt, set_kern k d).

Definition do_kread (p off n : Z) : M driver (list ascii) := λ d,
  bs ← kread p off n (kern d); Done (bs, d).

(** [copy_from_user] into the block at [p]: the bytes not copied. *)
Definition do_copy_from_user (p off : Z) (user : list ascii) (n : Z) : M driver Z := λ d,
  let '(data, not_copied) := copy_from_user user n in
  k ← kwrite p off data (kern d); Done (not_copied, set_kern k d).

Definition aesd_open : M driver Z := mret 0.

Definition aesd_release : M driver Z := mret 0.

(** The result is the return value, the file position and the user buffer
    afterwards. *)
Definition aesd_read (buf : list ascii) (count f_pos : Z) : M driver (Z * Z * list ascii) :=
  mutex_lock;;
  b ← gets (λ d, buffer (aesd_device d));
  '(entry_ptr, offset) ←
    lift (aesd_circular_buffer_find_entry_offset_for_fpos b (u64 f_pos) 0);
  result ←
    match entry_ptr with
    | None => mret (0, f_pos, buf)
    | Some index =>
        if bool_decide (count = 0) then mret (0, f_pos, buf)
        else
          e ← lift (array_get (entry b) index);
          let bytes_to_copy :=
            if bool_decide (u64 (entry_size e - offset) < count)
            then u64 (entry_size e - offset) else count in
          src ← do_kread (buffptr e) offset bytes_to_copy;
          let '(buf', not_copied) := copy_to_user buf src in
          if bool_decide (not_copied ≠ 0) then mret (- EFAULT, f_pos, buf')
          else mret (s64 bytes_to_copy, s64 (u64 f_pos + bytes_to_copy), buf')
    end;
  mutex_unlock;;
  mret result.

Definition aesd_write (buf : list ascii) (count : Z) : M driver Z :=
  mutex_lock;;
  if bool_decide (count = 0) then mutex_unlock;; mret 0
  else
    cur ← gets (λ d, current_entry (aesd_device d));
    insert_pos ←
      (if bool_decide (buffptr cur = 0) then
         p ← do_kmalloc count;
         modify (set_current_entry (BufferEntry p count));;
         mret 0
       else
         p ← do_krealloc (buffptr cur) (u64 (entry_size cur + count));
         modify (set_current_entry (BufferEntry p (u64 (entry_size cur + count))));;
         mret (entry_size cur));
    cur ← gets (λ d, current_entry (aesd_device d));
    if bool_decide (buffptr cur = 0) then mutex_unlock;; mret (- ENOMEM)
    else
      not_copied ← do_copy_from_user (buffptr cur) insert_pos buf count;
      if bool_decide (not_copied ≠ 0) then mutex_unlock;; mret (- EFAULT)
      else
        last_byte ← do_kread (buffptr cur) (u64 (insert_pos + count - 1)) 1;
        (if bool_decide (last_byte = [newline]) then
           b ← gets (λ d, buffer (aesd_device d));
           (if bool_decide (aesd_circular_buffer_get_count b = MAXOPS) then
              last_entry ← lift (array_get (entry b) (in_offs b));
              do_kfree (buffptr last_entry);;
              es ← lift (array_set (entry b) (in_offs b) (BufferEntry 0 0));
              modify (set_buffer (set_entries es b))
            else mret tt);;
           b ← gets (λ d, buffer (aesd_device d));
           b' ← lift (aesd_circular_buffer_add_entry b cur);
           modify (set_buffer b');;
           modify (set_current_entry (BufferEntry 0 0))
         else mret tt);;
        mutex_unlock;;
        mret (s64 count).

(** [file] is represented by its position; the result pairs the return value
    with the position afterwards. *)
Definition llseek (f_pos offset whence : Z) : M driver (Z * Z) :=
  b ← gets (λ d, buffer (aesd_device d));
  sz ← lift (aesd_circular_buffer_get_size b);
  let full_size := s64 sz in
  mret (fixed_size_llseek f_pos offset whence full_size).

Definition aesd_adjust_file_offset (f_pos write_cmd write_cmd_offset : Z)
    : M driver (Z * Z) :=
  b ← gets (λ d, buffer (aesd_device d));
  if bool_decide (write_cmd >= aesd_circular_buffer_get_count b)
  then mret (- EINVAL, f_pos)
  else
    let index := u32 (out_offs b + write_cmd) in
    e ← lift (array_get (entry b) index);
    if bool_decide (write_cmd_offset >= entry_size e) then mret (- EINVAL, f_pos)
    else
      '(err, new_pos) ←
        lift (aesd_circular_buffer_fpos_for_entry b index write_cmd_offset 0);
      if bool_decide (0 ≠ err) then mret (- EINVAL, f_pos)
      else mret (0, s64 new_pos).

(** [arg] is the user memory the argument points to. *)
Definition unlocked_ioctl (f_pos cmd : Z) (arg : list ascii) : M driver (Z * Z) :=
  if bool_decide (IOC_TYPE cmd ≠ AESD_IOC_MAGIC) then mret (- ENOTTY, f_pos)
  else if bool_decide (IOC_NR cmd > AESDCHAR_IOC_MAXNR) then mret (- ENOTTY, f_pos)
  else if bool_decide (cmd = AESDCHAR_IOCSEEKTO) then
    let '(bytes, not_copied) := copy_from_user arg sizeof_seekto in
    if bool_decide (0 ≠ not_copied) then mret (- EFAULT, f_pos)
    else
      let seek_to := seekto_of_bytes bytes in
      aesd_adjust_file_offset f_pos (write_cmd seek_to) (write_cmd_offset seek_to)
  else mret (- ENOTTY, f_pos).
End Driver.

(** ** Loading and unloading the module *)

(** The module's globals with the kernel's registries: the device-number regions
    in use, the numbers of the live character devices, and whether the mutex is
    initialised. *)
Record module_state := ModuleState {
  mdriver : driver;
  aesd_major : Z;
  regions : gset Z;
  cdevs : gset Z;
  mutex_live : bool;
}.

Definition aesd_minor : Z := 0.

Section Module.
Context `{KernelServices}.

(** [cdev_add]: the error code, and the device registered when it is 0. *)
Definition aesd_setup_cdev (m : module_state) : (Z * module_state) :=
  let devno := MKDEV (aesd_major m) aesd_minor in
  let err := cdev_add_result (regions m) devno in
  if bool_decide (err ≠ 0) then (err, m)
  else (err, ModuleState (mdriver m) (aesd_major m) (regions m)
               ({[devno]} ∪ cdevs m) (mutex_live m)).

Definition aesd_init_module (m : module_state) : (Z * module_state) :=
  let '(result, dev) := alloc_chrdev_region_result (regions m) aesd_minor in
  let major := MAJOR dev in
  if bool_decide (result < 0) then
    (result, ModuleState (mdriver m) major (regions m) (cdevs m) (mutex_live m))
  else
    (* memset of the device, mutex_init, the ring, the current entry *)
    let zeroed := AesdDev (CircularBuffer (replicate 10 (BufferEntry 0 0)) 0 0 false)
                    (BufferEntry 0 0) false in
    let device := AesdDev (aesd_circular_buffer_init (buffer zeroed))
                    (BufferEntry 0 0) (lock zeroed) in
    let m1 := ModuleState (Driver device (kern (mdriver m))) major
                ({[dev]} ∪ regions m) (cdevs m) true in
    let '(result, m2) := aesd_setup_cdev m1 in
    if bool_decide (result ≠ 0) then
      (result, ModuleState (mdriver m2) (aesd_major m2) (regions m2 ∖ {[dev]})
                 (cdevs m2) (mutex_live m2))
    else (result, m2).

(** The loop over the entries; [ring_count] is fixed before it starts. *)
Definition cleanup_ring (ring_count : Z) : M driver unit := λ d,
  r ← while_do (R := unit) ring_fuel
        (λ '(i, d),
           let b := buffer (aesd_device d) in
           let index := (out_offs b + i) mod ring_count in
           '(_, d') ←
             (e ← lift (array_get (entry b) index);
              do_kfree (buffptr e);;
              es ← lift (array_set (entry b) index (BufferEntry 0 0));
              modify (set_buffer (set_entries es b))) d;
           mret (Next (u8 (i + 1), d')))
        (λ '(i, _), bool_decide (i < ring_count))
        (0, d);
  match r with
  | Return _ => Done (tt, d)
  | Next (_, d') => Done (tt, d')
  end.

Definition cleanup_device : M driver unit :=
  cur ← gets (λ d, current_entry (aesd_device d));
  (if bool_decide (buffptr cur ≠ 0) then do_kfree (buffptr cur) else mret tt);;
  b ← gets (λ d, buffer (aesd_device d));
  cleanup_ring (aesd_circular_buffer_get_count b).

Definition aesd_cleanup_module (m : module_state) : outcome module_state :=
  let devno := MKDEV (aesd_major m) aesd_minor in
  '(_, d) ← cleanup_device (mdriver m);
  mret (ModuleState d (aesd_major m) (regions m ∖ {[devno]}) (cdevs m ∖ {[devno]}) false).
End Module.
