(* ===== verification/DriverSpec.v ===== *)
(** * What the device promises: a log of the last ten commands

    The abstract device: the complete commands, oldest first, and the bytes
    written since the last newline.  [rep] relates a state of the driver of
    [CharDriver] to it; the refinement proofs are in [DriverRefine]. *)

From S2P Require Import Prelude CircularBuffer Kernel CharDriver.

Record spec := Spec {
  commands : list (list ascii);
  pending : list ascii;
}.

Definition spec_init : spec := Spec [] [].

(** A write appends to the pending bytes; when the data ends in a newline the
    pending bytes become the newest command and only ten commands are kept. *)
Definition spec_write (s : spec) (data : list ascii) : spec :=
  if bool_decide (last data = Some newline)
  then Spec (lastn 10 (commands s ++ [pending s ++ data])) []
  else Spec (commands s) (pending s ++ data).

(** At most [n] bytes from position [pos] of the commands put end to end, not
    past the end of the command that holds [pos]. *)
Fixpoint read_at (cs : list (list ascii)) (pos n : nat) : list ascii :=
  match cs with
  | [] => []
  | c :: cs' =>
      if bool_decide (pos < length c)%nat then take n (drop pos c)
      else read_at cs' (pos - length c) n
  end.

Definition spec_read (s : spec) (f_pos count : Z) : list ascii :=
  if bool_decide (f_pos < 0) then []
  else read_at (commands s) (Z.to_nat f_pos) (Z.to_nat count).

(** All the bytes a reader can see. *)
Definition visible (s : spec) : list ascii := concat (commands s).

(** ** The representation relation *)

(** [e] describes the live block with contents [c]. *)
Definition block (h : blocks) (e : aesd_buffer_entry) (c : list ascii) : Prop :=
  0 < buffptr e ∧ h !! buffptr e = Some c ∧ entry_size e = blen c.

Definition cur_ptr (cur : aesd_buffer_entry) : list Z :=
  if bool_decide (buffptr cur = 0) then [] else [buffptr cur].

(** The blocks the driver can still reach. *)
Definition owned (b : aesd_circular_buffer) (cur : aesd_buffer_entry) : list Z :=
  (buffptr <$> contents b) ++ cur_ptr cur.

Definition cur_rep (h : blocks) (cur : aesd_buffer_entry) (p : list ascii) : Prop :=
  (buffptr cur = 0 ∧ p = []) ∨ block h cur p.

(** [L] is the set of live blocks the driver has lost. *)
Record rep (L : gset Z) (b : aesd_circular_buffer) (cur : aesd_buffer_entry)
    (h : blocks) (s : spec) : Prop := Rep {
  rep_wf : wf b;
  rep_packed : full b = false → out_offs b = 0;
  rep_commands : Forall2 (block h) (contents b) (commands s);
  rep_current : cur_rep h cur (pending s);
  rep_nodup : NoDup (owned b cur);
  rep_dom : dom h = list_to_set (owned b cur) ∪ L;
  rep_lost : ∀ p, p ∈ L → 0 < p ∧ p ∉ owned b cur;
  rep_bytes : heap_bytes h < 2 ^ 63;
}.

(** A driver between two operations: its lock is free. *)
Definition represents (L : gset Z) (d : driver) (s : spec) : Prop :=
  lock (aesd_device d) = false ∧
  rep L (buffer (aesd_device d)) (current_entry (aesd_device d)) (live (kern d)) s.

(** ** The abstract read *)

Lemma read_at_prefix cs pos n :
  read_at cs pos n = take (length (read_at cs pos n)) (drop pos (concat cs)).
Proof.
  revert pos. induction cs as [|c cs IH]; intros pos; simpl; [by rewrite drop_nil|].
  case_bool_decide.
  - rewrite drop_app_le by lia. rewrite take_app_le by (rewrite length_take; lia).
    rewrite length_take. destruct (decide (n ≤ length (drop pos c))%nat).
    + by rewrite Nat.min_l by done.
    + rewrite Nat.min_r by lia. by rewrite !take_ge by lia.
  - rewrite IH at 1. by rewrite drop_app_ge by lia.
Qed.

Lemma read_at_length cs pos n : (length (read_at cs pos n) ≤ n)%nat.
Proof.
  revert pos. induction cs as [|c cs IH]; intros pos; simpl; [lia|].
  case_bool_decide; [rewrite length_take; lia|apply IH].
Qed.

Lemma read_at_nil cs pos n :
  read_at cs pos n = [] ↔ n = 0%nat ∨ (length (concat cs) ≤ pos)%nat.
Proof.
  revert pos. induction cs as [|c cs IH]; intros pos; simpl; [split; [lia|done]|].
  rewrite length_app. case_bool_decide as Hc.
  - rewrite <- length_zero_iff_nil, length_take, length_drop. lia.
  - rewrite IH. lia.
Qed.

(** ** Facts about represented states *)

Lemma block_insert h e c p x : block h e c → p ≠ buffptr e → block (<[p := x]> h) e c.
Proof. intros (? & ? & ?) ?. split_and!; [done| |done]. by rewrite lookup_insert_ne. Qed.

Lemma block_delete h e c p : block h e c → p ≠ buffptr e → block (delete p h) e c.
Proof. intros (? & ? & ?) ?. split_and!; [done| |done]. by rewrite lookup_delete_ne. Qed.

(** Entries that do not point at [p] are not affected by what happens to it. *)
Lemma blocks_delete h es cs p :
  Forall2 (block h) es cs → p ∉ buffptr <$> es → Forall2 (block (delete p h)) es cs.
Proof.
  induction 1 as [|e c es cs He _ IH]; csimpl; [done|].
  intros [Hne Hnin]%not_elem_of_cons. constructor; [by apply block_delete|auto].
Qed.

Lemma blocks_insert h es cs p x :
  Forall2 (block h) es cs → p ∉ buffptr <$> es → Forall2 (block (<[p := x]> h)) es cs.
Proof.
  induction 1 as [|e c es cs He _ IH]; csimpl; [done|].
  intros [Hne Hnin]%not_elem_of_cons. constructor; [by apply block_insert|auto].
Qed.

Lemma blocks_total h es cs :
  NoDup (buffptr <$> es) → Forall2 (block h) es cs → total es ≤ heap_bytes h.
Proof.
  intros Hnd Hb. revert h cs Hb.
  induction es as [|e es IH]; intros h cs Hb; inversion Hb as [|? c ? cs' He Hrest]; subst.
  { rewrite total_nil. apply heap_bytes_nonneg. }
  apply NoDup_cons in Hnd as [Hnin Hnd]. destruct He as (Hp & Hl & Hsz).
  rewrite total_cons, (heap_bytes_delete h _ _ Hl), Hsz.
  enough (total es ≤ heap_bytes (delete (buffptr e) h)) by lia.
  by apply (IH Hnd _ cs'), blocks_delete.
Qed.

Lemma total_concat h es cs :
  Forall2 (block h) es cs → total es = blen (concat cs).
Proof.
  unfold blen. induction 1 as [|e c es cs (_ & _ & Hsz) _ IH]; [done|].
  rewrite total_cons. simpl. rewrite length_app, IH, Hsz. unfold blen. lia.
Qed.

Lemma total_concat_take h es cs k :
  Forall2 (block h) es cs → total (take k es) = blen (concat (take k cs)).
Proof. intros H. eapply total_concat, Forall2_take, H. Qed.

Lemma read_at_pos h es cs off k e o n c :
  Forall entry_ok es → Forall2 (block h) es cs →
  at_pos es off k e o → h !! buffptr e = Some c →
  read_at cs (Z.to_nat off) n = take n (drop (Z.to_nat o) c).
Proof.
  intros Hok Hb. revert off k Hok.
  induction Hb as [|e0 c0 es cs He Hb IH]; intros off k Hok Hat Hc; [by destruct Hat|].
  destruct He as (Hp & Hl & Hsz). apply Forall_cons in Hok as [Hok0 Hok].
  unfold blen in Hsz. simpl. destruct k as [|k].
  - apply at_pos_0 in Hat as (-> & -> & Ho). assert (c0 = c) as -> by congruence.
    by rewrite bool_decide_true by lia.
  - apply at_pos_cons_S in Hat. apply at_pos_bound in Hat as Hbd; [|done].
    rewrite bool_decide_false by lia. rewrite <- (IH _ k Hok Hat Hc). f_equal. lia.
Qed.

Lemma owned_ptr_pos L b cur h s p : rep L b cur h s → p ∈ owned b cur → 0 < p.
Proof.
  intros HR [(e & -> & He)%list_elem_of_fmap|Hc]%elem_of_app.
  - apply list_elem_of_lookup in He as [k Hk].
    destruct (Forall2_lookup_l _ _ _ _ _ (rep_commands _ _ _ _ _ HR) Hk) as (c & _ & Hb).
    apply Hb.
  - unfold cur_ptr in Hc. case_bool_decide as H0; [by apply elem_of_nil in Hc|].
    apply list_elem_of_singleton in Hc as ->.
    destruct (rep_current _ _ _ _ _ HR) as [[? _]|[? _]]; [done|lia].
Qed.

Lemma live_ptr_pos L b cur h s p : rep L b cur h s → is_Some (h !! p) → 0 < p.
Proof.
  intros HR Hp. apply elem_of_dom in Hp. rewrite (rep_dom _ _ _ _ _ HR) in Hp.
  apply elem_of_union in Hp as [Hp|Hp].
  - apply elem_of_list_to_set in Hp. by eapply owned_ptr_pos.
  - by apply (rep_lost _ _ _ _ _ HR).
Qed.

(** The bytes in the ring fit in memory, so positions do not overflow. *)
Lemma rep_total L b cur h s :
  rep L b cur h s → total (contents b) = blen (visible s) ∧ total (contents b) < 2 ^ 63.
Proof.
  intros HR. split; [by eapply total_concat, HR|].
  pose proof (rep_nodup _ _ _ _ _ HR) as Hnd. apply NoDup_app in Hnd as (Hnd & _ & _).
  pose proof (blocks_total h _ _ Hnd (rep_commands _ _ _ _ _ HR)).
  pose proof (rep_bytes _ _ _ _ _ HR). lia.
Qed.

Lemma rep_count L b cur h s :
  rep L b cur h s → length (commands s) = ring_count b.
Proof.
  intros HR. rewrite <- contents_length by apply HR.
  symmetry. eapply Forall2_length, HR.
Qed.
