(* ===== verification/DriverRefine.v ===== *)
(** * The driver implements the log of the last ten commands

    Each operation of [CharDriver], run on a state that represents an abstract
    device of [DriverSpec], ends without undefined behaviour in a state that
    represents the device the specification says, on every path. *)

From S2P Require Import Prelude CircularBuffer Kernel CharDriver DriverSpec.

(** ** Changes of the current entry *)

Lemma owned_app b cur : owned b cur = (buffptr <$> contents b) ++ cur_ptr cur.
Proof. done. Qed.

Lemma cur_ptr_Some p n : 0 < p → cur_ptr (BufferEntry p n) = [p].
Proof. intros Hp. unfold cur_ptr. simpl. by rewrite bool_decide_false by lia. Qed.

Lemma cur_ptr_null n : cur_ptr (BufferEntry 0 n) = [].
Proof. done. Qed.

(** The heap without the current entry's block: the ring's blocks and the lost
    ones. *)
Lemma rep_dom_rest L b cur h s :
  rep L b cur h s →
  dom (delete (buffptr cur) h) = list_to_set (buffptr <$> contents b) ∪ L.
Proof.
  intros HR. rewrite dom_delete_L, (rep_dom _ _ _ _ _ HR), owned_app, list_to_set_app_L.
  pose proof (rep_lost _ _ _ _ _ HR) as Hlost.
  pose proof (rep_nodup _ _ _ _ _ HR) as Hnd. rewrite owned_app in Hnd, Hlost.
  pose proof (owned_ptr_pos _ _ _ _ _ (buffptr cur) HR) as Hpos. rewrite owned_app in Hpos.
  apply NoDup_app in Hnd as (_ & Hdisj & _).
  unfold cur_ptr in *. case_bool_decide as Hnull.
  - apply set_eq. intros p. rewrite elem_of_difference, !elem_of_union, !elem_of_list_to_set.
    rewrite elem_of_singleton. split; [set_solver|]. intros Hp. split; [set_solver|].
    intros ->. destruct Hp as [Hp|Hp].
    + specialize (Hpos (proj2 (elem_of_app _ _ _) (or_introl Hp))). lia.
    + destruct (Hlost _ Hp). lia.
  - apply set_eq. intros p. rewrite elem_of_difference, !elem_of_union, !elem_of_list_to_set.
    rewrite elem_of_singleton. split; [set_solver|]. intros Hp. split; [set_solver|].
    intros ->. destruct Hp as [Hp|Hp].
    + apply (Hdisj _ Hp). set_solver.
    + destruct (Hlost _ Hp) as [_ Hn]. apply Hn. set_solver.
Qed.

Lemma rep_current_notin L b cur h s :
  rep L b cur h s → buffptr cur ∉ buffptr <$> contents b.
Proof.
  intros HR Hin. assert (Hd : buffptr cur ∈ dom (delete (buffptr cur) h)).
  { rewrite (rep_dom_rest _ _ _ _ _ HR). set_solver. }
  apply elem_of_dom in Hd as [? Hd]. by rewrite lookup_delete_eq in Hd.
Qed.

(** A new block for the current entry, in place of the old one if there was one:
    the result of [kmalloc], of [krealloc] and of writing into the block. *)
Lemma rep_new_current L b cur h s q n c :
  rep L b cur h s → 0 < q → delete (buffptr cur) h !! q = None → blen c = n →
  heap_bytes (delete (buffptr cur) h) + n < 2 ^ 63 →
  rep L b (BufferEntry q n) (<[q := c]> (delete (buffptr cur) h)) (Spec (commands s) c).
Proof.
  intros HR Hq Hfresh Hlen Hbytes.
  pose proof (rep_dom_rest _ _ _ _ _ HR) as Hdom.
  assert (Hqn : q ∉ list_to_set (C := gset Z) (buffptr <$> contents b) ∪ L).
  { rewrite <- Hdom. by apply not_elem_of_dom. }
  split; simpl.
  - apply HR.
  - apply HR.
  - apply blocks_insert; [|set_solver].
    apply blocks_delete; [apply HR|]. by eapply rep_current_notin.
  - right. split_and!; [done| |done]. apply lookup_insert_eq.
  - rewrite owned_app, cur_ptr_Some by done. apply NoDup_app.
    pose proof (rep_nodup _ _ _ _ _ HR) as Hnd. rewrite owned_app in Hnd.
    apply NoDup_app in Hnd as (Hnd & _ & _).
    split_and!; [done|set_solver|apply NoDup_singleton].
  - rewrite dom_insert_L, Hdom, owned_app, cur_ptr_Some, list_to_set_app_L by done.
    set_solver.
  - intros p Hp. destruct (rep_lost _ _ _ _ _ HR p Hp) as [Hpos Hn]. split; [done|].
    rewrite owned_app, cur_ptr_Some in * by done. set_solver.
  - rewrite heap_bytes_insert by done. lia.
Qed.

(** A failed allocation: the pending bytes and their block are lost. *)
Lemma rep_lose_current L b cur h s n :
  rep L b cur h s →
  rep (L ∪ list_to_set (cur_ptr cur)) b (BufferEntry 0 n) h (Spec (commands s) []).
Proof.
  intros HR. pose proof (rep_nodup _ _ _ _ _ HR) as Hnd. rewrite owned_app in Hnd.
  apply NoDup_app in Hnd as (Hnd & Hdisj & _). split; simpl.
  - apply HR.
  - apply HR.
  - apply HR.
  - by left.
  - rewrite owned_app. simpl. by rewrite app_nil_r.
  - rewrite (rep_dom _ _ _ _ _ HR), !owned_app, !list_to_set_app_L. simpl. set_solver.
  - intros p [Hp|Hp]%elem_of_union.
    + destruct (rep_lost _ _ _ _ _ HR p Hp) as [? Hn]. split; [done|].
      rewrite owned_app in *. simpl. set_solver.
    + apply elem_of_list_to_set in Hp. split.
      * eapply owned_ptr_pos; [done|]. rewrite owned_app. set_solver.
      * rewrite owned_app. simpl. set_solver.
  - apply HR.
Qed.

(** Overwriting the current entry's block with bytes of the same number. *)
Lemma rep_write_current L b cur h s c c' :
  rep L b cur h s → h !! buffptr cur = Some c → blen c' = blen c → block h cur c →
  rep L b cur (<[buffptr cur := c']> h) (Spec (commands s) c').
Proof.
  intros HR Hc Hlen (Hpos & _ & Hsz).
  rewrite <- insert_delete_eq. destruct cur as [p n]. simpl in *.
  apply (rep_new_current L b (BufferEntry p n) h s); simpl; [done..| | |].
  - apply lookup_delete_eq.
  - lia.
  - pose proof (rep_bytes _ _ _ _ _ HR) as Hb. rewrite (heap_bytes_delete _ _ _ Hc) in Hb.
    lia.
Qed.

(** ** Completing a command *)

Lemma rep_push_room L b cur h cmds p :
  rep L b cur h (Spec cmds p) → block h cur p → blen p < 2 ^ 64 → (ring_count b < 10)%nat →
  ∃ b', aesd_circular_buffer_add_entry b cur = Done b' ∧
    rep L b' (BufferEntry 0 0) h (Spec (lastn 10 (cmds ++ [p])) []).
Proof.
  intros HR Hcur Hp Hc. pose proof Hcur as (Hpos & _ & Hsz).
  assert (He : entry_ok cur) by (unfold entry_ok; rewrite Hsz; unfold blen in *; lia).
  destruct (add_entry_room b cur (rep_wf _ _ _ _ _ HR) He Hc)
    as (b' & Hadd & Hwf' & Hcon & Hout).
  exists b'. split; [done|].
  assert (Hown : owned b' (BufferEntry 0 0) = owned b cur).
  { rewrite !owned_app, Hcon, fmap_app. destruct cur as [q n]. simpl in *.
    by rewrite cur_ptr_null, cur_ptr_Some, app_nil_r by done. }
  assert (Hlen : length cmds = ring_count b) by apply (rep_count _ _ _ _ _ HR).
  split; simpl.
  - done.
  - intros _. rewrite Hout. apply HR. rewrite count_full by apply HR.
    by rewrite bool_decide_false by lia.
  - rewrite lastn_short by (rewrite length_app; simpl; lia). rewrite Hcon.
    apply Forall2_app; [apply HR|]. constructor; [done|constructor].
  - by left.
  - rewrite Hown. apply HR.
  - rewrite Hown. apply HR.
  - rewrite Hown. apply HR.
  - apply HR.
Qed.

(** The slot about to be overwritten is cleared first. *)
Definition clear_oldest (b : aesd_circular_buffer) : aesd_circular_buffer :=
  set_entries (<[Z.to_nat (in_offs b) := BufferEntry 0 0]> (entry b)) b.

Lemma clear_oldest_contents b :
  wf b → ring_count b = 10%nat →
  wf (clear_oldest b) ∧ ring_count (clear_oldest b) = 10%nat ∧
  contents (clear_oldest b) = <[0%nat := BufferEntry 0 0]> (contents b) ∧
  array_get (entry b) (in_offs b) = array_get (contents b) 0.
Proof.
  intros Hwf Hc. pose proof Hwf as [Hlen Hin Hout Hfull Hsz Hfree].
  assert (Hf : full b = true) by (rewrite count_full by done; by rewrite bool_decide_true).
  assert (Hc' : ring_count (clear_oldest b) = 10%nat) by (rewrite <- Hc; done).
  assert (Hrot : rotated (clear_oldest b) = <[0%nat := BufferEntry 0 0]> (rotated b)).
  { unfold rotated at 1, clear_oldest. simpl.
    rewrite (Hfull Hf). replace (Z.to_nat (out_offs b)) with (Z.to_nat (slot b 0)) at 2
      by (by rewrite slot_0).
    apply rotated_insert; [done|lia|done]. }
  assert (Hwf' : wf (clear_oldest b)).
  { split; simpl; try done.
    - by rewrite length_insert.
    - by apply Forall_insert.
    - rewrite Hc', drop_ge; [done|]. rewrite rotated_length. simpl.
      rewrite length_insert. lia. }
  split_and!; [done..| |].
  - unfold contents. rewrite Hc', Hc, Hrot. by rewrite take_insert_lt by lia.
  - unfold array_get. rewrite !bool_decide_true by lia.
    rewrite contents_lookup by (done || lia). by rewrite slot_0, (Hfull Hf).
Qed.

Lemma rep_push_full L b cur h cmds p :
  rep L b cur h (Spec cmds p) → block h cur p → blen p < 2 ^ 64 → ring_count b = 10%nat →
  ∃ e0 b', array_get (entry b) (in_offs b) = Done e0 ∧ 0 < buffptr e0 ∧
    is_Some (h !! buffptr e0) ∧
    aesd_circular_buffer_add_entry (clear_oldest b) cur = Done b' ∧
    rep L b' (BufferEntry 0 0) (delete (buffptr e0) h)
      (Spec (lastn 10 (cmds ++ [p])) []).
Proof.
  intros HR Hcur Hp Hc. pose proof Hcur as (Hpos & _ & Hsz).
  assert (He : entry_ok cur) by (unfold entry_ok; rewrite Hsz; unfold blen in *; lia).
  pose proof (rep_count _ _ _ _ _ HR) as Hlen. simpl in Hlen.
  destruct (clear_oldest_contents b (rep_wf _ _ _ _ _ HR) Hc) as (Hwf1 & Hc1 & Hcon1 & Hget).
  destruct (add_entry_full (clear_oldest b) cur Hwf1 He Hc1) as (b' & Hadd & Hwf' & Hcon & _).
  pose proof (rep_commands _ _ _ _ _ HR) as Hcmds. simpl in Hcmds.
  pose proof (contents_length b (rep_wf _ _ _ _ _ HR)) as Hclen.
  pose proof (rep_nodup _ _ _ _ _ HR) as Hnd.
  pose proof (rep_dom _ _ _ _ _ HR) as Hdom.
  pose proof (rep_lost _ _ _ _ _ HR) as Hlost.
  rewrite owned_app in *.
  destruct (contents b) as [|e0 es] eqn:Ees; [simpl in *; lia|].
  destruct cmds as [|c0 cs]; [simpl in *; lia|].
  apply Forall2_cons in Hcmds as [(Hp0 & Hl0 & _) Hrest].
  rewrite Hcon1 in Hcon. simpl in Hcon. csimpl in Hnd. csimpl in Hdom.
  apply NoDup_cons in Hnd as [Hnin Hnd].
  assert (Hown : owned b' (BufferEntry 0 0) = (buffptr <$> es) ++ cur_ptr cur).
  { rewrite owned_app, Hcon, fmap_app. destruct cur as [q n]. simpl in *.
    by rewrite cur_ptr_null, cur_ptr_Some, app_nil_r by done. }
  assert (Hne : buffptr e0 ≠ buffptr cur).
  { intros E. apply Hnin. destruct cur as [q n]. simpl in *.
    rewrite cur_ptr_Some by done. set_solver. }
  exists e0, b'. split_and!; [by rewrite Hget|done|by eexists|done|]. split; simpl.
  - done.
  - rewrite count_full, <- contents_length, Hcon, length_app by done. simpl in *.
    by rewrite bool_decide_true by lia.
  - unfold lastn. simpl length. rewrite length_app.
    replace (S (length cs + length [p]) - 10)%nat with 1%nat by (simpl in *; lia).
    simpl. rewrite Hcon.
    apply Forall2_app; [apply blocks_delete; [done|set_solver]|].
    constructor; [by apply block_delete|constructor].
  - by left.
  - by rewrite Hown.
  - rewrite Hown, dom_delete_L, Hdom. simpl in *.
    assert (buffptr e0 ∉ L).
    { intros HL. destruct (Hlost _ HL) as [_ Hn]. apply Hn. csimpl. set_solver. }
    set_solver.
  - intros q HL. destruct (Hlost q HL) as [? Hn]. split; [done|]. rewrite Hown.
    csimpl in Hn. set_solver.
  - pose proof (rep_bytes _ _ _ _ _ HR) as Hb. rewrite (heap_bytes_delete _ _ _ Hl0) in Hb.
    unfold blen in Hb. lia.
Qed.

(** ** aesd_write *)

Lemma rep_ptr_0 L b cur h s : rep L b cur h s → buffptr cur = 0 → pending s = [].
Proof. intros HR H0. destruct (rep_current _ _ _ _ _ HR) as [[_ ?]|[? _]]; [done|lia]. Qed.

Lemma rep_ptr_block L b cur h s : rep L b cur h s → buffptr cur ≠ 0 → block h cur (pending s).
Proof. intros HR H0. by destruct (rep_current _ _ _ _ _ HR) as [[? _]|?]. Qed.

Lemma pending_bound L b cur h s : rep L b cur h s → blen (pending s) < 2 ^ 63.
Proof.
  intros HR. destruct (rep_current _ _ _ _ _ HR) as [[_ ->]|(_ & Hl & _)]; [done|].
  pose proof (heap_bytes_delete _ _ _ Hl). pose proof (heap_bytes_nonneg (delete (buffptr cur) h)).
  pose proof (rep_bytes _ _ _ _ _ HR). lia.
Qed.

Section Write.
Context `{KS : KernelServices, KL : !KernelLaws}.

(** The last part of [aesd_write]: the bytes are in place. *)
Definition commit (cur : aesd_buffer_entry) (last_byte : list ascii) (count : Z) : M driver Z :=
  (if bool_decide (last_byte = [newline]) then
     b ← gets (λ d, buffer (aesd_device d));
     (if bool_decide (aesd_circular_buffer_get_count b = MAXOPS) then
        last_entry ← lift (array_get (entry b) (in_offs b));
        do_kfree (buffptr last_entry);;
        es ← lift (array_set (entry b) (in_offs b) (BufferEntry 0 0));
        modify (set_buffer (set_entries es b))
      else mret tt);;
     b ← gets (λ d, buffer (aesd_device d));
     b' ← lift (aesd_circular_buffer_add_entry b cur);
     modify (set_buffer b');;
     modify (set_current_entry (BufferEntry 0 0))
   else mret tt);;
  mutex_unlock;;
  mret (s64 count).

Lemma do_kfree_live p b cur l h n :
  0 < p → is_Some (h !! p) →
  do_kfree p (Driver (AesdDev b cur l) (KernelState h n))
  = Done (tt, Driver (AesdDev b cur l) (KernelState (delete p h) (S n))).
Proof using.
  intros Hp [c Hc]. unfold do_kfree, kfree. simpl.
  rewrite bool_decide_false by lia. by rewrite Hc.
Qed.

Lemma commit_correct L b cur h n cmds p last_byte count :
  rep L b cur h (Spec cmds p) → block h cur p → 0 ≤ count < 2 ^ 63 →
  (last_byte = [newline] ↔ last p = Some newline) →
  ∃ d', commit cur last_byte count (Driver (AesdDev b cur true) (KernelState h n))
        = Done (count, d') ∧
    represents L d' (if bool_decide (last p = Some newline)
                     then Spec (lastn 10 (cmds ++ [p])) [] else Spec cmds p).
Proof using.
  intros HR Hcur Hcount Hlast. unfold commit.
  pose proof (pending_bound _ _ _ _ _ HR) as Hp. simpl in Hp.
  rewrite (bool_decide_ext _ _ Hlast).
  destruct (bool_decide (last p = Some newline)) eqn:E; last first.
  { eexists. run. unfold mutex_unlock. simpl. cint. split; [done|]. by split. }
  run. simpl. rewrite get_count_count by apply HR.
  unfold MAXOPS. destruct (decide (ring_count b = 10%nat)) as [Hc|Hc].
  - destruct (rep_push_full L b cur h cmds p) as (e0 & b' & Hget & Hp0 & Hlive & Hadd & HR');
      [done|done|lia|done|].
    rewrite bool_decide_true by lia. run.
    rewrite (M_bind_lift _ _ _ _ Hget). run.
    rewrite (M_bind_Done _ _ _ _ _ (do_kfree_live _ _ _ _ _ _ Hp0 Hlive)). run.
    rewrite (M_bind_lift _ _ _ _ (array_set_in _ _ _ (wf_in_range b (rep_wf _ _ _ _ _ HR)))).
    run. simpl. rewrite (M_bind_lift _ _ _ _ Hadd). run.
    eexists. unfold mutex_unlock. simpl. unfold mbind, M_bind. simpl. cint.
    split; [done|]. by split.
  - pose proof (count_le b (rep_wf _ _ _ _ _ HR)).
    destruct (rep_push_room L b cur h cmds p) as (b' & Hadd & HR'); [done|done|lia|lia|].
    rewrite bool_decide_false by lia. run. simpl.
    rewrite (M_bind_lift _ _ _ _ Hadd). run.
    eexists. unfold mutex_unlock. simpl. unfold mbind, M_bind. simpl. cint.
    split; [done|]. by split.
Qed.

(** The first part: room for [count] more bytes. *)
Definition make_room (cur : aesd_buffer_entry) (count : Z) : M driver Z :=
  if bool_decide (buffptr cur = 0) then
    p ← do_kmalloc count;
    modify (set_current_entry (BufferEntry p count));;
    mret 0
  else
    p ← do_krealloc (buffptr cur) (u64 (entry_size cur + count));
    modify (set_current_entry (BufferEntry p (u64 (entry_size cur + count))));;
    mret (entry_size cur).

(** What the allocator answers to the call [aesd_write] makes. *)
Definition allocation (k : kernel) (cur : aesd_buffer_entry) (count : Z)
    : option (Z * list ascii) :=
  if bool_decide (buffptr cur = 0) then kmalloc_result (calls k) (live k) count
  else krealloc_result (calls k) (live k) (buffptr cur) (u64 (entry_size cur + count)).

Lemma make_room_ok L b cur h n s count q c :
  rep L b cur h s → 0 < count ≤ MAX_RW_COUNT →
  allocation (KernelState h n) cur count = Some (q, c) →
  let cur' := BufferEntry q (blen (pending s) + count) in
  ∃ h', make_room cur count (Driver (AesdDev b cur true) (KernelState h n))
        = Done (blen (pending s), Driver (AesdDev b cur' true) (KernelState h' (S n))) ∧
    rep L b cur' h' (Spec (commands s) c) ∧ block h' cur' c ∧
    take (length (pending s)) c = pending s.
Proof.
  intros HR Hcount Halloc. unfold allocation, make_room, MAX_RW_COUNT in *. simpl in Halloc.
  case_bool_decide as Hnull.
  - rewrite (rep_ptr_0 _ _ _ _ _ HR Hnull). simpl.
    apply kmalloc_law in Halloc as Hlaw; [|lia].
    destruct Hlaw as (Hq & Hfresh & Hlen & Hbytes).
    assert (Hdel : delete (buffptr cur) h = h).
    { apply delete_id. destruct (h !! buffptr cur) eqn:E; [|done].
      pose proof (live_ptr_pos _ _ _ _ _ (buffptr cur) HR (ex_intro _ _ E)). lia. }
    exists (<[q := c]> h). split_and!.
    + unfold do_kmalloc, kmalloc. simpl. unfold mbind, M_bind. simpl. by rewrite Halloc.
    + rewrite <- Hdel. apply rep_new_current; [done|done|by rewrite Hdel|done|].
      rewrite Hdel. unfold blen. simpl. lia.
    + split_and!; [done|apply lookup_insert_eq|]. simpl. by rewrite Hlen.
    + done.
  - pose proof (rep_ptr_block _ _ _ _ _ HR Hnull) as (Hpos & Hl & Hsz).
    pose proof (pending_bound _ _ _ _ _ HR) as Hpb.
    assert (Hnn : 0 ≤ blen (pending s)) by (unfold blen; lia).
    rewrite Hsz in Halloc. revert Halloc. rewrite u64_id by lia. intros Halloc.
    pose proof (krealloc_law _ _ _ (blen (pending s) + count) _ _ _ ltac:(lia) Hl Halloc)
      as (Hq & Hfresh & Hlen & Htake & Hbytes).
    exists (<[q := c]> (delete (buffptr cur) h)). split_and!.
    + unfold do_krealloc, krealloc. unfold mbind, M_bind. simpl. rewrite Hl, Hsz.
      cint. rewrite Halloc. simpl. done.
    + apply rep_new_current; [done|done| |done|done].
      destruct Hfresh as [->|?]; [apply lookup_delete_eq|].
      by apply lookup_delete_None; right.
    + split_and!; [done|apply lookup_insert_eq|done].
    + revert Htake. unfold blen. rewrite Nat.min_l by lia. intros ->. by rewrite firstn_all.
Qed.

Lemma make_room_fail L b cur h n s count :
  rep L b cur h s → 0 < count ≤ MAX_RW_COUNT →
  allocation (KernelState h n) cur count = None →
  ∃ sz i, make_room cur count (Driver (AesdDev b cur true) (KernelState h n))
        = Done (i, Driver (AesdDev b (BufferEntry 0 sz) true) (KernelState h (S n))).
Proof.
  intros HR Hcount Halloc. unfold allocation, make_room in *. simpl in Halloc.
  case_bool_decide as Hnull.
  - exists count, 0. unfold do_kmalloc, kmalloc, mbind, M_bind. simpl. by rewrite Halloc.
  - pose proof (rep_ptr_block _ _ _ _ _ HR Hnull) as (Hpos & Hl & Hsz).
    exists (u64 (entry_size cur + count)), (entry_size cur).
    unfold do_krealloc, krealloc, mbind, M_bind. simpl. rewrite Hl, Halloc. done.
Qed.

(** The middle part: fetch the bytes from the user. *)
Definition fill (buf : list ascii) (count insert_pos : Z) : M driver Z :=
  cur ← gets (λ d, current_entry (aesd_device d));
  if bool_decide (buffptr cur = 0) then mutex_unlock;; mret (- ENOMEM)
  else
    not_copied ← do_copy_from_user (buffptr cur) insert_pos buf count;
    if bool_decide (not_copied ≠ 0) then mutex_unlock;; mret (- EFAULT)
    else
      last_byte ← do_kread (buffptr cur) (u64 (insert_pos + count - 1)) 1;
      commit cur last_byte count.

Lemma aesd_write_parts buf count :
  aesd_write buf count
  = (mutex_lock;;
     if bool_decide (count = 0) then mutex_unlock;; mret 0
     else
       cur ← gets (λ d, current_entry (aesd_device d));
       insert_pos ← make_room cur count;
       fill buf count insert_pos).
Proof using. done. Qed.

Lemma last_byte (l : list ascii) :
  take 1 (drop (length l - 1) l) = [newline] ↔ last l = Some newline.
Proof using.
  destruct l as [|x l] using rev_ind; [done|]. rewrite length_app, last_snoc. simpl.
  rewrite Nat.add_sub, drop_app_length. simpl. split; congruence.
Qed.

(** Filling the room of [data]'s size at the end of the pending bytes. *)
Lemma kwrite_room p q h n c (data : list ascii) :
  h !! q = Some c → take (length p) c = p → blen c = blen p + blen data →
  kwrite q (blen p) data (KernelState h n)
  = Done (KernelState (<[q := p ++ data]> h) n).
Proof using.
  intros Hl Htake Hlen. unfold blen in *. unfold kwrite. simpl. rewrite Hl.
  unfold blen. rewrite bool_decide_true by lia. do 3 f_equal.
  rewrite Nat2Z.id, Htake, drop_ge by lia. by rewrite app_nil_r.
Qed.

Lemma fill_correct L b cur h n cmds p c buf count data not_copied :
  rep L b cur h (Spec cmds c) → block h cur c → take (length p) c = p →
  blen c = blen p + count → 0 < count ≤ MAX_RW_COUNT →
  copy_from_user buf count = (data, not_copied) → blen data = count →
  ∃ d', fill buf count (blen p) (Driver (AesdDev b cur true) (KernelState h n))
        = Done (if bool_decide (not_copied = 0) then count else - EFAULT, d') ∧
    represents L d' (if bool_decide (not_copied = 0) then spec_write (Spec cmds p) data
                     else Spec cmds (p ++ data)).
Proof using.
  intros HR Hcur Htake Hlen Hcount Hcopy Hdata. pose proof Hcur as (Hpos & Hl & Hsz).
  unfold MAX_RW_COUNT in *. pose proof (pending_bound _ _ _ _ _ HR) as Hpb. simpl in Hpb.
  assert (Hdl : length (p ++ data) = length c).
  { rewrite length_app. unfold blen in *. lia. }
  assert (HR' : rep L b cur (<[buffptr cur := p ++ data]> h) (Spec cmds (p ++ data))).
  { apply (rep_write_current L b cur h (Spec cmds c) c); [done..| |done].
    unfold blen. by rewrite Hdl. }
  assert (Hnn : 0 ≤ blen p) by (unfold blen; lia).
  unfold fill. run. simpl. rewrite bool_decide_false by lia.
  rewrite (M_bind_Done _ _ _ not_copied
    (Driver (AesdDev b cur true) (KernelState (<[buffptr cur := p ++ data]> h) n)));
    last first.
  { unfold do_copy_from_user. simpl. rewrite Hcopy.
    rewrite (kwrite_room p _ h n c data) by (done || lia). done. }
  destruct (decide (not_copied = 0)) as [->|Hnc]; last first.
  { rewrite bool_decide_true, bool_decide_false by done. eexists. run.
    unfold mutex_unlock, mbind, M_bind. simpl. split; [done|]. by split. }
  rewrite bool_decide_false, bool_decide_true by auto.
  rewrite (M_bind_Done _ _ _ (take 1 (drop (length (p ++ data) - 1) (p ++ data)))
    (Driver (AesdDev b cur true) (KernelState (<[buffptr cur := p ++ data]> h) n)));
    last first.
  { unfold do_kread, kread. simpl. rewrite lookup_insert_eq. cint.
    rewrite bool_decide_true by (unfold blen in *; lia).
    simpl. do 4 f_equal. unfold blen in *. lia. }
  destruct (commit_correct L b cur (<[buffptr cur := p ++ data]> h) n cmds (p ++ data)
    (take 1 (drop (length (p ++ data) - 1) (p ++ data))) count HR') as (d' & Hrun & Hrep).
  { split_and!; [done|apply lookup_insert_eq|]. rewrite Hsz. unfold blen. by rewrite Hdl. }
  { lia. }
  { apply last_byte. }
  exists d'. split; [done|]. unfold spec_write. simpl.
  replace (last data) with (last (p ++ data)); [done|].
  rewrite last_app. destruct data; [unfold blen in *; simpl in *; lia|].
  destruct (last (_ :: data)) eqn:E; [done|]. by apply last_None in E.
Qed.

(** Every outcome of a write of [count] bytes. *)
Lemma write_run L d s buf count :
  represents L d s → 0 ≤ count ≤ MAX_RW_COUNT →
  ∃ d', aesd_write buf count d
    = Done (if bool_decide (count = 0) then 0
            else match allocation (kern d) (current_entry (aesd_device d)) count with
                 | None => - ENOMEM
                 | Some _ => if bool_decide (count ≤ blen buf) then count else - EFAULT
                 end, d') ∧
    if bool_decide (count = 0) then d' = d
    else match allocation (kern d) (current_entry (aesd_device d)) count with
         | None => represents (L ∪ list_to_set (cur_ptr (current_entry (aesd_device d))))
                     d' (Spec (commands s) [])
         | Some _ =>
             if bool_decide (count ≤ blen buf)
             then represents L d' (spec_write s (take (Z.to_nat count) buf))
             else ∃ data, blen data = count ∧
                    represents L d' (Spec (commands s) (pending s ++ data))
         end.
Proof.
  destruct d as [[b cur l] [h n]], s as [cmds p]. intros [Hl HR] Hcount. simpl in *. subst l.
  rewrite aesd_write_parts. unfold mutex_lock at 1. unfold mbind at 1, M_bind at 1.
  simpl. destruct (decide (count = 0)) as [->|Hpos].
  { rewrite bool_decide_true by done. eexists. unfold mutex_unlock, mbind, M_bind. by simpl. }
  rewrite !bool_decide_false by done. run. simpl.
  destruct (allocation (KernelState h n) cur count) as [[q c]|] eqn:Halloc.
  - destruct (make_room_ok L b cur h n (Spec cmds p) count q c) as (h' & Hrun & HR' & Hb & Ht);
      [done|lia|done|]. simpl in *.
    destruct (copy_from_user buf count) as [data nc] eqn:Hcopy.
    destruct (copy_from_user_law buf count data nc ltac:(lia) Hcopy) as (Hd & Hnc & Hok1 & Hok2).
    rewrite (M_bind_Done _ _ _ _ _ Hrun).
    destruct (fill_correct L b _ h' (S n) cmds p c buf count data nc HR' Hb Ht)
      as (d' & Hrun' & Hrep); [by destruct Hb as (_ & _ & Hsz); simpl in *|lia|done|done|].
    exists d'. rewrite Hrun'.
    assert (Hiff : nc = 0 ↔ count ≤ blen buf) by naive_solver.
    rewrite (bool_decide_ext _ _ Hiff) in *. case_bool_decide as Hle.
    + split; [done|]. destruct Hok2 as [_ <-]; [by apply Hiff|done].
    + split; [done|]. by exists data.
  - destruct (make_room_fail L b cur h n (Spec cmds p) count) as (sz & i & Hrun);
      [done|lia|done|].
    rewrite (M_bind_Done _ _ _ _ _ Hrun). eexists.
    unfold fill, mutex_unlock, mbind, M_bind. simpl. split; [done|].
    split; [done|]. simpl. by apply (rep_lose_current L b cur h (Spec cmds p)).
Qed.
End Write.
