(* ===== verification/DriverRead.v ===== *)
(** * Reading and seeking: aesd_read, llseek and the ioctl

    The operations that do not change the log, on represented states. *)

From S2P Require Import Prelude CircularBuffer Kernel CharDriver DriverSpec.

Lemma unlock_relock d :
  lock (aesd_device d) = false → set_lock false (set_lock true d) = d.
Proof. destruct d as [[b cur l] k]. simpl. by intros ->. Qed.

(** What the user sees of the ioctl argument, per the command's two fields. *)
Definition seek_result (s : spec) (out f_pos cmd off : Z) : outcome (Z * Z) :=
  if bool_decide (cmd >= Z.of_nat (length (commands s))) then Done (- EINVAL, f_pos)
  else if bool_decide (out + cmd >= 10) then Undef
  else match commands s !! Z.to_nat cmd with
       | Some c =>
           if bool_decide (off >= blen c) then Done (- EINVAL, f_pos)
           else Done (0, blen (concat (take (Z.to_nat cmd) (commands s))) + off)
       | None => Done (- EINVAL, f_pos)
       end.

Section Read.
Context `{KS : KernelServices, KL : !KernelLaws}.

(** The position the lookup is called with: a negative [loff_t] becomes a
    [size_t] past every byte. *)
Lemma find_at L b cur h s f_pos :
  rep L b cur h s → - 2 ^ 63 ≤ f_pos < 2 ^ 63 →
  if bool_decide (0 ≤ f_pos < blen (visible s)) then
    ∃ k e o c, at_pos (contents b) f_pos k e o ∧
      aesd_circular_buffer_find_entry_offset_for_fpos b (u64 f_pos) 0
      = Done (Some (slot b k), o) ∧
      array_get (entry b) (slot b k) = Done e ∧ h !! buffptr e = Some c ∧
      entry_size e = blen c
  else aesd_circular_buffer_find_entry_offset_for_fpos b (u64 f_pos) 0 = Done (None, 0).
Proof using.
  intros HR Hpos. destruct (rep_total _ _ _ _ _ HR) as [Htot Hlt].
  pose proof (rep_wf _ _ _ _ _ HR) as Hwf. rewrite <- Htot.
  case_bool_decide as Hin.
  - destruct (at_pos_exists (contents b) f_pos) as (k & e & o & Hat);
      [by apply contents_sizes|done|].
    pose proof Hat as (Hk & _ & _).
    destruct (Forall2_lookup_l _ _ _ _ _ (rep_commands _ _ _ _ _ HR) Hk)
      as (c & _ & _ & Hc & Hsz).
    exists k, e, o, c. cint. split_and!; [done| | |done|done].
    + apply (find_hit b f_pos 0 k e o); [done|lia|done].
    + apply array_get_slot; [done|]. rewrite rotated_contents.
      rewrite lookup_app_l; [done|by eapply lookup_lt_Some].
  - apply find_miss; [done|lia|].
    destruct (decide (0 ≤ f_pos)); [cint; lia|].
    unfold u64. rewrite <- (Z_mod_plus_full _ 1), Z.mod_small; lia.
Qed.

(** The bytes moved by one read, in terms of the log. *)
Lemma spec_read_at L b cur h s f_pos count k e o c :
  rep L b cur h s → 0 ≤ f_pos → 0 ≤ count → at_pos (contents b) f_pos k e o →
  h !! buffptr e = Some c →
  spec_read s f_pos count = take (Z.to_nat count) (drop (Z.to_nat o) c).
Proof using.
  intros HR Hpos Hcount Hat Hc. unfold spec_read. rewrite bool_decide_false by lia.
  eapply read_at_pos; [|apply HR|done|done]. apply contents_sizes, HR.
Qed.

Lemma spec_read_outside s f_pos count :
  ¬ 0 ≤ f_pos < blen (visible s) → spec_read s f_pos count = [].
Proof using.
  intros Hout. unfold spec_read. case_bool_decide; [done|].
  apply read_at_nil. right. unfold visible, blen in Hout. lia.
Qed.

Definition read_result (buf : list ascii) (f_pos : Z) (data : list ascii)
    : Z * Z * list ascii :=
  if bool_decide (blen data ≤ blen buf)
  then (blen data, f_pos + blen data, data ++ drop (length data) buf)
  else (- EFAULT, f_pos, (copy_to_user buf data).1).

Lemma read_run L d s buf count f_pos :
  represents L d s → 0 ≤ count < 2 ^ 64 → - 2 ^ 63 ≤ f_pos < 2 ^ 63 →
  aesd_read buf count f_pos d
  = Done (read_result buf f_pos (spec_read s f_pos count), d).
Proof.
  intros [Hl HR] Hcount Hpos. rewrite <- (unlock_relock d Hl) at 2.
  destruct d as [[b cur l] [h n]]. simpl in *. subst l.
  unfold aesd_read, mutex_lock. unfold mbind at 1, M_bind at 1. simpl. run. simpl.
  pose proof (find_at L b cur h s f_pos HR Hpos) as Hfind.
  case_bool_decide as Hin; last first.
  { rewrite (M_bind_lift _ _ _ _ Hfind). run. unfold mutex_unlock, mbind, M_bind. simpl.
    rewrite spec_read_outside by done. unfold read_result, blen. simpl.
    rewrite bool_decide_true by lia. by rewrite Z.add_0_r. }
  destruct Hfind as (k & e & o & c & Hat & Hfind & Hget & Hc & Hsz).
  rewrite (M_bind_lift _ _ _ _ Hfind).
  rewrite (spec_read_at L b cur h s f_pos count k e o c) by (done || lia).
  destruct (decide (count = 0)) as [->|Hnz].
  { rewrite bool_decide_true by done. run. unfold mutex_unlock, mbind, M_bind. simpl.
    unfold read_result, blen. simpl. rewrite bool_decide_true by lia. by rewrite Z.add_0_r. }
  rewrite bool_decide_false by done. run. rewrite (M_bind_lift _ _ _ _ Hget).
  pose proof Hat as (_ & Ho & Hoff).
  destruct (rep_total _ _ _ _ _ HR) as [Htot Hlt].
  pose proof (at_pos_end _ _ _ _ _ (contents_sizes b (rep_wf _ _ _ _ _ HR)) Hat) as Hend.
  rewrite u64_id by lia.
  set (nb := if bool_decide (entry_size e - o < count) then entry_size e - o else count).
  set (src := take (Z.to_nat nb) (drop (Z.to_nat o) c)).
  assert (Hnb : 0 < nb ≤ entry_size e - o ∧ nb ≤ count).
  { subst nb. case_bool_decide; lia. }
  assert (Hsrc : src = take (Z.to_nat count) (drop (Z.to_nat o) c)).
  { subst src nb. case_bool_decide; [|done]. unfold blen in Hsz.
    rewrite !take_ge; rewrite ?length_drop; lia || done. }
  assert (Hblen : blen src = nb).
  { subst src. unfold blen in *. rewrite length_take, length_drop. lia. }
  rewrite <- Hsrc. run.
  rewrite (M_bind_Done _ _ _ src (Driver (AesdDev b cur true) (KernelState h n))); last first.
  { unfold do_kread, kread. simpl. rewrite Hc. by rewrite bool_decide_true by lia. }
  destruct (copy_to_user buf src) as [buf' nc] eqn:Hcopy.
  destruct (copy_to_user_law buf src buf' nc Hcopy) as (_ & _ & Hok1 & Hok2).
  unfold read_result. rewrite Hcopy. unfold mutex_unlock, mbind, M_bind.
  destruct (decide (nc = 0)) as [->|Hnc].
  - destruct (Hok2 eq_refl) as [Hle ->]. rewrite bool_decide_false by auto. simpl.
    rewrite bool_decide_true by done. rewrite Hblen. by cint.
  - rewrite bool_decide_true by done. simpl.
    rewrite bool_decide_false by (intros Hle; auto). done.
Qed.

Lemma llseek_run L d s f_pos offset whence :
  represents L d s →
  llseek f_pos offset whence d
  = Done (fixed_size_llseek f_pos offset whence (blen (visible s)), d).
Proof using.
  intros [_ HR]. destruct (rep_total _ _ _ _ _ HR) as [Htot Hlt].
  unfold llseek. run.
  rewrite (M_bind_lift _ _ _ _ (get_size_total (buffer (aesd_device d)) (rep_wf _ _ _ _ _ HR) ltac:(lia))).
  rewrite Htot in *. unfold blen in *. by cint.
Qed.

Lemma adjust_run L d s f_pos cmd off :
  represents L d s → 0 ≤ cmd < 2 ^ 32 → 0 ≤ off < 2 ^ 32 →
  aesd_adjust_file_offset f_pos cmd off d
  = (r ← seek_result s (out_offs (buffer (aesd_device d))) f_pos cmd off; Done (r, d)).
Proof using.
  intros [_ HR] Hcmd Hoff. destruct (rep_total _ _ _ _ _ HR) as [Htot Hlt].
  set (b := buffer (aesd_device d)) in *. pose proof (rep_wf _ _ _ _ _ HR) as Hwf.
  pose proof (count_le b Hwf) as Hle. pose proof (wf_out b Hwf) as Ho.
  unfold aesd_adjust_file_offset, seek_result. run. fold b.
  rewrite get_count_count by done. rewrite (rep_count _ _ _ _ _ HR).
  case_bool_decide as Hge; [done|]. cint.
  case_bool_decide as Hoob.
  { rewrite array_get_oob; [done|]. rewrite (wf_length b Hwf). lia. }
  destruct (lookup_lt_is_Some_2 (contents b) (Z.to_nat cmd)) as [e He].
  { rewrite contents_length by done. lia. }
  destruct (Forall2_lookup_l _ _ _ _ _ (rep_commands _ _ _ _ _ HR) He)
    as (c & Hc & _ & _ & Hsz).
  assert (Hslot : slot b (Z.to_nat cmd) = out_offs b + cmd).
  { unfold slot, MAXOPS. rewrite Z.mod_small; lia. }
  rewrite Hc, <- Hsz, <- Hslot.
  rewrite (M_bind_lift _ _ _ e); last first.
  { apply array_get_slot; [done|]. rewrite rotated_contents.
    rewrite lookup_app_l; [done|by eapply lookup_lt_Some]. }
  case_bool_decide as Hbig; [done|].
  rewrite (M_bind_lift _ _ _ _
    (fpos_hit b (Z.to_nat cmd) e off 0 Hwf ltac:(lia) ltac:(lia) He)).
  rewrite bool_decide_true by lia. simpl.
  rewrite <- (total_concat_take _ _ _ _ (rep_commands _ _ _ _ _ HR)).
  pose proof (total_take (contents b) (Z.to_nat cmd) (contents_sizes b Hwf)) as Htk.
  assert (Hat : at_pos (contents b) (total (take (Z.to_nat cmd) (contents b)) + off)
    (Z.to_nat cmd) e off) by (split; [done|split; [lia|done]]).
  apply at_pos_bound in Hat; [|by apply contents_sizes].
  by cint.
Qed.

Lemma le_decode_bound bs : 0 ≤ le_decode bs < 2 ^ (8 * blen bs).
Proof using.
  unfold le_decode, blen. induction bs as [|x bs IH]; [done|]. simpl foldr.
  replace (2 ^ (8 * Z.of_nat (length (x :: bs)))) with (256 * 2 ^ (8 * Z.of_nat (length bs))).
  { pose proof (N_ascii_bounded x). lia. }
  simpl length. change 256 with (2 ^ 8). rewrite <- Z.pow_add_r by lia. f_equal. lia.
Qed.

Lemma le_decode_u32 bs : 0 ≤ le_decode (take 4 bs) < 2 ^ 32.
Proof using.
  pose proof (le_decode_bound (take 4 bs)) as [? Hlt]. split; [done|].
  eapply Z.lt_le_trans; [exact Hlt|]. apply Z.pow_le_mono_r; [lia|].
  unfold blen. rewrite length_take. lia.
Qed.

Lemma ioctl_run L d s f_pos cmd arg :
  represents L d s →
  unlocked_ioctl f_pos cmd arg d
  = (r ← (if bool_decide (cmd = AESDCHAR_IOCSEEKTO) then
            if bool_decide (sizeof_seekto ≤ blen arg) then
              let seek_to := seekto_of_bytes arg in
              seek_result s (out_offs (buffer (aesd_device d))) f_pos
                (write_cmd seek_to) (write_cmd_offset seek_to)
            else Done (- EFAULT, f_pos)
          else Done (- ENOTTY, f_pos)); Done (r, d)).
Proof.
  intros HR. unfold unlocked_ioctl.
  destruct (decide (cmd = AESDCHAR_IOCSEEKTO)) as [->|Hne]; last first.
  { rewrite !(bool_decide_false (cmd = _)) by done. by repeat case_bool_decide. }
  unfold AESDCHAR_IOCSEEKTO, AESD_IOC_MAGIC, sizeof_seekto, AESDCHAR_IOC_MAXNR.
  rewrite IOC_TYPE_IOWR, IOC_NR_IOWR by lia.
  rewrite !bool_decide_false by lia. rewrite !(bool_decide_true (IOWR _ _ _ = _)) by done.
  destruct (copy_from_user arg 8) as [data nc] eqn:Hcopy.
  destruct (copy_from_user_law arg 8 data nc ltac:(lia) Hcopy) as (_ & _ & Hok1 & Hok2).
  destruct (decide (nc = 0)) as [->|Hnc].
  - destruct (Hok2 eq_refl) as [Hle ->]. rewrite bool_decide_false by auto.
    rewrite bool_decide_true by done.
    replace (seekto_of_bytes (take (Z.to_nat 8) arg)) with (seekto_of_bytes arg).
    { eapply adjust_run; [done|apply le_decode_u32..]. }
    unfold seekto_of_bytes. change (Z.to_nat 8) with 8%nat.
    rewrite take_take, skipn_firstn_comm, take_take. done.
  - rewrite bool_decide_true by auto. rewrite bool_decide_false; [done|]. auto.
Qed.
End Read.
