(* ===== verification/DriverModule.v ===== *)
(** * Loading, running and unloading the driver

    The module's initialisation and clean-up, the states the driver can reach
    between them, and the theorems on the driver as a whole. *)

From S2P Require Import Prelude CircularBuffer Kernel CharDriver DriverSpec DriverRefine DriverRead.

(** ** Unloading *)

Lemma rep_slot_index L b cur h s k :
  rep L b cur h s → (k < ring_count b)%nat →
  (out_offs b + Z.of_nat k) mod Z.of_nat (ring_count b) = slot b k.
Proof.
  intros HR Hk. pose proof (rep_wf _ _ _ _ _ HR) as Hwf. pose proof (count_le b Hwf).
  unfold slot, MAXOPS. destruct (decide (ring_count b = 10%nat)) as [Hc|Hc].
  - by rewrite Hc.
  - rewrite (rep_packed _ _ _ _ _ HR); [rewrite !Z.mod_small; lia|].
    rewrite count_full by done. by rewrite bool_decide_false.
Qed.

(** The block of the [k]th entry: it is not lost, and no later entry's. *)
Lemma entry_block L b cur h s k e :
  rep L b cur h s → contents b !! k = Some e →
  0 < buffptr e ∧ (buffptr e ∉ L) ∧ buffptr e ∉ drop (S k) (buffptr <$> contents b).
Proof.
  intros HR He.
  assert (Hp : (buffptr <$> contents b) !! k = Some (buffptr e)) by by rewrite list_lookup_fmap, He.
  assert (Hown : buffptr e ∈ owned b cur).
  { unfold owned. apply elem_of_app. left. by apply list_elem_of_lookup_2 in Hp. }
  split; [by eapply owned_ptr_pos|]. split.
  - intros HL. by destruct (rep_lost _ _ _ _ _ HR _ HL) as [_ Hn].
  - pose proof (rep_nodup _ _ _ _ _ HR) as Hnd. unfold owned in Hnd.
    apply NoDup_app in Hnd as (Hnd & _ & _). intros Hin.
    rewrite <- (take_drop_middle _ _ _ Hp) in Hnd.
    apply NoDup_app in Hnd as (_ & _ & Hnd). by apply NoDup_cons in Hnd as [? _].
Qed.

(** What the clean-up loop keeps: entries from [i] on are as they were, and the
    live blocks are theirs and the lost ones. *)
Definition cleanup_inv (L : gset Z) (b : aesd_circular_buffer) (i : Z) (d : driver) : Prop :=
  let k := Z.to_nat i in
  out_offs (buffer (aesd_device d)) = out_offs b ∧
  length (entry (buffer (aesd_device d))) = 10%nat ∧
  (∀ j, (k ≤ j < ring_count b)%nat →
     entry (buffer (aesd_device d)) !! Z.to_nat (slot b j) = contents b !! j) ∧
  (∀ j, (j < k)%nat →
     entry (buffer (aesd_device d)) !! Z.to_nat (slot b j) = Some (BufferEntry 0 0)) ∧
  dom (live (kern d)) = list_to_set (drop k (buffptr <$> contents b)) ∪ L.

Lemma cleanup_step L b cur h s i d :
  rep L b cur h s → 0 ≤ i < Z.of_nat (ring_count b) → cleanup_inv L b i d →
  ∃ d', (e ← lift (array_get (entry (buffer (aesd_device d))) (slot b (Z.to_nat i)));
         do_kfree (buffptr e);;
         es ← lift (array_set (entry (buffer (aesd_device d))) (slot b (Z.to_nat i))
                      (BufferEntry 0 0));
         modify (set_buffer (set_entries es (buffer (aesd_device d))))) d = Done (tt, d') ∧
    cleanup_inv L b (i + 1) d'.
Proof.
  intros HR Hi (Hout & Hlen & Hrest & Hdone & Hdom).
  pose proof (rep_wf _ _ _ _ _ HR) as Hwf. pose proof (count_le b Hwf).
  set (k := Z.to_nat i) in *. pose proof (slot_range b k) as Hslot.
  destruct (lookup_lt_is_Some_2 (contents b) k) as [e He].
  { rewrite contents_length by done. lia. }
  assert (Hp : (buffptr <$> contents b) !! k = Some (buffptr e)).
  { by rewrite list_lookup_fmap, He. }
  rewrite (drop_S _ _ _ Hp) in Hdom. simpl in Hdom.
  destruct (entry_block L b cur h s k e HR He) as (Hpos & HnL & Hnin).
  destruct d as [[b1 cur1 l1] [h1 n1]]. simpl in *.
  assert (is_Some (h1 !! buffptr e)) as Hlive.
  { apply elem_of_dom. rewrite Hdom. set_solver. }
  assert (Hr : 0 ≤ slot b k < Z.of_nat (length (entry b1))) by lia.
  eexists. split.
  - rewrite (M_bind_lift _ _ _ e); last first.
    { apply array_get_Some; [lia|]. by rewrite Hrest by lia. }
    rewrite (M_bind_Done _ _ _ _ _ (do_kfree_live _ _ _ _ _ _ Hpos Hlive)).
    rewrite (M_bind_lift _ _ _ _ (array_set_in _ _ _ Hr)). done.
  - assert (Hk1 : Z.to_nat (i + 1) = S k) by lia.
    unfold cleanup_inv. simpl. rewrite Hk1. split_and!.
    + done.
    + by rewrite length_insert.
    + intros j Hj. rewrite list_lookup_insert_ne; [apply Hrest; lia|].
      intros E. assert (k = j); [|lia]. pose proof (slot_range b j).
      apply (slot_inj b); [done|lia|lia|lia].
    + intros j Hj. destruct (decide (j = k)) as [->|].
      * apply list_lookup_insert_eq. lia.
      * rewrite list_lookup_insert_ne; [apply Hdone; lia|].
        intros E. assert (k = j); [|lia]. pose proof (slot_range b j).
        apply (slot_inj b); [done|lia|lia|lia].
    + rewrite dom_delete_L, Hdom. set_solver.
Qed.

Lemma cleanup_ring_run L b cur h s cur' l n h' :
  rep L b cur h s → dom h' = list_to_set (buffptr <$> contents b) ∪ L →
  ∃ d', cleanup_ring (Z.of_nat (ring_count b))
          (Driver (AesdDev b cur' l) (KernelState h' n)) = Done (tt, d') ∧
    cleanup_inv L b (Z.of_nat (ring_count b)) d'.
Proof.
  intros HR Hdom. pose proof (rep_wf _ _ _ _ _ HR) as Hwf. pose proof (count_le b Hwf).
  unfold cleanup_ring.
  match goal with |- context [while_do _ ?body ?cond _] =>
    destruct (while_do_count (R := unit) (cleanup_inv L b) (Z.of_nat (ring_count b))
      body cond ring_fuel 0 (Driver (AesdDev b cur' l) (KernelState h' n)))
      as (d' & Hrun & Hinv) end.
  - done.
  - intros i d Hi Hinv. destruct (cleanup_step L b cur h s i d HR Hi Hinv) as (d' & Hs & Hinv').
    exists d'. split; [|done]. pose proof Hinv as (Hout & _).
    assert (Hidx : (out_offs b + i) mod Z.of_nat (ring_count b) = slot b (Z.to_nat i)).
    { rewrite <- (Z2Nat.id i) at 1 by lia. apply (rep_slot_index _ _ _ _ _ _ HR). lia. }
    rewrite Hout, Hidx, Hs. simpl. by cint.
  - lia.
  - unfold ring_fuel. lia.
  - unfold cleanup_inv. simpl. split_and!; [done|apply Hwf| |lia|done].
    intros j Hj. by rewrite contents_lookup by (done || lia).
  - exists d'. by rewrite Hrun.
Qed.

(** Unloading frees every block the driver can reach, once. *)
Lemma cleanup_device_run L d s :
  represents L d s →
  ∃ d', cleanup_device d = Done (tt, d') ∧ dom (live (kern d')) = L.
Proof.
  destruct d as [[b cur l] [h n]]. intros [Hl HR]. simpl in *.
  pose proof (rep_wf _ _ _ _ _ HR) as Hwf.
  assert (Hfin : ∀ d', cleanup_inv L b (Z.of_nat (ring_count b)) d' → dom (live (kern d')) = L).
  { intros d' (_ & _ & _ & _ & ->). rewrite Nat2Z.id, drop_ge; [set_solver|].
    rewrite length_fmap, contents_length; [done..]. }
  unfold cleanup_device. run. simpl. case_bool_decide as Hcur.
  - destruct (rep_current _ _ _ _ _ HR) as [[? _]|(Hpos & Hlive & _)]; [done|].
    rewrite (M_bind_Done _ _ _ _ _ (do_kfree_live _ _ _ _ _ _ Hpos (ex_intro _ _ Hlive))).
    run. simpl. rewrite get_count_count by done.
    destruct (cleanup_ring_run L b cur h s cur l (S n) (delete (buffptr cur) h) HR)
      as (d' & Hrun & Hinv); [by eapply rep_dom_rest|eauto].
  - run. simpl. rewrite get_count_count by done.
    destruct (cleanup_ring_run L b cur h s cur l n h HR) as (d' & Hrun & Hinv); [|eauto].
    rewrite (rep_dom _ _ _ _ _ HR). unfold owned, cur_ptr.
    rewrite bool_decide_true, app_nil_r by lia. done.
Qed.

(** ** Loading *)

(** A driver as the initialisation leaves it. *)
Definition empty_device : aesd_dev :=
  AesdDev (aesd_circular_buffer_init (CircularBuffer (replicate 10 (BufferEntry 0 0)) 0 0 false))
    (BufferEntry 0 0) false.

(** No block at address 0, and no more bytes than memory. *)
Definition kernel_ok (k : kernel) : Prop :=
  (∀ p, p ∈ dom (live k) → 0 < p) ∧ heap_bytes (live k) < 2 ^ 63.

Lemma empty_represents k :
  kernel_ok k → represents (dom (live k)) (Driver empty_device k) spec_init.
Proof.
  intros [Hpos Hbytes]. split; [done|].
  destruct (init_wf (CircularBuffer (replicate 10 (BufferEntry 0 0)) 0 0 false)) as [Hwf Hc].
  change (rep (dom (live k)) (buffer empty_device) (BufferEntry 0 0) (live k) spec_init).
  assert (Hown : owned (buffer empty_device) (BufferEntry 0 0) = []) by done.
  split; rewrite ?Hown.
  - apply Hwf.
  - done.
  - change (Forall2 (block (live k)) [] []). constructor.
  - by left.
  - constructor.
  - set_solver.
  - intros p Hp. split; [by apply Hpos|set_solver].
  - done.
Qed.

Section Loading.
Context `{KS : KernelServices, KL : !KernelLaws}.

Lemma init_run m :
  kernel_ok (kern (mdriver m)) →
  let '(result, m') := aesd_init_module m in
  (result ≠ 0 ∧ regions m' = regions m ∧ cdevs m' = cdevs m ∧
     live (kern (mdriver m')) = live (kern (mdriver m))) ∨
  (result = 0 ∧ ∃ dev, (dev ∉ regions m) ∧ MKDEV (aesd_major m') aesd_minor = dev ∧
     regions m' = {[dev]} ∪ regions m ∧ cdevs m' = {[dev]} ∪ cdevs m ∧
     mutex_live m' = true ∧ mdriver m' = Driver empty_device (kern (mdriver m))).
Proof.
  intros Hok. unfold aesd_init_module.
  destruct (alloc_chrdev_region_result (regions m) aesd_minor) as [ret dev] eqn:Ealloc.
  apply alloc_chrdev_region_law in Ealloc as [Hret Hdev].
  case_bool_decide as Hneg; [left; simpl; split_and!; [lia|done..]|].
  destruct Hdev as [Hfresh Hmk]; [lia|].
  unfold aesd_setup_cdev. simpl. rewrite Hmk.
  case_bool_decide as Herr; simpl.
  - rewrite bool_decide_true by done. left. simpl. split_and!; [done| |done..].
    set_solver.
  - rewrite bool_decide_false by auto. right. simpl. split; [done|].
    exists dev. by split_and!.
Qed.
End Loading.

(** ** Running: the states between loading and unloading *)

(** The calls the VFS makes, with their arguments. *)
Inductive op :=
| Open
| Release
| Read (buf : list ascii) (count f_pos : Z)
| Write (buf : list ascii) (count : Z)
| Llseek (f_pos offset whence : Z)
| Ioctl (f_pos cmd : Z) (arg : list ascii).

(** Arguments within their C types and the VFS limits. *)
Definition op_ok (o : op) : Prop :=
  match o with
  | Read _ count f_pos => 0 ≤ count < 2 ^ 64 ∧ - 2 ^ 63 ≤ f_pos < 2 ^ 63
  | Write _ count => 0 ≤ count ≤ MAX_RW_COUNT
  | _ => True
  end.

Section Running.
Context `{KS : KernelServices, KL : !KernelLaws}.

Definition exec (o : op) : M driver unit :=
  match o with
  | Open => aesd_open;; mret tt
  | Release => aesd_release;; mret tt
  | Read buf count f_pos => aesd_read buf count f_pos;; mret tt
  | Write buf count => aesd_write buf count;; mret tt
  | Llseek f_pos offset whence => llseek f_pos offset whence;; mret tt
  | Ioctl f_pos cmd arg => unlocked_ioctl f_pos cmd arg;; mret tt
  end.

Inductive reachable (d0 : driver) : driver → Prop :=
| reach_init : reachable d0 d0
| reach_step o d d' :
    reachable d0 d → op_ok o → exec o d = Done (tt, d') → reachable d0 d'.

(** The seek command whose array index passes the end of the entry array. *)
Definition seek_overruns (d : driver) (o : op) : Prop :=
  match o with
  | Ioctl _ cmd arg =>
      let b := buffer (aesd_device d) in
      let index := write_cmd (seekto_of_bytes arg) in
      cmd = AESDCHAR_IOCSEEKTO ∧ sizeof_seekto ≤ blen arg ∧
      index < aesd_circular_buffer_get_count b ∧ 10 ≤ out_offs b + index
  | _ => False
  end.

(** A log in use: at most ten commands, each ended by a newline. *)
Definition log_ok (s : spec) : Prop :=
  (length (commands s) ≤ 10)%nat ∧ Forall (λ c, last c = Some newline) (commands s).

Lemma spec_write_ok s data : log_ok s → log_ok (spec_write s data).
Proof using.
  intros [Hlen Hall]. unfold spec_write. case_bool_decide as Hnl; [|done]. split; simpl.
  - rewrite lastn_length. lia.
  - unfold lastn. apply Forall_drop, Forall_app. split; [done|].
    constructor; [|constructor]. rewrite last_app, Hnl. done.
Qed.

Lemma seek_result_Undef s out f_pos cmd off :
  seek_result s out f_pos cmd off = Undef ↔
  cmd < Z.of_nat (length (commands s)) ∧ 10 ≤ out + cmd.
Proof using.
  unfold seek_result. repeat case_bool_decide; [split; [done|lia]|split; [lia|done]|].
  destruct (commands s !! Z.to_nat cmd); [case_bool_decide|]; (split; [done|lia]).
Qed.

Lemma seek_result_fuel s out f_pos cmd off : seek_result s out f_pos cmd off ≠ NoFuel.
Proof using.
  unfold seek_result. repeat case_bool_decide; try done.
  destruct (commands s !! Z.to_nat cmd); [by case_bool_decide|done].
Qed.

(** One call: the undefined outcome is the overrunning seek and no other. *)
Lemma exec_run L d s o :
  represents L d s → log_ok s → op_ok o →
  (exec o d = Undef ∧ seek_overruns d o) ∨
  (¬ seek_overruns d o ∧ ∃ d' L' s', exec o d = Done (tt, d') ∧
     represents L' d' s' ∧ L ⊆ L' ∧ log_ok s').
Proof.
  intros HR Hlog Hok. destruct o as [| |buf n pos|buf n|pos off wh|pos cmd arg]; simpl in Hok.
  - right. split; [by intros []|]. by exists d, L, s.
  - right. split; [by intros []|]. by exists d, L, s.
  - right. split; [by intros []|]. exists d, L, s. simpl.
    rewrite (M_bind_Done _ _ _ _ _ (read_run L d s buf n pos HR ltac:(lia) ltac:(lia))). done.
  - right. split; [by intros []|]. simpl.
    destruct (write_run L d s buf n HR Hok) as (d' & Hrun & Hpost).
    rewrite (M_bind_Done _ _ _ _ _ Hrun). exists d'.
    case_bool_decide; [by subst; exists L, s|].
    destruct (allocation _ _ _).
    + case_bool_decide.
      * exists L, (spec_write s (take (Z.to_nat n) buf)). eauto using spec_write_ok.
      * destruct Hpost as (data & _ & Hrep). exists L. by eexists.
    + eexists _, _. split_and!; [done|done|set_solver|done].
  - right. split; [by intros []|]. exists d, L, s. simpl.
    rewrite (M_bind_Done _ _ _ _ _ (llseek_run L d s pos off wh HR)). done.
  - simpl. unfold mbind, M_bind. rewrite (ioctl_run L d s pos cmd arg HR).
    pose proof HR as [_ HR']. rewrite get_count_count by apply HR'.
    rewrite <- (rep_count _ _ _ _ _ HR').
    case_bool_decide as Hcmd; [case_bool_decide as Harg|].
    + cbv zeta. match goal with |- context [seek_result ?a ?b ?c ?e ?f] =>
        pose proof (seek_result_Undef a b c e f); pose proof (seek_result_fuel a b c e f);
        destruct (seek_result a b c e f) eqn:E end; [right|left|done].
      * split; [intros (_ & _ & ? & ?); intuition congruence|]. by exists d, L, s.
      * split; [done|]. intuition.
    + right. split; [intros (_ & ? & _); lia|]. by exists d, L, s.
    + right. split; [intros (? & _); done|]. by exists d, L, s.
Qed.

Lemma reachable_run L d0 s0 d :
  represents L d0 s0 → log_ok s0 → reachable d0 d →
  ∃ L' s, represents L' d s ∧ L ⊆ L' ∧ log_ok s.
Proof.
  intros HR0 Hlog0 Hreach. induction Hreach as [|o d d' Hreach (L1 & s1 & HR1 & HL1 & Hlog1) Hok Hex].
  { by exists L, s0. }
  destruct (exec_run L1 d s1 o HR1 Hlog1 Hok) as [[Hu _]|(_ & d2 & L2 & s2 & Hd & HR2 & HL2 & Hlog2)].
  { congruence. }
  rewrite Hd in Hex. simplify_eq. exists L2, s2. split_and!; [done|set_solver|done].
Qed.
End Running.
