(* ===== verification/DriverTheorems.v ===== *)
(** * Theorems on the driver

    The properties of the operations of [CharDriver] that the refinement of
    [DriverRefine], [DriverRead] and [DriverModule] gives, each with a run of
    the driver on the reference kernel. *)

From S2P Require Import Prelude CircularBuffer Kernel CharDriver DriverSpec DriverRefine DriverRead DriverModule.

(** ** A driver to run *)

#[local] Instance ref_services : KernelServices := reference_services (λ _, false).
#[local] Instance ref_laws : KernelLaws := reference_laws (λ _, false).

Definition bytes (s : string) : list ascii := String.list_ascii_of_string s.
Definition line (s : string) : list ascii := bytes s ++ [newline].

Definition empty_driver : driver := Driver empty_device (KernelState ∅ 0).

(** The state after a list of writes. *)
Fixpoint after_writes (ws : list (list ascii)) (d : driver) : driver :=
  match ws with
  | [] => d
  | w :: ws' =>
      match aesd_write w (blen w) d with
      | Done (_, d') => after_writes ws' d'
      | _ => d
      end
  end.

Fixpoint spec_writes (ws : list (list ascii)) (s : spec) : spec :=
  match ws with [] => s | w :: ws' => spec_writes ws' (spec_write s w) end.

(** The writes all get their memory. *)
Fixpoint writes_fit (ws : list (list ascii)) (d : driver) : bool :=
  match ws with
  | [] => true
  | w :: ws' =>
      bool_decide (0 < blen w ≤ MAX_RW_COUNT) &&
      match allocation (kern d) (current_entry (aesd_device d)) (blen w),
            aesd_write w (blen w) d with
      | Some _, Done (_, d') => writes_fit ws' d'
      | _, _ => false
      end
  end.

Lemma after_writes_rep L ws d s :
  represents L d s → writes_fit ws d = true →
  represents L (after_writes ws d) (spec_writes ws s).
Proof.
  revert d s. induction ws as [|w ws IH]; intros d s HR Hfit; [done|]. simpl in *.
  apply andb_prop in Hfit as [Hw Hfit]. apply bool_decide_eq_true in Hw.
  destruct (write_run L d s w (blen w) HR ltac:(lia)) as (d' & Hrun & Hrep).
  rewrite bool_decide_false in Hrep by lia.
  destruct (allocation _ _ _); [|done]. rewrite Hrun in *.
  rewrite bool_decide_true in Hrep by lia.
  apply IH; [|done]. unfold blen in Hrep. by rewrite Nat2Z.id, firstn_all in Hrep.
Qed.

Lemma empty_driver_rep : represents ∅ empty_driver spec_init.
Proof.
  assert (E : dom (live (KernelState ∅ 0)) = ∅) by apply dom_empty_L.
  rewrite <- E. apply empty_represents. split; [set_solver|done].
Qed.

(** Two lines and half a third. *)
Definition two_lines : list (list ascii) := [bytes "hel"; line "lo"; line "world"; bytes "ab"].

(** Twelve lines: the ring has wrapped and starts at index 2. *)
Definition twelve_lines : list (list ascii) :=
  (λ n : nat, line (String (ascii_of_nat (97 + n)) "xy")) <$> seq 0 12.

Definition short_driver : driver := after_writes two_lines empty_driver.
Definition short_spec : spec := spec_writes two_lines spec_init.
Definition wrapped_driver : driver := after_writes twelve_lines empty_driver.
Definition wrapped_spec : spec := spec_writes twelve_lines spec_init.

Lemma short_rep : represents ∅ short_driver short_spec.
Proof. apply after_writes_rep; [apply empty_driver_rep|by vm_compute]. Qed.

Lemma wrapped_rep : represents ∅ wrapped_driver wrapped_spec.
Proof. apply after_writes_rep; [apply empty_driver_rep|by vm_compute]. Qed.

Lemma short_log_ok : log_ok short_spec.
Proof. split; [vm_compute; lia|]. by repeat constructor. Qed.

Lemma wrapped_log_ok : log_ok wrapped_spec.
Proof. split; [vm_compute; lia|]. by repeat constructor. Qed.

(** ** Writing *)

(** C2: a write whose bytes are readable and whose memory is granted returns the
    number of bytes, releases the lock, and appends the bytes to the log: they
    extend the pending command, and when they end in a newline the pending
    command becomes the newest of the last ten. *)
Theorem write_appends {KS : KernelServices} {KL : KernelLaws} L d s buf count :
  represents L d s → 0 < count ≤ MAX_RW_COUNT → count ≤ blen buf →
  allocation (kern d) (current_entry (aesd_device d)) count ≠ None →
  ∃ d', aesd_write buf count d = Done (count, d') ∧
    represents L d' (spec_write s (take (Z.to_nat count) buf)).
Proof.
  intros HR Hcount Hbuf Halloc.
  destruct (write_run L d s buf count HR ltac:(lia)) as (d' & Hrun & Hrep). exists d'.
  rewrite bool_decide_false in Hrun, Hrep by lia.
  destruct (allocation _ _ _); [|done]. by rewrite bool_decide_true in Hrun, Hrep by lia.
Qed.

Lemma write_appends_witness :
  spec_write short_spec (line "c") = Spec [line "hello"; line "world"; line "abc"] [] ∧
  ∃ d', aesd_write (line "c") 2 short_driver = Done (2, d') ∧
    represents ∅ d' (spec_write short_spec (take (Z.to_nat 2) (line "c"))).
Proof.
  split; [reflexivity|].
  apply (write_appends ∅ short_driver short_spec (line "c") 2);
    [apply short_rep|unfold MAX_RW_COUNT; lia|vm_compute; discriminate|vm_compute; discriminate].
Defined.

(** C30: when the allocator refuses, the write returns [-ENOMEM] and releases the
    lock; the complete commands are kept, but the bytes pending so far are
    dropped and their block stays allocated with nothing pointing at it. *)
Theorem write_enomem_loses_pending {KS : KernelServices} {KL : KernelLaws} L d s buf count :
  represents L d s → 0 < count ≤ MAX_RW_COUNT →
  allocation (kern d) (current_entry (aesd_device d)) count = None →
  let p := buffptr (current_entry (aesd_device d)) in
  ∃ d', aesd_write buf count d = Done (- ENOMEM, d') ∧
    represents (L ∪ list_to_set (cur_ptr (current_entry (aesd_device d)))) d'
      (Spec (commands s) []) ∧
    (p ≠ 0 → p ∈ dom (live (kern d')) ∧
      p ∉ owned (buffer (aesd_device d')) (current_entry (aesd_device d'))).
Proof.
  intros HR Hcount Halloc p.
  destruct (write_run L d s buf count HR ltac:(lia)) as (d' & Hrun & Hrep). exists d'.
  rewrite bool_decide_false in Hrun, Hrep by lia. rewrite Halloc in Hrun, Hrep.
  split_and!; [done|done|]. intros Hp.
  assert (HpL : p ∈ L ∪ list_to_set (cur_ptr (current_entry (aesd_device d)))).
  { unfold cur_ptr. rewrite bool_decide_false by done. set_solver. }
  destruct Hrep as [_ Hrep]. split; [|by apply (rep_lost _ _ _ _ _ Hrep)].
  rewrite (rep_dom _ _ _ _ _ Hrep). set_solver.
Qed.

Lemma write_enomem_loses_pending_witness :
  let p := buffptr (current_entry (aesd_device short_driver)) in
  p ≠ 0 ∧
  ∃ d', @aesd_write (reference_services (λ _, true)) (line "c") 2 short_driver
        = Done (- ENOMEM, d') ∧
    represents (∅ ∪ list_to_set (cur_ptr (current_entry (aesd_device short_driver)))) d'
      (Spec (commands short_spec) []) ∧
    (p ≠ 0 → p ∈ dom (live (kern d')) ∧
      p ∉ owned (buffer (aesd_device d')) (current_entry (aesd_device d'))).
Proof.
  split; [vm_compute; discriminate|].
  apply (@write_enomem_loses_pending (reference_services (λ _, true))
    (reference_laws (λ _, true)) ∅ short_driver short_spec (line "c") 2);
    [apply short_rep|unfold MAX_RW_COUNT; lia|reflexivity].
Defined.

(** C31: when the user's bytes cannot all be read, the write returns [-EFAULT] and
    releases the lock, but the command being built has grown by as many bytes
    as the write asked for, and they stay part of it. *)
Theorem write_efault_keeps_bytes {KS : KernelServices} {KL : KernelLaws} L d s buf count :
  represents L d s → 0 < count ≤ MAX_RW_COUNT → blen buf < count →
  allocation (kern d) (current_entry (aesd_device d)) count ≠ None →
  ∃ d' data, aesd_write buf count d = Done (- EFAULT, d') ∧ blen data = count ∧
    represents L d' (Spec (commands s) (pending s ++ data)).
Proof.
  intros HR Hcount Hbuf Halloc.
  destruct (write_run L d s buf count HR ltac:(lia)) as (d' & Hrun & Hrep). exists d'.
  rewrite bool_decide_false in Hrun, Hrep by lia.
  destruct (allocation _ _ _); [|done]. rewrite bool_decide_false in Hrun, Hrep by lia.
  destruct Hrep as (data & Hlen & Hrep). by exists data.
Qed.

Lemma write_efault_keeps_bytes_witness :
  ∃ d' data, aesd_write (bytes "x") 3 short_driver = Done (- EFAULT, d') ∧ blen data = 3 ∧
    represents ∅ d' (Spec (commands short_spec) (pending short_spec ++ data)).
Proof.
  apply (write_efault_keeps_bytes ∅ short_driver short_spec (bytes "x") 3);
    [apply short_rep|unfold MAX_RW_COUNT; lia|vm_compute; reflexivity|vm_compute; discriminate].
Defined.

(** ** Reading *)

(** C3: a read of [count] bytes at [f_pos] hands the user the log's bytes from
    that position up to the end of the command that holds it, moves the
    position by as much and changes nothing in the driver; it returns 0 exactly
    at the end of the log (or for an empty or negative request), and [-EFAULT]
    without moving when the user buffer is too short for the bytes. *)
Theorem read_correct {KS : KernelServices} {KL : KernelLaws} L d s buf count f_pos :
  represents L d s → 0 ≤ count < 2 ^ 64 → - 2 ^ 63 ≤ f_pos < 2 ^ 63 →
  let data := spec_read s f_pos count in
  aesd_read buf count f_pos d
  = Done (if bool_decide (blen data ≤ blen buf)
          then (blen data, f_pos + blen data, data ++ drop (length data) buf)
          else (- EFAULT, f_pos, (copy_to_user buf data).1), d) ∧
  data = take (length data) (drop (Z.to_nat f_pos) (visible s)) ∧
  blen data ≤ count ∧
  (data = [] ↔ count = 0 ∨ ¬ 0 ≤ f_pos < blen (visible s)).
Proof.
  intros HR Hcount Hpos data. split; [by apply (read_run L)|].
  subst data. unfold spec_read. case_bool_decide as Hneg.
  { split_and!; [done|unfold blen; simpl; lia|]. split; [lia|done]. }
  split_and!.
  - apply read_at_prefix.
  - pose proof (read_at_length (commands s) (Z.to_nat f_pos) (Z.to_nat count)).
    unfold blen. lia.
  - rewrite read_at_nil. unfold visible, blen. lia.
Qed.

Lemma read_correct_witness :
  spec_read short_spec 2 100 = line "llo" ∧
  let data := spec_read short_spec 2 100 in
  aesd_read (bytes "........") 100 2 short_driver
  = Done (if bool_decide (blen data ≤ blen (bytes "........"))
          then (blen data, 2 + blen data, data ++ drop (length data) (bytes "........"))
          else (- EFAULT, 2, (copy_to_user (bytes "........") data).1), short_driver) ∧
  data = take (length data) (drop (Z.to_nat 2) (visible short_spec)) ∧
  blen data ≤ 100 ∧
  (data = [] ↔ 100 = 0 ∨ ¬ 0 ≤ 2 < blen (visible short_spec)).
Proof.
  split; [reflexivity|].
  apply (read_correct ∅ short_driver short_spec (bytes "........") 100 2);
    [apply short_rep|lia|lia].
Defined.

(** A reader that asks for [n] bytes at a time until it gets none. *)
Fixpoint read_loop {KS : KernelServices} (fuel : nat) (n f_pos : Z) : M driver (list ascii) :=
  match fuel with
  | O => λ _, NoFuel
  | S fuel' =>
      '(ret, pos', buf) ← aesd_read (replicate (Z.to_nat n) "000"%char) n f_pos;
      if bool_decide (ret ≤ 0) then mret []
      else rest ← read_loop fuel' n pos'; mret (take (Z.to_nat ret) buf ++ rest)
  end.

Lemma read_loop_from {KS : KernelServices} {KL : KernelLaws} L d s fuel n f_pos :
  represents L d s → 0 < n < 2 ^ 63 → 0 ≤ f_pos →
  blen (visible s) - f_pos < Z.of_nat fuel → f_pos ≤ blen (visible s) →
  read_loop fuel n f_pos d = Done (drop (Z.to_nat f_pos) (visible s), d).
Proof.
  intros HR Hn. pose proof HR as [_ Hrep].
  destruct (rep_total _ _ _ _ _ Hrep) as [Htot Hlt]. rewrite Htot in Hlt. clear Htot Hrep.
  revert f_pos. induction fuel as [|fuel IH]; intros f_pos Hpos Hfuel Hle; [lia|].
  simpl. rewrite (M_bind_Done _ _ _ _ _ (read_run L d s _ n f_pos HR ltac:(lia) ltac:(lia))).
  assert (Hspec : spec_read s f_pos n = read_at (commands s) (Z.to_nat f_pos) (Z.to_nat n)).
  { unfold spec_read. by rewrite bool_decide_false by lia. }
  rewrite Hspec.
  pose proof (read_at_length (commands s) (Z.to_nat f_pos) (Z.to_nat n)) as Hlen.
  pose proof (read_at_prefix (commands s) (Z.to_nat f_pos) (Z.to_nat n)) as Hpre.
  pose proof (read_at_nil (commands s) (Z.to_nat f_pos) (Z.to_nat n)) as Hnil.
  fold (visible s) in Hpre, Hnil.
  set (data := read_at _ _ _) in *. unfold read_result, blen in *.
  rewrite length_replicate, bool_decide_true by lia.
  destruct (decide (data = [])) as [Hd|Hd].
  - rewrite Hd. rewrite bool_decide_true by (simpl; lia).
    apply Hnil in Hd. by rewrite drop_ge by lia.
  - assert (length data ≠ 0%nat) by (intros ?%nil_length_inv; done).
    rewrite bool_decide_false by lia.
    assert (length data ≤ length (visible s) - Z.to_nat f_pos)%nat.
    { rewrite Hpre, length_take, length_drop. lia. }
    rewrite (M_bind_Done _ _ _ _ _ (IH (f_pos + Z.of_nat (length data))
      ltac:(lia) ltac:(lia) ltac:(lia))).
    rewrite Nat2Z.id, take_app_length. unfold mret, M_ret. do 2 f_equal.
    replace (Z.to_nat (f_pos + Z.of_nat (length data)))
      with (Z.to_nat f_pos + length data)%nat by lia.
    rewrite Hpre at 1. rewrite <- drop_drop. apply take_drop.
Qed.

(** C8: reading from the start, with a buffer of any positive size, until the
    driver returns 0 ends after at most one read per byte and has then
    delivered all the complete commands in order, and the driver is as it was. *)
Theorem read_loop_drains {KS : KernelServices} {KL : KernelLaws} L d s fuel n :
  represents L d s → 0 < n < 2 ^ 63 → blen (visible s) < Z.of_nat fuel →
  read_loop fuel n 0 d = Done (visible s, d).
Proof.
  intros HR Hn Hfuel. rewrite (read_loop_from L d s) by (done || unfold blen in *; lia).
  by rewrite drop_0.
Qed.

Lemma read_loop_drains_witness :
  visible short_spec = line "hello" ++ line "world" ∧
  read_loop 13 4 0 short_driver = Done (visible short_spec, short_driver).
Proof.
  split; [reflexivity|]. apply (read_loop_drains ∅ short_driver short_spec 13 4);
    [apply short_rep|lia|reflexivity].
Defined.

(** ** Seeking *)

(** The position a seek aims at. *)
Definition seek_target (f_pos offset whence size : Z) : Z :=
  if bool_decide (whence = SEEK_SET) then offset
  else if bool_decide (whence = SEEK_END) then size + offset
  else f_pos + offset.

(** C36: [llseek] measures against the bytes of the complete commands: it moves
    the position to the target and returns it when the target lies between 0
    and that size (and [SEEK_CUR] by 0 always tells the position); any other
    target gives [-EINVAL] and the position stays. *)
Theorem llseek_correct {KS : KernelServices} {KL : KernelLaws} L d s f_pos offset whence :
  represents L d s → whence ∈ [SEEK_SET; SEEK_CUR; SEEK_END] →
  let target := seek_target f_pos offset whence (blen (visible s)) in
  llseek f_pos offset whence d
  = Done (if bool_decide (0 ≤ target ≤ blen (visible s) ∨ (whence = SEEK_CUR ∧ offset = 0))
          then (target, target) else (- EINVAL, f_pos), d).
Proof.
  intros HR Hwh target. rewrite (llseek_run L d s) by done. do 2 f_equal. subst target.
  unfold seek_target. rewrite !elem_of_cons, elem_of_nil in Hwh.
  destruct Hwh as [->|[->|[->|Hwh]]]; [| | |by destruct Hwh].
  - rewrite llseek_set. simpl. apply if_bool_decide_ext. unfold SEEK_SET, SEEK_CUR. lia.
  - unfold SEEK_SET, SEEK_CUR, SEEK_END in *. simpl.
    destruct (decide (offset = 0)) as [->|Hnz].
    + rewrite llseek_tell. rewrite bool_decide_true by auto. by rewrite Z.add_0_r.
    + rewrite llseek_cur by done. apply if_bool_decide_ext. lia.
  - rewrite llseek_end. simpl. apply if_bool_decide_ext. unfold SEEK_END, SEEK_CUR. lia.
Qed.

Lemma llseek_correct_witness :
  let target := seek_target 3 (-2) SEEK_END (blen (visible short_spec)) in
  target = 10 ∧
  llseek 3 (-2) SEEK_END short_driver
  = Done (if bool_decide (0 ≤ target ≤ blen (visible short_spec)
                          ∨ (SEEK_END = SEEK_CUR ∧ -2 = 0))
          then (target, target) else (- EINVAL, 3), short_driver).
Proof.
  split; [reflexivity|]. apply (llseek_correct ∅ short_driver short_spec 3 (-2) SEEK_END);
    [apply short_rep|by repeat constructor].
Defined.

(** C6: the ioctl accepts the one command [AESDCHAR_IOCSEEKTO] with a readable
    argument and refuses anything else with [-ENOTTY] or [-EFAULT].  On a seek
    it refuses with [-EINVAL] a command index that is not in the log or an
    offset past the command, and otherwise moves the position to that byte,
    with one exception: an index that, counted from the ring's first slot,
    passes the end of the array makes it read outside the array. *)
Theorem ioctl_correct {KS : KernelServices} {KL : KernelLaws} L d s f_pos cmd arg :
  represents L d s →
  let seek_to := seekto_of_bytes arg in
  let k := write_cmd seek_to in
  let off := write_cmd_offset seek_to in
  let out := out_offs (buffer (aesd_device d)) in
  unlocked_ioctl f_pos cmd arg d
  = if bool_decide (cmd ≠ AESDCHAR_IOCSEEKTO) then Done ((- ENOTTY, f_pos), d)
    else if bool_decide (blen arg < sizeof_seekto) then Done ((- EFAULT, f_pos), d)
    else match commands s !! Z.to_nat k with
         | None => Done ((- EINVAL, f_pos), d)
         | Some c =>
             if bool_decide (10 ≤ out + k) then Undef
             else if bool_decide (blen c ≤ off) then Done ((- EINVAL, f_pos), d)
             else Done ((0, blen (concat (take (Z.to_nat k) (commands s))) + off), d)
         end.
Proof.
  intros HR seek_to k off out. rewrite (ioctl_run L d s) by done.
  pose proof (le_decode_u32 arg) as [Hk _].
  change (le_decode (take 4 arg)) with k in Hk.
  destruct (decide (cmd = AESDCHAR_IOCSEEKTO)) as [Hc|Hc]; last first.
  { by rewrite bool_decide_false, bool_decide_true by done. }
  rewrite bool_decide_true by done. rewrite (bool_decide_false (cmd ≠ _)) by (by intros []).
  destruct (decide (sizeof_seekto ≤ blen arg)); last first.
  { by rewrite bool_decide_false, bool_decide_true by lia. }
  rewrite bool_decide_true, bool_decide_false by lia. unfold seek_result.
  fold seek_to k off out. destruct (commands s !! Z.to_nat k) as [c|] eqn:Hlk.
  - apply lookup_lt_Some in Hlk as Hlt. rewrite bool_decide_false by lia.
    rewrite (bool_decide_ext (out + k >= 10) (10 ≤ out + k)) by lia.
    case_bool_decide; [done|]. rewrite (bool_decide_ext (off >= blen c) (blen c ≤ off)) by lia.
    by case_bool_decide.
  - apply lookup_ge_None in Hlk. by rewrite bool_decide_true by lia.
Qed.

Lemma ioctl_correct_witness :
  let arg := seekto_bytes 1 4 in
  unlocked_ioctl 3 AESDCHAR_IOCSEEKTO arg short_driver = Done ((0, 10), short_driver).
Proof.
  intros arg. rewrite (ioctl_correct ∅ short_driver short_spec 3 AESDCHAR_IOCSEEKTO arg
    short_rep). reflexivity.
Defined.

(** The position of byte [off] of command [k] reads back that command's bytes. *)
Lemma read_at_command cs k c off n :
  cs !! k = Some c → (off < length c)%nat →
  read_at cs (length (concat (take k cs)) + off) n = take n (drop off c).
Proof.
  revert k. induction cs as [|c0 cs IH]; intros k Hk Hoff; [done|]. destruct k as [|k].
  - simpl in *. simplify_eq. by rewrite bool_decide_true by lia.
  - simpl in *. rewrite length_app, bool_decide_false by lia. rewrite <- (IH k) by done.
    f_equal. lia.
Qed.

(** C7: seeking to byte [off] of command [k] and then reading into any buffer with
    room for [count] bytes puts that command's bytes from [off] on, as many as
    asked for and as there are, at the buffer's start, leaves the rest of the
    buffer alone and moves the position past them; for a command that lies at or
    before the end of the array when counted from the ring's first slot (for any
    other command the seek is undefined). *)
Theorem seek_then_read {KS : KernelServices} {KL : KernelLaws} L d s f_pos k off c buf count :
  represents L d s → 0 ≤ k < 2 ^ 32 → 0 ≤ off < blen c → off < 2 ^ 32 →
  0 ≤ count < 2 ^ 64 → count ≤ blen buf →
  commands s !! Z.to_nat k = Some c →
  let data := take (Z.to_nat count) (drop (Z.to_nat off) c) in
  if bool_decide (out_offs (buffer (aesd_device d)) + k < 10) then
    ∃ pos, unlocked_ioctl f_pos AESDCHAR_IOCSEEKTO (seekto_bytes k off) d = Done ((0, pos), d) ∧
      aesd_read buf count pos d
      = Done ((blen data, pos + blen data, data ++ drop (length data) buf), d)
  else unlocked_ioctl f_pos AESDCHAR_IOCSEEKTO (seekto_bytes k off) d = Undef.
Proof.
  intros HR Hk Hoff Hoff32 Hcount Hbuf Hc data.
  assert (Hio : unlocked_ioctl f_pos AESDCHAR_IOCSEEKTO (seekto_bytes k off) d
    = if bool_decide (out_offs (buffer (aesd_device d)) + k < 10)
      then Done ((0, blen (concat (take (Z.to_nat k) (commands s))) + off), d) else Undef).
  { rewrite (ioctl_run L d s), !bool_decide_true by done.
    rewrite seekto_roundtrip by lia. simpl. unfold seek_result. apply lookup_lt_Some in Hc as Hlt.
    rewrite (bool_decide_false (k >= _)), Hc, (bool_decide_false (off >= _)) by lia.
    case_bool_decide; by rewrite ?bool_decide_true, ?bool_decide_false by lia. }
  rewrite Hio. case_bool_decide as Hout; [|done].
  exists (blen (concat (take (Z.to_nat k) (commands s))) + off). split; [done|].
  pose proof HR as [_ Hrep]. destruct (rep_total _ _ _ _ _ Hrep) as [Htot Hlt].
  assert (Hpos : blen (concat (take (Z.to_nat k) (commands s))) + off < blen (visible s)).
  { unfold visible, blen in *. rewrite <- (take_drop_middle _ _ _ Hc) at 2.
    rewrite concat_app. simpl. rewrite !length_app. lia. }
  unfold blen in *. rewrite (read_run L d s buf count _ HR) by lia. do 2 f_equal.
  assert (spec_read s (Z.of_nat (length (concat (take (Z.to_nat k) (commands s)))) + off) count
    = data) as ->.
  { unfold spec_read. rewrite bool_decide_false by lia.
    subst data. rewrite <- (read_at_command _ _ _ (Z.to_nat off) _ Hc) by lia. f_equal. lia. }
  unfold read_result, blen.
  assert (length data ≤ Z.to_nat count)%nat by (subst data; rewrite length_take; lia).
  by rewrite bool_decide_true by lia.
Qed.

Lemma seek_then_read_witness :
  let data := take (Z.to_nat 3) (drop (Z.to_nat 1) (line "gxy")) in
  data = line "xy" ∧
  if bool_decide (out_offs (buffer (aesd_device wrapped_driver)) + 4 < 10) then
    ∃ pos, unlocked_ioctl 0 AESDCHAR_IOCSEEKTO (seekto_bytes 4 1) wrapped_driver
           = Done ((0, pos), wrapped_driver) ∧
      aesd_read (bytes "........") 3 pos wrapped_driver
      = Done ((blen data, pos + blen data, data ++ drop (length data) (bytes "........")),
              wrapped_driver)
  else unlocked_ioctl 0 AESDCHAR_IOCSEEKTO (seekto_bytes 4 1) wrapped_driver = Undef.
Proof.
  split; [reflexivity|].
  apply (seek_then_read ∅ wrapped_driver wrapped_spec 0 4 1 (line "gxy") (bytes "........") 3);
    [apply wrapped_rep|lia|vm_compute; split; congruence|lia|lia|vm_compute; discriminate|reflexivity].
Defined.

(** ** Sequences of calls *)

(** C4: from the state the initialisation leaves, whatever calls the VFS makes
    and however the allocator and the user copies fail, every state the driver
    reaches has its lock free and represents a log of at most ten commands,
    each ended by a newline, and no block of the rest of the kernel is freed. *)
Theorem reachable_represents {KS : KernelServices} {KL : KernelLaws} k d :
  kernel_ok k → reachable (Driver empty_device k) d →
  ∃ L s, represents L d s ∧ dom (live k) ⊆ L ∧ log_ok s.
Proof.
  intros Hk Hreach. apply (reachable_run (dom (live k)) (Driver empty_device k) spec_init).
  - by apply empty_represents.
  - split; [simpl; lia|constructor].
  - done.
Qed.

Lemma empty_kernel_ok : kernel_ok (KernelState ∅ 0).
Proof. split; [set_solver|done]. Qed.

Lemma short_write_reachable :
  reachable (Driver empty_device (KernelState ∅ 0))
    (after_writes [line "hi"] (Driver empty_device (KernelState ∅ 0))).
Proof.
  apply (reach_step _ (Write (line "hi") 3) (Driver empty_device (KernelState ∅ 0))).
  - constructor.
  - unfold op_ok, MAX_RW_COUNT. lia.
  - reflexivity.
Qed.

Lemma reachable_represents_witness :
  ∃ L s, represents L (after_writes [line "hi"] (Driver empty_device (KernelState ∅ 0))) s ∧
    dom (live (KernelState ∅ 0)) ⊆ L ∧ log_ok s.
Proof.
  apply (reachable_represents (KernelState ∅ 0)
    (after_writes [line "hi"] (Driver empty_device (KernelState ∅ 0))));
    [apply empty_kernel_ok|apply short_write_reachable].
Defined.

(** C5: in every reachable state every call ends, and the only call with
    undefined behaviour is the seek whose command index, counted from the
    ring's first slot, passes the end of the entry array. *)
Theorem undefined_iff_overrun {KS : KernelServices} {KL : KernelLaws} k d o :
  kernel_ok k → reachable (Driver empty_device k) d → op_ok o →
  (seek_overruns d o → exec o d = Undef) ∧
  (¬ seek_overruns d o → ∃ d', exec o d = Done (tt, d')).
Proof.
  intros Hk Hreach Hok.
  destruct (reachable_run (dom (live k)) (Driver empty_device k) spec_init d) as (L & s & HR & _ & Hlog).
  { by apply empty_represents. }
  { split; [simpl; lia|constructor]. }
  { done. }
  destruct (exec_run L d s o HR Hlog Hok) as [[Hu Hyes]|(Hno & d' & L' & s' & Hd & _)].
  - by split.
  - split; [done|]. intros _. by exists d'.
Qed.

(** Eleven writes move the oldest command to slot 1: asking for the tenth
    command then reads past the array. *)
Definition eleven_lines : list (list ascii) := replicate 11 (line "x").

Definition eleven_driver : driver := after_writes eleven_lines empty_driver.
Definition tenth_seek : op := Ioctl 0 AESDCHAR_IOCSEEKTO (seekto_bytes 9 0).

Lemma after_writes_reachable d0 ws d :
  reachable d0 d → writes_fit ws d = true → reachable d0 (after_writes ws d).
Proof.
  revert d. induction ws as [|w ws IH]; intros d Hd Hfit; [done|]. simpl in *.
  apply andb_prop in Hfit as [Hw Hfit]. apply bool_decide_eq_true in Hw.
  destruct (allocation _ _ _); [|done].
  destruct (aesd_write w (blen w) d) as [[r d']| |] eqn:E; [|done..].
  apply IH; [|done]. apply (reach_step _ (Write w (blen w)) d); [done|simpl; lia|].
  simpl. by rewrite (M_bind_Done _ _ _ _ _ E).
Qed.

Lemma undefined_iff_overrun_witness :
  seek_overruns eleven_driver tenth_seek ∧
  (seek_overruns eleven_driver tenth_seek → exec tenth_seek eleven_driver = Undef) ∧
  (¬ seek_overruns eleven_driver tenth_seek →
     ∃ d', exec tenth_seek eleven_driver = Done (tt, d')).
Proof.
  split.
  { unfold seek_overruns, tenth_seek.
    split; [reflexivity|split; [|split]]; vm_compute; [discriminate|reflexivity|discriminate]. }
  apply (undefined_iff_overrun (KernelState ∅ 0)); [apply empty_kernel_ok| |exact I].
  apply after_writes_reachable; [constructor|by vm_compute].
Defined.

(** ** The module's life *)

(** C37: loading either fails with the kernel's error code and leaves the device
    regions, the character devices and the heap as they were, or returns 0
    with one new region and device, both under the number that unloading will
    compute, the mutex initialised and an empty log. *)
Theorem init_module_correct {KS : KernelServices} {KL : KernelLaws} m :
  kernel_ok (kern (mdriver m)) →
  let '(result, m') := aesd_init_module m in
  (result ≠ 0 ∧ regions m' = regions m ∧ cdevs m' = cdevs m ∧
     live (kern (mdriver m')) = live (kern (mdriver m))) ∨
  (result = 0 ∧ (∃ dev, (dev ∉ regions m) ∧ MKDEV (aesd_major m') aesd_minor = dev ∧
     regions m' = {[dev]} ∪ regions m ∧ cdevs m' = {[dev]} ∪ cdevs m) ∧
     mutex_live m' = true ∧
     represents (dom (live (kern (mdriver m)))) (mdriver m') spec_init).
Proof.
  intros Hok. pose proof (init_run m Hok) as Hrun.
  destruct (aesd_init_module m) as [result m'].
  destruct Hrun as [?|(? & dev & ? & ? & ? & ? & ? & ->)]; [by left|right].
  split_and!; [done|by exists dev|done|by apply empty_represents].
Qed.

Definition unloaded : module_state :=
  ModuleState (Driver (AesdDev (CircularBuffer [] 3 7 true) (BufferEntry 5 5) true)
    (KernelState ∅ 0)) 0 {[ 5 * 2 ^ 20 ]} ∅ false.

Lemma init_module_correct_witness :
  (aesd_init_module unloaded).1 = 0 ∧
  let '(result, m') := aesd_init_module unloaded in
  (result ≠ 0 ∧ regions m' = regions unloaded ∧ cdevs m' = cdevs unloaded ∧
     live (kern (mdriver m')) = live (kern (mdriver unloaded))) ∨
  (result = 0 ∧ (∃ dev, (dev ∉ regions unloaded) ∧ MKDEV (aesd_major m') aesd_minor = dev ∧
     regions m' = {[dev]} ∪ regions unloaded ∧ cdevs m' = {[dev]} ∪ cdevs unloaded) ∧
     mutex_live m' = true ∧
     represents (dom (live (kern (mdriver unloaded)))) (mdriver m') spec_init).
Proof.
  split; [vm_compute; reflexivity|].
  pose proof (init_module_correct unloaded empty_kernel_ok) as H. exact H.
Defined.

(** C29: unloading a driver in any represented state frees the pending command's
    block and the block of every command in the ring, each once and in range,
    and nothing else; it then gives up the device and its region. *)
Theorem cleanup_frees_all {KS : KernelServices} L m s :
  represents L (mdriver m) s →
  let devno := MKDEV (aesd_major m) aesd_minor in
  ∃ m', aesd_cleanup_module m = Done m' ∧ dom (live (kern (mdriver m'))) = L ∧
    regions m' = regions m ∖ {[devno]} ∧ cdevs m' = cdevs m ∖ {[devno]} ∧
    mutex_live m' = false.
Proof.
  intros HR devno. destruct (cleanup_device_run L (mdriver m) s HR) as (d' & Hrun & Hdom).
  eexists. unfold aesd_cleanup_module. rewrite Hrun. by split_and!.
Qed.

Lemma cleanup_frees_all_witness :
  let m := ModuleState wrapped_driver 6 {[ 5 * 2 ^ 20; 6 * 2 ^ 20 ]} {[ 6 * 2 ^ 20 ]} true in
  let devno := MKDEV 6 aesd_minor in
  size (live (kern wrapped_driver)) = 10%nat ∧
  ∃ m', aesd_cleanup_module m = Done m' ∧ dom (live (kern (mdriver m'))) = ∅ ∧
    regions m' = regions m ∖ {[devno]} ∧ cdevs m' = cdevs m ∖ {[devno]} ∧
    mutex_live m' = false.
Proof.
  intros m. split; [vm_compute; reflexivity|].
  apply (cleanup_frees_all ∅ m wrapped_spec), wrapped_rep.
Defined.
