(* ===== verification/Stdio.v ===== *)
(** * C strings and streams

    The parts of the C standard library the socket server uses: the line reader
    [fgets], C strings, [strtol] and the socket's two streams.  The output file
    is in [OutputFile]. *)

From S2P Require Import Prelude.

Definition NUL : ascii := "000".
Definition NL : ascii := "010".

(** The bytes of a string constant. *)
Definition text (s : string) : list ascii := String.list_ascii_of_string s.

(** ** Reading a line: [fgets]

    At most [k] bytes up to and including a newline: the bytes, what follows
    them, and whether the end of the input was met. *)
Fixpoint fgets_take (k : nat) (l : list ascii) : list ascii * list ascii * bool :=
  match k with
  | O => ([], l, false)
  | S k' =>
      match l with
      | [] => ([], [], true)
      | c :: l' =>
          if bool_decide (c = NL) then ([c], l', false)
          else let '(chunk, rest, hit) := fgets_take k' l' in (c :: chunk, rest, hit)
      end
  end.

(** What an input ends with: end of file, or a read error. *)
Inductive ending := Eof | Error.

(** An input stream: the bytes still to come and how they end. *)
Record instream := InStream {
  unread : list ascii;
  ends : ending;
}.

(** [fgets buffer n s]: [None] for NULL. *)
Definition fgets (n : Z) (s : instream) : option (list ascii) * instream :=
  let '(chunk, rest, hit) := fgets_take (Z.to_nat (n - 1)) (unread s) in
  let s' := InStream rest (ends s) in
  if hit then
    match ends s with
    | Error => (None, s')
    | Eof => (if bool_decide (chunk = []) then None else Some chunk, s')
    end
  else (Some chunk, s').

(** ** C strings: the bytes before the first NUL *)
Fixpoint cstring (l : list ascii) : list ascii :=
  match l with
  | [] => []
  | c :: l' => if bool_decide (c = NUL) then [] else c :: cstring l'
  end.

Definition strlen (s : list ascii) : Z := Z.of_nat (length s).

(** ** [strtol] in base 10 *)
Definition isspace (c : ascii) : bool :=
  let n := Z.of_N (N_of_ascii c) in
  bool_decide (n = 32) || bool_decide (9 ≤ n ≤ 13).

Definition digit_of (c : ascii) : option Z :=
  let n := Z.of_N (N_of_ascii c) in
  if bool_decide (48 ≤ n ≤ 57) then Some (n - 48) else None.

Fixpoint skip_spaces (s : list ascii) : list ascii :=
  match s with
  | c :: s' => if isspace c then skip_spaces s' else s
  | [] => []
  end.

(** The value of the leading digits after [acc], and what follows them. *)
Fixpoint digits_from (acc : Z) (s : list ascii) : Z * list ascii :=
  match s with
  | c :: s' =>
      match digit_of c with
      | Some d => digits_from (10 * acc + d) s'
      | None => (acc, s)
      end
  | [] => (acc, [])
  end.

Definition LONG_MAX : Z := 2 ^ 63 - 1.

(** The value, out of range values clamped, and [endptr] as what follows the
    number; with no digits [endptr] is the start ([None]). *)
Definition strtol (s : list ascii) : Z * option (list ascii) :=
  let s1 := skip_spaces s in
  let '(neg, s2) :=
    match s1 with
    | c :: s' =>
        if bool_decide (c = "-"%char) then (true, s')
        else if bool_decide (c = "+"%char) then (false, s') else (false, s1)
    | [] => (false, [])
    end in
  match s2 with
  | c :: _ =>
      match digit_of c with
      | Some _ =>
          let '(v, rest) := digits_from 0 s2 in
          (if neg then Z.max (- LONG_MAX - 1) (- v) else Z.min LONG_MAX v, Some rest)
      | None => (0, None)
      end
  | [] => (0, None)
  end.

(** ** The output stream on a socket

    [sent] is what it has taken, the bytes in its buffer included; it takes [room]
    more bytes, then fails. *)
Record outstream := OutStream {
  sent : list ascii;
  room : option nat;
}.

Definition fwrite_socket (l : list ascii) (s : outstream) : Z * outstream :=
  match room s with
  | None => (strlen l, OutStream (sent s ++ l) None)
  | Some n =>
      let k := Nat.min n (length l) in
      (Z.of_nat k, OutStream (sent s ++ take k l) (Some (n - k)%nat))
  end.

(** ** What [fgets_take] does *)

Lemma fgets_take_split k l chunk rest hit :
  fgets_take k l = (chunk, rest, hit) →
  l = chunk ++ rest ∧ (length chunk ≤ k)%nat ∧
  (hit = true → rest = [] ∧ (NL ∉ chunk) ∧ (length chunk < k)%nat).
Proof.
  revert l chunk rest hit. induction k as [|k IH]; intros [|c l] chunk rest hit; simpl.
  - intros [= <- <- <-]. split_and!; [done..|by intros].
  - intros [= <- <- <-]. split_and!; [done|simpl; lia|by intros].
  - intros [= <- <- <-]. split_and!; [done|simpl; lia|]. intros _. split; [done|].
    split; [apply not_elem_of_nil|simpl; lia].
  - case_bool_decide as Hc; [intros [= <- <- <-]; split_and!; [done|simpl; lia|by intros]|].
    destruct (fgets_take k l) as [[c' r'] h'] eqn:E. intros [= <- <- <-].
    destruct (IH _ _ _ _ E) as (-> & ? & Hh). split_and!; [done|simpl; lia|].
    intros Hhit. destruct (Hh Hhit) as (-> & Hnl & ?). split; [done|]. simpl.
    split; [|lia]. apply not_elem_of_cons. split; congruence.
Qed.

(** A reader that asks for a byte makes progress unless the input is over. *)
Lemma fgets_take_nil k l chunk rest hit :
  fgets_take k l = (chunk, rest, hit) → (0 < k)%nat →
  (chunk = [] ↔ l = []) ∧ (chunk = [] → hit = true).
Proof.
  destruct k as [|k]; [lia|]. destruct l as [|c l]; simpl; [by intros [= <- _ <-]|].
  case_bool_decide; [by intros [= <- _ _]|].
  destruct (fgets_take k l) as [[c' r'] h']. by intros [= <- _ _].
Qed.

(** Enough is buffered for [fgets]: a newline or all the bytes asked for. *)
Definition enough (k : nat) (l : list ascii) : bool :=
  bool_decide (NL ∈ l) || bool_decide (k ≤ length l)%nat.

Lemma fgets_take_enough k l t :
  enough k l = true →
  fgets_take k (l ++ t) = (let '(chunk, rest, hit) := fgets_take k l in (chunk, rest ++ t, hit)).
Proof.
  revert l. induction k as [|k IH]; intros [|c l]; simpl; [done..| |].
  - unfold enough. rewrite orb_true_iff, !bool_decide_eq_true. simpl.
    intros [?%not_elem_of_nil|?]; [done|lia].
  - intros He. case_bool_decide as Hc; [done|]. rewrite IH.
    + by destruct (fgets_take k l) as [[? ?] ?].
    + unfold enough in *. rewrite orb_true_iff, !bool_decide_eq_true in *. simpl in He.
      destruct He as [[?|?]%elem_of_cons|?]; [congruence|by left|right; lia].
Qed.

Lemma fgets_take_cons k c l :
  c ≠ NL →
  fgets_take (S k) (c :: l)
  = (let '(chunk, rest, hit) := fgets_take k l in (c :: chunk, rest, hit)).
Proof. intros Hc. simpl. by rewrite bool_decide_false. Qed.

(** On a line that is long enough [fgets] takes a full buffer of it; on a
    shorter one it takes all of it with its newline. *)
Lemma fgets_take_long k l t :
  NL ∉ l → (k ≤ length l)%nat → fgets_take k (l ++ t) = (take k l, drop k l ++ t, false).
Proof.
  revert l. induction k as [|k IH]; intros [|c l] Hn Hk; simpl in *; [done|done|lia|].
  apply not_elem_of_cons in Hn as [Hc Hn]. rewrite bool_decide_false by congruence.
  by rewrite IH by (done || lia).
Qed.

Lemma fgets_take_line k l t :
  NL ∉ l → (length l < k)%nat → fgets_take k (l ++ NL :: t) = (l ++ [NL], t, false).
Proof.
  revert k. induction l as [|c l IH]; intros [|k] Hn Hk; simpl in *; try lia.
  - done.
  - apply not_elem_of_cons in Hn as [Hc Hn]. rewrite bool_decide_false by congruence.
    by rewrite IH by (done || lia).
Qed.

Lemma fgets_take_rest k l :
  NL ∉ l → (length l < k)%nat → fgets_take k l = (l, [], true).
Proof.
  revert k. induction l as [|c l IH]; intros [|k] Hn Hk; simpl in *; try lia; [done|].
  apply not_elem_of_cons in Hn as [Hc Hn]. rewrite bool_decide_false by congruence.
  by rewrite IH by (done || lia).
Qed.

(** ** C strings without a NUL are the whole array *)
Lemma cstring_id l : NUL ∉ l → cstring l = l.
Proof.
  induction l as [|c l IH]; [done|]. intros [Hc Hn]%not_elem_of_cons. simpl.
  rewrite bool_decide_false by congruence. by rewrite IH.
Qed.

Lemma fwrite_socket_nil o : fwrite_socket [] o = (0, o).
Proof.
  unfold fwrite_socket. destruct o as [s [m|]]; cbn [sent room length].
  - by rewrite Nat.min_0_r, Nat.sub_0_r, take_0, app_nil_r.
  - by rewrite app_nil_r.
Qed.

(** ** The leading digits of a number *)
Definition is_digit (c : ascii) : bool := bool_decide (digit_of c ≠ None).
Definition value (acc : Z) (ds : list ascii) : Z :=
  foldl (λ acc c, 10 * acc + default 0 (digit_of c)) acc ds.
Definition ends_number (t : list ascii) : Prop :=
  match t with [] => True | c :: _ => digit_of c = None end.

Lemma digits_from_app acc ds t :
  Forall is_digit ds → ends_number t → digits_from acc (ds ++ t) = (value acc ds, t).
Proof.
  intros Hds Ht. revert acc. induction Hds as [|c ds Hc Hds IH]; intros acc; simpl.
  - destruct t as [|c t]; [done|]. simpl in *. by rewrite Ht.
  - unfold is_digit in Hc. apply bool_decide_unpack in Hc.
    destruct (digit_of c) eqn:E; [|done]. simpl. apply IH.
Qed.

Lemma digit_not_space c d : digit_of c = Some d → isspace c = false ∧ c ≠ "-"%char ∧ c ≠ "+"%char.
Proof.
  unfold digit_of, isspace. case_bool_decide as Hc; [|done]. intros _.
  rewrite !bool_decide_false by lia. split; [done|].
  split; intros ->; revert Hc; vm_compute; intuition.
Qed.

Lemma strtol_digits ds t :
  ds ≠ [] → Forall is_digit ds → ends_number t →
  strtol (ds ++ t) = (Z.min LONG_MAX (value 0 ds), Some t).
Proof.
  intros Hne Hds Ht. pose proof (digits_from_app 0 ds t Hds Ht) as Hd.
  destruct ds as [|c ds]; [done|]. apply Forall_cons in Hds as [Hc _].
  unfold is_digit in Hc. apply bool_decide_unpack in Hc.
  destruct (digit_of c) as [d|] eqn:E; [|done].
  destruct (digit_not_space c d E) as (Hs & Hm & Hp).
  assert (skip_spaces ((c :: ds) ++ t) = (c :: ds) ++ t) as Hsk by (simpl; by rewrite Hs).
  unfold strtol. rewrite Hsk. cbn [app]. rewrite !bool_decide_false, E by done.
  change (c :: ds ++ t) with ((c :: ds) ++ t). by rewrite Hd.
Qed.

Lemma value_nonneg ds acc : 0 ≤ acc → 0 ≤ value acc ds.
Proof.
  revert acc. induction ds as [|c ds IH]; intros acc Ha; [done|]. apply IH.
  unfold digit_of. case_bool_decide; simpl; lia.
Qed.

(** ** Writing to the socket in pieces is writing at once *)
Lemma fwrite_socket_app l1 l2 o w o' :
  fwrite_socket (l1 ++ l2) o = (w, o') →
  ∃ w1 o1, fwrite_socket l1 o = (w1, o1) ∧
    ((w1 = strlen l1 ∧ fwrite_socket l2 o1 = (w - strlen l1, o')) ∨
     (w1 ≠ strlen l1 ∧ w ≠ strlen (l1 ++ l2) ∧ o1 = o')).
Proof.
  unfold fwrite_socket, strlen. destruct o as [s [m|]]; simpl; rewrite length_app.
  - intros [= <- <-]. eexists _, _. split; [done|].
    destruct (decide (length l1 ≤ m)%nat) as [Hle|Hgt]; [left|right].
    + split; [lia|]. rewrite (Nat.min_r m (length l1)) by lia.
      rewrite (take_ge l1) by lia. f_equal; [lia|]. rewrite take_app_ge by lia.
      f_equal; [|f_equal; lia]. cbn [sent]. rewrite <- app_assoc. do 3 f_equal. lia.
    + split; [lia|]. split; [lia|]. rewrite !Nat.min_l by lia. by rewrite take_app_le by lia.
  - intros [= <- <-]. eexists _, _. split; [done|]. left. split; [done|].
    cbn [sent]. rewrite <- app_assoc. f_equal. lia.
Qed.
