(* ===== verification/OutputFile.v ===== *)
(** * The output file

    [server_protocol] writes to a [FILE*] opened with mode "w+" on a descriptor
    that is a regular file or the character device.  [Descriptor] is the
    interface of the descriptor, [FILE] the buffered stream on it (fully
    buffered, as the C standard requires for a file that is not a terminal),
    and [LogDevice] the contract the server relies on: what is written is
    appended to a log, and reading delivers the log. *)

From S2P Require Import Prelude Kernel Stdio.

(** The system calls on the descriptor behind the stream. *)
Class Descriptor (D : Type) := {
  (* open(path, O_RDWR | O_CREAT | O_TRUNC), when it does not fail: the
     descriptor, from what is found under the path *)
  d_open : D → D;
  d_write : list ascii → M D Z;
  (* the return value and the bytes delivered *)
  d_read : Z → M D (Z * list ascii);
  d_lseek : Z → Z → M D Z;
  (* ioctl(fd, AESDCHAR_IOCSEEKTO, {write_cmd, write_cmd_offset}) *)
  d_ioctl_seekto : Z → Z → M D Z;
}.

(** [reading]: the last operation was input, so that output is undefined unless
    the input met the end of the file or the position is set first. *)
Record FILE (D : Type) := File {
  fd : D;
  wbuf : list ascii;
  rbuf : list ascii;
  eof : bool;
  err : bool;
  reading : bool;
}.
Arguments File {D} _ _ _ _ _ _.
Arguments fd {D} _.
Arguments wbuf {D} _.
Arguments rbuf {D} _.
Arguments eof {D} _.
Arguments err {D} _.
Arguments reading {D} _.

(** The stream that [fopen(path, "w+")] gives when it does not fail. *)
Definition fopen {D} `{Descriptor D} (found : D) : FILE D :=
  File (d_open found) [] [] false false false.

(** The stream's buffer; the largest amount of one read. *)
Definition BUFSIZ : Z := 4096.

Section Stream.
Context {D : Type} `{Descriptor D}.

Definition on_fd {A} (m : M D A) : M (FILE D) A := λ f,
  '(a, d) ← m (fd f); Done (a, File d (wbuf f) (rbuf f) (eof f) (err f) (reading f)).

(** [write] until everything is written; [false] for an error. *)
Fixpoint write_all (fuel : nat) (l : list ascii) : M D bool :=
  match l with
  | [] => mret true
  | _ =>
      match fuel with
      | O => λ _, NoFuel
      | S fuel' =>
          n ← d_write l;
          if bool_decide (n < 0) then mret false
          else write_all fuel' (drop (Z.to_nat n) l)
      end
  end.

(** 0, or -1 (EOF) when a write fails; the buffered bytes are gone then too. *)
Definition fflush : M (FILE D) Z :=
  l ← gets (@wbuf D);
  ok ← on_fd (write_all (S (length l)) l);
  modify (λ f, File (fd f) [] (rbuf f) (eof f) (err f || negb ok) (reading f));;
  mret (match ok with true => 0 | false => -1 end).

(** The bytes go to the buffer, which is flushed when it is full. *)
Definition fwrite (l : list ascii) : M (FILE D) Z :=
  f ← gets (λ f : FILE D, f);
  if reading f && negb (eof f) then lift Undef
  else
    modify (λ f, File (fd f) (wbuf f ++ l) (rbuf f) (eof f) (err f) false);;
    if bool_decide (BUFSIZ < strlen (wbuf f ++ l)) then
      r ← fflush; mret (if bool_decide (r = 0) then strlen l else 0)
    else mret (strlen l).

(** Setting the position writes what is buffered and forgets what was read
    ahead. *)
Definition fseek_cur : M (FILE D) Z :=
  r1 ← fflush;
  ahead ← gets (λ f : FILE D, strlen (rbuf f));
  r2 ← on_fd (d_lseek (- ahead) SEEK_CUR);
  modify (λ f, File (fd f) (wbuf f) [] false (err f) false);;
  mret (if bool_decide (r1 = 0 ∧ 0 ≤ r2) then 0 else -1).

Definition rewind : M (FILE D) unit :=
  _ ← fflush;
  _ ← on_fd (d_lseek 0 SEEK_SET);
  modify (λ f, File (fd f) (wbuf f) [] false false false).

Definition ftell : M (FILE D) Z :=
  r ← on_fd (d_lseek 0 SEEK_CUR);
  f ← gets (λ f : FILE D, f);
  mret (if bool_decide (r < 0) then -1 else r - strlen (rbuf f) + strlen (wbuf f)).

(** Read until [k] bytes or a newline are there, the end of the file, or an
    error; the end of the file is sticky. *)
Definition fill_body (k : nat) : M (FILE D) (option unit) :=
  f ← gets (λ f : FILE D, f);
  if eof f || enough k (rbuf f) then mret (Some tt)
  else
    '(r, bs) ← on_fd (d_read BUFSIZ);
    if bool_decide (r < 0) then
      modify (λ f, File (fd f) (wbuf f) (rbuf f) (eof f) true (reading f));; mret (Some tt)
    else if bool_decide (r = 0) then
      modify (λ f, File (fd f) (wbuf f) (rbuf f) true (err f) (reading f));; mret (Some tt)
    else
      modify (λ f, File (fd f) (wbuf f) (rbuf f ++ bs) (eof f) (err f) (reading f));; mret None.

Definition file_fgets (n : Z) : M (FILE D) (option (list ascii)) :=
  let k := Z.to_nat (n - 1) in
  modify (λ f, File (fd f) (wbuf f) (rbuf f) (eof f) false true);;
  forever (S k) (fill_body k);;
  f ← gets (λ f : FILE D, f);
  let '(chunk, rest, hit) := fgets_take k (rbuf f) in
  modify (λ f, File (fd f) (wbuf f) rest (eof f) (err f) (reading f));;
  mret (if hit && (err f || bool_decide (chunk = [])) then None else Some chunk).

Definition feof : M (FILE D) bool := gets (@eof D).

Lemma write_all_nil fuel d : write_all fuel [] d = Done (true, d).
Proof. by destruct fuel. Qed.

Lemma write_all_step fuel l d n d' :
  l ≠ [] → d_write l d = Done (n, d') →
  write_all (S fuel) l d
  = if bool_decide (n < 0) then Done (false, d') else write_all fuel (drop (Z.to_nat n) l) d'.
Proof.
  destruct l as [|c l]; [done|]. intros _ Hw. cbn [write_all].
  rewrite (M_bind_Done _ _ _ _ _ Hw). by case_bool_decide.
Qed.

Lemma write_all_once fuel l d d' :
  l ≠ [] → d_write l d = Done (strlen l, d') → write_all (S fuel) l d = Done (true, d').
Proof.
  intros Hl Hw. rewrite (write_all_step _ _ _ _ _ Hl Hw), bool_decide_false by (unfold strlen; lia).
  unfold strlen. rewrite Nat2Z.id, drop_ge by lia. apply write_all_nil.
Qed.
End Stream.

(** ** The contract: a log of bytes

    [dev_ready n d a]: a write appends to the log [a], and [n] more bytes will
    be accepted; [dev_at n d a p]: likewise, and the next read starts at byte
    [p] of what the log shows.  [log_put] is how a log grows, [log_bytes] what
    it shows, [log_seek] where the seek command goes ([None]: it is refused),
    [seek_safe] where its result is defined (it is not elsewhere). *)
Class LogDevice (D A : Type) `{Descriptor D} := {
  dev_ready : Z → D → A → Prop;
  dev_at : Z → D → A → nat → Prop;
  log_put : A → list ascii → A;
  log_bytes : A → list ascii;
  log_seek : A → Z → Z → option nat;
  seek_safe : D → Z → Z → Prop;

  log_put_nil a : log_put a [] = a;
  log_put_app a l1 l2 :
    last l1 ≠ Some NL → log_put (log_put a l1) l2 = log_put a (l1 ++ l2);
  dev_write_law n d a l :
    dev_ready n d a → l ≠ [] → strlen l ≤ BUFSIZ → strlen l ≤ n →
    ∃ d', d_write l d = Done (strlen l, d') ∧ dev_ready (n - strlen l) d' (log_put a l);
  dev_read_law n d a p :
    dev_at n d a p →
    ∃ bs d', d_read BUFSIZ d = Done ((strlen bs, bs), d') ∧
      (bs = [] ↔ drop p (log_bytes a) = []) ∧ bs `prefix_of` drop p (log_bytes a) ∧
      dev_at n d' a (p + length bs);
  dev_end_law n d a p :
    dev_at n d a p → drop p (log_bytes a) = [] → dev_ready n d a;
  dev_rewind_law n d a :
    dev_ready n d a → ∃ r d', d_lseek 0 SEEK_SET d = Done (r, d') ∧ dev_at n d' a 0;
  dev_tell_law n d a p :
    dev_at n d a p → ∃ r d', d_lseek 0 SEEK_CUR d = Done (r, d') ∧ dev_at n d' a p;
  dev_seek_law n d a x y :
    dev_ready n d a → seek_safe d x y → 0 ≤ x < 2 ^ 32 → 0 ≤ y < 2 ^ 32 →
    match log_seek a x y with
    | Some p => ∃ d', d_ioctl_seekto x y d = Done (0, d') ∧ dev_at n d' a p
    | None => ∃ d', d_ioctl_seekto x y d = Done (-1, d') ∧ dev_ready n d' a
    end;
  dev_unsafe_law n d a x y :
    dev_ready n d a → ¬ seek_safe d x y → 0 ≤ x < 2 ^ 32 → 0 ≤ y < 2 ^ 32 →
    d_ioctl_seekto x y d = Undef;
}.

(** ** The stream on a log *)
Section Log.
Context {D A : Type} `{LD : LogDevice D A}.

(** A stream the server can use for the next client. *)
Record file_ready (n : Z) (f : FILE D) (a : A) : Prop := FileReady {
  ready_wbuf : wbuf f = [];
  ready_rbuf : rbuf f = [];
  ready_mode : reading f && negb (eof f) = false;
  ready_dev : dev_ready n (fd f) a;
}.

(** A stream that is being read: [bs] is still to come. *)
Definition file_reading (n : Z) (f : FILE D) (a : A) (bs : list ascii) : Prop :=
  wbuf f = [] ∧ ∃ p, dev_at n (fd f) a p ∧ bs = rbuf f ++ drop p (log_bytes a) ∧
    (eof f = true → drop p (log_bytes a) = []).

Lemma fflush_empty (f : FILE D) :
  wbuf f = [] →
  fflush f = Done (0, File (fd f) [] (rbuf f) (eof f) (err f) (reading f)).
Proof. destruct f; simpl. intros ->. unfold fflush. run. cbn. by destruct err0. Qed.

Lemma fwrite_ready n f a l :
  file_ready n f a → strlen l ≤ BUFSIZ →
  fwrite l f = Done (strlen l, File (fd f) l [] (eof f) (err f) false).
Proof.
  intros [Hw Hr Hm _] Hl. destruct f; simpl in *. subst. unfold fwrite. run. simpl.
  rewrite Hm. run. simpl. by rewrite bool_decide_false by lia.
Qed.

(** A write and its flush put the bytes at the end of the log. *)
Lemma put_law n f a l :
  file_ready n f a → strlen l ≤ BUFSIZ → strlen l ≤ n →
  ∃ f1 f2, fwrite l f = Done (strlen l, f1) ∧ fflush f1 = Done (0, f2) ∧
    file_ready (n - strlen l) f2 (log_put a l).
Proof.
  intros Hf Hl Hn. rewrite (fwrite_ready _ _ _ _ Hf Hl). destruct Hf as [_ _ _ Hd].
  destruct (decide (l = [])) as [->|Hne].
  - eexists _, _. split; [done|]. split; [by apply fflush_empty|]. simpl.
    rewrite log_put_nil. change (strlen []) with 0. rewrite Z.sub_0_r. by constructor.
  - destruct (dev_write_law n (fd f) a l Hd Hne Hl Hn) as (d' & Hw & Hd').
    eexists _, _. split; [done|]. unfold fflush. run. cbn [wbuf].
    rewrite (M_bind_Done _ _ _ true (File d' l [] (eof f) (err f) false))
      by (unfold on_fd; cbn [fd]; by rewrite (write_all_once _ _ _ _ Hne Hw)).
    run. simpl. rewrite orb_false_r. split; [done|]. by constructor.
Qed.

Lemma rewind_law n f a :
  file_ready n f a → ∃ f', rewind f = Done (tt, f') ∧ file_reading n f' a (log_bytes a) ∧
    eof f' = false.
Proof.
  intros [Hw Hr _ Hd]. destruct (dev_rewind_law n (fd f) a Hd) as (r & d' & Hs & Hat).
  unfold rewind. rewrite (M_bind_Done _ _ _ _ _ (fflush_empty f Hw)).
  erewrite M_bind_Done by (unfold on_fd; simpl; rewrite Hs; simpl; done).
  eexists. split; [done|]. split; [|done]. split; [done|]. exists 0%nat. by rewrite drop_0.
Qed.

Lemma seek_law n f a x y :
  file_ready n f a → seek_safe (fd f) x y → 0 ≤ x < 2 ^ 32 → 0 ≤ y < 2 ^ 32 →
  match log_seek a x y with
  | Some p => ∃ f1 f2 r, on_fd (d_ioctl_seekto x y) f = Done (0, f1) ∧
      fseek_cur f1 = Done (r, f2) ∧ file_reading n f2 a (drop p (log_bytes a)) ∧ eof f2 = false
  | None => ∃ f', on_fd (d_ioctl_seekto x y) f = Done (-1, f') ∧ file_ready n f' a
  end.
Proof.
  intros [Hw Hr Hm Hd] Hs Hx Hy. pose proof (dev_seek_law n (fd f) a x y Hd Hs Hx Hy) as Hk.
  destruct (log_seek a x y) as [p|].
  - destruct Hk as (d' & Hi & Hat). destruct (dev_tell_law n d' a p Hat) as (r & d2 & Ht & Hat2).
    eexists _, _, _. unfold on_fd at 1. rewrite Hi. split; [done|].
    unfold fseek_cur. erewrite M_bind_Done by by apply fflush_empty. run. simpl. rewrite Hr.
    change (- strlen []) with 0.
    erewrite M_bind_Done by (unfold on_fd; simpl; rewrite Ht; done). run. simpl.
    split; [done|]. split; [|done]. split; [done|]. by exists p.
  - destruct Hk as (d' & Hi & Hd'). eexists. unfold on_fd. rewrite Hi. split; [done|].
    by constructor.
Qed.

Lemma ftell_law n f a bs :
  file_reading n f a bs → ∃ r f', ftell f = Done (r, f') ∧ file_reading n f' a bs ∧ eof f' = eof f.
Proof.
  intros (Hw & p & Hat & Hbs & He). destruct (dev_tell_law n (fd f) a p Hat) as (r & d' & Ht & Hat').
  unfold ftell. erewrite M_bind_Done by (unfold on_fd; rewrite Ht; done). run.
  eexists _, _. split; [done|]. split; [|done]. split; [done|]. by exists p.
Qed.

(** Filling the buffer ends with enough bytes or at the end of the file. *)
Lemma fill_law n a bs k fuel f :
  file_reading n f a bs → err f = false → (k - length (rbuf f) < fuel)%nat →
  ∃ f', forever fuel (fill_body k) f = Done (tt, f') ∧ file_reading n f' a bs ∧
    err f' = false ∧ (eof f' || enough k (rbuf f') = true) ∧ reading f' = reading f ∧
    (eof f' = true → eof f = true ∨ enough k bs = false).
Proof.
  revert f. induction fuel as [|fuel IH]; intros f Hf He Hk; [lia|].
  destruct (eof f || enough k (rbuf f)) eqn:Hen.
  { exists f. split; [|do 4 (split; [done|]); by left]. apply forever_exit. unfold fill_body. run. simpl. by rewrite Hen. }
  destruct Hf as (Hw & p & Hat & Hbs & Heof).
  destruct (dev_read_law n (fd f) a p Hat) as (l & d' & Hr & Hnil & [t Hpre] & Hat').
  assert (Hread : on_fd (d_read BUFSIZ) f = Done ((strlen l, l),
    File d' (wbuf f) (rbuf f) (eof f) (err f) (reading f))) by (unfold on_fd; by rewrite Hr).
  apply orb_false_iff in Hen as [Hef Hen]. destruct (decide (l = [])) as [->|Hl].
  - eexists. split.
    { apply forever_exit. unfold fill_body. run. simpl. rewrite Hef, Hen. simpl.
      rewrite (M_bind_Done _ _ _ _ _ Hread). run. done. }
    destruct Hnil as [Hnil _]. specialize (Hnil eq_refl).
    split; [|split; [done|]; split; [done|]; split; [done|]].
    + split; [done|]. exists p. simpl in *. by rewrite Nat.add_0_r in Hat'.
    + intros _. right. by rewrite Hbs, Hnil, app_nil_r.
  - assert (0 < length l)%nat by (destruct l; simpl; [done|lia]).
    assert (length (rbuf f) < k)%nat.
    { unfold enough in Hen. apply orb_false_iff in Hen as [_ Hen].
      rewrite bool_decide_eq_false in Hen. lia. }
    destruct (IH (File d' (wbuf f) (rbuf f ++ l) (eof f) (err f) (reading f)))
      as (f' & Hfill & Hres); [|done|simpl; rewrite length_app; lia|].
    { split; [done|]. exists (p + length l)%nat. simpl. split; [done|].
      rewrite <- drop_drop, Hpre, drop_app_length. split; [|by rewrite Hef].
      by rewrite Hbs, Hpre, app_assoc. }
    exists f'. split; [|done]. erewrite forever_next; [exact Hfill|].
    unfold fill_body. run. simpl. rewrite Hef, Hen. simpl.
    rewrite (M_bind_Done _ _ _ _ _ Hread). cbn beta iota.
    rewrite !bool_decide_false by (unfold strlen; lia). run. cbn. by rewrite Hef.
Qed.

(** [fgets] on the stream reads a line of the bytes still to come; at their end
    it returns NULL and the stream is ready for the next client. *)
Lemma file_fgets_law n f a bs k chunk rest hit :
  file_reading n f a bs → 1 < k → fgets_take (Z.to_nat (k - 1)) bs = (chunk, rest, hit) →
  ∃ f', file_fgets k f = Done (if bool_decide (chunk = []) then None else Some chunk, f') ∧
    file_reading n f' a rest ∧ (chunk = [] → eof f' = true ∧ file_ready n f' a) ∧
    reading f' = true ∧ (eof f' = true → eof f = true ∨ hit = true).
Proof.
  intros Hf Hk Htake. unfold file_fgets. rewrite M_bind_modify.
  destruct (fill_law n a bs (Z.to_nat (k - 1)) (S (Z.to_nat (k - 1)))
    (File (fd f) (wbuf f) (rbuf f) (eof f) false true))
    as (f1 & Hfill & (Hw & p & Hat & Hbs & Heof) & He & Hen & Hrd & Hef); [done|done|lia|].
  rewrite (M_bind_Done _ _ _ _ _ Hfill). run. simpl in Hrd.
  set (j := Z.to_nat (k - 1)) in *. assert (Hj : (0 < j)%nat) by lia.
  destruct (fgets_take_nil _ _ _ _ _ Htake Hj) as [_ Hnil]. 
  assert (∃ r', fgets_take j (rbuf f1) = (chunk, r', hit) ∧
    rest = r' ++ drop p (log_bytes a) ∧ (hit = true → eof f1 = true)) as (r' & Ht & -> & Hh).
  { destruct (eof f1) eqn:Heq.
    - rewrite (Heof eq_refl) in *. rewrite app_nil_r in Hbs. subst bs. exists rest.
      by rewrite app_nil_r.
    - rewrite Hbs, (fgets_take_enough _ _ _ Hen) in Htake.
      destruct (fgets_take j (rbuf f1)) as [[c r] h] eqn:E. injection Htake as <- <- <-.
      exists r. split; [done|]. split; [done|]. intros ->.
      destruct (fgets_take_split _ _ _ _ _ E) as (Hsp & _ & Hx).
      destruct (Hx eq_refl) as (-> & Hn & Hlt). rewrite app_nil_r in Hsp. subst c.
      simpl in Hen. unfold enough in Hen. apply orb_true_iff in Hen as [Hen|Hen];
        apply bool_decide_eq_true in Hen; [done|lia]. }
  rewrite Ht. run. rewrite He. simpl. eexists. split.
  { case_bool_decide as Hc; [by rewrite (Hnil Hc)|]. by destruct hit. }
  split; [split; [done|]; by exists p|]. split.
  2:{ split; [done|]. simpl. intros [He1|He1]%Hef; [by left|right].
      unfold enough in He1. apply orb_false_iff in He1 as [Hb1%bool_decide_eq_false Hb2%bool_decide_eq_false].
      rewrite fgets_take_rest in Htake by (done || lia). by injection Htake. }
  intros ->. specialize (Hnil eq_refl). subst hit.
  destruct (fgets_take_split _ _ _ _ _ Ht) as (_ & _ & Hx).
  destruct (Hx eq_refl) as (-> & _). specialize (Hh eq_refl). simpl. split; [done|].
  split; simpl; [done..| |by eapply dev_end_law, Heof]. by rewrite Hh, andb_false_r.
Qed.
End Log.
