(* ===== verification/ServerProtocol.v ===== *)
(** * The conversation with a client (server/server_impl.c, server_protocol)

    [server_protocol] receives a line in chunks of a buffer, appends it to the
    output file, and replies with what the file shows; a line that is a seek
    command positions the file instead.  The model runs in the state monad over
    a connection: the socket's two streams and the output file of
    [OutputFile].  The theorems are proved against [LogDevice]. *)

From S2P Require Import Prelude Stdio OutputFile.

Inductive ret_t := RET_OK | RET_ERR.

Definition BUFFER_SIZE : Z := 256.

(** ** The seek command AESDCHAR_IOCSEEKTO:X,Y *)
Definition seek_prefix : list ascii := String.list_ascii_of_string "AESDCHAR_IOCSEEKTO:".

Definition COMMA : ascii := ",".

(** [strtol] yields a [long] that is stored in an [int] and then in the
    unsigned fields of [struct aesd_seekto]. *)
Definition seek_command (buffer : list ascii) : option (Z * Z) :=
  let prefix_length := length seek_prefix in
  if bool_decide (take prefix_length buffer = seek_prefix)
     && bool_decide (prefix_length < length buffer)%nat
     && bool_decide (COMMA ∈ drop (prefix_length + 1) buffer) then
    match strtol (drop prefix_length buffer) with
    | (x, Some (c :: current_str)) =>
        if bool_decide (c = COMMA) then
          match strtol current_str with
          | (y, Some _) => Some (u32 (s32 x), u32 (s32 y))
          | (_, None) => None
          end
        else None
    | _ => None
    end
  else None.

(** The parsed numbers fit the structure's fields. *)
Lemma seek_command_range buffer x y :
  seek_command buffer = Some (x, y) → 0 ≤ x < 2 ^ 32 ∧ 0 ≤ y < 2 ^ 32.
Proof.
  unfold seek_command. intros Hs. repeat case_match; simplify_eq. auto with cint.
Qed.

Record conn (D : Type) := Conn {
  socket_input : instream;
  socket_output : outstream;
  output_file : FILE D;
}.
Arguments Conn {D} _ _ _.
Arguments socket_input {D} _.
Arguments socket_output {D} _.
Arguments output_file {D} _.

Section Protocol.
Context {D : Type} `{Descriptor D}.

Definition on_file {A} (m : M (FILE D) A) : M (conn D) A := λ c,
  '(a, f) ← m (output_file c); Done (a, Conn (socket_input c) (socket_output c) f).

Definition read_socket (n : Z) : M (conn D) (option (list ascii)) := λ c,
  let '(r, s) := fgets n (socket_input c) in
  Done (r, Conn s (socket_output c) (output_file c)).

Definition write_socket (l : list ascii) : M (conn D) Z := λ c,
  let '(r, s) := fwrite_socket l (socket_output c) in
  Done (r, Conn (socket_input c) s (output_file c)).

(** One round of the receiving loop: [Some (Return r)] returns [r], [Some (Next
    b)] breaks with [is_seek_set_command = b], [None] goes on. *)
Definition receive_body : M (conn D) (option (flow bool ret_t)) :=
  fgets_ret ← read_socket BUFFER_SIZE;
  match fgets_ret with
  | None => mret (Some (Return RET_ERR))
  | Some chunk =>
      let buffer := cstring chunk in
      let length := strlen buffer in
      match seek_command buffer with
      | Some (x, y) =>
          r ← on_file (on_fd (d_ioctl_seekto x y));
          mret (if bool_decide (-1 = r) then Some (Return RET_ERR) else Some (Next true))
      | None =>
          write_ret ← on_file (fwrite buffer);
          if bool_decide (length ≠ write_ret) then mret (Some (Return RET_ERR))
          else
            _ ← on_file fflush;
            last_char ← lift (array_get chunk (length - 1));
            mret (if bool_decide (last_char = NL) then Some (Next false) else None)
      end
  end.

(** One round of the replying loop. *)
Definition reply_body : M (conn D) (option (flow unit ret_t)) :=
  fgets_ret ← on_file (file_fgets BUFFER_SIZE);
  match fgets_ret with
  | None => mret (Some (Next tt))
  | Some chunk =>
      let buffer := cstring chunk in
      write_ret ← write_socket buffer;
      mret (if bool_decide (strlen buffer ≠ write_ret) then Some (Return RET_ERR) else None)
  end.

(** What is told, sent, and tested once the file is positioned. *)
Definition send_file (fuel : nat) : M (conn D) ret_t :=
  _ ← on_file ftell;
  o ← forever fuel reply_body;
  match o with
  | Return r => mret r
  | Next _ =>
      at_eof ← on_file feof;
      mret (if bool_decide (at_eof = true) then RET_OK else RET_ERR)
  end.

Definition position_file (is_seek_set_command : bool) : M (conn D) unit :=
  if is_seek_set_command then _ ← on_file fseek_cur; mret tt else on_file rewind.

Definition server_protocol (fuel : nat) : M (conn D) ret_t :=
  o ← forever fuel receive_body;
  match o with
  | Return r => mret r
  | Next is_seek_set_command => position_file is_seek_set_command;; send_file fuel
  end.

Lemma on_file_Done {A} (m : M (FILE D) A) i o f a f' :
  m f = Done (a, f') → on_file m (Conn i o f) = Done (a, Conn i o f').
Proof. intros Hm. unfold on_file. simpl. by rewrite Hm. Qed.
End Protocol.

(** A line the server stores: no NUL byte, and no buffer of it is a seek
    command. *)
Definition plain (u : list ascii) : Prop :=
  (NUL ∉ u) ∧ ∀ i, seek_command (take 255 (drop (255 * i) u)) = None.

Lemma plain_drop k u : plain u → plain (drop (255 * k) u).
Proof.
  intros [Hn Hs]. split.
  - intros Hin. apply Hn. rewrite <- (take_drop (255 * k) u). apply elem_of_app. by right.
  - intros i. rewrite drop_drop. replace (255 * k + 255 * i)%nat with (255 * (k + i))%nat by lia.
    apply Hs.
Qed.

Lemma plain_take k u : plain u → plain (take (255 * k) u).
Proof.
  intros [Hn Hs]. split.
  - intros Hin. apply Hn. rewrite <- (take_drop (255 * k) u). apply elem_of_app. by left.
  - intros i. destruct (decide (i < k)%nat) as [Hi|Hi].
    + rewrite <- (Hs i). f_equal.
      replace (255 * k)%nat with (255 * i + (255 * k - 255 * i))%nat by lia.
      rewrite <- take_drop_commute, take_take. f_equal. lia.
    + by rewrite drop_ge by (rewrite length_take; lia).
Qed.

Lemma plain_first u : plain u → seek_command (take 255 u) = None.
Proof. intros [_ Hs]. exact (Hs 0%nat). Qed.

(** A line is some full buffers and less than one more. *)
Lemma full_buffers (l : list ascii) :
  ∃ k pre tl, l = pre ++ tl ∧ length pre = (255 * k)%nat ∧ (length tl < 255)%nat ∧
    pre = take (255 * k) l ∧ (k ≤ length l)%nat ∧ k = (length l / 255)%nat.
Proof.
  pose proof (Nat.div_mod_eq (length l) 255). pose proof (Nat.mod_upper_bound (length l) 255).
  exists (length l / 255)%nat, (take (255 * (length l / 255)) l), (drop (255 * (length l / 255)) l).
  rewrite take_drop, length_take, length_drop. split; [done|]. split; [lia|]. split; [lia|].
  split; [done|]. split; [lia|done].
Qed.

Section Serving.
Context {D A : Type} `{LD : LogDevice D A}.

(** A chunk that is not a seek command goes to the log. *)
Lemma receive_chunk n a i o f chunk i' :
  file_ready n f a → fgets BUFFER_SIZE i = (Some chunk, i') → chunk ≠ [] → NUL ∉ chunk →
  seek_command chunk = None → strlen chunk ≤ n → strlen chunk ≤ BUFSIZ →
  ∃ f', receive_body (Conn i o f)
        = Done (if bool_decide (last chunk = Some NL) then Some (Next false) else None,
                Conn i' o f') ∧
    file_ready (n - strlen chunk) f' (log_put a chunk).
Proof.
  intros Hf Hg Hne Hnul Hseek Hn Hb.
  destruct (put_law n f a chunk Hf Hb Hn) as (f1 & f2 & Hw & Hfl & Hf2).
  exists f2. split; [|done]. unfold receive_body.
  erewrite M_bind_Done by (unfold read_socket; simpl; rewrite Hg; done). cbn beta iota zeta.
  rewrite (cstring_id _ Hnul), Hseek.
  rewrite (M_bind_Done _ _ _ _ _ (on_file_Done _ _ _ _ _ _ Hw)).
  rewrite bool_decide_false by (by intros []).
  rewrite (M_bind_Done _ _ _ _ _ (on_file_Done _ _ _ _ _ _ Hfl)).
  destruct (last chunk) as [c|] eqn:Hlast; [|by apply last_None in Hlast].
  erewrite M_bind_lift.
  2:{ apply array_get_Some; [unfold strlen; destruct chunk; simpl; [done|lia]|].
      rewrite last_lookup in Hlast. rewrite <- Hlast. f_equal. unfold strlen. lia. }
  apply (f_equal (λ b, Done (b, _))). apply if_bool_decide_ext. split; congruence.
Qed.

(** The buffers that the loop takes off the front of a long line. *)
Lemma receive_long k n a i o f pre t e fuel :
  file_ready n f a → i = InStream (pre ++ t) e → length pre = (255 * k)%nat →
  NL ∉ pre → plain pre → strlen pre ≤ n →
  ∃ f', forever (k + fuel) receive_body (Conn i o f)
        = forever fuel receive_body (Conn (InStream t e) o f') ∧
    file_ready (n - strlen pre) f' (log_put a pre).
Proof.
  revert n a i f pre. induction k as [|k IH]; intros n a i f pre Hf -> Hlen Hnl Hpl Hn.
  { destruct pre; [|simpl in Hlen; lia]. exists f. split; [done|].
    change (strlen []) with 0. by rewrite Z.sub_0_r, log_put_nil. }
  assert (Hsplit : pre = take 255 pre ++ drop 255 pre) by by rewrite take_drop.
  assert (Hl1 : length (take 255 pre) = 255%nat) by (rewrite length_take; lia).
  assert (Hs : strlen pre = 255 + strlen (drop 255 pre)).
  { unfold strlen. rewrite length_drop. lia. }
  assert (strlen (take 255 pre) = 255) as Hs1 by (unfold strlen; lia).
  assert (Hnot : ∀ x, x ∉ pre → (x ∉ take 255 pre) ∧ x ∉ drop 255 pre).
  { intros x Hx. rewrite Hsplit in Hx. by apply not_elem_of_app in Hx. }
  destruct (receive_chunk n a (InStream (pre ++ t) e) o f (take 255 pre)
    (InStream (drop 255 pre ++ t) e)) as (f1 & Hb & Hf1).
  - done.
  - unfold fgets. simpl unread. change (Z.to_nat (BUFFER_SIZE - 1)) with 255%nat.
    by rewrite fgets_take_long by (done || lia).
  - intros He. by rewrite He in Hl1.
  - by apply Hnot, Hpl.
  - by apply plain_first.
  - unfold strlen in *. lia.
  - rewrite Hs1. done.
  - rewrite bool_decide_false in Hb.
    2:{ intros Hlast%last_Some_elem_of. by destruct (Hnot NL Hnl). }
    destruct (IH (n - strlen (take 255 pre)) (log_put a (take 255 pre))
      (InStream (drop 255 pre ++ t) e) f1 (drop 255 pre)) as (f' & Hgo & Hf').
    + done.
    + done.
    + rewrite length_drop. lia.
    + by apply Hnot.
    + by apply (plain_drop 1).
    + unfold strlen in *. lia.
    + exists f'. split; [by rewrite Nat.add_succ_l, (forever_next _ _ _ _ Hb)|].
      rewrite log_put_app, take_drop in Hf'.
      2:{ intros Hlast%last_Some_elem_of. by destruct (Hnot NL Hnl). }
      by replace (n - strlen pre) with (n - strlen (take 255 pre) - strlen (drop 255 pre)) by lia.
Qed.

(** The whole line: its long buffers and the last one, with its newline. *)
Lemma receive_line n a o f line rest e fuel :
  file_ready n f a → NL ∉ line → plain (line ++ [NL]) → strlen (line ++ [NL]) ≤ n →
  (length line < fuel)%nat →
  ∃ f', forever fuel receive_body (Conn (InStream (line ++ NL :: rest) e) o f)
        = Done (Next false, Conn (InStream rest e) o f') ∧
    file_ready (n - strlen (line ++ [NL])) f' (log_put a (line ++ [NL])).
Proof.
  intros Hf Hnl Hpl Hn Hfuel. destruct (full_buffers line) as (k & pre & tl & Hl & Hk & Htl & Hpre & Hle & _).
  assert (Hprefix : pre = take (255 * k) (line ++ [NL])).
  { rewrite Hpre. rewrite take_app_le; [done|]. rewrite Hl, length_app. lia. }
  assert (Htail : drop (255 * k) (line ++ [NL]) = tl ++ [NL]).
  { rewrite Hl, <- app_assoc, <- Hk. by rewrite drop_app_length. }
  assert (Hpl2 : plain (tl ++ [NL])) by (rewrite <- Htail; by apply plain_drop).
  assert ((NL ∉ pre) ∧ NL ∉ tl) as [Hnl1 Hnl2] by (apply not_elem_of_app; by rewrite <- Hl).
  assert (Hlen : strlen (line ++ [NL]) = strlen pre + strlen (tl ++ [NL])).
  { unfold strlen. rewrite Hl, !length_app. simpl. lia. }
  assert (strlen (tl ++ [NL]) ≤ 255) by (unfold strlen; rewrite length_app; simpl; lia).
  destruct (receive_long k n a (InStream (line ++ NL :: rest) e) o f pre (tl ++ NL :: rest) e
    (S (fuel - S k))) as (f1 & Hgo & Hf1).
  - done.
  - by rewrite Hl, <- app_assoc.
  - done.
  - done.
  - rewrite Hprefix. by apply plain_take.
  - unfold strlen in *. lia.
  - destruct (receive_chunk (n - strlen pre) (log_put a pre) (InStream (tl ++ NL :: rest) e) o f1
      (tl ++ [NL]) (InStream rest e)) as (f2 & Hb & Hf2).
    + done.
    + unfold fgets. simpl unread. change (Z.to_nat (BUFFER_SIZE - 1)) with 255%nat.
      by rewrite fgets_take_line by done.
    + by destruct tl.
    + apply Hpl2.
    + apply plain_first in Hpl2. rewrite take_ge in Hpl2; [done|]. rewrite length_app. simpl. lia.
    + lia.
    + unfold BUFSIZ. lia.
    + rewrite last_snoc, bool_decide_true in Hb by done. exists f2. split.
      * replace fuel with (k + S (fuel - S k))%nat by lia. rewrite Hgo. by apply forever_exit.
      * rewrite log_put_app in Hf2 by (intros Hlast%last_Some_elem_of; done).
        rewrite app_assoc, <- Hl in Hf2. by rewrite Hlen, Z.sub_add_distr.
Qed.


(** The replying loop sends what is still to come, as far as the socket takes
    it. *)
Lemma reply_loop n a i o f bs fuel w o' :
  file_reading n f a bs → NUL ∉ bs → (length bs < fuel)%nat → fwrite_socket bs o = (w, o') →
  ∃ f', forever fuel reply_body (Conn i o f)
        = Done (if bool_decide (w = strlen bs) then Next tt else Return RET_ERR, Conn i o' f') ∧
    (w = strlen bs → eof f' = true ∧ file_ready n f' a) ∧
    (w ≠ strlen bs → last bs = Some NL → eof f = false → reading f' = true ∧ eof f' = false).
Proof.
  revert a f o bs w. induction fuel as [|fuel IH]; intros a f o bs w Hf Hnul Hfuel Hw; [lia|].
  destruct (fgets_take (Z.to_nat (BUFFER_SIZE - 1)) bs) as [[chunk rest] hit] eqn:Htake.
  destruct (file_fgets_law n f a bs BUFFER_SIZE chunk rest hit) as
    (f1 & Hg & Hf1 & Hend & Hrd & Heof); [done|done|done|].
  destruct (fgets_take_split _ _ _ _ _ Htake) as (-> & _ & Hhit).
  destruct (fgets_take_nil _ _ _ _ _ Htake) as [Hnil _]; [by vm_compute; lia|].
  apply (on_file_Done _ i o) in Hg. case_bool_decide as Hc.
  { subst chunk. destruct (Hend eq_refl) as [He1 Hr1]. destruct Hnil as [Hnil _].
    rewrite (Hnil eq_refl) in *. exists f1.
    rewrite fwrite_socket_nil in Hw. injection Hw as <- <-.
    split; [|by split]. apply forever_exit. unfold reply_body.
    by rewrite (M_bind_Done _ _ _ _ _ Hg). }
  apply not_elem_of_app in Hnul as [Hn1 Hn2].
  destruct (fwrite_socket_app _ _ _ _ _ Hw) as (w1 & o1 & Hw1 & Hcase).
  assert (Hbody : reply_body (Conn i o f)
    = Done (if bool_decide (strlen chunk ≠ w1) then Some (Return RET_ERR) else None,
            Conn i o1 f1)).
  { unfold reply_body. rewrite (M_bind_Done _ _ _ _ _ Hg). cbn beta iota zeta.
    rewrite (cstring_id _ Hn1). erewrite M_bind_Done; [done|].
    unfold write_socket. simpl. by rewrite Hw1. }
  assert (Hnl : last (chunk ++ rest) = Some NL → hit = false).
  { intros Hl. destruct hit; [|done]. destruct (Hhit eq_refl) as (-> & Hn & _).
    rewrite app_nil_r in Hl. by apply last_Some_elem_of in Hl. }
  destruct Hcase as [[-> Hw2]|(Hne & Hne2 & ->)].
  - rewrite bool_decide_false in Hbody by (by intros []).
    destruct (IH a f1 o1 rest (w - strlen chunk)) as (f' & Hgo & Hok & Hbad); [done|done| |done|].
    { rewrite length_app in Hfuel. destruct chunk; [done|]. simpl in Hfuel. lia. }
    assert (strlen (chunk ++ rest) = strlen chunk + strlen rest) as Hlen
      by (unfold strlen; rewrite length_app; lia).
    exists f'. split; [|split].
    + rewrite (forever_next _ _ _ _ Hbody), Hgo. apply (f_equal (λ b, Done (b, _))).
      apply if_bool_decide_ext. lia.
    + intros ?. apply Hok. lia.
    + intros Hne Hl He. assert (rest ≠ []) by (intros ->; rewrite fwrite_socket_nil in Hw2;
        assert (w - strlen chunk = 0) by congruence; change (strlen []) with 0 in Hlen; lia).
      apply Hbad; [lia| |].
      * rewrite <- Hl, last_app. destruct (last rest) eqn:El; [done|]. by apply last_None in El.
      * destruct (eof f1); [|done]. destruct (Heof eq_refl) as [?|Hh]; [congruence|].
        by rewrite (Hnl Hl) in Hh.
  - rewrite bool_decide_true in Hbody by congruence. exists f1.
    rewrite bool_decide_false by done. split; [by apply forever_exit|]. split; [done|].
    intros _ Hl He. split; [done|]. destruct (eof f1); [|done].
    destruct (Heof eq_refl) as [?|Hh]; [congruence|]. by rewrite (Hnl Hl) in Hh.
Qed.
End Serving.
