(* ===== verification/CommandLine.v ===== *)
(** * The command line of the server (server/server.c)

    From [argv] to the decision to serve: [getopt_long] on the tables of the
    program, the loop over what it returns, and the first part of [main]. *)

From S2P Require Import Prelude Stdio.

(** ** The tables *)

(** [struct option] of an option that takes no argument and has no flag. *)
Record option_entry := OptionEntry {
  name : list ascii;
  val : ascii;
}.

Definition short_options : list ascii := text "hd".

Definition long_options : list option_entry :=
  [OptionEntry (text "help") "h"; OptionEntry (text "demonize") "d"].

(** ** getopt_long

    As the GNU C library documents it, for options without arguments: each
    element that starts with a dash is an option or several, the others are
    passed over (with [posixly_correct], POSIXLY_CORRECT in the environment, the
    first of them ends the options), and so does the element "--".  ["?"] stands
    for an option that is unknown, ambiguous, or given an argument. *)
Definition DASH : ascii := "-".
Definition EQUALS : ascii := "=".
Definition UNKNOWN : ascii := "?".

Definition short_option (shorts : list ascii) (c : ascii) : ascii :=
  if bool_decide (c ∈ shorts) then c else UNKNOWN.

(** What comes before the first [=], and whether there is one. *)
Fixpoint option_name (s : list ascii) : list ascii * bool :=
  match s with
  | [] => ([], false)
  | c :: s' =>
      if bool_decide (c = EQUALS) then ([], true)
      else let '(n, eq) := option_name s' in (c :: n, eq)
  end.

(** The entry with that name, or the only one whose name begins so. *)
Definition find_option (longs : list option_entry) (n : list ascii) : option option_entry :=
  match filter (λ e, name e = n) longs with
  | e :: _ => Some e
  | [] =>
      match filter (λ e, n `prefix_of` name e) longs with
      | [e] => Some e
      | _ => None
      end
  end.

Definition long_option (longs : list option_entry) (s : list ascii) : ascii :=
  let '(n, eq) := option_name s in
  match find_option longs n with
  | Some e => if eq then UNKNOWN else val e
  | None => UNKNOWN
  end.

(** What one element of [argv] gives: [None] ends the options. *)
Inductive element :=
| Ends
| Operand
| Options (cs : list ascii).

Definition element_of (shorts : list ascii) (longs : list option_entry) (a : list ascii) : element :=
  match a with
  | c1 :: c2 :: s =>
      if bool_decide (c1 = DASH) then
        if bool_decide (c2 = DASH) then
          if bool_decide (s = []) then Ends else Options [long_option longs s]
        else Options (short_option shorts <$> c2 :: s)
      else Operand
  | _ => Operand
  end.

(** What the calls return, one after another, up to the -1. *)
Fixpoint getopt_long (posixly_correct : bool) (shorts : list ascii) (longs : list option_entry)
    (args : list (list ascii)) : list ascii :=
  match args with
  | [] => []
  | a :: args' =>
      match element_of shorts longs a with
      | Ends => []
      | Operand => if posixly_correct then [] else getopt_long posixly_correct shorts longs args'
      | Options cs => cs ++ getopt_long posixly_correct shorts longs args'
      end
  end.

(** ** parse_cmd_line_args *)

(** The loop over the values that [getopt_long] returns.  The result is the return
    value and [args->demonize]. *)
Fixpoint parse_options (opts : list ascii) (demonize : bool) : Z * bool :=
  match opts with
  | [] => (0, demonize)
  | c :: opts' =>
      if bool_decide (c = "h"%char) then (-1, demonize)
      else if bool_decide (c = "d"%char) then parse_options opts' true
      else (1, demonize)
  end.

Definition parse_cmd_line_args (posixly_correct : bool) (argv : list (list ascii)) (demonize : bool)
    : Z * bool :=
  parse_options (getopt_long posixly_correct short_options long_options (tail argv)) demonize.

(** ** print_cmd_line_info *)

(** [%-16s]: a string with blanks up to 16 characters. *)
Definition pad16 (s : list ascii) : list ascii := s ++ replicate (16 - length s) " "%char.

(** The lines of the usage. *)
Definition print_cmd_line_info (argv : list (list ascii)) : list (list ascii) :=
  [text "usage: " ++ default [] (head argv) ++ text " [OPTIONS]";
   [];
   text "OPTIONS";
   pad16 (text "--help|-h") ++ text ": print help";
   pad16 (text "--demonize|-d") ++ text ": run in background as a demon process"].

(** ** The first part of main *)

(** The exit status, or [None] when the process goes on to serve, and what it has
    printed; [pid] is what [fork] returns to it. *)
Definition main_start (posixly_correct : bool) (argv : list (list ascii)) (pid : Z)
    : option Z * list (list ascii) :=
  let '(ret, demonize) := parse_cmd_line_args posixly_correct argv false in
  if bool_decide (ret = -1) then (Some 0, print_cmd_line_info argv)
  else if bool_decide (ret ≠ 0) then (Some 1, print_cmd_line_info argv)
  else if demonize then (if bool_decide (pid ≠ 0) then Some 0 else None, [])
  else (None, []).

(** ** What it decides *)

Lemma parse_valid opts b :
  Forall (λ c, c = "d"%char) opts →
  parse_options opts b = (0, b || negb (bool_decide (opts = []))).
Proof.
  intros Hall. revert b. induction Hall as [|c opts -> _ IH]; intros b; simpl.
  - by rewrite orb_false_r.
  - rewrite IH. f_equal. by rewrite orb_true_r.
Qed.

(** The first other option decides. *)
Lemma parse_stops ds c opts b :
  Forall (λ c, c = "d"%char) ds → c ≠ "d"%char →
  (parse_options (ds ++ c :: opts) b).1 = if bool_decide (c = "h"%char) then -1 else 1.
Proof.
  intros Hall Hc. revert b. induction Hall as [|d ds -> _ IH]; intros b; simpl.
  - rewrite (bool_decide_false (c = "d"%char)) by done. by case_bool_decide.
  - apply IH.
Qed.

Lemma first_other opts :
  Forall (λ c, c = "d"%char) opts ∨
  ∃ ds c rest, opts = ds ++ c :: rest ∧ Forall (λ c, c = "d"%char) ds ∧ c ≠ "d"%char.
Proof.
  induction opts as [|c opts [IH|(ds & c' & rest & -> & Hd & Hc)]]; [by left| |].
  - destruct (decide (c = "d"%char)) as [->|Hc]; [left; by constructor|right]. by exists [], c, opts.
  - destruct (decide (c = "d"%char)) as [->|Hc']; right.
    + exists ("d"%char :: ds), c', rest. split; [done|]. by split; [constructor|].
    + by exists [], c, (ds ++ c' :: rest).
Qed.

(** The elements that are options. *)
Fixpoint option_elements (posixly_correct : bool) (args : list (list ascii)) : list (list ascii) :=
  match args with
  | [] => []
  | a :: args' =>
      match element_of short_options long_options a with
      | Ends => []
      | Operand => if posixly_correct then [] else option_elements posixly_correct args'
      | Options _ => a :: option_elements posixly_correct args'
      end
  end.

(** An element that asks for a demon and nothing else: -d, as often as one likes,
    or --demonize, which may be abbreviated. *)
Definition asks_to_demonize (a : list ascii) : Prop :=
  (∃ n, a = DASH :: replicate (S n) "d"%char) ∨
  ∃ s, a = DASH :: DASH :: s ∧ s ≠ [] ∧ s `prefix_of` text "demonize".

Lemma option_name_spec s n : option_name s = (n, false) ↔ s = n ∧ EQUALS ∉ s.
Proof.
  revert n. induction s as [|c s IH]; intros n; simpl.
  - split; [intros [= <-]; split; [done|apply not_elem_of_nil]|]. by intros [<- _].
  - case_bool_decide as Hc.
    + split; [done|]. intros [_ Hn]. destruct Hn. subst c. by left.
    + destruct (option_name s) as [m eq] eqn:E. rewrite not_elem_of_cons. split.
      * intros [= <- ->]. destruct (IH m) as [[-> ?] _]; [done|]. naive_solver.
      * intros (<- & _ & Hn). pose proof (proj2 (IH s) (conj eq_refl Hn)). congruence.
Qed.

(** No name begins like both of the options. *)
Lemma find_demonize n e :
  find_option long_options n = Some e → val e = "d"%char → n ≠ [] ∧ n `prefix_of` text "demonize".
Proof.
  unfold find_option, long_options. rewrite !filter_cons, !filter_nil.
  repeat case_decide; simplify_eq/=; intros; simplify_eq/=; try done.
  match goal with Hh : ¬ n `prefix_of` _ |- _ => split; [|done]; intros ->; by destruct (Hh (prefix_nil _)) end.
Qed.

Lemma demonize_found n :
  n ≠ [] → n `prefix_of` text "demonize" → ∃ e, find_option long_options n = Some e ∧ val e = "d"%char.
Proof.
  intros Hn Hp. assert (¬ n `prefix_of` text "help") as Hh.
  { destruct n as [|c n]; [done|]. intros [t Ht]. destruct Hp as [t' Ht']. unfold text in *. simpl in *. congruence. }
  unfold find_option, long_options. rewrite !filter_cons, !filter_nil.
  repeat case_decide; simplify_eq/=; try (by eexists); try done.
Qed.

Lemma demonize_plain s : s `prefix_of` text "demonize" → EQUALS ∉ s.
Proof.
  intros [t Ht] Hin.
  assert (EQUALS ∉ text "demonize") as H by (apply (bool_decide_eq_false_1 _); by vm_compute).
  apply H. rewrite Ht. apply elem_of_app. by left.
Qed.

Lemma long_demonize s :
  long_option long_options s = "d"%char ↔ s ≠ [] ∧ s `prefix_of` text "demonize".
Proof.
  unfold long_option. destruct (option_name s) as [n eq] eqn:E. split.
  - destruct (find_option long_options n) as [e|] eqn:Hf; [|done]. destruct eq; [done|].
    intros Hv. apply option_name_spec in E as [-> _]. by eapply find_demonize.
  - intros [Hn Hp]. pose proof (proj2 (option_name_spec s s) (conj eq_refl (demonize_plain s Hp))) as E'.
    rewrite E' in E. injection E as <- <-. by destruct (demonize_found s Hn Hp) as (e & -> & ->).
Qed.

Lemma short_demonize c : short_option short_options c = "d"%char ↔ c = "d"%char.
Proof.
  unfold short_option, short_options. case_bool_decide as Hc; [done|]. split; [done|].
  intros ->. destruct Hc. right. by left.
Qed.

(** What an element of [argv] gives, when it gives something. *)
Lemma element_demonize a cs :
  element_of short_options long_options a = Options cs →
  cs ≠ [] ∧ (Forall (λ c, c = "d"%char) cs ↔ asks_to_demonize a).
Proof.
  unfold element_of. destruct a as [|c1 [|c2 s]]; try done.
  case_bool_decide as H1; [subst c1|done]. case_bool_decide as H2; [subst c2|].
  - case_bool_decide as Hs; [done|]. intros [= <-]. split; [done|].
    rewrite Forall_singleton, long_demonize. split.
    + intros [_ Hp]. right. by exists s.
    + intros [[n [=]]|(s' & [= <-] & ? & ?)]. done.
  - intros E. assert (cs = short_option short_options <$> c2 :: s) as -> by congruence.
    split; [done|]. rewrite Forall_fmap. split.
    + intros Hd. left. exists (length s). f_equal.
      symmetry. apply (replicate_as_Forall_2 "d"%char (S (length s)) (c2 :: s)); [done|].
      eapply Forall_impl; [exact Hd|]. intros c Hc. symmetry. by apply short_demonize.
    + intros [[n [= -> ->]]|(s' & [= ? _] & _)]; [|done].
      apply (Forall_replicate _ (S n) "d"%char). by apply short_demonize.
Qed.

Lemma getopt_demonize posix args :
  let opts := getopt_long posix short_options long_options args in
  (opts = [] ↔ option_elements posix args = []) ∧
  (Forall (λ c, c = "d"%char) opts ↔ Forall asks_to_demonize (option_elements posix args)).
Proof.
  induction args as [|a args [IH1 IH2]]; simpl; [by split; [|split; constructor]|].
  destruct (element_of short_options long_options a) as [| |cs] eqn:Ha.
  - by split; [|split; constructor].
  - destruct posix; [by split; [|split; constructor]|done].
  - apply element_demonize in Ha as [Hcs Hd]. split.
    + by split; [intros [? _]%app_nil|].
    + rewrite Forall_app, Forall_cons. by rewrite Hd, IH2.
Qed.

(** The server is started in this process exactly if all options ask for a demon
    and there are none or this is the child; with one that asks for something
    else the usage is printed and nothing is started. *)
Theorem main_start_correct posix argv pid :
  let asked := option_elements posix (tail argv) in
  ((main_start posix argv pid).1 = None ↔
     Forall asks_to_demonize asked ∧ (asked = [] ∨ pid = 0)) ∧
  ((main_start posix argv pid).2 = [] ↔ Forall asks_to_demonize asked) ∧
  (Forall asks_to_demonize asked → asked ≠ [] → pid ≠ 0 → (main_start posix argv pid).1 = Some 0).
Proof.
  intros asked. destruct (getopt_demonize posix (tail argv)) as [Hnil Hd]. fold asked in Hnil, Hd.
  rewrite <- Hd, <- Hnil. clear Hnil Hd asked. unfold main_start, parse_cmd_line_args.
  set (opts := getopt_long _ _ _ _).
  destruct (first_other opts) as [Ho|(ds & c & rest & Ho & Hds & Hc)].
  - rewrite parse_valid by done. simpl.
    destruct opts as [|c opts'] eqn:E; simpl; [naive_solver|]. case_bool_decide; naive_solver.
  - pose proof (parse_stops ds c rest false Hds Hc) as Hp. rewrite <- Ho in Hp.
    destruct (parse_options opts false) as [ret b]. simpl in Hp.
    assert (¬ Forall (λ c, c = "d"%char) opts) as Hn.
    { rewrite Ho. intros Hf. apply Forall_app in Hf as [_ Hf]. by apply Forall_inv in Hf. }
    assert (ret = -1 ∨ ret = 1) as [-> | ->] by (case_bool_decide; auto); simpl; naive_solver.
Qed.

Example main_start_runs :
  main_start false [text "server"; text "file"; text "-dd"; text "--dem"] 0 = (None, []) ∧
  main_start true [text "server"; text "file"; text "-x"] 7 = (None, []) ∧
  (main_start false [text "server"; text "-d"; text "--he"] 7).1 = Some 0 ∧
  (main_start false [text "server"; text "--demonize=1"; text "-h"] 7).1 = Some 1.
Proof. by vm_compute. Qed.
