(* ===== verification/Timestamp.v ===== *)
(** * The clock's line (server/server_impl.c, clock_thread)

    What [strftime] makes of "timestamp:%a, %d %b %Y %T %z\n" in the "C" locale,
    the program's: a line that fits the buffer whatever the year and that the
    server stores like a client's. *)

From S2P Require Import Prelude Stdio OutputFile ServerProtocol.

(** [struct tm], as far as the format looks at it. *)
Record tm := Tm {
  tm_sec : Z;
  tm_min : Z;
  tm_hour : Z;
  tm_mday : Z;
  tm_mon : Z;
  tm_year : Z;
  tm_wday : Z;
  tm_gmtoff : Z;
}.

(** What [localtime] returns; the year is an [int], the offset in seconds below
    100 hours. *)
Record tm_ok (t : tm) : Prop := TmOk {
  sec_ok : 0 ≤ tm_sec t ≤ 60;
  min_ok : 0 ≤ tm_min t ≤ 59;
  hour_ok : 0 ≤ tm_hour t ≤ 23;
  mday_ok : 1 ≤ tm_mday t ≤ 31;
  mon_ok : 0 ≤ tm_mon t ≤ 11;
  year_ok : - 2 ^ 31 ≤ tm_year t < 2 ^ 31;
  wday_ok : 0 ≤ tm_wday t ≤ 6;
  gmtoff_ok : Z.abs (tm_gmtoff t) < 360000;
}.

Definition days : list string := ["Sun"; "Mon"; "Tue"; "Wed"; "Thu"; "Fri"; "Sat"]%string.
Definition months : list string :=
  ["Jan"; "Feb"; "Mar"; "Apr"; "May"; "Jun"; "Jul"; "Aug"; "Sep"; "Oct"; "Nov"; "Dec"]%string.

Definition name_of (names : list string) (i : Z) : list ascii :=
  text (default "?"%string (names !! Z.to_nat i)).

(** Decimal digits, at most [k] of them. *)
Definition digit (n : Z) : ascii := ascii_of_N (Z.to_N (48 + n mod 10)).

Fixpoint decimal (k : nat) (n : Z) : list ascii :=
  match k with
  | O => []
  | S k' => (if bool_decide (n < 10) then [] else decimal k' (n / 10)) ++ [digit n]
  end.

Definition two (n : Z) : list ascii := [digit (n / 10); digit n].

Definition year (y : Z) : list ascii :=
  if bool_decide (y < 0) then "-"%char :: decimal 10 (- y) else decimal 10 y.

(** [%z]: hours and minutes east of Greenwich. *)
Definition zone (off : Z) : list ascii :=
  let m := Z.abs off / 60 in
  (if bool_decide (off < 0) then "-"%char else "+"%char) :: two (m / 60) ++ two (m mod 60).

Definition clock_line (t : tm) : list ascii :=
  text "timestamp:" ++ name_of days (tm_wday t) ++ text ", " ++ two (tm_mday t) ++ text " " ++
  name_of months (tm_mon t) ++ text " " ++ year (1900 + tm_year t) ++ text " " ++
  two (tm_hour t) ++ text ":" ++ two (tm_min t) ++ text ":" ++ two (tm_sec t) ++ text " " ++
  zone (tm_gmtoff t).

Definition timestamp (t : tm) : list ascii := clock_line t ++ [NL].

(** What the clock thread does with it once it holds the mutex. *)
Definition tick_run {D} `{Descriptor D} (time : tm) : M (FILE D) ret_t :=
  let buffer := timestamp time in
  let length := strlen (cstring buffer) in
  write_ret ← fwrite (cstring buffer);
  if bool_decide (length ≠ write_ret) then mret RET_ERR
  else _ ← fflush; mret RET_OK.

(** ** Its characters *)

(** A character that is no control character. *)
Definition printing (c : ascii) : bool := bool_decide (32 ≤ Z.of_N (N_of_ascii c)).

Lemma digit_printing n : printing (digit n) = true.
Proof.
  unfold printing, digit. pose proof (Z.mod_pos_bound n 10 ltac:(lia)).
  apply bool_decide_eq_true. rewrite N_ascii_embedding; lia.
Qed.

Lemma decimal_printing k n : Forall printing (decimal k n).
Proof.
  revert n. induction k as [|k IH]; intros n; simpl; [constructor|]. apply Forall_app. split.
  - case_bool_decide; [constructor|apply IH].
  - constructor; [by rewrite digit_printing|constructor].
Qed.

Lemma decimal_length k n : (length (decimal k n) ≤ k)%nat.
Proof.
  revert n. induction k as [|k IH]; intros n; simpl; [done|]. rewrite length_app.
  case_bool_decide; simpl; [lia|]. specialize (IH (n / 10)). lia.
Qed.

Lemma digit_value n : digit_of (digit n) = Some (n mod 10).
Proof.
  pose proof (Z.mod_pos_bound n 10 ltac:(lia)). unfold digit_of, digit.
  rewrite N_ascii_embedding by lia. rewrite bool_decide_true by lia. f_equal. lia.
Qed.

Lemma decimal_value k n acc l :
  0 ≤ n < 10 ^ Z.of_nat k →
  ∃ e, digits_from acc (decimal k n ++ l) = digits_from (acc * e + n) l ∧ e ≠ 0.
Proof.
  revert n acc l. induction k as [|k IH]; intros n acc l Hn.
  { exists 1. split; [|done]. change (10 ^ Z.of_nat 0) with 1 in Hn. simpl. f_equal. lia. }
  assert (n = 10 * (n / 10) + n mod 10) as Hdiv by (apply Z.div_mod; lia).
  cbn [decimal]. rewrite <- app_assoc. case_bool_decide as Hs.
  - exists 10. split; [|done]. simpl. rewrite digit_value. f_equal. rewrite Z.mod_small; lia.
  - rewrite Nat2Z.inj_succ, Z.pow_succ_r in Hn by lia.
    destruct (IH (n / 10) acc ([digit n] ++ l)) as (e & He & Hne).
    { pose proof (Z.mod_pos_bound n 10 ltac:(lia)). lia. }
    exists (10 * e). split; [|lia]. rewrite He. simpl. rewrite digit_value. f_equal. lia.
Qed.

Lemma decimal_head k n : ∃ d l, decimal (S k) n = d :: l ∧ ∃ v, digit_of d = Some v.
Proof.
  revert n. induction k as [|k IH]; intros n; cbn [decimal]; case_bool_decide; simpl.
  1-3: eexists _, _; split; [done|]; rewrite digit_value; by eexists.
  destruct (IH (n / 10)) as (d & l & E & Hd). cbn [decimal] in E. rewrite E. simpl. by eexists _, _.
Qed.

(** [strtol] reads the year back. *)
Lemma year_value y l :
  Z.abs y < 10 ^ 10 → ends_number l → strtol (year y ++ l) = (y, Some l).
Proof.
  intros Hy Hl.
  assert (Hend : ∀ v, digits_from v l = (v, l)).
  { intros v. destruct l as [|c l]; [done|]. simpl in *. by rewrite Hl. }
  assert (Hpos : ∀ n, 0 ≤ n < 10 ^ 10 →
    digits_from 0 (decimal 10 n ++ l) = (n, l)).
  { intros n Hn. destruct (decimal_value 10 n 0 l Hn) as (e & -> & _). apply Hend. }
  unfold year, strtol. case_bool_decide as Hneg.
  - change (skip_spaces (("-"%char :: decimal 10 (- y)) ++ l)) with ("-"%char :: decimal 10 (- y) ++ l).
    cbn beta iota zeta. rewrite bool_decide_true by done. cbn beta iota zeta.
    rewrite Hpos by lia. destruct (decimal_head 9 (- y)) as (d & l' & -> & v & Hv). simpl.
    rewrite Hv. unfold LONG_MAX. f_equal. lia.
  - destruct (decimal_head 9 y) as (d & l' & E & v & Hv).
    destruct (digit_not_space d v Hv) as (Hsp & Hm & Hp).
    assert (skip_spaces (decimal 10 y ++ l) = decimal 10 y ++ l) as -> by (rewrite E; simpl; by rewrite Hsp).
    cbn beta iota zeta. rewrite E at 1. cbn [app]. rewrite !bool_decide_false by done.
    cbn beta iota. rewrite Hpos by lia. rewrite E. cbn [app]. rewrite Hv.
    unfold LONG_MAX. f_equal. lia.
Qed.

Lemma two_printing n : Forall printing (two n).
Proof. repeat (constructor; [by rewrite digit_printing|]). constructor. Qed.

Lemma year_printing y : Forall printing (year y).
Proof. unfold year. case_bool_decide; [constructor; [done|]|]; apply decimal_printing. Qed.

Lemma year_length y : (length (year y) ≤ 11)%nat.
Proof.
  unfold year. case_bool_decide; cbn [length];
    [pose proof (decimal_length 10 (- y))|pose proof (decimal_length 10 y)]; lia.
Qed.

Lemma zone_printing off : Forall printing (zone off).
Proof.
  unfold zone. constructor; [by case_bool_decide|]. apply Forall_app. split; apply two_printing.
Qed.

Definition short_name (s : string) : Prop := Forall printing (text s) ∧ (length (text s) ≤ 3)%nat.

Lemma name_short names i : Forall short_name names → short_name (default "?"%string (names !! Z.to_nat i)).
Proof.
  intros Hn. destruct (names !! Z.to_nat i) as [s|] eqn:E; simpl; [by eapply Forall_lookup in E|].
  split; [by repeat constructor|simpl; lia].
Qed.

Lemma days_short : Forall short_name days.
Proof. repeat constructor. Qed.

Lemma months_short : Forall short_name months.
Proof. repeat constructor. Qed.

Lemma text_printing s : forallb printing (text s) = true → Forall printing (text s).
Proof. intros Hs. apply Forall_forall. intros c Hc. rewrite forallb_forall in Hs.
  by rewrite Hs by by apply list_elem_of_In. Qed.

Create HintDb printing.
#[local] Hint Resolve two_printing year_printing zone_printing : printing.
#[local] Hint Extern 1 (Forall _ (text _)) => by apply text_printing : printing.

Lemma clock_line_printing t : Forall printing (clock_line t).
Proof.
  unfold clock_line. pose proof (name_short _ (tm_wday t) days_short) as [Hd _].
  pose proof (name_short _ (tm_mon t) months_short) as [Hm _].
  rewrite !Forall_app. unfold name_of. split_and!; auto with printing.
Qed.

Lemma clock_line_length t : (length (clock_line t) ≤ 54)%nat.
Proof.
  unfold clock_line. pose proof (name_short _ (tm_wday t) days_short) as [_ Hd].
  pose proof (name_short _ (tm_mon t) months_short) as [_ Hm].
  pose proof (year_length (1900 + tm_year t)) as Hy. unfold name_of.
  revert Hd Hm Hy. generalize (year (1900 + tm_year t)) as y.
  generalize (default "?"%string (days !! Z.to_nat (tm_wday t))) as d.
  generalize (default "?"%string (months !! Z.to_nat (tm_mon t))) as m.
  intros m d y ???. rewrite !length_app. simpl. lia.
Qed.

Lemma not_printing c l : Forall printing l → printing c = false → c ∉ l.
Proof.
  intros Hl Hc Hin. rewrite Forall_forall in Hl. specialize (Hl c Hin). by rewrite Hc in Hl.
Qed.

Lemma timestamp_no_NUL t : NUL ∉ timestamp t.
Proof.
  unfold timestamp. intros [Hin|Hin%list_elem_of_singleton]%elem_of_app; [|done].
  revert Hin. by apply not_printing; [apply clock_line_printing|].
Qed.

Lemma clock_line_no_NL t : NL ∉ clock_line t.
Proof. by apply not_printing; [apply clock_line_printing|]. Qed.

Lemma timestamp_length t : strlen (timestamp t) ≤ 55.
Proof.
  unfold timestamp, strlen. rewrite length_app. pose proof (clock_line_length t). cbn [length]. lia.
Qed.

(** The server would store it: it is no seek command. *)
Lemma timestamp_plain t : plain (timestamp t).
Proof.
  split; [apply timestamp_no_NUL|]. pose proof (timestamp_length t) as Hlen. unfold strlen in Hlen.
  intros [|i]; [|by rewrite drop_ge by lia]. rewrite drop_0, take_ge by lia.
  unfold seek_command, timestamp, clock_line. rewrite bool_decide_false; [done|].
  by intros E%(f_equal head).
Qed.

Lemma timestamp_short t : strlen (timestamp t) ≤ BUFSIZ.
Proof. pose proof (timestamp_length t). unfold BUFSIZ. lia. Qed.

(** C21: for every time [localtime] returns the line fits the clock thread's
    buffer with its NUL, so [strftime], whose result is ignored, fills it; it is
    one line, holds no NUL, and the year stands in it in decimal. *)
Theorem timestamp_fits t :
  tm_ok t →
  strlen (timestamp t) + 1 ≤ BUFFER_SIZE ∧ cstring (timestamp t) = timestamp t ∧
  timestamp t = clock_line t ++ [NL] ∧ (NL ∉ clock_line t) ∧
  ∃ pre post, timestamp t = pre ++ post ∧ length pre = 22%nat ∧
    (strtol post).1 = 1900 + tm_year t.
Proof.
  intros Ht. pose proof (timestamp_length t) as Hlen.
  split; [unfold BUFFER_SIZE; lia|]. split; [apply cstring_id, timestamp_no_NUL|].
  split; [done|]. split; [apply clock_line_no_NL|].
  assert (Hname : ∀ names i, Forall (λ s, length (text s) = 3%nat) names →
    0 ≤ i < Z.of_nat (length names) → length (name_of names i) = 3%nat).
  { intros names i Hn Hi. unfold name_of. destruct (lookup_lt_is_Some_2 names (Z.to_nat i)) as [s Hs];
      [lia|]. rewrite Hs.
    rewrite Forall_lookup in Hn. exact (Hn _ _ Hs). }
  assert (length (name_of days (tm_wday t)) = 3%nat) as Hd.
  { apply Hname; [by repeat constructor|]. pose proof (wday_ok t Ht). simpl. lia. }
  assert (length (name_of months (tm_mon t)) = 3%nat) as Hm.
  { apply Hname; [by repeat constructor|]. pose proof (mon_ok t Ht). simpl. lia. }
  exists (text "timestamp:" ++ name_of days (tm_wday t) ++ text ", " ++ two (tm_mday t) ++ text " " ++
    name_of months (tm_mon t) ++ text " "), (year (1900 + tm_year t) ++ (text " " ++
    two (tm_hour t) ++ text ":" ++ two (tm_min t) ++ text ":" ++ two (tm_sec t) ++ text " " ++
    zone (tm_gmtoff t)) ++ [NL]).
  split; [unfold timestamp, clock_line; by rewrite <- !(app_assoc (A := ascii))|].
  split; [by rewrite !length_app, Hd, Hm|].
  rewrite year_value; [done|pose proof (year_ok t Ht); lia|done].
Qed.

Definition leap_second : tm := Tm 60 59 23 31 11 116 6 (-16200).

Lemma timestamp_fits_witness :
  timestamp leap_second = text "timestamp:Sat, 31 Dec 2016 23:59:60 -0430" ++ [NL] ∧
  strlen (timestamp leap_second) + 1 ≤ BUFFER_SIZE ∧
  cstring (timestamp leap_second) = timestamp leap_second ∧
  timestamp leap_second = clock_line leap_second ++ [NL] ∧ (NL ∉ clock_line leap_second) ∧
  ∃ pre post, timestamp leap_second = pre ++ post ∧ length pre = 22%nat ∧
    (strtol post).1 = 1900 + tm_year leap_second.
Proof. split; [done|]. apply timestamp_fits. by split. Defined.
