(* ===== verification/RegularFile.v ===== *)
(** * A regular file as the server's output file

    Without USE_AESD_CHAR_DEVICE the output file is /var/tmp/aesdsocketdata: the
    bytes, the file offset and the space left on the disk.  Writing at the end
    appends, so the file is a [LogDevice] whose log is its contents; it has no
    seek command. *)

From S2P Require Import Prelude Kernel Stdio OutputFile.

Record regular := Regular {
  file_bytes : list ascii;
  file_offset : nat;
  disk : nat;
}.

(** The bytes that overwrite are free; only as many more as the disk has room
    for are written, and none at all is an error. *)
Definition regular_write (l : list ascii) : M regular Z := λ d,
  let k := Nat.min (length l) (length (file_bytes d) - file_offset d + disk d) in
  let hole := replicate (file_offset d - length (file_bytes d)) NUL in
  if bool_decide (k = 0%nat ∧ l ≠ []) then Done (-1, d)
  else Done (Z.of_nat k, Regular
         (take (file_offset d) (file_bytes d) ++ hole ++ take k l ++ drop (file_offset d + k) (file_bytes d))
         (file_offset d + k) (disk d - (file_offset d + k - length (file_bytes d)))).

Definition regular_read (n : Z) : M regular (Z * list ascii) := λ d,
  let bs := take (Z.to_nat n) (drop (file_offset d) (file_bytes d)) in
  Done (strlen bs, bs, Regular (file_bytes d) (file_offset d + length bs) (disk d)).

Definition regular_lseek (off whence : Z) : M regular Z := λ d,
  let base := if bool_decide (whence = SEEK_SET) then 0
              else if bool_decide (whence = SEEK_CUR) then Z.of_nat (file_offset d)
              else Z.of_nat (length (file_bytes d)) in
  if bool_decide (base + off < 0) then Done (-1, d)
  else Done (base + off, Regular (file_bytes d) (Z.to_nat (base + off)) (disk d)).

(** Opening truncates the file and gives the disk its blocks back. *)
Definition regular_open (d : regular) : regular := Regular [] 0 (length (file_bytes d) + disk d).

#[export] Instance regular_descriptor : Descriptor regular := {
  d_open := regular_open;
  d_write := regular_write;
  d_read := regular_read;
  d_lseek := regular_lseek;
  d_ioctl_seekto _ _ := mret (-1);
}.

Definition regular_at (n : Z) (d : regular) (a : list ascii) (p : nat) : Prop :=
  file_bytes d = a ∧ file_offset d = p ∧ (p ≤ length a)%nat ∧ n ≤ Z.of_nat (disk d).

#[export] Program Instance regular_log : LogDevice regular (list ascii) := {
  dev_ready n d a := regular_at n d a (length a);
  dev_at := regular_at;
  log_put := app;
  log_bytes a := a;
  log_seek _ _ _ := None;
  seek_safe _ _ _ := True;
}.
Next Obligation. intros a. apply app_nil_r. Qed.
Next Obligation. intros a l1 l2 _. by rewrite app_assoc. Qed.
Next Obligation.
  intros n [c o dk] a l (Hc & Ho & _ & Hn) Hl _ Hroom. unfold strlen in *. simpl in *. subst.
  unfold regular_write. simpl. rewrite Nat.sub_diag, Nat.add_0_l, Nat.min_l by lia. simpl.
  rewrite bool_decide_false by (destruct l; simpl; [done|lia]).
  eexists. split; [done|]. unfold regular_at. simpl.
  rewrite firstn_all, take_ge, drop_ge, app_nil_r, length_app by lia. split_and!; try done; lia.
Qed.
Next Obligation.
  intros n [c o dk] a p (Hc & Ho & Hp & Hn). simpl in *. subst.
  eexists _, _. split; [done|]. split_and!; simpl; try done.
  - rewrite <- !length_zero_iff_nil, length_take. change (Z.to_nat BUFSIZ) with 4096%nat. lia.
  - apply prefix_take.
  - unfold regular_at. split_and!; simpl; try done. rewrite length_take, length_drop. lia.
Qed.
Next Obligation.
  intros n d a p (Hc & Ho & Hp & Hn) Hd. split_and!; try done.
  rewrite <- length_zero_iff_nil, length_drop in Hd. lia.
Qed.
Next Obligation.
  intros n [c o dk] a (Hc & Ho & Hp & Hn). simpl in *. subst. eexists _, _. split; [done|].
  unfold regular_at. split_and!; simpl; try done. lia.
Qed.
Next Obligation.
  intros n [c o dk] a p (Hc & Ho & Hp & Hn). simpl in *. subst. eexists _, _.
  split.
  { simpl. unfold regular_lseek. simpl. rewrite bool_decide_false by lia. done. }
  simpl.
  rewrite Z.add_0_r, Nat2Z.id. by split_and!.
Qed.
Next Obligation. intros n d a x y Hd _ _ _. by exists d. Qed.
Next Obligation. intros n d a x y _ Hs. by destruct Hs. Qed.

(** A stream on which nothing is under way. *)
Definition opened (d : regular) : FILE regular := File d [] [] false false false.

Lemma opened_ready n c dk :
  n ≤ Z.of_nat dk → file_ready n (opened (Regular c (length c) dk)) c.
Proof. intros Hn. by repeat split. Qed.

(** After [fopen] the log is empty, whatever was in the file. *)
Lemma regular_fopen_ready n d :
  n ≤ Z.of_nat (length (file_bytes d) + disk d) → file_ready n (fopen d) [].
Proof. intros Hn. by repeat split. Qed.
