(* ===== verification/ServerDevice.v ===== *)
(** * The character device as the server's output file

    With USE_AESD_CHAR_DEVICE the output file is /dev/aesdchar: a system call on
    the descriptor is an operation of the driver of [CharDriver], with the
    file position the kernel keeps for the open file.  With memory to spare the
    device is a [LogDevice] whose log is the driver's abstract log [spec]. *)

From S2P Require Import Prelude CircularBuffer Kernel CharDriver DriverSpec DriverRefine DriverRead Stdio OutputFile.

(** The driver and the position of the open file. *)
Record device := Device {
  drv : driver;
  f_pos : Z;
}.

Section Device.
Context `{KS : KernelServices}.

(** The C library turns a negative return value of the kernel into -1. *)
Definition syscall (r : Z) : Z := if bool_decide (r < 0) then -1 else r.

Definition device_write (l : list ascii) : M device Z := λ d,
  '(r, k) ← aesd_write l (strlen l) (drv d); Done (syscall r, Device k (f_pos d)).

Definition device_read (n : Z) : M device (Z * list ascii) := λ d,
  '(r, pos, buf, k) ← aesd_read (replicate (Z.to_nat n) NUL) n (f_pos d) (drv d);
  Done (syscall r, take (Z.to_nat r) buf, Device k pos).

Definition device_lseek (off whence : Z) : M device Z := λ d,
  '(r, pos, k) ← llseek (f_pos d) off whence (drv d); Done (syscall r, Device k pos).

Definition device_seekto (x y : Z) : M device Z := λ d,
  '(r, pos, k) ← unlocked_ioctl (f_pos d) AESDCHAR_IOCSEEKTO (seekto_bytes x y) (drv d);
  Done (syscall r, Device k pos).

(** O_TRUNC means nothing for a character device; the driver's [open] changes
    nothing and the position of the open file is 0. *)
Definition device_open (d : device) : device :=
  match aesd_open (drv d) with Done (_, k) => Device k 0 | _ => d end.

#[export] Instance device_descriptor : Descriptor device := {
  d_open := device_open;
  d_write := device_write;
  d_read := device_read;
  d_lseek := device_lseek;
  d_ioctl_seekto := device_seekto;
}.
End Device.

(** Memory for [limit] bytes in all: an allocation that stays below is granted. *)
Class AmpleMemory `{KernelServices} (limit : Z) : Prop := {
  ample_kmalloc n h sz :
    0 < sz → heap_bytes h + sz ≤ limit → kmalloc_result n h sz ≠ None;
  ample_krealloc n h p sz old :
    0 < sz → h !! p = Some old → heap_bytes (delete p h) + sz ≤ limit →
    krealloc_result n h p sz ≠ None;
}.

(** The bytes the log holds, shown or still without a newline. *)
Definition stored (s : spec) : Z := blen (visible s) + blen (pending s).

(** ** The memory the driver uses is the bytes of its log *)

Lemma blocks_heap h es cs :
  NoDup (buffptr <$> es) → Forall2 (block h) es cs → dom h = list_to_set (buffptr <$> es) →
  heap_bytes h = blen (concat cs).
Proof.
  intros Hnd Hb. revert h cs Hb.
  induction es as [|e es IH]; intros h cs Hb Hdom; inversion Hb as [|? c ? cs' He Hrest]; subst.
  { apply dom_empty_iff_L in Hdom as ->. done. }
  apply NoDup_cons in Hnd as [Hnin Hnd]. destruct He as (Hp & Hl & Hsz).
  rewrite (heap_bytes_delete h _ _ Hl), (IH Hnd _ cs').
  - unfold blen. simpl. rewrite length_app. lia.
  - by apply blocks_delete.
  - rewrite dom_delete_L, Hdom. csimpl.
    assert (buffptr e ∉ (list_to_set (buffptr <$> es) : gset Z)) by by rewrite elem_of_list_to_set.
    set_solver.
Qed.

Lemma rep_heap b cur h s : rep ∅ b cur h s → heap_bytes h = stored s.
Proof.
  intros HR. pose proof (rep_nodup _ _ _ _ _ HR) as Hnd. pose proof (rep_dom _ _ _ _ _ HR) as Hdom.
  rewrite union_empty_r_L in Hdom. unfold owned, cur_ptr, stored, visible in *.
  destruct (rep_current _ _ _ _ _ HR) as [[H0 ->]|Hblk].
  - rewrite bool_decide_true, app_nil_r in * by done.
    rewrite (blocks_heap h (contents b) (commands s)) by (done || apply HR). unfold blen. simpl. lia.
  - rewrite bool_decide_false in * by (destruct Hblk; lia).
    rewrite (blocks_heap h (contents b ++ [cur]) (commands s ++ [pending s])).
    + unfold blen. rewrite concat_app, length_app. simpl. rewrite app_nil_r. lia.
    + by rewrite fmap_app.
    + apply Forall2_app; [apply HR|]. by constructor.
    + by rewrite fmap_app.
Qed.

Lemma concat_lastn_length {X} n (ls : list (list X)) :
  (length (concat (lastn n ls)) ≤ length (concat ls))%nat.
Proof.
  unfold lastn. set (k := (length ls - n)%nat).
  rewrite <- (take_drop k ls) at 2. rewrite concat_app, length_app. lia.
Qed.

Lemma stored_write s l : stored (spec_write s l) ≤ stored s + strlen l.
Proof.
  unfold stored, spec_write, visible, strlen, blen. case_bool_decide; simpl.
  - pose proof (concat_lastn_length 10 (commands s ++ [pending s ++ l])) as Hl.
    rewrite concat_app, length_app in Hl. simpl in Hl. rewrite app_nil_r, length_app in Hl. lia.
  - rewrite length_app. lia.
Qed.

Section Log.
Context `{KS : KernelServices, KL : !KernelLaws} (limit : Z) `{AM : !AmpleMemory limit}.

Lemma ample_allocation d s count :
  represents ∅ d s → 0 < count → stored s + count ≤ limit → limit < 2 ^ 62 →
  allocation (kern d) (current_entry (aesd_device d)) count ≠ None.
Proof.
  intros [_ HR] Hc Hst Hlim. pose proof (rep_heap _ _ _ _ HR) as Hh. unfold allocation.
  case_bool_decide as H0; [apply ample_kmalloc; lia|].
  destruct (rep_ptr_block _ _ _ _ _ HR H0) as (_ & Hl & Hsz).
  pose proof (heap_bytes_delete _ _ _ Hl). rewrite Hsz. unfold stored in *.
  assert (0 ≤ blen (pending s) ∧ 0 ≤ blen (visible s)) by (unfold blen; lia).
  rewrite u64_id by lia. eapply ample_krealloc; [lia|done|lia].
Qed.

Definition device_ready (n : Z) (d : device) (s : spec) : Prop :=
  represents ∅ (drv d) s ∧ stored s + n ≤ limit ∧ limit < 2 ^ 62 ∧ 0 ≤ f_pos d < 2 ^ 63.

Definition device_at (n : Z) (d : device) (s : spec) (p : nat) : Prop :=
  device_ready n d s ∧ f_pos d = Z.of_nat p.

(** Where the seek command goes in the log. *)
Definition spec_seek (s : spec) (x y : Z) : option nat :=
  c ← commands s !! Z.to_nat x;
  if bool_decide (y < blen c)
  then Some (length (concat (take (Z.to_nat x) (commands s))) + Z.to_nat y)%nat else None.

(** The array index of the command is in range. *)
Definition device_seek_safe (d : device) (x y : Z) : Prop :=
  let b := buffer (aesd_device (drv d)) in
  x < aesd_circular_buffer_get_count b → out_offs b + x < 10.

Lemma spec_write_app s l1 l2 :
  last l1 ≠ Some NL → spec_write (spec_write s l1) l2 = spec_write s (l1 ++ l2).
Proof.
  intros Hl. unfold spec_write at 2. rewrite bool_decide_false by done.
  unfold spec_write. simpl. rewrite last_app. destruct (last l2) eqn:E.
  - by rewrite app_assoc.
  - apply last_None in E as ->. rewrite bool_decide_false by done.
    rewrite !bool_decide_false by done. by rewrite !app_nil_r.
Qed.

Lemma device_write_law n d s l :
  device_ready n d s → l ≠ [] → strlen l ≤ BUFSIZ → strlen l ≤ n →
  ∃ d', device_write l d = Done (strlen l, d') ∧ device_ready (n - strlen l) d' (spec_write s l).
Proof.
  intros (HR & Hst & Hlim & Hp) Hl Hb Hn.
  assert (0 < strlen l) as Hpos by (unfold strlen; destruct l; simpl; [done|lia]).
  assert (0 ≤ strlen l ≤ MAX_RW_COUNT) as Hmax by (unfold BUFSIZ, MAX_RW_COUNT in *; lia).
  destruct (write_run ∅ (drv d) s l (strlen l) HR Hmax) as (k & Hw & Hres).
  rewrite bool_decide_false in Hw, Hres by lia.
  pose proof (ample_allocation _ _ _ HR Hpos) as Ha.
  destruct (allocation _ _ _) eqn:E; [|exfalso; apply Ha; lia || done].
  rewrite bool_decide_true in Hw, Hres by (unfold strlen, blen; lia).
  unfold device_write. rewrite Hw. eexists. split; [simpl; unfold syscall|].
  { by rewrite bool_decide_false by lia. }
  unfold strlen in *. rewrite Nat2Z.id, take_ge in Hres by lia.
  pose proof (stored_write s l). unfold strlen in *. split; [done|]. simpl. lia.
Qed.

Lemma device_read_law n d s p :
  device_at n d s p →
  ∃ bs d', device_read BUFSIZ d = Done ((strlen bs, bs), d') ∧
    (bs = [] ↔ drop p (visible s) = []) ∧ bs `prefix_of` drop p (visible s) ∧
    device_at n d' s (p + length bs).
Proof.
  intros [(HR & Hst & Hlim & Hp) Hfp]. unfold device_read.
  rewrite (read_run _ _ _ _ _ _ HR) by (unfold BUFSIZ; lia).
  set (bs := spec_read s (f_pos d) BUFSIZ).
  assert (bs = read_at (commands s) p 4096) as Hbs.
  { unfold bs, spec_read. rewrite bool_decide_false by lia. by rewrite Hfp, Nat2Z.id. }
  pose proof (read_at_length (commands s) p 4096) as Hlen.
  pose proof (read_at_prefix (commands s) p 4096) as Hpre.
  pose proof (read_at_nil (commands s) p 4096) as Hnil. rewrite <- Hbs in *.
  destruct HR as [Hlock HR]. destruct (rep_total _ _ _ _ _ HR) as [Htot Hlt].
  unfold read_result. rewrite bool_decide_true.
  2:{ unfold blen. rewrite length_replicate. change (Z.to_nat BUFSIZ) with 4096%nat. lia. }
  eexists bs, _. split.
  { simpl. unfold syscall. rewrite bool_decide_false by (unfold blen; lia).
    unfold blen at 2. rewrite Nat2Z.id, take_app_length. done. }
  split; [|split].
  - rewrite Hnil, <- length_zero_iff_nil, length_drop. unfold visible. lia.
  - exists (drop (length bs) (drop p (visible s))). unfold visible. rewrite Hpre at 1.
    by rewrite take_drop.
  - assert (length bs ≤ length (visible s) - p)%nat.
    { rewrite Hpre, length_take, length_drop. unfold visible. lia. }
    unfold blen, visible in *.
    split; [split; [done|]; simpl; split; [done|]; split; [done|]|simpl]; unfold blen; lia.
Qed.

Lemma device_unsafe_law n d s x y :
  device_ready n d s → ¬ device_seek_safe d x y → 0 ≤ x < 2 ^ 32 → 0 ≤ y < 2 ^ 32 →
  device_seekto x y d = Undef.
Proof using KL.
  intros (HR & _) Hs Hx Hy. unfold device_seekto.
  rewrite (ioctl_run _ _ _ _ _ _ HR), !bool_decide_true by (done || by vm_compute).
  rewrite seekto_roundtrip by done. cbn [write_cmd write_cmd_offset]. cbv zeta.
  pose proof (rep_count _ _ _ _ _ (proj2 HR)) as Hcount.
  pose proof (get_count_count _ (rep_wf _ _ _ _ _ (proj2 HR))) as Hgc. rewrite <- Hcount in Hgc.
  unfold device_seek_safe in Hs. cbv zeta in Hs. rewrite Hgc in Hs. unfold seek_result.
  destruct (decide (x < Z.of_nat (length (commands s)))) as [Hlt|Hge]; [|destruct Hs; lia].
  rewrite (bool_decide_false (x >= _)) by lia.
  destruct (commands s !! Z.to_nat x) eqn:Hc; [|apply lookup_ge_None in Hc; lia].
  by rewrite bool_decide_true by lia.
Qed.

Lemma device_seek_law n d s x y :
  device_ready n d s → device_seek_safe d x y → 0 ≤ x < 2 ^ 32 → 0 ≤ y < 2 ^ 32 →
  match spec_seek s x y with
  | Some p => ∃ d', device_seekto x y d = Done (0, d') ∧ device_at n d' s p
  | None => ∃ d', device_seekto x y d = Done (-1, d') ∧ device_ready n d' s
  end.
Proof.
  intros (HR & Hst & Hlim & Hp) Hsafe Hx Hy. unfold device_seekto.
  rewrite (ioctl_run _ _ _ _ _ _ HR), bool_decide_true by done.
  rewrite bool_decide_true by (unfold sizeof_seekto; by vm_compute).
  rewrite seekto_roundtrip by done. cbn [write_cmd write_cmd_offset]. cbv zeta.
  pose proof (rep_count _ _ _ _ _ (proj2 HR)) as Hcount. pose proof HR as HR2.
  destruct HR as [Hlock HR].
  pose proof (get_count_count _ (rep_wf _ _ _ _ _ HR)) as Hgc. rewrite <- Hcount in Hgc.
  destruct (rep_total _ _ _ _ _ HR) as [Htot Hlt].
  unfold device_seek_safe in Hsafe. rewrite Hgc in Hsafe. unfold seek_result, spec_seek.
  destruct (commands s !! Z.to_nat x) as [c|] eqn:Hc; simpl.
  - apply lookup_lt_Some in Hc as Hlen. specialize (Hsafe ltac:(lia)).
    rewrite (bool_decide_false (x >= _)), (bool_decide_false (_ + x >= 10)) by lia.
    assert (length (concat (take (Z.to_nat x) (commands s))) + length c
      ≤ length (visible s))%nat.
    { unfold visible. rewrite <- (take_drop_middle _ _ _ Hc) at 2.
      rewrite concat_app, length_app. simpl. rewrite length_app. lia. }
    destruct (decide (y < blen c)) as [Hlt2|Hge].
    + rewrite (bool_decide_false (y >= _)), (bool_decide_true (y < _)) by lia. simpl.
      unfold syscall. simpl. eexists. split; [done|].
      unfold blen in *. split; [split; [done|]; simpl|simpl]; lia.
    + rewrite (bool_decide_true (y >= _)), (bool_decide_false (y < _)) by lia. simpl.
      eexists. split; [done|]. exact (conj HR2 (conj Hst (conj Hlim Hp))).
  - apply lookup_ge_None in Hc. rewrite bool_decide_true by lia.
    eexists. split; [done|]. exact (conj HR2 (conj Hst (conj Hlim Hp))).
Qed.

(** With room in the ring the seek command's array index is in range. *)
Lemma room_seek_safe n d s x y :
  device_ready n d s → (length (commands s) < 10)%nat → device_seek_safe d x y.
Proof using.
  intros ([_ HR] & _) Hlen. unfold device_seek_safe. cbv zeta.
  pose proof (rep_count _ _ _ _ _ HR) as Hcount.
  pose proof (get_count_count _ (rep_wf _ _ _ _ _ HR)) as Hgc.
  rewrite (rep_packed _ _ _ _ _ HR), Hgc; [lia|].
  destruct (full (buffer (aesd_device (drv d)))) eqn:E; [|done].
  unfold aesd_circular_buffer_get_count, MAXOPS in Hgc. rewrite E in Hgc. cbn in Hgc. lia.
Qed.

#[export] Program Instance device_log : LogDevice device spec := {
  dev_ready := device_ready;
  dev_at := device_at;
  log_put := spec_write;
  log_bytes := visible;
  log_seek := spec_seek;
  seek_safe := device_seek_safe;
}.
Next Obligation.
  intros [cs p]. unfold spec_write. rewrite bool_decide_false by done. by rewrite app_nil_r.
Qed.
Next Obligation. apply spec_write_app. Qed.
Next Obligation. apply device_write_law. Qed.
Next Obligation. apply device_read_law. Qed.
Next Obligation. by intros n d s p [? _] _. Qed.
Next Obligation.
  intros n d s (HR & Hst & Hlim & Hp). eexists _, _. simpl. unfold device_lseek.
  rewrite (llseek_run _ _ _ _ _ _ HR), llseek_set, bool_decide_true.
  - split; [done|]. split; [|done]. split; [done|]. simpl. lia.
  - unfold blen. lia.
Qed.
Next Obligation.
  intros n d s p [(HR & Hst & Hlim & Hp) Hfp]. eexists _, _. simpl. unfold device_lseek.
  rewrite (llseek_run _ _ _ _ _ _ HR), llseek_tell. split; [done|].
  split; [|done]. split; [done|]. simpl. lia.
Qed.
Next Obligation. apply device_seek_law. Qed.
Next Obligation. intros. by eapply device_unsafe_law. Qed.

(** After [fopen] the log is what was on the device. *)
Lemma device_fopen_ready n d s :
  represents ∅ (drv d) s → stored s + n ≤ limit → limit < 2 ^ 62 → file_ready n (fopen d) s.
Proof. intros HR Hst Hlim. split; [done..|]. split; [done|]. do 2 (split; [done|]). simpl. lia. Qed.
End Log.

(** The concrete kernel of [Kernel] that never refuses has memory to spare. *)
Lemma reference_ample : @AmpleMemory (reference_services (λ _, false)) (2 ^ 60).
Proof.
  split; simpl.
  - intros n h sz Hsz Hh. unfold reference_alloc. rewrite bool_decide_true; [done|].
    split; [done|]. unfold blen. rewrite length_replicate. lia.
  - intros n h p sz old Hsz Hp Hh. rewrite Hp. unfold reference_alloc.
    rewrite bool_decide_true; [done|].
    split; [done|]. unfold blen. rewrite length_resize. lia.
Qed.
