(* ===== verification/ServerTheorems.v ===== *)
(** * What a client of the server gets

    The theorems about [server_protocol] on any [LogDevice], and on a regular
    file. *)

From S2P Require Import Prelude CircularBuffer Kernel CharDriver DriverSpec DriverModule DriverTheorems Stdio OutputFile ServerProtocol Timestamp RegularFile ServerDevice.

Section Replies.
Context {D A : Type} `{LD : LogDevice D A}.

(** Sending the file from where it is positioned. *)
Lemma send_file_run n a i o f bs fuel w o' :
  file_reading n f a bs → eof f = false → NUL ∉ bs → (length bs < fuel)%nat →
  fwrite_socket bs o = (w, o') →
  ∃ f', send_file fuel (Conn i o f)
        = Done (if bool_decide (w = strlen bs) then RET_OK else RET_ERR, Conn i o' f') ∧
    (w = strlen bs → file_ready n f' a) ∧
    (w ≠ strlen bs → last bs = Some NL → reading f' = true ∧ eof f' = false).
Proof.
  intros Hf He Hnul Hfuel Hw. destruct (ftell_law n f a bs Hf) as (r & f1 & Ht & Hf1 & He1).
  destruct (reply_loop n a i o f1 bs fuel w o' Hf1 Hnul Hfuel Hw) as (f' & Hl & Hok & Hbad).
  exists f'. unfold send_file. rewrite (M_bind_Done _ _ _ _ _ (on_file_Done _ _ _ _ _ _ Ht)).
  rewrite (M_bind_Done _ _ _ _ _ Hl). case_bool_decide as Hc.
  - destruct (Hok Hc) as [He' Hr]. split; [|by split]. unfold feof.
    rewrite (M_bind_Done _ _ _ true (Conn i o' f')); [done|].
    unfold on_file, gets. simpl. by rewrite He'.
  - split; [done|]. split; [done|]. intros _ Hlast. apply Hbad; [done..|congruence].
Qed.

(** A line is stored and the whole log is the reply. *)
Lemma line_run n a o f line rest e fuel w o' :
  file_ready n f a → NL ∉ line → plain (line ++ [NL]) → strlen (line ++ [NL]) ≤ n →
  NUL ∉ log_bytes (log_put a (line ++ [NL])) →
  (length line < fuel)%nat → (length (log_bytes (log_put a (line ++ [NL]))) < fuel)%nat →
  fwrite_socket (log_bytes (log_put a (line ++ [NL]))) o = (w, o') →
  ∃ f', server_protocol fuel (Conn (InStream (line ++ NL :: rest) e) o f)
    = Done (if bool_decide (w = strlen (log_bytes (log_put a (line ++ [NL]))))
            then RET_OK else RET_ERR, Conn (InStream rest e) o' f') ∧
    (w = strlen (log_bytes (log_put a (line ++ [NL]))) →
      file_ready (n - strlen (line ++ [NL])) f' (log_put a (line ++ [NL]))) ∧
    (w ≠ strlen (log_bytes (log_put a (line ++ [NL]))) →
      last (log_bytes (log_put a (line ++ [NL]))) = Some NL →
      reading f' = true ∧ eof f' = false).
Proof.
  intros Hf Hnl Hpl Hn Hnul Hfuel1 Hfuel2 Hw.
  destruct (receive_line n a o f line rest e fuel Hf Hnl Hpl Hn Hfuel1) as (f1 & Hr & Hf1).
  destruct (rewind_law _ _ _ Hf1) as (f2 & Hrw & Hf2 & He2).
  destruct (send_file_run _ _ (InStream rest e) o f2 _ fuel w o' Hf2 He2 Hnul Hfuel2 Hw)
    as (f' & Hs & Hres).
  exists f'. split; [|done]. unfold server_protocol. rewrite (M_bind_Done _ _ _ _ _ Hr).
  cbn beta iota. unfold position_file.
  by rewrite (M_bind_Done _ _ _ _ _ (on_file_Done _ _ _ _ _ _ Hrw)).
Qed.

(** What the loop does with the full buffers in front of a seek command. *)
Lemma receive_before k n a o f pre t e fuel :
  file_ready n f a → length pre = (255 * k)%nat → NL ∉ pre → plain pre → strlen pre ≤ n →
  (k < fuel)%nat →
  ∃ f1 m, forever fuel receive_body (Conn (InStream (pre ++ t) e) o f)
        = forever (S m) receive_body (Conn (InStream t e) o f1) ∧
    file_ready (n - strlen pre) f1 (log_put a pre) ∧ (pre = [] → f1 = f).
Proof.
  intros Hf Hk Hnl Hpl Hn Hfuel. destruct (decide (pre = [])) as [->|Hne].
  { exists f, (fuel - 1)%nat. replace (S (fuel - 1)) with fuel by lia. split; [done|].
    change (strlen []) with 0. by rewrite Z.sub_0_r, log_put_nil. }
  destruct (receive_long k n a _ o f pre t e (S (fuel - S k)) Hf eq_refl Hk Hnl Hpl Hn)
    as (f1 & Hgo & Hf1).
  replace (k + S (fuel - S k))%nat with fuel in Hgo by lia. by exists f1, (fuel - S k)%nat.
Qed.

(** The round of the loop that receives a seek command. *)
Lemma receive_seek cmd x y rest e o (f : FILE D) :
  NL ∉ cmd → NUL ∉ cmd → (length cmd < 255)%nat → seek_command (cmd ++ [NL]) = Some (x, y) →
  receive_body (Conn (InStream (cmd ++ NL :: rest) e) o f)
  = match on_fd (d_ioctl_seekto x y) f with
    | Done (r, f') => Done (if bool_decide (-1 = r) then Some (Return RET_ERR) else Some (Next true),
                            Conn (InStream rest e) o f')
    | Undef => Undef
    | NoFuel => NoFuel
    end.
Proof.
  intros Hnl Hnul Hlen Hcmd. unfold receive_body.
  rewrite (M_bind_Done _ _ _ (Some (cmd ++ [NL])) (Conn (InStream rest e) o f)).
  2:{ unfold read_socket, fgets. simpl unread. change (Z.to_nat (BUFFER_SIZE - 1)) with 255%nat.
      by rewrite fgets_take_line by done. }
  cbn beta iota zeta. rewrite cstring_id, Hcmd.
  2:{ intros [?|?%list_elem_of_singleton]%elem_of_app; done. }
  unfold mbind, M_bind. unfold on_file. simpl.
  by destruct (on_fd (d_ioctl_seekto x y) f) as [[r f']| |].
Qed.

(** A seek command at the start of a buffer. *)
Lemma seek_run n a o f pre cmd x y rest e fuel k :
  file_ready n f a → length pre = (255 * k)%nat → NL ∉ pre → plain pre → strlen pre ≤ n →
  NL ∉ cmd → NUL ∉ cmd → (length cmd < 255)%nat → seek_command (cmd ++ [NL]) = Some (x, y) →
  (k < fuel)%nat →
  let c := Conn (InStream (pre ++ cmd ++ NL :: rest) e) o f in
  ∃ f1, file_ready (n - strlen pre) f1 (log_put a pre) ∧ (pre = [] → f1 = f) ∧
    (¬ seek_safe (fd f1) x y → server_protocol fuel c = Undef) ∧
    (seek_safe (fd f1) x y →
     match log_seek (log_put a pre) x y with
     | None => ∃ f', server_protocol fuel c = Done (RET_ERR, Conn (InStream rest e) o f') ∧
         file_ready (n - strlen pre) f' (log_put a pre)
     | Some p => let bs := drop p (log_bytes (log_put a pre)) in
         ∀ w o', NUL ∉ bs → (length bs < fuel)%nat → fwrite_socket bs o = (w, o') →
         ∃ f', server_protocol fuel c
           = Done (if bool_decide (w = strlen bs) then RET_OK else RET_ERR,
                   Conn (InStream rest e) o' f') ∧
           (w = strlen bs → file_ready (n - strlen pre) f' (log_put a pre))
     end).
Proof.
  intros Hf Hk Hnl Hpl Hn Hnl2 Hnul2 Hlen Hcmd Hfuel c.
  destruct (seek_command_range _ _ _ Hcmd) as [Hx Hy].
  destruct (receive_before k n a o f pre (cmd ++ NL :: rest) e fuel)
    as (f1 & m & Hgo & Hf1 & Hpre); [done..|].
  pose proof (receive_seek cmd x y rest e o f1 Hnl2 Hnul2 Hlen Hcmd) as Hbody.
  exists f1. do 2 (split; [done|]). unfold server_protocol, c. split.
  { intros Hu. apply M_bind_Undef. rewrite Hgo. apply forever_undef. rewrite Hbody.
    unfold on_fd. by rewrite (dev_unsafe_law _ _ _ _ _ (ready_dev _ _ _ Hf1) Hu Hx Hy). }
  intros Hsafe. pose proof (seek_law _ _ _ x y Hf1 Hsafe Hx Hy) as Hs.
  destruct (log_seek (log_put a pre) x y) as [p|].
  - destruct Hs as (f2 & f3 & r & Hi & Hsk & Hf3 & He3). intros w o' Hnul Hfuel2 Hw.
    destruct (send_file_run _ _ (InStream rest e) o f3 _ fuel w o' Hf3 He3 Hnul Hfuel2 Hw)
      as (f' & Hsend & Hok & _).
    exists f'. split; [|done]. rewrite Hi in Hbody. erewrite M_bind_Done.
    2:{ rewrite Hgo. apply forever_exit, Hbody. }
    cbn beta iota. unfold position_file. rewrite M_bind_assoc.
    rewrite (M_bind_Done _ _ _ _ _ (on_file_Done _ _ _ _ _ _ Hsk)). by run.
  - destruct Hs as (f2 & Hi & Hf2). exists f2. split; [|done]. rewrite Hi in Hbody.
    erewrite M_bind_Done.
    2:{ rewrite Hgo. apply forever_exit, Hbody. }
    done.
Qed.

(** Input without a newline. *)
Lemma missing_run n a o f u e fuel :
  file_ready n f a → NL ∉ u → plain u → strlen u ≤ n → (S (length u) < fuel)%nat →
  let stored := match e with
                | Eof => u
                | Error => take (255 * (length u / 255)) u
                end in
  ∃ f', server_protocol fuel (Conn (InStream u e) o f)
        = Done (RET_ERR, Conn (InStream [] e) o f') ∧
    file_ready (n - strlen stored) f' (log_put a stored).
Proof.
  intros Hf Hnl Hpl Hn Hfuel.
  destruct (full_buffers u) as (k & pre & tl & Hu & Hk & Htl & Hpre & Hle & Hdiv).
  assert (Hpl1 : plain pre) by (rewrite Hpre; by apply plain_take).
  assert (Hpl2 : plain tl).
  { replace tl with (drop (255 * k) u); [by apply plain_drop|].
    by rewrite Hu, <- Hk, drop_app_length. }
  assert ((NL ∉ pre) ∧ NL ∉ tl) as [Hnl1 Hnl2] by (apply not_elem_of_app; by rewrite <- Hu).
  assert (strlen u = strlen pre + strlen tl) as Hlen
    by (unfold strlen; rewrite Hu, length_app; lia).
  assert (0 ≤ strlen tl ≤ 255) as Htl2 by (unfold strlen; lia).
  destruct (receive_long k n a (InStream u e) o f pre tl e (S (S (fuel - S (S k)))))
    as (f1 & Hgo & Hf1); [done|by rewrite Hu|done..|lia|].
  replace (k + S (S (fuel - S (S k))))%nat with fuel in Hgo by lia.
  assert (Hstop : ∀ f2 m, forever (S m) receive_body (Conn (InStream [] e) o f2)
    = Done (Return RET_ERR, Conn (InStream [] e) o f2)).
  { intros f2 m. apply forever_exit. by destruct e. }
  intros stored. unfold server_protocol. destruct e; simpl in stored.
  - destruct (decide (tl = [])) as [->|Hne].
    { assert (stored = pre) as -> by (unfold stored; by rewrite Hu, app_nil_r).
      exists f1. split; [|done]. erewrite M_bind_Done by (rewrite Hgo; apply Hstop). done. }
    destruct (receive_chunk (n - strlen pre) (log_put a pre) (InStream tl Eof) o f1 tl
      (InStream [] Eof)) as (f2 & Hb & Hf2); try done.
    + unfold fgets. simpl unread. change (Z.to_nat (BUFFER_SIZE - 1)) with 255%nat.
      rewrite fgets_take_rest by done. cbn beta iota zeta. simpl. by rewrite bool_decide_false.
    + apply Hpl2.
    + apply plain_first in Hpl2. by rewrite take_ge in Hpl2 by lia.
    + lia.
    + unfold BUFSIZ. lia.
    + rewrite bool_decide_false in Hb by (intros Hl%last_Some_elem_of; done).
      exists f2. split.
      * erewrite M_bind_Done by (rewrite Hgo, (forever_next _ _ _ _ Hb); apply Hstop). done.
      * rewrite log_put_app, <- Hu in Hf2 by (intros Hl%last_Some_elem_of; done).
        by replace (n - strlen stored) with (n - strlen pre - strlen tl) by (unfold stored; lia).
  - assert (stored = pre) as -> by (unfold stored; by rewrite Hpre, Hdiv).
    exists f1. split; [|done].
    rewrite (M_bind_Done _ _ _ (Return RET_ERR) (Conn (InStream [] Error) o f1)); [done|].
    rewrite Hgo. apply forever_exit. unfold receive_body.
    rewrite (M_bind_Done _ _ _ None (Conn (InStream [] Error) o f1)); [done|]. unfold read_socket, fgets. simpl unread.
    change (Z.to_nat (BUFFER_SIZE - 1)) with 255%nat. by rewrite fgets_take_rest.
Qed.
End Replies.

(** ** Storing a line and replying with the log *)

(** C22: a client that sends a line (no NUL byte, no buffer of it a seek command)
    gets the whole log with its line at the end, and nothing more of its input
    is read; the result is [RET_OK] exactly if the socket's stream took the whole reply,
    and the output file is then ready for the next client. *)
Theorem line_served {D A} `{LD : LogDevice D A} n a o f line rest e fuel w o' :
  file_ready n f a → NL ∉ line → plain (line ++ [NL]) → strlen (line ++ [NL]) ≤ n →
  let a' := log_put a (line ++ [NL]) in
  NUL ∉ log_bytes a' → (length line < fuel)%nat → (length (log_bytes a') < fuel)%nat →
  fwrite_socket (log_bytes a') o = (w, o') →
  ∃ f', server_protocol fuel (Conn (InStream (line ++ NL :: rest) e) o f)
    = Done (if bool_decide (w = strlen (log_bytes a')) then RET_OK else RET_ERR,
            Conn (InStream rest e) o' f') ∧
    (w = strlen (log_bytes a') → file_ready (n - strlen (line ++ [NL])) f' a').
Proof.
  intros Hf Hnl Hpl Hn a' Hnul Hf1 Hf2 Hw.
  destruct (line_run n a o f line rest e fuel w o') as (f' & Hs & Hok & _); try done.
  by exists f'.
Qed.

(** Three hundred letters: more than one buffer. *)
#[local] Instance server_kernel : KernelServices := reference_services (λ _, false).
#[local] Instance server_kernel_laws : KernelLaws := reference_laws (λ _, false).
#[local] Instance server_kernel_ample : AmpleMemory (2 ^ 60) := reference_ample.

Definition long_line : list ascii := replicate 300 "a"%char.

(** [plain] of a concrete line: only finitely many buffers to look at. *)
Lemma plain_check u :
  (bool_decide (NUL ∉ u) &&
   forallb (λ i, bool_decide (seek_command (take 255 (drop (255 * i) u)) = None))
     (seq 0 (length u))) = true → plain u.
Proof.
  intros [Hn Hs]%andb_true_iff. apply bool_decide_eq_true in Hn. split; [done|]. intros i.
  destruct (decide (i < length u)%nat) as [Hi|Hi].
  - rewrite forallb_forall in Hs. specialize (Hs i). rewrite bool_decide_eq_true in Hs.
    apply Hs, in_seq. lia.
  - by rewrite drop_ge by lia.
Qed.

Definition old_log : list ascii := text "old" ++ [NL].
Definition sample_file : FILE regular := opened (Regular old_log 4 1000).
Definition nothing_sent : outstream := OutStream [] None.

Lemma sample_ready : file_ready 1000 sample_file old_log.
Proof. by apply (opened_ready 1000). Qed.

Lemma line_served_witness :
  let a' := log_put old_log (long_line ++ [NL]) in
  log_bytes a' = old_log ++ long_line ++ [NL] ∧
  ∃ f', server_protocol 400
      (Conn (InStream (long_line ++ NL :: text "more") Eof) nothing_sent sample_file)
    = Done (if bool_decide (305 = strlen (log_bytes a')) then RET_OK else RET_ERR,
            Conn (InStream (text "more") Eof)
              (OutStream (old_log ++ long_line ++ [NL]) None) f') ∧
    (305 = strlen (log_bytes a') → file_ready (1000 - strlen (long_line ++ [NL])) f' a').
Proof.
  split; [done|]. apply (@line_served regular (list ascii) _ _ 1000 old_log nothing_sent sample_file long_line
    (text "more") Eof 400 305 (OutStream (old_log ++ long_line ++ [NL]) None)).
  - apply sample_ready.
  - by apply (bool_decide_unpack (NL ∉ long_line)).
  - by apply plain_check.
  - by vm_compute.
  - by apply (bool_decide_unpack (NUL ∉ old_log ++ long_line ++ [NL])).
  - by apply (bool_decide_unpack (length long_line < 400)%nat).
  - by apply (bool_decide_unpack (length (old_log ++ long_line ++ [NL]) < 400)%nat).
  - done.
Defined.

(** The character device of [short_driver]: commands "hello" and "world". *)
Definition device_file : FILE device := File (Device short_driver 0) [] [] false false false.

Lemma device_file_ready : file_ready (A := spec) 1000 device_file short_spec.
Proof.
  split; [done..|]. split; [apply short_rep|]. split; [|split]; by vm_compute.
Qed.

(** With the character device as its output file and memory to spare, the
    server answers a line with the last ten commands of the device, oldest
    first, the newest being the bytes pending on the device followed by the
    line; the result is [RET_OK] and the device has stored the line. *)
Lemma device_line_served `{KS : KernelServices, KL : !KernelLaws} limit
    `{AM : !AmpleMemory limit} n s o f line rest e fuel :
  file_ready (LD := device_log limit) n f s → NL ∉ line → plain (line ++ [NL]) →
  strlen (line ++ [NL]) ≤ n → room o = None →
  let shown := concat (lastn 10 (commands s ++ [pending s ++ line ++ [NL]])) in
  NUL ∉ shown → (length line < fuel)%nat → (length shown < fuel)%nat →
  ∃ f', server_protocol fuel (Conn (InStream (line ++ NL :: rest) e) o f)
    = Done (RET_OK, Conn (InStream rest e) (OutStream (sent o ++ shown) None) f') ∧
    file_ready (LD := device_log limit) (n - strlen (line ++ [NL])) f'
      (spec_write s (line ++ [NL])).
Proof.
  intros Hf Hnl Hpl Hn Hroom shown Hnul Hf1 Hf2.
  assert (Hlog : visible (spec_write s (line ++ [NL])) = shown).
  { unfold visible, spec_write. by rewrite last_snoc, bool_decide_true. }
  destruct (line_run (LD := device_log limit) n s o f line rest e fuel (strlen shown)
    (OutStream (sent o ++ shown) None)) as (f' & Hs & Hok & _); simpl log_bytes in *;
    simpl log_put in *; rewrite ?Hlog in *; try done.
  { unfold fwrite_socket. by rewrite Hroom. }
  exists f'. rewrite bool_decide_true in Hs by done. split; [done|]. by apply Hok.
Qed.

Lemma device_line_served_witness :
  let shown := concat (lastn 10 (commands short_spec ++ [pending short_spec ++ text "c" ++ [NL]])) in
  shown = text "hello" ++ [NL] ++ text "world" ++ [NL] ++ text "abc" ++ [NL] ∧
  ∃ f', server_protocol 100
      (Conn (InStream (text "c" ++ NL :: text "rest") Eof) nothing_sent device_file)
    = Done (RET_OK, Conn (InStream (text "rest") Eof)
        (OutStream (sent nothing_sent ++ shown) None) f') ∧
    file_ready (LD := device_log (2 ^ 60)) (1000 - strlen (text "c" ++ [NL])) f'
      (spec_write short_spec (text "c" ++ [NL])).
Proof.
  split; [done|].
  apply (device_line_served (2 ^ 60) 1000 short_spec nothing_sent device_file (text "c")
    (text "rest") Eof 100).
  - apply device_file_ready.
  - by apply (bool_decide_unpack (NL ∉ text "c")).
  - by apply plain_check.
  - by vm_compute.
  - done.
  - by apply (bool_decide_unpack (NUL ∉
      concat (lastn 10 (commands short_spec ++ [pending short_spec ++ text "c" ++ [NL]])))).
  - by apply (bool_decide_unpack (length (text "c") < 100)%nat).
  - by apply (bool_decide_unpack (length
      (concat (lastn 10 (commands short_spec ++ [pending short_spec ++ text "c" ++ [NL]]))) < 100)%nat).
Defined.

(** ** The seek command *)

(** C23: a seek command is recognised at the start of every buffer, after a long
    line's full buffers [pre] (which are stored) as well as at the start of a
    line; it is not stored itself.  [f1] is the output file when the command is
    sent to it (the file as it was, if nothing precedes the command).  Where the
    device cannot compute the command's place ([seek_safe] fails: on the character
    device an index in the log that, counted from the ring's first slot, passes the
    end of its array) the conversation is undefined.  Everywhere else the reply is the
    log from the byte that the command names on, if the log has it (and no NUL
    from there), with [RET_OK] if the client's stream takes all of it; and if the
    log has no such byte the client gets nothing and the result is [RET_ERR]. *)
Theorem seek_served {D A} `{LD : LogDevice D A} n a o f pre cmd x y rest e fuel k :
  file_ready n f a → length pre = (255 * k)%nat → NL ∉ pre → plain pre → strlen pre ≤ n →
  NL ∉ cmd → NUL ∉ cmd → (length cmd < 255)%nat → seek_command (cmd ++ [NL]) = Some (x, y) →
  (k < fuel)%nat →
  let c := Conn (InStream (pre ++ cmd ++ NL :: rest) e) o f in
  ∃ f1, file_ready (n - strlen pre) f1 (log_put a pre) ∧ (pre = [] → f1 = f) ∧
    (¬ seek_safe (fd f1) x y → server_protocol fuel c = Undef) ∧
    (seek_safe (fd f1) x y →
     match log_seek (log_put a pre) x y with
     | None => ∃ f', server_protocol fuel c = Done (RET_ERR, Conn (InStream rest e) o f') ∧
         file_ready (n - strlen pre) f' (log_put a pre)
     | Some p => let bs := drop p (log_bytes (log_put a pre)) in
         ∀ w o', NUL ∉ bs → (length bs < fuel)%nat → fwrite_socket bs o = (w, o') →
         ∃ f', server_protocol fuel c
           = Done (if bool_decide (w = strlen bs) then RET_OK else RET_ERR,
                   Conn (InStream rest e) o' f') ∧
           (w = strlen bs → file_ready (n - strlen pre) f' (log_put a pre))
     end).
Proof. apply seek_run. Qed.

(** The device of [wrapped_driver]: its ring is full and has wrapped. *)
Definition wrapped_file : FILE device := File (Device wrapped_driver 0) [] [] false false false.

Lemma wrapped_file_ready : file_ready (A := spec) 1000 wrapped_file wrapped_spec.
Proof.
  split; [done..|]. split; [apply wrapped_rep|]. split; [|split]; by vm_compute.
Qed.

(** A command for the fifth command, within the array, and one for the tenth. *)
Lemma seek_served_witness :
  let c cmd := Conn (InStream ([] ++ text cmd ++ NL :: text "rest") Eof) nothing_sent wrapped_file in
  (∃ f', server_protocol 100 (c "AESDCHAR_IOCSEEKTO:4,1")
    = Done (RET_OK, Conn (InStream (text "rest") Eof)
        (OutStream (drop 17 (log_bytes (A := spec) wrapped_spec)) None) f') ∧
    file_ready (A := spec) (1000 - strlen []) f' wrapped_spec) ∧
  server_protocol 100 (c "AESDCHAR_IOCSEEKTO:9,0") = Undef.
Proof.
  assert (Hnil : NL ∉ @nil ascii) by apply not_elem_of_nil.
  assert (Hp : plain []) by by apply plain_check.
  split.
  - destruct (@seek_served device spec _ _ 1000 wrapped_spec nothing_sent wrapped_file []
      (text "AESDCHAR_IOCSEEKTO:4,1") 4 1 (text "rest") Eof 100 0 wrapped_file_ready eq_refl Hnil Hp)
      as (f1 & _ & Hf & _ & Hs); [done| | | |done|lia|].
    + by apply (bool_decide_unpack (NL ∉ text "AESDCHAR_IOCSEEKTO:4,1")).
    + by apply (bool_decide_unpack (NUL ∉ text "AESDCHAR_IOCSEEKTO:4,1")).
    + by apply (bool_decide_unpack (length (text "AESDCHAR_IOCSEEKTO:4,1") < 255)%nat).
    + rewrite (Hf eq_refl) in Hs. specialize (Hs ltac:(by vm_compute)).
      change (log_seek (log_put (A := spec) wrapped_spec []) 4 1) with (Some 17%nat) in Hs.
      destruct (Hs (strlen (drop 17 (log_bytes (A := spec) wrapped_spec)))
        (OutStream (drop 17 (log_bytes (A := spec) wrapped_spec)) None)) as (f' & Hrun & Hok).
      * by apply (bool_decide_unpack (NUL ∉ drop 17 (log_bytes (A := spec) wrapped_spec))).
      * by apply (bool_decide_unpack (length (drop 17 (log_bytes (A := spec) wrapped_spec)) < 100)%nat).
      * done.
      * exists f'. split; [|by apply Hok]. by rewrite Hrun.
  - destruct (@seek_served device spec _ _ 1000 wrapped_spec nothing_sent wrapped_file []
      (text "AESDCHAR_IOCSEEKTO:9,0") 9 0 (text "rest") Eof 100 0 wrapped_file_ready eq_refl Hnil Hp)
      as (f1 & _ & Hf & Hu & _); [done| | | |done|lia|].
    + by apply (bool_decide_unpack (NL ∉ text "AESDCHAR_IOCSEEKTO:9,0")).
    + by apply (bool_decide_unpack (NUL ∉ text "AESDCHAR_IOCSEEKTO:9,0")).
    + by apply (bool_decide_unpack (length (text "AESDCHAR_IOCSEEKTO:9,0") < 255)%nat).
    + apply Hu. rewrite (Hf eq_refl). intros Hs. vm_compute in Hs. by specialize (Hs eq_refl).
Defined.

(** A command AESDCHAR_IOCSEEKTO:X,Y with decimal X and Y is parsed to
    their values, which [strtol] limits to [LONG_MAX] and the conversions to
    [int] and [uint32_t] reduce modulo 2^32; below 2^32 they are X and Y
    themselves. *)
Lemma seek_command_digits xs ys t :
  xs ≠ [] → ys ≠ [] → Forall is_digit xs → Forall is_digit ys → ends_number t →
  seek_command (seek_prefix ++ xs ++ COMMA :: ys ++ t)
  = Some (Z.min LONG_MAX (value 0 xs) mod 2 ^ 32, Z.min LONG_MAX (value 0 ys) mod 2 ^ 32) ∧
  (value 0 xs < 2 ^ 32 → value 0 ys < 2 ^ 32 →
   seek_command (seek_prefix ++ xs ++ COMMA :: ys ++ t) = Some (value 0 xs, value 0 ys)).
Proof.
  intros Hx Hy Hxs Hys Ht.
  assert (seek_command (seek_prefix ++ xs ++ COMMA :: ys ++ t)
    = Some (Z.min LONG_MAX (value 0 xs) mod 2 ^ 32, Z.min LONG_MAX (value 0 ys) mod 2 ^ 32)) as H.
  { unfold seek_command. rewrite take_app_length, drop_app_length, <- drop_drop, drop_app_length.
    rewrite !bool_decide_true; [|..].
    - cbn [andb]. rewrite strtol_digits by done. cbn beta iota. rewrite bool_decide_true by done.
      rewrite strtol_digits by done. by rewrite !u32_s32.
    - destruct xs as [|c xs]; [done|]. simpl. rewrite drop_0. set_solver.
    - rewrite length_app, length_app. simpl. lia.
    - done. }
  split; [done|]. intros Hvx Hvy. rewrite H.
  pose proof (value_nonneg xs 0). pose proof (value_nonneg ys 0). unfold LONG_MAX.
  rewrite !Z.min_r by lia. by rewrite !Z.mod_small by lia.
Qed.

Lemma seek_command_digits_witness :
  value 0 (text "4294967298") = 2 ^ 32 + 2 ∧
  seek_command (seek_prefix ++ text "4294967298" ++ COMMA :: text "12" ++ [NL])
  = Some (Z.min LONG_MAX (value 0 (text "4294967298")) mod 2 ^ 32,
          Z.min LONG_MAX (value 0 (text "12")) mod 2 ^ 32) ∧
  (value 0 (text "4294967298") < 2 ^ 32 → value 0 (text "12") < 2 ^ 32 →
   seek_command (seek_prefix ++ text "4294967298" ++ COMMA :: text "12" ++ [NL])
   = Some (value 0 (text "4294967298"), value 0 (text "12"))).
Proof.
  split; [done|].
  apply (seek_command_digits (text "4294967298") (text "12") [NL]); [done|done| | |done];
    repeat constructor.
Defined.

(** ** What goes wrong *)

(** C38: text that ends without a newline (no NUL in it, no buffer of it a seek
    command) gets no reply and [RET_ERR], but at the end of file its bytes have
    been stored all the same; on a read error only the full buffers have. *)
Theorem missing_newline {D A} `{LD : LogDevice D A} n a o f u e fuel :
  file_ready n f a → NL ∉ u → plain u → strlen u ≤ n → (S (length u) < fuel)%nat →
  let stored := match e with
                | Eof => u
                | Error => take (255 * (length u / 255)) u
                end in
  ∃ f', server_protocol fuel (Conn (InStream u e) o f)
        = Done (RET_ERR, Conn (InStream [] e) o f') ∧
    file_ready (n - strlen stored) f' (log_put a stored).
Proof. apply missing_run. Qed.

Lemma missing_newline_witness :
  ∃ f', server_protocol 400 (Conn (InStream long_line Error) nothing_sent sample_file)
        = Done (RET_ERR, Conn (InStream [] Error) nothing_sent f') ∧
    file_ready (1000 - strlen (take (255 * (length long_line / 255)) long_line)) f'
      (log_put old_log (take (255 * (length long_line / 255)) long_line)).
Proof.
  apply (@missing_newline regular (list ascii) _ _ 1000 old_log nothing_sent sample_file
    long_line Error 400).
  - apply sample_ready.
  - by apply (bool_decide_unpack (NL ∉ long_line)).
  - by apply plain_check.
  - by vm_compute.
  - by apply (bool_decide_unpack (S (length long_line) < 400)%nat).
Defined.

(** A line (or a long line's next buffer) that starts with a NUL byte makes
    the server read the array before its start: undefined behaviour. *)
Lemma nul_undefined {D A} `{LD : LogDevice D A} n a o f pre t fuel k :
  file_ready n f a → length pre = (255 * k)%nat → NL ∉ pre → plain pre → strlen pre ≤ n →
  (k < fuel)%nat →
  server_protocol fuel (Conn (InStream (pre ++ NUL :: t) Eof) o f) = Undef.
Proof.
  intros Hf Hk Hnl Hpl Hn Hfuel.
  destruct (receive_long k n a _ o f pre (NUL :: t) Eof (S (fuel - S k))
    Hf eq_refl Hk Hnl Hpl Hn) as (f1 & Hgo & Hf1).
  replace (k + S (fuel - S k))%nat with fuel in Hgo by lia.
  unfold server_protocol. apply M_bind_Undef. rewrite Hgo. apply forever_undef. clear Hgo.
  destruct (fgets_take 254 t) as [[chunk rest] hit] eqn:Ht.
  assert (Hread : read_socket BUFFER_SIZE (Conn (InStream (NUL :: t) Eof) o f1)
    = Done (Some (NUL :: chunk), Conn (InStream rest Eof) o f1)).
  { unfold read_socket, fgets. simpl unread. change (Z.to_nat (BUFFER_SIZE - 1)) with (S 254).
    rewrite fgets_take_cons, Ht by done. by destruct hit. }
  unfold receive_body. rewrite (M_bind_Done _ _ _ _ _ Hread).
  cbn beta iota zeta. change (cstring (NUL :: chunk)) with (@nil ascii).
  change (seek_command []) with (@None (Z * Z)). cbn beta iota.
  destruct (put_law _ _ _ [] Hf1) as (f2 & f3 & Hw & Hfl & _).
  { done. }
  { change (strlen []) with 0. lia. }
  rewrite (M_bind_Done _ _ _ _ _ (on_file_Done _ _ _ _ _ _ Hw)).
  rewrite bool_decide_false by (by intros []).
  by rewrite (M_bind_Done _ _ _ _ _ (on_file_Done _ _ _ _ _ _ Hfl)).
Qed.

Lemma nul_undefined_witness :
  server_protocol 10
    (Conn (InStream ([] ++ NUL :: text "x") Eof) nothing_sent sample_file) = Undef.
Proof.
  apply (@nul_undefined regular (list ascii) _ _ 1000 old_log nothing_sent sample_file []
    (text "x") 10 0).
  - apply sample_ready.
  - done.
  - by apply (bool_decide_unpack (NL ∉ [])).
  - by apply plain_check.
  - done.
  - lia.
Defined.

(** C24: when a client's stream does not take the whole reply to a line, the
    output file is left in the middle of being read, and the next write to it is
    undefined behaviour, the next client's whatever line it sends and the clock's
    as well: no positioning function is called between the input and the
    output. *)
Theorem hangup_undefined {D A} `{LD : LogDevice D A} n a o f line rest e fuel w o' :
  file_ready n f a → NL ∉ line → plain (line ++ [NL]) → strlen (line ++ [NL]) ≤ n →
  let a' := log_put a (line ++ [NL]) in
  NUL ∉ log_bytes a' → last (log_bytes a') = Some NL →
  (length line < fuel)%nat → (length (log_bytes a') < fuel)%nat →
  fwrite_socket (log_bytes a') o = (w, o') → w ≠ strlen (log_bytes a') →
  ∃ f', server_protocol fuel (Conn (InStream (line ++ NL :: rest) e) o f)
        = Done (RET_ERR, Conn (InStream rest e) o' f') ∧
    (∀ i2 o2 chunk i2' fuel2,
      fgets BUFFER_SIZE i2 = (Some chunk, i2') → seek_command (cstring chunk) = None →
      server_protocol (S fuel2) (Conn i2 o2 f') = Undef) ∧
    ∀ time, tick_run time f' = Undef.
Proof.
  intros Hf Hnl Hpl Hn a' Hnul Hlast Hf1 Hf2 Hw Hne.
  destruct (line_run n a o f line rest e fuel w o') as (f' & Hs & _ & Hbad); try done.
  destruct (Hbad Hne Hlast) as [Hr He].
  assert (Hwr : ∀ l, fwrite l f' = Undef) by (intros l; unfold fwrite; run; by rewrite Hr, He).
  exists f'. rewrite bool_decide_false in Hs by done. split; [done|].
  split; [|by intros time; apply M_bind_Undef].
  intros i2 o2 chunk i2' fuel2 Hg Hseek.
  apply M_bind_Undef, forever_undef. unfold receive_body.
  rewrite (M_bind_Done _ _ _ (Some chunk) (Conn i2' o2 f')).
  2:{ unfold read_socket. simpl. by rewrite Hg. }
  cbn beta iota zeta. rewrite Hseek. apply M_bind_Undef. unfold on_file. simpl. by rewrite Hwr.
Qed.

Lemma hangup_undefined_witness :
  let a' := log_put old_log (text "new" ++ [NL]) in
  ∃ f', server_protocol 100
      (Conn (InStream (text "new" ++ NL :: []) Eof) (OutStream [] (Some 2%nat)) sample_file)
    = Done (RET_ERR, Conn (InStream [] Eof) (OutStream (take 2 (log_bytes a')) (Some 0%nat)) f') ∧
    (∀ i2 o2 chunk i2' fuel2,
      fgets BUFFER_SIZE i2 = (Some chunk, i2') → seek_command (cstring chunk) = None →
      server_protocol (S fuel2) (Conn i2 o2 f') = Undef) ∧
    ∀ time, tick_run time f' = Undef.
Proof.
  apply (@hangup_undefined regular (list ascii) _ _ 1000 old_log (OutStream [] (Some 2%nat))
    sample_file (text "new") [] Eof 100 2).
  - apply sample_ready.
  - by apply (bool_decide_unpack (NL ∉ text "new")).
  - by apply plain_check.
  - by vm_compute.
  - by apply (bool_decide_unpack (NUL ∉ old_log ++ text "new" ++ [NL])).
  - done.
  - by apply (bool_decide_unpack (length (text "new") < 100)%nat).
  - by apply (bool_decide_unpack (length (old_log ++ text "new" ++ [NL]) < 100)%nat).
  - done.
  - done.
Defined.

(** A full disk takes nothing, and the flush forgets the bytes. *)
Lemma fflush_full c f :
  file_bytes (fd f) = c → file_offset (fd f) = length c → disk (fd f) = 0%nat → wbuf f ≠ [] →
  fflush f = Done (-1, File (fd f) [] (rbuf f) (eof f) true (reading f)).
Proof.
  destruct f as [[b p k] w r e er rd]. simpl. intros -> -> -> Hne.
  unfold fflush. run. cbn [wbuf fd].
  rewrite (M_bind_Done _ _ _ false (File (Regular c (length c) 0) w r e er rd)).
  - run. simpl. by rewrite orb_true_r.
  - unfold on_fd. cbn [fd]. destruct w as [|x w]; [done|]. cbn [write_all].
    rewrite (M_bind_Done _ _ _ (-1) (Regular c (length c) 0)); [done|].
    simpl. unfold regular_write. simpl. rewrite Nat.sub_diag. simpl.
    done.
Qed.

(** C39: when the disk is full a line that fits into one buffer is lost, because
    the result of [fflush] is ignored, and a client that takes its reply gets the
    old contents with the result [RET_OK]. *)
Theorem full_disk_unnoticed c o f line rest e fuel :
  file_ready 0 f c → disk (fd f) = 0%nat → NL ∉ line → plain (line ++ [NL]) →
  (length line < 255)%nat → NUL ∉ c → (length c < fuel)%nat → room o = None →
  ∃ f', server_protocol fuel (Conn (InStream (line ++ NL :: rest) e) o f)
    = Done (RET_OK, Conn (InStream rest e) (OutStream (sent o ++ c) None) f') ∧
    file_ready 0 f' c.
Proof.
  intros Hf Hdisk Hnl Hpl Hlen Hnul Hfuel Hroom. destruct fuel as [|fuel]; [lia|].
  assert (Hl : strlen (line ++ [NL]) ≤ BUFSIZ).
  { unfold strlen, BUFSIZ. rewrite length_app. simpl. lia. }
  pose proof (fwrite_ready _ _ _ _ Hf Hl) as Hw. destruct Hf as [_ _ _ (Hc & Ho & Hle & Hd)].
  set (f1 := File (fd f) (line ++ [NL]) [] (eof f) (err f) false) in *.
  pose proof (fflush_full c f1 Hc Ho Hdisk ltac:(by destruct line)) as Hfl.
  set (f2 := File (fd f1) [] (rbuf f1) (eof f1) true (reading f1)) in *.
  assert (Hf2 : file_ready 0 f2 c) by (split; [done..|]; by split).
  assert (Hbody : receive_body (Conn (InStream (line ++ NL :: rest) e) o f)
    = Done (Some (Next false), Conn (InStream rest e) o f2)).
  { unfold receive_body.
    rewrite (M_bind_Done _ _ _ (Some (line ++ [NL])) (Conn (InStream rest e) o f)).
    2:{ unfold read_socket, fgets. simpl unread. change (Z.to_nat (BUFFER_SIZE - 1)) with 255%nat.
        by rewrite fgets_take_line. }
    cbn beta iota zeta. rewrite cstring_id by apply Hpl.
    pose proof (plain_first _ Hpl) as Hseek.
    rewrite take_ge in Hseek by (rewrite length_app; simpl; lia).
    rewrite Hseek, (M_bind_Done _ _ _ _ _ (on_file_Done _ _ _ _ _ _ Hw)).
    rewrite bool_decide_false by (by intros []).
    rewrite (M_bind_Done _ _ _ _ _ (on_file_Done _ _ _ _ _ _ Hfl)).
    rewrite (M_bind_lift _ _ _ NL); [done|].
    apply array_get_Some; [unfold strlen; rewrite length_app; simpl; lia|].
    unfold strlen. rewrite length_app, lookup_app_r by (simpl; lia).
    replace (Z.to_nat _ - _)%nat with 0%nat by (simpl; lia). done. }
  destruct (rewind_law _ _ _ Hf2) as (f3 & Hrw & Hf3 & He3).
  destruct (send_file_run _ _ (InStream rest e) o f3 c (S fuel) (strlen c)
    (OutStream (sent o ++ c) None) Hf3 He3 Hnul Hfuel) as (f' & Hs & Hok & _).
  { unfold fwrite_socket. by rewrite Hroom. }
  exists f'. split; [|by apply Hok]. unfold server_protocol.
  rewrite (M_bind_Done _ _ _ _ _ (forever_exit _ _ _ _ _ Hbody)). cbn beta iota.
  unfold position_file. rewrite (M_bind_Done _ _ _ _ _ (on_file_Done _ _ _ _ _ _ Hrw)), Hs.
  by rewrite bool_decide_true.
Qed.

Lemma full_disk_unnoticed_witness :
  ∃ f', server_protocol 100 (Conn (InStream (text "lost" ++ NL :: []) Eof) nothing_sent
      (opened (Regular old_log 4 0)))
    = Done (RET_OK, Conn (InStream [] Eof) (OutStream ([] ++ old_log) None) f') ∧
    file_ready 0 f' old_log.
Proof.
  apply (full_disk_unnoticed old_log nothing_sent (opened (Regular old_log 4 0)) (text "lost")
    [] Eof 100).
  - by apply (opened_ready 0).
  - done.
  - by apply (bool_decide_unpack (NL ∉ text "lost")).
  - by apply plain_check.
  - by apply (bool_decide_unpack (length (text "lost") < 255)%nat).
  - by apply (bool_decide_unpack (NUL ∉ old_log)).
  - by apply (bool_decide_unpack (length old_log < 100)%nat).
  - done.
Defined.
