(* ===== verification/Interleaving.v ===== *)
(** * Calls that run step by step and interleave

    Several threads run the operations of one component at the same time: the
    kernel those of the driver, the server's threads those on the output file.  A
    [prog] is the code of a call as a tree of atomic actions on the shared state.
    [implements]: run alone it does what a definition of the sequential model
    does.  The section [Discipline] says what code does to the state: work under
    a mutex until its last action ([critical]) or only read ([reads]). *)

From S2P Require Import Prelude.
From Stdlib Require Import FunctionalExtensionality.

(** ** Programs

    [Act act k]: the action [act] on the state, then [k] of its result; [None]
    means that the thread has to wait.  [DoWhile body cond x k]: the C loop, with
    no bound on its rounds. *)
Inductive prog (S A : Type) : Type :=
| Ret (a : A)
| Act {B : Type} (act : S → option (outcome (B * S))) (k : B → prog S A)
| DoWhile {X R : Type} (body : X → prog S (flow X R)) (cond : X → prog S bool) (x : X)
    (k : flow X R → prog S A).
Arguments Ret {S A} a.
Arguments Act {S A B} act k.
Arguments DoWhile {S A X R} body cond x k.

#[export] Instance prog_ret {S} : MRet (prog S) := λ A, Ret.

Fixpoint prog_binder {S A B} (f : A → prog S B) (p : prog S A) : prog S B :=
  match p with
  | Ret a => f a
  | Act act k => Act act (λ b, prog_binder f (k b))
  | DoWhile body cond x k => DoWhile body cond x (λ o, prog_binder f (k o))
  end.

#[export] Instance prog_bind {S} : MBind (prog S) := @prog_binder S.

(** One atomic action that does not wait. *)
Definition atomic {S A} (m : M S A) : prog S A := Act (λ s, Some (m s)) Ret.

Definition do_while_p {S X R} (body : X → prog S (flow X R)) (cond : X → prog S bool) (x : X)
    : prog S (flow X R) := DoWhile body cond x Ret.

(** The next action of a program. *)
Definition step {S A} (p : prog S A) (s : S) : option (outcome (prog S A * S)) :=
  match p with
  | Ret _ => None
  | Act act k =>
      match act s with
      | Some (Done (b, s')) => Some (Done (k b, s'))
      | Some Undef => Some Undef
      | Some NoFuel => Some NoFuel
      | None => None
      end
  | DoWhile body cond x k =>
      Some (Done
        (o ← body x;
         match o with
         | Return r => k (Return r)
         | Next x' => c ← cond x'; if c : bool then DoWhile body cond x' k else k (Next x')
         end, s))
  end.

(** ** A program that runs alone *)
Inductive alone {S A} : prog S A → S → outcome (A * S) → Prop :=
| alone_ret a s : alone (Ret a) s (Done (a, s))
| alone_step p s p' s' o : step p s = Some (Done (p', s')) → alone p' s' o → alone p s o
| alone_undef p s : step p s = Some Undef → alone p s Undef.

Lemma alone_ret_inv {S A} (a : A) (s : S) o : alone (Ret a) s o → o = Done (a, s).
Proof. inversion 1; by simplify_eq/=. Qed.

Lemma alone_step_inv {S A} (p : prog S A) s p' s' o :
  step p s = Some (Done (p', s')) → alone p s o → alone p' s' o.
Proof. intros Hs Ha. destruct Ha; simplify_eq/=; congruence. Qed.

Lemma alone_unique {S A} (p : prog S A) s o1 o2 : alone p s o1 → alone p s o2 → o1 = o2.
Proof.
  intros H1. revert o2. induction H1 as [a s|p s p' s' o Hs H IH|p s Hs]; intros o2 H2.
  - by apply alone_ret_inv in H2.
  - by eapply IH, alone_step_inv.
  - destruct H2; simplify_eq/=; congruence.
Qed.

(** ** Binding *)

Lemma prog_bind_assoc {S A B C} (p : prog S A) (f : A → prog S B) (g : B → prog S C) :
  (p ≫= f) ≫= g = p ≫= (λ a, f a ≫= g).
Proof.
  unfold mbind, prog_bind.
  induction p as [A a|A Y act k IH|A X R body IHb cond IHc x k IH]; simpl; [done|..];
    f_equal; apply functional_extensionality; intros; apply IH.
Qed.

(** A step of a bound program is a step of its first part. *)
Lemma step_bind {S A B} (p : prog S A) (f : A → prog S B) s :
  (∀ a, p ≠ Ret a) →
  step (p ≫= f) s
  = match step p s with
    | Some (Done (p', s')) => Some (Done (p' ≫= f, s'))
    | Some Undef => Some Undef
    | Some NoFuel => Some NoFuel
    | None => None
    end.
Proof.
  destruct p as [a|Y act k|X R body cond x k]; intros Hp; [by destruct (Hp a)| |]; simpl.
  - by destruct (act s) as [[[b s']| |]|].
  - do 3 f_equal. rewrite prog_bind_assoc. unfold mbind at 1 3, prog_bind. f_equal.
    apply functional_extensionality. intros [x'|r]; [|done].
    rewrite prog_bind_assoc. unfold mbind at 1 3, prog_bind. f_equal.
    by apply functional_extensionality; intros [].
Qed.

Lemma ret_dec {S A} (p : prog S A) : (∃ a, p = Ret a) ∨ ∀ a, p ≠ Ret a.
Proof. destruct p; [by left; eexists|right; done..]. Qed.

Lemma alone_bind {S A B} (p : prog S A) (f : A → prog S B) s a s' o :
  alone p s (Done (a, s')) → alone (f a) s' o → alone (p ≫= f) s o.
Proof.
  intros Hp Hf. remember (Done (a, s')) as o1 eqn:E. revert a s' E Hf.
  induction Hp as [a0 s|p s p1 s1 o1 Hs Hp IH|p s Hs]; intros a s' E Hf; simplify_eq; [done|].
  apply (alone_step _ _ (p1 ≫= f) s1); [|by eapply IH].
  rewrite step_bind, Hs; [done|]. intros a' ->. done.
Qed.

Lemma alone_bind_undef {S A B} (p : prog S A) (f : A → prog S B) s :
  alone p s Undef → alone (p ≫= f) s Undef.
Proof.
  intros Hp. remember Undef as o eqn:E in Hp.
  induction Hp as [a s|p s p1 s1 o1 Hs Hp IH|p s Hs]; [done|..].
  - apply (alone_step _ _ (p1 ≫= f) s1); [|by apply IH].
    rewrite step_bind, Hs; [done|]. intros a' ->. done.
  - apply alone_undef. rewrite step_bind, Hs; [done|]. intros a' ->. done.
Qed.

(** ** Stepwise code that does what a definition of the sequential model does *)
Definition implements {S A} (p : prog S A) (m : M S A) : Prop :=
  ∀ s, m s ≠ NoFuel → alone p s (m s).

Create HintDb implements.

Lemma implements_ret {S A} (a : A) : implements (mret a : prog S A) (mret a).
Proof. intros s _. constructor. Qed.

Lemma implements_atomic {S A} (m : M S A) : implements (atomic m) m.
Proof.
  intros s Hm. destruct (m s) as [[a s']| |] eqn:E; [|by apply alone_undef; simpl; rewrite E|done].
  apply (alone_step _ _ (Ret a) s'); [simpl; by rewrite E|constructor].
Qed.

Lemma alone_atomic {S A} (m : M S A) s a s' :
  m s = Done (a, s') → alone (atomic m) s (Done (a, s')).
Proof. intros Hm. pose proof (implements_atomic m s) as Ha. rewrite Hm in Ha. by apply Ha. Qed.

Lemma alone_atomic_bind {S A B} (m : M S A) (f : A → prog S B) s a s' o :
  m s = Done (a, s') → alone (f a) s' o → alone (atomic m ≫= f) s o.
Proof. intros Hm. by apply alone_bind, alone_atomic. Qed.

Lemma alone_atomic_undef {S A B} (m : M S A) (f : A → prog S B) s :
  m s = Undef → alone (atomic m ≫= f) s Undef.
Proof.
  intros Hm. apply alone_bind_undef. pose proof (implements_atomic m s) as Ha.
  rewrite Hm in Ha. by apply Ha.
Qed.

Lemma implements_bind {S A B} (p : prog S A) (m : M S A) (f : A → prog S B) (g : A → M S B) :
  implements p m → (∀ a, implements (f a) (g a)) → implements (p ≫= f) (m ≫= g).
Proof.
  intros Hp Hf s Hm. unfold mbind, M_bind in Hm |- *. specialize (Hp s).
  destruct (m s) as [[a s']| |] eqn:E; [|by apply alone_bind_undef, Hp|done].
  eapply alone_bind; [by apply Hp|by apply Hf].
Qed.

Lemma implements_if {S A} (b : bool) (p1 p2 : prog S A) m1 m2 :
  implements p1 m1 → implements p2 m2 →
  implements (if b then p1 else p2) (if b then m1 else m2).
Proof. by destruct b. Qed.

(** Actions that bind to what the sequential code does at once. *)
Lemma implements_ext {S A} (p : prog S A) (m1 m2 : M S A) :
  implements p m1 → (∀ s, m1 s = m2 s) → implements p m2.
Proof. intros Hp Hm s. rewrite <- Hm. apply Hp. Qed.

#[export] Hint Extern 0 (implements (mret _) _) => apply implements_ret : implements.
#[export] Hint Extern 0 (implements (atomic _) _) => apply implements_atomic : implements.

(** A loop over a state it does not change does what the sequential loop does. *)
Lemma alone_do_while {S X R} (s : S) (body : X → prog S (flow X R)) (cond : X → prog S bool)
    (body' : X → outcome (flow X R)) (cond' : X → bool) fuel x :
  (∀ x, body' x ≠ NoFuel → alone (body x) s (o ← body' x; Done (o, s))) →
  (∀ x, alone (cond x) s (Done (cond' x, s))) →
  do_while fuel body' cond' x ≠ NoFuel →
  alone (do_while_p body cond x) s (o ← do_while fuel body' cond' x; Done (o, s)).
Proof.
  intros Hb Hc. revert x. induction fuel as [|fuel IH]; intros x Hf; [done|].
  eapply alone_step; [done|]. simpl in *. specialize (Hb x).
  destruct (body' x) as [[x'|r]| |]; simpl in *.
  - eapply alone_bind; [by apply Hb|]. eapply alone_bind; [apply Hc|].
    destruct (cond' x'); [by apply IH|constructor].
  - eapply alone_bind; [by apply Hb|]. constructor.
  - by apply alone_bind_undef, Hb.
  - done.
Qed.

(** ** What code gives when it ends

    [attains p m]: whatever [p] gives alone, [m] gives it with enough fuel. *)
Definition attains {S A} (p : prog S A) (m : nat → M S A) : Prop :=
  ∀ s o, alone p s o → ∃ N, ∀ fuel, (N ≤ fuel)%nat → m fuel s = o.

(** [alone] in at most [n] steps. *)
Inductive alone_in {S A} : nat → prog S A → S → outcome (A * S) → Prop :=
| in_ret n a s : alone_in n (Ret a) s (Done (a, s))
| in_step n p s p' s' o :
    step p s = Some (Done (p', s')) → alone_in n p' s' o → alone_in (Datatypes.S n) p s o
| in_undef n p s : step p s = Some Undef → alone_in n p s Undef.

Lemma alone_in_some {S A} (p : prog S A) s o : alone p s o → ∃ n, alone_in n p s o.
Proof.
  induction 1 as [a s|p s p' s' o Hs _ [n IH]|p s Hs].
  - exists 0%nat. constructor.
  - exists (Datatypes.S n). by eapply in_step.
  - exists 0%nat. by apply in_undef.
Qed.

Lemma alone_in_alone {S A} n (p : prog S A) s o : alone_in n p s o → alone p s o.
Proof. induction 1; [constructor|by eapply alone_step|by apply alone_undef]. Qed.

Lemma alone_in_le {S A} n m (p : prog S A) s o : alone_in n p s o → (n ≤ m)%nat → alone_in m p s o.
Proof.
  intros H1. revert m. induction H1 as [n a s|n p s p' s' o Hs _ IH|n p s Hs]; intros m Hm.
  - constructor.
  - destruct m as [|m]; [lia|]. eapply in_step; [done|]. apply IH. lia.
  - by apply in_undef.
Qed.

(** A bound program that ends: its first part does. *)
Lemma alone_in_bind_inv {S A B} n (p : prog S A) (f : A → prog S B) s o :
  alone_in n (p ≫= f) s o →
  (∃ a s1, alone p s (Done (a, s1)) ∧ alone_in n (f a) s1 o) ∨ (o = Undef ∧ alone p s Undef).
Proof.
  revert p s. induction n as [|n IH]; intros p s Hp;
    (destruct (ret_dec p) as [[a ->]|Hr]; [left; exists a, s; split; [constructor|exact Hp]|]).
  - pose proof (step_bind p f s Hr) as Hs. inversion Hp as [? b|?|? ? ? Hu]; simplify_eq.
    + by destruct p; [destruct (Hr a)|..].
    + rewrite Hs in Hu. right. split; [done|]. apply alone_undef.
      by destruct (step p s) as [[[? ?]| |]|].
  - pose proof (step_bind p f s Hr) as Hs. inversion Hp as [? b|? ? ? p1 s1 ? Hs1 Ha|? ? ? Hu]; simplify_eq.
    + by destruct p; [destruct (Hr a)|..].
    + rewrite Hs in Hs1. destruct (step p s) as [[[p2 s2]| |]|] eqn:Hst; simplify_eq.
      destruct (IH p2 s1 Ha) as [(a & s3 & H1 & H2)|[-> Hu]].
      * left. exists a, s3. split; [by eapply alone_step|]. eapply alone_in_le; [done|lia].
      * right. split; [done|]. by eapply alone_step.
    + rewrite Hs in Hu. right. split; [done|]. apply alone_undef.
      by destruct (step p s) as [[[? ?]| |]|].
Qed.

Lemma alone_bind_inv {S A B} (p : prog S A) (f : A → prog S B) s o :
  alone (p ≫= f) s o →
  (∃ a s1, alone p s (Done (a, s1)) ∧ alone (f a) s1 o) ∨ (o = Undef ∧ alone p s Undef).
Proof.
  intros [n Hn]%alone_in_some. destruct (alone_in_bind_inv _ _ _ _ _ Hn) as [(a & s1 & H1 & H2)|?]; [left|by right].
  exists a, s1. split; [done|by eapply alone_in_alone].
Qed.

Lemma attains_ret {S A} (a : A) : attains (mret a : prog S A) (λ _, mret a).
Proof. intros s o ->%alone_ret_inv. by exists 0%nat. Qed.

Lemma attains_atomic {S A} (m : M S A) : attains (atomic m) (λ _, m).
Proof.
  intros s o Ho. exists 0%nat. intros _ _.
  inversion Ho as [?|? ? p' s' ? Hs Ha|? ? Hs]; simplify_eq/=.
  - destruct (m s) as [[a s1]| |]; simplify_eq. by apply alone_ret_inv in Ha.
  - by destruct (m s) as [[a s1]| |]; simplify_eq.
Qed.

Lemma attains_bind {S A B} (p : prog S A) (m : nat → M S A) (f : A → prog S B) (g : nat → A → M S B) :
  attains p m → (∀ a, attains (f a) (λ n, g n a)) → attains (p ≫= f) (λ n, m n ≫= g n).
Proof.
  intros Hp Hf s o Ho. destruct (alone_bind_inv _ _ _ _ Ho) as [(a & s1 & H1 & H2)|[-> Hu]].
  - destruct (Hp _ _ H1) as [N1 HN1]. destruct (Hf _ _ _ H2) as [N2 HN2]. exists (N1 + N2)%nat.
    intros n Hn. unfold mbind, M_bind. rewrite HN1 by lia. apply HN2. lia.
  - destruct (Hp _ _ Hu) as [N HN]. exists N. intros n Hn. unfold mbind, M_bind. by rewrite HN.
Qed.

Lemma attains_ext {S A} (p : prog S A) (m1 m2 : nat → M S A) :
  attains p m1 → (∀ n s, m1 n s = m2 n s) → attains p m2.
Proof. intros Hp Hm s o Ho. destruct (Hp s o Ho) as [N HN]. exists N. intros n Hn. rewrite <- Hm. by apply HN. Qed.

(** ** What holds of every action of a program *)
Section Every.
Context {S : Type} (P : ∀ B, (S → option (outcome (B * S))) → Prop).

Fixpoint every {A} (p : prog S A) : Prop :=
  match p with
  | Ret _ => True
  | Act act k => P _ act ∧ ∀ b, every (k b)
  | DoWhile body cond x k => (∀ x, every (body x)) ∧ (∀ x, every (cond x)) ∧ ∀ o, every (k o)
  end.

Lemma every_bind {A B} (p : prog S A) (f : A → prog S B) :
  every p → (∀ a, every (f a)) → every (p ≫= f).
Proof.
  unfold mbind, prog_bind. induction p as [A a|A Y act k IH|A X R body _ cond _ x k IH]; simpl; [eauto|..].
  - intros [Ha Hk] Hf. split; [done|]. intros b. by apply IH.
  - intros (Hb & Hc & Hk) Hf. split; [done|]. split; [done|]. intros o. by apply IH.
Qed.

Lemma every_step {A} (p : prog S A) s p' s' :
  every p → step p s = Some (Done (p', s')) → every p'.
Proof.
  destruct p as [a|Y act k|X R body cond x k]; simpl; [done| |].
  - intros [_ Hk]. destruct (act s) as [[[b s1]| |]|]; [|done..]. by intros [= <- _].
  - intros (Hb & Hc & Hk) [= <- _]. apply every_bind; [done|]. intros [x'|r]; [|done].
    apply every_bind; [done|]. by intros [].
Qed.
End Every.

(** ** What a program does to the state *)
Section Discipline.
Context {S : Type} (held : S → bool) (stable : S → Prop).

(** Code between taking the mutex and releasing it: it never waits, keeps the
    mutex and what always holds of the state. *)
Definition keeps {B} (act : S → option (outcome (B * S))) : Prop :=
  (∀ s, act s ≠ None) ∧
  ∀ s b s', act s = Some (Done (b, s')) → held s' = held s ∧ (stable s → stable s').

Fixpoint inside {A} (p : prog S A) : Prop :=
  match p with
  | Ret _ => True
  | Act act k => keeps act ∧ ∀ b, inside (k b)
  | DoWhile body cond x k =>
      (∀ x, inside (body x)) ∧ (∀ x, inside (cond x)) ∧ ∀ o, inside (k o)
  end.

(** The action that releases the mutex. *)
Definition releases {B} (act : S → option (outcome (B * S))) : Prop :=
  (∀ s, act s ≠ None) ∧
  ∀ s b s', act s = Some (Done (b, s')) → held s' = false ∧ (stable s → stable s').

(** Code that holds the mutex until its last action, which releases it. *)
Fixpoint critical {A} (p : prog S A) : Prop :=
  match p with
  | Act act k =>
      (keeps act ∧ ∀ b, critical (k b)) ∨ (releases act ∧ ∀ b, ∃ a, k b = Ret a)
  | DoWhile body cond x k =>
      (∀ x, inside (body x)) ∧ (∀ x, inside (cond x)) ∧ ∀ o, critical (k o)
  | Ret _ => False
  end.

(** Code that only reads: it neither waits nor changes the state, it is undefined
    only if [u], and it returns a value with [Q].  A loop has an invariant, and
    ends when the state stays as it is. *)
Fixpoint reads {A} (u : Prop) (p : prog S A) (Q : A → Prop) : Prop :=
  match p with
  | Ret a => Q a
  | Act act k =>
      ∀ s, stable s →
        match act s with
        | Some (Done (b, s')) => s' = s ∧ reads u (k b) Q
        | Some Undef => u
        | _ => False
        end
  | @DoWhile _ _ X _ body cond x k =>
      ∃ I : X → Prop, I x ∧
        (∀ x, I x →
          reads u (body x) (λ o,
            match o with
            | Return r => reads u (k (Return r)) Q
            | Next x' =>
                reads u (cond x')
                  (λ c, if c : bool then I x' else reads u (k (Next x')) Q)
            end)) ∧
        (∀ s, stable s → ∃ m : X → nat, ∀ x x', I x →
          alone (body x) s (Done (Next x', s)) → alone (cond x') s (Done (true, s)) →
          (m x' < m x)%nat)
  end.

Lemma every_inside {A} (p : prog S A) : every (@keeps) p → inside p.
Proof. induction p; simpl; naive_solver. Qed.

Lemma inside_bind {A B} (p : prog S A) (f : A → prog S B) :
  inside p → (∀ a, inside (f a)) → inside (p ≫= f).
Proof.
  unfold mbind, prog_bind. induction p as [A a|A Y act k IH|A X R body _ cond _ x k IH]; simpl; [eauto|..].
  - intros [Ha Hk] Hf. split; [done|]. intros b. by apply IH.
  - intros (Hb & Hc & Hk) Hf. split; [done|]. split; [done|]. intros o. by apply IH.
Qed.

Lemma critical_bind {A B} (p : prog S A) (f : A → prog S B) :
  inside p → (∀ a, critical (f a)) → critical (p ≫= f).
Proof.
  unfold mbind, prog_bind. induction p as [A a|A Y act k IH|A X R body _ cond _ x k IH]; simpl; [eauto|..].
  - intros [Ha Hk] Hf. left. split; [done|]. intros b. by apply IH.
  - intros (Hb & Hc & Hk) Hf. split; [done|]. split; [done|]. intros o. by apply IH.
Qed.

(** Code that holds the mutex goes on as such code. *)
Lemma critical_unfold {A X R} (body : X → prog S (flow X R)) cond x (k : flow X R → prog S A) :
  critical (DoWhile body cond x k) →
  critical (o ← body x;
            match o with
            | Return r => k (Return r)
            | Next x' => c ← cond x'; if c : bool then DoWhile body cond x' k else k (Next x')
            end).
Proof.
  intros (Hb & Hc & Hk). apply critical_bind; [done|]. intros [x'|r]; [|done].
  apply critical_bind; [done|]. by intros [].
Qed.

(** One step of such code. *)
Lemma inside_step {A} (p : prog S A) s p' s' :
  inside p → step p s = Some (Done (p', s')) → inside p' ∧ held s' = held s.
Proof.
  destruct p as [a|Y act k|X R body cond x k]; simpl; [done| |].
  - intros [[_ Ha] Hk]. destruct (act s) as [[[b s1]| |]|] eqn:E; [|done..]. intros [= <- <-].
    split; [done|]. by eapply Ha.
  - intros (Hb & Hc & Hk) [= <- <-]. split; [|done]. apply inside_bind; [done|]. intros [x'|r]; [|done].
    apply inside_bind; [done|]. by intros [].
Qed.

Lemma inside_if {A} (b : bool) (p q : prog S A) :
  inside p → inside q → inside (if b then p else q).
Proof. by destruct b. Qed.

Lemma critical_if {A} (b : bool) (p q : prog S A) :
  critical p → critical q → critical (if b then p else q).
Proof. by destruct b. Qed.

Lemma critical_ret {A B} (p : prog S A) (f : A → B) : critical p → critical (a ← p; mret (f a)).
Proof.
  unfold mbind, prog_bind. induction p as [A a|A Y act k IH|A X R body _ cond _ x k IH]; simpl; [done|..].
  - intros [[Ha Hk]|[Ha Hk]].
    + left. split; [done|]. intros b. by apply IH.
    + right. split; [done|]. intros b. destruct (Hk b) as [a ->]. by exists (f a).
  - intros (Hb & Hc & Hk). split; [done|]. split; [done|]. intros o. by apply IH.
Qed.

(** An atomic action of the sequential model. *)
Lemma inside_atomic {A} (m : M S A) :
  (∀ s a s', m s = Done (a, s') → held s' = held s ∧ (stable s → stable s')) →
  inside (atomic m).
Proof. intros Hm. split; [|done]. split; [done|]. intros s b s' [= Hs]. by eapply Hm. Qed.

Lemma reads_mono {A} u (p : prog S A) (Q1 Q2 : A → Prop) :
  reads u p Q1 → (∀ a, Q1 a → Q2 a) → reads u p Q2.
Proof.
  revert Q1 Q2. induction p as [A a|A Y act k IH|A X R body IHb cond IHc x k IH];
    intros Q1 Q2 Hp HQ; simpl in *; [auto| |].
  - intros s Hs. specialize (Hp s Hs). destruct (act s) as [[[b s']| |]|]; [|done..].
    destruct Hp as [-> Hp]. eauto.
  - destruct Hp as (I & Hx & Hbody & Hm). exists I. split; [done|]. split; [|done].
    intros y Hy. eapply IHb; [by apply Hbody|]. intros [x'|r]; [|by intros; eapply IH].
    intros Hc. eapply IHc; [done|]. intros [|]; [done|]. intros; by eapply IH.
Qed.

Lemma reads_bind {A B} u (p : prog S A) (f : A → prog S B) Q :
  reads u p (λ a, reads u (f a) Q) → reads u (p ≫= f) Q.
Proof.
  unfold mbind, prog_bind. revert Q.
  induction p as [A a|A Y act k IH|A X R body IHb cond IHc x k IH]; intros Q Hp; simpl in *; [done| |].
  - intros s Hs. specialize (Hp s Hs). destruct (act s) as [[[b s']| |]|]; [|done..].
    destruct Hp as [-> Hp]. eauto.
  - destruct Hp as (I & Hx & Hbody & Hm). exists I. split; [done|]. split; [|done].
    intros y Hy. eapply reads_mono; [by apply Hbody|]. intros [x'|r]; [|by apply IH].
    intros Hc. eapply reads_mono; [exact Hc|]. intros [|]; [done|by apply IH].
Qed.

(** Reading code goes on as reading code. *)
Lemma reads_step {A} u (p : prog S A) Q s :
  reads u p Q → stable s →
  match step p s with
  | Some (Done (p', s')) => s' = s ∧ reads u p' Q
  | Some Undef => u
  | Some NoFuel => False
  | None => ∃ a, p = Ret a ∧ Q a
  end.
Proof.
  intros Hp Hs. destruct p as [a|Y act k|X R body cond x k]; simpl in *; [by exists a| |].
  - specialize (Hp s Hs). by destruct (act s) as [[[b s']| |]|].
  - split; [done|]. destruct Hp as (I & Hx & Hbody & Hm). apply reads_bind.
    eapply reads_mono; [by apply Hbody|]. intros [x'|r]; [|done]. intros Hc.
    apply reads_bind. eapply reads_mono; [exact Hc|]. intros [|]; [|done]. intros Hx'. by exists I.
Qed.

(** Left alone, reading code ends. *)
Definition reads_result {A} (u : Prop) (Q : A → Prop) (s : S) (o : outcome (A * S)) : Prop :=
  match o with Done (a, s') => s' = s ∧ Q a | Undef => u | NoFuel => False end.

Lemma reads_alone {A} u (p : prog S A) Q s :
  reads u p Q → stable s → ∃ o, alone p s o ∧ reads_result u Q s o.
Proof.
  intros Hp Hs. revert Q Hp.
  induction p as [A a|A Y act k IH|A X R body IHb cond IHc x k IH]; intros Q Hp; simpl in *.
  - exists (Done (a, s)). by split; [constructor|].
  - specialize (Hp s Hs). destruct (act s) as [[[b s']| |]|] eqn:E; [| |done..].
    + destruct Hp as [-> Hp]. destruct (IH b Q Hp) as (o & Ho & Hr). exists o. split; [|done].
      eapply alone_step; [|done]. simpl. by rewrite E.
    + exists Undef. split; [|done]. apply alone_undef. simpl. by rewrite E.
  - destruct Hp as (I & Hx & Hbody & Hm). destruct (Hm s Hs) as [m Hdec].
    remember (m x) as n eqn:En. revert x Hx En.
    induction n as [n IHm] using lt_wf_ind. intros x Hx ->.
    eenough (∃ o, alone _ s o ∧ reads_result u Q s o) as (o & Ho & Hr).
    { exists o. split; [|exact Hr]. by eapply alone_step. }
    destruct (IHb x _ (Hbody x Hx)) as ([[[x'|r] s']| |] & Hox & Hrx); [| |by eauto using alone_bind_undef|done].
    + destruct Hrx as [-> Hc]. destruct (IHc x' _ Hc) as ([[c s']| |] & Hoc & Hrc); [| |done].
      * destruct Hrc as [-> Hrc]. destruct c.
        -- destruct (IHm (m x')) with (x := x') as (o & Ho & Hr); [by eapply Hdec|done..|].
           exists o. split; [|done]. eapply alone_bind; [done|]. by eapply alone_bind.
        -- destruct (IH _ _ Hrc) as (o & Ho & Hr). exists o. split; [|done].
           eapply alone_bind; [done|]. by eapply alone_bind.
      * exists Undef. split; [|done]. eapply alone_bind; [done|]. by apply alone_bind_undef.
    + destruct Hrx as [-> Hk]. destruct (IH _ _ Hk) as (o & Ho & Hr). exists o. split; [|done].
      by eapply alone_bind.
Qed.
End Discipline.
