(* ===== verification/Serializability.v ===== *)
(** * Interleaved calls are serializable

    The pool of the threads that are inside a call, the interface [Calls] of a
    component whose calls run stepwise, the laws a component has to show
    ([CallLaws]: each call either does everything under the mutex or only reads),
    and what they give for every interleaving. *)

From S2P Require Import Prelude Interleaving.

(** ** The interface *)
Class Calls (S C R : Type) := {
  held : S → bool;             (* the mutex *)
  code : C → prog S R;         (* a call, step by step *)
  locked : C → bool;           (* whether it works under the mutex *)
}.

(** What a component promises about its calls.  [sequential]: the same calls, run
    alone; [stable]: what holds of every state; a reading call with [may_overrun]
    may have undefined behaviour; [result_ok]: what a reading call returns. *)
Class CallLaws (S C R : Type) (sequential : C → M S R) `{Calls S C R} := {
  stable : S → Prop;
  call_ok : C → Prop;
  may_overrun : C → Prop;
  result_ok : C → R → Prop;

  locked_code c :
    locked c = true →
    ∃ B (act : S → option (outcome (B * S))) k, code c = Act act k ∧
      (∀ s, held s = true → act s = None) ∧
      (∀ s, held s = false → ∃ b s', act s = Some (Done (b, s')) ∧ held s' = true ∧
         (stable s → stable s') ∧ critical held stable (k b));
  locked_run c s r s' :
    locked c = true → held s = false → sequential c s = Done (r, s') →
    alone (code c) s (Done (r, s'));
  reading_code c :
    locked c = false → call_ok c → reads stable (may_overrun c) (code c) (result_ok c);
}.

(** ** The pool *)
Record thread (S C R : Type) := Thread {
  call : C;
  rest : prog S R;
}.
Arguments Thread {S C R} call rest.
Arguments call {S C R} t.
Arguments rest {S C R} t.

(** [order] records the threads in the order in which they took the mutex; no
    step depends on it. *)
Record config (S C R : Type) := Config {
  shared : S;
  threads : list (thread S C R);
  order : list nat;
}.
Arguments Config {S C R} shared threads order.
Arguments shared {S C R} c.
Arguments threads {S C R} c.
Arguments order {S C R} c.

Inductive pool_event (C : Type) := Arrive (c : C) | Move (i : nat).
Arguments Arrive {C} c.
Arguments Move {C} i.

Section Pool.
Context {S C R : Type} `{Calls S C R}.

(** The thread [i] does its next action; [None]: it waits or has returned. *)
Definition move (i : nat) (cf : config S C R) : option (outcome (config S C R)) :=
  t ← threads cf !! i;
  o ← step (rest t) (shared cf);
  Some ('(p, s) ← o;
        Done (Config s (<[i := Thread (call t) p]> (threads cf))
          (if held s && negb (held (shared cf)) then order cf ++ [i] else order cf))).

Definition pool_step (e : pool_event C) (cf : config S C R) : option (outcome (config S C R)) :=
  match e with
  | Arrive c => Some (Done (Config (shared cf) (threads cf ++ [Thread c (code c)]) (order cf)))
  | Move i => move i cf
  end.

Definition idle (s : S) : config S C R := Config s [] [].

(** The schedule [es] leads from [cf0] to [cf]. *)
Fixpoint schedule (es : list (pool_event C)) (cf : config S C R)
    : option (outcome (config S C R)) :=
  match es with
  | [] => Some (Done cf)
  | e :: es' =>
      match pool_step e cf with
      | Some (Done cf') => schedule es' cf'
      | o => o
      end
  end.

Inductive pool_run (cf0 : config S C R) : config S C R → Prop :=
| run_start : pool_run cf0 cf0
| run_step e cf cf' :
    pool_run cf0 cf → pool_step e cf = Some (Done cf') → pool_run cf0 cf'.

(** The calls of all threads. *)
Definition calls (cf : config S C R) : list C := call <$> threads cf.

Lemma move_calls i cf cf' : move i cf = Some (Done cf') → calls cf' = calls cf.
Proof.
  unfold move, calls. destruct (threads cf !! i) as [t|] eqn:Hi; [|done]. simpl.
  destruct (step (rest t) (shared cf)) as [[[p s]| |]|]; [|done..]. intros [= <-]. simpl.
  rewrite list_fmap_insert, list_insert_id; [done|]. by rewrite list_lookup_fmap, Hi.
Qed.

Lemma pool_step_calls e cf cf' :
  pool_step e cf = Some (Done cf') → calls cf ⊆+ calls cf'.
Proof.
  destruct e as [c|i]; simpl.
  - intros [= <-]. unfold calls. simpl. rewrite fmap_app. by apply submseteq_inserts_r.
  - intros Hm. by rewrite (move_calls _ _ _ Hm).
Qed.

Definition returned (cf : config S C R) (i : nat) (c : C) (r : R) : Prop :=
  threads cf !! i = Some (Thread c (Ret r)).

(** The pool a schedule leads to, if it can be followed to its end. *)
Definition pool_after (es : list (pool_event C)) (cf : config S C R) : config S C R :=
  match schedule es cf with Some (Done cf') => cf' | _ => cf end.

Lemma schedule_run (cf0 : config S C R) es cf cf' :
  pool_run cf0 cf → schedule es cf = Some (Done cf') → pool_run cf0 cf'.
Proof.
  revert cf. induction es as [|e es IH]; intros cf Hrun Hs; simpl in Hs; [by simplify_eq|].
  destruct (pool_step e cf) as [[cf1| |]|] eqn:E; [|done..].
  apply (IH cf1); [by apply (run_step _ e cf)|done].
Qed.

Lemma pool_after_run (cf0 cf : config S C R) es : pool_run cf0 cf → pool_run cf0 (pool_after es cf).
Proof.
  intros Hrun. unfold pool_after. destruct (schedule es cf) as [[cf'| |]|] eqn:E; try done.
  by eapply schedule_run.
Qed.

(** What the threads have returned so far. *)
Definition replies (cf : config S C R) : list (option R) :=
  (λ t, match rest t with Ret r => Some r | _ => None end) <$> threads cf.

(** Running calls one after another. *)
Context {sequential : C → M S R}.

Definition serial (cs : list C) : M S (list R) := mapM sequential cs.

Lemma serial_cons c cs s r s1 rs s' :
  sequential c s = Done (r, s1) → serial cs s1 = Done (rs, s') →
  serial (c :: cs) s = Done (r :: rs, s').
Proof. unfold serial. simpl. unfold mbind, M_bind. intros -> Hs. by rewrite Hs. Qed.

Lemma serial_cons_inv c cs s rs s' :
  serial (c :: cs) s = Done (rs, s') →
  ∃ r s1 rs1, sequential c s = Done (r, s1) ∧ serial cs s1 = Done (rs1, s') ∧ rs = r :: rs1.
Proof.
  unfold serial. simpl. unfold mbind, M_bind.
  destruct (sequential c s) as [[r s1]| |]; [|done..].
  destruct (mapM sequential cs s1) as [[rs1 s2]| |] eqn:E; [|done..].
  intros [= <- <-]. by exists r, s1, rs1.
Qed.

Lemma serial_app_inv cs1 cs2 s rs s' :
  serial (cs1 ++ cs2) s = Done (rs, s') →
  ∃ rs1 s1 rs2, serial cs1 s = Done (rs1, s1) ∧ serial cs2 s1 = Done (rs2, s').
Proof.
  revert s rs. induction cs1 as [|c cs1 IH]; intros s rs Hs.
  { by exists [], s, rs. }
  apply serial_cons_inv in Hs as (r & s1 & rs1 & Hc & Hs & ->).
  destruct (IH s1 rs1 Hs) as (rs2 & s2 & rs3 & H1 & H2). exists (r :: rs2), s2, rs3.
  split; [|done]. by eapply serial_cons.
Qed.

Lemma serial_snoc cs c s rs s1 r s2 :
  serial cs s = Done (rs, s1) → sequential c s1 = Done (r, s2) →
  serial (cs ++ [c]) s = Done (rs ++ [r], s2).
Proof.
  unfold serial. revert s rs. induction cs as [|c0 cs IH]; intros s rs Hcs Hc; simpl in *.
  - injection Hcs as <- <-. unfold mbind, M_bind. by rewrite Hc.
  - unfold mbind, M_bind in *. destruct (sequential c0 s) as [[r0 s0]| |]; [|done..].
    destruct (mapM sequential cs s0) as [[rs0 s3]| |] eqn:E; [|done..].
    injection Hcs as <- <-. by rewrite (IH s0 rs0 E Hc).
Qed.
End Pool.
Arguments serial {S C R} sequential cs : simpl never.

Section Serial.
Context {S C R : Type} {sequential : C → M S R} `{CallLaws S C R sequential}.
Abbreviation serial := (serial sequential).
Context (s0 : S) (start_free : held s0 = false) (start_stable : stable s0).

(** Which calls may run: [allowed] of all that arrive.  Some of them, one after
    another, have no undefined behaviour. *)
Context (allowed : list C → Prop).
Hypothesis allowed_some : ∀ cs cs', cs ⊆+ cs' → allowed cs' → allowed cs.
Hypothesis allowed_ok : ∀ cs, allowed cs → Forall call_ok cs.
Hypothesis allowed_serial : ∀ cs,
  allowed cs → Forall (λ c, locked c = true) cs → ∃ rs s, serial cs s0 = Done (rs, s).

(** The calls that have done their work under the mutex, with their threads and
    results, lead from the first state to [s]. *)
Record done_so_far (cf : config S C R) (ids : list nat) (cs : list C) (rs : list R) (s : S)
    : Prop := DoneSoFar {
  done_threads : Forall3 (returned cf) ids cs rs;
  done_locked : Forall (λ c, locked c = true) cs;
  done_serial : serial cs s0 = Done (rs, s);
  done_free : held s = false;
  done_stable : stable s;
}.

(** A thread that has not taken the mutex: it waits for it, or it reads. *)
Definition outside (t : thread S C R) : Prop :=
  if locked (call t) then rest t = code (call t)
  else reads stable (may_overrun (call t)) (rest t) (result_ok (call t)).

(** The thread that holds the mutex: running on alone it would end with what the
    sequential call gives in [s]. *)
Record working (cf : config S C R) (i : nat) (s : S) : Prop := Working {
  working_call : ∃ c p r s',
    threads cf !! i = Some (Thread c p) ∧ locked c = true ∧
    critical held stable p ∧ sequential c s = Done (r, s') ∧ alone p (shared cf) (Done (r, s'));
  working_held : held (shared cf) = true;
  working_stable : stable (shared cf);
}.

Definition phase (cf : config S C R) (ids : list nat) (s : S) : Prop :=
  (order cf = ids ∧ shared cf = s) ∨ ∃ i, order cf = ids ++ [i] ∧ working cf i s.

Record pool_inv (cf : config S C R) (ids : list nat) (cs : list C) (rs : list R) (s : S)
    : Prop := PoolInv {
  pool_done : done_so_far cf ids cs rs s;
  pool_phase : phase cf ids s;
  pool_nodup : NoDup (order cf);
  pool_allowed : allowed (calls cf);
  pool_outside j t : threads cf !! j = Some t → j ∉ order cf → outside t;
}.

Lemma pool_stable cf ids cs rs s : pool_inv cf ids cs rs s → stable (shared cf).
Proof. intros [Hd [[_ ->]|(i & _ & Hw)] _ _ _]; [apply Hd|apply Hw]. Qed.

Lemma idle_inv : allowed [] → pool_inv (idle s0) [] [] [] s0.
Proof.
  intros Ha. split; simpl.
  - by split; [constructor|constructor|..].
  - by left.
  - constructor.
  - done.
  - done.
Qed.

(** Threads that have returned stay as they are. *)
Lemma done_mono cf cf' ids cs rs s :
  done_so_far cf ids cs rs s →
  (∀ i c r, i ∈ ids → returned cf i c r → returned cf' i c r) →
  done_so_far cf' ids cs rs s.
Proof.
  intros [Ht Hl Hs Hf Hg] Hm. split; [|done..]. clear Hl Hs.
  induction Ht as [|i c r ids cs rs Hi Ht IH]; constructor.
  - apply Hm; [by left|done].
  - apply IH. intros j c' r' Hj. apply Hm. by right.
Qed.

Lemma done_returned cf ids cs rs s i :
  done_so_far cf ids cs rs s → i ∈ ids → ∃ c r, returned cf i c r.
Proof.
  intros [Ht _ _ _ _] [k Hk]%list_elem_of_lookup.
  destruct (Forall3_lookup_l _ _ _ _ _ _ Ht Hk) as (c & r & _ & _ & Hr). by exists c, r.
Qed.

Lemma done_calls cf ids cs rs s :
  done_so_far cf ids cs rs s → Forall2 (λ i c, calls cf !! i = Some c) ids cs.
Proof.
  intros [Ht _ _ _ _]. induction Ht as [|i c r ids cs rs Hi _ IH]; constructor; [|done].
  unfold calls. rewrite list_lookup_fmap. unfold returned in Hi. by rewrite Hi.
Qed.

Lemma arrive_inv cf ids cs rs s c :
  allowed (calls cf ++ [c]) → pool_inv cf ids cs rs s →
  pool_inv (Config (shared cf) (threads cf ++ [Thread c (code c)]) (order cf)) ids cs rs s.
Proof.
  intros Hal [Hd Hp Hn _ Ho].
  assert (Hold : ∀ i t, threads cf !! i = Some t →
    (threads cf ++ [Thread c (code c)]) !! i = Some t).
  { intros i t Hi. by apply lookup_app_l_Some. }
  split; simpl.
  - eapply done_mono; [done|]. intros i c' r _ Hr. by apply Hold.
  - destruct Hp as [Hp|(i & Hi & [(c' & p & r & s' & Ht & Hrest) Hh Hs])]; [by left|right].
    exists i. split; [done|]. split; [|done..]. exists c', p, r, s'. split; [by apply Hold|done].
  - done.
  - unfold calls. simpl. by rewrite fmap_app.
  - intros j t [Hj|[Hj Ht]]%lookup_app_Some Hout; [by eapply Ho|].
    destruct (j - length (threads cf))%nat; [|done]. simplify_eq/=. unfold outside. simpl.
    destruct (locked c) eqn:Hl; [done|]. apply reading_code; [done|].
    apply allowed_ok in Hal. by apply Forall_app in Hal as [_ [Hc _]%Forall_cons].
Qed.

(** The thread [i] goes on; the others stay. *)
Lemma done_moved cf ids cs rs s i (t : thread S C R) p s' o :
  done_so_far cf ids cs rs s → i ∉ ids →
  done_so_far (Config s' (<[i := Thread (call t) p]> (threads cf)) o) ids cs rs s.
Proof.
  intros Hd Hi. eapply done_mono; [done|]. intros j c r Hj Hr. unfold returned. simpl.
  rewrite list_lookup_insert_ne; [done|]. by intros ->.
Qed.

Lemma calls_moved (cf : config S C R) i t p s' o :
  threads cf !! i = Some t →
  calls (Config s' (<[i := Thread (call t) p]> (threads cf)) o) = calls cf.
Proof.
  intros Hi. unfold calls. simpl. rewrite list_fmap_insert, list_insert_id; [done|].
  by rewrite list_lookup_fmap, Hi.
Qed.

(** A thread that reads: the state does not change. *)
Lemma reader_inv cf ids cs rs s i t :
  pool_inv cf ids cs rs s → threads cf !! i = Some t → outside t → i ∉ order cf →
  locked (call t) = false →
  match move i cf with
  | Some (Done cf') => pool_inv cf' ids cs rs s
  | Some Undef => may_overrun (call t)
  | Some NoFuel => False
  | None => ∃ r, rest t = Ret r ∧ result_ok (call t) r
  end.
Proof.
  intros Hinv Hi Hr Hio Hl. unfold outside in Hr. rewrite Hl in Hr.
  pose proof (reads_step _ _ _ _ _ Hr (pool_stable _ _ _ _ _ Hinv)) as Hstep.
  unfold move. rewrite Hi. simpl.
  destruct (step (rest t) (shared cf)) as [[[p s']| |]|]; simpl; [|done..].
  destruct Hstep as [-> Hp]. destruct Hinv as [Hd Hph Hn Ha Ho].
  rewrite (andb_negb_r (held (shared cf))).
  assert (Hids : i ∉ ids).
  { destruct Hph as [[<- _]|(k & Hk & _)]; [done|]. rewrite Hk in Hio. set_solver. }
  split; simpl; [by apply done_moved| |done|by rewrite calls_moved|].
  - destruct Hph as [Hph|(k & Hk & [(c & q & r & s' & Ht & Hrest) Hh Hs])]; [by left|right].
    exists k. split; [done|]. split; [|done..]. exists c, q, r, s'. split; [|done]. simpl.
    rewrite list_lookup_insert_ne; [done|]. intros ->. rewrite Hk in Hio. set_solver.
  - intros j t' Hj Hout. destruct (decide (j = i)) as [->|Hne].
    + rewrite list_lookup_insert_eq in Hj by by eapply lookup_lt_Some. simplify_eq.
      unfold outside. simpl. by rewrite Hl.
    + rewrite list_lookup_insert_ne in Hj by done. by eapply Ho.
Qed.

(** The next call under the mutex has no undefined behaviour. *)
Lemma next_call cf ids cs rs s i t :
  pool_inv cf ids cs rs s → ids = order cf → threads cf !! i = Some t → i ∉ order cf →
  locked (call t) = true → ∃ r s', sequential (call t) s = Done (r, s').
Proof.
  intros [Hd _ Hn Ha _] -> Hi Hio Hl.
  destruct (allowed_serial (cs ++ [call t])) as (rs1 & s1 & Hs).
  - eapply allowed_some; [|exact Ha]. apply (lookups_submseteq _ (order cf ++ [i])).
    + apply NoDup_app. split; [done|]. split; [set_solver|apply NoDup_singleton].
    + apply Forall2_app; [by eapply done_calls|]. constructor; [|constructor].
      unfold calls. by rewrite list_lookup_fmap, Hi.
  - apply Forall_app. split; [apply Hd|by constructor].
  - destruct (serial_app_inv _ _ _ _ _ Hs) as (rs2 & s2 & rs3 & H1 & H2).
    rewrite (done_serial _ _ _ _ _ Hd) in H1. simplify_eq.
    apply serial_cons_inv in H2 as (r & s3 & rs4 & Hr & _). by exists r, s3.
Qed.

(** A thread that waits for the mutex: it takes it when it is free. *)
Lemma waiter_inv cf ids cs rs s i t :
  pool_inv cf ids cs rs s → threads cf !! i = Some t → outside t → i ∉ order cf →
  locked (call t) = true →
  if held (shared cf) then move i cf = None
  else ∃ cf', move i cf = Some (Done cf') ∧ pool_inv cf' ids cs rs s.
Proof.
  intros Hinv Hi Hr Hio Hl. unfold outside in Hr. rewrite Hl in Hr.
  destruct (locked_code (call t) Hl) as (B & act & k & Hcode & Hwait & Htake).
  unfold move. rewrite Hi. simpl. rewrite Hr, Hcode. simpl.
  destruct (held (shared cf)) eqn:Hh; [by rewrite Hwait|].
  destruct (pool_phase _ _ _ _ _ Hinv) as [[Hids Hs]|(j & _ & [_ Hw _])]; [|congruence].
  destruct (next_call _ _ _ _ _ i t Hinv (eq_sym Hids) Hi Hio Hl) as (r & s2 & Hseq).
  rewrite <- Hs in Hseq.
  destruct (Htake (shared cf) Hh) as (b & s' & Hact & Hh' & Hst & Hcrit).
  pose proof (locked_run (call t) (shared cf) r s2 Hl Hh Hseq) as Hal.
  pose proof (pool_stable _ _ _ _ _ Hinv) as Hstable. destruct Hinv as [Hd _ Hn Ha Ho].
  rewrite Hact. simpl. rewrite Hh'. simpl. eexists. split; [done|].
  split; simpl.
  - apply done_moved; [done|]. by rewrite <- Hids.
  - right. exists i. split; [by rewrite Hids|]. rewrite Hs in Hseq. split; simpl; [|done|by apply Hst].
    exists (call t), (k b), r, s2. split.
    { apply list_lookup_insert_eq. by eapply lookup_lt_Some. }
    do 3 (split; [done|]). eapply alone_step_inv; [|exact Hal]. rewrite Hcode. simpl. by rewrite Hact.
  - apply NoDup_app. split; [done|]. split; [set_solver|apply NoDup_singleton].
  - by rewrite calls_moved.
  - intros j t' Hj Hout. apply not_elem_of_app in Hout as [Hout Hne].
    rewrite list_lookup_insert_ne in Hj by set_solver. by eapply Ho.
Qed.

(** What the holder's next action does. *)
Lemma critical_step {A} (p : prog S A) s1 a s' :
  critical held stable p → held s1 = true → stable s1 → alone p s1 (Done (a, s')) →
  ∃ p2 s2, step p s1 = Some (Done (p2, s2)) ∧ alone p2 s2 (Done (a, s')) ∧ stable s2 ∧
    ((held s2 = true ∧ critical held stable p2) ∨ (held s2 = false ∧ p2 = Ret a ∧ s2 = s')).
Proof.
  intros Hc Hh Hst Ha. destruct p as [|B act k|X Q body cond x k]; [by destruct Hc| |].
  - destruct (step (Act act k) s1) as [[[p2 s2]| |]|] eqn:Hs.
    2-4: inversion Ha; simplify_eq/=; congruence.
    exists p2, s2. split; [done|]. pose proof (alone_step_inv _ _ _ _ _ Hs Ha) as Ha2.
    split; [done|]. simpl in Hs. destruct (act s1) as [[[b s3]| |]|] eqn:E; simplify_eq.
    destruct Hc as [[[_ Hk] Hc]|[[_ Hk] Hc]]; destruct (Hk _ _ _ E) as [Hh1 Hst1];
      (split; [by apply Hst1|]).
    + left. rewrite Hh1. by split.
    + right. destruct (Hc b) as [a' Ha']. rewrite Ha' in *. apply alone_ret_inv in Ha2. by simplify_eq.
  - eexists _, s1. split; [done|]. split; [by eapply alone_step_inv; [|exact Ha]|]. split; [done|]. left.
    split; [done|]. by apply critical_unfold.
Qed.

(** The thread that holds the mutex can go on; in the end it releases it and its
    call counts as done. *)
Lemma holder_inv cf ids cs rs s i :
  pool_inv cf ids cs rs s → order cf = ids ++ [i] → working cf i s →
  ∃ cf', move i cf = Some (Done cf') ∧
    (pool_inv cf' ids cs rs s ∨
     ∃ c r s', pool_inv cf' (ids ++ [i]) (cs ++ [c]) (rs ++ [r]) s').
Proof.
  intros [Hd _ Hn Hal Ho] Hord [(c & p & r & s' & Ht & Hl & Hc & Hseq & Ha) Hh Hst].
  destruct (critical_step p (shared cf) r s' Hc Hh Hst Ha) as (p1 & s1 & Hs & Ha1 & Hst1 & Hnext).
  assert (Hids : i ∉ ids).
  { rewrite Hord in Hn. apply NoDup_app in Hn as (_ & Hn & _). intros Hi. apply (Hn i Hi). by left. }
  unfold move. rewrite Ht. simpl. rewrite Hs. simpl. rewrite Hh, andb_false_r.
  eexists. split; [done|].
  assert (Hi : <[i:=Thread c p1]> (threads cf) !! i = Some (Thread c p1))
    by (apply list_lookup_insert_eq; by eapply lookup_lt_Some).
  assert (Hout : ∀ j t, <[i:=Thread c p1]> (threads cf) !! j = Some t → j ∉ order cf → outside t).
  { intros j t Hj Hnot. rewrite list_lookup_insert_ne in Hj; [by eapply Ho|].
    intros ->. apply Hnot. rewrite Hord. set_solver. }
  pose proof (calls_moved cf i (Thread c p) p1 s1 (order cf) Ht) as Hcalls. simpl in Hcalls.
  pose proof (done_moved cf ids cs rs s i (Thread c p) p1 s1 (order cf) Hd Hids) as Hd'.
  destruct Hnext as [[Hh1 Hc1]|(Hh1 & -> & ->)].
  - left. split; [done| |done|by rewrite Hcalls|done]. right. exists i. split; [done|].
    split; [|done..]. by exists c, p1, r, s'.
  - right. exists c, r, s'. split; simpl; [|by left|done|by rewrite Hcalls|done].
    destruct Hd' as [H3 Hcs Hser _ _]. split; [| |by eapply serial_snoc|done|done].
    + apply Forall3_app; [done|]. constructor; [done|constructor].
    + apply Forall_app. split; [done|]. by constructor.
Qed.

(** One step of one thread, whatever it is doing. *)
Lemma pool_move_inv cf ids cs rs s i t :
  pool_inv cf ids cs rs s → threads cf !! i = Some t →
  match move i cf with
  | Some (Done cf') => ∃ ids' cs' rs' s', pool_inv cf' ids' cs' rs' s'
  | Some Undef => locked (call t) = false ∧ may_overrun (call t)
  | Some NoFuel => False
  | None => (∃ r, rest t = Ret r) ∨ held (shared cf) = true ∧ locked (call t) = true
  end.
Proof.
  intros Hinv Hi. destruct (decide (i ∈ order cf)) as [Hin|Hin].
  - assert (Hcases : i ∈ ids ∨ order cf = ids ++ [i] ∧ working cf i s).
    { destruct (pool_phase _ _ _ _ _ Hinv) as [[Ho _]|(k & Ho & Hw)]; rewrite Ho in Hin; [by left|].
      apply elem_of_app in Hin as [Hin| ->%list_elem_of_singleton]; [by left|by right]. }
    destruct Hcases as [Hdone|[Hord Hw]].
    + destruct (done_returned _ _ _ _ _ i (pool_done _ _ _ _ _ Hinv) Hdone) as (c & r & Hr).
      unfold returned in Hr. simplify_eq. unfold move. rewrite Hi. simpl. left. by exists r.
    + destruct (holder_inv _ _ _ _ _ _ Hinv Hord Hw) as (cf' & -> & [Hi'|(c & r & s' & Hi')]);
        by do 4 eexists.
  - pose proof (pool_outside _ _ _ _ _ Hinv i t Hi Hin) as Hout. destruct (locked (call t)) eqn:Hl.
    + pose proof (waiter_inv _ _ _ _ _ _ _ Hinv Hi Hout Hin Hl) as Hw.
      destruct (held (shared cf)); [rewrite Hw; by right|].
      destruct Hw as (cf' & -> & Hi'). by do 4 eexists.
    + pose proof (reader_inv _ _ _ _ _ _ _ Hinv Hi Hout Hin Hl) as Hr.
      destruct (move i cf) as [[cf'| |]|]; [by do 4 eexists|done|done|].
      destruct Hr as (r & Hr & _). left. by exists r.
Qed.

Lemma pool_step_inv cf ids cs rs s e cf' :
  pool_inv cf ids cs rs s → allowed (calls cf') → pool_step e cf = Some (Done cf') →
  ∃ ids' cs' rs' s', pool_inv cf' ids' cs' rs' s'.
Proof.
  intros Hinv Hal Hs. destruct e as [c|i]; simpl in Hs.
  - simplify_eq. do 4 eexists. apply arrive_inv; [|done].
    unfold calls in Hal. simpl in Hal. by rewrite fmap_app in Hal.
  - destruct (threads cf !! i) as [t|] eqn:Hi; [|unfold move in Hs; by rewrite Hi in Hs].
    pose proof (pool_move_inv _ _ _ _ _ i t Hinv Hi) as Hm. by rewrite Hs in Hm.
Qed.

Lemma pool_run_inv cf :
  pool_run (idle s0) cf → allowed (calls cf) → ∃ ids cs rs s, pool_inv cf ids cs rs s.
Proof.
  intros Hrun. induction Hrun as [|e cf cf' Hrun IH Hs]; intros Hal.
  - do 4 eexists. by apply idle_inv.
  - destruct IH as (ids & cs & rs & s & Hinv); [|by eapply pool_step_inv].
    eapply allowed_some; [by eapply pool_step_calls|done].
Qed.

(** ** What every interleaving gives *)

(** The calls that work under the mutex, in the order in which they took it,
    could have run one after another; a call that only reads returns a value it
    may return. *)
Lemma interleaving_serial cf :
  pool_run (idle s0) cf → allowed (calls cf) →
  ∃ ids cs rs s,
    serial cs s0 = Done (rs, s) ∧ Forall (λ c, locked c = true) cs ∧ cs ⊆+ calls cf ∧
    Forall3 (returned cf) ids cs rs ∧ NoDup (order cf) ∧ ids `prefix_of` order cf ∧
    (held (shared cf) = false → order cf = ids ∧ shared cf = s) ∧
    (∀ i c r, returned cf i c r → if locked c then i ∈ ids else result_ok c r).
Proof.
  intros Hrun Hal. destruct (pool_run_inv cf Hrun Hal) as (ids & cs & rs & s & Hinv).
  pose proof Hinv as [Hd Hph Hn _ Ho]. pose proof Hd as [H3 Hcs Hser _ _].
  assert (Hp : ids `prefix_of` order cf).
  { destruct Hph as [[-> _]|(i & -> & _)]; [done|]. by apply prefix_app_r. }
  exists ids, cs, rs, s. do 2 (split; [done|]). split.
  { eapply lookups_submseteq; [|by eapply done_calls]. destruct Hp as [k Hk]. rewrite Hk in Hn.
    by apply NoDup_app in Hn as [Hn _]. }
  do 3 (split; [done|]). split.
  - intros Hh. destruct Hph as [?|(i & _ & [_ Hw _])]; [done|congruence].
  - intros i c r Hr. assert (Hout : i ∉ order cf → outside (Thread c (Ret r))) by eauto.
    destruct (decide (i ∈ ids)) as [Hin|Hin].
    + destruct (locked c) eqn:Hl; [done|].
      apply list_elem_of_lookup in Hin as [k Hk].
      destruct (Forall3_lookup_l _ _ _ _ _ _ H3 Hk) as (c' & r' & Hc & _ & Hr').
      unfold returned in *. simplify_eq. rewrite Forall_lookup in Hcs. by rewrite (Hcs _ _ Hc) in Hl.
    + assert (Hio : i ∉ order cf).
      { destruct Hph as [[-> _]|(k & -> & [(c' & p & r' & s' & Hk & _ & Hc & _) _ _])]; [done|].
        intros [?| ->%list_elem_of_singleton]%elem_of_app; [done|].
        unfold returned in Hr. by simplify_eq. }
      specialize (Hout Hio). unfold outside in Hout. simpl in Hout. destruct (locked c) eqn:Hl; [|done].
      destruct (locked_code c Hl) as (B & act & k & Hcode & _). by rewrite Hcode in Hout.
Qed.

Lemma interleaving_stable cf :
  pool_run (idle s0) cf → allowed (calls cf) → stable (shared cf).
Proof.
  intros Hrun Hal. destruct (pool_run_inv cf Hrun Hal) as (ids & cs & rs & s & Hinv).
  by eapply pool_stable.
Qed.

Definition all_returned (cf : config S C R) : Prop :=
  Forall (λ t, ∃ r, rest t = Ret r) (threads cf).

(** When every call has returned the mutex is free. *)
Lemma returned_free cf :
  pool_run (idle s0) cf → allowed (calls cf) → all_returned cf → held (shared cf) = false.
Proof.
  intros Hrun Hal Hall. destruct (pool_run_inv cf Hrun Hal) as (ids & cs & rs & s & [Hd Hph _ _ _]).
  destruct Hph as [[_ ->]|(i & _ & [(c & p & r & s' & Ht & _ & Hc & _) _ _])]; [apply Hd|].
  unfold all_returned in Hall. rewrite Forall_lookup in Hall. destruct (Hall _ _ Ht) as [r' Hr'].
  simpl in Hr'. by subst p.
Qed.

(** Then the calls under the mutex are all there are, if no call only reads. *)
Lemma returned_all cf ids cs rs :
  Forall3 (returned cf) ids cs rs → NoDup ids → cs ⊆+ calls cf →
  (∀ i c r, returned cf i c r → i ∈ ids) → all_returned cf → cs ≡ₚ calls cf.
Proof.
  intros H3 Hn Hsub Hin Hall. apply submseteq_length_Permutation; [done|].
  rewrite <- (Forall3_length_lm _ _ _ _ H3). unfold calls. rewrite length_fmap.
  rewrite <- (length_seq (length (threads cf)) 0). apply submseteq_length, NoDup_submseteq.
  { apply NoDup_seq. }
  intros i Hi%elem_of_seq. destruct (lookup_lt_is_Some_2 (threads cf) i) as [[c p] Ht]; [lia|].
  unfold all_returned in Hall. rewrite Forall_lookup in Hall. destruct (Hall _ _ Ht) as [r Hr].
  simpl in Hr. subst p. by apply (Hin i c r).
Qed.

(** Undefined behaviour only comes from calls that may have it. *)
Lemma interleaving_undef cf i t :
  pool_run (idle s0) cf → allowed (calls cf) → threads cf !! i = Some t →
  move i cf ≠ Some NoFuel ∧
  (move i cf = Some Undef → locked (call t) = false ∧ may_overrun (call t)).
Proof.
  intros Hrun Hal Hi. destruct (pool_run_inv cf Hrun Hal) as (ids & cs & rs & s & Hinv).
  pose proof (pool_move_inv _ _ _ _ _ i t Hinv Hi) as Hm.
  split; [by intros E; rewrite E in Hm|]. intros E. by rewrite E in Hm.
Qed.

(** ** Every call can finish *)

Lemma schedule_app es1 es2 (cf cf' : config S C R) :
  schedule es1 cf = Some (Done cf') → schedule (es1 ++ es2) cf = schedule es2 cf'.
Proof.
  revert cf. induction es1 as [|e es1 IH]; intros cf; simpl; [by intros [= ->]|].
  destruct (pool_step e cf) as [[cf1| |]|]; [apply IH|done..].
Qed.

(** Moving only one thread is running its program alone. *)
Lemma alone_schedule p s o (cf : config S C R) i c :
  alone p s o → shared cf = s → threads cf !! i = Some (Thread c p) →
  ∃ n, match o with
       | Done (r, s') => ∃ cf', schedule (replicate n (Move i)) cf = Some (Done cf') ∧
           shared cf' = s' ∧ threads cf' = <[i := Thread c (Ret r)]> (threads cf)
       | Undef => schedule (replicate n (Move i)) cf = Some Undef
       | NoFuel => True
       end.
Proof.
  intros Ha. revert cf. induction Ha as [r s|p s p1 s1 o Hs Ha IH|p s Hs]; intros cf Hsh Hi.
  - exists 0%nat, cf. split; [done|]. split; [done|]. by rewrite list_insert_id.
  - assert (Hm : ∃ cf1, move i cf = Some (Done cf1) ∧ shared cf1 = s1 ∧
      threads cf1 = <[i := Thread c p1]> (threads cf)).
    { unfold move. rewrite Hi, Hsh. simpl. rewrite Hs. by eexists. }
    destruct Hm as (cf1 & Hm & Hsh1 & Ht1). destruct (IH cf1) as [n Hn]; [done| |].
    { rewrite Ht1. apply list_lookup_insert_eq. by eapply lookup_lt_Some. }
    exists (Datatypes.S n). simpl. rewrite Hm. rewrite Ht1 in Hn.
    destruct o as [[r s']| |]; [by rewrite list_insert_insert_eq in Hn|done..].
  - exists 1%nat. simpl. unfold move. rewrite Hi, Hsh. simpl. by rewrite Hs.
Qed.

Definition only_moves (es : list (pool_event C)) : Prop := Forall (λ e, ∃ i, e = Move i) es.

Lemma replicate_moves n i : only_moves (replicate n (Move i)).
Proof. apply Forall_replicate. by eexists. Qed.

Lemma moves_inv es cf cf' ids cs rs s :
  pool_inv cf ids cs rs s → only_moves es → schedule es cf = Some (Done cf') →
  calls cf' = calls cf ∧ ∃ ids' cs' rs' s', pool_inv cf' ids' cs' rs' s'.
Proof.
  revert cf ids cs rs s. induction es as [|e es IH]; intros cf ids cs rs s Hinv Hes Hs; simpl in Hs.
  { simplify_eq. split; [done|]. by do 4 eexists. }
  apply Forall_cons in Hes as [[i ->] Hes].
  destruct (pool_step (Move i) cf) as [[cf1| |]|] eqn:E; [|done..].
  pose proof (move_calls _ _ _ E) as Hc.
  destruct (pool_step_inv _ _ _ _ _ (Move i) cf1 Hinv) as (? & ? & ? & ? & Hinv1); [|done|].
  { rewrite Hc. apply Hinv. }
  rewrite <- Hc. by eapply IH.
Qed.

(** A pool between two critical sections. *)
Definition resting (cf : config S C R) : Prop :=
  held (shared cf) = false ∧ ∃ ids cs rs s, pool_inv cf ids cs rs s.

(** Running alone, code under the mutex ends with the mutex free. *)
Lemma critical_alone {A} (p : prog S A) s o :
  alone p s o → ∀ a s', o = Done (a, s') → critical held stable p → held s = true → stable s →
  held s' = false.
Proof.
  induction 1 as [a0 s|p s p1 s1 o Hs Ha IH|p s Hs]; intros a s' E Hc Hh Hst; [by destruct Hc| |done].
  subst o.
  destruct (critical_step p s a s' Hc Hh Hst) as (p2 & s2 & Hs2 & Ha2 & Hst2 & Hnext);
    [by eapply alone_step|].
  rewrite Hs in Hs2. simplify_eq. destruct Hnext as [[Hh2 Hc2]|(Hh2 & _ & <-)]; [by eapply IH|done].
Qed.

Lemma locked_free c s r s' :
  locked c = true → held s = false → stable s → sequential c s = Done (r, s') → held s' = false.
Proof.
  intros Hl Hh Hst Hseq. pose proof (locked_run c s r s' Hl Hh Hseq) as Ha.
  destruct (locked_code c Hl) as (B & act & k & Hcode & _ & Htake).
  destruct (Htake s Hh) as (b & s1 & Hact & Hh1 & Hst1 & Hcrit).
  eapply critical_alone; [|reflexivity|exact Hcrit|done|by apply Hst1].
  eapply alone_step_inv; [|exact Ha]. rewrite Hcode. simpl. by rewrite Hact.
Qed.

(** The thread that holds the mutex can release it. *)
Lemma finish_holder cf ids cs rs s :
  pool_inv cf ids cs rs s →
  ∃ es cf', only_moves es ∧ schedule es cf = Some (Done cf') ∧ resting cf' ∧ calls cf' = calls cf.
Proof.
  intros Hinv. destruct (pool_phase _ _ _ _ _ Hinv) as [[_ Hs]|(i & _ & Hw)].
  - exists [], cf. split; [constructor|]. split; [done|].
    split; [|done]. split; [rewrite Hs; apply Hinv|by do 4 eexists].
  - destruct Hw as [(c & p & r & s' & Ht & _ & Hc & _ & Ha) Hh Hst].
    destruct (alone_schedule _ _ _ cf i c Ha eq_refl Ht) as [n (cf' & Hsch & Hsh & Hts)].
    destruct (moves_inv _ _ _ _ _ _ _ Hinv (replicate_moves n i) Hsch) as [Hcs Hinv'].
    exists (replicate n (Move i)), cf'. split; [apply replicate_moves|]. split; [done|].
    split; [|done]. split; [|done]. rewrite Hsh. by eapply critical_alone.
Qed.

(** From there any one thread can finish. *)
Lemma finish_thread cf i c p :
  resting cf → threads cf !! i = Some (Thread c p) →
  ∃ es, only_moves es ∧
    match schedule es cf with
    | Some (Done cf') => resting cf' ∧ calls cf' = calls cf ∧
        ∃ r, threads cf' = <[i := Thread c (Ret r)]> (threads cf)
    | Some Undef => may_overrun c
    | _ => False
    end.
Proof.
  intros [Hh (ids & cs & rs & s & Hinv)] Hi. pose proof Hinv as [Hd Hph Hn _ Ho].
  destruct Hph as [[Hids Hs]|(k & _ & [_ Hw _])]; [|congruence].
  enough (∃ o, alone p (shared cf) o ∧
    match o with Done (r, s') => held s' = false | Undef => may_overrun c | NoFuel => False end)
    as (o & Ha & Hres).
  { destruct (alone_schedule _ _ _ cf i c Ha eq_refl Hi) as [n Hsch].
    exists (replicate n (Move i)). split; [apply replicate_moves|].
    destruct o as [[r s']| |]; [|by rewrite Hsch|done].
    destruct Hsch as (cf' & Hsch & Hsh & Ht). rewrite Hsch.
    destruct (moves_inv _ _ _ _ _ _ _ Hinv (replicate_moves n i) Hsch) as [Hcs Hinv'].
    split; [|split; [done|by exists r]]. split; [by rewrite Hsh|done]. }
  destruct (decide (i ∈ order cf)) as [Hin|Hin].
  - rewrite Hids in Hin.
    destruct (done_returned _ _ _ _ _ i Hd Hin) as (c' & r & Hr). unfold returned in Hr.
    simplify_eq. exists (Done (r, shared cf)). by split; [constructor|].
  - pose proof (Ho i _ Hi Hin) as Hr. unfold outside in Hr. simpl in Hr.
    pose proof (pool_stable _ _ _ _ _ Hinv) as Hst. destruct (locked c) eqn:Hl.
    + subst p. destruct (next_call _ _ _ _ _ i _ Hinv (eq_sym Hids) Hi Hin Hl) as (r & s' & Hseq).
      simpl in Hseq. rewrite <- Hs in Hseq.
      exists (Done (r, s')). split; [by apply locked_run|by eapply locked_free].
    + destruct (reads_alone _ _ _ _ (shared cf) Hr Hst) as (o & Ha & Hres).
      exists o. split; [done|]. destruct o as [[r s']| |]; [by destruct Hres as [-> _]|done..].
Qed.

(** One after another, all of them can. *)
Lemma finish_from k cf :
  resting cf → Forall (λ t, ∃ r, rest t = Ret r) (take k (threads cf)) →
  ∃ es, only_moves es ∧
    match schedule es cf with
    | Some (Done cf') => all_returned cf' ∧ calls cf' = calls cf
    | Some Undef => ∃ c, c ∈ calls cf ∧ may_overrun c
    | _ => False
    end.
Proof.
  remember (length (threads cf) - k)%nat as d eqn:Hdist.
  revert k cf Hdist. induction d as [|d IH]; intros k cf Hdist Hrest Hk.
  { exists []. split; [constructor|]. simpl. split; [|done].
    unfold all_returned. by rewrite take_ge in Hk by lia. }
  destruct (lookup_lt_is_Some_2 (threads cf) k) as [[c p] Ht]; [lia|].
  destruct (finish_thread cf k c p Hrest Ht) as (es1 & Hes1 & H1).
  destruct (schedule es1 cf) as [[cf1| |]|] eqn:E1; [| |done..].
  2:{ exists es1. split; [done|]. rewrite E1. exists c. split; [|done].
      unfold calls. apply list_elem_of_fmap. exists (Thread c p). split; [done|].
      by eapply list_elem_of_lookup_2. }
  destruct H1 as (Hrest1 & Hcalls & r & Ht1).
  destruct (IH (Datatypes.S k) cf1) as (es2 & Hes2 & H2); [rewrite Ht1, length_insert; lia|done| |].
  { rewrite Ht1. erewrite take_S_r by (apply list_lookup_insert_eq; lia).
    apply Forall_app. split; [by rewrite take_insert_ge by done|]. constructor; [by exists r|done]. }
  exists (es1 ++ es2). split; [by apply Forall_app|]. rewrite (schedule_app _ _ _ _ E1).
  by rewrite Hcalls in H2.
Qed.

(** Whatever has happened, the threads can be scheduled so that every call
    returns, unless one of them has undefined behaviour. *)
Lemma interleaving_finishes cf :
  pool_run (idle s0) cf → allowed (calls cf) →
  ∃ es, only_moves es ∧
    match schedule es cf with
    | Some (Done cf') => all_returned cf' ∧ calls cf' = calls cf
    | Some Undef => ∃ c, c ∈ calls cf ∧ may_overrun c
    | _ => False
    end.
Proof.
  intros Hrun Hal. destruct (pool_run_inv cf Hrun Hal) as (ids & cs & rs & s & Hinv).
  destruct (finish_holder _ _ _ _ _ Hinv) as (es1 & cf1 & Hes1 & Hs1 & Hr1 & Hc1).
  destruct (finish_from 0 cf1 Hr1) as (es2 & Hes2 & H2); [constructor|].
  exists (es1 ++ es2). split; [by apply Forall_app|]. rewrite (schedule_app _ _ _ _ Hs1).
  by rewrite Hc1 in H2.
Qed.
End Serial.
