(* ===== verification/Atomicity.v ===== *)
(** * Calls under a mutex are atomic, whatever they do

    [Serializability] asks that the calls, one after another, are defined.  Here
    nothing is asked: for code that works under one mutex from its first action to
    its last, every interleaving is calls that run alone, one after another, up to
    the first undefined step, which a call alone would have had too. *)

From S2P Require Import Prelude Interleaving Serializability.

(** Every call takes the mutex first and releases it last. *)
Class LockedCalls (S C R : Type) `{Calls S C R} := locked_call c :
  ∃ B (act : S → option (outcome (B * S))) k, code c = Act act k ∧
    (∀ s, held s = true → act s = None) ∧
    (∀ s, held s = false → ∃ b s', act s = Some (Done (b, s')) ∧ held s' = true ∧
       critical held (λ _, True) (k b)).

(** A program on its way, alone. *)
Inductive solo {S A} : prog S A → S → prog S A → S → Prop :=
| solo_here p s : solo p s p s
| solo_step p s p1 s1 p2 s2 :
    solo p s p1 s1 → step p1 s1 = Some (Done (p2, s2)) → solo p s p2 s2.

Lemma solo_alone {S A} (p : prog S A) s p1 s1 o : solo p s p1 s1 → alone p1 s1 o → alone p s o.
Proof. induction 1 as [|p s p1 s1 p2 s2 _ IH Hs]; [done|]. intros Ho. apply IH. by eapply alone_step. Qed.

Section Atomic.
Context {S C R : Type} `{LockedCalls S C R}.
Implicit Types cf : config S C R.

(** The calls [cs], each alone and one after another, give [rs]. *)
Inductive in_turn : list C → S → list R → S → Prop :=
| turn_nil s : in_turn [] s [] s
| turn_snoc cs s rs s1 c r s2 :
    in_turn cs s rs s1 → alone (code c) s1 (Done (r, s2)) → in_turn (cs ++ [c]) s (rs ++ [r]) s2.

Context (s0 : S) (start_free : held s0 = false).

(** The calls that are over led to [s]; the thread that has the mutex got from
    there to where it is by itself; the others have not begun. *)
Record atomic_inv cf (ids : list nat) (cs : list C) (rs : list R) (s : S) : Prop := AtomicInv {
  atomic_threads : Forall3 (returned cf) ids cs rs;
  atomic_turns : in_turn cs s0 rs s;
  atomic_free : held s = false;
  atomic_phase :
    (order cf = ids ∧ shared cf = s) ∨
    ∃ i c p, order cf = ids ++ [i] ∧ threads cf !! i = Some (Thread c p) ∧
      held (shared cf) = true ∧ critical held (λ _, True) p ∧ solo (code c) s p (shared cf);
  atomic_nodup : NoDup (order cf);
  atomic_outside j t : threads cf !! j = Some t → j ∉ order cf → rest t = code (call t);
}.

Lemma atomic_start : atomic_inv (idle s0) [] [] [] s0.
Proof. split; simpl; try done; [constructor|constructor|by left|constructor]. Qed.

Lemma atomic_mono cf cf' ids cs rs :
  Forall3 (returned cf) ids cs rs →
  (∀ i t, i ∈ ids → threads cf !! i = Some t → threads cf' !! i = Some t) →
  Forall3 (returned cf') ids cs rs.
Proof.
  intros H3 Hm. induction H3 as [|i c r ids cs rs Hi _ IH]; constructor.
  - apply Hm; [by left|done].
  - apply IH. intros j t Hj. apply Hm. by right.
Qed.

Lemma atomic_arrive cf ids cs rs s c :
  atomic_inv cf ids cs rs s →
  atomic_inv (Config (shared cf) (threads cf ++ [Thread c (code c)]) (order cf)) ids cs rs s.
Proof.
  intros [H3 Ht Hf Hp Hn Ho].
  assert (Hold : ∀ i t, threads cf !! i = Some t → (threads cf ++ [Thread c (code c)]) !! i = Some t).
  { intros i t Hi. by apply lookup_app_l_Some. }
  split; simpl; try done.
  - eapply atomic_mono; [done|]. intros i t _. apply Hold.
  - destruct Hp as [Hp|(i & d & p & Hi & Hd & Hrest)]; [by left|]. right. exists i, d, p.
    split; [done|]. split; [by apply Hold|done].
  - intros j t [Hj|[Hj Hl]]%lookup_app_Some Hout; [by eapply Ho|].
    destruct (j - length (threads cf))%nat; [|done]. by simplify_eq/=.
Qed.

(** A thread whose call is over does nothing more. *)
Lemma over_stuck cf ids cs rs i : Forall3 (returned cf) ids cs rs → i ∈ ids → move i cf = None.
Proof.
  intros H3 [k Hk]%list_elem_of_lookup. destruct (Forall3_lookup_l _ _ _ _ _ _ H3 Hk) as (c & r & _ & _ & Hr).
  unfold move. rewrite Hr. done.
Qed.

Lemma insert_other (l : list (thread S C R)) i j t t' : i ≠ j → l !! j = Some t → <[i := t']> l !! j = Some t.
Proof. intros Hij Hj. by rewrite list_lookup_insert_ne. Qed.

(** A thread that takes the mutex. *)
Lemma atomic_take cf ids cs rs s i t cf' :
  atomic_inv cf ids cs rs s → threads cf !! i = Some t → i ∉ order cf →
  move i cf = Some (Done cf') → atomic_inv cf' ids cs rs s.
Proof.
  intros [H3 Ht Hf Hp Hn Ho] Hi Hio Hm. pose proof (Ho i t Hi Hio) as Hrest.
  destruct (locked_call (call t)) as (B & act & k & Hcode & Hwait & Htake).
  unfold move in Hm. rewrite Hi in Hm. simpl in Hm. rewrite Hrest, Hcode in Hm. simpl in Hm.
  destruct (held (shared cf)) eqn:Hh; [by rewrite Hwait in Hm|].
  destruct Hp as [[Hids Hs]|(j & c & p & _ & _ & Hw & _)]; [|congruence].
  destruct (Htake (shared cf) Hh) as (b & s' & Hact & Hh' & Hcrit).
  rewrite Hact in Hm. simpl in Hm. rewrite Hh' in Hm. simpl in Hm. injection Hm as <-.
  assert (Hlen : (i < length (threads cf))%nat) by by eapply lookup_lt_Some.
  split; simpl; try done.
  - eapply atomic_mono; [done|]. intros j t' Hj. apply insert_other. intros ->. by rewrite Hids in Hio.
  - right. exists i, (call t), (k b). split; [by rewrite Hids|]. split; [by apply list_lookup_insert_eq|].
    do 2 (split; [done|]). rewrite <- Hs. eapply solo_step; [apply solo_here|]. rewrite Hcode. simpl.
    by rewrite Hact.
  - apply NoDup_app. split; [done|]. split; [set_solver|apply NoDup_singleton].
  - intros j t' Hj Hout. apply not_elem_of_app in Hout as [Hout Hne].
    rewrite list_lookup_insert_ne in Hj by set_solver. by eapply Ho.
Qed.

(** One step under the mutex: it is kept, or it was the last one. *)
Lemma critical_moves {A} (p : prog S A) s p' s' :
  critical held (λ _, True) p → held s = true → step p s = Some (Done (p', s')) →
  (held s' = true ∧ critical held (λ _, True) p') ∨ (held s' = false ∧ ∃ a, p' = Ret a).
Proof.
  intros Hc Hh Hs. destruct p as [|B act k|X Q body cond x k]; [done| |].
  - simpl in Hs. destruct (act s) as [[[b s1]| |]|] eqn:E; simplify_eq.
    destruct Hc as [[[_ Hk] Hc]|[[_ Hk] Hc]]; destruct (Hk _ _ _ E) as [Hh1 _].
    + left. by rewrite Hh1.
    + right. split; [done|apply Hc].
  - simpl in Hs. injection Hs as <- <-. left. split; [done|]. by apply critical_unfold.
Qed.

(** The thread that has the mutex goes on. *)
Lemma atomic_hold cf ids cs rs s i cf' :
  atomic_inv cf ids cs rs s → order cf = ids ++ [i] → move i cf = Some (Done cf') →
  ∃ ids' cs' rs' s', atomic_inv cf' ids' cs' rs' s'.
Proof.
  intros [H3 Ht Hf Hp Hn Ho] Hord Hm.
  assert (Hids : i ∉ ids).
  { rewrite Hord in Hn. apply NoDup_app in Hn as (_ & Hn & _). intros Hin. apply (Hn i Hin). by left. }
  destruct Hp as [[E _]|(j & c & p & Hord' & Hi & Hh & Hc & Hsolo)].
  { rewrite Hord in E. apply (f_equal length) in E. rewrite length_app in E. simpl in E. lia. }
  rewrite Hord in Hord'. apply app_inj_tail in Hord' as [_ <-].
  assert (Hlen : (i < length (threads cf))%nat) by by eapply lookup_lt_Some.
  unfold move in Hm. rewrite Hi in Hm. simpl in Hm.
  destruct (step p (shared cf)) as [[[p' s']| |]|] eqn:Hs; simplify_eq/=.
  rewrite Hh, andb_false_r.
  assert (H3' : Forall3 (returned (Config s' (<[i := Thread c p']> (threads cf)) (order cf))) ids cs rs).
  { eapply atomic_mono; [done|]. intros j t Hj. apply insert_other. by intros ->. }
  assert (Hout : ∀ j t, <[i := Thread c p']> (threads cf) !! j = Some t → j ∉ order cf →
    rest t = code (call t)).
  { intros j t Hj Hnot. rewrite list_lookup_insert_ne in Hj; [by eapply Ho|].
    intros ->. apply Hnot. rewrite Hord. set_solver. }
  pose proof (solo_step _ _ _ _ _ _ Hsolo Hs) as Hsolo'.
  destruct (critical_moves p (shared cf) p' s' Hc Hh Hs) as [[Hh' Hc']|[Hh' [r ->]]].
  - exists ids, cs, rs, s. split; simpl; try done. right. exists i, c, p'.
    split; [done|]. split; [by apply list_lookup_insert_eq|done].
  - exists (ids ++ [i]), (cs ++ [c]), (rs ++ [r]), s'. split; simpl; try done.
    + apply Forall3_app; [done|]. constructor; [|constructor]. by apply list_lookup_insert_eq.
    + eapply turn_snoc; [done|]. eapply solo_alone; [done|constructor].
    + left. by split.
Qed.

Lemma atomic_run cf : pool_run (idle s0) cf → ∃ ids cs rs s, atomic_inv cf ids cs rs s.
Proof.
  induction 1 as [|e cf cf' _ (ids & cs & rs & s & IH) Hs]; [by do 4 eexists; apply atomic_start|].
  destruct e as [c|i]; simpl in Hs.
  - simplify_eq. do 4 eexists. by apply atomic_arrive.
  - destruct (threads cf !! i) as [t|] eqn:Hi; [|unfold move in Hs; by rewrite Hi in Hs].
    destruct (decide (i ∈ order cf)) as [Hin|Hin]; [|do 4 eexists; by eapply atomic_take].
    destruct (decide (i ∈ ids)) as [Hd|Hd]; [by rewrite (over_stuck _ _ _ _ _ (atomic_threads _ _ _ _ _ IH) Hd) in Hs|].
    destruct (atomic_phase _ _ _ _ _ IH) as [[Ho _]|(j & c & p & Ho & _)]; rewrite Ho in Hin; [done|].
    apply elem_of_app in Hin as [?| ->%list_elem_of_singleton]; [done|]. by eapply atomic_hold.
Qed.

(** What every interleaving gives. *)
Lemma interleaving_atomic cf :
  pool_run (idle s0) cf →
  ∃ ids cs rs s,
    in_turn cs s0 rs s ∧ cs ⊆+ calls cf ∧ Forall3 (returned cf) ids cs rs ∧
    NoDup (order cf) ∧ ids `prefix_of` order cf ∧
    (held (shared cf) = false → order cf = ids ∧ shared cf = s) ∧
    (∀ i c r, returned cf i c r → i ∈ ids) ∧
    (∀ i, move i cf = Some Undef →
       ∃ t, threads cf !! i = Some t ∧ (i ∉ ids) ∧ alone (code (call t)) s Undef).
Proof.
  intros Hrun. destruct (atomic_run cf Hrun) as (ids & cs & rs & s & [H3 Ht Hf Hp Hn Ho]).
  exists ids, cs, rs, s. split; [done|].
  assert (Hpre : ids `prefix_of` order cf).
  { destruct Hp as [[-> _]|(i & c & p & -> & _)]; [done|]. by apply prefix_app_r. }
  split; [|split; [done|split; [done|split; [done|split; [|split]]]]].
  - apply (lookups_submseteq _ ids).
    + destruct Hpre as [k Hk]. rewrite Hk in Hn. by apply NoDup_app in Hn as [Hn _].
    + clear Ht Hpre Hp. induction H3 as [|i c r ids cs rs Hi _ IH]; constructor; [|done].
      unfold calls. rewrite list_lookup_fmap. unfold returned in Hi. by rewrite Hi.
  - intros Hh. destruct Hp as [?|(i & c & p & _ & _ & Hh' & _)]; [done|congruence].
  - intros i c r Hr. destruct (decide (i ∈ ids)) as [|Hi]; [done|exfalso].
    destruct (decide (i ∈ order cf)) as [Hin|Hin].
    + destruct Hp as [[E _]|(j & d & p & E & Hj & _ & Hc & _)]; rewrite E in Hin; [done|].
      apply elem_of_app in Hin as [?| ->%list_elem_of_singleton]; [done|].
      unfold returned in Hr. by simplify_eq.
    + pose proof (Ho i _ Hr Hin) as E. simpl in E.
      destruct (locked_call c) as (B & act & k & Hcode & _). by rewrite Hcode in E.
  - intros i Hu. destruct (threads cf !! i) as [t|] eqn:Hi; [|unfold move in Hu; by rewrite Hi in Hu].
    exists t. split; [done|].
    assert (Hni : i ∉ ids) by (intros Hin; by rewrite (over_stuck _ _ _ _ _ H3 Hin) in Hu).
    split; [done|]. unfold move in Hu. rewrite Hi in Hu. simpl in Hu.
    destruct (decide (i ∈ order cf)) as [Hin|Hin].
    + destruct Hp as [[E _]|(j & d & p & E & Hj & _ & _ & Hsolo)]; rewrite E in Hin; [done|].
      apply elem_of_app in Hin as [?| ->%list_elem_of_singleton]; [done|]. simplify_eq/=.
      eapply solo_alone; [done|]. apply alone_undef.
      by destruct (step p (shared cf)) as [[[? ?]| |]|]; simplify_eq/=.
    + rewrite (Ho i t Hi Hin) in Hu.
      destruct (locked_call (call t)) as (B & act & k & Hcode & Hwait & Htake). rewrite Hcode in Hu.
      simpl in Hu. destruct (held (shared cf)) eqn:Hh; [by rewrite Hwait in Hu|].
      destruct (Htake _ Hh) as (b & s' & Hact & _). by rewrite Hact in Hu.
Qed.
End Atomic.
