(* ===== verification/DriverSteps.v ===== *)
(** * The driver's file operations, step by step (aesd-char-driver/main.c, aesd-circular-buffer.c)

    The operations of [CharDriver] as stepwise code: each access to a field of
    the ring that another thread may see is one action, in the order of the C
    statements.  [aesd_read] and [aesd_write] lock the mutex; [llseek] and
    [unlocked_ioctl] do not, so their reads of the ring can fall between the
    stores of a write.  An action that the C code does under the mutex and that
    only reads, or changes what only the holder of the mutex looks at, is not
    split further.  [implements] lemmas relate each operation to its definition
    in [CharDriver]. *)

From S2P Require Import Prelude CircularBuffer Kernel CharDriver DriverSpec DriverModule Interleaving.

(** ** Stores into the ring *)
Definition set_in (v : Z) (b : aesd_circular_buffer) : aesd_circular_buffer :=
  CircularBuffer (entry b) v (out_offs b) (full b).
Definition set_out (v : Z) (b : aesd_circular_buffer) : aesd_circular_buffer :=
  CircularBuffer (entry b) (in_offs b) v (full b).
Definition set_full (v : bool) (b : aesd_circular_buffer) : aesd_circular_buffer :=
  CircularBuffer (entry b) (in_offs b) (out_offs b) v.

Definition set_ptr (p : Z) (e : aesd_buffer_entry) : aesd_buffer_entry :=
  BufferEntry p (entry_size e).
Definition set_size (sz : Z) (e : aesd_buffer_entry) : aesd_buffer_entry :=
  BufferEntry (buffptr e) sz.

Definition ring_store (f : aesd_circular_buffer → aesd_circular_buffer) : prog driver unit :=
  atomic (modify (λ d, set_buffer (f (buffer (aesd_device d))) d)).

(** A store into the entry with index [in_offs]. *)
Definition entry_store (f : aesd_buffer_entry → aesd_buffer_entry) : M driver unit :=
  b ← gets (λ d, buffer (aesd_device d));
  e ← lift (array_get (entry b) (in_offs b));
  es ← lift (array_set (entry b) (in_offs b) (f e));
  modify (set_buffer (set_entries es b)).

(** Its two fields are stored one after the other. *)
Definition entry_stores (e : aesd_buffer_entry) : prog driver unit :=
  atomic (entry_store (set_ptr (buffptr e)));;
  atomic (entry_store (set_size (entry_size e))).

Definition ring_load {A} (f : aesd_circular_buffer → A) : prog driver A :=
  atomic (gets (λ d, f (buffer (aesd_device d)))).

(** The [size] of the entry with index [i]. *)
Definition load_size (i : Z) : M driver Z :=
  b ← gets (λ d, buffer (aesd_device d));
  e ← lift (array_get (entry b) i);
  mret (entry_size e).

(** ** aesd-circular-buffer.c *)
Definition get_count_steps : prog driver Z :=
  full ← ring_load full;
  if negb full then
    out ← ring_load out_offs;
    inn ← ring_load in_offs;
    if bool_decide (out <= inn) then
      inn ← ring_load in_offs;
      out ← ring_load out_offs;
      mret (u32 (inn - out))
    else
      inn ← ring_load in_offs;
      out ← ring_load out_offs;
      mret (u32 ((inn + MAXOPS) - out))
  else mret MAXOPS.

(** [while( index != buffer->out_offs )]. *)
Definition pass_again {S} (x : S * Z) : prog driver bool :=
  out ← ring_load out_offs; mret (bool_decide (x.2 ≠ out)).

Definition get_size_body (x : Z * Z) : prog driver (flow (Z * Z) Z) :=
  size ← atomic (load_size x.2);
  mret (Next (u64 (x.1 + size), u32 (x.2 + 1) mod MAXOPS)).

Definition get_size_steps : prog driver Z :=
  out ← ring_load out_offs;
  r ← do_while_p get_size_body pass_again (0, out);
  match r with
  | Return size => mret size
  | Next (size, _) => mret size
  end.

Definition fpos_body (entry_ptr entry_offset fpos : Z) (x : Z * Z)
    : prog driver (flow (Z * Z) (Z * Z)) :=
  if bool_decide (x.2 = entry_ptr) then
    size ← atomic (load_size entry_ptr);
    if bool_decide (entry_offset >= size) then mret (Return (1, fpos))
    else mret (Return (0, u64 (x.1 + entry_offset)))
  else
    size ← atomic (load_size x.2);
    mret (Next (u64 (x.1 + size), u32 (x.2 + 1) mod MAXOPS)).

Definition fpos_for_entry_steps (entry_ptr entry_offset fpos : Z) : prog driver (Z * Z) :=
  out ← ring_load out_offs;
  r ← do_while_p (fpos_body entry_ptr entry_offset fpos) pass_again (0, out);
  match r with
  | Return res => mret res
  | Next _ => mret (1, fpos)
  end.

(** [in_offs] and [out_offs] are computed
    from what the holder of the mutex alone changes. *)
Definition add_entry_steps (add_entry : aesd_buffer_entry) : prog driver unit :=
  entry_count ← get_count_steps;
  entry_stores add_entry;;
  ring_store (λ b, set_in (u8 ((in_offs b + 1) mod MAXOPS)) b);;
  if bool_decide (entry_count < MAXOPS) then
    if bool_decide (u32 (entry_count + 1) = MAXOPS) then ring_store (set_full true)
    else mret tt
  else ring_store (λ b, set_out (in_offs b) b).

(** ** main.c *)

(** [mutex_lock] waits for the mutex. *)
Definition lock_step : driver → option (outcome (unit * driver)) := λ d,
  if lock (aesd_device d) then None else Some (mutex_lock d).

Definition lock_steps : prog driver unit := Act lock_step mret.
Definition unlock_steps : prog driver unit := atomic mutex_unlock.

(** What a call gives: its return value, the file position and the user buffer. *)
Abbreviation reply := (Z * Z * list ascii)%type.

Section Driver.
Context `{KernelServices}.

(** [aesd_read] after the mutex has been taken. *)
Definition read_steps (buf : list ascii) (count f_pos : Z) : prog driver (Z * Z * list ascii) :=
  b ← ring_load (λ b, b);
  '(entry_ptr, offset) ←
    atomic (lift (aesd_circular_buffer_find_entry_offset_for_fpos b (u64 f_pos) 0));
  result ←
    match entry_ptr with
    | None => mret (0, f_pos, buf)
    | Some index =>
        if bool_decide (count = 0) then mret (0, f_pos, buf)
        else
          e ← atomic (lift (array_get (entry b) index));
          let bytes_to_copy :=
            if bool_decide (u64 (entry_size e - offset) < count)
            then u64 (entry_size e - offset) else count in
          src ← atomic (do_kread (buffptr e) offset bytes_to_copy);
          let '(buf', not_copied) := copy_to_user buf src in
          if bool_decide (not_copied ≠ 0) then mret (- EFAULT, f_pos, buf')
          else mret (s64 bytes_to_copy, s64 (u64 f_pos + bytes_to_copy), buf')
    end;
  unlock_steps;;
  mret result.

(** A full ring gives up its oldest entry. *)
Definition drop_oldest_steps : prog driver unit :=
  b ← ring_load (λ b, b);
  last_entry ← atomic (lift (array_get (entry b) (in_offs b)));
  atomic (do_kfree (buffptr last_entry));;
  entry_stores (BufferEntry 0 0).

(** The command goes to the ring. *)
Definition commit_steps (cur : aesd_buffer_entry) : prog driver unit :=
  count ← get_count_steps;
  (if bool_decide (count = MAXOPS) then drop_oldest_steps else mret tt);;
  add_entry_steps cur;;
  atomic (modify (set_current_entry (BufferEntry 0 0))).

(** [aesd_write] after the mutex has been taken. *)
Definition write_steps (buf : list ascii) (count : Z) : prog driver Z :=
  if bool_decide (count = 0) then unlock_steps;; mret 0
  else
    cur ← atomic (gets (λ d, current_entry (aesd_device d)));
    insert_pos ←
      (if bool_decide (buffptr cur = 0) then
         p ← atomic (do_kmalloc count);
         atomic (modify (set_current_entry (BufferEntry p count)));;
         mret 0
       else
         p ← atomic (do_krealloc (buffptr cur) (u64 (entry_size cur + count)));
         atomic (modify (set_current_entry (BufferEntry p (u64 (entry_size cur + count)))));;
         mret (entry_size cur));
    cur ← atomic (gets (λ d, current_entry (aesd_device d)));
    if bool_decide (buffptr cur = 0) then unlock_steps;; mret (- ENOMEM)
    else
      not_copied ← atomic (do_copy_from_user (buffptr cur) insert_pos buf count);
      if bool_decide (not_copied ≠ 0) then unlock_steps;; mret (- EFAULT)
      else
        last_byte ← atomic (do_kread (buffptr cur) (u64 (insert_pos + count - 1)) 1);
        (if bool_decide (last_byte = [newline]) then commit_steps cur else mret tt);;
        unlock_steps;;
        mret (s64 count).

Definition llseek_steps (f_pos offset whence : Z) : prog driver (Z * Z) :=
  sz ← get_size_steps;
  mret (fixed_size_llseek f_pos offset whence (s64 sz)).

Definition adjust_steps (f_pos write_cmd write_cmd_offset : Z) : prog driver (Z * Z) :=
  count ← get_count_steps;
  if bool_decide (write_cmd >= count) then mret (- EINVAL, f_pos)
  else
    out ← ring_load out_offs;
    let index := u32 (out + write_cmd) in
    size ← atomic (load_size index);
    if bool_decide (write_cmd_offset >= size) then mret (- EINVAL, f_pos)
    else
      found ← fpos_for_entry_steps index write_cmd_offset 0;
      if bool_decide (0 ≠ found.1) then mret (- EINVAL, f_pos)
      else mret (0, s64 found.2).

Definition ioctl_steps (f_pos cmd : Z) (arg : list ascii) : prog driver (Z * Z) :=
  if bool_decide (IOC_TYPE cmd ≠ AESD_IOC_MAGIC) then mret (- ENOTTY, f_pos)
  else if bool_decide (IOC_NR cmd > AESDCHAR_IOC_MAXNR) then mret (- ENOTTY, f_pos)
  else if bool_decide (cmd = AESDCHAR_IOCSEEKTO) then
    let '(bytes, not_copied) := copy_from_user arg sizeof_seekto in
    if bool_decide (0 ≠ not_copied) then mret (- EFAULT, f_pos)
    else
      let seek_to := seekto_of_bytes bytes in
      adjust_steps f_pos (write_cmd seek_to) (write_cmd_offset seek_to)
  else mret (- ENOTTY, f_pos).

(** ** The calls of the VFS *)
Definition vfs_code (o : op) : prog driver reply :=
  match o with
  | Open => mret (0, 0, [])
  | Release => mret (0, 0, [])
  | Read buf count f_pos => lock_steps;; read_steps buf count f_pos
  | Write buf count => lock_steps;; r ← write_steps buf count; mret (r, 0, [])
  | Llseek f_pos offset whence => r ← llseek_steps f_pos offset whence; mret (r, [])
  | Ioctl f_pos cmd arg => r ← ioctl_steps f_pos cmd arg; mret (r, [])
  end.

Definition vfs_call (o : op) : M driver reply :=
  match o with
  | Open => r ← aesd_open; mret (r, 0, [])
  | Release => r ← aesd_release; mret (r, 0, [])
  | Read buf count f_pos => aesd_read buf count f_pos
  | Write buf count => r ← aesd_write buf count; mret (r, 0, [])
  | Llseek f_pos offset whence => r ← llseek f_pos offset whence; mret (r, [])
  | Ioctl f_pos cmd arg => r ← unlocked_ioctl f_pos cmd arg; mret (r, [])
  end.
End Driver.
