(* ===== verification/DriverConcurrency.v ===== *)
(** * The driver's calls under concurrency

    The stepwise operations of [DriverSteps], run alone, do what [CharDriver]
    says ([implements]), whole calls included ([vfs_alone]). *)

From S2P Require Import Prelude CircularBuffer Kernel CharDriver DriverSpec DriverRefine DriverModule Interleaving Serializability DriverSteps.

(** ** The stepwise operations do what the sequential ones do *)

(** [solo] runs atomic actions whose results are known. *)
Ltac solo := repeat (eapply alone_step; [done|]; cbn beta iota); try apply alone_ret.

Lemma get_count_implements :
  implements get_count_steps (λ d, Done (aesd_circular_buffer_get_count (buffer (aesd_device d)), d)).
Proof.
  intros d _. unfold get_count_steps, aesd_circular_buffer_get_count. eapply alone_step; [done|].
  cbn beta. destruct (full (buffer (aesd_device d))); cbn [negb]; [constructor|].
  do 2 (eapply alone_step; [done|]; cbn beta). case_bool_decide; solo.
Qed.

Lemma pass_again_alone {S} (x : S * Z) d :
  alone (pass_again x) d (Done (bool_decide (x.2 ≠ out_offs (buffer (aesd_device d))), d)).
Proof. unfold pass_again. solo. Qed.

Lemma load_size_eq i d :
  load_size i d
  = (e ← array_get (entry (buffer (aesd_device d))) i; Done (entry_size e, d)).
Proof. unfold load_size. run. unfold lift, mbind at 1, M_bind. by destruct (array_get _ i). Qed.

(** Reading the size of an entry, then going on. *)
Lemma load_size_alone {B} (f : Z → prog driver B) i d (g : Z → outcome B) :
  (∀ e, array_get (entry (buffer (aesd_device d))) i = Done e →
     alone (f (entry_size e)) d (o ← g (entry_size e); Done (o, d))) →
  alone (atomic (load_size i) ≫= f) d
    (o ← (e ← array_get (entry (buffer (aesd_device d))) i; g (entry_size e)); Done (o, d)).
Proof.
  intros Hf. unfold array_get in *. pose proof (load_size_eq i d) as Hl. unfold array_get in Hl.
  case_bool_decide; [destruct (entry _ !! Z.to_nat i) as [e|]|]; simpl in *.
  - eapply alone_step; [simpl; by rewrite Hl|]. by apply Hf.
  - apply alone_undef. simpl. by rewrite Hl.
  - apply alone_undef. simpl. by rewrite Hl.
Qed.

(** A loop over the ring whose body is known. *)
Lemma ring_loop_alone {R} (d : driver) (body : Z * Z → prog driver (flow (Z * Z) R))
    (body' : Z * Z → outcome (flow (Z * Z) R)) (cond' : Z * Z → bool) fuel x {B} (f : _ → prog driver B)
    (g : flow (Z * Z) R → outcome B) :
  (∀ x, alone (body x) d (o ← body' x; Done (o, d))) →
  (∀ x, cond' x = bool_decide (x.2 ≠ out_offs (buffer (aesd_device d)))) →
  (∀ r, alone (f r) d (o ← g r; Done (o, d))) →
  (r ← do_while fuel body' cond' x; g r) ≠ NoFuel →
  alone (do_while_p body pass_again x ≫= f) d
    (o ← (r ← do_while fuel body' cond' x; g r); Done (o, d)).
Proof.
  intros Hb Hc Hf Hn.
  pose proof (alone_do_while d body pass_again body' cond' fuel x) as Hl.
  assert (Hcond : ∀ y, alone (pass_again y) d (Done (cond' y, d)))
    by (intros y; rewrite Hc; apply pass_again_alone).
  destruct (do_while fuel body' cond' x) as [r| |]; [| |done].
  - change (alone (do_while_p body pass_again x ≫= f) d (o ← g r; Done (o, d))).
    eapply alone_bind; [by apply Hl|apply Hf].
  - by apply alone_bind_undef, Hl.
Qed.

Lemma get_size_implements :
  implements get_size_steps
    (b ← gets (λ d, buffer (aesd_device d)); lift (aesd_circular_buffer_get_size b)).
Proof.
  intros d Hf. unfold get_size_steps. eapply alone_step; [done|]. cbn beta.
  apply (ring_loop_alone (R := Z)).
  - intros [size index]. unfold get_size_body.
    by apply load_size_alone with (g := λ sz : Z, Done (Next (u64 (size + sz), u32 (index + 1) mod MAXOPS)));
      constructor.
  - by intros [].
  - intros [[]|]; constructor.
  - intros E. apply Hf. run. unfold lift, aesd_circular_buffer_get_size. by rewrite E.
Qed.

Lemma fpos_for_entry_implements entry_ptr entry_offset fpos :
  implements (fpos_for_entry_steps entry_ptr entry_offset fpos)
    (b ← gets (λ d, buffer (aesd_device d));
     lift (aesd_circular_buffer_fpos_for_entry b entry_ptr entry_offset fpos)).
Proof.
  intros d Hf. unfold fpos_for_entry_steps. eapply alone_step; [done|]. cbn beta.
  apply (ring_loop_alone (R := Z * Z)).
  - intros [pos index]. unfold fpos_body. cbn [fst snd].
    destruct (decide (index = entry_ptr)) as [->|Hne].
    + rewrite bool_decide_true by done.
      pose (g := λ sz : Z, if bool_decide (entry_offset >= sz)
        then Done (Return (1, fpos)) else Done (Return (S := Z * Z) (0, u64 (pos + entry_offset)))).
      apply load_size_alone with (g := g). subst g. cbn beta.
      intros e _. case_bool_decide; constructor.
    + rewrite bool_decide_false by done.
      apply load_size_alone with (g := λ sz : Z, Done (Next (u64 (pos + sz), u32 (index + 1) mod MAXOPS))).
      intros e _. constructor.
  - by intros [].
  - intros [[]|[]]; constructor.
  - intros E. apply Hf. run. unfold lift, aesd_circular_buffer_fpos_for_entry. by rewrite E.
Qed.

(** ** Stores *)

Lemma entry_store_eq f d :
  entry_store f d
  = let b := buffer (aesd_device d) in
    (e ← array_get (entry b) (in_offs b);
     Done (tt, set_buffer (set_entries (<[Z.to_nat (in_offs b) := f e]> (entry b)) b) d)).
Proof.
  unfold entry_store. run. cbv zeta. unfold mbind at 1, M_bind, lift at 1, array_get.
  case_bool_decide as H0; [|done].
  destruct (entry (buffer (aesd_device d)) !! Z.to_nat _) as [e|] eqn:E; [|done]. cbn.
  apply lookup_lt_Some in E. unfold array_set. by rewrite bool_decide_true by lia.
Qed.

Lemma entry_stores_implements e :
  implements (entry_stores e)
    (b ← gets (λ d, buffer (aesd_device d));
     es ← lift (array_set (entry b) (in_offs b) e);
     modify (set_buffer (set_entries es b))).
Proof.
  intros d _. unfold entry_stores. run. set (b := buffer (aesd_device d)).
  destruct (decide (0 ≤ in_offs b < Z.of_nat (length (entry b)))) as [Hin|Hout].
  - rewrite (M_bind_lift _ _ _ _ (array_set_in _ _ _ Hin)).
    destruct (lookup_lt_is_Some_2 (entry b) (Z.to_nat (in_offs b))) as [e0 He0]; [lia|].
    assert (Hg : array_get (entry b) (in_offs b) = Done e0) by (apply array_get_Some; [lia|done]).
    eapply alone_atomic_bind; [rewrite entry_store_eq; cbv zeta; fold b; by rewrite Hg|].
    rewrite <- (list_insert_insert_eq (entry b) _ e (set_ptr (buffptr e) e0)).
    apply alone_atomic. rewrite entry_store_eq. cbn -[array_get].
    rewrite (array_get_Some _ _ (set_ptr (buffptr e) e0)); [|lia|apply list_lookup_insert_eq; fold b; lia].
    by destruct e.
  - assert (Hs : array_set (entry b) (in_offs b) e = Undef) by (unfold array_set; by rewrite bool_decide_false).
    assert (Hg : array_get (entry b) (in_offs b) = Undef).
    { unfold array_get. case_bool_decide; [|done]. by rewrite lookup_ge_None_2 by lia. }
    rewrite Hs. apply alone_atomic_undef. rewrite entry_store_eq. cbv zeta. fold b. by rewrite Hg.
Qed.

Lemma add_entry_implements e :
  implements (add_entry_steps e)
    (b ← gets (λ d, buffer (aesd_device d));
     b' ← lift (aesd_circular_buffer_add_entry b e);
     modify (set_buffer b')).
Proof.
  intros d Hn. unfold add_entry_steps. eapply alone_bind; [by apply get_count_implements|].
  run. unfold aesd_circular_buffer_add_entry in *. set (b := buffer (aesd_device d)) in *.
  pose proof (entry_stores_implements e d) as Hst. rewrite M_bind_gets in Hst. fold b in Hst. destruct (array_set (entry b) (in_offs b) e) as [es| |] eqn:E.
  - eapply alone_bind; [by apply Hst|]. unfold lift. simpl.
    eapply alone_step; [done|]. cbn beta.
    do 2 (case_bool_decide; [|solo]); solo.
  - by apply alone_bind_undef, Hst.
  - unfold array_set in E. by case_bool_decide.
Qed.

(** ** aesd_write *)
Section Equivalence.
Context `{KS : KernelServices}.

Lemma ring_load_implements {A} (f : aesd_circular_buffer → A) :
  implements (ring_load f) (gets (λ d, f (buffer (aesd_device d)))).
Proof. apply implements_atomic. Qed.

Hint Extern 1 (implements (ring_load _) _) => apply ring_load_implements : implements.
Hint Extern 1 (implements get_count_steps _) => apply get_count_implements : implements.
Hint Extern 1 (implements (entry_stores _) _) => apply entry_stores_implements : implements.
Hint Extern 1 (implements (add_entry_steps _) _) => apply add_entry_implements : implements.

(** [implements] goes through binds and tests. *)
Ltac implements :=
  repeat (intros; first
    [ solve [auto with implements] | apply implements_bind | apply implements_if
    | match goal with |- implements (match ?x with _ => _ end) _ => destruct x end ]).

Lemma kfree_buffer p d d' :
  do_kfree p d = Done (tt, d') → buffer (aesd_device d') = buffer (aesd_device d).
Proof. unfold do_kfree. destruct (kfree p (kern d)); [|done..]. by intros [= <-]. Qed.

Lemma drop_oldest_implements :
  implements drop_oldest_steps
    (b ← gets (λ d, buffer (aesd_device d));
     last_entry ← lift (array_get (entry b) (in_offs b));
     do_kfree (buffptr last_entry);;
     es ← lift (array_set (entry b) (in_offs b) (BufferEntry 0 0));
     modify (set_buffer (set_entries es b))).
Proof.
  eapply implements_ext; [unfold drop_oldest_steps; implements|].
  intros d. run. apply M_bind_cong; [done|]. intros e d' [_ ->]%lift_state.
  apply M_bind_cong; [done|]. intros [] d' E. run. by rewrite (kfree_buffer _ _ _ E).
Qed.

Hint Extern 1 (implements drop_oldest_steps _) => apply drop_oldest_implements : implements.

(** The sequential commit, as [aesd_write] has it. *)
Lemma commit_implements cur :
  implements (commit_steps cur)
    (b ← gets (λ d, buffer (aesd_device d));
     (if bool_decide (aesd_circular_buffer_get_count b = MAXOPS) then
        last_entry ← lift (array_get (entry b) (in_offs b));
        do_kfree (buffptr last_entry);;
        es ← lift (array_set (entry b) (in_offs b) (BufferEntry 0 0));
        modify (set_buffer (set_entries es b))
      else mret tt);;
     b ← gets (λ d, buffer (aesd_device d));
     b' ← lift (aesd_circular_buffer_add_entry b cur);
     modify (set_buffer b');;
     modify (set_current_entry (BufferEntry 0 0))).
Proof.
  eapply implements_ext.
  { unfold commit_steps. implements. }
  intros d. rewrite M_bind_gets. unfold mbind at 1, M_bind at 1.
  apply M_bind_cong; [case_bool_decide; [by run|done]|]. intros [] d' _. run.
  apply M_bind_cong; [done|]. intros b' d1 _. by run.
Qed.
Hint Extern 1 (implements (commit_steps _) _) => apply commit_implements : implements.

(** ** Whole calls *)

(** Taking a free mutex, then code that does what the rest of the call does. *)
Lemma lock_implements {A} (p : prog driver A) (m : M driver A) d :
  lock (aesd_device d) = false → implements p m → (mutex_lock;; m) d ≠ NoFuel →
  alone (lock_steps;; p) d ((mutex_lock;; m) d).
Proof.
  intros Hl Hp Hn. assert (Hm : mutex_lock d = Done (tt, set_lock true d))
    by (unfold mutex_lock; by rewrite Hl).
  rewrite (M_bind_Done _ _ _ _ _ Hm) in *. eapply alone_step; [|by apply Hp].
  simpl. unfold lock_step. by rewrite Hl, Hm.
Qed.

Lemma implements_ret_bind {A B} (p : prog driver A) (m : M driver A) (f : A → B) :
  implements p m → implements (a ← p; mret (f a)) (a ← m; mret (f a)).
Proof. intros Hp. apply implements_bind; [done|]. intros a. apply implements_ret. Qed.

Lemma read_implements buf count f_pos d :
  lock (aesd_device d) = false → aesd_read buf count f_pos d ≠ NoFuel →
  alone (lock_steps;; read_steps buf count f_pos) d (aesd_read buf count f_pos d).
Proof.
  intros Hl Hn. unfold aesd_read in *. apply lock_implements; [done| |done].
  unfold read_steps, unlock_steps. implements.
Qed.

Lemma write_implements buf count d :
  lock (aesd_device d) = false → aesd_write buf count d ≠ NoFuel →
  alone (lock_steps;; write_steps buf count) d (aesd_write buf count d).
Proof.
  intros Hl Hn. unfold aesd_write in *. apply lock_implements; [done| |done].
  unfold write_steps, unlock_steps. implements.
Qed.
Hint Extern 1 (implements get_size_steps _) => apply get_size_implements : implements.
Hint Extern 1 (implements (fpos_for_entry_steps _ _ _) _) =>
  apply fpos_for_entry_implements : implements.

Lemma llseek_implements f_pos offset whence :
  implements (llseek_steps f_pos offset whence) (llseek f_pos offset whence).
Proof.
  eapply implements_ext; [unfold llseek_steps; implements|]. intros d. unfold llseek. by run.
Qed.

Lemma adjust_implements f_pos cmd off :
  implements (adjust_steps f_pos cmd off) (aesd_adjust_file_offset f_pos cmd off).
Proof.
  eapply implements_ext.
  { unfold adjust_steps. implements. }
  intros d. unfold aesd_adjust_file_offset. run. unfold mbind at 1, M_bind at 1.
  case_bool_decide as Hc; [done|]. run. cbv zeta.
  set (index := u32 (out_offs (buffer (aesd_device d)) + cmd)). unfold load_size. run.
  apply M_bind_cong; [done|]. intros e d' [_ ->]%lift_state. run.
  case_bool_decide as Ho; [done|]. run. apply M_bind_cong; [done|]. by intros [] d1 _.
Qed.

Hint Extern 1 (implements (adjust_steps _ _ _) _) => apply adjust_implements : implements.

Lemma ioctl_implements f_pos cmd arg :
  implements (ioctl_steps f_pos cmd arg) (unlocked_ioctl f_pos cmd arg).
Proof. unfold ioctl_steps, unlocked_ioctl. implements. Qed.

Hint Extern 1 (implements (llseek_steps _ _ _) _) => apply llseek_implements : implements.
Hint Extern 1 (implements (ioctl_steps _ _ _) _) => apply ioctl_implements : implements.

(** A call that runs alone, from a state with a free mutex, does what its
    definition in [CharDriver] does. *)
Lemma vfs_alone o d :
  lock (aesd_device d) = false → vfs_call o d ≠ NoFuel → alone (vfs_code o) d (vfs_call o d).
Proof.
  intros Hl Hn. destruct o as [| |buf count pos|buf count|pos off wh|pos cmd arg];
    cbn [vfs_code vfs_call] in *.
  - constructor.
  - constructor.
  - by apply read_implements.
  - destruct (aesd_write buf count d) as [[r d']| |] eqn:E.
    + rewrite (M_bind_Done _ _ _ _ _ E) in *. rewrite <- (prog_bind_assoc lock_steps (λ _, write_steps buf count)).
      eapply alone_bind; [|constructor]. rewrite <- E. apply write_implements; [done|congruence].
    + rewrite (M_bind_Undef _ _ _ E) in *. rewrite <- (prog_bind_assoc lock_steps (λ _, write_steps buf count)). apply alone_bind_undef.
      rewrite <- E. apply write_implements; [done|congruence].
    + destruct Hn. unfold mbind, M_bind. by rewrite E.
  - apply implements_ret_bind; [apply llseek_implements|done].
  - apply implements_ret_bind; [apply ioctl_implements|done].
Qed.
End Equivalence.
