(* ===== verification/DriverDiscipline.v ===== *)
(** * Which of the driver's calls lock, which only read

    [aesd_read] and [aesd_write] work between taking and releasing the mutex and
    keep the ring's indices in range at every single store; [llseek] and the
    ioctl only read, whatever the stores of a write that runs at the same time. *)

From S2P Require Import Prelude CircularBuffer Kernel CharDriver DriverSpec DriverRefine DriverRead DriverModule Interleaving Serializability DriverSteps DriverConcurrency.

(** What holds of the ring at every moment. *)
Definition ring_in_range (d : driver) : Prop :=
  let b := buffer (aesd_device d) in
  length (entry b) = 10%nat ∧ 0 ≤ in_offs b < 10 ∧ 0 ≤ out_offs b < 10.

Definition mutex_held (d : driver) : bool := lock (aesd_device d).

(** An action of the holder of the mutex. *)
Definition frames {A} (m : M driver A) : Prop :=
  ∀ d a d', m d = Done (a, d') →
    mutex_held d' = mutex_held d ∧ (ring_in_range d → ring_in_range d').

Create HintDb frames.

Lemma frames_inside {A} (m : M driver A) : frames m → inside mutex_held ring_in_range (atomic m).
Proof. intros Hm. apply inside_atomic. exact Hm. Qed.

Lemma frames_same_device {A} (m : M driver A) :
  (∀ d a d', m d = Done (a, d') → aesd_device d' = aesd_device d) → frames m.
Proof. intros Hm d a d' E. unfold mutex_held, ring_in_range. by rewrite (Hm _ _ _ E). Qed.

Lemma frames_gets {A} (f : driver → A) : frames (gets f).
Proof. intros d a d' [= <- <-]. done. Qed.

Lemma frames_lift {A} (o : outcome A) : frames (lift o).
Proof. by intros d a d' [_ ->]%lift_state. Qed.

Lemma frames_current e : frames (modify (set_current_entry e)).
Proof. intros d a d' [= <- <-]. done. Qed.

Lemma frames_store f : frames (entry_store f).
Proof.
  intros d [] d'. rewrite entry_store_eq. cbv zeta.
  destruct (array_get _ _) as [e| |]; [|done..]. intros [= <-]. split; [done|].
  intros (Hl & Hi & Ho). split; [|done]. simpl. by rewrite length_insert.
Qed.

Section Kernel.
Context `{KernelServices}.

Lemma frames_kmalloc n : frames (do_kmalloc n).
Proof.
  apply frames_same_device. intros d a d'. unfold do_kmalloc.
  destruct (kmalloc n (kern d)). by intros [= <- <-].
Qed.

Lemma frames_krealloc p n : frames (do_krealloc p n).
Proof.
  apply frames_same_device. intros d a d'. unfold do_krealloc.
  destruct (krealloc p n (kern d)) as [[]| |]; [|done..]. by intros [= <- <-].
Qed.

Lemma frames_kfree p : frames (do_kfree p).
Proof.
  apply frames_same_device. intros d a d'. unfold do_kfree.
  destruct (kfree p (kern d)); [|done..]. by intros [= <- <-].
Qed.

Lemma frames_kread p off n : frames (do_kread p off n).
Proof.
  apply frames_same_device. intros d a d'. unfold do_kread.
  destruct (kread p off n (kern d)); [|done..]. by intros [= <- <-].
Qed.

Lemma frames_copy_from_user p off user n : frames (do_copy_from_user p off user n).
Proof.
  apply frames_same_device. intros d a d'. unfold do_copy_from_user.
  destruct (copy_from_user user n) as [data left].
  destruct (kwrite p off data (kern d)); [|done..]. by intros [= <- <-].
Qed.
End Kernel.

#[export] Hint Resolve frames_gets frames_lift frames_current frames_store frames_kmalloc
  frames_krealloc frames_kfree frames_kread frames_copy_from_user : frames.

Lemma set_in_inside :
  inside mutex_held ring_in_range (ring_store (λ b, set_in (u8 ((in_offs b + 1) mod MAXOPS)) b)).
Proof.
  apply frames_inside. intros d a d' [= <- <-]. split; [done|]. intros (Hl & Hi & Ho).
  split; [done|]. split; [|done]. simpl. unfold MAXOPS.
  pose proof (Z.mod_pos_bound (in_offs (buffer (aesd_device d)) + 1) 10). rewrite u8_id; lia.
Qed.

Lemma set_out_inside :
  inside mutex_held ring_in_range (ring_store (λ b, set_out (in_offs b) b)).
Proof. apply frames_inside. intros d a d' [= <- <-]. split; [done|]. by intros (Hl & Hi & Ho). Qed.

Lemma set_full_inside v : inside mutex_held ring_in_range (ring_store (set_full v)).
Proof. apply frames_inside. intros d a d' [= <- <-]. split; [done|]. by intros (Hl & Hi & Ho). Qed.

(** [inside] goes through the code under the mutex. *)
Ltac inside :=
  repeat (intros; first
    [ exact I | apply set_in_inside | apply set_out_inside | apply set_full_inside
    | apply frames_inside; solve [auto with frames]
    | apply inside_if
    | match goal with |- inside _ _ (match ?x with _ => _ end) => destruct x end
    | apply inside_bind ]).

Section Discipline.
Context `{KS : KernelServices}.

(** ** Code that ends by releasing the mutex *)

Lemma critical_unlock {A} (a : A) : critical mutex_held ring_in_range (unlock_steps;; mret a).
Proof.
  right. split; [|by exists a]. split; [done|]. intros d [] d'. unfold mutex_unlock.
  destruct (lock (aesd_device d)); [|done]. by intros [= <-].
Qed.

(** [critical] goes through the code up to the release. *)
Ltac critical :=
  repeat (intros; first
    [ apply critical_unlock | apply critical_if
    | match goal with |- critical _ _ (match ?x with _ => _ end) => destruct x end
    | apply critical_bind; [solve [inside]|] ]).

Lemma read_critical buf count f_pos :
  critical mutex_held ring_in_range (read_steps buf count f_pos).
Proof. unfold read_steps, ring_load. critical. Qed.

Lemma write_critical buf count :
  critical mutex_held ring_in_range (write_steps buf count).
Proof. unfold write_steps. critical. Qed.

(** ** Code that only reads *)

Lemma reads_load {A B} u (f : aesd_circular_buffer → A) (k : A → prog driver B) Q :
  (∀ d, ring_in_range d → reads ring_in_range u (k (f (buffer (aesd_device d)))) Q) →
  reads ring_in_range u (ring_load f ≫= k) Q.
Proof. intros Hk d Hd. split; [done|]. by apply Hk. Qed.

(** An index outside the array is where undefined behaviour comes from. *)
Lemma reads_load_size {B} (u : Prop) i (k : Z → prog driver B) Q :
  (0 ≤ i < 10 ∨ u) → (∀ sz, reads ring_in_range u (k sz) Q) →
  reads ring_in_range u (atomic (load_size i) ≫= k) Q.
Proof.
  intros Hi Hk d (Hl & _). simpl. rewrite load_size_eq. unfold array_get.
  case_bool_decide; [destruct (entry _ !! Z.to_nat i) as [e|] eqn:E|]; simpl.
  - by split.
  - apply lookup_ge_None in E. destruct Hi; [lia|done].
  - destruct Hi; [lia|done].
Qed.

(** How far a pass over the ring is from the index where it ends. *)
Definition rounds_left (d : driver) (x : Z * Z) : nat :=
  Z.to_nat ((out_offs (buffer (aesd_device d)) - x.2 - 1) mod 10).

Lemma rounds_left_dec d (acc acc' i : Z) :
  ring_in_range d → 0 ≤ i < 10 → (i + 1) mod 10 ≠ out_offs (buffer (aesd_device d)) →
  (rounds_left d (acc', ((i + 1) mod 10)%Z) < rounds_left d (acc, i))%nat.
Proof.
  intros (_ & _ & Ho) Hi Hne. unfold rounds_left. simpl.
  set (o := out_offs (buffer (aesd_device d))) in *. Z.div_mod_to_equations. lia.
Qed.

Lemma next_index i : 0 ≤ i < 10 → u32 (i + 1) mod MAXOPS = (i + 1) mod 10.
Proof. intros Hi. unfold MAXOPS. by rewrite u32_id by lia. Qed.

(** A pass over the ring stays in the array, whatever happens to [out_offs], and
    ends after one round when the ring is left alone. *)
Lemma reads_ring_loop {R B} u (P : Z → Prop) (body : Z * Z → prog driver (flow (Z * Z) R))
    (k : flow (Z * Z) R → prog driver B) acc i Q :
  0 ≤ i < 10 → P acc →
  (∀ acc i, 0 ≤ i < 10 → P acc →
     reads ring_in_range u (body (acc, i)) (λ o,
       match o with
       | Next x => P x.1 ∧ x.2 = (i + 1) mod 10
       | Return r => reads ring_in_range u (k (Return r)) Q
       end)) →
  (∀ x, P x.1 → reads ring_in_range u (k (Next x)) Q) →
  reads ring_in_range u (do_while_p body pass_again (acc, i) ≫= k) Q.
Proof.
  intros Hi HP Hbody Hk. exists (λ x, P x.1 ∧ 0 ≤ x.2 < 10). split; [done|]. split.
  - intros [acc1 j] [HP1 Hj]. eapply reads_mono; [by apply Hbody|].
    intros [[acc' j']|r]; [|done]. simpl. intros [HP' ->].
    intros d Hd. split; [done|]. simpl. case_bool_decide; [|by apply Hk].
    split; [done|]. by apply Z.mod_pos_bound.
  - intros d Hd. exists (rounds_left d). intros [acc1 j] [acc' j'] [HP1 Hj] Hb Hc. simpl in *.
    destruct (reads_alone ring_in_range _ _ _ d (Hbody acc1 j Hj HP1) Hd) as (o & Ho & Hres).
    rewrite (alone_unique _ _ _ _ Ho Hb) in Hres. destruct Hres as (_ & _ & Hres). simpl in Hres.
    pose proof (alone_unique _ _ _ _ (pass_again_alone (acc', j') d) Hc) as E.
    injection E as E. apply bool_decide_eq_true in E. simpl in E. subst j'.
    by apply rounds_left_dec.
Qed.

Lemma get_count_reads {B} (u : Prop) (k : Z → prog driver B) Q :
  (∀ n, 0 ≤ n < 2 ^ 32 → reads ring_in_range u (k n) Q) →
  reads ring_in_range u (get_count_steps ≫= k) Q.
Proof.
  intros Hk. apply reads_bind. unfold get_count_steps.
  apply reads_load. intros d _. destruct (full (buffer (aesd_device d))); cbn [negb].
  - by apply Hk.
  - do 2 (apply reads_load; intros). case_bool_decide;
      do 2 (apply reads_load; intros); apply Hk, u32_bound.
Qed.

Lemma get_size_reads {B} (u : Prop) (k : Z → prog driver B) Q :
  (∀ sz, 0 ≤ sz < 2 ^ 64 → reads ring_in_range u (k sz) Q) →
  reads ring_in_range u (get_size_steps ≫= k) Q.
Proof.
  intros Hk. apply reads_bind. unfold get_size_steps. apply reads_load. intros d (_ & _ & Ho).
  apply (reads_ring_loop u (λ sz, 0 ≤ sz < 2 ^ 64)); [done|done| |].
  - intros acc i Hi _. unfold get_size_body. apply reads_load_size; [by left|]. intros sz.
    split; [apply u64_bound|by apply next_index].
  - intros [sz i] Hsz. by apply Hk.
Qed.

Lemma fpos_for_entry_reads {B} (u : Prop) entry_ptr off (k : Z * Z → prog driver B) Q :
  0 ≤ entry_ptr < 10 ∨ u →
  (∀ r, (r.1 = 0 → 0 ≤ r.2 < 2 ^ 64) → reads ring_in_range u (k r) Q) →
  reads ring_in_range u (fpos_for_entry_steps entry_ptr off 0 ≫= k) Q.
Proof.
  intros Hp Hk. apply reads_bind. unfold fpos_for_entry_steps.
  apply reads_load. intros d (_ & _ & Ho).
  apply (reads_ring_loop u (λ _, True)); [done|done| |].
  - intros acc i Hi _. unfold fpos_body. cbn [fst snd]. case_bool_decide.
    + apply reads_load_size; [done|]. intros sz.
      case_bool_decide; apply Hk; [done|]. intros _. apply u64_bound.
    + apply reads_load_size; [by left|]. intros sz. split; [done|by apply next_index].
  - intros [acc i] _. by apply Hk.
Qed.

(** ** The ioctl *)

(** A seek that passes the checks may read outside the array unless it asks for
    the first command. *)
Definition seeks_past_first (o : op) : Prop :=
  match o with
  | Ioctl _ cmd arg =>
      cmd = AESDCHAR_IOCSEEKTO ∧ sizeof_seekto ≤ blen arg ∧ 0 < write_cmd (seekto_of_bytes arg)
  | _ => False
  end.

(** What a call without the mutex may return: [llseek] what the kernel computes
    for some size, the ioctl an error code or a position within [loff_t]. *)
Definition lockfree_result (o : op) (r : reply) : Prop :=
  match o with
  | Open | Release => r = (0, 0, [])
  | Llseek f_pos offset whence =>
      ∃ sz, 0 ≤ sz < 2 ^ 64 ∧ r = (fixed_size_llseek f_pos offset whence (s64 sz), [])
  | Ioctl f_pos cmd arg =>
      (∃ err, err ∈ [EINVAL; EFAULT; ENOTTY] ∧ r = (- err, f_pos, [])) ∨
      (∃ p, - 2 ^ 63 ≤ p < 2 ^ 63 ∧ r = (0, p, []) ∧ cmd = AESDCHAR_IOCSEEKTO)
  | _ => False
  end.

Lemma adjust_reads (u : Prop) f_pos cmd off Q :
  0 ≤ cmd < 2 ^ 32 → (0 < cmd → u) →
  Q (- EINVAL, f_pos) → (∀ p, - 2 ^ 63 ≤ p < 2 ^ 63 → Q (0, p)) →
  reads ring_in_range u (adjust_steps f_pos cmd off) Q.
Proof.
  intros Hcmd Hu He Hq. unfold adjust_steps. apply get_count_reads. intros n _.
  case_bool_decide; [done|]. apply reads_load. intros d (_ & _ & Ho). cbv zeta.
  assert (Hin : 0 ≤ u32 (out_offs (buffer (aesd_device d)) + cmd) < 10 ∨ u).
  { destruct (decide (cmd = 0)) as [->|]; [left; rewrite u32_id; lia|right; apply Hu; lia]. }
  apply reads_load_size; [done|]. intros sz. case_bool_decide; [done|].
  apply fpos_for_entry_reads; [done|]. intros [err p] Hr. case_bool_decide; [done|].
  apply Hq. simpl. unfold s64. pose proof (Z.mod_pos_bound (p + 2 ^ 63) (2 ^ 64)). lia.
Qed.
End Discipline.

Section Laws.
Context `{KS : KernelServices, KL : !KernelLaws}.

Lemma seekto_of_copy arg bytes left :
  copy_from_user arg sizeof_seekto = (bytes, left) → left = 0 →
  sizeof_seekto ≤ blen arg ∧ seekto_of_bytes bytes = seekto_of_bytes arg.
Proof.
  intros Hc Hl. destruct (copy_from_user_law arg 8 bytes left) as (_ & _ & _ & Hok); [lia|done|].
  destruct (Hok Hl) as [Hle ->]. split; [done|]. unfold seekto_of_bytes.
  change (Z.to_nat 8) with 8%nat. by rewrite take_take, skipn_firstn_comm, take_take.
Qed.

Lemma ioctl_reads f_pos cmd arg :
  reads ring_in_range (seeks_past_first (Ioctl f_pos cmd arg)) (ioctl_steps f_pos cmd arg)
    (λ r, lockfree_result (Ioctl f_pos cmd arg) (r, [])).
Proof.
  unfold ioctl_steps, lockfree_result.
  assert (Herr : ∀ err, err ∈ [EINVAL; EFAULT; ENOTTY] →
    reads ring_in_range (seeks_past_first (Ioctl f_pos cmd arg))
      (mret (- err, f_pos) : prog driver (Z * Z)) (λ r, lockfree_result (Ioctl f_pos cmd arg) (r, []))).
  { intros err He. left. by exists err. }
  case_bool_decide; [apply Herr; set_solver|]. case_bool_decide; [apply Herr; set_solver|].
  case_bool_decide as Hcmd; [|apply Herr; set_solver].
  destruct (copy_from_user arg sizeof_seekto) as [bytes left] eqn:Hc.
  case_bool_decide; [apply Herr; set_solver|]. cbv zeta.
  destruct (seekto_of_copy _ _ _ Hc) as [Hle ->]; [lia|]. apply adjust_reads.
  - apply le_decode_u32.
  - by intros ?.
  - left. exists EINVAL. split; [set_solver|done].
  - intros p Hp. right. by exists p.
Qed.

Lemma lockfree_reads o :
  (∀ buf count pos, o ≠ Read buf count pos) → (∀ buf count, o ≠ Write buf count) →
  reads ring_in_range (seeks_past_first o) (vfs_code o) (lockfree_result o).
Proof.
  intros Hr Hw. destruct o as [| |buf count pos|buf count|pos off wh|pos cmd arg];
    cbn [vfs_code]; [done|done|by destruct (Hr buf count pos)|by destruct (Hw buf count)| |].
  - apply reads_bind. unfold llseek_steps. apply get_size_reads. intros sz Hsz. by exists sz.
  - apply reads_bind. eapply reads_mono; [apply ioctl_reads|]. by intros [].
Qed.
End Laws.
