(* ===== verification/DriverInterleavings.v ===== *)
(** * Theorems on the driver under concurrency

    Any number of threads inside the driver, each in one call of the VFS, under
    every interleaving of their steps; [driver_laws] makes the driver an instance
    of [CallLaws].  File positions belong to the calls: the
    kernel serialises the calls that share an open file by a lock of its own,
    except for the ioctl. *)

From S2P Require Import Prelude CircularBuffer Kernel CharDriver DriverSpec DriverRefine DriverRead DriverModule DriverTheorems Stdio ServerDevice Interleaving Serializability DriverSteps DriverConcurrency DriverDiscipline.

(** ** The driver as an instance of the interface *)
Definition locks (o : op) : bool :=
  match o with Read _ _ _ | Write _ _ => true | _ => false end.

#[export] Instance driver_calls `{KernelServices} : Calls driver op reply := {
  held := mutex_held;
  code := vfs_code;
  locked := locks;
}.

Definition in_service (d : driver) : Prop := ∃ L s, represents L d s ∧ log_ok s.

Section Instance.
Context `{KS : KernelServices, KL : !KernelLaws}.

Lemma in_service_free d : in_service d → mutex_held d = false ∧ ring_in_range d.
Proof.
  intros (L & s & [Hl HR] & _). split; [done|].
  destruct (rep_wf _ _ _ _ _ HR) as [Hlen Hin Hout _ _ _]. exact (conj Hlen (conj Hin Hout)).
Qed.

Lemma locked_code_driver o :
  locks o = true →
  ∃ B (act : driver → option (outcome (B * driver))) k, vfs_code o = Act act k ∧
    (∀ d, mutex_held d = true → act d = None) ∧
    (∀ d, mutex_held d = false → ∃ b d', act d = Some (Done (b, d')) ∧ mutex_held d' = true ∧
       (ring_in_range d → ring_in_range d') ∧ critical mutex_held ring_in_range (k b)).
Proof.
  intros Ho. destruct o as [| |buf count pos|buf count|pos off wh|pos cmd arg]; try done;
    (eexists unit, lock_step, _; split; [done|]);
    (split; [intros d Hd; unfold lock_step, mutex_held in *; by rewrite Hd|]);
    (intros d Hd; exists tt, (set_lock true d);
     split; [unfold lock_step, mutex_lock, mutex_held in *; by rewrite Hd|];
     split; [done|]; split; [done|]).
  - apply read_critical.
  - by apply critical_ret, write_critical.
Qed.

Lemma ret_unit_inv {A} (m : M driver A) d u d' :
  (m;; mret tt) d = Done (u, d') → ∃ a, m d = Done (a, d').
Proof.
  unfold mbind, M_bind. destruct (m d) as [[a d1]| |]; [|done..]. intros [= _ <-]. by exists a.
Qed.

(** Calls under the mutex, one after another, stay in service. *)
Lemma locked_call_run o d :
  locks o = true → op_ok o → in_service d →
  ∃ r d', vfs_call o d = Done (r, d') ∧ in_service d'.
Proof.
  intros Ho Hok (L & s & HR & Hlog).
  assert (Hrun : ∃ r d', vfs_call o d = Done (r, d') ∧ exec o d = Done (tt, d')).
  { destruct (exec_run L d s o HR Hlog Hok) as [[_ Hs]|(_ & d' & _ & _ & He & _)];
      destruct o as [| |buf count pos|buf count|pos off wh|pos cmd arg]; try done.
    - destruct (ret_unit_inv _ _ _ _ He) as [r Hr]. by exists r, d'.
    - destruct (ret_unit_inv _ _ _ _ He) as [r Hr]. exists (r, 0, []), d'.
      split; [|done]. cbn [vfs_call]. by rewrite (M_bind_Done _ _ _ _ _ Hr). }
  destruct Hrun as (r & d' & Hc & He). exists r, d'. split; [done|].
  destruct (exec_run L d s o HR Hlog Hok) as [[Hu _]|(_ & d2 & L' & s' & He' & HR' & _ & Hlog')];
    [congruence|]. rewrite He in He'. simplify_eq. by exists L', s'.
Qed.

Lemma locked_calls_run os d :
  in_service d → Forall op_ok os → Forall (λ o, locks o = true) os →
  ∃ rs d', serial vfs_call os d = Done (rs, d') ∧ in_service d'.
Proof.
  intros Hd Hok Hl. revert d Hd. induction os as [|o os IH]; intros d Hd; [by exists [], d|].
  apply Forall_cons in Hok as [Ho Hok]. apply Forall_cons in Hl as [Hlo Hl].
  destruct (locked_call_run o d Hlo Ho Hd) as (r & d1 & Hc & Hd1).
  destruct (IH Hok Hl d1 Hd1) as (rs & d2 & Hs & Hd2). exists (r :: rs), d2. split; [|done].
  by apply (serial_cons (C := op) (R := reply)) with (s1 := d1).
Qed.

Lemma locked_run_driver o d r d' :
  locks o = true → mutex_held d = false → vfs_call o d = Done (r, d') →
  alone (vfs_code o) d (Done (r, d')).
Proof. intros _ Hh Hc. rewrite <- Hc. apply vfs_alone; [exact Hh|congruence]. Qed.

Lemma reading_code_driver o :
  locks o = false → op_ok o →
  reads ring_in_range (seeks_past_first o) (vfs_code o) (lockfree_result o).
Proof. intros Ho _. apply lockfree_reads; intros; by intros ->. Qed.

#[export] Instance driver_laws : CallLaws driver op reply vfs_call := {
  stable := ring_in_range;
  call_ok := op_ok;
  may_overrun := seeks_past_first;
  result_ok := lockfree_result;
  locked_code := locked_code_driver;
  locked_run := locked_run_driver;
  reading_code := reading_code_driver;
}.
End Instance.

(** Which calls may arrive: any, with arguments within their types' ranges. *)
Lemma op_ok_some os os' : os ⊆+ os' → Forall op_ok os' → Forall op_ok os.
Proof.
  intros Hsub Hok. apply Forall_forall. intros o Ho. rewrite Forall_forall in Hok.
  apply Hok. by eapply elem_of_submseteq.
Qed.

(** What the laws give for calls that start on a driver in service. *)
Lemma started `{KS : KernelServices, KL : !KernelLaws} L d0 s0 :
  represents L d0 s0 → log_ok s0 →
  in_service d0 ∧ held (C := op) (R := reply) d0 = false ∧ stable (C := op) (R := reply) d0 ∧
  ∀ os, Forall op_ok os → Forall (λ o, locks o = true) os →
    ∃ rs d, serial vfs_call os d0 = Done (rs, d).
Proof.
  intros HR Hlog. assert (Hd : in_service d0) by by exists L, s0.
  split; [done|]. destruct (in_service_free d0 Hd) as [Hf Hr]. do 2 (split; [done|]).
  intros os Hok Hl. destruct (locked_calls_run os d0 Hd Hok Hl) as (rs & d & Hs & _). by exists rs, d.
Qed.

(** The pool of the driver's calls. *)
Abbreviation pool := (config driver op reply).

(** ** Calls one at a time *)

#[local] Existing Instance DriverTheorems.ref_services.
#[local] Existing Instance DriverTheorems.ref_laws.


(** The stepwise code of every call, run alone from a state in service, ends
    with exactly what its definition in [CharDriver] gives, undefined behaviour
    included. *)
Lemma steps_equivalent {KS : KernelServices} {KL : KernelLaws} L d s o out :
  represents L d s → log_ok s → op_ok o →
  alone (vfs_code o) d out ↔ out = vfs_call o d.
Proof.
  intros HR Hlog Hok.
  assert (Ha : alone (vfs_code o) d (vfs_call o d)).
  { apply vfs_alone; [apply HR|]. 
    destruct (exec_run L d s o HR Hlog Hok) as [[He _]|(_ & d' & _ & _ & He & _)];
      intros Hn; destruct o as [| |buf count pos|buf count|pos off wh|pos cmd arg];
      unfold vfs_call, exec, mbind, M_bind in *; repeat case_match; simplify_eq/=. }
  split; [intros Ho; by eapply alone_unique|by intros ->].
Qed.

(** ** Reads and writes as atomic operations on the log *)

(** What a read or a write of readable bytes does to the log when memory is
    there. *)
Definition atomic_call `{KernelServices} (o : op) (s : spec) : reply * spec :=
  match o with
  | Read buf count f_pos => (read_result buf f_pos (spec_read s f_pos count), s)
  | Write buf count =>
      ((count, 0, []),
       if bool_decide (count = 0) then s else spec_write s (take (Z.to_nat count) buf))
  | _ => ((0, 0, []), s)
  end.

Fixpoint atomic_calls `{KernelServices} (os : list op) (s : spec) : list reply * spec :=
  match os with
  | [] => ([], s)
  | o :: os' =>
      let '(r, s1) := atomic_call o s in
      let '(rs, s2) := atomic_calls os' s1 in (r :: rs, s2)
  end.

(** The bytes a call asks the driver to store. *)
Definition cost (o : op) : Z := match o with Write _ count => count | _ => 0 end.

Definition readable (o : op) : Prop :=
  op_ok o ∧ match o with Write buf count => count ≤ blen buf | _ => True end.

Lemma cost_nonneg o : readable o → 0 ≤ cost o.
Proof. intros [Hok _]. destruct o; simpl in *; lia. Qed.

Lemma costs_nonneg os : Forall readable os → 0 ≤ Zsum (cost <$> os).
Proof. intros Hos. apply Zsum_nonneg, Forall_fmap. eapply Forall_impl; [done|apply cost_nonneg]. Qed.

(** The calls of distinct threads cost no more than all calls. *)
Lemma costs_submseteq os os' :
  os ⊆+ os' → Forall readable os' → Zsum (cost <$> os) ≤ Zsum (cost <$> os').
Proof.
  intros [ks ->]%submseteq_Permutation Hr. apply Forall_app in Hr as [_ Hks].
  apply costs_nonneg in Hks. rewrite fmap_app, Zsum_app. lia.
Qed.

Section Atomic.
Context `{KS : KernelServices, KL : !KernelLaws} (limit : Z) `{AM : !AmpleMemory limit}.

Lemma atomic_call_run d s o r d' :
  represents ∅ d s → readable o → locks o = true → stored s + cost o ≤ limit → limit < 2 ^ 62 →
  vfs_call o d = Done (r, d') →
  r = (atomic_call o s).1 ∧ represents ∅ d' (atomic_call o s).2 ∧
    stored (atomic_call o s).2 ≤ stored s + cost o.
Proof.
  intros HR [Hok Hrd] Hl Hst Hlim Hc.
  destruct o as [| |buf count pos|buf count|pos off wh|pos cmd arg]; try done; simpl in *.
  - rewrite (read_run ∅ d s) in Hc by (done || lia). simplify_eq. split; [done|split; [done|lia]].
  - destruct (write_run ∅ d s buf count HR Hok) as (d1 & Hw & Hpost).
    rewrite (M_bind_Done _ _ _ _ _ Hw) in Hc. injection Hc as <- <-. case_bool_decide; simplify_eq/=.
    { split; [done|split; [done|lia]]. }
    destruct (allocation _ _ _) eqn:Ha; [|by apply (ample_allocation limit) with (s := s) in Ha; try lia].
    rewrite bool_decide_true in Hpost |- * by done. split; [done|split; [done|]].
    pose proof (stored_write s (take (Z.to_nat count) buf)). unfold strlen in *.
    rewrite length_take in *. lia.
Qed.

Lemma atomic_calls_run os d s rs d' :
  represents ∅ d s → Forall readable os → Forall (λ o, locks o = true) os →
  stored s + Zsum (cost <$> os) ≤ limit → limit < 2 ^ 62 → serial vfs_call os d = Done (rs, d') →
  rs = (atomic_calls os s).1 ∧ represents ∅ d' (atomic_calls os s).2.
Proof.
  revert d s rs. induction os as [|o os IH]; intros d s rs HR Hrd Hl Hst Hlim Hs.
  { by injection Hs as <- <-. }
  change (Zsum (cost <$> o :: os)) with (cost o + Zsum (cost <$> os)) in Hst.
  apply Forall_cons in Hrd as [Hr1 Hrd]. apply Forall_cons in Hl as [Hl1 Hl].
  pose proof (costs_nonneg _ Hrd).
  apply serial_cons_inv in Hs as (r & d1 & rs1 & Hc & Hs & ->).
  destruct (atomic_call_run d s o r d1) as (-> & HR1 & Hst1); [done..|lia|done|done|].
  simpl. destruct (atomic_call o s) as [r s1]. simpl in *.
  destruct (IH d1 s1 rs1) as [-> HR2]; [done..|lia|done|done|].
  by destruct (atomic_calls os s1).
Qed.
End Atomic.

(** ** Any interleaving *)

(** A write, a read and an [llseek] at once: the read waits while the write
    holds the mutex, the [llseek] runs in between and has not returned yet. *)
Definition sample_calls : list op :=
  [Write (line "c") 2; Read (bytes "........") 8 6; Llseek 0 0 SEEK_END].

Definition sample_pool : pool :=
  pool_after
    ((Arrive <$> sample_calls) ++ replicate 5 (Move 0) ++ replicate 7 (Move 2)
     ++ replicate 17 (Move 0) ++ replicate 6 (Move 1) ++ replicate 3 (Move 2))
    (idle short_driver).

Lemma sample_run : pool_run (idle short_driver) sample_pool.
Proof. apply pool_after_run. constructor. Qed.

Lemma sample_threads : calls sample_pool = sample_calls.
Proof. by vm_compute. Qed.

Lemma sample_ok : Forall op_ok (calls sample_pool).
Proof. rewrite sample_threads. repeat constructor; vm_compute; discriminate. Qed.

Lemma sample_replies :
  replies sample_pool
  = [Some (2, 0, []); Some (6, 12, line "world" ++ bytes ".."); None].
Proof. by vm_compute. Qed.

(** C10: whatever calls arrive and however their steps interleave, allocation
    failures and faulting copies included, the reads and writes have the same
    results and leave the same driver as if they had run one after another in the
    order in which they took the mutex; only the call that holds the mutex is
    still open, and between critical sections the driver represents a log. *)
Theorem calls_serializable {KS : KernelServices} {KL : KernelLaws} L d0 s0 (cf : pool) :
  represents L d0 s0 → log_ok s0 → pool_run (idle d0) cf → Forall op_ok (calls cf) →
  ∃ ids os rs d,
    serial vfs_call os d0 = Done (rs, d) ∧ (∃ L' s, represents L' d s ∧ log_ok s) ∧
    Forall3 (returned cf) ids os rs ∧ NoDup (order cf) ∧ ids `prefix_of` order cf ∧
    (mutex_held (shared cf) = false → order cf = ids ∧ shared cf = d) ∧
    (∀ i o r, returned cf i o r → locks o = true → i ∈ ids).
Proof.
  intros HR Hlog Hrun Hok. destruct (started L d0 s0 HR Hlog) as (Hd & Hfree & Hring & Hser).
  destruct (interleaving_serial (C := op) (R := reply) d0 Hfree Hring (Forall op_ok) op_ok_some (λ _ h, h) Hser cf Hrun Hok)
    as (ids & os & rs & d & Hs & Hlk & Hsub & H3 & Hn & Hp & Hf & Hr).
  destruct (locked_calls_run os d0 Hd) as (rs' & d' & Hs' & Hd'); [by eapply op_ok_some|done|].
  assert (d' = d) as -> by (rewrite Hs in Hs'; by simplify_eq).
  exists ids, os, rs, d. do 6 (split; [done|]). intros i o r Hi Hl.
  specialize (Hr i o r Hi). simpl in Hr. by rewrite Hl in Hr.
Qed.

Lemma calls_serializable_witness :
  order sample_pool = [0; 1]%nat ∧ mutex_held (shared sample_pool) = false ∧
  ∃ ids os rs d,
    serial vfs_call os short_driver = Done (rs, d) ∧ (∃ L' s, represents L' d s ∧ log_ok s) ∧
    Forall3 (returned sample_pool) ids os rs ∧ NoDup (order sample_pool) ∧
    ids `prefix_of` order sample_pool ∧
    (mutex_held (shared sample_pool) = false →
      order sample_pool = ids ∧ shared sample_pool = d) ∧
    (∀ i o r, returned sample_pool i o r → locks o = true → i ∈ ids).
Proof.
  split; [by vm_compute|]. split; [by vm_compute|].
  apply (calls_serializable ∅ short_driver short_spec sample_pool);
    [apply short_rep|apply short_log_ok|apply sample_run|apply sample_ok].
Defined.

(** C11: with readable data and memory to spare, concurrent reads and writes are
    atomic operations on the abstract log: each write returns its size and its
    bytes are appended, each read returns the log's bytes as of its turn, in the
    order in which the calls took the mutex, and the log that the driver holds
    between critical sections is the result. *)
Theorem concurrent_log {KS : KernelServices} {KL : KernelLaws} limit
    `{AM : !AmpleMemory limit} d0 s0 (cf : pool) :
  represents ∅ d0 s0 → log_ok s0 → pool_run (idle d0) cf → Forall readable (calls cf) →
  stored s0 + Zsum (cost <$> calls cf) ≤ limit → limit < 2 ^ 62 →
  ∃ ids os,
    Forall3 (returned cf) ids os (atomic_calls os s0).1 ∧
    NoDup (order cf) ∧ ids `prefix_of` order cf ∧
    (mutex_held (shared cf) = false →
      order cf = ids ∧ represents ∅ (shared cf) (atomic_calls os s0).2) ∧
    (∀ i o r, returned cf i o r → locks o = true → i ∈ ids).
Proof.
  intros HR Hlog Hrun Hrd Hst Hlim.
  assert (Hok : Forall op_ok (calls cf)) by (eapply Forall_impl; [exact Hrd|by intros o []]).
  destruct (started ∅ d0 s0 HR Hlog) as (_ & Hfree & Hring & Hser).
  destruct (interleaving_serial (C := op) (R := reply) d0 Hfree Hring (Forall op_ok) op_ok_some (λ _ h, h) Hser cf Hrun Hok)
    as (ids & os & rs & d & Hs & Hl & Hsub & H3 & Hn & Hp & Hf & Hr).
  destruct (atomic_calls_run limit os d0 s0 rs d) as [-> HR']; [done| |done| |done|done|].
  - apply Forall_forall. intros o Ho. rewrite Forall_forall in Hrd. apply Hrd.
    by eapply elem_of_submseteq.
  - pose proof (costs_submseteq os _ Hsub Hrd). lia.
  - exists ids, os. do 3 (split; [done|]). split.
    + intros Hh. destruct (Hf Hh) as [-> ->]. by split.
    + intros i o r Hi Ho. specialize (Hr i o r Hi). simpl in Hr. by rewrite Ho in Hr.
Qed.

Lemma concurrent_log_witness :
  (atomic_calls (take 2 sample_calls) short_spec).1
  = [(2, 0, []); (6, 12, line "world" ++ bytes "..")] ∧
  ∃ ids os,
    Forall3 (returned sample_pool) ids os (atomic_calls os short_spec).1 ∧
    NoDup (order sample_pool) ∧ ids `prefix_of` order sample_pool ∧
    (mutex_held (shared sample_pool) = false →
      order sample_pool = ids ∧
      represents ∅ (shared sample_pool) (atomic_calls os short_spec).2) ∧
    (∀ i o r, returned sample_pool i o r → locks o = true → i ∈ ids).
Proof.
  split; [by vm_compute|].
  apply (concurrent_log (AM := reference_ample) (2 ^ 60) short_driver short_spec sample_pool).
  - apply short_rep.
  - apply short_log_ok.
  - apply sample_run.
  - rewrite sample_threads. repeat constructor; vm_compute; discriminate.
  - rewrite sample_threads. vm_compute. discriminate.
  - by vm_compute.
Defined.

(** C20: at every moment of every interleaving, between any two stores of a write
    too, the ring has its ten entries and both of its [uint8_t] indices are
    below ten: every access of every thread that goes by them stays inside. *)
Theorem ring_typed {KS : KernelServices} {KL : KernelLaws} L d0 s0 (cf : pool) :
  represents L d0 s0 → log_ok s0 → pool_run (idle d0) cf → Forall op_ok (calls cf) →
  let b := buffer (aesd_device (shared cf)) in
  length (entry b) = 10%nat ∧ 0 ≤ in_offs b < 10 ∧ 0 ≤ out_offs b < 10.
Proof.
  intros HR Hlog Hrun Hok. destruct (started L d0 s0 HR Hlog) as (_ & Hfree & Hring & Hser).
  destruct (interleaving_stable (C := op) (R := reply) d0 Hfree Hring (Forall op_ok) op_ok_some
    (λ _ h, h) Hser cf Hrun Hok) as (Hlen & Hin & Hout). split; [|by split].
  unfold MAXOPS in *. lia.
Qed.

Lemma ring_typed_witness :
  calls sample_pool = sample_calls ∧
  let b := buffer (aesd_device (shared sample_pool)) in
  length (entry b) = 10%nat ∧ 0 ≤ in_offs b < 10 ∧ 0 ≤ out_offs b < 10.
Proof.
  split; [exact sample_threads|].
  apply (ring_typed ∅ short_driver short_spec sample_pool);
    [apply short_rep|apply short_log_ok|apply sample_run|apply sample_ok].
Defined.

(** A call that takes no lock returns, however writes interleave with it: an
    ioctl an error code with the position unchanged or 0 with a position within
    [loff_t], an [llseek] what the kernel computes for some file size below
    2^64. *)
Lemma lockfree_results {KS : KernelServices} {KL : KernelLaws} L d0 s0 (cf : pool) i o r :
  represents L d0 s0 → log_ok s0 → pool_run (idle d0) cf → Forall op_ok (calls cf) →
  returned cf i o r → locks o = false → lockfree_result o r.
Proof.
  intros HR Hlog Hrun Hok Hi Ho. destruct (started L d0 s0 HR Hlog) as (_ & Hfree & Hring & Hser).
  destruct (interleaving_serial (C := op) (R := reply) d0 Hfree Hring (Forall op_ok) op_ok_some (λ _ h, h) Hser cf Hrun Hok)
    as (ids & os & rs & d & _ & _ & _ & _ & _ & _ & _ & Hr).
  specialize (Hr i o r Hi). simpl in Hr. by rewrite Ho in Hr.
Qed.

(** C12: in every interleaving the only steps with undefined behaviour belong to
    seek commands for a command other than the first; and nothing waits for ever:
    from every state that is reached the threads can be scheduled so that every
    call returns, unless one of them is such a seek. *)
Theorem calls_progress {KS : KernelServices} {KL : KernelLaws} L d0 s0 (cf : pool) :
  represents L d0 s0 → log_ok s0 → pool_run (idle d0) cf → Forall op_ok (calls cf) →
  (∀ i t, threads cf !! i = Some t →
    move i cf ≠ Some NoFuel ∧ (move i cf = Some Undef → seeks_past_first (call t))) ∧
  ∃ es, Forall (λ e, ∃ i, e = Move i) es ∧
    match schedule es cf with
    | Some (Done cf') => all_returned cf' ∧ calls cf' = calls cf
    | Some Undef => ∃ o, o ∈ calls cf ∧ seeks_past_first o
    | _ => False
    end.
Proof.
  intros HR Hlog Hrun Hok. destruct (started L d0 s0 HR Hlog) as (_ & Hfree & Hring & Hser). split.
  - intros i t Hi.
    destruct (interleaving_undef (C := op) (R := reply) d0 Hfree Hring (Forall op_ok) op_ok_some
      (λ _ h, h) Hser cf i t Hrun Hok Hi) as [Hf Hu].
    split; [done|]. intros E. by destruct (Hu E).
  - exact (interleaving_finishes (C := op) (R := reply) d0 Hfree Hring (Forall op_ok) op_ok_some
      (λ _ h, h) Hser cf Hrun Hok).
Qed.

Lemma calls_progress_witness :
  (∀ i t, threads sample_pool !! i = Some t →
    move i sample_pool ≠ Some NoFuel ∧
    (move i sample_pool = Some Undef → seeks_past_first (call t))) ∧
  ∃ es, Forall (λ e, ∃ i, e = Move i) es ∧
    match schedule es sample_pool with
    | Some (Done cf') => all_returned cf' ∧ calls cf' = calls sample_pool
    | Some Undef => ∃ o, o ∈ calls sample_pool ∧ seeks_past_first o
    | _ => False
    end.
Proof.
  apply (calls_progress ∅ short_driver short_spec sample_pool);
    [apply short_rep|apply short_log_ok|apply sample_run|apply sample_ok].
Defined.

(** ** The races of the calls that take no lock *)

Definition ten_driver : driver := after_writes (replicate 10 (line "x")) empty_driver.
Definition nine_driver : driver := after_writes (replicate 9 (line "x")) empty_driver.

Definition moves (i n : nat) : list (pool_event op) := replicate n (Move i).

(** The replies at the end of a schedule; [None] if it ends in undefined
    behaviour or cannot be followed. *)
Definition replies_after (es : list (pool_event op)) (d : driver) : option (list (option reply)) :=
  match schedule es (idle d) with Some (Done cf) => Some (replies cf) | _ => None end.

(** What the missing locks allow.  An [llseek] to the end of the file during
    a write to a full device finds the oldest command dropped and the new one not
    yet there: it returns 18, although the device holds 20 bytes before the write
    and after it.  A seek to command 1000 reads [in_offs] and [out_offs] on two
    sides of writes, so that the count it computes wraps around below zero,
    passes its check and reads far outside the entry array; run before, between
    or after the writes it is refused. *)
Lemma lockfree_races :
  let seek := Ioctl 0 AESDCHAR_IOCSEEKTO (seekto_bytes 1000 0) in
  let end_of_file := Llseek 0 0 SEEK_END in
  let x := Write (line "x") 2 in
  replies_after
    ([Arrive end_of_file; Arrive x] ++ moves 1 13 ++ moves 0 31 ++ moves 1 7) ten_driver
  = Some [Some (18, 18, []); Some (2, 0, [])] ∧
  vfs_call end_of_file ten_driver = Done ((20, 20, []), ten_driver) ∧
  vfs_call end_of_file (after_writes [line "x"] ten_driver)
  = Done ((20, 20, []), after_writes [line "x"] ten_driver) ∧
  schedule
    (Arrive seek :: replicate 3 (Arrive x)
     ++ moves 0 3 ++ moves 1 23 ++ moves 0 1 ++ moves 2 20 ++ moves 3 20 ++ moves 0 3)
    (idle nine_driver) = Some Undef ∧
  Forall (λ n, let d := after_writes (replicate n (line "x")) nine_driver in
    vfs_call seek d = Done ((- EINVAL, 0, []), d)) [0; 1; 2; 3]%nat.
Proof. split_and!; [..|repeat constructor]; vm_compute; reflexivity. Qed.
