(* ===== verification/ServerSessions.v ===== *)
(** * The turns at the output file (server/server_impl.c)

    What the server's threads do under [output_file_mutex]: a client thread one
    conversation ([client_thread] around [server_protocol]), the clock thread one
    line ([clock_thread]), as stepwise code over the shared stream.  A call of the
    C library on the stream is one action, for a stream has a lock of its own; the
    streams of a socket belong to one thread.  The loops have no fuel. *)

From S2P Require Import Prelude Kernel Stdio OutputFile ServerProtocol Timestamp Interleaving Serializability.

Record shared_file (D : Type) := SharedFile {
  file_mutex : bool;
  stream : FILE D;
}.
Arguments SharedFile {D} file_mutex stream.
Arguments file_mutex {D} s.
Arguments stream {D} s.

(** A client with its two streams, and the clock at a time. *)
Inductive turn :=
| Talk (input : instream) (output : outstream)
| Tick (time : tm).

Inductive turn_result :=
| Talked (ret : ret_t) (input : instream) (output : outstream)
| Ticked (ret : ret_t).

(** The streams of one client. *)
Definition sockets : Type := instream * outstream.

(** A call of the C library on the output file, where the state has one. *)
Class OnStream (S D : Type) := on_stream : ∀ {A}, M (FILE D) A → M S A.

#[export] Instance shared_stream {D} : OnStream (shared_file D) D := λ A m s,
  '(a, f) ← m (stream s); Done (a, SharedFile (file_mutex s) f).

(** What the state has for a call on a stream of the client's: whether [fgets] and
    [fwrite] can go on ([Some (Done tt)]), wait for the network ([None]), or are
    called on a NULL stream ([Some Undef]). *)
Class OnSocket (S : Type) := {
  receivable : instream → S → option (outcome unit);
  sendable : list ascii → outstream → S → option (outcome unit);
}.

(** Where the network is not modelled the streams are there and nothing has to
    wait. *)
#[export] Instance shared_socket {D} : OnSocket (shared_file D) := {
  receivable _ _ := Some (Done tt);
  sendable _ _ _ := Some (Done tt);
}.

Section Conversation.
Context {S D : Type} `{Descriptor D} `{OnStream S D} `{OnSocket S}.

Definition use {A} (m : M (FILE D) A) : prog S A := atomic (on_stream m).

(** A call on a stream of the thread's own, which has the result [a]. *)
Definition own_act {A} (ready : S → option (outcome unit)) (a : A) (s : S)
    : option (outcome (A * S)) :=
  o ← ready s; Some (_ ← o; Done (a, s)).

Definition own {A} (ready : S → option (outcome unit)) (a : A) : prog S A :=
  Act (own_act ready a) Ret.

Definition socket_fgets (n : Z) (i : instream) : prog S (option (list ascii) * instream) :=
  own (receivable i) (fgets n i).

Definition socket_fwrite (l : list ascii) (o : outstream) : prog S (Z * outstream) :=
  own (sendable l o) (fwrite_socket l o).

(** ** server_protocol *)

(** One round of the receiving loop. *)
Definition receive_steps (io : sockets)
    : prog S (flow sockets (flow bool ret_t * sockets)) :=
  '(fgets_ret, i) ← socket_fgets BUFFER_SIZE io.1;
  let io := (i, io.2) in
  match fgets_ret with
  | None => mret (Return (Return RET_ERR, io))
  | Some chunk =>
      let buffer := cstring chunk in
      let length := strlen buffer in
      match seek_command buffer with
      | Some (x, y) =>
          r ← use (on_fd (d_ioctl_seekto x y));
          mret (Return (if bool_decide (-1 = r) then Return RET_ERR else Next true, io))
      | None =>
          write_ret ← use (fwrite buffer);
          if bool_decide (length ≠ write_ret) then mret (Return (Return RET_ERR, io))
          else
            _ ← use fflush;
            last_char ← atomic (lift (array_get chunk (length - 1)));
            mret (if bool_decide (last_char = NL) then Return (Next false, io) else Next io)
      end
  end.

(** One round of the replying loop. *)
Definition reply_steps (io : sockets)
    : prog S (flow sockets (flow unit ret_t * sockets)) :=
  fgets_ret ← use (file_fgets BUFFER_SIZE);
  match fgets_ret with
  | None => mret (Return (Next tt, io))
  | Some chunk =>
      let buffer := cstring chunk in
      '(write_ret, o) ← socket_fwrite buffer io.2;
      mret (if bool_decide (strlen buffer ≠ write_ret) then Return (Return RET_ERR, (io.1, o))
            else Next (io.1, o))
  end.

(** [while( true )]. *)
Definition loop {A} (body : sockets → prog S (flow sockets (A * sockets)))
    (io : sockets) : prog S (flow sockets (A * sockets)) :=
  do_while_p body (λ _, mret true) io.

Definition position_steps (is_seek_set_command : bool) : prog S unit :=
  if is_seek_set_command then _ ← use fseek_cur; mret tt else use rewind.

Definition send_steps (io : sockets) : prog S (ret_t * sockets) :=
  _ ← use ftell;
  o ← loop reply_steps io;
  match o with
  | Return (Return r, io) => mret (r, io)
  | Return (Next _, io) =>
      at_eof ← use feof;
      mret (if bool_decide (at_eof = true) then RET_OK else RET_ERR, io)
  | Next io => mret (RET_ERR, io)
  end.

Definition protocol_steps (io : sockets) : prog S (ret_t * sockets) :=
  o ← loop receive_steps io;
  match o with
  | Return (Return r, io) => mret (r, io)
  | Return (Next is_seek_set_command, io) =>
      position_steps is_seek_set_command;; send_steps io
  | Next io => mret (RET_ERR, io)
  end.

End Conversation.

Section Turns.
Context {D : Type} `{Descriptor D}.

(** ** The mutex *)
Definition lock_act (s : shared_file D) : option (outcome (unit * shared_file D)) :=
  if file_mutex s then None else Some (Done (tt, SharedFile true (stream s))).

Definition lock_file : prog (shared_file D) unit := Act lock_act Ret.

Definition set_file_mutex (b : bool) : M (shared_file D) unit :=
  modify (λ s, SharedFile b (stream s)).

Definition unlock_file : prog (shared_file D) unit := atomic (set_file_mutex false).

(** ** The two kinds of turns *)
Definition talk_steps (io : sockets) : prog (shared_file D) turn_result :=
  lock_file;;
  '(r, io) ← protocol_steps io;
  unlock_file;;
  mret (Talked r io.1 io.2).

Definition tick_steps (time : tm) : prog (shared_file D) turn_result :=
  let buffer := timestamp time in
  lock_file;;
  let length := strlen (cstring buffer) in
  write_ret ← use (fwrite (cstring buffer));
  if bool_decide (length ≠ write_ret) then
    unlock_file;; mret (Ticked RET_ERR)
  else
    _ ← use fflush;
    unlock_file;; mret (Ticked RET_OK).

Definition turn_code (t : turn) : prog (shared_file D) turn_result :=
  match t with
  | Talk i o => talk_steps (i, o)
  | Tick time => tick_steps time
  end.

(** ** The same turns, run alone *)

(** A computation on a connection, seen from the shared stream. *)
Definition embed {A} (m : M (conn D) A) (io : sockets) : M (shared_file D) (A * sockets) := λ s,
  '(a, c) ← m (Conn io.1 io.2 (stream s));
  Done ((a, (socket_input c, socket_output c)), SharedFile (file_mutex s) (output_file c)).

(** What is done under the mutex. *)
Definition turn_body (fuel : nat) (t : turn) : M (shared_file D) turn_result :=
  match t with
  | Talk i o =>
      '(r, io) ← embed (server_protocol fuel) (i, o); mret (Talked r io.1 io.2)
  | Tick time => r ← on_stream (tick_run time); mret (Ticked r)
  end.

Definition turn_run (fuel : nat) (t : turn) : M (shared_file D) turn_result := λ s,
  if file_mutex s then Undef
  else (set_file_mutex true;; r ← turn_body fuel t; set_file_mutex false;; mret r) s.
End Turns.

(** ** The stepwise code does what the sequential definitions do *)

(** Two ways of relating stepwise code to a definition with fuel, [implements] and
    [attains], have what the code is made of. *)
Class Tracks {S} (rel : ∀ {A}, prog S A → (nat → M S A) → Prop) := {
  track_ret A (a : A) : rel (mret a) (λ _, mret a);
  track_atomic A (m : M S A) : rel (atomic m) (λ _, m);
  track_bind A B (p : prog S A) m (f : A → prog S B) g :
    rel p m → (∀ a, rel (f a) (λ n, g n a)) → rel (p ≫= f) (λ n, m n ≫= g n);
  track_ext A (p : prog S A) m1 m2 : rel p m1 → (∀ n s, m1 n s = m2 n s) → rel p m2;
}.

(** What a definition does that ends, the code does. *)
Definition implements_all {S A} (p : prog S A) (m : nat → M S A) : Prop := ∀ n, implements p (m n).

#[export] Instance implements_tracks {S} : Tracks (S := S) (@implements_all S).
Proof.
  split; unfold implements_all.
  - intros A a n. apply implements_ret.
  - intros A m n. apply implements_atomic.
  - intros A B p m f g Hp Hf n. by apply implements_bind.
  - intros A p m1 m2 Hp Hm n. eapply implements_ext; [apply Hp|]. intros s. apply Hm.
Qed.

#[export] Instance attains_tracks {S} : Tracks (S := S) (@attains S).
Proof.
  split; intros.
  - apply attains_ret.
  - apply attains_atomic.
  - by apply attains_bind.
  - by eapply attains_ext.
Qed.

Section Equivalence.
Context {D : Type} `{Descriptor D}.

(** A computation on a connection whose result is put together with the streams
    by [F]. *)
Definition embed_with {A B} (F : A → sockets → B) (m : M (conn D) A) (io : sockets)
    : M (shared_file D) B :=
  '(a, io') ← embed m io; mret (F a io').

Lemma embed_with_eq {A B} (F : A → sockets → B) (m : M (conn D) A) io s :
  embed_with F m io s
  = ('(a, c) ← m (Conn io.1 io.2 (stream s));
     Done (F a (socket_input c, socket_output c), SharedFile (file_mutex s) (output_file c))).
Proof.
  unfold embed_with, embed. unfold mbind, M_bind, outcome_bind.
  by destruct (m _) as [[a c]| |].
Qed.

Lemma embed_pair {A} (m : M (conn D) A) io s : embed_with pair m io s = embed m io s.
Proof. by rewrite embed_with_eq. Qed.

(** What [embed_with] makes of a bind, and of each first action. *)
Lemma embed_bind {A B C} (F : B → sockets → C) (m : M (conn D) A) (g : A → M (conn D) B) io s :
  embed_with F (m ≫= g) io s = ('(a, io') ← embed m io; embed_with F (g a) io') s.
Proof.
  rewrite embed_with_eq. unfold embed, mbind, M_bind, outcome_bind.
  destruct (m _) as [[a [i o f]]| |]; [|done..]. by rewrite embed_with_eq.
Qed.

(** One round of a loop: [Some] leaves it. *)
Definition round {A} (a : option A) (io : sockets) : flow sockets (A * sockets) :=
  match a with Some r => Return (r, io) | None => Next io end.

Section Tracks.
Context (rel : ∀ A, prog (shared_file D) A → (nat → M (shared_file D) A) → Prop).
Arguments rel {A}.
Context `{T : !Tracks (@rel)}.

Lemma ret_embeds {A B} (F : A → sockets → B) a io :
  rel (mret (F a io)) (λ _, embed_with F (mret a) io).
Proof using T.
  eapply track_ext; [apply track_ret|]. intros n s. rewrite embed_with_eq. by destruct io, s.
Qed.

(** A first action that is one step. *)
Lemma step_embeds {A B C R} (F : B → sockets → C) (m : M (shared_file D) R)
    (m' : M (conn D) A) (h : R → A * sockets) f (g : nat → A → M (conn D) B) io :
  (∀ s, embed m' io s = (t ← m; mret (h t)) s) →
  (∀ t, rel (f t) (λ n, embed_with F (g n (h t).1) (h t).2)) →
  rel (atomic m ≫= f) (λ n, embed_with F (m' ≫= g n) io).
Proof using T.
  intros Hm Hf. eapply track_ext.
  { apply (track_bind _ _ (atomic m) (λ _, m) f (λ n t, embed_with F (g n (h t).1) (h t).2));
      [apply track_atomic|]. exact Hf. }
  intros n s. rewrite embed_bind. trans (((t ← m; mret (h t)) ≫= λ x, embed_with F (g n x.1) x.2) s).
  - by rewrite M_bind_assoc.
  - apply M_bind_cong; [done|]. by intros [].
Qed.

Lemma use_embeds {A B C} (F : B → sockets → C) (m : M (FILE D) A) f g io :
  (∀ a, rel (f a) (λ n, embed_with F (g n a) io)) →
  rel (use m ≫= f) (λ n, embed_with F (on_file m ≫= g n) io).
Proof using T.
  intros Hf. apply step_embeds with (h := λ a, (a, io)); [|done]. intros s.
  unfold embed, on_file, on_stream, shared_stream, mbind, M_bind, outcome_bind. destruct io. simpl.
  by destruct (m (stream s)) as [[]| |].
Qed.

Lemma read_embeds {B C} (F : B → sockets → C) k f g io :
  (∀ r i, rel (f (r, i)) (λ n, embed_with F (g n r) (i, io.2))) →
  rel (socket_fgets k io.1 ≫= f) (λ n, embed_with F (read_socket k ≫= g n) io).
Proof using T.
  intros Hf. change (socket_fgets k io.1) with (atomic (mret (fgets k io.1)) : prog (shared_file D) _).
  apply step_embeds with (h := λ t, (t.1, (t.2, io.2))); [|by intros []]. intros [b fl].
  unfold embed, read_socket. simpl. by destruct (fgets k io.1).
Qed.

Lemma write_embeds {B C} (F : B → sockets → C) l f g io :
  (∀ r o, rel (f (r, o)) (λ n, embed_with F (g n r) (io.1, o))) →
  rel (socket_fwrite l io.2 ≫= f) (λ n, embed_with F (write_socket l ≫= g n) io).
Proof using T.
  intros Hf. change (socket_fwrite l io.2) with (atomic (mret (fwrite_socket l io.2)) : prog (shared_file D) _).
  apply step_embeds with (h := λ t, (t.1, (io.1, t.2))); [|by intros []]. intros [b fl].
  unfold embed, write_socket. simpl. by destruct (fwrite_socket l io.2).
Qed.

Lemma lift_embeds {A B C} (F : B → sockets → C) (x : outcome A) f g io :
  (∀ a, rel (f a) (λ n, embed_with F (g n a) io)) →
  rel (atomic (lift x) ≫= f) (λ n, embed_with F (lift x ≫= g n) io).
Proof using T.
  intros Hf. apply step_embeds with (h := λ a, (a, io)); [|done]. intros [b fl].
  unfold embed, lift, mbind, M_bind, outcome_bind. destruct io. by destruct x.
Qed.

Lemma receive_tracks io : rel (receive_steps io) (λ _, embed_with round receive_body io).
Proof using T.
  apply (read_embeds round _ _ (λ _ _, _)). intros [chunk|] i; [|by apply (ret_embeds round (Some _))].
  cbv zeta. destruct (seek_command (cstring chunk)) as [[x y]|].
  - apply (use_embeds round _ _ (λ _ _, _)). intros r. case_bool_decide; by apply (ret_embeds round (Some _)).
  - apply (use_embeds round _ _ (λ _ _, _)). intros w.
    case_bool_decide; [by apply (ret_embeds round (Some _))|].
    apply (use_embeds round _ _ (λ _ _, _)). intros _. apply (lift_embeds round _ _ (λ _ _, _)). intros c.
    case_bool_decide; [by apply (ret_embeds round (Some _))|by apply (ret_embeds round None)].
Qed.

Lemma reply_tracks io : rel (reply_steps io) (λ _, embed_with round reply_body io).
Proof using T.
  apply (use_embeds round _ _ (λ _ _, _)). intros [chunk|]; [|by apply (ret_embeds round (Some _))].
  apply (write_embeds round _ _ (λ _ _, _)). intros w o. simpl.
  case_bool_decide; [by apply (ret_embeds round (Some _))|by apply (ret_embeds round None)].
Qed.

Lemma position_embeds {B C} (F : B → sockets → C) b (p : prog (shared_file D) C) g io :
  rel p (λ n, embed_with F (g n) io) →
  rel (position_steps b;; p) (λ n, embed_with F (position_file b;; g n) io).
Proof using T.
  intros Hp. destruct b; [|by apply (use_embeds F rewind _ (λ n _, g n))].
  unfold position_steps, position_file. rewrite prog_bind_assoc.
  eapply track_ext; [by apply (use_embeds F fseek_cur _ (λ n _, g n))|]. intros n s.
  rewrite !embed_with_eq. unfold mbind, M_bind. by destruct (on_file _ _) as [[? ?]| |].
Qed.

(** A loop whose rounds are related to those of [forever]. *)
Context (loop_embeds : ∀ A B C (F : B → sockets → C)
    (body : sockets → prog (shared_file D) (flow sockets (A * sockets)))
    (m : M (conn D) (option A)) f g io,
  (∀ io, rel (body io) (λ _, embed_with round m io)) →
  (∀ a io', rel (f (Return (a, io'))) (λ n, embed_with F (g n a) io')) →
  rel (loop body io ≫= f) (λ n, embed_with F (forever n m ≫= g n) io)).

Lemma send_tracks io : rel (send_steps io) (λ n, embed_with pair (send_file n) io).
Proof using T loop_embeds.
  apply (use_embeds pair _ _ (λ n _, _)). intros _.
  apply (loop_embeds _ _ _ pair _ reply_body _ (λ n _, _)); [apply reply_tracks|]. intros [u|r] io'.
  - apply (use_embeds pair _ _ (λ n _, _)). intros b. case_bool_decide; apply ret_embeds.
  - apply ret_embeds.
Qed.

Lemma protocol_tracks io : rel (protocol_steps io) (λ n, embed (server_protocol n) io).
Proof using T loop_embeds.
  apply (track_ext _ _ (λ n, embed_with pair (server_protocol n) io)); [|intros n s; apply embed_pair].
  apply (loop_embeds _ _ _ pair _ receive_body _ (λ n _, _)); [apply receive_tracks|].
  intros [b|r] io'; [|apply ret_embeds]. apply position_embeds, send_tracks.
Qed.

(** *** Whole turns: the mutex is taken, the turn's work is done, the mutex is
    released. *)
Lemma use_tracks {A} (m : M (FILE D) A) : rel (use m) (λ _, on_stream m).
Proof using T. apply track_atomic. Qed.

Lemma release_tracks {A} (a : A) :
  rel (unlock_file;; mret a) (λ _, set_file_mutex false;; mret a).
Proof using T.
  apply (track_bind _ _ _ (λ _, _) _ (λ _ _, _)); [apply track_atomic|]. intros _. apply track_ret.
Qed.

Lemma turn_tracks t :
  ∃ p, turn_code t = (lock_file;; p) ∧
    rel p (λ n, r ← turn_body n t; set_file_mutex false;; mret r).
Proof using T loop_embeds.
  destruct t as [i o|time]; eexists; (split; [done|]).
  - eapply track_ext.
    { eapply (track_bind _ _ _ _ _ (λ n x, set_file_mutex false;; mret (Talked x.1 x.2.1 x.2.2)));
        [apply protocol_tracks|].
      intros [r io]. apply release_tracks. }
    intros n s2. simpl. rewrite M_bind_assoc. apply M_bind_cong; [done|]. by intros [r io].
  - eapply track_ext.
    { eapply (track_bind _ _ _ _ _ (λ n w, if bool_decide (strlen (cstring (timestamp time)) ≠ w)
        then set_file_mutex false;; mret (Ticked RET_ERR)
        else on_stream fflush;; set_file_mutex false;; mret (Ticked RET_OK))); [apply use_tracks|].
      intros w. case_bool_decide; [apply release_tracks|].
      apply (track_bind _ _ _ (λ _, _) _ (λ _ _, _)); [apply use_tracks|]. intros _.
      apply release_tracks. }
    intros n [b f]. simpl. unfold tick_run, on_stream, shared_stream, mbind, M_bind, outcome_bind. simpl.
    destruct (fwrite _ f) as [[w f1]| |]; [|done..]. case_bool_decide; [done|]. simpl.
    by destruct (fflush f1) as [[r f2]| |].
Qed.
End Tracks.

(** *** The loops *)

(** The loop without fuel does what [forever] does when its fuel is enough. *)
Lemma loop_implements {A} (body : sockets → prog (shared_file D) (flow sockets (A * sockets)))
    (m : M (conn D) (option A)) fuel io :
  (∀ io, implements (body io) (embed_with round m io)) →
  implements (loop body io) (embed_with (λ a io, Return (a, io)) (forever fuel m) io).
Proof.
  intros Hb. revert io. induction fuel as [|fuel IH]; intros io s Hn.
  { rewrite embed_with_eq in Hn. done. }
  eapply alone_step; [done|]. pose proof (Hb io s) as Hs. rewrite embed_with_eq in Hn |- *.
  rewrite embed_with_eq in Hs.
  simpl in *. unfold mbind, M_bind, outcome_bind in *.
  destruct (m (Conn io.1 io.2 (stream s))) as [[[a|] [i o f]]| |] eqn:E; simpl in *; try done.
  - eapply alone_bind; [by apply Hs|]. constructor.
  - eapply alone_bind; [by apply Hs|]. simpl.
    specialize (IH (i, o) (SharedFile (file_mutex s) f)). rewrite embed_with_eq in IH.
    by apply IH.
  - by apply alone_bind_undef, Hs.
Qed.

Lemma loop_implements_all {A B C} (F : B → sockets → C)
    (body : sockets → prog (shared_file D) (flow sockets (A * sockets)))
    (m : M (conn D) (option A)) f (g : nat → A → M (conn D) B) io :
  (∀ io, implements_all (body io) (λ _, embed_with round m io)) →
  (∀ a io', implements_all (f (Return (a, io'))) (λ n, embed_with F (g n a) io')) →
  implements_all (loop body io ≫= f) (λ n, embed_with F (forever n m ≫= g n) io).
Proof.
  intros Hb Hf n. pose proof (loop_implements body m n io (λ io, Hb io n)) as Hl.
  pose (k := λ o : flow sockets (A * sockets),
    match o with Return (a, io') => embed_with F (g n a) io' | Next _ => λ _, NoFuel end).
  eapply implements_ext.
  - eapply (implements_bind _ _ f k); [exact Hl|]. intros [io'|[a io']]; [|apply Hf]. by intros ? [].
  - intros s. rewrite embed_bind. unfold embed_with at 1. rewrite M_bind_assoc.
    apply M_bind_cong; [done|]. by intros [a io'] s' _.
Qed.

(** A loop that ends does it in a number of rounds. *)
Lemma loop_attains {A B C} (F : B → sockets → C)
    (body : sockets → prog (shared_file D) (flow sockets (A * sockets)))
    (m : M (conn D) (option A)) f (g : nat → A → M (conn D) B) io :
  (∀ io, attains (body io) (λ _, embed_with round m io)) →
  (∀ a io', attains (f (Return (a, io'))) (λ n, embed_with F (g n a) io')) →
  attains (loop body io ≫= f) (λ n, embed_with F (forever n m ≫= g n) io).
Proof.
  intros Hb Hf s o [k Hk]%alone_in_some.
  enough (∃ N, ∀ n n', (N ≤ n)%nat → (N ≤ n')%nat →
    embed_with F (forever n m ≫= g n') io s = o) as [N HN] by (exists N; auto).
  revert io s Hk. induction k as [|k IH]; intros io s Hk.
  { by inversion Hk as [?|?|? ? ? Hu]; simplify_eq/=. }
  inversion Hk as [?|? ? ? p s1 ? Hs Ha|? ? ? Hu]; simplify_eq/=.
  apply alone_in_bind_inv in Ha as [(fl & s2 & H1 & H2)|[-> Hu]].
  - destruct (Hb io _ _ H1) as [N1 HN1]. specialize (HN1 N1 (le_n _)). rewrite embed_with_eq in HN1.
    destruct (m _) as [[a [i1 o1 f1]]| |] eqn:Hm; simpl in HN1; try done. injection HN1 as <- <-.
    destruct a as [a|].
    + apply alone_in_alone in H2. destruct (Hf _ _ _ _ H2) as [N2 HN2]. exists (S N2).
      intros [|n] n' Hn Hn'; [lia|]. rewrite <- (HN2 n') by lia. rewrite !embed_with_eq.
      simpl. unfold mbind, M_bind, outcome_bind. rewrite Hm. done.
    + destruct (IH (i1, o1) (SharedFile (file_mutex s1) f1)) as [N2 HN2]; [exact H2|]. exists (S N2).
      intros [|n] n' Hn Hn'; [lia|]. rewrite <- (HN2 n n') by lia. rewrite !embed_with_eq.
      simpl. unfold mbind, M_bind, outcome_bind. rewrite Hm. done.
  - destruct (Hb io _ _ Hu) as [N1 HN1]. specialize (HN1 N1 (le_n _)). rewrite embed_with_eq in HN1.
    exists 1%nat. intros [|n] n' Hn _; [lia|]. rewrite embed_with_eq.
    simpl. unfold mbind, M_bind, outcome_bind in *. by destruct (m _) as [[a [i1 o1 f1]]| |].
Qed.

(** *** Both ways *)
Lemma turn_implements fuel t s :
  file_mutex s = false → turn_run fuel t s ≠ NoFuel →
  alone (turn_code t) s (turn_run fuel t s).
Proof.
  intros Hf Hn. unfold turn_run in *. rewrite Hf in *.
  rewrite (M_bind_Done _ (set_file_mutex true) s tt (SharedFile true (stream s)) eq_refl) in *.
  destruct (turn_tracks (@implements_all _) (@loop_implements_all) t) as (p & -> & Hp).
  eapply alone_step; [simpl; unfold lock_act; by rewrite Hf|]. by apply Hp.
Qed.

(** A turn that ends is one that [turn_run] gives. *)
Lemma turn_attains t s o :
  file_mutex s = false → alone (turn_code t) s o →
  ∃ N, ∀ fuel, (N ≤ fuel)%nat → turn_run fuel t s = o.
Proof.
  intros Hf Ho. destruct (turn_tracks (@attains _) (@loop_attains) t) as (p & Hcode & Hp).
  rewrite Hcode in Ho.
  assert (Hs : step (lock_file;; p) s = Some (Done (p, SharedFile true (stream s)))).
  { simpl. unfold lock_act. by rewrite Hf. }
  destruct (Hp _ _ (alone_step_inv _ _ _ _ _ Hs Ho)) as [N HN]. exists N. intros fuel Hfuel.
  unfold turn_run. rewrite Hf.
  rewrite (M_bind_Done _ (set_file_mutex true) s tt (SharedFile true (stream s)) eq_refl). by apply HN.
Qed.
End Equivalence.

(** ** What holds of every action of the conversation *)
Section Actions.
Context {S D : Type} `{Descriptor D} `{OnStream S D} `{OnSocket S}.
Context (P : ∀ B, (S → option (outcome (B * S))) → Prop).

(** What the calls of the conversation have in common. *)
Record holds_of_calls : Prop := HoldsOfCalls {
  of_use A (m : M (FILE D) A) : P _ (λ s, Some (on_stream m s));
  of_fgets n i : P _ (own_act (receivable i) (fgets n i));
  of_fwrite l o : P _ (own_act (sendable l o) (fwrite_socket l o));
  of_lift A (o : outcome A) : P _ (λ s, Some (lift o s));
}.

Context (HP : holds_of_calls).

Lemma every_use {A} (m : M (FILE D) A) : every P (use m).
Proof using HP. split; [apply HP|done]. Qed.

Lemma every_fgets n i : every P (socket_fgets n i).
Proof using HP. split; [apply HP|done]. Qed.

Lemma every_fwrite l o : every P (socket_fwrite l o).
Proof using HP. split; [apply HP|done]. Qed.

Lemma every_lift {A} (o : outcome A) : every P (atomic (lift o)).
Proof using HP. split; [apply HP|done]. Qed.

Lemma every_loop {A} (body : sockets → prog S (flow sockets (A * sockets))) io :
  (∀ io, every P (body io)) → every P (loop body io).
Proof. intros Hb. by split_and!. Qed.

(** [calls] goes through the code. *)
Ltac calls :=
  repeat (intros; first
    [ exact I | solve [auto] | apply every_use | apply every_fgets | apply every_fwrite | apply every_lift
    | apply every_loop | apply every_bind
    | match goal with |- every _ (match ?x with _ => _ end) => destruct x end ]).

Lemma receive_every io : every P (receive_steps io).
Proof using HP. unfold receive_steps. calls. Qed.

Lemma reply_every io : every P (reply_steps io).
Proof using HP. unfold reply_steps. calls. Qed.

Lemma protocol_every io : every P (protocol_steps io).
Proof using HP.
  unfold protocol_steps, position_steps, send_steps. pose proof receive_every.
  pose proof reply_every. calls.
Qed.
End Actions.

(** ** The turns work under the mutex *)
Section Locks.
Context {D : Type} `{Descriptor D}.

Lemma shared_keeps A (m : M (FILE D) A) (s : shared_file D) a s' :
  on_stream m s = Done (a, s') → file_mutex s' = file_mutex s.
Proof.
  unfold on_stream, shared_stream, mbind, outcome_bind.
  destruct (m (stream s)) as [[b f]| |]; [|done..]. by intros [= <- <-].
Qed.

Abbreviation keeps := (λ B, @keeps (shared_file D) file_mutex (λ _, True) B).

Lemma shared_calls : holds_of_calls keeps.
Proof.
  split; intros; (split; [done|]); intros s b s'.
  - intros [= Hm]. split; [by eapply shared_keeps|done].
  - by intros [= _ <-].
  - by intros [= _ <-].
  - by intros [= [_ ->]%lift_state].
Qed.

Lemma unlock_critical {A} (a : A) : critical (@file_mutex D) (λ _, True) (unlock_file;; mret a).
Proof.
  right. split; [|by intros b; eexists]. split; [done|]. by intros s b s' [= <- <-].
Qed.

Lemma turn_locks t :
  ∃ B (act : shared_file D → option (outcome (B * shared_file D))) k,
    turn_code t = Act act k ∧
    (∀ s, file_mutex s = true → act s = None) ∧
    (∀ s, file_mutex s = false → ∃ b s', act s = Some (Done (b, s')) ∧ file_mutex s' = true ∧
       (True → True) ∧ critical (@file_mutex D) (λ _, True) (k b)).
Proof.
  destruct t as [i o|time]; (eexists unit, lock_act, _; split; [done|]);
    (split; [intros s Hs; unfold lock_act; by rewrite Hs|]);
    (intros s Hs; exists tt, (SharedFile true (stream s));
     split; [unfold lock_act; by rewrite Hs|]; do 2 (split; [done|])).
  - apply critical_bind; [by apply every_inside, protocol_every, shared_calls|]. intros [r io]. apply unlock_critical.
  - apply critical_bind; [apply every_inside, every_use, shared_calls|]. intros w. case_bool_decide; [apply unlock_critical|].
    apply critical_bind; [apply every_inside, every_use, shared_calls|]. intros _. apply unlock_critical.
Qed.
End Locks.

(** ** The turns as an instance of the interface *)
#[export] Instance turn_calls `{Descriptor D} : Calls (shared_file D) turn turn_result := {
  held := file_mutex;
  code := turn_code;
  locked _ := true;
}.

#[export] Program Instance turn_laws `{Descriptor D} (fuel : nat) :
    CallLaws (shared_file D) turn turn_result (turn_run fuel) := {
  stable _ := True;
  call_ok _ := True;
  may_overrun _ := False;
  result_ok _ _ := False;
}.
Next Obligation. intros D HD fuel t _. apply turn_locks. Qed.
Next Obligation.
  intros D HD fuel t s r s' _ Hf Hr. rewrite <- Hr. apply turn_implements; [done|congruence].
Qed.
Next Obligation. done. Qed.
