(* ===== verification/ServerInterleavings.v ===== *)
(** * The server's threads at the output file

    Any number of clients and ticks of the clock, under every interleaving of
    their steps.  Their turns are those of the sequential model, one after another
    ([turns_atomic]); with well-behaved clients the output file is the log of what
    they send in the order in which they take the mutex, and a client's reply is
    the log as of its turn ([turns_serialized]). *)

From S2P Require Import Prelude Kernel CircularBuffer CharDriver DriverSpec DriverModule DriverTheorems Stdio OutputFile ServerProtocol Timestamp RegularFile ServerDevice ServerTheorems Interleaving Serializability Atomicity ServerSessions.

(** ** Any clients: the turns are atomic *)
Section Any.
Context {D : Type} `{Descriptor D}.

#[export] Instance turn_locked : LockedCalls (shared_file D) turn turn_result.
Proof.
  intros t. destruct (turn_locks t) as (B & act & k & Hcode & Hwait & Htake). exists B, act, k.
  split; [done|]. split; [done|]. intros s Hs.
  destruct (Htake s Hs) as (b & s' & ? & ? & _ & ?). by exists b, s'.
Qed.

Lemma turn_run_free fuel t (s : shared_file D) r s' :
  turn_run fuel t s = Done (r, s') → file_mutex s' = false.
Proof.
  unfold turn_run. destruct (file_mutex s); [done|]. unfold mbind, M_bind. simpl.
  destruct (turn_body fuel t _) as [[r1 s1]| |]; [|done..]. by intros [= <- <-].
Qed.

(** Turns that run alone, one after another, are those of the sequential model. *)
Lemma in_turn_runs ts (s : shared_file D) rs s' :
  in_turn ts s rs s' → file_mutex s = false →
  file_mutex s' = false ∧
  ∃ N, ∀ fuel, (N ≤ fuel)%nat → serial (turn_run fuel) ts s = Done (rs, s').
Proof.
  intros Hts Hs. induction Hts as [s|ts s rs s1 t r s2 _ IH Ht]; [split; [done|by exists 0%nat]|].
  destruct (IH Hs) as [Hs1 [N1 HN1]]. destruct (turn_attains t s1 _ Hs1 Ht) as [N2 HN2].
  split; [by eapply (turn_run_free N2), HN2|]. exists (N1 + N2)%nat. intros fuel Hfuel.
  eapply serial_snoc; [apply HN1; lia|apply HN2; lia].
Qed.

Lemma serial_undef ts t (s s' : shared_file D) rs fuel :
  serial (turn_run fuel) ts s = Done (rs, s') → turn_run fuel t s' = Undef →
  serial (turn_run fuel) (ts ++ [t]) s = Undef.
Proof.
  unfold serial. revert s rs. induction ts as [|t1 ts IH]; intros s rs Hts Ht; simpl in *.
  - injection Hts as <- <-. unfold mbind, M_bind. by rewrite Ht.
  - unfold mbind, M_bind in *. destruct (turn_run fuel t1 s) as [[r1 s1]| |]; [|done..].
    destruct (mapM (turn_run fuel) ts s1) as [[rs1 s2]| |] eqn:E; [|done..].
    injection Hts as <- <-. by rewrite (IH s1 rs1 E Ht).
Qed.

Lemma turns_atomic (f : FILE D) cf :
  pool_run (idle (SharedFile false f)) cf →
  ∃ ids ts rs s fuel,
    serial (turn_run fuel) ts (SharedFile false f) = Done (rs, s) ∧ ts ⊆+ calls cf ∧
    Forall3 (returned cf) ids ts rs ∧ NoDup (order cf) ∧ ids `prefix_of` order cf ∧
    (file_mutex (shared cf) = false → order cf = ids ∧ shared cf = s) ∧
    (∀ i t r, returned cf i t r → i ∈ ids) ∧
    (∀ i, move i cf = Some Undef → ∃ t fuel, calls cf !! i = Some t ∧ (i ∉ ids) ∧
       serial (turn_run fuel) (ts ++ [t]) (SharedFile false f) = Undef).
Proof.
  intros Hrun. destruct (interleaving_atomic (SharedFile false f) ltac:(done) cf Hrun)
    as (ids & ts & rs & s & Hts & Hsub & H3 & Hn & Hp & Hfree & Hin & Hu).
  destruct (in_turn_runs _ _ _ _ Hts eq_refl) as [Hs [N HN]].
  exists ids, ts, rs, s, N. split; [by apply HN|]. do 6 (split; [done|]). intros i Hi.
  destruct (Hu i Hi) as (t & Ht & Hni & Ha). destruct (turn_attains _ _ _ Hs Ha) as [N2 HN2].
  exists (call t), (N + N2)%nat. split; [unfold calls; by rewrite list_lookup_fmap, Ht|]. split; [done|].
  eapply serial_undef; [apply HN; lia|apply HN2; lia].
Qed.
End Any.

(** ** Logs of text

    What a log shows has no NUL byte as long as none is put into it, and it
    grows by no more than what is put into it. *)
Class TextLog (D A : Type) `{LogDevice D A} := {
  clean : A → Prop;
  size : A → nat;
  clean_bytes a : clean a → NUL ∉ log_bytes a;
  clean_put a l : clean a → NUL ∉ l → clean (log_put a l);
  size_bytes a : (length (log_bytes a) ≤ size a)%nat;
  size_put a l : (size (log_put a l) ≤ size a + length l)%nat;
}.

#[export] Program Instance regular_text : TextLog regular (list ascii) := {
  clean c := NUL ∉ c;
  size := length;
}.
Next Obligation. done. Qed.
Next Obligation. intros c l ??. by apply not_elem_of_app. Qed.
Next Obligation. done. Qed.
Next Obligation. intros c l. simpl. by rewrite length_app. Qed.

Lemma lastn_In {X} n (l : list X) x : x ∈ lastn n l → x ∈ l.
Proof.
  unfold lastn. intros Hx. rewrite <- (take_drop (length l - n) l). apply elem_of_app. by right.
Qed.

#[export] Program Instance device_text `{KS : KernelServices, KL : !KernelLaws} limit
    `{AM : !AmpleMemory limit} : TextLog (H0 := device_log limit) device spec := {
  clean s := Forall (λ c, NUL ∉ c) (commands s) ∧ NUL ∉ pending s;
  size s := Z.to_nat (stored s);
}.
Next Obligation.
  intros KS KL limit AM s [Hc _] Hin. simpl in Hin. unfold visible in Hin.
  apply list_elem_of_In, in_concat in Hin as (c & Hn & Hin).
  apply list_elem_of_In in Hn, Hin. rewrite Forall_forall in Hc. by apply (Hc c).
Qed.
Next Obligation.
  intros KS KL limit AM s l [Hc Hp] Hl. simpl. unfold spec_write. case_bool_decide; simpl.
  - split; [|apply not_elem_of_nil]. apply Forall_forall. intros c Hin%lastn_In.
    apply elem_of_app in Hin as [Hin| ->%list_elem_of_singleton];
      [rewrite Forall_forall in Hc; by apply Hc|by apply not_elem_of_app].
  - split; [done|]. by apply not_elem_of_app.
Qed.
Next Obligation. intros KS KL limit AM s. simpl. unfold stored, blen. lia. Qed.
Next Obligation.
  intros KS KL limit AM s l. simpl. pose proof (stored_write s l). unfold strlen in *.
  unfold stored, blen in *. lia.
Qed.

(** ** What a turn does to the log *)

(** The first line with its newline, or all there is. *)
Fixpoint split_line (l : list ascii) : list ascii * list ascii :=
  match l with
  | [] => ([], [])
  | c :: l' =>
      if bool_decide (c = NL) then ([c], l')
      else let '(line, rest) := split_line l' in (c :: line, rest)
  end.

Lemma split_line_spec l line rest :
  split_line l = (line, rest) →
  l = line ++ rest ∧
  ((∃ u, line = u ++ [NL] ∧ NL ∉ u) ∨ (rest = [] ∧ NL ∉ line)).
Proof.
  revert line. induction l as [|c l IH]; intros line; simpl.
  { intros [= <- <-]. split; [done|]. right. split; [done|]. apply not_elem_of_nil. }
  case_bool_decide as Hc.
  { intros [= <- <-]. subst c. split; [done|]. left. exists []. split; [done|]. apply not_elem_of_nil. }
  destruct (split_line l) as [a b]. intros [= <- <-].
  destruct (IH a eq_refl) as [-> [(u & -> & Hu)|[-> Hu]]].
  - split; [done|]. left. exists (c :: u). split; [done|]. apply not_elem_of_cons. by split; [congruence|].
  - split; [done|]. right. split; [done|]. apply not_elem_of_cons. by split; [congruence|].
Qed.

Definition complete (line : list ascii) : bool := bool_decide (last line = Some NL).

(** The seek command that is the line's first buffer. *)
Definition command (line : list ascii) : option (Z * Z) := seek_command (take 255 line).

(** What of a turn ends up in the log. *)
Definition kept (t : turn) : list ascii :=
  match t with
  | Talk i _ =>
      let line := (split_line (unread i)).1 in
      match command line with
      | Some _ => []
      | None =>
          if complete line then line
          else match ends i with Eof => line | Error => take (255 * (length line / 255)) line end
      end
  | Tick time => timestamp time
  end.

(** The bytes a turn may put into the log. *)
Definition demand (t : turn) : list ascii :=
  match t with Talk i _ => (split_line (unread i)).1 | Tick time => timestamp time end.

Section Answers.
Context {D A : Type} `{LogDevice D A}.

(** What a turn returns when the log with its bytes is [a]. *)
Definition answer (t : turn) (a : A) : turn_result :=
  match t with
  | Talk i o =>
      let '(line, rest) := split_line (unread i) in
      let i' := InStream rest (ends i) in
      let replied bs := Talked RET_OK i' (OutStream (sent o ++ bs) None) in
      match command line with
      | Some (x, y) =>
          match log_seek a x y with
          | Some p => replied (drop p (log_bytes a))
          | None => Talked RET_ERR i' o
          end
      | None => if complete line then replied (log_bytes a) else Talked RET_ERR i' o
      end
  | Tick _ => Ticked RET_OK
  end.

(** Turns as atomic operations on the log, one after another. *)
Fixpoint take_turns (ts : list turn) (a : A) : list turn_result * A :=
  match ts with
  | [] => ([], a)
  | t :: ts' =>
      let a' := log_put a (kept t) in
      let '(rs, b) := take_turns ts' a' in (answer t a' :: rs, b)
  end.

(** A line that is a seek command, short enough for one buffer, to a place the
    device can compute in every state. *)
Definition safe_command (line : list ascii) : Prop :=
  complete line = true ∧ (NUL ∉ line) ∧ (length line ≤ 255)%nat ∧
  match command line with
  | Some (x, y) => ∀ n d a, dev_ready n d a → seek_safe d x y
  | None => False
  end.

(** A client that takes its reply and sends text, in which a seek command is only
    the line as a whole; a time of [localtime]. *)
Definition well_behaved (t : turn) : Prop :=
  match t with
  | Talk i o =>
      let line := (split_line (unread i)).1 in
      (plain line ∨ safe_command line) ∧ room o = None
  | Tick time => tm_ok time
  end.
End Answers.

Definition demands (ts : list turn) : Z := Zsum (strlen ∘ demand <$> ts).

Lemma kept_prefix t : kept t `prefix_of` demand t.
Proof.
  destruct t as [i o|time]; simpl; [|done]. destruct (command _); [apply prefix_nil|].
  case_match; [done|]. destruct (ends i); [done|]. apply prefix_take.
Qed.

Lemma demands_nonneg ts : 0 ≤ demands ts.
Proof.
  apply Zsum_nonneg, Forall_fmap, Forall_forall. intros t _. simpl. unfold strlen. lia.
Qed.

#[export] Instance demands_Permutation : Proper ((≡ₚ) ==> eq) demands.
Proof. intros ts ts' Hts. unfold demands. by rewrite Hts. Qed.

Lemma demands_some ts ts' : ts ⊆+ ts' → demands ts ≤ demands ts'.
Proof.
  intros [ks ->]%submseteq_Permutation. unfold demands. rewrite fmap_app, Zsum_app.
  pose proof (demands_nonneg ks). unfold demands in *. lia.
Qed.

Lemma kept_length t : strlen (kept t) ≤ strlen (demand t).
Proof. unfold strlen. pose proof (prefix_length _ _ (kept_prefix t)). lia. Qed.

Section Serialized.
Context {D A : Type} `{TL : TextLog D A}.
Abbreviation well_behaved := (well_behaved (A := A)).

Lemma kept_no_NUL t : well_behaved t → NUL ∉ kept t.
Proof.
  intros Ht Hin. destruct (kept_prefix t) as [k Hk].
  assert (NUL ∈ demand t) as Hd by (rewrite Hk; apply elem_of_app; by left).
  destruct t as [i o|time]; [|by apply (timestamp_no_NUL time)].
  by destruct Ht as [[[Hp _]|(_ & Hp & _)] _].
Qed.

(** A conversation under the mutex. *)
Lemma embed_done (m : M (conn D) ret_t) i o f r i' o' f' :
  m (Conn i o f) = Done (r, Conn i' o' f') →
  ('(r, io) ← embed m (i, o); mret (Talked r io.1 io.2)) (SharedFile true f)
  = Done (Talked r i' o', SharedFile true f').
Proof. intros Hm. unfold embed, mbind, M_bind. simpl. by rewrite Hm. Qed.

(** The work of a turn under the mutex: a client with a line, a client without,
    the clock. *)
Lemma line_done n f a l rest e o fuel :
  file_ready n f a → NL ∉ l → plain (l ++ [NL]) → room o = None → strlen (l ++ [NL]) ≤ n →
  let a' := log_put a (l ++ [NL]) in
  NUL ∉ log_bytes a' → (length l < fuel)%nat → (length (log_bytes a') < fuel)%nat →
  ∃ f', turn_body fuel (Talk (InStream ((l ++ [NL]) ++ rest) e) o) (SharedFile true f)
        = Done (Talked RET_OK (InStream rest e) (OutStream (sent o ++ log_bytes a') None),
                SharedFile true f') ∧
    file_ready (n - strlen (l ++ [NL])) f' a'.
Proof.
  intros Hf Hl Hpl Hroom Hn a' Hcl Hf1 Hf2.
  destruct (line_run n a o f l rest e fuel (strlen (log_bytes a'))
    (OutStream (sent o ++ log_bytes a') None) Hf Hl Hpl Hn Hcl Hf1 Hf2) as (f' & Hs & Hok & _).
  { unfold fwrite_socket. by rewrite Hroom. }
  rewrite bool_decide_true in Hs by done. exists f'. split; [|by apply Hok].
  rewrite <- app_assoc. by apply embed_done.
Qed.

(** A client with a seek command. *)
Lemma seek_done n f a l rest e o x y fuel :
  file_ready n f a → NL ∉ l → NUL ∉ l → (length l < 255)%nat → room o = None →
  seek_command (l ++ [NL]) = Some (x, y) → (∀ n' d, dev_ready n' d a → seek_safe d x y) →
  clean a → (size a + 1 < fuel)%nat → 0 ≤ n →
  ∃ f', turn_body fuel (Talk (InStream ((l ++ [NL]) ++ rest) e) o) (SharedFile true f)
        = Done (match log_seek a x y with
                | Some p => Talked RET_OK (InStream rest e)
                              (OutStream (sent o ++ drop p (log_bytes a)) None)
                | None => Talked RET_ERR (InStream rest e) o
                end, SharedFile true f') ∧
    file_ready n f' a.
Proof.
  intros Hf Hl Hnul Hlen Hroom Hcmd Hsafe Hcl Hfuel Hn.
  pose proof (seek_run n a o f [] l x y rest e fuel 0) as Hrun. rewrite log_put_nil in Hrun.
  change (strlen []) with 0 in Hrun. rewrite Z.sub_0_r in Hrun. rewrite <- app_assoc.
  pose proof (size_bytes a). pose proof (clean_bytes a Hcl) as Hbytes.
  assert (Hp : plain []) by by apply plain_check.
  destruct (Hrun Hf eq_refl (not_elem_of_nil NL) Hp Hn Hl Hnul Hlen Hcmd ltac:(lia))
    as (f1 & Hf1 & _ & _ & Hrun'). specialize (Hrun' (Hsafe _ _ (ready_dev _ _ _ Hf1))). clear Hrun.
  rename Hrun' into Hrun.
  destruct (log_seek a x y) as [p|].
  - destruct (Hrun (strlen (drop p (log_bytes a)))
      (OutStream (sent o ++ drop p (log_bytes a)) None)) as (f' & Hs & Hok).
    + intros Hin. apply Hbytes. rewrite <- (take_drop p (log_bytes a)). apply elem_of_app. by right.
    + rewrite length_drop. lia.
    + unfold fwrite_socket. by rewrite Hroom.
    + rewrite bool_decide_true in Hs by done. exists f'. split; [by apply embed_done|by apply Hok].
  - destruct Hrun as (f' & Hs & Hok). exists f'. split; [by apply embed_done|done].
Qed.

Lemma tick_done n f a time fuel :
  file_ready n f a → strlen (timestamp time) ≤ n →
  ∃ f', turn_body fuel (Tick time) (SharedFile true f)
        = Done (Ticked RET_OK, SharedFile true f') ∧
    file_ready (n - strlen (timestamp time)) f' (log_put a (timestamp time)).
Proof.
  intros Hf Hn.
  destruct (put_law n f a (timestamp time) Hf (timestamp_short time) Hn) as (f1 & f2 & Hw & Hfl & Hf2).
  exists f2. split; [|done]. cbn [turn_body]. unfold tick_run, on_stream, shared_stream.
  rewrite cstring_id by apply timestamp_no_NUL. unfold mbind, M_bind, outcome_bind. cbn [stream].
  rewrite Hw. rewrite bool_decide_false by (by intros []). by rewrite Hfl.
Qed.

Lemma split_complete l line rest :
  split_line l = (line, rest) →
  l = line ++ rest ∧
  ((complete line = true ∧ ∃ u, line = u ++ [NL] ∧ NL ∉ u) ∨
   (complete line = false ∧ rest = [] ∧ NL ∉ line)).
Proof.
  intros Hs. destruct (split_line_spec _ _ _ Hs) as [-> [(u & -> & Hu)|[-> Hl]]]; (split; [done|]).
  - left. split; [|by exists u]. unfold complete. by rewrite last_snoc, bool_decide_true.
  - right. split; [|done]. unfold complete. apply bool_decide_eq_false.
    by intros Hlast%last_Some_elem_of.
Qed.

Lemma body_done n f a t fuel :
  file_ready n f a → clean a → well_behaved t → strlen (demand t) ≤ n →
  (size a + length (demand t) + 1 < fuel)%nat →
  ∃ f', turn_body fuel t (SharedFile true f)
        = Done (answer t (log_put a (kept t)), SharedFile true f') ∧
    file_ready (n - strlen (kept t)) f' (log_put a (kept t)).
Proof.
  intros Hf Hcl Ht Hn Hfuel. pose proof (clean_put a (kept t) Hcl (kept_no_NUL t Ht)) as Hcl'.
  apply clean_bytes in Hcl'. pose proof (size_put a (kept t)) as Hs1.
  pose proof (size_bytes (log_put a (kept t))) as Hs2.
  pose proof (prefix_length _ _ (kept_prefix t)) as Hk.
  destruct t as [[u e] o|time]; [|by apply tick_done].
  unfold demand, well_behaved, answer, kept in *. cbn [unread ends] in *.
  destruct (split_line u) as [line rest] eqn:Hline. cbn [fst] in *. cbv zeta in *.
  destruct Ht as [Hpl Hroom].
  destruct (split_complete _ _ _ Hline) as [-> [(Hc & l & -> & Hl)|(Hc & -> & Hl)]].
  - pose proof (length_app l [NL]) as Hlen. cbn [length] in Hlen.
    destruct Hpl as [Hpl|(_ & Hnul & Hshort & Hcmd)].
    + unfold command in *. rewrite (plain_first _ Hpl), Hc in *. apply line_done; [done..|lia|lia].
    + unfold command in *. rewrite take_ge in * by done.
      destruct (seek_command (l ++ [NL])) as [[x y]|] eqn:Hxy; [|done].
      apply not_elem_of_app in Hnul as [Hnul _].
      rewrite !log_put_nil. change (strlen []) with 0. rewrite Z.sub_0_r.
      apply seek_done; try done; [lia|by intros; eapply Hcmd|lia|unfold strlen in Hn; lia].
  - destruct Hpl as [Hpl|(Hcomp & _)]; [|by rewrite Hc in Hcomp]. rewrite app_nil_r.
    unfold command in *. rewrite (plain_first _ Hpl), Hc in *.
    destruct (missing_run n a o f line e fuel) as (f' & Hs & Hf'); [done..|lia|].
    exists f'. split; [by apply embed_done|done].
Qed.

(** Turns one after another. *)
Lemma turns_done n f a ts fuel :
  file_ready n f a → clean a → Forall well_behaved ts → demands ts ≤ n →
  (size a + Z.to_nat (demands ts) + 1 < fuel)%nat →
  ∃ f' n', serial (turn_run fuel) ts (SharedFile false f)
        = Done ((take_turns ts a).1, SharedFile false f') ∧
    file_ready n' f' (take_turns ts a).2.
Proof.
  intros Hf Hcl Hts. revert n f a Hf Hcl.
  induction Hts as [|t ts Ht Hts IH]; intros n f a Hf Hcl Hn Hfuel; [by exists f, n|].
  change (demands (t :: ts)) with (strlen (demand t) + demands ts) in *.
  pose proof (demands_nonneg ts). pose proof (kept_length t). pose proof (size_put a (kept t)).
  assert (strlen (demand t) = Z.of_nat (length (demand t))) as Hd by done.
  assert (strlen (kept t) = Z.of_nat (length (kept t))) as Hk by done.
  destruct (body_done n f a t fuel) as (f1 & Hb & Hf1); [done..|lia|lia|].
  destruct (IH (n - strlen (kept t)) f1 (log_put a (kept t))) as (f2 & n' & Hs & Hf2);
    [done|by apply clean_put, kept_no_NUL|lia|lia|].
  simpl. destruct (take_turns ts _) as [rs b]. exists f2, n'. split; [|done].
  apply serial_cons with (s1 := SharedFile false f1); [|done]. unfold turn_run. simpl file_mutex.
  cbv iota. rewrite (M_bind_Done _ (set_file_mutex true) _ tt (SharedFile true f)) by done.
  by rewrite (M_bind_Done _ _ _ _ _ Hb).
Qed.

(** What the laws give for turns at a file that is ready. *)
Context (n : Z) (f : FILE D) (a : A) (Hf : file_ready n f a) (Hcl : clean a).

Definition served (ts : list turn) : Prop := Forall well_behaved ts ∧ demands ts ≤ n.
Definition rounds : nat := size a + Z.to_nat n + 2.

Lemma served_some ts ts' : ts ⊆+ ts' → served ts' → served ts.
Proof.
  intros Hsub [Hw Hd]. split.
  - apply Forall_forall. intros t Ht. rewrite Forall_forall in Hw. apply Hw. by eapply elem_of_submseteq.
  - pose proof (demands_some _ _ Hsub). lia.
Qed.

Lemma served_done ts :
  served ts →
  ∃ f' n', serial (turn_run rounds) ts (SharedFile false f)
        = Done ((take_turns ts a).1, SharedFile false f') ∧
    file_ready n' f' (take_turns ts a).2.
Proof.
  intros [Hw Hd]. apply (turns_done n); [done..|]. pose proof (demands_nonneg ts). unfold rounds. lia.
Qed.

Lemma served_runs ts :
  served ts → Forall (λ t, locked t = true) ts →
  ∃ rs s, serial (turn_run rounds) ts (SharedFile false f) = Done (rs, s).
Proof. intros Hs _. destruct (served_done ts Hs) as (f' & n' & Hr & _). by eexists _, _. Qed.

Lemma served_ok ts :
  served ts → Forall (call_ok (sequential := turn_run rounds)) ts.
Proof. intros _. by apply Forall_forall. Qed.

Lemma free_at_start : held (C := turn) (R := turn_result) (SharedFile false f) = false.
Proof. done. Qed.

Lemma stable_at_start :
  stable (sequential := turn_run rounds) (SharedFile false f).
Proof. done. Qed.

Definition start : config (shared_file D) turn turn_result := idle (SharedFile false f).

Lemma turns_serial cf :
  pool_run start cf → served (calls cf) →
  ∃ ids ts,
    Forall3 (returned cf) ids ts (take_turns ts a).1 ∧ ts ⊆+ calls cf ∧
    NoDup (order cf) ∧ ids `prefix_of` order cf ∧
    (file_mutex (shared cf) = false → order cf = ids ∧
      ∃ n', file_ready n' (stream (shared cf)) (take_turns ts a).2) ∧
    (∀ i t r, returned cf i t r → i ∈ ids).
Proof.
  intros Hrun Hs.
  destruct (interleaving_serial (sequential := turn_run rounds) (SharedFile false f) free_at_start stable_at_start served
    served_some served_ok served_runs cf Hrun Hs)
    as (ids & ts & rs & s & Hser & _ & Hsub & H3 & Hn & Hp & Hfree & Hr).
  destruct (served_done ts) as (f' & n' & Hser' & Hf'); [by eapply served_some|].
  rewrite Hser' in Hser. injection Hser as <- <-. exists ids, ts. do 4 (split; [done|]). split; [|exact Hr].
  intros Hm. destruct (Hfree Hm) as [-> ->]. split; [done|]. by exists n'.
Qed.

Lemma turns_over cf :
  pool_run start cf → served (calls cf) → all_returned cf → file_mutex (shared cf) = false.
Proof.
  intros Hrun Hs. exact (returned_free (sequential := turn_run rounds) (SharedFile false f)
    free_at_start stable_at_start served served_some served_ok served_runs cf Hrun Hs).
Qed.

Lemma turns_finish cf :
  pool_run start cf → served (calls cf) →
  (∀ i, move i cf ≠ Some Undef ∧ move i cf ≠ Some NoFuel) ∧
  ∃ es cf', Forall (λ e, ∃ i, e = Move i) es ∧ schedule es cf = Some (Done cf') ∧
    all_returned cf' ∧ calls cf' = calls cf.
Proof.
  intros Hrun Hs. split.
  - intros i. destruct (threads cf !! i) as [t|] eqn:Ht; [|unfold move; by rewrite Ht].
    destruct (interleaving_undef (sequential := turn_run rounds) (SharedFile false f) free_at_start stable_at_start served
      served_some served_ok served_runs cf i t Hrun Hs Ht) as [Hn Hu].
    split; [|done]. intros E. by destruct (Hu E).
  - destruct (interleaving_finishes (sequential := turn_run rounds) (SharedFile false f) free_at_start stable_at_start
      served served_some served_ok served_runs cf Hrun Hs) as (es & Hes & Hfin).
    exists es. destruct (schedule es cf) as [[cf'| |]|]; [|by destruct Hfin as (c & _ & [])|done|done].
    exists cf'. by destruct Hfin.
Qed.
End Serialized.

(** ** Theorems *)

(** A client with a line while the clock ticks and two more clients wait, on the
    regular file with the line "old": the second client's input ends without a
    newline, the third sends a seek command, which a regular file refuses. *)
Definition sample_turns : list turn :=
  [Talk (InStream (text "one" ++ NL :: text "more") Eof) nothing_sent;
   Tick leap_second;
   Talk (InStream (text "two") Eof) nothing_sent;
   Talk (InStream (text "AESDCHAR_IOCSEEKTO:0,2" ++ [NL]) Eof) nothing_sent].

Definition sample_server : config (shared_file regular) turn turn_result :=
  pool_after
    (map Arrive (take 2 sample_turns) ++ replicate 5 (Move 0) ++ map Arrive (drop 2 sample_turns)
     ++ replicate 13 (Move 0) ++ replicate 9 (Move 2) ++ replicate 5 (Move 3)
     ++ replicate 4 (Move 1))
    (idle (SharedFile false sample_file)).

Lemma sample_server_run : pool_run (start sample_file) sample_server.
Proof. apply pool_after_run. constructor. Qed.

Lemma sample_server_calls : calls sample_server = sample_turns.
Proof. by vm_compute. Qed.

Lemma old_log_clean : NUL ∉ old_log.
Proof. by apply (bool_decide_unpack (NUL ∉ old_log)). Qed.

Lemma sample_server_served : served (A := list ascii) 1000 (calls sample_server).
Proof.
  rewrite sample_server_calls. split; [|by vm_compute].
  constructor; [by split; [left; by apply plain_check|]|].
  constructor; [by split|]. constructor; [by split; [left; by apply plain_check|]|].
  constructor; [|constructor]. split; [right|done]. split; [by vm_compute|].
  split; [by apply (bool_decide_unpack (NUL ∉ text "AESDCHAR_IOCSEEKTO:0,2" ++ [NL]))|].
  split; [by apply (bool_decide_unpack (length (text "AESDCHAR_IOCSEEKTO:0,2" ++ [NL]) ≤ 255)%nat)|].
  by vm_compute.
Qed.

Lemma sample_server_replies :
  order sample_server = [0; 2; 3; 1]%nat ∧
  replies sample_server
  = [Some (Talked RET_OK (InStream (text "more") Eof)
       (OutStream (old_log ++ text "one" ++ [NL]) None));
     Some (Ticked RET_OK);
     Some (Talked RET_ERR (InStream [] Eof) nothing_sent);
     Some (Talked RET_ERR (InStream [] Eof) nothing_sent)].
Proof. split; by vm_compute. Qed.

(** Two clients on the device, the second with a seek to byte 2 of the first
    command. *)
#[local] Existing Instance ServerTheorems.server_kernel.
#[local] Existing Instance ServerTheorems.server_kernel_laws.
#[local] Existing Instance ServerTheorems.server_kernel_ample.

Definition device_server : config (shared_file device) turn turn_result :=
  pool_after
    (map Arrive [Talk (InStream (text "c" ++ [NL]) Eof) nothing_sent;
                 Talk (InStream (text "AESDCHAR_IOCSEEKTO:0,2" ++ [NL]) Eof) nothing_sent]
     ++ replicate 21 (Move 0) ++ replicate 19 (Move 1))
    (start device_file).

Lemma device_server_replies :
  replies device_server
  = [Some (Talked RET_OK (InStream [] Eof)
       (OutStream (text "hello" ++ [NL] ++ text "world" ++ [NL] ++ text "abc" ++ [NL]) None));
     Some (Talked RET_OK (InStream [] Eof)
       (OutStream (text "llo" ++ [NL] ++ text "world" ++ [NL] ++ text "abc" ++ [NL]) None))].
Proof. by vm_compute. Qed.

(** On the device a seek to the first command is computed in every state. *)
Lemma first_command_safe limit n d s y :
  device_ready limit n d s → device_seek_safe d 0 y.
Proof.
  intros ([_ HR] & _). unfold device_seek_safe. cbv zeta. intros _.
  destruct (rep_wf _ _ _ _ _ HR) as [_ _ Hout _ _ _]. unfold MAXOPS in Hout. lia.
Qed.

(** Whatever clients arrive (with text, in which a seek command is a line of
    its own, and taking their replies) and however often the clock ticks, for
    every interleaving of the steps of all threads: the turns that have released
    the mutex returned what they would have returned one after another in the
    order in which they took it, each as one atomic operation on the log; a client
    with a line gets the whole log as of its turn, one with a seek command the log
    from that byte on; and whenever the mutex is free the output file holds that
    log.  This is so for any log file, the regular file and the character device
    alike. *)
Lemma turns_serialized {D A} `{TL : TextLog D A} n f a (cf : config (shared_file D) turn turn_result) :
  file_ready n f a → clean a → pool_run (start f) cf →
  Forall (well_behaved (A := A)) (calls cf) → demands (calls cf) ≤ n →
  ∃ ids ts,
    Forall3 (returned cf) ids ts (take_turns ts a).1 ∧ ts ⊆+ calls cf ∧
    NoDup (order cf) ∧ ids `prefix_of` order cf ∧
    (file_mutex (shared cf) = false → order cf = ids ∧
      ∃ n', file_ready n' (stream (shared cf)) (take_turns ts a).2) ∧
    (∀ i t r, returned cf i t r → i ∈ ids).
Proof. intros. by apply (turns_serial n f a). Qed.

Lemma turns_serialized_witness :
  file_mutex (shared sample_server) = false ∧
  ∃ ids ts,
    Forall3 (returned sample_server) ids ts (take_turns ts old_log).1 ∧
    ts ⊆+ calls sample_server ∧ NoDup (order sample_server) ∧
    ids `prefix_of` order sample_server ∧
    (file_mutex (shared sample_server) = false → order sample_server = ids ∧
      ∃ n', file_ready n' (stream (shared sample_server)) (take_turns ts old_log).2) ∧
    (∀ i t r, returned sample_server i t r → i ∈ ids).
Proof.
  split; [by vm_compute|]. destruct sample_server_served as [Hw Hd].
  exact (turns_serialized 1000 sample_file old_log sample_server sample_ready
    old_log_clean sample_server_run Hw Hd).
Defined.

(** The turns' bytes one after another. *)
Lemma regular_turns ts c :
  (take_turns (A := list ascii) ts c).2 = c ++ concat (kept <$> ts) ∧
  ∀ k t, ts !! k = Some t →
    (take_turns (A := list ascii) ts c).1 !! k
    = Some (answer (A := list ascii) t (c ++ concat (kept <$> take (S k) ts))).
Proof.
  revert c. induction ts as [|t ts IH]; intros c; [by rewrite app_nil_r|].
  destruct (IH (log_put c (kept t))) as [H2 H1]. simpl in *.
  destruct (take_turns ts (c ++ kept t)) as [rs b]. simpl in *. split.
  - by rewrite H2, app_assoc.
  - intros [|k] t' Hk; simpl in *.
    + injection Hk as ->. by rewrite app_nil_r.
    + by rewrite (H1 k t' Hk), app_assoc.
Qed.

(** On the regular file no byte of a turn is lost or mixed with another's:
    when every turn is over the file is its old contents followed by what the
    turns kept (lines, timestamps), turn after turn, each of them once; the
    reply to a client is the file up to and including its own line. *)
Lemma no_byte_lost n f c (cf : config (shared_file regular) turn turn_result) :
  file_ready n f c → NUL ∉ c → pool_run (start f) cf →
  Forall (well_behaved (A := list ascii)) (calls cf) → demands (calls cf) ≤ n → all_returned cf →
  ∃ ts, ts ≡ₚ calls cf ∧
    file_bytes (fd (stream (shared cf))) = c ++ concat (kept <$> ts) ∧
    wbuf (stream (shared cf)) = [] ∧
    ∀ k t, ts !! k = Some t →
      ∃ i, returned cf i t (answer t (c ++ concat (kept <$> take (S k) ts))).
Proof.
  intros Hf Hn0 Hrun Hw Hd Hall. assert (Hc : clean (D := regular) c) by exact Hn0.
  destruct (turns_serial n f c Hf Hc cf Hrun) as (ids & ts & H3 & Hsub & Hn & Hp & Hfree & Hin);
    [done|].
  destruct Hfree as [Hids [n' Hf']]; [by apply (turns_over n f c Hf Hc cf)|].
  rewrite Hids in Hn. destruct (regular_turns ts c) as [H2 H1]. exists ts.
  split; [by eapply returned_all|]. rewrite H2 in Hf'. destruct Hf' as [Hwb _ _ Hrd].
  split; [apply Hrd|]. split; [done|]. intros k t Hk.
  destruct (Forall3_lookup_m _ _ _ _ _ _ H3 Hk) as (i & r & _ & Hr & Hret).
  rewrite (H1 k t Hk) in Hr. injection Hr as <-. by exists i.
Qed.

Lemma no_byte_lost_witness :
  ∃ ts, ts ≡ₚ calls sample_server ∧
    file_bytes (fd (stream (shared sample_server))) = old_log ++ concat (kept <$> ts) ∧
    wbuf (stream (shared sample_server)) = [] ∧
    ∀ k t, ts !! k = Some t →
      ∃ i, returned sample_server i t (answer t (old_log ++ concat (kept <$> take (S k) ts))).
Proof.
  destruct sample_server_served as [Hw Hd].
  apply (no_byte_lost 1000 sample_file old_log sample_server sample_ready
    old_log_clean sample_server_run Hw Hd).
  vm_compute. repeat (constructor; [by eexists|]). constructor.
Defined.

(** With clients that send text and take their replies no step of any thread
    is undefined, and nothing waits for ever: from every state that is reached
    the threads can be scheduled so that every turn returns. *)
Lemma turns_progress {D A} `{TL : TextLog D A} n f a (cf : config (shared_file D) turn turn_result) :
  file_ready n f a → clean a → pool_run (start f) cf →
  Forall (well_behaved (A := A)) (calls cf) → demands (calls cf) ≤ n →
  (∀ i, move i cf ≠ Some Undef ∧ move i cf ≠ Some NoFuel) ∧
  ∃ es cf', Forall (λ e, ∃ i, e = Move i) es ∧ schedule es cf = Some (Done cf') ∧
    all_returned cf' ∧ calls cf' = calls cf.
Proof. intros. by apply (turns_finish n f a). Qed.

Lemma turns_progress_witness :
  (∀ i, move i sample_server ≠ Some Undef ∧ move i sample_server ≠ Some NoFuel) ∧
  ∃ es cf', Forall (λ e, ∃ i, e = Move i) es ∧
    schedule es sample_server = Some (Done cf') ∧
    all_returned cf' ∧ calls cf' = calls sample_server.
Proof.
  destruct sample_server_served as [Hw Hd].
  exact (turns_progress 1000 sample_file old_log sample_server sample_ready
    old_log_clean sample_server_run Hw Hd).
Defined.
