(* ===== verification/DeviceLog.v ===== *)
(** * What many turns leave on the device

    The log of the device after a sequence of bytes, however they were cut into
    writes: the last ten commands that the bytes complete, and what is pending.
    The turns at the device write their bytes one turn after another. *)

From S2P Require Import Prelude Kernel CircularBuffer CharDriver DriverSpec Stdio OutputFile ServerProtocol Timestamp ServerDevice Interleaving Serializability ServerSessions ServerInterleavings.

(** The commands that [l] completes after the bytes [acc], and what follows the
    last newline. *)
Fixpoint commands_in (acc l : list ascii) : list (list ascii) * list ascii :=
  match l with
  | [] => ([], acc)
  | c :: l' =>
      if bool_decide (c = NL) then
        let '(cs, rest) := commands_in [] l' in ((acc ++ [NL]) :: cs, rest)
      else commands_in (acc ++ [c]) l'
  end.

(** The log after the bytes. *)
Definition spec_after (s : spec) (bytes : list ascii) : spec :=
  let '(cs, rest) := commands_in (pending s) bytes in Spec (lastn 10 (commands s ++ cs)) rest.

(** A log of no more commands than the ring has entries. *)
Definition fits (s : spec) : Prop := (length (commands s) ≤ 10)%nat.

Lemma represents_fits L d s : represents L d s → fits s.
Proof.
  intros [_ HR]. unfold fits. rewrite <- (Forall2_length _ _ _ (rep_commands _ _ _ _ _ HR)).
  unfold contents. rewrite length_take. pose proof (count_le _ (rep_wf _ _ _ _ _ HR)). lia.
Qed.

Lemma fits_after s l : fits (spec_after s l).
Proof.
  unfold fits, spec_after. destruct (commands_in _ _). simpl. rewrite lastn_length. lia.
Qed.

Lemma commands_in_app acc l1 l2 :
  commands_in acc (l1 ++ l2)
  = let '(cs1, r1) := commands_in acc l1 in
    let '(cs2, r2) := commands_in r1 l2 in (cs1 ++ cs2, r2).
Proof.
  revert acc. induction l1 as [|c l1 IH]; intros acc; simpl; [by destruct (commands_in acc l2)|].
  case_bool_decide; [|apply IH]. rewrite IH. destruct (commands_in [] l1) as [cs1 r1].
  by destruct (commands_in r1 l2).
Qed.

Lemma commands_in_plain acc u : NL ∉ u → commands_in acc u = ([], acc ++ u).
Proof.
  revert acc. induction u as [|c u IH]; intros acc Hu; simpl; [by rewrite app_nil_r|].
  apply not_elem_of_cons in Hu as [Hc Hu]. rewrite bool_decide_false by congruence.
  by rewrite IH, <- app_assoc.
Qed.

Lemma spec_after_nil s : fits s → spec_after s [] = s.
Proof.
  intros Hs. unfold spec_after. simpl. rewrite app_nil_r, lastn_short by done. by destruct s.
Qed.

Lemma spec_after_app s l1 l2 : spec_after (spec_after s l1) l2 = spec_after s (l1 ++ l2).
Proof.
  unfold spec_after. rewrite commands_in_app. destruct (commands_in (pending s) l1) as [cs1 r1]. simpl.
  destruct (commands_in r1 l2) as [cs2 r2]. by rewrite lastn_lastn_app, <- app_assoc.
Qed.

(** A line, or the beginning of one. *)
Definition line_like (l : list ascii) : Prop := (NL ∉ l) ∨ ∃ u, l = u ++ [NL] ∧ NL ∉ u.

(** One write of such bytes. *)
Lemma spec_write_after s l : fits s → line_like l → spec_write s l = spec_after s l.
Proof.
  intros Hs [Hl|(u & -> & Hu)]; unfold spec_write, spec_after.
  - rewrite bool_decide_false by by intros ?%last_Some_elem_of.
    by rewrite commands_in_plain, app_nil_r, lastn_short.
  - rewrite bool_decide_true by by rewrite last_snoc.
    rewrite commands_in_app, commands_in_plain by done. simpl. by rewrite <- app_assoc.
Qed.

(** ** Turns of clients *)
Definition is_talk (t : turn) : Prop := match t with Talk _ _ => True | Tick _ => False end.

Lemma kept_line_like t : is_talk t → line_like (kept t).
Proof.
  destruct t as [i o|]; [intros _|done]. simpl.
  destruct (split_line (unread i)) as [line rest] eqn:Hs. simpl.
  destruct (command line); [left; apply not_elem_of_nil|].
  destruct (split_complete _ _ _ Hs) as [_ [(-> & Hl)|(-> & _ & Hl)]]; [by right|left].
  destruct (ends i); [done|]. intros Hin. apply Hl.
  rewrite <- (take_drop (255 * (length line / 255)) line). apply elem_of_app. by left.
Qed.

Section Turns.
Context `{KS : KernelServices, KL : !KernelLaws} (limit : Z) `{AM : !AmpleMemory limit}.
#[local] Existing Instance device_log.

(** The turns of clients at the device, one after another. *)
Lemma device_turns ts s :
  fits s → Forall is_talk ts →
  (take_turns (H0 := device_log limit) ts s).2 = spec_after s (concat (kept <$> ts)) ∧
  ∀ k t, ts !! k = Some t →
    (take_turns (H0 := device_log limit) ts s).1 !! k
    = Some (answer (H0 := device_log limit) t (spec_after s (concat (kept <$> take (S k) ts)))).
Proof.
  revert s. induction ts as [|t ts IH]; intros s Hs Hts.
  { simpl. by rewrite spec_after_nil. }
  apply Forall_cons in Hts as [Ht Hts].
  destruct (IH (spec_after s (kept t)) (fits_after _ _) Hts) as [H2 H1]. simpl.
  rewrite spec_write_after by (done || by apply kept_line_like).
  destruct (take_turns ts (spec_after s (kept t))) as [rs b]. simpl in *. split.
  - by rewrite H2, spec_after_app.
  - intros [|k] t' Hk; simpl in *.
    + injection Hk as ->. by rewrite app_nil_r.
    + by rewrite (H1 k t' Hk), spec_after_app.
Qed.
End Turns.
