(* ===== verification/SystemCalls.v ===== *)
(** * examples/systemcalls: running a command and waiting for it

    [do_exec] and [do_exec_redirect] fork: the same code runs in the parent and
    in the child, which differ in what [fork] returned.  A definition takes that
    value and the answers of the other system calls, and returns how the process
    leaves the function.  [World] ties the two processes together: the status
    [waitpid] reports is that of the child as the code itself made it end. *)

From S2P Require Import Prelude.

Definition EXIT_SUCCESS : Z := 0.
Definition EXIT_FAILURE : Z := 1.

(** How a process ends, or stops, and the status word of it. *)
Inductive ending :=
| Exit (code : Z)
| Signaled (sig : Z) (core : bool)
| Stopped (sig : Z).

Definition wait_status (e : ending) : Z :=
  match e with
  | Exit code => Z.shiftl (Z.land code 0xff) 8
  | Signaled sig core => Z.lor sig (if core then 0x80 else 0)
  | Stopped sig => Z.lor (Z.shiftl sig 8) 0x7f
  end.

Definition ending_ok (e : ending) : Prop :=
  match e with
  | Exit _ => True
  | Signaled sig _ | Stopped sig => 1 ≤ sig ≤ 64
  end.

(** The macros of <sys/wait.h>. *)
Definition s8 (z : Z) : Z := (z + 2 ^ 7) mod 2 ^ 8 - 2 ^ 7.
Definition WIFEXITED (status : Z) : bool := bool_decide (Z.land status 0x7f = 0).
Definition WEXITSTATUS (status : Z) : Z := Z.shiftr (Z.land status 0xff00) 8.
Definition WIFSIGNALED (status : Z) : bool :=
  bool_decide (Z.shiftr (s8 (Z.land status 0x7f + 1)) 1 > 0).
Definition WIFSTOPPED (status : Z) : bool := bool_decide (Z.land status 0xff = 0x7f).

(** ** do_system; [ret] is what [system(cmd)] returned *)
Definition do_system (ret : Z) : bool :=
  if bool_decide (ret = -1) then false
  else if WIFEXITED ret then
    if bool_decide (WEXITSTATUS ret ≠ EXIT_SUCCESS) then false else true
  else false.

(** ** The argument array: [command[0..count-1]] and the terminating NULL *)
Definition command_body (s : Z * (list (option string) * list string))
    : outcome (flow (Z * (list (option string) * list string)) unit) :=
  let '(i, (command, args)) := s in
  match args with
  | [] => Undef
  | a :: args' => command' ← array_set command i (Some a); Done (Next (i + 1, (command', args')))
  end.

Definition build_command (count : Z) (args : list string) : outcome (list (option string)) :=
  if bool_decide (count + 1 ≤ 0) then Undef
  else
    r ← while_do (R := unit) (Z.to_nat count) command_body
          (λ '(i, _), bool_decide (i < count))
          (0, (replicate (Z.to_nat (count + 1)) None, args));
    match r with
    | Next (_, (command, _)) => array_set command count None
    | Return _ => Undef
    end.

(** ** Processes *)

(** How a process leaves the function. *)
Inductive left_by :=
| Returned (b : bool)
| Exited (code : Z)
| Replaced (argv : list (option string)) (fds : gmap Z string).

(** The parent's loop of [do_exec]; the [n]-th call of [waitpid] gives [None] for
    -1 and the status otherwise.  The state is the number of calls and
    [status]. *)
Definition exec_wait_body (waitpid : nat → option Z) (s : nat * Z)
    : outcome (flow (nat * Z) bool) :=
  let '(n, _) := s in
  match waitpid n with
  | None => Done (Return false)
  | Some status =>
      if WIFEXITED status then
        if bool_decide (WEXITSTATUS status ≠ EXIT_SUCCESS) then Done (Return false)
        else Done (Next (S n, status))
      else if WIFSIGNALED status then Done (Return false)
      else if WIFSTOPPED status then Done (Return false)
      else Done (Return false)
  end.

Definition wait_again (s : nat * Z) : bool :=
  negb (WIFEXITED s.2) && negb (WIFSIGNALED s.2).

Definition do_exec (fuel : nat) (pid : Z) (waitpid : nat → option Z)
    (execv : list (option string) → bool) (fds : gmap Z string)
    (count : Z) (args : list string) : outcome left_by :=
  command ← build_command count args;
  if bool_decide (pid = -1) then Done (Returned false)
  else if bool_decide (pid ≠ 0) then
    o ← do_while fuel (exec_wait_body waitpid) wait_again (0%nat, 0);
    match o with
    | Return b => Done (Returned b)
    | Next _ => Done (Returned true)
    end
  else if execv command then Done (Replaced command fds)
  else Done (Exited EXIT_FAILURE).

Definition redirect_wait_body (waitpid : nat → option Z) (s : nat * Z)
    : outcome (flow (nat * Z) bool) :=
  let '(n, _) := s in
  match waitpid n with
  | None => Done (Return false)
  | Some status =>
      if WIFEXITED status then
        if bool_decide (WEXITSTATUS status ≠ EXIT_SUCCESS) then Done (Return false)
        else Done (Return true)
      else if WIFSIGNALED status then Done (Return false)
      else if WIFSTOPPED status then Done (Return false)
      else Done (Return false)
  end.

(** The mode the child passes to [open]. *)
Definition output_mode : Z := 0x660.

(** [open_fd]: the descriptor of [open(outputfile, ..., output_mode)], [None]
    for -1; [dup2] and [close] answer whether they succeed. *)
Definition do_exec_redirect (fuel : nat) (pid : Z) (waitpid : nat → option Z)
    (open_fd : string → Z → option Z) (dup2 close : Z → bool)
    (execv : list (option string) → bool) (fds : gmap Z string)
    (outputfile : string) (count : Z) (args : list string) : outcome left_by :=
  command ← build_command count args;
  if bool_decide (pid = -1) then Done (Returned false)
  else if bool_decide (pid ≠ 0) then
    o ← do_while fuel (redirect_wait_body waitpid) wait_again (0%nat, 0);
    match o with
    | Return b => Done (Returned b)
    | Next _ => Done (Returned true)
    end
  else
    match open_fd outputfile output_mode with
    | None => Done (Exited EXIT_FAILURE)
    | Some output_fd =>
        let fds1 := <[output_fd := outputfile]> fds in
        let fds2 := if dup2 output_fd then <[1 := outputfile]> fds1 else fds1 in
        if execv command then Done (Replaced command fds2)
        else
          let ret := EXIT_FAILURE in
          let ret := if close output_fd then ret else EXIT_FAILURE in
          Done (Exited ret)
    end.

(** ** The two processes together *)
Record world := World {
  (* the child's pid, [None] when [fork] fails *)
  fork : option Z;
  (* whether [waitpid] fails *)
  wait_fails : bool;
  (* whether [execv] can start a command *)
  starts : list (option string) → bool;
  (* how the started program ends, given its argv and its descriptors *)
  program : list (option string) → gmap Z string → ending;
  open_file : string → Z → option Z;
  dup2_ok : Z → bool;
  close_ok : Z → bool;
  inherited : gmap Z string;
}.

Definition world_ok (w : world) : Prop :=
  (∀ pid, fork w = Some pid → 0 < pid) ∧ (∀ argv fds, ending_ok (program w argv fds)).

(** How the child ends, from how it left the function. *)
Definition child_ending (w : world) (l : left_by) : ending :=
  match l with
  | Returned b => Exit (if b then 0 else 1)
  | Exited code => Exit code
  | Replaced argv fds => program w argv fds
  end.

(** [f pid waitpid]: the function as a process runs it. *)
Definition run_world (w : world) (f : Z → (nat → option Z) → outcome left_by) : outcome left_by :=
  match fork w with
  | None => f (-1) (λ _, None)
  | Some pid =>
      child ← f 0 (λ _, None);
      f pid (λ n, if wait_fails w then None
                  else if bool_decide (n = 0%nat) then Some (wait_status (child_ending w child))
                  else None)
  end.

Definition run_exec (w : world) (fuel : nat) (count : Z) (args : list string) : outcome left_by :=
  run_world w (λ pid waitpid, do_exec fuel pid waitpid (starts w) (inherited w) count args).

Definition run_redirect (w : world) (fuel : nat) (outputfile : string) (count : Z)
    (args : list string) : outcome left_by :=
  run_world w (λ pid waitpid, do_exec_redirect fuel pid waitpid (open_file w) (dup2_ok w)
    (close_ok w) (starts w) (inherited w) outputfile count args).

(** ** The status macros *)

(** A boolean fact about all the values below [n] is checked by computing. *)
Lemma check_range (n : nat) (P : Z → bool) (z : Z) :
  forallb (λ i, P (Z.of_nat i)) (seq 0 n) = true → 0 ≤ z < Z.of_nat n → P z = true.
Proof.
  intros Hall Hz. rewrite forallb_forall in Hall. specialize (Hall (Z.to_nat z)).
  rewrite Z2Nat.id in Hall by lia. apply Hall, in_seq. lia.
Qed.

Lemma exit_status c :
  WIFEXITED (wait_status (Exit c)) = true ∧ WEXITSTATUS (wait_status (Exit c)) = c mod 256.
Proof.
  simpl. change 255 with (Z.ones 8). rewrite Z.land_ones by lia. change (2 ^ 8) with 256.
  assert (WIFEXITED (Z.shiftl (c mod 256) 8) &&
    (WEXITSTATUS (Z.shiftl (c mod 256) 8) =? c mod 256) = true) as H.
  { apply (check_range 256 (λ x, WIFEXITED (Z.shiftl x 8) &&
      (WEXITSTATUS (Z.shiftl x 8) =? x))); [by vm_compute|].
    by apply Z.mod_pos_bound. }
  apply andb_true_iff in H as [? H]. by apply Z.eqb_eq in H.
Qed.

Lemma other_status e :
  ending_ok e → (∀ c, e ≠ Exit c) → WIFEXITED (wait_status e) = false.
Proof.
  destruct e as [c|sig core|sig]; intros He Hne; [by destruct (Hne c)|..]; simpl in He.
  - assert ((sig =? 0) || negb (WIFEXITED (wait_status (Signaled sig core))) = true) as H.
    { apply (check_range 65 (λ x, (x =? 0) || negb (WIFEXITED (wait_status (Signaled x core)))));
        [by destruct core; vm_compute|lia]. }
    apply orb_true_iff in H as [H%Z.eqb_eq|H%negb_true_iff]; [lia|done].
  - assert (negb (WIFEXITED (wait_status (Stopped sig))) = true) as H.
    { apply (check_range 65 (λ x, negb (WIFEXITED (wait_status (Stopped x)))));
        [by vm_compute|lia]. }
    by apply negb_true_iff in H.
Qed.

(** The program ended by itself with a status that counts as success. *)
Definition succeeds (e : ending) : Prop := ∃ c, e = Exit c ∧ c mod 256 = 0.

#[export] Instance succeeds_dec e : Decision (succeeds e).
Proof.
  destruct e as [c|sig core|sig]; [|by right; intros (? & ? & _)..].
  destruct (decide (c mod 256 = 0)) as [Hc|Hc]; [left; by exists c|].
  right. intros (c' & [= <-] & ?). done.
Defined.

Lemma succeeds_status e :
  ending_ok e →
  (if WIFEXITED (wait_status e) then
     if bool_decide (WEXITSTATUS (wait_status e) ≠ EXIT_SUCCESS) then false else true
   else false) = bool_decide (succeeds e).
Proof.
  intros He. assert ((∃ c, e = Exit c) ∨ ∀ c, e ≠ Exit c) as [[c ->]|Hne].
  { destruct e; [left; by eexists|by right..]. }
  - destruct (exit_status c) as [-> ->]. unfold EXIT_SUCCESS.
    destruct (decide (c mod 256 = 0)) as [Hc|Hc].
    + rewrite bool_decide_false by congruence. rewrite bool_decide_true; [done|by exists c].
    + rewrite bool_decide_true by done. rewrite bool_decide_false; [done|].
      intros (c' & [= <-] & ?). done.
  - rewrite (other_status e He Hne), bool_decide_false; [done|].
    intros (c & ? & _). by apply (Hne c).
Qed.

(** ** The argument array *)
Lemma command_loop k (count : Z) pre post args :
  count = Z.of_nat (length pre + k) → (k < length post)%nat →
  while_do (R := unit) k command_body (λ '(i, _), bool_decide (i < count))
    (Z.of_nat (length pre), (pre ++ post, args))
  = if bool_decide (k ≤ length args)%nat
    then Done (Next (count, (pre ++ (Some <$> take k args) ++ drop k post, drop k args)))
    else Undef.
Proof.
  revert pre post args. induction k as [|k IH]; intros pre post args -> Hpost; simpl.
  - rewrite bool_decide_false by lia. rewrite drop_0. do 4 f_equal. lia.
  - rewrite bool_decide_true by lia. destruct args as [|a args]; [done|]. simpl.
    rewrite array_set_in by (rewrite length_app; lia). simpl.
    destruct post as [|x post]; simpl in Hpost; [lia|].
    rewrite Nat2Z.id, insert_app_r_alt, Nat.sub_diag by lia. simpl.
    specialize (IH (pre ++ [Some a]) post args). rewrite length_app in IH. simpl in IH.
    rewrite <- !app_assoc in IH. simpl in IH.
    replace (Z.of_nat (length pre) + 1) with (Z.of_nat (length pre + 1)) by lia.
    rewrite IH by (done || lia). apply if_bool_decide_ext. lia.
Qed.

Lemma build_command_run count args :
  0 ≤ count →
  build_command count args
  = if bool_decide (count ≤ Z.of_nat (length args))
    then Done ((Some <$> take (Z.to_nat count) args) ++ [None]) else Undef.
Proof.
  intros Hc. unfold build_command. rewrite bool_decide_false by lia.
  pose proof (command_loop (Z.to_nat count) count [] (replicate (Z.to_nat (count + 1)) None) args)
    as Hl. change (Z.of_nat (length [])) with 0 in Hl. cbn [app] in Hl.
  rewrite Hl by (rewrite ?length_replicate; simpl; lia). clear Hl.
  destruct (decide (count ≤ Z.of_nat (length args))) as [Hle|Hgt].
  - rewrite !bool_decide_true by lia. simpl. rewrite drop_replicate.
    replace (Z.to_nat (count + 1) - Z.to_nat count)%nat with 1%nat by lia. simpl.
    assert (length (Some <$> take (Z.to_nat count) args) = Z.to_nat count) as Hlen
      by (rewrite length_fmap, length_take; lia).
    rewrite array_set_in by (rewrite length_app, Hlen; simpl; lia).
    by rewrite insert_app_r_alt, Hlen, Nat.sub_diag by lia.
  - by rewrite !bool_decide_false by lia.
Qed.

Section Running.
Context (w : world) (Hw : world_ok w).

Lemma exec_parent fuel pid cmd_ending count args execv fds :
  pid ≠ -1 → pid ≠ 0 → ending_ok cmd_ending → 0 ≤ count ≤ Z.of_nat (length args) →
  do_exec (S fuel) pid
    (λ n, if wait_fails w then None
          else if bool_decide (n = 0%nat) then Some (wait_status cmd_ending) else None)
    execv fds count args
  = Done (Returned (negb (wait_fails w) && bool_decide (succeeds cmd_ending))).
Proof using.
  intros Hp1 Hp0 He Hc. unfold do_exec.
  rewrite build_command_run, (bool_decide_true (count ≤ _)) by lia.
  simpl. rewrite (bool_decide_false (pid = -1)), (bool_decide_true (pid ≠ 0)) by done. simpl.
  destruct (wait_fails w); [done|]. simpl. rewrite <- (succeeds_status _ He).
  destruct (WIFEXITED (wait_status cmd_ending)) eqn:E; simpl.
  - case_bool_decide; [done|]. simpl. unfold wait_again. simpl. by rewrite E.
  - by repeat case_match.
Qed.

Lemma redirect_parent fuel pid cmd_ending count args open_fd dup2 close execv fds outputfile :
  pid ≠ -1 → pid ≠ 0 → ending_ok cmd_ending → 0 ≤ count ≤ Z.of_nat (length args) →
  do_exec_redirect (S fuel) pid
    (λ n, if wait_fails w then None
          else if bool_decide (n = 0%nat) then Some (wait_status cmd_ending) else None)
    open_fd dup2 close execv fds outputfile count args
  = Done (Returned (negb (wait_fails w) && bool_decide (succeeds cmd_ending))).
Proof using.
  intros Hp1 Hp0 He Hc. unfold do_exec_redirect.
  rewrite build_command_run, (bool_decide_true (count ≤ _)) by lia.
  simpl. rewrite (bool_decide_false (pid = -1)), (bool_decide_true (pid ≠ 0)) by done. simpl.
  destruct (wait_fails w); [done|]. simpl. rewrite <- (succeeds_status _ He).
  by repeat case_match.
Qed.

Lemma child_ending_ok l : (∀ b, l ≠ Returned b) → ending_ok (child_ending w l).
Proof. intros Hl. destruct l; [by destruct (Hl b)|done|apply Hw]. Qed.
End Running.

(** ** Properties *)

(** The command as the program gets it. *)
Definition argv (count : Z) (args : list string) : list (option string) :=
  (Some <$> take (Z.to_nat count) args) ++ [None].

(** [do_system] answers true exactly when the command ran and ended by
    itself with exit status 0; an error of [system] and an end by a signal are
    false. *)
Lemma do_system_correct e :
  ending_ok e → (do_system (wait_status e) = true ↔ succeeds e) ∧ do_system (-1) = false.
Proof.
  intros He. split; [|done]. unfold do_system.
  destruct (decide (wait_status e = -1)) as [Hm|Hm].
  - rewrite bool_decide_true by done. split; [done|]. intros (c & -> & Hc).
    destruct (exit_status c) as [_ Hs]. rewrite Hm in Hs. by rewrite Hc in Hs.
  - rewrite bool_decide_false, (succeeds_status _ He) by done. by rewrite bool_decide_eq_true.
Qed.

Lemma do_system_correct_witness :
  (do_system (wait_status (Signaled 9 true)) = true ↔ succeeds (Signaled 9 true)) ∧
  do_system (-1) = false.
Proof. apply do_system_correct. simpl. lia. Defined.

(** The argument array has the [count] arguments and NULL; with fewer
    arguments than [count], or a negative [count], building it is undefined. *)
Lemma build_command_correct count args :
  build_command count args
  = if bool_decide (0 ≤ count ≤ Z.of_nat (length args)) then Done (argv count args) else Undef.
Proof.
  destruct (decide (0 ≤ count)) as [Hc|Hc].
  - rewrite build_command_run by done. apply if_bool_decide_ext. lia.
  - rewrite bool_decide_false by lia. unfold build_command. by rewrite bool_decide_true by lia.
Qed.

(** C32: [do_exec] ends after one [waitpid] and answers true exactly when the
    fork succeeded, the command was started with the arguments given and the
    descriptors inherited, it ended with exit status 0, and [waitpid] reported
    that; the child never returns from the function. *)
Theorem do_exec_correct w fuel count args :
  world_ok w → 0 ≤ count ≤ Z.of_nat (length args) →
  ∃ b, run_exec w (S fuel) count args = Done (Returned b) ∧
    (b = true ↔ fork w ≠ None ∧ wait_fails w = false ∧ starts w (argv count args) = true ∧
       succeeds (program w (argv count args) (inherited w))).
Proof.
  intros Hw Hc. unfold run_exec, run_world.
  assert (Hchild : do_exec (S fuel) 0 (λ _, None) (starts w) (inherited w) count args
    = Done (if starts w (argv count args) then Replaced (argv count args) (inherited w)
            else Exited EXIT_FAILURE)).
  { unfold do_exec. rewrite build_command_run, (bool_decide_true (count ≤ _)) by lia. simpl.
    fold (argv count args). by destruct (starts w (argv count args)). }
  destruct (fork w) as [pid|] eqn:Hfork.
  - pose proof (proj1 Hw pid Hfork). rewrite Hchild. cbn [mbind outcome_bind].
    rewrite exec_parent; [|lia|lia|apply child_ending_ok; [done|by destruct (starts _ _)]|done].
    eexists. split; [done|]. rewrite andb_true_iff, negb_true_iff, bool_decide_eq_true.
    destruct (starts w (argv count args)); simpl; [naive_solver|].
    split; [|naive_solver]. intros (_ & c & [= <-] & Hc2). done.
  - exists false. unfold do_exec. rewrite build_command_run, (bool_decide_true (count ≤ _)) by lia.
    simpl. naive_solver.
Qed.

(** A machine where /bin/true and /bin/false can be started. *)
Definition machine : world := World (Some 42) false
  (λ a, bool_decide (head a ∈ [Some (Some "/bin/true"%string); Some (Some "/bin/false"%string)]))
  (λ a _, Exit (if bool_decide (head a = Some (Some "/bin/true"%string)) then 0 else 1))
  (λ _ _, Some 3) (λ _, true) (λ _, true)
  (list_to_map [(0, "tty"); (1, "tty"); (2, "tty")]%string).

Lemma machine_ok : world_ok machine.
Proof. by split; [intros pid [= <-]|]. Qed.

Lemma do_exec_correct_witness :
  ∃ b, run_exec machine 1 2 ["/bin/true"; "x"]%string = Done (Returned b) ∧
    (b = true ↔ fork machine ≠ None ∧ wait_fails machine = false ∧
       starts machine (argv 2 ["/bin/true"; "x"]%string) = true ∧
       succeeds (program machine (argv 2 ["/bin/true"; "x"]%string) (inherited machine))).
Proof. apply (do_exec_correct machine 0); [apply machine_ok|simpl; lia]. Defined.

(** The child of [do_exec_redirect]: the same code, where [fork] returned 0. *)
Definition redirect_child (w : world) (outputfile : string) (count : Z) (args : list string)
    : outcome left_by :=
  do_exec_redirect 0 0 (λ _, None) (open_file w) (dup2_ok w) (close_ok w) (starts w) (inherited w)
    outputfile count args.

(** The program's descriptors after the redirection. *)
Definition redirected (w : world) (outputfile : string) (output_fd : Z) : gmap Z string :=
  let fds := <[output_fd := outputfile]> (inherited w) in
  if dup2_ok w output_fd then <[1 := outputfile]> fds else fds.

Lemma redirected_stdout w outputfile fd :
  redirected w outputfile fd !! 1
  = if dup2_ok w fd || bool_decide (fd = 1) then Some outputfile else inherited w !! 1.
Proof.
  unfold redirected. destruct (dup2_ok w fd); [by rewrite lookup_insert_eq|]. simpl.
  case_bool_decide as Hfd; [by rewrite Hfd, lookup_insert_eq|by rewrite lookup_insert_ne].
Qed.

Lemma redirected_others w outputfile fd k :
  k ≠ 1 → k ≠ fd → redirected w outputfile fd !! k = inherited w !! k.
Proof.
  intros H1 Hfd. unfold redirected.
  destruct (dup2_ok w fd); [rewrite lookup_insert_ne by done|]; by rewrite lookup_insert_ne.
Qed.

Lemma redirect_child_run w fuel outputfile count args :
  0 ≤ count ≤ Z.of_nat (length args) →
  do_exec_redirect fuel 0 (λ _, None) (open_file w) (dup2_ok w) (close_ok w) (starts w) (inherited w)
    outputfile count args
  = Done (match open_file w outputfile 0x660 with
          | Some fd => if starts w (argv count args)
              then Replaced (argv count args) (redirected w outputfile fd)
              else Exited EXIT_FAILURE
          | None => Exited EXIT_FAILURE
          end).
Proof.
  intros Hc. unfold do_exec_redirect, redirected.
  rewrite build_command_run, (bool_decide_true (count ≤ _)) by lia. simpl.
  fold (argv count args). unfold output_mode.
  destruct (open_file w outputfile 0x660) as [fd|]; [|done].
  destruct (starts w (argv count args)); [done|]. by destruct (close_ok w fd).
Qed.

(** C33: [do_exec_redirect] answers true exactly when the fork succeeded, the
    output file could be opened (with mode 0x660), the child became the command
    with the arguments given, it ended with exit status 0, and [waitpid] reported
    that.  The command's standard output is then the output file if [dup2]
    succeeded (or [open] gave descriptor 1 itself), and otherwise, since the
    result of [dup2] is not tested, the inherited one; its other descriptors but
    the one of the output file are the inherited ones. *)
Theorem do_exec_redirect_correct w fuel outputfile count args :
  world_ok w → 0 ≤ count ≤ Z.of_nat (length args) →
  (∃ b, run_redirect w (S fuel) outputfile count args = Done (Returned b) ∧
    (b = true ↔ fork w ≠ None ∧ wait_fails w = false ∧
       ∃ fd fds, open_file w outputfile 0x660 = Some fd ∧ starts w (argv count args) = true ∧
         redirect_child w outputfile count args = Done (Replaced (argv count args) fds) ∧
         succeeds (program w (argv count args) fds))) ∧
  ∀ argv' fds, redirect_child w outputfile count args = Done (Replaced argv' fds) →
    ∃ fd, open_file w outputfile 0x660 = Some fd ∧ argv' = argv count args ∧
      fds !! 1 = (if dup2_ok w fd || bool_decide (fd = 1) then Some outputfile
                  else inherited w !! 1) ∧
      fds !! fd = Some outputfile ∧ ∀ k, k ≠ 1 → k ≠ fd → fds !! k = inherited w !! k.
Proof.
  intros Hw Hc. unfold redirect_child. setoid_rewrite redirect_child_run; [|done..]. split.
  2:{ intros argv' fds. destruct (open_file w outputfile 0x660) as [fd|]; [|done].
      destruct (starts w (argv count args)); [|done]. intros [= <- <-]. exists fd.
      do 2 (split; [done|]). split; [apply redirected_stdout|].
      split; [|intros k; apply redirected_others]. unfold redirected. destruct (dup2_ok w fd).
      - destruct (decide (fd = 1)) as [->|Hfd]; [by rewrite lookup_insert_eq|].
        by rewrite lookup_insert_ne, lookup_insert_eq.
      - by rewrite lookup_insert_eq. }
  unfold run_redirect, run_world. destruct (fork w) as [pid|] eqn:Hfork.
  - pose proof (proj1 Hw pid Hfork). rewrite redirect_child_run by done. cbn [mbind outcome_bind].
    rewrite redirect_parent; [|lia|lia| |done].
    2:{ apply child_ending_ok; [done|]. by repeat case_match. }
    eexists. split; [done|]. rewrite andb_true_iff, negb_true_iff, bool_decide_eq_true.
    assert (¬ succeeds (Exit 1)) by (by intros (c & [= <-] & ?)).
    destruct (open_file w outputfile 0x660) as [fd|]; simpl; [|naive_solver].
    destruct (starts w (argv count args)); simpl; naive_solver.
  - exists false. unfold do_exec_redirect.
    rewrite build_command_run, (bool_decide_true (count ≤ _)) by lia. simpl. naive_solver.
Qed.

Lemma do_exec_redirect_correct_witness :
  redirect_child machine "out" 1 ["/bin/true"]%string
  = Done (Replaced (argv 1 ["/bin/true"]%string) (redirected machine "out" 3)) ∧
  (∃ b, run_redirect machine 1 "out" 1 ["/bin/true"]%string = Done (Returned b) ∧
    (b = true ↔ fork machine ≠ None ∧ wait_fails machine = false ∧
       ∃ fd fds, open_file machine "out" 0x660 = Some fd ∧
         starts machine (argv 1 ["/bin/true"]%string) = true ∧
         redirect_child machine "out" 1 ["/bin/true"]%string
         = Done (Replaced (argv 1 ["/bin/true"]%string) fds) ∧
         succeeds (program machine (argv 1 ["/bin/true"]%string) fds))) ∧
  ∀ argv' fds, redirect_child machine "out" 1 ["/bin/true"]%string = Done (Replaced argv' fds) →
    ∃ fd, open_file machine "out" 0x660 = Some fd ∧ argv' = argv 1 ["/bin/true"]%string ∧
      fds !! 1 = (if dup2_ok machine fd || bool_decide (fd = 1) then Some "out"%string
                  else inherited machine !! 1) ∧
      fds !! fd = Some "out"%string ∧ ∀ k, k ≠ 1 → k ≠ fd → fds !! k = inherited machine !! k.
Proof.
  split; [by vm_compute|]. apply (do_exec_redirect_correct machine 0); [apply machine_ok|simpl; lia].
Defined.

(** The mode is hexadecimal where an octal one is usual: as permission bits it
    gives the owner neither read nor write access. *)
Lemma output_mode_bits :
  Z.land output_mode 384 = 0 ∧ output_mode ≠ 6 * 64 + 6 * 8.
Proof. by split. Qed.
