(* ===== verification/Threading.v ===== *)
(** * examples/threading: threads that sleep, lock, sleep and unlock

    [threadfunc] is split at its library calls: [threadfunc_step] is what a
    thread does from one call to the next, given the call's result.  Threads
    interleave at these points over the shared mutexes ([step]). *)

From S2P Require Import Prelude.

(** [struct thread_data]; a mutex pointer is the mutex's number. *)
Record thread_data := ThreadData {
  mutex : nat;
  wait_to_obtain_ms : Z;
  wait_to_release_ms : Z;
  thread_complete_success : bool;
}.

Definition set_success (b : bool) (d : thread_data) : thread_data :=
  ThreadData (mutex d) (wait_to_obtain_ms d) (wait_to_release_ms d) b.

(** The next call of a thread. *)
Inductive point := Sleep_obtain | Lock | Sleep_release | Unlock | Finished.

#[export] Instance point_eq_dec : EqDecision point.
Proof. solve_decision. Defined.

Record thread := Thread {
  at_ : point;
  data : thread_data;
}.

(** [int] multiplication: overflow is undefined. *)
Definition int_mul (a b : Z) : outcome Z :=
  if bool_decide (- 2 ^ 31 ≤ a * b < 2 ^ 31) then Done (a * b) else Undef.

(** From one call, which returned [ret], to the next; [held] gives the owner of
    each locked mutex. *)
Definition threadfunc_step (i : nat) (t : thread) (held : gmap nat nat) (ret : Z)
    : outcome (thread * gmap nat nat) :=
  let d := data t in
  let failed := set_success false d in
  match at_ t with
  | Sleep_obtain =>
      let d := set_success true d in
      _ ← int_mul (wait_to_obtain_ms d) 1000;
      if bool_decide (ret ≠ 0) then Done (Thread Finished (set_success false d), held)
      else Done (Thread Lock d, held)
  | Lock =>
      if bool_decide (ret ≠ 0) then Done (Thread Finished failed, held)
      else
        _ ← int_mul (wait_to_release_ms d) 1000;
        Done (Thread Sleep_release d, <[mutex d := i]> held)
  | Sleep_release =>
      Done (Thread Unlock (if bool_decide (ret ≠ 0) then failed else d), held)
  | Unlock =>
      if bool_decide (ret ≠ 0) then Done (Thread Finished failed, held)
      else Done (Thread Finished d, delete (mutex d) held)
  | Finished => Undef
  end.

(** What POSIX promises of the mutex calls: locking succeeds only on a free
    mutex (until then the thread waits), unlocking one's own mutex succeeds. *)
Definition call_ok (i : nat) (t : thread) (held : gmap nat nat) (ret : Z) : Prop :=
  match at_ t with
  | Lock => ret = 0 → held !! mutex (data t) = None
  | Unlock => held !! mutex (data t) = Some i → ret = 0
  | Finished => False
  | _ => True
  end.

(** ** Starting a thread *)

(** The heap blocks of the program that hold a [thread_data], by address. *)
Record program := Program {
  blocks : gmap Z thread_data;
  threads : list (Z * thread);
}.

(** [malloc_ret]: the address of a new block, [None] for NULL; [garbage]: the
    value of the field that is not set; [create_ret]: [pthread_create]. *)
Definition start_thread_obtaining_mutex (malloc_ret : option Z) (garbage : bool) (create_ret : Z)
    (mtx : nat) (obtain_ms release_ms : Z) (p : program) : bool * program :=
  match malloc_ret with
  | None => (false, p)
  | Some a =>
      let d := ThreadData mtx obtain_ms release_ms garbage in
      let p1 := Program (<[a := d]> (blocks p)) (threads p) in
      if bool_decide (0 ≠ create_ret) then (false, p1)
      else (true, Program (blocks p1) (threads p1 ++ [(a, Thread Sleep_obtain d)]))
  end.

(** ** Interleaving *)
Record state := State {
  held : gmap nat nat;
  running : list thread;
}.

Inductive step (s : state) (i : nat) (ret : Z) : state → Prop :=
| step_thread t t' held' :
    running s !! i = Some t → call_ok i t (held s) ret →
    threadfunc_step i t (held s) ret = Done (t', held') →
    step s i ret (State held' (<[i := t']> (running s))).

(** A run with the thread and the result of each call. *)
Inductive run_from (s0 : state) : list (nat * Z) → state → Prop :=
| run_nil : run_from s0 [] s0
| run_snoc calls s i ret s' :
    run_from s0 calls s → step s i ret s' → run_from s0 (calls ++ [(i, ret)]) s'.

(** The waits fit an [int] in microseconds. *)
Definition waits_ok (d : thread_data) : Prop :=
  - 2 ^ 31 ≤ wait_to_obtain_ms d * 1000 < 2 ^ 31 ∧
  - 2 ^ 31 ≤ wait_to_release_ms d * 1000 < 2 ^ 31.

Definition fresh (ds : list thread_data) : state :=
  State ∅ (Thread Sleep_obtain <$> ds).

Definition critical (t : thread) : bool :=
  bool_decide (at_ t = Sleep_release) || bool_decide (at_ t = Unlock).

(** Calls left before the thread ends. *)
Definition rank (p : point) : nat :=
  match p with
  | Sleep_obtain => 4 | Lock => 3 | Sleep_release => 2 | Unlock => 1 | Finished => 0
  end.

Definition ranks (ts : list thread) : nat := sum_list ((λ t, rank (at_ t)) <$> ts).

(** ** One step *)

(** With waits in range a step is defined, keeps the thread's mutex and waits,
    and brings the thread nearer to its end. *)
Lemma threadfunc_step_defined i t held ret :
  waits_ok (data t) → at_ t ≠ Finished →
  ∃ t' held', threadfunc_step i t held ret = Done (t', held').
Proof.
  destruct t as [p d]. intros [H1 H2] Hne. unfold threadfunc_step, int_mul, set_success.
  destruct p; simpl in *; try done; rewrite ?(bool_decide_true (_ ≤ _ < _)) by done;
    repeat case_bool_decide; by eexists _, _.
Qed.

Lemma threadfunc_step_shape i t held ret t' held' :
  threadfunc_step i t held ret = Done (t', held') →
  mutex (data t') = mutex (data t) ∧
  (waits_ok (data t) → waits_ok (data t')) ∧
  (rank (at_ t') < rank (at_ t))%nat ∧
  thread_complete_success (data t')
  = ((bool_decide (at_ t = Sleep_obtain) || thread_complete_success (data t)) &&
     bool_decide (ret = 0)) ∧
  at_ t' ≠ Sleep_obtain.
Proof.
  unfold threadfunc_step, int_mul, set_success, waits_ok. intros Hs.
  destruct t as [p [m o r b]]; simpl in *.
  destruct p; simpl in *; repeat case_bool_decide; simplify_eq/=;
    rewrite ?andb_true_r, ?andb_false_r; split_and!; (done || lia || auto).
Qed.

(** What a step does to the locks. *)
Lemma threadfunc_step_held i t held ret t' held' :
  threadfunc_step i t held ret = Done (t', held') → call_ok i t held ret →
  (critical t = true → held !! mutex (data t) = Some i) →
  held' = (if critical t' then <[mutex (data t) := i]> held
           else if critical t then delete (mutex (data t)) held else held) ∧
  (critical t = false → critical t' = true → held !! mutex (data t) = None).
Proof.
  unfold threadfunc_step, int_mul, set_success, critical, call_ok. intros Hs Hok Hown.
  destruct t as [p [m o r b]]; simpl in *.
  destruct p; simpl in *; repeat case_bool_decide; simplify_eq/=; split; try done.
  - intros _ _. by apply Hok.
  - rewrite insert_id; [done|]. by apply Hown.
  - rewrite insert_id; [done|]. by apply Hown.
  - by destruct (Hok (Hown eq_refl)).
Qed.

(** ** The invariant of a run *)
Record inv (s : state) : Prop := Inv {
  inv_held m i :
    held s !! m = Some i ↔
    ∃ t, running s !! i = Some t ∧ mutex (data t) = m ∧ critical t = true;
  inv_waits : Forall (λ t, waits_ok (data t)) (running s);
}.

Lemma fresh_inv ds : Forall waits_ok ds → inv (fresh ds).
Proof.
  intros Hds. split.
  - intros m i. simpl. rewrite lookup_empty, list_lookup_fmap. split; [done|].
    intros (t & (d & _ & ->)%fmap_Some & _ & Hc). done.
  - simpl. by apply Forall_fmap.
Qed.

Lemma step_inv s i ret s' : inv s → step s i ret s' → inv s'.
Proof.
  intros [Hheld Hwaits] [t t' held' Ht Hok Hs].
  destruct (threadfunc_step_shape _ _ _ _ _ _ Hs) as (Hm & Hw & _ & _ & _).
  assert (Hcrit : critical t = true → held s !! mutex (data t) = Some i)
    by (intros Hc; apply Hheld; by exists t).
  assert (Hmine : ∀ m, held s !! m = Some i → mutex (data t) = m ∧ critical t = true).
  { intros m (t0 & Ht0 & Hmt & Hc)%Hheld. by simplify_eq. }
  destruct (threadfunc_step_held _ _ _ _ _ _ Hs Hok Hcrit) as [-> Hfree].
  split; simpl.
  2:{ apply Forall_insert; [done|]. apply Hw. by eapply Forall_lookup in Hwaits. }
  intros m j. destruct (decide (i = j)) as [<-|Hij].
  - rewrite list_lookup_insert_eq by (by eapply lookup_lt_Some).
    transitivity (mutex (data t) = m ∧ critical t' = true).
    2:{ split; [intros []; exists t'; by rewrite Hm|intros (t0 & [= <-] & ? & ?); by rewrite <- Hm]. }
    destruct (critical t') eqn:E1; [|destruct (critical t) eqn:E2];
      rewrite ?lookup_insert, ?lookup_delete; repeat case_decide; naive_solver.
  - rewrite list_lookup_insert_ne, <- Hheld by done.
    destruct (critical t') eqn:E1; [|destruct (critical t) eqn:E2];
      rewrite ?lookup_insert, ?lookup_delete; repeat case_decide; subst;
      destruct (critical t); naive_solver.
Qed.

(** ** The results of the calls of one thread *)
Definition all_ok (i : nat) (calls : list (nat * Z)) : bool :=
  forallb (λ c, negb (c.1 =? i)%nat || (c.2 =? 0)) calls.

Record history (ds : list thread_data) (calls : list (nat * Z)) (s : state) : Prop := History {
  history_inv : inv s;
  history_length : length (running s) = length ds;
  history_rank : (length calls + ranks (running s) ≤ 4 * length ds)%nat;
  history_success i t :
    running s !! i = Some t →
    if decide (at_ t = Sleep_obtain) then ∀ r, (i, r) ∉ calls
    else thread_complete_success (data t) = all_ok i calls;
}.

Lemma all_ok_own i calls ret : all_ok i (calls ++ [(i, ret)]) = all_ok i calls && bool_decide (ret = 0).
Proof.
  unfold all_ok. rewrite forallb_app. simpl. rewrite Nat.eqb_refl, andb_true_r. simpl.
  f_equal. by destruct (Z.eqb_spec ret 0); case_bool_decide.
Qed.

Lemma all_ok_other i j calls ret : i ≠ j → all_ok j (calls ++ [(i, ret)]) = all_ok j calls.
Proof.
  intros Hij. unfold all_ok. rewrite forallb_app. simpl.
  rewrite (proj2 (Nat.eqb_neq i j)) by done. by rewrite !andb_true_r.
Qed.

Lemma all_ok_unseen i calls : (∀ r, (i, r) ∉ calls) → all_ok i calls = true.
Proof.
  intros Hn. apply forallb_forall. intros [j r] Hin. simpl.
  destruct (j =? i)%nat eqn:E; [|done]. apply Nat.eqb_eq in E as ->.
  by apply list_elem_of_In, Hn in Hin.
Qed.

Lemma ranks_insert ts i t t' :
  ts !! i = Some t → (ranks (<[i := t']> ts) + rank (at_ t) = ranks ts + rank (at_ t'))%nat.
Proof.
  unfold ranks. revert i. induction ts as [|t0 ts IH]; intros [|i] Ht; simplify_eq/=; [lia|].
  specialize (IH _ Ht). lia.
Qed.

Lemma history_run ds calls s :
  Forall waits_ok ds → run_from (fresh ds) calls s → history ds calls s.
Proof.
  intros Hds. induction 1 as [|calls s i ret s' Hrun [Hinv Hlen Hrank Hsucc] Hstep].
  - split; [by apply fresh_inv|by simpl; rewrite length_fmap| |].
    + simpl. clear Hds. unfold ranks. induction ds as [|d ds IH]; [done|].
      cbn [fmap list_fmap sum_list length rank at_ id] in *. lia.
    + intros i t (d & -> & Hd)%list_lookup_fmap_Some. simpl. intros r. apply not_elem_of_nil.
  - pose proof (step_inv _ _ _ _ Hinv Hstep) as Hinv'. destruct Hstep as [t t' held' Ht Hok Hs].
    destruct (threadfunc_step_shape _ _ _ _ _ _ Hs) as (Hm & _ & Hr & Hb & Hat).
    split; [done|by simpl; rewrite length_insert| |]; simpl.
    + pose proof (ranks_insert _ _ _ t' Ht). rewrite length_app. simpl. lia.
    + intros j u Hu. destruct (decide (i = j)) as [<-|Hij].
      * rewrite list_lookup_insert_eq in Hu by (by eapply lookup_lt_Some). injection Hu as <-.
        rewrite decide_False by done. rewrite Hb, all_ok_own. f_equal.
        specialize (Hsucc _ _ Ht). case_decide as Hd.
        -- by rewrite bool_decide_true, all_ok_unseen.
        -- by rewrite bool_decide_false.
      * rewrite list_lookup_insert_ne in Hu by done. specialize (Hsucc _ _ Hu). case_decide.
        -- intros r [Hin|Hin%list_elem_of_singleton]%elem_of_app; [by apply (Hsucc r)|congruence].
        -- by rewrite all_ok_other.
Qed.

(** A thread that need not wait can make its next call. *)
Lemma can_step s i t :
  inv s → running s !! i = Some t → at_ t ≠ Finished →
  (at_ t = Lock → held s !! mutex (data t) = None) → ∃ s', step s i 0 s'.
Proof.
  intros [_ Hwaits] Ht Hfin Hlock. eapply Forall_lookup in Hwaits as Hw; [|done].
  destruct (threadfunc_step_defined i t (held s) 0 Hw Hfin) as (t' & held' & Hs).
  eexists. eapply step_thread; [done| |exact Hs]. unfold call_ok. destruct (at_ t); auto.
Qed.

(** ** Properties *)

(** C34: however the threads interleave and whatever their calls return, at most
    one thread at a time is between locking and unlocking a given mutex. *)
Theorem mutual_exclusion ds calls s i j t u :
  Forall waits_ok ds → run_from (fresh ds) calls s →
  running s !! i = Some t → running s !! j = Some u → mutex (data t) = mutex (data u) →
  critical t = true → critical u = true → i = j.
Proof.
  intros Hds Hrun Ht Hu Hm Hct Hcu.
  destruct (history_inv _ _ _ (history_run _ _ _ Hds Hrun)) as [Hheld _].
  assert (held s !! mutex (data t) = Some i) as H1 by (apply Hheld; by exists t).
  assert (held s !! mutex (data t) = Some j) as H2 by (apply Hheld; by exists u).
  congruence.
Qed.

(** C35: the threads never deadlock and always end: a run has at most four calls
    per thread; as long as a thread has not finished, some thread can make its
    next call successfully; when all have finished no mutex is locked. *)
Theorem threads_finish ds calls s :
  Forall waits_ok ds → run_from (fresh ds) calls s →
  (length calls ≤ 4 * length ds)%nat ∧
  (Exists (λ t, at_ t ≠ Finished) (running s) → ∃ i s', step s i 0 s') ∧
  (Forall (λ t, at_ t = Finished) (running s) → held s = ∅).
Proof.
  intros Hds Hrun. destruct (history_run _ _ _ Hds Hrun) as [[Hheld Hwaits] _ Hrank _].
  split; [lia|]. split.
  - intros (t & [i Ht]%list_elem_of_lookup & Hfin)%Exists_exists.
    destruct (decide (at_ t = Lock)) as [Hl|Hl];
      [|exists i; by eapply (can_step s i t)].
    destruct (held s !! mutex (data t)) as [j|] eqn:Hj;
      [|exists i; by eapply (can_step s i t)].
    destruct (proj1 (Hheld _ _) Hj) as (u & Hu & _ & Hc). exists j.
    unfold critical in Hc. eapply (can_step s j u); [done|done|..];
      intros He; by rewrite He in Hc.
  - intros Hall. apply map_empty. intros m. apply eq_None_not_Some. intros [i Hi].
    apply Hheld in Hi as (t & Ht & _ & Hc). eapply Forall_lookup in Hall; [|done].
    unfold critical in Hc. by rewrite Hall in Hc.
Qed.

(** A thread that has finished reports success exactly if every call it made
    returned 0, and it holds no mutex, a failed sleep in the critical section
    included. *)
Lemma thread_reports ds calls s i t :
  Forall waits_ok ds → run_from (fresh ds) calls s →
  running s !! i = Some t → at_ t = Finished →
  (thread_complete_success (data t) = true ↔ ∀ r, (i, r) ∈ calls → r = 0) ∧
  ∀ m, held s !! m ≠ Some i.
Proof.
  intros Hds Hrun Ht Hfin. destruct (history_run _ _ _ Hds Hrun) as [[Hheld _] _ _ Hsucc].
  split.
  - specialize (Hsucc _ _ Ht). rewrite Hfin, decide_False in Hsucc by done. rewrite Hsucc.
    unfold all_ok. rewrite forallb_forall. split.
    + intros Hall r Hin%list_elem_of_In. apply Hall in Hin. simpl in Hin.
      rewrite Nat.eqb_refl in Hin. by apply Z.eqb_eq in Hin.
    + intros Hall [j r] Hin%list_elem_of_In. simpl. destruct (j =? i)%nat eqn:E; [|done].
      apply Nat.eqb_eq in E as ->. by apply Z.eqb_eq, Hall.
  - intros m (u & Hu & _ & Hc)%Hheld. simplify_eq. unfold critical in Hc. by rewrite Hfin in Hc.
Qed.

(** [start_thread_obtaining_mutex] answers true exactly when the memory is
    granted and the thread is created, and then exactly one thread more runs,
    with the mutex and waits given; it only adds to the heap.  When the thread
    cannot be created the block stays allocated. *)
Lemma start_thread_correct malloc_ret garbage create_ret mtx obtain_ms release_ms p :
  (∀ a, malloc_ret = Some a → blocks p !! a = None) →
  let '(ok, p') := start_thread_obtaining_mutex malloc_ret garbage create_ret mtx
                     obtain_ms release_ms p in
  (ok = true ↔ malloc_ret ≠ None ∧ create_ret = 0) ∧
  (ok = true → ∃ a t, malloc_ret = Some a ∧ threads p' = threads p ++ [(a, t)] ∧
     at_ t = Sleep_obtain ∧ blocks p' !! a = Some (data t) ∧
     mutex (data t) = mtx ∧ wait_to_obtain_ms (data t) = obtain_ms ∧
     wait_to_release_ms (data t) = release_ms) ∧
  (ok = false → threads p' = threads p) ∧ blocks p ⊆ blocks p' ∧
  dom (blocks p') = dom (blocks p) ∪ (if malloc_ret is Some a then {[a]} else ∅).
Proof.
  intros Hfresh. unfold start_thread_obtaining_mutex. destruct malloc_ret as [a|].
  2:{ split_and!; try naive_solver. set_solver. }
  specialize (Hfresh a eq_refl).
  assert (blocks p ⊆ <[a := ThreadData mtx obtain_ms release_ms garbage]> (blocks p))
    by by apply insert_subseteq.
  case_bool_decide; simpl; (split; [naive_solver|]); (split; [|split; [done|]; split; [done|]]).
  - done.
  - rewrite dom_insert_L. set_solver.
  - intros _. eexists a, _. split_and!; try done. by rewrite lookup_insert_eq.
  - rewrite dom_insert_L. set_solver.
Qed.

(** ** Two threads that compete for a mutex *)

#[export] Instance call_ok_dec i t held ret : Decision (call_ok i t held ret).
Proof. unfold call_ok. destruct (at_ t); apply _. Defined.

(** A run played call by call. *)
Fixpoint play (s : state) (calls : list (nat * Z)) : option state :=
  match calls with
  | [] => Some s
  | (i, ret) :: calls' =>
      t ← running s !! i;
      if decide (call_ok i t (held s) ret) then
        match threadfunc_step i t (held s) ret with
        | Done (t', held') => play (State held' (<[i := t']> (running s))) calls'
        | _ => None
        end
      else None
  end.

Lemma play_run s0 calls s rest s' :
  run_from s0 calls s → play s rest = Some s' → run_from s0 (calls ++ rest) s'.
Proof.
  revert calls s. induction rest as [|[i ret] rest IH]; intros calls s Hrun; simpl.
  { intros [= <-]. by rewrite app_nil_r. }
  destruct (running s !! i) as [t|] eqn:Ht; [|done]. simpl. case_decide as Hok; [|done].
  destruct (threadfunc_step i t (held s) ret) as [[t' held']| |] eqn:Hs; [|done..].
  intros Hplay. replace (calls ++ (i, ret) :: rest) with ((calls ++ [(i, ret)]) ++ rest)
    by by rewrite <- app_assoc.
  eapply IH; [|done]. eapply run_snoc; [done|]. by eapply step_thread.
Qed.

Definition two_threads : list thread_data := [ThreadData 7 10 20 true; ThreadData 7 0 5 false].

Lemma two_threads_ok : Forall waits_ok two_threads.
Proof. by repeat constructor. Qed.

(** The first thread holds the mutex, and its sleep is interrupted. *)
Definition some_calls : list (nat * Z) := [(0%nat, 0); (1%nat, 0); (0%nat, 0); (0%nat, -1)].
Definition some_state : state := default (fresh two_threads) (play (fresh two_threads) some_calls).
Definition all_calls : list (nat * Z) :=
  some_calls ++ [(0%nat, 0); (1%nat, 0); (1%nat, 0); (1%nat, 0)].
Definition last_state : state := default (fresh two_threads) (play (fresh two_threads) all_calls).

Lemma some_run : run_from (fresh two_threads) some_calls some_state.
Proof. apply (play_run _ [] (fresh two_threads)); [constructor|by vm_compute]. Qed.

Lemma last_run : run_from (fresh two_threads) all_calls last_state.
Proof. apply (play_run _ [] (fresh two_threads)); [constructor|by vm_compute]. Qed.

Lemma mutual_exclusion_witness :
  held some_state !! 7%nat = Some 0%nat ∧ (0 = 0)%nat.
Proof.
  split; [done|].
  apply (mutual_exclusion two_threads some_calls some_state 0 0
    (Thread Unlock (ThreadData 7 10 20 false)) (Thread Unlock (ThreadData 7 10 20 false)));
    [apply two_threads_ok|apply some_run|done..].
Defined.

Lemma threads_finish_witness :
  (length some_calls ≤ 4 * length two_threads)%nat ∧
  (Exists (λ t, at_ t ≠ Finished) (running some_state) → ∃ i s', step some_state i 0 s') ∧
  (Forall (λ t, at_ t = Finished) (running some_state) → held some_state = ∅).
Proof. apply threads_finish; [apply two_threads_ok|apply some_run]. Defined.

Lemma thread_reports_witness :
  (thread_complete_success (ThreadData 7 10 20 false) = true ↔
     ∀ r, (0%nat, r) ∈ all_calls → r = 0) ∧
  ∀ m, held last_state !! m ≠ Some 0%nat.
Proof.
  apply (thread_reports two_threads all_calls last_state 0
    (Thread Finished (ThreadData 7 10 20 false)));
    [apply two_threads_ok|apply last_run|done|done].
Defined.

Lemma start_thread_correct_witness :
  let p := Program ∅ [] in
  let '(ok, p') := start_thread_obtaining_mutex (Some 64) true 11 7 10 20 p in
  (ok = true ↔ Some 64 ≠ None ∧ 11 = 0) ∧
  (ok = true → ∃ a t, Some 64 = Some a ∧ threads p' = threads p ++ [(a, t)] ∧
     at_ t = Sleep_obtain ∧ blocks p' !! a = Some (data t) ∧
     mutex (data t) = 7%nat ∧ wait_to_obtain_ms (data t) = 10 ∧
     wait_to_release_ms (data t) = 20) ∧
  (ok = false → threads p' = threads p) ∧ blocks p ⊆ blocks p' ∧
  dom (blocks p') = dom (blocks p) ∪ {[64]}.
Proof. apply (start_thread_correct (Some 64) true 11 7 10 20 (Program ∅ [])). done. Defined.

(** A wait of more than 2147483 ms overflows the multiplication by 1000. *)
Lemma wait_overflow i t held ret :
  at_ t = Sleep_obtain → 2147483 < wait_to_obtain_ms (data t) →
  threadfunc_step i t held ret = Undef.
Proof.
  intros Ht Hw. unfold threadfunc_step, int_mul. rewrite Ht. simpl.
  by rewrite (bool_decide_false (_ ≤ _ < _)) by lia.
Qed.
