(* ===== verification/Writer.v ===== *)
(** * finder-app/writer.c: writing a string to a file

    [writer_main] uses the stream of [OutputFile] on a regular file that [fopen]
    has just truncated; [fclose] flushes and closes. *)

From S2P Require Import Prelude Stdio OutputFile RegularFile.

(** [fopen_ok] and [close_ok] answer whether the file can be opened and closed,
    [room] is the space left on the disk, [fs] the files' contents. *)
Definition writer_main (argv : list (list ascii)) (fopen_ok close_ok : bool) (room : nat)
    (fs : gmap (list ascii) (list ascii)) : outcome (Z * gmap (list ascii) (list ascii)) :=
  match argv with
  | [_; filename; str] =>
      if fopen_ok then
        '(_, fp) ← fwrite (cstring str) (opened (Regular [] 0 room));
        '(r, fp) ← fflush fp;
        let fs' := <[filename := file_bytes (fd fp)]> fs in
        Done (if bool_decide (r ≠ 0) || negb close_ok then 1 else 0, fs')
      else Done (1, fs)
  | _ => Done (1, fs)
  end.

(** One [write] at the end of a file. *)
Lemma regular_write_end l c dk :
  l ≠ [] →
  d_write l (Regular c (length c) dk)
  = if bool_decide (dk = 0%nat) then Done (-1, Regular c (length c) dk)
    else Done (Z.of_nat (Nat.min (length l) dk),
           Regular (c ++ take dk l) (length c + Nat.min (length l) dk) (dk - length l)).
Proof.
  intros Hl. assert (0 < length l)%nat by (destruct l; simpl; [done|lia]).
  simpl. unfold regular_write. simpl. rewrite Nat.sub_diag, Nat.add_0_l. simpl.
  destruct (decide (dk = 0%nat)) as [->|Hd].
  - rewrite !bool_decide_true by (done || (split; [lia|done])). done.
  - rewrite !bool_decide_false by (done || lia). rewrite firstn_all, drop_ge, app_nil_r by lia.
    do 3 f_equal; [|lia]. f_equal.
    destruct (decide (length l ≤ dk)%nat).
    + by rewrite !take_ge by lia.
    + by rewrite Nat.min_r by lia.
Qed.

Lemma regular_write_full l c :
  l ≠ [] → d_write l (Regular c (length c) 0) = Done (-1, Regular c (length c) 0).
Proof. apply (regular_write_end l c 0). Qed.

(** Writing all of [l] at the end of a file: as much as the disk has room for. *)
Lemma regular_write_all fuel l c dk :
  (2 ≤ fuel)%nat → l ≠ [] →
  write_all fuel l (Regular c (length c) dk)
  = Done (bool_decide (length l ≤ dk)%nat,
      Regular (c ++ take dk l) (length c + Nat.min (length l) dk) (dk - length l)).
Proof.
  intros Hf Hl. assert (0 < length l)%nat by (destruct l; simpl; [done|lia]).
  destruct fuel as [|[|fuel]]; [lia..|].
  destruct (decide (length l ≤ dk)%nat) as [Hle|Hgt].
  - rewrite (write_all_once _ _ _ (Regular (c ++ take dk l) (length c + Nat.min (length l) dk)
      (dk - length l)) Hl).
    + by rewrite bool_decide_true.
    + rewrite regular_write_end, bool_decide_false by (done || lia).
      unfold strlen. do 3 f_equal. lia.
  - rewrite (bool_decide_false (_ ≤ _)%nat) by lia.
    destruct (decide (dk = 0%nat)) as [->|Hd].
    + rewrite (write_all_step _ _ _ _ _ Hl (regular_write_full l c Hl)). simpl.
      by rewrite app_nil_r, Nat.min_0_r, Nat.add_0_r.
    + pose proof (regular_write_end l c dk Hl) as Hw. rewrite bool_decide_false in Hw by done.
      rewrite (write_all_step _ _ _ _ _ Hl Hw), bool_decide_false by lia.
      assert (Hdrop : drop (Z.to_nat (Z.of_nat (length l `min` dk))) l ≠ []).
      { intros He. apply (f_equal length) in He. rewrite length_drop in He. simpl in He. lia. }
      replace (length c + length l `min` dk)%nat with (length (c ++ take dk l)).
      2:{ rewrite length_app, length_take. lia. }
      replace (dk - length l)%nat with 0%nat by lia.
      by rewrite (write_all_step _ _ _ _ _ Hdrop (regular_write_full _ _ Hdrop)).
Qed.

(** Flushing a stream on a new file. *)
Lemma fflush_new l room e er rd :
  fflush (File (Regular [] 0 room) l [] e er rd)
  = Done (if bool_decide (length l ≤ room)%nat then 0 else -1,
      File (Regular (take room l) (Nat.min (length l) room) (room - length l)) [] [] e
        (er || bool_decide (room < length l)%nat) rd).
Proof.
  destruct l as [|x l].
  { rewrite fflush_empty by done.
    rewrite (bool_decide_true (length [] ≤ room)%nat), (bool_decide_false (room < length [])%nat)
      by (simpl; lia).
    simpl. by rewrite take_nil, Nat.sub_0_r, orb_false_r. }
  unfold fflush. run. cbn [wbuf].
  rewrite (M_bind_Done _ _ _ (bool_decide (length (x :: l) ≤ room)%nat)
    (File (Regular (take room (x :: l)) (Nat.min (length (x :: l)) room)
       (room - length (x :: l))) (x :: l) [] e er rd)).
  - run. cbn [fd rbuf eof err reading].
    destruct (decide (length (x :: l) ≤ room)%nat).
    + by rewrite (bool_decide_true (_ ≤ _)%nat), (bool_decide_false (_ < _)%nat) by lia.
    + by rewrite (bool_decide_false (_ ≤ _)%nat), (bool_decide_true (_ < _)%nat) by lia.
  - unfold on_fd. cbn [fd].
    pose proof (regular_write_all (S (length (x :: l))) (x :: l) [] room) as Hw.
    simpl app in Hw. rewrite Nat.add_0_l in Hw. change (length (@nil ascii)) with 0%nat in Hw.
    by rewrite Hw by (simpl; done || lia).
Qed.

(** ** Properties *)

(** C40: with a file and a string of at most the stream's buffer size, the file
    gets the string, as far as the disk has room, and the exit status is 0
    exactly if it could be opened, all of it was written, and it could be
    closed; a file that cannot be opened, or another number of arguments,
    gives the status 1 and changes nothing. *)
Theorem writer_correct argv fopen_ok close_ok room fs :
  (length argv ≠ 3%nat → writer_main argv fopen_ok close_ok room fs = Done (1, fs)) ∧
  ∀ name filename str, argv = [name; filename; str] → strlen (cstring str) ≤ BUFSIZ →
    writer_main argv fopen_ok close_ok room fs
    = Done (if fopen_ok && bool_decide (length (cstring str) ≤ room)%nat && close_ok then 0 else 1,
        if fopen_ok then <[filename := take room (cstring str)]> fs else fs).
Proof.
  split.
  - intros Hlen. by do 4 (destruct argv as [|? argv]; try done).
  - intros name filename str -> Hs. unfold writer_main. destruct fopen_ok; [|done].
    unfold fwrite. run. simpl. rewrite bool_decide_false by lia. run. simpl.
    rewrite fflush_new. simpl. do 3 f_equal.
    destruct close_ok, (decide (length (cstring str) ≤ room)%nat);
      by rewrite ?(bool_decide_true (_ ≤ _)%nat), ?(bool_decide_false (_ ≤ _)%nat) by done.
Qed.

Lemma writer_correct_witness :
  writer_main [text "writer"; text "f"; text "hello"] true true 3 ∅
  = Done (1, {[text "f" := text "hel"]}).
Proof.
  destruct (writer_correct [text "writer"; text "f"; text "hello"] true true 3 ∅) as [_ H].
  exact (H _ _ _ eq_refl ltac:(by vm_compute)).
Defined.

(** A longer string that does not fit on the disk is cut off and the exit
    status is 0 all the same, because the result of [fwrite] is ignored. *)
Lemma writer_long_unnoticed name filename str room fs :
  BUFSIZ < strlen (cstring str) → (room < length (cstring str))%nat →
  writer_main [name; filename; str] true true room fs
  = Done (0, <[filename := take room (cstring str)]> fs).
Proof.
  intros Hs Hroom. unfold writer_main.
  unfold fwrite. run. simpl. rewrite bool_decide_true by lia. run. simpl.
  rewrite M_bind_Done with (1 := fflush_new (cstring str) room false false false). simpl.
  done.
Qed.

Lemma writer_long_unnoticed_witness :
  let str := replicate 5000 "x"%char in
  writer_main [text "writer"; text "f"; str] true true 100 ∅
  = Done (0, {[text "f" := take 100 (cstring str)]}).
Proof.
  apply (writer_long_unnoticed (text "writer") (text "f") (replicate 5000 "x"%char) 100 ∅).
  - by apply (bool_decide_unpack (BUFSIZ < strlen (cstring (replicate 5000 "x"%char)))).
  - by apply (bool_decide_unpack (100 < length (cstring (replicate 5000 "x"%char)))%nat).
Defined.
