(* ===== verification/Validate.v ===== *)
(** * The autotest-validate example (examples/autotest-validate, student-test)

    The program that checks the test setup, and the unit test of the user name:
    what [malloc_username_from_conf_file] (a submodule) returns is a parameter. *)

From S2P Require Import Prelude.

Definition this_function_returns_true : bool := true.
Definition this_function_returns_false : bool := false.
Definition my_username : string := "EsGeh".

Definition answer_name (b : bool) : string := if b then "true" else "false".

(** The lines that [main] prints. *)
Definition validate_main : list string :=
  ["this_function_returns_true returned " +:+ answer_name this_function_returns_true;
   "this_function_returns_false returned " +:+ answer_name this_function_returns_false]%string.

(** The unit test passes if the assertion on the two strings holds. *)
Definition test_validate_my_username (username_from_config : string) : bool :=
  bool_decide (username_from_config = my_username).

Lemma validate_main_lines :
  validate_main
  = ["this_function_returns_true returned true"; "this_function_returns_false returned false"]%string.
Proof. reflexivity. Qed.

(** With the repository's conf/username.txt the test passes, and with no other. *)
Lemma test_validate_iff username_from_config :
  test_validate_my_username username_from_config = true ↔ username_from_config = "EsGeh"%string.
Proof. apply bool_decide_eq_true. Qed.
