(* ===== verification/Lifecycle.v ===== *)
(** * The server's threads and its life cycle (server/server_impl.c, server.c)

    Start, main loop and exit of the server with its cleanup, clock and client
    threads, signals and timer.  [server_step] is the next action of one thread,
    from one call that other threads can notice to the next ([None]: it has to
    wait; [Undef]: undefined behaviour).  Of the conversation with a client
    ([ServerProtocol]) only the use of the streams is here. *)

From S2P Require Import Prelude.

(** [pthread_t] with its "initialized" flag; [P]: where a running thread can be. *)
Inductive thread_state (P : Type) := Not_started | At (p : P) | Ended.
Arguments Not_started {P}.
Arguments At {P} p.
Arguments Ended {P}.

#[export] Instance thread_state_eq_dec `{EqDecision P} : EqDecision (thread_state P).
Proof. solve_decision. Defined.

(** The clock thread: at [sem_wait], at the mutex, and under it. *)
Inductive clock_point := Waiting | At_mutex | Writing | Flushing | Releasing (ok : bool).

#[export] Instance clock_point_eq_dec : EqDecision clock_point.
Proof. solve_decision. Defined.

(** Where a client thread is in [client_thread]. *)
Inductive client_point := Locking | Talking | Unlocking | Signaling | Gone.

#[export] Instance client_point_eq_dec : EqDecision client_point.
Proof. solve_decision. Defined.

(** A [thread_info_t]: which of the client's streams [fdopen] gave (NULL
    otherwise), and the flag for the cleanup thread. *)
Record thread_info_t := ThreadInfo {
  socket_input : bool;
  socket_output : bool;
  thread_finished : bool;
}.

(** A client thread: the address of its [thread_info_t] and where it is. *)
Record client := Client {
  info : nat;
  point : client_point;
}.

(** The streams that a conversation calls on. *)
Inductive stream_used := Its_input | Its_output | The_file.

#[export] Instance stream_used_eq_dec : EqDecision stream_used.
Proof. solve_decision. Defined.

(** The output file's mutex and who holds it. *)
Inductive holder := By_client (i : nat) | By_clock.

#[export] Instance holder_eq_dec : EqDecision holder.
Proof. solve_decision. Defined.

Inductive mutex := Free | Held (by_whom : holder) | Destroyed.

#[export] Instance mutex_eq_dec : EqDecision mutex.
Proof. solve_decision. Defined.

(** The calls of [server_init] and of [server_exit], in their order. *)
Inductive init_call :=
| Init_finished | Init_clock_sem | Open_file | Create_cleanup | Create_clock
| Open_socket | Bind | Listen | Create_timer | Set_timer.

Inductive exit_call :=
| Delete_timer | Wake_cleanup | Join_cleanup | Join_clock | Close_socket | Close_file
| Destroy_mutex | Destroy_finished | Destroy_clock_sem | Free_list | Unlink.

#[export] Instance init_call_eq_dec : EqDecision init_call.
Proof. solve_decision. Defined.

#[export] Instance exit_call_eq_dec : EqDecision exit_call.
Proof. solve_decision. Defined.

(** Where the main thread is; [ok]: no error so far. *)
Inductive main_point :=
| Starting (next : init_call)
| Looping
| Leaving (next : exit_call) (ok : bool)
| Returned (exit_status : Z).

#[export] Instance main_point_eq_dec : EqDecision main_point.
Proof. solve_decision. Defined.

(** [data_t], the globals, and what the threads have allocated.  A semaphore is
    its value, [None] for NULL and for freed memory; the timer is [Some None] when
    it is allocated but not created, [Some (Some armed)] afterwards; the output
    file is [None] for NULL, else whether it is open. *)
Record server := Server {
  should_stop : bool;
  thread_finished_signal : option Z;
  clock_sem : option Z;
  timer : option (option bool);
  socket_open : bool;
  output_file : option bool;
  output_file_mutex : mutex;
  thread_list : list nat;
  infos : gmap nat thread_info_t;
  clients : list client;
  cleanup_thread : thread_state unit;
  clock_thread : thread_state clock_point;
  main : main_point;
}.

(** Field updates. *)
Definition set_stop (b : bool) (s : server) : server :=
  Server b (thread_finished_signal s) (clock_sem s) (timer s) (socket_open s) (output_file s)
    (output_file_mutex s) (thread_list s) (infos s) (clients s) (cleanup_thread s)
    (clock_thread s) (main s).
Definition set_finished (v : option Z) (s : server) : server :=
  Server (should_stop s) v (clock_sem s) (timer s) (socket_open s) (output_file s)
    (output_file_mutex s) (thread_list s) (infos s) (clients s) (cleanup_thread s)
    (clock_thread s) (main s).
Definition set_clock_sem (v : option Z) (s : server) : server :=
  Server (should_stop s) (thread_finished_signal s) v (timer s) (socket_open s) (output_file s)
    (output_file_mutex s) (thread_list s) (infos s) (clients s) (cleanup_thread s)
    (clock_thread s) (main s).
Definition set_timer (t : option (option bool)) (s : server) : server :=
  Server (should_stop s) (thread_finished_signal s) (clock_sem s) t (socket_open s)
    (output_file s) (output_file_mutex s) (thread_list s) (infos s) (clients s) (cleanup_thread s)
    (clock_thread s) (main s).
Definition set_socket (b : bool) (s : server) : server :=
  Server (should_stop s) (thread_finished_signal s) (clock_sem s) (timer s) b (output_file s)
    (output_file_mutex s) (thread_list s) (infos s) (clients s) (cleanup_thread s)
    (clock_thread s) (main s).
Definition set_output (f : option bool) (s : server) : server :=
  Server (should_stop s) (thread_finished_signal s) (clock_sem s) (timer s) (socket_open s) f
    (output_file_mutex s) (thread_list s) (infos s) (clients s) (cleanup_thread s)
    (clock_thread s) (main s).
Definition set_mutex (m : mutex) (s : server) : server :=
  Server (should_stop s) (thread_finished_signal s) (clock_sem s) (timer s) (socket_open s)
    (output_file s) m (thread_list s) (infos s) (clients s) (cleanup_thread s) (clock_thread s)
    (main s).
Definition set_list (l : list nat) (s : server) : server :=
  Server (should_stop s) (thread_finished_signal s) (clock_sem s) (timer s) (socket_open s)
    (output_file s) (output_file_mutex s) l (infos s) (clients s) (cleanup_thread s)
    (clock_thread s) (main s).
Definition set_infos (i : gmap nat thread_info_t) (s : server) : server :=
  Server (should_stop s) (thread_finished_signal s) (clock_sem s) (timer s) (socket_open s)
    (output_file s) (output_file_mutex s) (thread_list s) i (clients s) (cleanup_thread s)
    (clock_thread s) (main s).
Definition set_clients (c : list client) (s : server) : server :=
  Server (should_stop s) (thread_finished_signal s) (clock_sem s) (timer s) (socket_open s)
    (output_file s) (output_file_mutex s) (thread_list s) (infos s) c (cleanup_thread s)
    (clock_thread s) (main s).
Definition set_cleanup (t : thread_state unit) (s : server) : server :=
  Server (should_stop s) (thread_finished_signal s) (clock_sem s) (timer s) (socket_open s)
    (output_file s) (output_file_mutex s) (thread_list s) (infos s) (clients s) t (clock_thread s)
    (main s).
Definition set_clock (t : thread_state clock_point) (s : server) : server :=
  Server (should_stop s) (thread_finished_signal s) (clock_sem s) (timer s) (socket_open s)
    (output_file s) (output_file_mutex s) (thread_list s) (infos s) (clients s) (cleanup_thread s)
    t (main s).
Definition set_main (p : main_point) (s : server) : server :=
  Server (should_stop s) (thread_finished_signal s) (clock_sem s) (timer s) (socket_open s)
    (output_file s) (output_file_mutex s) (thread_list s) (infos s) (clients s) (cleanup_thread s)
    (clock_thread s) p.

(** ** server_zero_data and server_init *)
Definition server_zero_data : server :=
  Server false None None None false None Free [] ∅ [] Not_started Not_started
    (Starting Init_finished).

(** One call of [server_init] that answers [ok]; an error leads to [server_exit].
    [dev]: USE_AESD_CHAR_DEVICE is defined.  [malloc] and [sem_init] are one call,
    and so are [signal], [malloc] and [timer_create] ([malloc_fails]: the [malloc]
    of such a call gives NULL). *)
Definition server_init (dev : bool) (c : init_call) (ok : bool) (s : server) : server :=
  if ok then
    match c with
    | Init_finished => set_main (Starting Init_clock_sem) (set_finished (Some 0) s)
    | Init_clock_sem =>
        set_main (Starting (if dev then Create_cleanup else Open_file)) (set_clock_sem (Some 0) s)
    | Open_file => set_main (Starting Create_cleanup) (set_output (Some true) s)
    | Create_cleanup => set_main (Starting Create_clock) (set_cleanup (At tt) s)
    | Create_clock => set_main (Starting Open_socket) (set_clock (At Waiting) s)
    | Open_socket => set_main (Starting Bind) (set_socket true s)
    | Bind => set_main (Starting Listen) s
    | Listen => set_main (Starting Create_timer) s
    | Create_timer => set_main (Starting Set_timer) (set_timer (Some (Some false)) s)
    | Set_timer => set_main Looping (set_timer (Some (Some true)) s)
    end
  else
    set_main (Leaving Delete_timer false)
      (if bool_decide (c = Create_timer) then set_timer (Some None) s else s).

(** ** Signals *)

(** [sem_post]; a semaphore that is NULL or destroyed is undefined. *)
Definition sem_post (v : option Z) : outcome (option Z) :=
  match v with Some n => Done (Some (n + 1)) | None => Undef end.

Definition server_stop (s : server) : outcome server :=
  let s := set_stop true s in
  v ← sem_post (clock_sem s); Done (set_clock_sem v s).

(** The handler of SIGINT and SIGTERM. *)
Definition int_handler (s : server) : outcome server := server_stop s.

Definition timer_callback (s : server) : outcome server :=
  match clock_sem s with
  | Some n => v ← sem_post (Some n); Done (set_clock_sem v s)
  | None => Done s
  end.

(** ** server_run: what [select] and the calls after it answer *)
Record answers := Answers {
  accept_ok : bool;
  fopen_ok : bool;
  fdopen_input_ok : bool;
  dup_ok : bool;
  (* on the descriptor that [dup] gave *)
  fdopen_output_ok : bool;
  create_ok : bool;
}.

Definition all_well : answers := Answers true true true true true true.

Inductive event :=
| Select_interrupted
| Select_error
| Connection (a : answers).

(** One round of the loop: [Some ok] returns.  The results of [fdopen] and [dup]
    are not tested: [fdopen] on -1 gives NULL, and the thread is started all the
    same.  The stream fields of a new [thread_info] are not set before; nobody
    reads them until then. *)
Definition server_run_body (dev : bool) (ev : event) (s : server) : option bool * server :=
  match ev with
  | Select_interrupted => if should_stop s then (Some true, s) else (None, s)
  | Select_error => (Some false, s)
  | Connection a =>
      let thread_info := fresh (dom (infos s)) in
      let s := set_infos (<[thread_info := ThreadInfo false false false]> (infos s)) s in
      if negb (accept_ok a) then (Some false, s)
      else if dev && bool_decide (output_file s = None) && negb (fopen_ok a) then (Some false, s)
      else
        let s := if dev && bool_decide (output_file s = None)
                 then set_output (Some true) s else s in
        let input := fdopen_input_ok a in
        let output := dup_ok a && fdopen_output_ok a in
        let s := set_infos (<[thread_info := ThreadInfo input output false]> (infos s)) s in
        if negb (create_ok a) then (Some false, s)
        else (None, set_clients (clients s ++ [Client thread_info Locking]) s)
  end.

(** ** client_thread *)
Definition client_move (i : nat) (p : client_point) (s : server) : server :=
  set_clients (alter (λ c, Client (info c) p) i (clients s)) s.

(** [pthread_mutex_lock]. *)
Definition mutex_lock (h : holder) (s : server) : option (outcome server) :=
  match output_file_mutex s with
  | Free => Some (Done (set_mutex (Held h) s))
  | Held _ => None
  | Destroyed => Some Undef
  end.

(** Whether a stream can be called on: the output file is open, the client's own
    stream is not NULL. *)
Definition usable (c : client) (st : stream_used) (s : server) : bool :=
  match st with
  | The_file => bool_decide (output_file s = Some true)
  | Its_input => default false (socket_input <$> infos s !! info c)
  | Its_output => default false (socket_output <$> infos s !! info c)
  end.

(** A step of the conversation may call on a stream, and it may be the last.
    Closing the client's own two streams ([fclose] of NULL is undefined),
    [thread_finished = true] and [sem_post] are one step: nothing of the first two
    can be noticed by others. *)
Definition client_thread (i : nat) (c : client) (uses : option stream_used) (last_step : bool)
    (s : server) : option (outcome server) :=
  match point c with
  | Locking => o ← mutex_lock (By_client i) s; Some (s ← o; Done (client_move i Talking s))
  | Talking =>
      (* server_protocol *)
      if from_option (λ st, negb (usable c st s)) false uses then Some Undef
      else Some (Done (if last_step then client_move i Unlocking s else s))
  | Unlocking => Some (Done (client_move i Signaling (set_mutex Free s)))
  | Signaling =>
      match infos s !! info c with
      | None => Some Undef
      | Some t =>
          if negb (socket_input t && socket_output t) then Some Undef
          else
            let s := set_infos (<[info c := ThreadInfo (socket_input t) (socket_output t) true]> (infos s)) s in
            Some (v ← sem_post (thread_finished_signal s);
                  Done (client_move i Gone (set_finished v s)))
      end
  | Gone => None
  end.

(** ** cleanup_thread: one round of the loop, once [sem_wait] has returned *)

(** The search keeps the last finished thread of the list. *)
Fixpoint find_finished (l : list nat) (infos : gmap nat thread_info_t) (acc : option nat)
    : option nat :=
  match l with
  | [] => acc
  | a :: l' =>
      find_finished l' infos
        (if bool_decide (thread_finished <$> infos !! a = Some true) then Some a else acc)
  end.

(** A thread whose flag is set has nothing left to do but return, so
    [pthread_join] answers at once. *)
Definition cleanup_thread_body (s : server) : server :=
  match find_finished (thread_list s) (infos s) None with
  | None => set_cleanup Ended s
  | Some a =>
      set_infos (delete a (infos s)) (set_list (filter (λ b, b ≠ a) (thread_list s)) s)
  end.

Definition cleanup_step (s : server) : option (outcome server) :=
  match cleanup_thread s, thread_finished_signal s with
  | At _, Some n =>
      if bool_decide (0 < n) then
        Some (Done (cleanup_thread_body (set_finished (Some (n - 1)) s)))
      else None
  | At _, None => Some Undef
  | _, _ => None
  end.

(** ** clock_thread; [localtime] and [fwrite] answer *)

(** A call on the output file. *)
Definition file_call (p : clock_point) (s : server) : outcome server :=
  if bool_decide (output_file s = Some true) then Done (set_clock (At p) s) else Undef.

Definition clock_step (dev localtime_ok fwrite_ok : bool) (s : server) : option (outcome server) :=
  match clock_thread s with
  | At Waiting =>
      match clock_sem s with
      | None => Some Undef
      | Some n =>
          if bool_decide (0 < n) then
            let s := set_clock_sem (Some (n - 1)) s in
            if should_stop s then Some (Done (set_clock Ended s))
            else if dev then Some (Done s)
            else if negb localtime_ok then Some (Done (set_clock Ended s))
            else Some (Done (set_clock (At At_mutex) s))
          else None
      end
  | At At_mutex => o ← mutex_lock By_clock s; Some (s ← o; Done (set_clock (At Writing) s))
  | At Writing => Some (file_call (if fwrite_ok then Flushing else Releasing false) s)
  | At Flushing => Some (file_call (Releasing true) s)
  | At (Releasing ok) =>
      Some (Done (set_clock (if ok then At Waiting else Ended) (set_mutex Free s)))
  | _ => None
  end.

(** A thread that a join has to wait for. *)
Definition alive {P} (t : thread_state P) : bool :=
  match t with At _ => true | _ => false end.

(** ** server_exit: one call, which answers [answer]; [ok]: no error so far *)
Definition server_exit (dev : bool) (c : exit_call) (answer ok : bool) (s : server)
    : option (outcome server) :=
  let next c' (ok : bool) s := Some (Done (set_main (Leaving c' ok) s)) in
  let return_ (ok : bool) s := Some (Done (set_main (Returned (if ok then 0 else 1)) s)) in
  match c with
  | Delete_timer =>
      match timer s with
      | None => next Wake_cleanup ok s
      | Some None => Some Undef
      | Some (Some _) => next Wake_cleanup (ok && answer) (set_timer None s)
      end
  | Wake_cleanup =>
      if bool_decide (cleanup_thread s = Not_started) then next Join_clock ok s
      else Some (v ← sem_post (thread_finished_signal s);
                 Done (set_main (Leaving Join_cleanup ok) (set_finished v s)))
  | Join_cleanup => if alive (cleanup_thread s) then None else next Join_clock ok s
  | Join_clock => if alive (clock_thread s) then None else next Close_socket ok s
  | Close_socket =>
      if socket_open s then next Close_file (ok && answer) (set_socket false s)
      else next Close_file ok s
  | Close_file =>
      match output_file s with
      | Some _ => next Destroy_mutex (ok && answer) (set_output (Some false) s)
      | None => next Destroy_mutex ok s
      end
  | Destroy_mutex =>
      (* destroying a mutex that is locked is undefined *)
      match output_file_mutex s with
      | Held _ => Some Undef
      | _ => next Destroy_finished (ok && answer) (set_mutex Destroyed s)
      end
  | Destroy_finished =>
      match thread_finished_signal s with
      | Some _ => next Destroy_clock_sem (ok && answer) (set_finished None s)
      | None => next Destroy_clock_sem ok s
      end
  | Destroy_clock_sem =>
      match clock_sem s with
      | Some _ => next Free_list (ok && answer) (set_clock_sem None s)
      | None => next Free_list ok s
      end
  | Free_list =>
      let s := set_list [] (set_infos (foldr delete (infos s) (thread_list s)) s) in
      if dev then return_ ok s else next Unlink ok s
  | Unlink => return_ (ok && answer) s
  end.

(** ** The main thread: its next call, which answers [answer] *)
Definition main_call (dev answer : bool) (s : server) : option (outcome server) :=
  match main s with
  | Starting c => Some (Done (server_init dev c answer s))
  | Leaving c ok => server_exit dev c answer ok s
  | _ => None
  end.

(** The [malloc] of its next call gives NULL: the code uses the block without a
    test, in [sem_init], in [timer_create] and for the [thread_info] of a client. *)
Definition malloc_fails (s : server) : option (outcome server) :=
  match main s with
  | Starting Init_finished | Starting Init_clock_sem | Starting Create_timer | Looping => Some Undef
  | _ => None
  end.

Definition main_run (dev : bool) (ev : event) (s : server) : server :=
  match server_run_body dev ev s with
  | (None, s) => s
  | (Some ok, s) => set_main (Leaving Delete_timer ok) s
  end.

(** ** The whole server *)
Inductive label :=
| Call (answer : bool)
| No_memory
| Run (ev : event)
| Signal
| Timer
| Cleanup
| Clock (localtime_ok fwrite_ok : bool)
| Client_step (i : nat) (uses : option stream_used) (last_step : bool).

Definition server_step (dev : bool) (l : label) (s : server) : option (outcome server) :=
  match main s with
  | Returned _ => None
  | _ =>
      match l with
      | Call answer => main_call dev answer s
      | No_memory => malloc_fails s
      | Run ev => if bool_decide (main s = Looping) then Some (Done (main_run dev ev s)) else None
      | Signal => Some (int_handler s)
      | Timer => if bool_decide (timer s = Some (Some true)) then Some (timer_callback s) else None
      | Cleanup => cleanup_step s
      | Clock localtime_ok fwrite_ok => clock_step dev localtime_ok fwrite_ok s
      | Client_step i uses last_step =>
          c ← clients s !! i; client_thread i c uses last_step s
      end
  end.

(** A run of the server: the steps taken, in order. *)
Inductive steps (dev : bool) (s0 : server) : list label → server → Prop :=
| steps_nil : steps dev s0 [] s0
| steps_snoc ls s l s' :
    steps dev s0 ls s → server_step dev l s = Some (Done s') → steps dev s0 (ls ++ [l]) s'.
