(* ===== verification/LifecycleInvariant.v ===== *)
(** * The invariant of the server's life cycle

    What holds in every state that a run of [Lifecycle.server_step] reaches, and
    that every step keeps it. *)

From S2P Require Import Prelude Lifecycle.

(** ** How far the main thread is *)
Definition init_rank (c : init_call) : nat :=
  match c with
  | Init_finished => 0 | Init_clock_sem => 1 | Open_file => 2 | Create_cleanup => 3
  | Create_clock => 4 | Open_socket => 5 | Bind => 6 | Listen => 7 | Create_timer => 8
  | Set_timer => 9
  end.

Definition exit_rank (c : exit_call) : nat :=
  match c with
  | Delete_timer => 0 | Wake_cleanup => 1 | Join_cleanup => 2 | Join_clock => 3
  | Close_socket => 4 | Close_file => 5 | Destroy_mutex => 6 | Destroy_finished => 7
  | Destroy_clock_sem => 8 | Free_list => 9 | Unlink => 10
  end.

(** The call [c] of [server_init] has succeeded, and no error has followed. *)
Definition started (c : init_call) (m : main_point) : bool :=
  match m with
  | Starting c' => (init_rank c <? init_rank c')%nat
  | Looping => true
  | _ => false
  end.

(** The call [c] of [server_exit] is over. *)
Definition past (c : exit_call) (m : main_point) : bool :=
  match m with
  | Leaving c' _ => (exit_rank c <? exit_rank c')%nat
  | Returned _ => true
  | _ => false
  end.

Definition in_file (c : client) : bool :=
  bool_decide (point c = Talking) || bool_decide (point c = Unlocking).

Definition clock_in_file (t : thread_state clock_point) : bool :=
  match t with At Writing | At Flushing | At (Releasing _) => true | _ => false end.

(** ** The invariant *)

(** The clients: nothing is ever in the list of threads, every client has a
    [thread_info] of its own, and the mutex is held by the thread that is in the
    file. *)
Record clients_inv (s : server) : Prop := ClientsInv {
  inv_list : thread_list s = [];
  inv_nodup : NoDup (info <$> clients s);
  inv_infos c : c ∈ clients s → is_Some (infos s !! info c);
  inv_owner i :
    output_file_mutex s = Held (By_client i) ↔
    ∃ c, clients s !! i = Some c ∧ in_file c = true;
}.

(** What the threads can rely on. *)
Record live_inv (dev : bool) (s : server) : Prop := LiveInv {
  live_clients c : main s = Starting c → clients s = [];
  live_init_finished : started Init_finished (main s) = true → thread_finished_signal s ≠ None;
  live_init_clock : started Init_clock_sem (main s) = true → clock_sem s ≠ None;
  live_init_file : dev = false → started Open_file (main s) = true → output_file s = Some true;
  live_finished :
    thread_finished_signal s = None →
    past Destroy_finished (main s) = true ∨ cleanup_thread s = Not_started ∧ clients s = [];
  live_finished_pos n : thread_finished_signal s = Some n → 0 ≤ n;
  live_clock : alive (clock_thread s) = true → clock_sem s ≠ None;
  live_clock_pos n : clock_sem s = Some n → 0 ≤ n;
  live_closed : output_file s = Some false → past Close_file (main s) = true;
  live_file : clients s ≠ [] → output_file s ≠ None;
  live_clock_file : dev = false → alive (clock_thread s) = true → output_file s = Some true;
  live_clock_dev : dev = true → alive (clock_thread s) = true → clock_thread s = At Waiting;
  live_cleanup_joined : past Join_cleanup (main s) = true → alive (cleanup_thread s) = false;
  live_clock_joined : past Join_clock (main s) = true → alive (clock_thread s) = false;
  live_mutex : output_file_mutex s = Destroyed ↔ past Destroy_mutex (main s) = true;
  live_past_socket : past Close_socket (main s) = true → socket_open s = false;
  live_past_clock_sem : past Destroy_clock_sem (main s) = true → clock_sem s = None;
  live_past_file : past Close_file (main s) = true → output_file s ≠ Some true;
  live_past_finished : past Destroy_finished (main s) = true → thread_finished_signal s = None;
  live_clock_owner :
    output_file_mutex s = Held By_clock ↔ clock_in_file (clock_thread s) = true;
  live_woken ok :
    main s = Leaving Join_cleanup ok → alive (cleanup_thread s) = true →
    ∃ n, thread_finished_signal s = Some n ∧ 0 < n;
  live_stop n :
    should_stop s = true → clock_thread s ≠ Ended → clock_sem s = Some n → 0 < n;
  live_no_sem c :
    main s = Starting c → (init_rank c <=? 1)%nat = true → clock_sem s = None ∧ should_stop s = false;
  live_no_clock c :
    main s = Starting c → (init_rank c <=? 4)%nat = true → clock_thread s = Not_started;
  live_timer : timer s = Some None → main s = Leaving Delete_timer false;
}.

Record server_inv (dev : bool) (s : server) : Prop := ServerInv {
  inv_clients : clients_inv s;
  inv_live : live_inv dev s;
}.

Lemma start_inv dev : server_inv dev server_zero_data.
Proof.
  split; split; simpl; try done; [constructor|by intros c ?%elem_of_nil| |by right].
  intros i. split; [done|]. by intros (c & ? & _).
Qed.

(** A step that leaves the clients alone keeps their part. *)
Lemma same_clients s s' :
  clients_inv s → thread_list s' = thread_list s → clients s' = clients s →
  infos s' = infos s →
  (∀ i, output_file_mutex s' = Held (By_client i) ↔ output_file_mutex s = Held (By_client i)) →
  clients_inv s'.
Proof. intros [] El Ec Ei Em. split; rewrite ?El, ?Ec, ?Ei; [done..|]. intros i. by rewrite Em. Qed.

(** [forward] uses what the hypotheses of the context give. *)
Ltac forward :=
  cbv [Nat.ltb Nat.leb init_rank exit_rank] in *;
  repeat match goal with
    | H : ?P → _, H' : ?P |- _ => lazymatch type of P with Prop => specialize (H H') end
    | H : true = true → _ |- _ => specialize (H eq_refl)
    | H : ∀ c, Starting ?d = Starting c → @?P c |- _ =>
        specialize (H d eq_refl); cbv [Nat.leb init_rank] in H
    | H : ∀ c, main ?s = Starting c → @?P c, H' : main ?s = Starting ?d |- _ =>
        specialize (H d H')
    | H : _ ∧ _ |- _ => destruct H
    | H : clock_thread ?s = _, H' : context [clock_thread ?s] |- _ =>
        lazymatch H' with H => fail | _ => rewrite H in H'; simpl in H' end
    | H : ∀ n, ?x = Some n → 0 ≤ n, H' : ?x = Some ?z |- _ => specialize (H z H')
    | H : cleanup_thread ?s = _ |- context [cleanup_thread ?s] => rewrite H
    end; simplify_eq/=.

(** [live_clauses] proves the clauses of [live_inv] of a successor state from
    those of the state before it. *)
Ltac live_clauses :=
  split; simpl in *; repeat match goal with Hm : main ?s = _ |- context [main ?s] => rewrite Hm end;
  intros; simplify_eq/=;
  first [done|lia|congruence|solve [eauto 3]|solve [eexists; split; [done|lia]]
        |forward; first [done|congruence|lia|split; congruence|solve [eauto 3]|solve [eexists; split; [done|lia]]
          |match goal with
           | H : ∀ n, _ → _ → clock_sem _ = Some n → 0 < n |- _ => apply H; congruence
           | H : _ ↔ ?b = true |- _ ↔ ?b = true => rewrite <- H; split; congruence
           end]].

(** A step of one thread that does not touch the clients; [Hm]: where the main
    thread is. *)
Ltac quiet_step Hinv :=
  let Hc := fresh in let Hl := fresh in
  destruct Hinv as [Hc Hl]; split;
  [apply (same_clients _ _ Hc); [simpl; congruence|done..|]; intros i; simpl; first [done|split; congruence]|];
  destruct Hl; repeat match goal with Hm : main _ = _ |- _ => rewrite Hm in * end; live_clauses.

Section Steps.
Context (dev : bool) (s : server).
Hypothesis Hinv : server_inv dev s.

Lemma init_inv c ok : main s = Starting c → server_inv dev (server_init dev c ok s).
Proof using Hinv.
  intros Hm. destruct ok; [destruct c|].
  all: unfold server_init; try case_bool_decide; try destruct dev; subst.
  all: quiet_step Hinv.
Qed.

Lemma signal_inv s' : server_stop s = Done s' → server_inv dev s'.
Proof using Hinv.
  unfold server_stop. simpl. destruct (clock_sem s) as [n|] eqn:Hn; simpl; [|done]. intros [= <-].
  quiet_step Hinv.
Qed.

Lemma timer_inv s' : timer_callback s = Done s' → server_inv dev s'.
Proof using Hinv.
  unfold timer_callback. destruct (clock_sem s) as [n|] eqn:Hn; simpl; intros [= <-]; [|done].
  quiet_step Hinv.
Qed.

Lemma cleanup_inv s' : cleanup_step s = Some (Done s') → server_inv dev s'.
Proof using Hinv.
  unfold cleanup_step. destruct (cleanup_thread s) eqn:Hc; try done.
  destruct (thread_finished_signal s) as [n|] eqn:Hn; [|done]. case_bool_decide; [|done].
  intros [= <-]. unfold cleanup_thread_body. simpl.
  rewrite (inv_list _ (inv_clients _ _ Hinv)). simpl. quiet_step Hinv.
Qed.

Lemma clock_inv lt fw s' : clock_step dev lt fw s = Some (Done s') → server_inv dev s'.
Proof using Hinv.
  unfold clock_step, mutex_lock, file_call.
  pose proof (proj2 (live_clock_owner _ _ (inv_live _ _ Hinv))) as Ho.
  destruct (clock_thread s) as [|[| | | |ok]|] eqn:Hc; try done; intros Hs;
    try specialize (Ho eq_refl); repeat case_match; simplify_eq/=; repeat case_bool_decide; simplify_eq/=.
  all: quiet_step Hinv.
Qed.
End Steps.

(** ** server_exit *)
Lemma not_alive_in_file t : alive t = false → clock_in_file t = false.
Proof. by destruct t. Qed.

Lemma exit_inv dev s c answer ok s' :
  server_inv dev s → main s = Leaving c ok → server_exit dev c answer ok s = Some (Done s') →
  server_inv dev s'.
Proof.
  intros Hinv Hm He. unfold server_exit, sem_post in He.
  pose proof (inv_list _ (inv_clients _ _ Hinv)) as Hl. rewrite Hl in He.
  pose proof (not_alive_in_file (clock_thread s)) as Hck.
  destruct c; repeat case_match; simplify_eq/=; try case_bool_decide; simplify_eq/=;
    repeat case_match; simplify_eq/=.
  all: quiet_step Hinv.
Qed.

(** ** server_run *)
Lemma leave_inv dev ok s :
  server_inv dev s → main s = Looping → server_inv dev (set_main (Leaving Delete_timer ok) s).
Proof. intros Hinv Hm. quiet_step Hinv. Qed.

(** Allocating a [thread_info] and giving it to a new client. *)
Lemma alloc_inv dev s a b :
  server_inv dev s → server_inv dev (set_infos (<[a := b]> (infos s)) s).
Proof.
  intros [[Hl Hnd Hi Ho] Hlive]. split; [split; simpl; try done|destruct Hlive; by split].
  intros c Hc. apply lookup_insert_is_Some'. right. by apply Hi.
Qed.

Lemma new_client_inv dev s a :
  server_inv dev s → main s = Looping → is_Some (infos s !! a) → a ∉ info <$> clients s →
  output_file s = Some true → server_inv dev (set_clients (clients s ++ [Client a Locking]) s).
Proof.
  intros [[Hl Hnd Hi Ho] Hlive] Hm Ha Hfresh Hout. split; [split; simpl|].
  - done.
  - rewrite fmap_app. apply NoDup_app. split; [done|]. split; [|apply NoDup_singleton].
    intros x Hx ->%list_elem_of_singleton. done.
  - intros c [Hc| ->%list_elem_of_singleton]%elem_of_app; [by apply Hi|done].
  - intros i. rewrite Ho. split; intros (c & Hc & Hp).
    + exists c. split; [by apply lookup_app_l_Some|done].
    + exists c. apply lookup_app_Some in Hc as [Hc|[_ Hc]]; [done|].
      apply list_lookup_singleton_Some in Hc as [_ <-]. done.
  - destruct Hlive. rewrite Hm in *. live_clauses.
Qed.

(** The device is opened when the first client is accepted. *)
Lemma open_inv dev s :
  server_inv dev s → main s = Looping → server_inv dev (set_output (Some true) s).
Proof. intros Hinv Hm. quiet_step Hinv. Qed.

Lemma run_inv dev ev s :
  server_inv dev s → main s = Looping → server_inv dev (main_run dev ev s).
Proof.
  intros Hinv Hm. unfold main_run. destruct ev as [| |w]; simpl.
  - destruct (should_stop s); simpl; [by apply leave_inv|done].
  - by apply leave_inv.
  - set (a := fresh (dom (infos s))).
    set (s1 := set_infos (<[a := ThreadInfo false false false]> (infos s)) s).
    assert (Hinv1 : server_inv dev s1) by by apply alloc_inv.
    assert (Hnew : a ∉ info <$> clients s).
    { intros (c & Hac & Hc)%list_elem_of_fmap. apply (inv_infos _ (inv_clients _ _ Hinv)) in Hc.
      rewrite <- Hac in Hc. apply elem_of_dom in Hc. by apply is_fresh in Hc. }
    assert (Hgo : ∀ s2, server_inv dev s2 → main s2 = Looping → clients s2 = clients s →
      (create_ok w = true → output_file s2 = Some true) → ∀ t,
      let s3 := set_infos (<[a := t]> (infos s2)) s2 in
      server_inv dev (match (if negb (create_ok w) then (Some false, s3)
        else (None, set_clients (clients s3 ++ [Client a Locking]) s3)) with
        | (Some ok, s) => set_main (Leaving Delete_timer ok) s | (None, s) => s end)).
    { intros s2 Hinv2 Hm2 Hc2 Ho2 t s3. assert (Hinv3 : server_inv dev s3) by by apply alloc_inv.
      destruct (create_ok w); simpl; [|by apply leave_inv].
      apply (new_client_inv dev s3 a); simpl; try done; [by rewrite lookup_insert_eq|by rewrite Hc2|by apply Ho2]. }
    destruct (accept_ok w); simpl; [|by apply leave_inv].
    destruct (dev && bool_decide (output_file s = None)) eqn:Ho.
    + destruct (fopen_ok w); simpl; [|by apply leave_inv].
      apply (Hgo (set_output (Some true) s1)); try done. by apply open_inv.
    + simpl. apply (Hgo s1); try done. intros _. simpl.
      destruct (inv_live _ _ Hinv). rewrite Hm in *.
      destruct dev; simpl in Ho; [|by apply live_init_file0]. apply bool_decide_eq_false in Ho.
      destruct (output_file s) as [[]|]; [done| |done]. by specialize (live_closed0 eq_refl).
Qed.

(** ** Client threads *)

Lemma client_move_lookup i p s j :
  clients (client_move i p s) !! j
  = if decide (i = j) then (λ c, Client (info c) p) <$> clients s !! i else clients s !! j.
Proof.
  simpl. case_decide as Hij; [subst; by rewrite list_lookup_alter_eq|].
  by rewrite list_lookup_alter_ne.
Qed.

Lemma client_move_infos i p s : info <$> clients (client_move i p s) = info <$> clients s.
Proof.
  simpl. apply list_eq. intros j. rewrite !list_lookup_fmap.
  destruct (decide (i = j)) as [<-|Hij].
  - rewrite list_lookup_alter_eq. by destruct (clients s !! i).
  - by rewrite list_lookup_alter_ne.
Qed.

(** A client moves on; the mutex follows it in and out of the file. *)
Lemma move_clients_inv s i c p m :
  clients_inv s → clients s !! i = Some c →
  (m = if in_file (Client (info c) p) then Held (By_client i)
       else if in_file c then Free else output_file_mutex s) →
  (in_file c = false → in_file (Client (info c) p) = true → output_file_mutex s = Free) →
  clients_inv (client_move i p (set_mutex m s)).
Proof.
  intros [Hl Hnd Hi Ho] Hc Hm Hfree. split.
  - done.
  - rewrite client_move_infos. done.
  - intros c' Hc'. apply (list_elem_of_fmap_2 info) in Hc'. rewrite client_move_infos in Hc'.
    apply list_elem_of_fmap in Hc' as (c0 & -> & Hc0). by apply Hi.
  - intros j. rewrite client_move_lookup. change (clients (set_mutex m s)) with (clients s).
    change (output_file_mutex (client_move i p (set_mutex m s))) with m.
    assert (Hmine : output_file_mutex s = Held (By_client i) ↔ in_file c = true).
    { rewrite Ho. split; [intros (c0 & Hc0 & ?); by simplify_eq|intros ?; by exists c]. }
    destruct Hmine as [Hown Hheld]. case_decide as Hij.
    + subst j m. rewrite Hc. simpl. transitivity (in_file (Client (info c) p) = true).
      2:{ split; [by eexists|by intros (? & [= <-] & ?)]. }
      destruct (in_file (Client (info c) p)); [by split|]. destruct (in_file c); [by split|].
      split; [exact Hown|done].
    + rewrite <- Ho. subst m. destruct (in_file (Client (info c) p)), (in_file c);
        split; try congruence; try (rewrite Hheld by done; congruence);
        try (rewrite Hfree by done; congruence).
Qed.

Lemma move_live_inv dev s i p m :
  live_inv dev s → clients s ≠ [] →
  (m = output_file_mutex s ∨
   (m ≠ Destroyed ∧ m ≠ Held By_clock) ∧
   output_file_mutex s ≠ Destroyed ∧ output_file_mutex s ≠ Held By_clock) →
  live_inv dev (client_move i p (set_mutex m s)).
Proof.
  intros Hlive Hc Hm. pose proof (live_clock_owner _ _ Hlive) as Ho. destruct Hlive.
  split; simpl; try done; try tauto.
  - intros c Hst. by rewrite (live_clients0 c Hst) in Hc.
  - destruct Hm as [->|([? ?] & ? & ?)]; [done|]. rewrite <- live_mutex0. by split.
  - destruct Hm as [->|([? ?] & ? & ?)]; [done|]. rewrite <- Ho. by split.
Qed.

Lemma client_inv dev s i c uses last s' :
  server_inv dev s → clients s !! i = Some c →
  client_thread i c uses last s = Some (Done s') → server_inv dev s'.
Proof.
  intros [Hci Hlive] Hc. assert (Hne : clients s ≠ []) by (intros E; by rewrite E in Hc).
  assert (Howner : in_file c = true → output_file_mutex s = Held (By_client i)).
  { intros ?. apply Hci. by exists c. }
  unfold in_file in Howner. unfold client_thread, mutex_lock. destruct (point c) eqn:Hp.
  - destruct (output_file_mutex s) eqn:Hm; simpl; [|done..]. intros [= <-].
    split; [apply (move_clients_inv s i c); unfold in_file; by rewrite ?Hp|].
    apply move_live_inv; [done..|]. right. by rewrite Hm.
  - destruct (from_option _ _ _); [done|]. intros [= <-]. destruct last; [|done].
    specialize (Howner eq_refl).
    replace (client_move i Unlocking s)
      with (client_move i Unlocking (set_mutex (output_file_mutex s) s)) by by destruct s.
    split; [apply (move_clients_inv s i c); unfold in_file; by rewrite ?Hp|].
    apply move_live_inv; [done..|]. by left.
  - intros [= <-]. specialize (Howner eq_refl).
    split; [apply (move_clients_inv s i c); unfold in_file; by rewrite ?Hp|].
    apply move_live_inv; [done..|]. right. by rewrite Howner.
  - destruct (infos s !! info c) as [t|] eqn:Hb; [|done].
    destruct (negb _); [done|]. simpl.
    set (t' := ThreadInfo (socket_input t) (socket_output t) true).
    destruct (thread_finished_signal s) as [n|] eqn:Hn; simpl; [|done]. intros [= <-].
    set (s2 := set_finished (Some (n + 1)) (set_infos (<[info c := t']> (infos s)) s)).
    assert (server_inv dev s2) as [Hci2 Hlive2].
    { destruct (alloc_inv dev s (info c) t' (ServerInv _ _ Hci Hlive)) as [Hci1 Hlive1].
      split; [by apply (same_clients _ _ Hci1)|]. pose proof (live_finished_pos _ _ Hlive n Hn).
      destruct Hlive1. live_clauses. }
    replace (client_move i Gone s2)
      with (client_move i Gone (set_mutex (output_file_mutex s2) s2)) by done.
    split; [apply (move_clients_inv s2 i c); unfold in_file; by rewrite ?Hp|].
    apply move_live_inv; [done..|]. by left.
  - done.
Qed.

(** ** Every run keeps the invariant *)
Lemma server_step_inv dev l s s' :
  server_inv dev s → server_step dev l s = Some (Done s') → server_inv dev s'.
Proof.
  intros Hinv. unfold server_step, main_call, malloc_fails.
  destruct (main s) as [c0| |c0 ok|st] eqn:Hm; [..|done].
  all: destruct l as [answer| |ev| | | |lt fw|i uses last]; try done.
  all: try by destruct c0.
  all: try (intros [= Hs]; by eapply signal_inv).
  all: try (case_bool_decide; [|done]; intros [= Hs]; by eapply timer_inv).
  all: try (intros Hs; by eapply cleanup_inv).
  all: try (intros Hs; by eapply clock_inv).
  all: try (destruct (clients s !! i) eqn:Hc; [|done]; simpl; intros Hs; by eapply client_inv).
  - intros [= <-]. by apply init_inv.
  - rewrite bool_decide_true by done. intros [= <-]. by apply run_inv.
  - intros Hs. by eapply exit_inv.
Qed.

Lemma steps_inv dev ls s : steps dev server_zero_data ls s → server_inv dev s.
Proof. induction 1; [apply start_inv|by eapply server_step_inv]. Qed.
