(* ===== verification/LifecycleTheorems.v ===== *)
(** * What the server's life cycle guarantees, and where it fails

    Theorems about every run of [Lifecycle.server_step] from the start. *)

From S2P Require Import Prelude Lifecycle LifecycleInvariant.

Lemma steps_app dev s0 ls s ls' s' :
  steps dev s0 ls s → steps dev s ls' s' → steps dev s0 (ls ++ ls') s'.
Proof.
  intros H1 H2. induction H2 as [|ls' s1 l s2 _ IH Hl]; [by rewrite app_nil_r|].
  rewrite app_assoc. by eapply steps_snoc.
Qed.

Lemma steps_one dev s l s' : server_step dev l s = Some (Done s') → steps dev s [l] s'.
Proof. intros Hl. apply (steps_snoc dev s [] s l s'); [constructor|done]. Qed.

Lemma run_inv_steps dev s ls s' : server_inv dev s → steps dev s ls s' → server_inv dev s'.
Proof. intros Hinv. induction 1; [done|by eapply server_step_inv]. Qed.

(** The step function, when the main thread has not returned. *)
Lemma server_step_live dev l s :
  (∀ st, main s ≠ Returned st) →
  server_step dev l s
  = match l with
    | Call answer => main_call dev answer s
    | No_memory => malloc_fails s
    | Run ev => if bool_decide (main s = Looping) then Some (Done (main_run dev ev s)) else None
    | Signal => Some (server_stop s)
    | Timer => if bool_decide (timer s = Some (Some true)) then Some (timer_callback s) else None
    | Cleanup => cleanup_step s
    | Clock localtime_ok fwrite_ok => clock_step dev localtime_ok fwrite_ok s
    | Client_step i uses last_step =>
        c ← clients s !! i; client_thread i c uses last_step s
    end.
Proof.
  intros Hr. unfold server_step. destruct (main s) as [| | |st] eqn:E; try done. by destruct (Hr st).
Qed.

(** Without memory the main thread does not go on. *)
Lemma malloc_undefined s s' : malloc_fails s = Some (Done s') → False.
Proof. unfold malloc_fails. by repeat case_match. Qed.

(** ** Where a step is undefined *)

(** One of the client's own streams is NULL. *)
Definition null_stream (st : stream_used) (c : client) (s : server) : Prop :=
  st ≠ The_file ∧ usable c st s = false.

(** A signal while there is no semaphore to post; the use of a block that [malloc]
    did not give; the deletion of a timer that was not created; the destruction of
    a mutex that a client holds; a client whose stream [fdopen] did not give; and a
    client that goes on when the exit is past what it needs. *)
Definition hazard (l : label) (s : server) : Prop :=
  match l with
  | Signal => clock_sem s = None
  | No_memory =>
      main s = Looping ∨ ∃ c, main s = Starting c ∧ c ∈ [Init_finished; Init_clock_sem; Create_timer]
  | Call _ =>
      (main s = Leaving Delete_timer false ∧ timer s = Some None) ∨
      ∃ ok i, main s = Leaving Destroy_mutex ok ∧ output_file_mutex s = Held (By_client i)
  | Client_step i uses _ =>
      ∃ c, clients s !! i = Some c ∧
        match point c with
        | Locking => past Destroy_mutex (main s) = true
        | Talking => ∃ st, uses = Some st ∧
            (st = The_file ∧ past Close_file (main s) = true ∨ null_stream st c s)
        | Signaling => past Destroy_finished (main s) = true ∨ ∃ st, null_stream st c s
        | _ => False
        end
  | _ => False
  end.

Lemma some_client s i c : clients s !! i = Some c → clients s ≠ [].
Proof. intros Hc Hnil. by rewrite Hnil in Hc. Qed.

(** The output file of a client is open up to its close. *)
Lemma file_usable dev s i c :
  server_inv dev s → clients s !! i = Some c →
  usable c The_file s = false ↔ past Close_file (main s) = true.
Proof.
  intros [_ Hlive] Hc. pose proof (live_file _ _ Hlive (some_client _ _ _ Hc)) as Ho.
  pose proof (live_closed _ _ Hlive) as Hcl. pose proof (live_past_file _ _ Hlive) as Hpf.
  simpl. rewrite bool_decide_eq_false. destruct (output_file s) as [[]|]; [|naive_solver|done].
  split; [done|]. intros Hp. by destruct (Hpf Hp).
Qed.

(** Both of the client's own streams are there. *)
Lemma own_streams t c s :
  infos s !! info c = Some t →
  socket_input t && socket_output t = false ↔ ∃ st, null_stream st c s.
Proof.
  intros Ht. unfold null_stream. rewrite andb_false_iff. split.
  - intros [Hi|Hi]; [exists Its_input|exists Its_output]; split; [done| |done|]; simpl; by rewrite Ht.
  - intros ([] & Hne & Hu); simpl in Hu; rewrite ?Ht in Hu; auto. done.
Qed.

Lemma client_undefined dev s i c uses last :
  server_inv dev s → clients s !! i = Some c →
  (client_thread i c uses last s = Some Undef ↔
   match point c with
   | Locking => past Destroy_mutex (main s) = true
   | Talking => ∃ st, uses = Some st ∧
       (st = The_file ∧ past Close_file (main s) = true ∨ null_stream st c s)
   | Signaling => past Destroy_finished (main s) = true ∨ ∃ st, null_stream st c s
   | _ => False
   end).
Proof.
  intros Hinv Hc. pose proof Hinv as [Hci Hlive]. pose proof (some_client _ _ _ Hc) as Hne.
  unfold client_thread, mutex_lock. destruct (point c); try done.
  - rewrite <- (live_mutex _ _ Hlive). by destruct (output_file_mutex s).
  - destruct uses as [st|]; simpl; [|naive_solver].
    transitivity (usable c st s = false); [by destruct (usable c st s)|].
    pose proof (file_usable dev s i c Hinv Hc). unfold null_stream.
    destruct (decide (st = The_file)) as [->|Hst]; naive_solver.
  - destruct (inv_infos _ Hci c) as [t Ht]; [by eapply list_elem_of_lookup_2|]. rewrite Ht.
    pose proof (own_streams t c s Ht). destruct (socket_input t && socket_output t); simpl; [|naive_solver].
    pose proof (live_past_finished _ _ Hlive) as Hpf. pose proof (live_finished _ _ Hlive) as Hfin.
    destruct (thread_finished_signal s); simpl; naive_solver.
Qed.

Lemma clock_defined dev lt fw s : live_inv dev s → clock_step dev lt fw s ≠ Some Undef.
Proof.
  intros Hlive. unfold clock_step, mutex_lock, file_call.
  pose proof (live_clock _ _ Hlive) as Hsem. pose proof (live_clock_file _ _ Hlive) as Hf.
  pose proof (live_clock_dev _ _ Hlive) as Hd. pose proof (live_clock_joined _ _ Hlive) as Hj.
  pose proof (live_mutex _ _ Hlive) as Hmu.
  destruct (clock_thread s) as [|p|] eqn:Hc; simpl in *; try done.
  destruct p; [| |destruct dev; [by specialize (Hd eq_refl eq_refl)|]..|done].
  - destruct (clock_sem s); [|by destruct (Hsem eq_refl)]. case_bool_decide; [|done]. simpl.
    by destruct (should_stop s), dev, lt.
  - destruct (output_file_mutex s); try done. destruct Hmu as [Hmu _]. specialize (Hmu eq_refl).
    destruct (main s) as [| |c ok|st]; try done; [|by specialize (Hj eq_refl)].
    destruct c; try done; by specialize (Hj eq_refl).
  - rewrite (Hf eq_refl eq_refl), bool_decide_true by done. by destruct fw.
  - by rewrite (Hf eq_refl eq_refl), bool_decide_true.
Qed.

Lemma cleanup_defined dev s : live_inv dev s → cleanup_step s ≠ Some Undef.
Proof.
  intros Hlive. unfold cleanup_step. pose proof (live_cleanup_joined _ _ Hlive) as Hj.
  destruct (cleanup_thread s) eqn:Hc; try done.
  destruct (thread_finished_signal s) eqn:Hf; [by case_bool_decide|].
  destruct (live_finished _ _ Hlive Hf) as [Hn|[Hn _]]; [|by rewrite Hn in Hc].
  destruct (main s) as [| |c' ok|st]; try done; [|by specialize (Hj eq_refl)].
  destruct c'; try done; by specialize (Hj eq_refl).
Qed.

Lemma exit_undefined dev s c answer ok :
  live_inv dev s → main s = Leaving c ok →
  (server_exit dev c answer ok s = Some Undef ↔
   (c = Delete_timer ∧ timer s = Some None) ∨
   (c = Destroy_mutex ∧ ∃ i, output_file_mutex s = Held (By_client i))).
Proof.
  intros Hlive Hm. unfold server_exit.
  destruct c; try (repeat case_match; naive_solver).
  - case_bool_decide as Hc; [naive_solver|]. pose proof (live_finished _ _ Hlive) as Hf.
    rewrite Hm in Hf. destruct (thread_finished_signal s); [naive_solver|].
    destruct (Hf eq_refl) as [|[? _]]; [done|congruence].
  - pose proof (proj1 (live_clock_owner _ _ Hlive)) as Ho.
    pose proof (live_clock_joined _ _ Hlive) as Hj. rewrite Hm in Hj. specialize (Hj eq_refl).
    destruct (output_file_mutex s) as [|[i|]|]; [naive_solver|naive_solver| |naive_solver].
    specialize (Ho eq_refl). by destruct (clock_thread s).
Qed.

(** In every state with the invariant. *)
Lemma undefined_iff_hazard dev s l :
  server_inv dev s → (server_step dev l s = Some Undef ↔ hazard l s ∧ ∀ st, main s ≠ Returned st).
Proof.
  intros Hinv. pose proof (inv_live _ _ Hinv) as Hlive.
  assert ((∃ st, main s = Returned st) ∨ ∀ st, main s ≠ Returned st) as [[st Hst]|Hr]
    by (destruct (main s); [right; congruence..|left; by eexists]).
  { unfold server_step. rewrite Hst. naive_solver. }
  rewrite (server_step_live dev l s Hr). transitivity (hazard l s); [|tauto].
  destruct l as [answer| |ev| | | |lt fw|i uses last]; simpl.
  - unfold main_call. destruct (main s) as [c| |c ok|st] eqn:Hm; [naive_solver..| |naive_solver].
    rewrite (exit_undefined dev s c answer ok Hlive Hm).
    pose proof (live_timer _ _ Hlive) as Ht. rewrite Hm in Ht. naive_solver.
  - unfold malloc_fails. destruct (main s) as [[]| | |]; set_solver.
  - by case_bool_decide.
  - unfold server_stop. simpl. by destruct (clock_sem s).
  - case_bool_decide; [|done]. unfold timer_callback. by destruct (clock_sem s).
  - split; [|done]. by apply cleanup_defined with dev.
  - split; [|done]. by apply clock_defined.
  - destruct (clients s !! i) as [c|] eqn:Hc; simpl; [|naive_solver].
    rewrite (client_undefined dev s i c uses last Hinv Hc). naive_solver.
Qed.

(** The model of the life cycle has no fuel to run out of. *)
Lemma server_step_fuel dev l s : server_step dev l s ≠ Some NoFuel.
Proof.
  assert (Hpost : ∀ (v : option Z) (k : option Z → server), (v' ← sem_post v; Done (k v')) ≠ NoFuel)
    by by intros [].
  assert (Hlock : ∀ h (k : server → server), (o ← mutex_lock h s; Some (s' ← o; Done (k s'))) ≠ Some NoFuel)
    by (intros h k; unfold mutex_lock; by destruct (output_file_mutex s)).
  assert (Hmain : ∀ answer, main_call dev answer s ≠ Some NoFuel).
  { intros answer. unfold main_call, server_exit. repeat case_match; simplify_eq/=; try done.
    intros [= E]. eapply Hpost, E. }
  unfold server_step. destruct (main s); [| | |done].
  all: destruct l as [answer| |ev| | | |lt fw|i uses last]; try case_bool_decide; try done.
  all: try by (intros [= E]; eapply Hpost, E).
  all: try by unfold malloc_fails; repeat case_match.
  all: try by unfold timer_callback; destruct (clock_sem s).
  all: try by unfold cleanup_step; destruct (cleanup_thread s), (thread_finished_signal s); try case_bool_decide.
  all: try by (unfold clock_step, file_call;
    destruct (clock_thread s) as [|[]|]; try apply Hlock; repeat case_match; simplify_eq/=).
  all: destruct (clients s !! i) as [c|]; [|done]; simpl; unfold client_thread.
  all: destruct (point c); [apply Hlock|by case_match|done| |done].
  all: destruct (infos s !! info c); [|done]; case_match; [done|]; intros [= E]; eapply Hpost, E.
Qed.

(** C25: in every run of the server a step has undefined behaviour exactly where
    [hazard] says: a signal when there is no semaphore of the clock (before it is
    created and after it is destroyed), a [malloc] that gives NULL (for a semaphore,
    the timer or a client's [thread_info]), the deletion of a timer whose creation
    failed, the destruction of the output file's mutex while a client holds it, a
    client whose stream [fdopen] did not give (or [dup] its descriptor) when it
    calls on that stream or closes it, and a client that takes the mutex, uses the
    output file or posts the cleanup's semaphore when the exit has destroyed the
    one or closed the other.  A [malloc] and the [sem_init] or [timer_create] of its
    block are one step here, and of a conversation only the use of its streams
    counts. *)
Theorem server_undefined_iff dev ls s l :
  steps dev server_zero_data ls s →
  (server_step dev l s = Some Undef ↔ hazard l s ∧ ∀ st, main s ≠ Returned st).
Proof. intros Hsteps. by eapply undefined_iff_hazard, steps_inv. Qed.

(** ** What a step leaves alone *)

(** [by_cases Hs] goes through the branches of a step that has succeeded. *)
Ltac by_cases Hs :=
  repeat first [case_match | case_bool_decide]; simplify_eq/=;
  repeat first [case_match | case_bool_decide]; simplify_eq/=.

Definition of_main (l : label) : bool :=
  match l with Call _ | No_memory | Run _ => true | _ => false end.

Lemma step_not_returned dev l s s' :
  server_step dev l s = Some (Done s') → ∀ st, main s ≠ Returned st.
Proof. intros Hs st E. unfold server_step in Hs. by rewrite E in Hs. Qed.

Lemma frame_main dev l s s' :
  of_main l = false → server_step dev l s = Some (Done s') → main s' = main s.
Proof.
  intros Hl Hs. rewrite server_step_live in Hs by by eapply step_not_returned.
  destruct l as [answer| |ev| | | |lt fw|i uses last]; try done; try by apply malloc_undefined in Hs.
  - unfold server_stop, sem_post in Hs. simpl in Hs. by_cases Hs; done.
  - unfold timer_callback in Hs. by_cases Hs; done.
  - unfold cleanup_step, cleanup_thread_body in Hs. by_cases Hs; done.
  - unfold clock_step, mutex_lock, file_call in Hs. by_cases Hs; done.
  - destruct (clients s !! i); simplify_eq/=.
    unfold client_thread, mutex_lock, sem_post in Hs. by_cases Hs; done.
Qed.

Lemma frame_clients dev l s s' :
  server_step dev l s = Some (Done s') →
  match l with Run _ | Client_step _ _ _ => False | _ => True end → clients s' = clients s.
Proof.
  intros Hs Hl. rewrite server_step_live in Hs by by eapply step_not_returned.
  destruct l as [answer| |ev| | | |lt fw|i uses last]; try done; try by apply malloc_undefined in Hs.
  - unfold main_call, server_init, server_exit, sem_post in Hs. by_cases Hs; done.
  - unfold server_stop, sem_post in Hs. simpl in Hs. by_cases Hs; done.
  - unfold timer_callback in Hs. by_cases Hs; done.
  - unfold cleanup_step, cleanup_thread_body in Hs. by_cases Hs; done.
  - unfold clock_step, mutex_lock, file_call in Hs. by_cases Hs; done.
Qed.

(** ** An exit without clients is safe *)
Definition all_gone (s : server) : Prop := Forall (λ c, point c = Gone) (clients s).

Definition out_of_loop (m : main_point) : bool :=
  match m with Leaving _ _ | Returned _ => true | _ => false end.

Lemma out_of_loop_step dev l s s' :
  out_of_loop (main s) = true → server_step dev l s = Some (Done s') →
  out_of_loop (main s') = true.
Proof.
  intros Ho Hs. destruct (of_main l) eqn:Hl; [|by rewrite (frame_main _ _ _ _ Hl Hs)].
  rewrite server_step_live in Hs by by eapply step_not_returned.
  destruct l as [answer| |ev| | | |lt fw|i uses last]; try done; try by apply malloc_undefined in Hs.
  - unfold main_call, server_exit, sem_post in Hs. destruct (main s); try done. by_cases Hs; done.
  - case_bool_decide as Hm; [|done]. by rewrite Hm in Ho.
Qed.

Lemma gone_step dev l s s' :
  all_gone s → out_of_loop (main s) = true → server_step dev l s = Some (Done s') → all_gone s'.
Proof.
  intros Hg Ho Hs. unfold all_gone in *.
  destruct l as [answer| |ev| | | |lt fw|i uses last];
    try by (rewrite (frame_clients _ _ _ _ Hs I)).
  - rewrite server_step_live in Hs by by eapply step_not_returned.
    case_bool_decide as Hm; [|done]. by rewrite Hm in Ho.
  - rewrite server_step_live in Hs by by eapply step_not_returned.
    destruct (clients s !! i) as [c|] eqn:Hc; [|done]. rewrite Forall_lookup in Hg. simpl in Hs.
    unfold client_thread in Hs. by rewrite (Hg i c Hc) in Hs.
Qed.

(** When every client thread is gone by the time the main thread leaves the
    loop, everything after that is defined, except for a signal that comes when
    the clock's semaphore is gone and the deletion of a timer that was never
    created. *)
Lemma exit_safe_without_clients dev ls s ls' s' l :
  steps dev server_zero_data ls s → out_of_loop (main s) = true → all_gone s →
  steps dev s ls' s' → server_step dev l s' = Some Undef →
  l = Signal ∧ clock_sem s' = None ∨ main s' = Leaving Delete_timer false ∧ timer s' = Some None.
Proof.
  intros Hsteps Ho Hg Hrun Hu.
  assert (all_gone s' ∧ out_of_loop (main s') = true) as [Hg' Ho'].
  { clear Hu Hsteps. induction Hrun as [|ls' s1 l1 s2 _ IH Hl]; [done|]. destruct IH as [? ?].
    split; [by eapply gone_step|by eapply out_of_loop_step]. }
  apply (undefined_iff_hazard dev s' l) in Hu as [Hz _];
    [|eapply run_inv_steps, Hrun; by eapply steps_inv].
  destruct l as [answer| |ev| | | |lt fw|i uses last]; try done; simpl in Hz.
  - destruct Hz as [?|(ok & i & _ & Hm)]; [by right|].
    pose proof (steps_inv _ _ _ (steps_app _ _ _ _ _ _ Hsteps Hrun)) as [Hci _].
    apply (inv_owner _ Hci) in Hm as (c & Hc & Hin). unfold all_gone in Hg'.
    rewrite Forall_lookup in Hg'. unfold in_file in Hin. by rewrite (Hg' i c Hc) in Hin.
  - destruct Hz as [Hm|(c & Hm & _)]; by rewrite Hm in Ho'.
  - by left.
  - destruct Hz as (c & Hc & Hp). unfold all_gone in Hg'. rewrite Forall_lookup in Hg'.
    by rewrite (Hg' i c Hc) in Hp.
Qed.

(** ** The threads of the clients *)

Lemma size_clients s : clients_inv s → (length (clients s) ≤ size (infos s))%nat.
Proof.
  intros [_ Hnd Hi _].
  rewrite <- (length_fmap info), <- (size_list_to_set (C := gset nat)) by done.
  rewrite <- size_dom. apply subseteq_size. intros a.
  rewrite elem_of_list_to_set, elem_of_dom. intros (c & -> & Hc)%list_elem_of_fmap. by apply Hi.
Qed.

(** C28: client threads are never joined: in every run the list of threads stays
    empty, every client's [thread_info] stays allocated (also after the server
    has returned), and the cleanup thread, whenever it is woken, finds nothing
    and ends. *)
Theorem clients_never_reaped dev ls s :
  steps dev server_zero_data ls s →
  thread_list s = [] ∧ (∀ c, c ∈ clients s → is_Some (infos s !! info c)) ∧
  (length (clients s) ≤ size (infos s))%nat ∧
  ∀ s', cleanup_step s = Some (Done s') → cleanup_thread s' = Ended ∧ infos s' = infos s.
Proof.
  intros Hsteps. pose proof (inv_clients _ _ (steps_inv _ _ _ Hsteps)) as Hinv.
  split; [apply Hinv|]. split; [apply Hinv|]. split; [by eapply size_clients|].
  intros s'. unfold cleanup_step. destruct (cleanup_thread s); try done.
  destruct (thread_finished_signal s); [|done]. case_bool_decide; [|done].
  unfold cleanup_thread_body. simpl. rewrite (inv_list _ Hinv). simpl. by intros [= <-].
Qed.

(** At most one thread at a time uses the output file, and it holds its mutex. *)
Lemma one_client_talks dev ls s i j c d :
  steps dev server_zero_data ls s →
  clients s !! i = Some c → clients s !! j = Some d → in_file c = true → in_file d = true →
  i = j ∧ output_file_mutex s = Held (By_client i) ∧ clock_in_file (clock_thread s) = false.
Proof.
  intros Hsteps Hc Hd Hfc Hfd. destruct (steps_inv _ _ _ Hsteps) as [Hci Hlive].
  assert (output_file_mutex s = Held (By_client i)) as Hi by (apply Hci; by exists c).
  assert (output_file_mutex s = Held (By_client j)) as Hj by (apply Hci; by exists d).
  split; [congruence|]. split; [done|].
  pose proof (proj2 (live_clock_owner _ _ Hlive)) as Ho.
  destruct (clock_in_file _); [|done]. specialize (Ho eq_refl). congruence.
Qed.

(** ** Stopping *)

(** What is released when the server has returned. *)
Definition released (s : server) : Prop :=
  socket_open s = false ∧ output_file s ≠ Some true ∧ output_file_mutex s = Destroyed ∧
  thread_finished_signal s = None ∧ clock_sem s = None ∧ alive (cleanup_thread s) = false ∧
  alive (clock_thread s) = false.

Lemma returned_released dev s st : server_inv dev s → main s = Returned st → released s.
Proof.
  intros [_ []] Hm. rewrite Hm in *. simpl in *. unfold released. destruct live_mutex.
  split_and!; auto.
Qed.

(** The internal steps: the main thread's calls, the cleanup and the clock. *)
Definition internal (l : label) : bool :=
  match l with Call _ | Cleanup | Clock _ _ => true | _ => false end.

(** A client holds the mutex. *)
Definition client_holds (s : server) : bool :=
  match output_file_mutex s with Held (By_client _) => true | _ => false end.

Definition leaving (s : server) : Prop := ∃ c ok, main s = Leaving c ok.

(** The exit can go on up to where a client that holds the mutex stops it. *)
Record exiting (dev : bool) (s : server) : Prop := Exiting {
  exiting_inv : server_inv dev s;
  exiting_main : leaving s;
  exiting_stop : should_stop s = true;
  exiting_timer : timer s ≠ Some None;
  exiting_clock : client_holds s = true → clock_thread s ≠ At At_mutex;
}.

(** The steps that are left. *)
Definition clock_left (t : thread_state clock_point) : nat :=
  match t with
  | At At_mutex => 5 | At Writing => 4 | At Flushing => 3 | At (Releasing _) => 2 | At Waiting => 1
  | _ => 0
  end.

Definition steps_left (s : server) : nat :=
  match main s with
  | Leaving c _ =>
      11 - exit_rank c + (if alive (cleanup_thread s) then 1 else 0) + clock_left (clock_thread s)
  | _ => 0
  end.

(** The step that is taken next. *)
Definition next_internal (s : server) : label :=
  match main s with
  | Leaving Join_cleanup _ => if alive (cleanup_thread s) then Cleanup else Call true
  | Leaving Join_clock _ => if alive (clock_thread s) then Clock true true else Call true
  | _ => Call true
  end.

Definition blocked (s : server) : Prop :=
  (∃ ok, main s = Leaving Destroy_mutex ok) ∧ client_holds s = true.

Lemma next_cleanup dev s ok :
  exiting dev s → main s = Leaving Join_cleanup ok → alive (cleanup_thread s) = true →
  ∃ n, server_step dev Cleanup s = Some (Done (set_cleanup Ended (set_finished (Some n) s))).
Proof.
  intros [[Hci Hlive] _ _ _ _] Hm Ha. pose proof (live_woken _ _ Hlive ok Hm Ha) as (n & Hn & Hpos).
  exists (n - 1). rewrite server_step_live by congruence. unfold cleanup_step.
  destruct (cleanup_thread s) as [|[]|]; try done. rewrite Hn, bool_decide_true by done.
  unfold cleanup_thread_body. simpl. by rewrite (inv_list _ Hci).
Qed.

Lemma next_clock dev s ok :
  exiting dev s → main s = Leaving Join_clock ok → alive (clock_thread s) = true →
  ∃ s', server_step dev (Clock true true) s = Some (Done s') ∧
    main s' = main s ∧ should_stop s' = should_stop s ∧ timer s' = timer s ∧
    cleanup_thread s' = cleanup_thread s ∧ client_holds s' = client_holds s ∧
    (clock_left (clock_thread s') < clock_left (clock_thread s))%nat ∧
    (client_holds s' = true → clock_thread s' ≠ At At_mutex).
Proof.
  intros [[_ Hlive] _ Hstop _ Hck] Hm Ha. rewrite server_step_live by congruence.
  unfold clock_step, mutex_lock, file_call, client_holds in *.
  pose proof (live_clock _ _ Hlive Ha) as Hsem. pose proof (live_stop _ _ Hlive) as Hpos.
  pose proof (live_clock_dev _ _ Hlive) as Hd. pose proof (live_clock_file _ _ Hlive) as Hf.
  pose proof (live_clock_owner _ _ Hlive) as Ho. pose proof (live_mutex _ _ Hlive) as Hmu.
  rewrite Hm in Hmu. simpl in Hmu.
  destruct (clock_thread s) as [|p|] eqn:Hc; try done. simpl in Ho.
  destruct p; [|destruct dev; [by specialize (Hd eq_refl eq_refl)|]..].
  - destruct (clock_sem s) as [n|]; [|done]. rewrite bool_decide_true by by apply Hpos.
    simpl. rewrite Hstop. eexists. split; [done|]. simpl. split_and!; try done; lia.
  - destruct (output_file_mutex s) as [|[i|]|]; simpl.
    + eexists. split; [done|]. simpl. split_and!; try done; lia.
    + by destruct (Hck eq_refl).
    + by destruct Ho as [Ho _]; specialize (Ho eq_refl).
    + by destruct Hmu as [Hmu _]; specialize (Hmu eq_refl).
  - rewrite (Hf eq_refl eq_refl), bool_decide_true by done.
    eexists. split; [done|]. simpl. split_and!; try done; lia.
  - rewrite (Hf eq_refl eq_refl), bool_decide_true by done.
    eexists. split; [done|]. simpl. split_and!; try done; lia.
  - destruct Ho as [_ Ho]. rewrite Ho by done. eexists. split; [done|]. simpl.
    destruct ok0; simpl; split_and!; try done; lia.
Qed.

Lemma next_exit_call dev s c ok :
  exiting dev s → main s = Leaving c ok → ¬ blocked s →
  (c = Join_cleanup → alive (cleanup_thread s) = false) →
  (c = Join_clock → alive (clock_thread s) = false) →
  ∃ s', server_step dev (Call true) s = Some (Done s') ∧
    (main s' = Returned (if ok then 0 else 1) ∨
     (∃ c', main s' = Leaving c' ok ∧ (exit_rank c < exit_rank c')%nat)) ∧
    should_stop s' = should_stop s ∧ (timer s' = timer s ∨ timer s' = None) ∧
    cleanup_thread s' = cleanup_thread s ∧ client_holds s' = client_holds s ∧
    clock_thread s' = clock_thread s.
Proof.
  intros [[Hci Hlive] _ _ Ht _] Hm Hb Hjc Hjk. rewrite server_step_live by congruence.
  unfold main_call. rewrite Hm.
  assert (Hu : server_exit dev c true ok s ≠ Some Undef).
  { rewrite (exit_undefined dev s c true ok Hlive Hm). intros [[_ ?]|[-> [i Hi]]]; [done|].
    apply Hb. split; [by exists ok|]. unfold client_holds. by rewrite Hi. }
  unfold server_exit, sem_post, client_holds in *.
  destruct c; try (rewrite Hjc by done); try (rewrite Hjk by done).
  all: repeat first [case_match | case_bool_decide]; simplify_eq/=; try done.
  all: eexists; (split; [done|]); simpl.
  all: split_and!; try done; try (by left); try by right.
  all: try (left; done); try (right; eexists; split; [by rewrite ?andb_true_r|simpl; lia]).
  all: by repeat case_match; simplify_eq.
Qed.

(** One step of the exit: it comes closer to its end. *)
Lemma exit_step dev s c ok :
  exiting dev s → main s = Leaving c ok → ¬ blocked s →
  ∃ s', server_step dev (next_internal s) s = Some (Done s') ∧
    client_holds s' = client_holds s ∧
    (main s' = Returned (if ok then 0 else 1) ∨
     (∃ c', main s' = Leaving c' ok) ∧ exiting dev s' ∧ (steps_left s' < steps_left s)%nat).
Proof.
  intros He Hm Hb. pose proof He as [Hinv _ Hstop Ht Hck].
  assert (Hinv' : ∀ l s', server_step dev l s = Some (Done s') → server_inv dev s')
    by (intros; by eapply server_step_inv).
  unfold next_internal. rewrite Hm.
  destruct (decide (c = Join_cleanup ∧ alive (cleanup_thread s) = true)) as [[-> Ha]|Hnc].
  { rewrite Ha. destruct (next_cleanup dev s ok He Hm Ha) as [n Hs].
    eexists. split; [done|]. split; [done|]. right. split; [by exists Join_cleanup|].
    split; [split; try done; [by eapply Hinv'|by exists Join_cleanup, ok]|].
    unfold steps_left. simpl. rewrite Hm, Ha. simpl. lia. }
  destruct (decide (c = Join_clock ∧ alive (clock_thread s) = true)) as [[-> Ha]|Hnk].
  { rewrite Ha.
    destruct (next_clock dev s ok He Hm Ha) as (s' & Hs & Hm' & Hst & Ht' & Hcl & Hh & Hlt & Hck').
    exists s'. split; [done|]. split; [done|]. right. split; [exists Join_clock; congruence|].
    split; [split; rewrite ?Hst, ?Ht'; try done; [by eapply Hinv'|exists Join_clock, ok; congruence]|].
    unfold steps_left. rewrite Hm', Hm, Hcl. simpl. lia. }
  assert (Hl : match c with
    | Join_cleanup => if alive (cleanup_thread s) then Cleanup else Call true
    | Join_clock => if alive (clock_thread s) then Clock true true else Call true
    | _ => Call true end = Call true).
  { destruct c; try done; case_match; naive_solver. }
  rewrite Hl. destruct (next_exit_call dev s c ok He Hm Hb) as (s' & Hs & Hr & Hst & Ht' & Hcl & Hh & Hk).
  { intros ->. by destruct (alive (cleanup_thread s)); [destruct Hnc|]. }
  { intros ->. by destruct (alive (clock_thread s)); [destruct Hnk|]. }
  exists s'. split; [done|]. split; [done|]. destruct Hr as [Hr|(c' & Hm' & Hlt)]; [by left|].
  right. split; [by exists c'|]. split.
  - split; rewrite ?Hst, ?Hk, ?Hh; try done; [by eapply Hinv'|by do 2 eexists|].
    by destruct Ht' as [-> | ->].
  - unfold steps_left. rewrite Hm, Hm', Hcl, Hk.
    assert (exit_rank c' ≤ 10)%nat by (destruct c'; simpl; lia). lia.
Qed.

Lemma next_is_internal s : internal (next_internal s) = true.
Proof. unfold next_internal. repeat case_match; done. Qed.

Lemma exit_run dev s c ok :
  exiting dev s → main s = Leaving c ok →
  ∃ ls' s', Forall internal ls' ∧ (length ls' ≤ steps_left s)%nat ∧ steps dev s ls' s' ∧
    client_holds s' = client_holds s ∧ (main s' = Returned (if ok then 0 else 1) ∨ blocked s').
Proof.
  remember (steps_left s) as n eqn:Hn. revert s c Hn.
  induction n as [n IH] using lt_wf_ind. intros s c -> He Hm.
  destruct (decide (client_holds s = true ∧ c = Destroy_mutex)) as [[Hb ->]|Hb].
  { exists [], s. split; [constructor|]. split; [simpl; lia|]. split; [constructor|]. split; [done|].
    right. split; [by eexists|done]. }
  destruct (exit_step dev s c ok He Hm) as (s1 & Hs & Hh & Hr).
  { intros [[ok' Hm'] Hh]. rewrite Hm in Hm'. naive_solver. }
  pose proof (steps_one _ _ _ _ Hs) as H1.
  assert (Hi : Forall internal [next_internal s])
    by (constructor; [by rewrite next_is_internal|constructor]).
  destruct Hr as [Hr|([c' Hm1] & He1 & Hlt)].
  - exists [next_internal s], s1. split; [done|]. split; [|by split; [done|split; [done|left]]].
    unfold steps_left. rewrite Hm. simpl. assert (exit_rank c ≤ 10)%nat by (destruct c; simpl; lia). lia.
  - destruct (IH _ Hlt s1 c' eq_refl He1 Hm1) as (ls' & s' & Hil & Hlen & Hst & Hh' & Hend).
    exists ([next_internal s] ++ ls'), s'. split; [by apply Forall_app|].
    split; [simpl; lia|]. split; [by eapply steps_app|]. split; [congruence|done].
Qed.

(** From the first call on, that are at most 17 steps. *)
Lemma exit_length s c ok : main s = Leaving c ok → (steps_left s ≤ 17)%nat.
Proof.
  intros Hm. unfold steps_left. rewrite Hm.
  destruct (clock_thread s) as [|[]|], (alive (cleanup_thread s)); simpl; lia.
Qed.


(** Neither a signal nor a failing write of the clock. *)
Definition quiet (l : label) : bool :=
  match l with Signal => false | Clock lt fw => lt && fw | _ => true end.

(** The clock runs and does not end by itself. *)
Definition ticking (t : thread_state clock_point) : bool :=
  alive t && bool_decide (t ≠ At (Releasing false)).

(** Up to the join of the clock thread. *)
Definition before_clock (s : server) : Prop :=
  leaving s ∧ past Join_clock (main s) = false.

Lemma quiet_clock dev lt fw s s' :
  clock_step dev lt fw s = Some (Done s') → lt && fw = true → should_stop s = false →
  ticking (clock_thread s) = true →
  main s' = main s ∧ should_stop s' = should_stop s ∧ ticking (clock_thread s') = true.
Proof.
  intros Hs [-> ->]%andb_prop Hst Ht. unfold clock_step, mutex_lock, file_call in Hs.
  destruct (clock_thread s) as [|[| | | |[]]|] eqn:Hc; try done; simpl in Hs.
  - destruct (clock_sem s); [|done]. case_bool_decide; [|done]. rewrite Hst in Hs.
    destruct dev; simplify_eq/=; by rewrite ?Hc.
  - destruct (output_file_mutex s); by simplify_eq/=.
  - case_bool_decide; by simplify_eq/=.
  - case_bool_decide; by simplify_eq/=.
  - by simplify_eq/=.
Qed.

Lemma frame_clock dev l s s' :
  server_step dev l s = Some (Done s') →
  match l with Signal | Clock _ _ => False | _ => True end → main s ≠ Starting Create_clock →
  should_stop s' = should_stop s ∧ clock_thread s' = clock_thread s.
Proof.
  intros Hs Hl Hm. rewrite server_step_live in Hs by by eapply step_not_returned.
  destruct l as [answer| |ev| | | |lt fw|i uses last]; try done; try by apply malloc_undefined in Hs.
  - unfold main_call, server_init, server_exit, sem_post in Hs. by_cases Hs; done.
  - unfold main_run, server_run_body in Hs. by_cases Hs; done.
  - unfold timer_callback in Hs. by_cases Hs; done.
  - unfold cleanup_step, cleanup_thread_body in Hs. by_cases Hs; done.
  - destruct (clients s !! i); simplify_eq/=.
    unfold client_thread, mutex_lock, sem_post in Hs. by_cases Hs; done.
Qed.

(** The exit does not get past a clock that runs. *)
Lemma before_clock_step dev l s s' :
  server_step dev l s = Some (Done s') → before_clock s → alive (clock_thread s) = true →
  before_clock s'.
Proof.
  intros Hs [(c & ok & Hm) Hp] Ha. unfold before_clock, leaving.
  destruct (of_main l) eqn:Hl.
  2:{ rewrite (frame_main _ _ _ _ Hl Hs). split; [by do 2 eexists|done]. }
  rewrite server_step_live in Hs by congruence.
  destruct l as [answer| |ev| | | |lt fw|i uses last]; try done; try by apply malloc_undefined in Hs.
  - unfold main_call, server_exit, sem_post in Hs. rewrite Hm in Hs, Hp.
    destruct c; try done; by_cases Hs; try congruence; (split; [by do 2 eexists|done]).
  - rewrite bool_decide_false in Hs by congruence. done.
Qed.

(** C27: when [server_exit] is entered without a stop having been asked for
    (after an error), it waits for the clock thread for ever: as long as no
    signal arrives and the clock's calls work, no step of any thread lets the
    main thread get past the join, let alone return. *)
Theorem exit_without_stop_hangs dev s ls s' :
  before_clock s → should_stop s = false → ticking (clock_thread s) = true →
  steps dev s ls s' → Forall quiet ls →
  before_clock s' ∧ should_stop s' = false ∧ ticking (clock_thread s') = true.
Proof.
  intros Hj Hst Hc Hsteps Hq. induction Hsteps as [|ls s1 l s2 Hs IH Hl]; [done|].
  apply Forall_app in Hq as [Hq1 Hq2]. apply Forall_inv, Is_true_true in Hq2.
  destruct IH as (Hj1 & Hst1 & Hc1); [done|]. clear Hj Hst Hc Hs Hq1.
  pose proof Hc1 as [Ha _]%andb_prop.
  split; [by eapply before_clock_step|]. destruct Hj1 as [(c & ok & Hm) _].
  destruct l as [answer| |ev| | | |lt fw|i uses last]; try done; try by apply malloc_undefined in Hs.
  all: try (destruct (frame_clock dev _ s1 s2 Hl I) as [-> ->]; [congruence|done]).
  rewrite server_step_live in Hl by congruence.
  destruct (quiet_clock dev lt fw s1 s2) as (_ & -> & ?); done.
Qed.

(** ** A client that is silent *)

(** Its own steps. *)
Definition is_step_of (i : nat) (l : label) : bool :=
  match l with Client_step j _ _ => bool_decide (i = j) | _ => false end.

Lemma held_step dev l s s' i c :
  server_inv dev s → clients s !! i = Some c → in_file c = true → is_step_of i l = false →
  server_step dev l s = Some (Done s') →
  output_file_mutex s' = Held (By_client i) ∧
  ∀ j d, clients s !! j = Some d → j = i ∨ point d = Locking → clients s' !! j = Some d.
Proof.
  intros Hinv Hc Hin Hl Hs. pose proof (inv_owner _ (inv_clients _ _ Hinv)) as Ho.
  assert (Hm : output_file_mutex s = Held (By_client i)) by (apply Ho; by exists c).
  pose proof (proj2 (live_clock_owner _ _ (inv_live _ _ Hinv))) as Hck.
  pose proof (frame_clients dev l s s' Hs) as Hfr.
  rewrite server_step_live in Hs by by eapply step_not_returned.
  destruct l as [answer| |ev| | | |lt fw|j uses last]; try specialize (Hfr I);
    try by apply malloc_undefined in Hs.
  - split; [|by rewrite Hfr]. unfold main_call, server_init, server_exit, sem_post in Hs.
    by_cases Hs; congruence.
  - unfold main_run, server_run_body in Hs. by_cases Hs; (split; [done|]); intros j d Hd _;
      first [done|by apply lookup_app_l_Some].
  - split; [|by rewrite Hfr]. unfold server_stop, sem_post in Hs. simpl in Hs. by_cases Hs; done.
  - split; [|by rewrite Hfr]. unfold timer_callback in Hs. by_cases Hs; done.
  - split; [|by rewrite Hfr]. unfold cleanup_step, cleanup_thread_body in Hs. by_cases Hs; done.
  - split; [|by rewrite Hfr]. unfold clock_step, mutex_lock, file_call in Hs.
    destruct (clock_thread s) as [|[]|] eqn:Hcs; simpl in Hck; by_cases Hs; try done;
      specialize (Hck eq_refl); congruence.
  - simpl in Hl. apply bool_decide_eq_false in Hl.
    destruct (clients s !! j) as [d|] eqn:Hd; simplify_eq/=.
    assert (Hp : point d ≠ Locking ∧ point d ≠ Unlocking).
    { unfold client_thread, mutex_lock in Hs. split; intros E; rewrite E, ?Hm in Hs; [done|].
      assert (output_file_mutex s = Held (By_client j)) by
        (apply Ho; exists d; split; [done|by unfold in_file; rewrite E]). congruence. }
    destruct Hp as [Hp1 Hp2].
    assert (Hkeep : ∀ p k e, clients s !! k = Some e → k = i ∨ point e = Locking →
      alter (λ c, Client (info c) p) j (clients s) !! k = Some e).
    { intros p k e Hk He. rewrite list_lookup_alter_ne; [done|]. intros <-.
      destruct He as [->|He]; [done|congruence]. }
    unfold client_thread, sem_post in Hs. by_cases Hs; try done; split; try done;
      intros; by apply Hkeep.
Qed.

(** A client at the output file is alone there, and the server has not returned. *)
Lemma holder_alone dev s i c :
  server_inv dev s → clients s !! i = Some c → in_file c = true →
  (∀ j d, clients s !! j = Some d → in_file d = true → j = i) ∧
  clock_in_file (clock_thread s) = false ∧ ∀ st, main s ≠ Returned st.
Proof.
  intros Hinv Hc Hin. assert (Hm : output_file_mutex s = Held (By_client i)) by (apply Hinv; by exists c).
  split; [|split].
  - intros j d Hd Hp. assert (output_file_mutex s = Held (By_client j)) by (apply Hinv; by exists d).
    congruence.
  - pose proof (proj2 (live_clock_owner _ _ (inv_live _ _ Hinv))) as Ho.
    destruct (clock_in_file _); [|done]. specialize (Ho eq_refl). congruence.
  - intros st Hst. pose proof (live_mutex _ _ (inv_live _ _ Hinv)) as [_ Hd].
    rewrite Hst in Hd. specialize (Hd eq_refl). congruence.
Qed.

(** A client holds the mutex from before it has sent anything: while it is silent
    (its thread takes no step) no other client thread that waits for the mutex
    gets on, no other thread is at the output file, and the server cannot be
    brought to its end, whatever else happens. *)
Lemma silent_client_blocks dev ls0 s ls s' i c :
  steps dev server_zero_data ls0 s → clients s !! i = Some c → in_file c = true →
  steps dev s ls s' → Forall (λ l, is_step_of i l = false) ls →
  clients s' !! i = Some c ∧
  (∀ j d, clients s !! j = Some d → point d = Locking → clients s' !! j = Some d) ∧
  (∀ j d, clients s' !! j = Some d → in_file d = true → j = i) ∧
  clock_in_file (clock_thread s') = false ∧ ∀ st, main s' ≠ Returned st.
Proof.
  intros Hsteps Hc Hin Hrun Hls. pose proof (steps_inv _ _ _ Hsteps) as Hinv. clear Hsteps.
  enough (server_inv dev s' ∧ ∀ j d, clients s !! j = Some d → j = i ∨ point d = Locking →
    clients s' !! j = Some d) as [Hinv' Hkeep].
  { assert (Hc' : clients s' !! i = Some c) by (apply Hkeep; [done|by left]).
    split; [done|]. split; [intros j d Hd Hp; apply Hkeep; [done|by right]|]. by eapply holder_alone. }
  induction Hrun as [|ls s1 l s2 _ IH Hs]; [done|].
  apply Forall_app in Hls as [Hls Hl]. apply Forall_inv in Hl.
  destruct (IH Hls) as [Hinv1 Hkeep]. split; [by eapply server_step_inv|].
  intros j d Hd Hp. eapply held_step; try done; [apply Hkeep; [done|by left]|by apply Hkeep].
Qed.

(** ** Some runs *)
Fixpoint play (dev : bool) (s : server) (ls : list label) : option server :=
  match ls with
  | [] => Some s
  | l :: ls' =>
      match server_step dev l s with Some (Done s1) => play dev s1 ls' | _ => None end
  end.

Lemma play_steps dev s ls s' : play dev s ls = Some s' → steps dev s ls s'.
Proof.
  revert s. induction ls as [|l ls IH]; intros s; simpl; [intros [= <-]; constructor|].
  destruct (server_step dev l s) as [[s1| |]|] eqn:Hl; try done. intros Hp.
  apply (steps_app dev s [l] s1 ls s'); [by apply steps_one|by apply IH].
Qed.

Definition after (dev : bool) (ls : list label) : server :=
  default server_zero_data (play dev server_zero_data ls).

Definition calls_ok (n : nat) : list label := replicate n (Call true).

(** [server_init] with the regular file has ten calls, with the device nine. *)
Definition started_up (dev : bool) : list label := calls_ok (if dev then 9 else 10).

Definition accepted : label := Run (Connection all_well).

(** A client served to its end, the cleanup thread woken, and another client. *)
Definition two_clients : list label :=
  started_up false ++ [accepted; Client_step 0 (Some The_file) false; Client_step 0 (Some The_file) true;
    Client_step 0 None false; Client_step 0 None false; Cleanup; accepted;
    Client_step 1 None false].

(** A stop: the main thread leaves the loop. *)
Definition stopping (dev : bool) : list label :=
  started_up dev ++ [Timer; Clock true true; Signal; Run Select_interrupted].

(** A client with the mutex when the stop comes, and the exit up to its [n]th call,
    with the cleanup and the clock thread ending on the way. *)
Definition stopped_at (moves : list label) (n : nat) : list label :=
  started_up false ++ [accepted] ++ moves ++ [Signal; Run Select_interrupted] ++
  calls_ok 2 ++ [Cleanup; Call true; Clock true true; Call true] ++ calls_ok (n - 4).

Definition locks : label := Client_step 0 None false.

(** Clients whose streams are not there. *)
Definition no_dup : label := Run (Connection (Answers true true true false true true)).
Definition no_input : label := Run (Connection (Answers true true false true true true)).

(** Runs that end in each of the hazards. *)
Definition hazard_runs : list (list label * label) :=
  [ (* a signal before the clock's semaphore is created *)
    ([], Signal);
    (* a signal after it is destroyed *)
    (stopped_at [] 9, Signal);
    (* timer_create fails *)
    (calls_ok 8 ++ [Call false], Call true);
    (* the mutex is destroyed while a client holds it *)
    (stopped_at [locks] 6, Call true);
    (* a client uses the output file after it is closed *)
    (stopped_at [locks] 6, Client_step 0 (Some The_file) false);
    (* a client locks the mutex after it is destroyed *)
    (stopped_at [] 7, locks);
    (* a client that is done posts the semaphore after it is destroyed *)
    (stopped_at [locks; Client_step 0 (Some The_file) true; Client_step 0 None false] 8,
     Client_step 0 None false);
    (* malloc gives NULL for the first semaphore, and for a client *)
    ([], No_memory); (started_up false, No_memory);
    (* dup fails: the client's output is NULL when it is called on, and when it is closed *)
    (started_up false ++ [no_dup; locks], Client_step 0 (Some Its_output) false);
    (started_up false ++ [no_dup; locks; Client_step 0 None true; Client_step 0 None false],
     Client_step 0 None false);
    (* fdopen fails for the input *)
    (started_up false ++ [no_input; locks], Client_step 0 (Some Its_input) false) ].

Definition ends_undefined (dev : bool) (ls : list label) (l : label) : bool :=
  match play dev server_zero_data ls with
  | Some s => match server_step dev l s with Some Undef => true | _ => false end
  | None => false
  end.

Lemma ends_undefined_run dev ls l :
  ends_undefined dev ls l = true →
  ∃ s, steps dev server_zero_data ls s ∧ server_step dev l s = Some Undef.
Proof.
  unfold ends_undefined. destruct (play _ _ _) as [s|] eqn:Hp; [|done]. intros Hs. exists s.
  split; [by apply play_steps|]. by destruct (server_step dev l s) as [[]|].
Qed.

(** Each of the hazards is met by a run of the server with the regular file. *)
Lemma hazards_happen :
  Forall (λ '(ls, l), ∃ s, steps false server_zero_data ls s ∧
    server_step false l s = Some Undef) hazard_runs.
Proof.
  repeat (constructor; [apply ends_undefined_run; by vm_compute|]). constructor.
Qed.

Lemma two_clients_steps : steps false server_zero_data two_clients (after false two_clients).
Proof. apply play_steps. by vm_compute. Qed.

Lemma stopping_steps dev : steps dev server_zero_data (stopping dev) (after dev (stopping dev)).
Proof. apply play_steps. by destruct dev; vm_compute. Qed.

Lemma server_undefined_iff_witness :
  let s := after false (stopped_at [locks] 6) in
  server_step false (Client_step 0 (Some The_file) false) s = Some Undef.
Proof.
  apply (server_undefined_iff false (stopped_at [locks] 6)
    (after false (stopped_at [locks] 6)) (Client_step 0 (Some The_file) false));
    [apply play_steps; by vm_compute|].
  split; [|by vm_compute]. exists (Client 0 Talking). split; [by vm_compute|].
  exists The_file. split; [done|]. left. by vm_compute.
Defined.

Lemma exit_safe_without_clients_witness :
  let ls := stopping true in
  let ls' := calls_ok 2 ++ [Cleanup; Call true; Clock true true] ++ calls_ok 6 in
  Signal = Signal ∧ clock_sem (after true (ls ++ ls')) = None ∨
  main (after true (ls ++ ls')) = Leaving Delete_timer false ∧
  timer (after true (ls ++ ls')) = Some None.
Proof.
  apply (exit_safe_without_clients true (stopping true) (after true (stopping true))
    (calls_ok 2 ++ [Cleanup; Call true; Clock true true] ++ calls_ok 6)).
  - apply stopping_steps.
  - by vm_compute.
  - vm_compute. constructor.
  - apply play_steps. by vm_compute.
  - by vm_compute.
Defined.

Lemma clients_never_reaped_witness :
  let s := after false two_clients in
  (length (clients s) = 2%nat ∧ cleanup_thread s = Ended) ∧
  thread_list s = [] ∧ (∀ c, c ∈ clients s → is_Some (infos s !! info c)) ∧
  (length (clients s) ≤ size (infos s))%nat ∧
  ∀ s', cleanup_step s = Some (Done s') → cleanup_thread s' = Ended ∧ infos s' = infos s.
Proof.
  split; [by vm_compute|].
  apply (clients_never_reaped false two_clients (after false two_clients) two_clients_steps).
Defined.

Lemma one_client_talks_witness :
  (1 = 1)%nat ∧ output_file_mutex (after false two_clients) = Held (By_client 1) ∧
  clock_in_file (clock_thread (after false two_clients)) = false.
Proof.
  apply (one_client_talks false two_clients (after false two_clients) 1 1
    (Client 1 Talking) (Client 1 Talking)); [apply two_clients_steps|by vm_compute..].
Defined.


(** [bind] fails. *)
Definition bind_fails : list label := calls_ok 6 ++ [Call false].

Lemma exit_without_stop_hangs_witness :
  let s' := after false (bind_fails ++ calls_ok 2 ++ [Cleanup; Call true]) in
  before_clock s' ∧ should_stop s' = false ∧ ticking (clock_thread s') = true.
Proof.
  apply (exit_without_stop_hangs false (after false bind_fails)
    (calls_ok 2 ++ [Cleanup; Call true]) (after false (bind_fails ++ calls_ok 2 ++ [Cleanup; Call true]))).
  - split; [exists Delete_timer, false|]; by vm_compute.
  - by vm_compute.
  - by vm_compute.
  - apply play_steps. by vm_compute.
  - by repeat constructor.
Defined.

(** A client that has sent nothing yet, another one, the clock's tick and a stop. *)
Definition silent : list label := started_up false ++ [accepted; locks; accepted].

Definition others_move : list label :=
  [Timer; Clock true true; Signal; Run Select_interrupted] ++ calls_ok 2 ++ [Cleanup; Call true].

Lemma silent_client_blocks_witness :
  let s := after false silent in let s' := after false (silent ++ others_move) in
  (clients s !! 1%nat = Some (Client 1 Locking) ∧ main s' = Leaving Join_clock true) ∧
  clients s' !! 0%nat = Some (Client 0 Talking) ∧
  (∀ j d, clients s !! j = Some d → point d = Locking → clients s' !! j = Some d) ∧
  (∀ j d, clients s' !! j = Some d → in_file d = true → j = 0%nat) ∧
  clock_in_file (clock_thread s') = false ∧ ∀ st, main s' ≠ Returned st.
Proof.
  split; [by vm_compute|].
  apply (silent_client_blocks false silent (after false silent) others_move
    (after false (silent ++ others_move)) 0 (Client 0 Talking));
    [apply play_steps; by vm_compute|by vm_compute..|apply play_steps; by vm_compute|by repeat constructor].
Defined.
