(* ===== verification/System.v ===== *)
(** * The complete server (server/server_impl.c, server.c)

    [Lifecycle] and [ServerSessions] together: the threads of the life cycle
    take the steps of their conversations and of the clock's lines, on the one
    stream that [data->output_file] points to.  The stream is there from [fopen]
    to [fclose], whoever is using it. *)

From S2P Require Import Prelude Kernel Stdio OutputFile ServerProtocol Timestamp Interleaving Serializability ServerSessions Lifecycle.

(** The stream, as long as it is open: a call on NULL or on a closed stream is
    undefined. *)
#[export] Instance open_stream {D} : OnStream (option (FILE D)) D := λ A m s,
  match s with
  | Some f => '(a, f) ← m f; Done (a, Some f)
  | None => Undef
  end.

(** ** The network *)

(** How far a client's streams have got on the network: bytes of its input still
    [coming], whether the end of the input has been seen, and how many bytes of
    output the client and what is on the way to it take so far ([None]: all). *)
Record traffic := Traffic {
  coming : nat;
  closed : bool;
  window : option nat;
}.

#[export] Instance traffic_eq_dec : EqDecision traffic.
Proof. solve_decision. Defined.

Definition all_through : traffic := Traffic 0 true None.

(** The bytes that [fgets] can have without waiting. *)
Definition arrived (t : traffic) (i : instream) : list ascii :=
  take (length (unread i) - coming t) (unread i).

(** [fgets] waits for a newline, a full buffer, or the end of the input. *)
Definition input_ready (t : traffic) (i : instream) : bool :=
  enough (Z.to_nat (BUFFER_SIZE - 1)) (arrived t i) || (bool_decide (coming t = 0)%nat && closed t).

(** [fwrite] waits until all bytes are taken, or the connection is broken. *)
Definition output_ready (t : traffic) (l : list ascii) (o : outstream) : bool :=
  match window t with
  | None => true
  | Some w => bool_decide (length (sent o) + length l ≤ w)%nat
  end.

(** The network only goes on. *)
Definition goes_on (t t' : traffic) : bool :=
  bool_decide (coming t' ≤ coming t)%nat && implb (closed t) (closed t') &&
  match window t, window t' with
  | _, None => true
  | Some w, Some w' => bool_decide (w ≤ w')%nat
  | None, Some _ => false
  end.

(** What a conversation runs on: the server's stream, the client's traffic, and
    whether its input and its output are there (they are not NULL). *)
Record line_state (D : Type) := LineState {
  open_file : option (FILE D);
  net : traffic;
  there : bool * bool;
}.
Arguments LineState {D} open_file net there.
Arguments open_file {D} l.
Arguments net {D} l.
Arguments there {D} l.

#[export] Instance line_stream {D} : OnStream (line_state D) D := λ A m s,
  '(a, f) ← on_stream m (open_file s); Done (a, LineState f (net s) (there s)).

(** A call on a stream that may be NULL and may have to wait. *)
Definition socket_call (is_there ready : bool) : option (outcome unit) :=
  if negb is_there then Some Undef else if ready then Some (Done tt) else None.

#[export] Instance line_socket {D} : OnSocket (line_state D) := {
  receivable i s := socket_call (there s).1 (input_ready (net s) i);
  sendable l o s := socket_call (there s).2 (output_ready (net s) l o);
}.

(** ** The state *)

(** A client's streams as they will have been in the end, what the network has
    of them, and the rest of its [server_protocol]. *)
Record conversation (D : Type) := Conversation {
  given : sockets;
  carried : traffic;
  talk : prog (line_state D) (ret_t * sockets);
}.
Arguments Conversation {D} given carried talk.
Arguments given {D} c.
Arguments carried {D} c.
Arguments talk {D} c.

(** The [i]th conversation is that of the [i]th client; [now] is the local time
    of the clock's line. *)
Record system (D : Type) := System {
  life : server;
  file : option (FILE D);
  talks : list (conversation D);
  now : tm;
}.
Arguments System {D} life file talks now.
Arguments life {D} s.
Arguments file {D} s.
Arguments talks {D} s.
Arguments now {D} s.

(** What happens next: a call of the main thread in [server_init] or
    [server_exit], a [malloc] of it that gives NULL, a round of its loop (with the
    streams of the client, if it accepts one), a signal, the timer, a step of the cleanup, of the clock
    ([localtime] answers) and of a client thread, and the network's. *)
Inductive system_label :=
| Main_call (answer : bool)
| Main_no_memory
| Main_round (ev : event) (io : sockets)
| Stop_signal
| Timer_signal
| Cleanup_step
| Clock_step (localtime : option tm)
| Client_moves (i : nat)
| Network (i : nat) (t : traffic).

Section System.
Context {D : Type} `{Descriptor D}.

(** [found]: what is under [output_filename] when the server opens it. *)
Context (dev : bool) (found : D).

(** The stream goes with [data->output_file], from [fopen] (in [server_init], or
    for the device at the first client in [server_run]) to [fclose] (in
    [server_exit]). *)
Definition file_after (s s' : server) (f : option (FILE D)) : option (FILE D) :=
  match Lifecycle.output_file s, Lifecycle.output_file s' with
  | None, Some true => Some (fopen found)
  | Some true, Some false => None
  | _, _ => f
  end.

(** A step of the life cycle, with what else changes. *)
Definition life_step (l : label) (x : system D) (k : server → system D)
    : option (outcome (system D)) :=
  o ← server_step dev l (life x); Some (s ← o; Done (k s)).

Definition with_life (x : system D) (s : server) : system D :=
  System s (file_after (life x) s (file x)) (talks x) (now x).

(** Of a client that has just been accepted nothing has come, and it has taken
    nothing. *)
Definition nothing_through (io : sockets) : traffic :=
  Traffic (length (unread io.1)) false (Some 0%nat).

(** The accepted client starts with its whole conversation before it. *)
Definition serve (x : system D) (io : sockets) (s : server) : system D :=
  System s (file_after (life x) s (file x))
    (if bool_decide (length (clients (life x)) < length (clients s))%nat
     then talks x ++ [Conversation io (nothing_through io) (protocol_steps io)] else talks x)
    (now x).

(** A step that is a call on the stream, or one of the conversation. *)
Definition stream_step {S A} (o : option (outcome (A * S)))
    (k : A → S → option (outcome (system D))) : option (outcome (system D)) :=
  match o with
  | Some (Done (a, f)) => k a f
  | Some Undef => Some Undef
  | Some NoFuel => Some NoFuel
  | None => None
  end.

Definition result {S A} (p : prog S A) : option A :=
  match p with Ret a => Some a | _ => None end.

(** Which of its own streams a client has. *)
Definition streams_of (c : client) (s : server) : bool * bool :=
  (usable c Its_input s, usable c Its_output s).

(** Under the mutex a client goes on with its conversation; its last step is to
    leave it.  Which streams a step of the conversation calls on, and whether they
    can be called on, is for [step] to say. *)
Definition client_moves (i : nat) (x : system D) : option (outcome (system D)) :=
  c ← clients (life x) !! i;
  v ← talks x !! i;
  match point c with
  | Talking =>
      match result (talk v) with
      | Some _ => life_step (Client_step i None true) x (with_life x)
      | None =>
          let on := LineState (file x) (carried v) (streams_of c (life x)) in
          stream_step (step (talk v) on) (λ p' l,
            life_step (Client_step i None false) x (λ s,
              System s (open_file l) (<[i := Conversation (given v) (net l) p']> (talks x)) (now x)))
      end
  | _ => life_step (Client_step i None false) x (with_life x)
  end.

(** The clock's line is the time it took when it was woken. *)
Definition clock_moves (localtime : option tm) (x : system D) : option (outcome (system D)) :=
  let buffer := cstring (timestamp (now x)) in
  match clock_thread (life x) with
  | At Waiting =>
      life_step (Clock (bool_decide (is_Some localtime)) true) x (λ s,
        System s (file x) (talks x)
          (if bool_decide (clock_thread s = At At_mutex) then default (now x) localtime else now x))
  | At Writing =>
      stream_step (Some (on_stream (fwrite buffer) (file x))) (λ write_ret f,
        life_step (Clock true (bool_decide (strlen buffer = write_ret))) x (λ s,
          System s f (talks x) (now x)))
  | At Flushing =>
      stream_step (Some (on_stream fflush (file x))) (λ _ f,
        life_step (Clock true true) x (λ s, System s f (talks x) (now x)))
  | _ => life_step (Clock true true) x (with_life x)
  end.

(** Bytes arrive from a client or are taken by it. *)
Definition network (i : nat) (t : traffic) (x : system D) : option (outcome (system D)) :=
  v ← talks x !! i;
  if goes_on (carried v) t then
    Some (Done (System (life x) (file x) (<[i := Conversation (given v) t (talk v)]> (talks x)) (now x)))
  else None.

Definition system_step (l : system_label) (x : system D) : option (outcome (system D)) :=
  match main (life x) with
  | Returned _ => None
  | _ =>
      match l with
      | Main_call answer => life_step (Call answer) x (with_life x)
      | Main_no_memory => life_step No_memory x (with_life x)
      | Main_round ev io => life_step (Run ev) x (serve x io)
      | Stop_signal => life_step Signal x (with_life x)
      | Timer_signal => life_step Timer x (with_life x)
      | Cleanup_step => life_step Cleanup x (with_life x)
      | Clock_step localtime => clock_moves localtime x
      | Client_moves i => client_moves i x
      | Network i t => network i t x
      end
  end.

(** The start of [main]; [t0]: the local time before there is any. *)
Definition system_start (t0 : tm) : system D := System server_zero_data None [] t0.

(** A run of the server: the steps taken, in order. *)
Inductive system_run (x0 : system D) : list system_label → system D → Prop :=
| run_nil : system_run x0 [] x0
| run_snoc ls x l x' :
    system_run x0 ls x → system_step l x = Some (Done x') → system_run x0 (ls ++ [l]) x'.

(** The turns at the output file that a step may bring. *)
Definition offers (l : system_label) : list turn :=
  match l with
  | Main_round (Connection _) io => [Talk io.1 io.2]
  | Clock_step (Some time) => if dev then [] else [Tick time]
  | _ => []
  end.

Definition offered (ls : list system_label) : list turn := ls ≫= offers.
End System.
