(* ===== verification/SystemPool.v ===== *)
(** * The complete server as threads at its output file

    While the output file is open, every run of [System] is at the same time a
    run of the pool of turns of [ServerInterleavings]: a client arrives there when
    it is accepted, the clock's line when the clock gets to the mutex, and a step
    on the stream is a move of the pool. *)

From S2P Require Import Prelude Kernel Stdio OutputFile ServerProtocol Timestamp Interleaving Serializability ServerSessions Lifecycle LifecycleInvariant LifecycleTheorems System.
From Stdlib Require Import FunctionalExtensionality.

(** The whole of the client's input has come and all of its output is taken, on
    streams that are there. *)
Abbreviation flowing f := (LineState f all_through (true, true)).

(** ** The conversation on the open stream and under the mutex *)
Section Shared.
Context {D : Type} `{Descriptor D}.

Definition shared_act {B} (act : line_state D → option (outcome (B * line_state D)))
    (s : shared_file D) : option (outcome (B * shared_file D)) :=
  match act (flowing (Some (stream s))) with
  | Some (Done (b, LineState (Some f) _ _)) => Some (Done (b, SharedFile (file_mutex s) f))
  | Some (Done (_, LineState None _ _)) | Some Undef => Some Undef
  | Some NoFuel => Some NoFuel
  | None => None
  end.

Fixpoint shared_prog {A} (p : prog (line_state D) A) : prog (shared_file D) A :=
  match p with
  | Ret a => Ret a
  | Act act k => Act (shared_act act) (λ b, shared_prog (k b))
  | DoWhile body cond x k =>
      DoWhile (λ x, shared_prog (body x)) (λ x, shared_prog (cond x)) x (λ o, shared_prog (k o))
  end.

Lemma shared_bind {A B} (p : prog (line_state D) A) (f : A → prog (line_state D) B) :
  shared_prog (p ≫= f) = shared_prog p ≫= λ a, shared_prog (f a).
Proof.
  unfold mbind, prog_bind.
  induction p as [A a|A Y act k IH|A X R body _ cond _ x k IH]; simpl; [done|..];
    f_equal; apply functional_extensionality; intros; apply IH.
Qed.

Lemma shared_use {A} (m : M (FILE D) A) : shared_prog (use m) = use m.
Proof.
  unfold use, atomic. simpl. f_equal. apply functional_extensionality. intros s.
  unfold shared_act, on_stream, line_stream, on_stream, open_stream, shared_stream, mbind, outcome_bind.
  simpl. by destruct (m (stream s)) as [[a f]| |].
Qed.

Lemma shared_own {A} ready ready' (a : A) :
  (∀ f, ready (flowing f) = Some (Done tt)) → (∀ s, ready' s = Some (Done tt)) →
  shared_prog (own ready a) = own ready' a.
Proof.
  intros Hr Hr'. unfold own. simpl. f_equal. apply functional_extensionality. intros [b f].
  unfold shared_act, own_act. by rewrite Hr, Hr'.
Qed.

Lemma all_arrived i : input_ready all_through i = true.
Proof. unfold input_ready. apply orb_true_r. Qed.

Lemma shared_fgets n i : shared_prog (socket_fgets n i) = socket_fgets n i.
Proof. apply shared_own; [|done]. intros f. simpl. by rewrite all_arrived. Qed.

Lemma shared_fwrite l o : shared_prog (socket_fwrite l o) = socket_fwrite l o.
Proof. by apply shared_own. Qed.

Lemma shared_lift {A} (o : outcome A) : shared_prog (atomic (lift o)) = atomic (lift o).
Proof.
  unfold atomic. simpl. f_equal. apply functional_extensionality. intros [b f].
  unfold shared_act, lift, mbind, outcome_bind. by destruct o.
Qed.

Lemma shared_loop {A} body body' io :
  (∀ io, shared_prog (body io) = body' io) →
  shared_prog (@loop (line_state D) A body io) = loop body' io.
Proof.
  intros Hb. unfold loop, do_while_p. simpl. f_equal. by apply functional_extensionality.
Qed.

(** [shared] goes through the code of the conversation. *)
Ltac shared :=
  repeat first
    [ reflexivity
    | rewrite shared_bind | rewrite shared_use | rewrite shared_fgets | rewrite shared_fwrite | rewrite shared_lift
    | match goal with
      | |- _ ≫= _ = _ ≫= _ => f_equal; apply functional_extensionality; intros
      | |- shared_prog (match ?x with _ => _ end) = _ => destruct x
      | |- shared_prog (let '(_, _) := ?x in _) = _ => destruct x
      end ].

Lemma shared_receive io : shared_prog (receive_steps io) = receive_steps io.
Proof. unfold receive_steps. shared. Qed.

Lemma shared_reply io : shared_prog (reply_steps io) = reply_steps io.
Proof. unfold reply_steps. shared. Qed.

Lemma shared_protocol io : shared_prog (protocol_steps io) = protocol_steps io.
Proof.
  unfold protocol_steps, position_steps, send_steps.
  rewrite shared_bind, (shared_loop _ receive_steps) by apply shared_receive.
  f_equal. apply functional_extensionality. intros [io'|[[b|r] io']]; [done| |done].
  rewrite shared_bind. f_equal; [|by destruct b; shared].
  apply functional_extensionality. intros _. rewrite shared_bind, shared_use. f_equal.
  apply functional_extensionality. intros _.
  rewrite shared_bind, (shared_loop _ reply_steps) by apply shared_reply.
  f_equal. apply functional_extensionality. intros [io''|[[u|r] io'']]; shared.
Qed.

(** Both take the same steps when the client's bytes are there. *)
Lemma shared_step {A} (p : prog (line_state D) A) b f :
  step (shared_prog p) (SharedFile b f)
  = match step p (flowing (Some f)) with
    | Some (Done (p', LineState (Some f') _ _)) => Some (Done (shared_prog p', SharedFile b f'))
    | Some (Done (_, LineState None _ _)) | Some Undef => Some Undef
    | Some NoFuel => Some NoFuel
    | None => None
    end.
Proof.
  destruct p as [a|Y act k|X R body cond x k]; simpl; [done| |].
  - unfold shared_act. simpl. by destruct (act _) as [[[y [[f'|] t h]]| |]|].
  - rewrite shared_bind. do 4 f_equal. apply functional_extensionality. intros [x'|r]; [|done].
    rewrite shared_bind. f_equal. by apply functional_extensionality; intros [].
Qed.

(** The same action at its ease. *)
Definition at_ease {A} (o : option (outcome (A * line_state D)))
    : option (outcome (A * line_state D)) :=
  match o with
  | Some (Done (a, l)) => Some (Done (a, flowing (open_file l)))
  | _ => o
  end.

(** An action of the conversation leaves the stream open and the client's side
    alone; once the client's bytes are there it does what it would have done,
    unless a stream of the client's is NULL; and whether it waits, which it does
    for the network only, has nothing to do with the file. *)
Record waits_or_acts B (act : line_state D → option (outcome (B * line_state D))) : Prop :=
    WaitsOrActs {
  acts_open l b l' : act l = Some (Done (b, l')) → is_Some (open_file l) → is_Some (open_file l');
  acts_net l b l' : act l = Some (Done (b, l')) → net l' = net l ∧ there l' = there l;
  acts_same f t h o :
    act (LineState f t h) = Some o →
    act (flowing f) = at_ease (Some o) ∨ o = Undef ∧ h ≠ (true, true);
  acts_waits f t h :
    act (LineState f t h) = None →
    t ≠ all_through ∧ ∀ f' h' b l, act (LineState f' t h') ≠ Some (Done (b, l));
}.

Definition conversing {A} (p : prog (line_state D) A) : Prop := every waits_or_acts p.

(** A call on a stream of the client's own. *)
Lemma own_waits_or_acts {A} (mine : bool * bool → bool) (ready : traffic → bool) (a : A) :
  mine (true, true) = true → ready all_through = true →
  waits_or_acts A (own_act (λ l, socket_call (mine (there l)) (ready (net l))) a).
Proof.
  intros Hm Hr. unfold own_act, socket_call. split.
  - intros l b l'. destruct (mine (there l)), (ready (net l)); simpl; [|done..]. by intros [= _ <-].
  - intros l b l'. destruct (mine (there l)), (ready (net l)); simpl; [|done..]. by intros [= _ <-].
  - intros f t h o. simpl. rewrite Hm, Hr. simpl. destruct (mine h) eqn:Hh; simpl.
    + destruct (ready t); [|done]. intros [= <-]. by left.
    + intros [= <-]. right. split; [done|]. intros ->. congruence.
  - intros f t h. simpl. destruct (mine h); [|done]. simpl. destruct (ready t) eqn:Ht; [done|].
    intros _. split; [congruence|]. intros f' h' b l. by destruct (mine h').
Qed.

Lemma conversation_calls : holds_of_calls waits_or_acts.
Proof.
  split.
  - intros A m. unfold on_stream, line_stream, on_stream, open_stream. split.
    + intros [[f|] t h] a l'; simpl; [|done]. destruct (m f) as [[b f']| |]; [|done..].
      intros [= <- <-] _. by eexists.
    + intros [[f|] t h] a l'; simpl; [|done]. destruct (m f) as [[b f']| |]; [|done..].
      by intros [= <- <-].
    + intros [f|] t h o; simpl; [|intros [= <-]; by left]. intros [= <-]. left.
      by destruct (m f) as [[b f']| |].
    + done.
  - intros n i. apply (own_waits_or_acts fst (λ t, input_ready t i)); [done|apply all_arrived].
  - intros l o. by apply (own_waits_or_acts snd (λ t, output_ready t l o)).
  - intros A x. unfold lift. split.
    + intros l b l'. destruct x; [|done..]. by intros [= _ <-].
    + intros l b l'. destruct x; [|done..]. by intros [= _ <-].
    + intros f t h o [= <-]. left. by destruct x.
    + done.
Qed.

Lemma protocol_conversing io : conversing (protocol_steps io).
Proof. apply protocol_every, conversation_calls. Qed.

(** A step of the conversation is one that the pool can take too. *)
Lemma conversing_step {A} (p : prog (line_state D) A) f t h p' l :
  conversing p → step p (LineState (Some f) t h) = Some (Done (p', l)) →
  ∃ f', l = LineState (Some f') t h ∧ conversing p' ∧
    step p (flowing (Some f)) = Some (Done (p', flowing (Some f'))).
Proof.
  intros Hp Hs. pose proof (every_step _ _ _ _ _ Hp Hs) as Hp'.
  destruct p as [a|Y act k|X R body cond x k]; simpl in *; [done| |].
  - destruct Hp as [Hact _].
    destruct (act (LineState (Some f) t h)) as [[[b [f' t' h']]| |]|] eqn:E; [|done..].
    injection Hs as <- <-. destruct (acts_open _ _ Hact _ _ _ E) as [f1 Hf1]; [by eexists|].
    simpl in Hf1. subst f'. destruct (acts_net _ _ Hact _ _ _ E) as [Ht Hh]. simpl in *. subst t' h'.
    destruct (acts_same _ _ Hact _ _ _ _ E) as [->|[? _]]; [|done]. by exists f1.
  - injection Hs as <- <-. by exists f.
Qed.

(** Where it waits, it waits for the network, whatever else there is. *)
Lemma conversing_waits {A} (p : prog (line_state D) A) f t h :
  conversing p → step p (LineState f t h) = None → (∀ a, p ≠ Ret a) →
  t ≠ all_through ∧ ∀ f' h' p' l, step p (LineState f' t h') ≠ Some (Done (p', l)).
Proof.
  intros Hp Hs Hr. destruct p as [a|Y act k|X R body cond x k]; simpl in *; [by destruct (Hr a)| |done].
  destruct Hp as [Hact _]. destruct (act (LineState f t h)) as [[[b l]| |]|] eqn:E; try done.
  destruct (acts_waits _ _ Hact _ _ _ E) as [Ht Hw]. split; [done|]. intros f' h' p' l.
  destruct (act (LineState f' t h')) as [[[b l']| |]|] eqn:E'; [|done..]. by destruct (Hw _ _ _ _ E').
Qed.

Lemma conversing_net {A} (p : prog (line_state D) A) l p' l' :
  conversing p → step p l = Some (Done (p', l')) → net l' = net l.
Proof.
  intros Hp Hs. destruct p as [a|Y act k|X R body cond x k]; simpl in *; [done| |by injection Hs as _ <-].
  destruct Hp as [Hact _]. destruct (act l) as [[[b l1]| |]|] eqn:E; simplify_eq.
  by destruct (acts_net _ _ Hact _ _ _ E).
Qed.

Lemma conversing_fails {A} (p : prog (line_state D) A) f t h o :
  conversing p → step p (LineState f t h) = Some o →
  match o with
  | Done _ => True
  | _ => step p (flowing f) = Some o ∨ o = Undef ∧ h ≠ (true, true)
  end.
Proof.
  intros Hp Hs. destruct p as [a|Y act k|X R body cond x k]; simpl in *; [done| |by simplify_eq].
  destruct Hp as [Hact _]. destruct (act (LineState f t h)) as [[[b l]| |]|] eqn:E; simplify_eq;
    [done|..]; (destruct (acts_same _ _ Hact _ _ _ _ E) as [-> |[? ?]]; [by left|by right]).
Qed.
End Shared.

(** ** The link *)
#[local] Arguments timestamp : simpl never.
#[local] Arguments cstring : simpl never.
#[local] Arguments strlen : simpl never.

Section Link.
Context {D : Type} `{Descriptor D} (dev : bool) (found : D).
Implicit Types x : system D.

(** The turn of a client, from what is left of it in the system. *)
Definition finish (p : prog (shared_file D) (ret_t * sockets)) : prog (shared_file D) turn_result :=
  '(r, io) ← p; unlock_file;; mret (Talked r io.1 io.2).

Definition client_turn (p : client_point) (v : conversation D)
    (q : prog (shared_file D) turn_result) : Prop :=
  match p with
  | Locking => talk v = protocol_steps (given v) ∧ q = talk_steps (given v)
  | Talking => conversing (talk v) ∧ q = finish (shared_prog (talk v))
  | Unlocking => ∃ r io, talk v = Ret (r, io) ∧ q = finish (Ret (r, io))
  | Signaling | Gone => ∃ r io, talk v = Ret (r, io) ∧ q = Ret (Talked r io.1 io.2)
  end.

(** The turn of the clock's line. *)
Definition clock_turn (p : clock_point) (time : tm) (q : prog (shared_file D) turn_result) : Prop :=
  let buffer := cstring (timestamp time) in
  let flush := _ ← use fflush; unlock_file;; mret (Ticked RET_OK) in
  match p with
  | Waiting => False
  | At_mutex => q = tick_steps time
  | Writing =>
      q = (write_ret ← use (fwrite buffer);
           if bool_decide (strlen buffer ≠ write_ret) then unlock_file;; mret (Ticked RET_ERR)
           else flush)
  | Flushing => q = flush
  | Releasing ok => q = (unlock_file;; mret (Ticked (if ok then RET_OK else RET_ERR)))
  end.

(** Whether the clock has a line for the file. *)
Definition has_line (t : thread_state clock_point) : option clock_point :=
  match t with At Waiting => None | At p => Some p | _ => None end.

Definition is_held (m : mutex) : bool := match m with Held _ => true | _ => false end.

(** The stream of the pool is that of the system; [ids] are the threads of the
    clients, [line] that of the clock's line; all others are lines of the past. *)
Record linked (x : system D) (cf : config (shared_file D) turn turn_result)
    (ids : list nat) (line : option nat) : Prop := Linked {
  link_file :
    match Lifecycle.output_file (life x) with
    | None => file x = None ∧ stream (shared cf) = fopen found
    | Some true => file x = Some (stream (shared cf))
    | Some false => False
    end;
  link_mutex : file_mutex (shared cf) = is_held (output_file_mutex (life x));
  link_talks : length (talks x) = length (clients (life x));
  link_ids : length ids = length (clients (life x));
  link_client i c v k :
    clients (life x) !! i = Some c → talks x !! i = Some v → ids !! i = Some k →
    ∃ q, threads cf !! k = Some (Thread (Talk (given v).1 (given v).2) q) ∧
      client_turn (point c) v q;
  link_line :
    match has_line (clock_thread (life x)), line with
    | Some p, Some k =>
        ∃ q, threads cf !! k = Some (Thread (Tick (now x)) q) ∧ clock_turn p (now x) q
    | None, None => True
    | _, _ => False
    end;
  link_nodup : NoDup (ids ++ option_list line);
  link_others k t :
    threads cf !! k = Some t → k ∉ ids → line ≠ Some k →
    ∃ time r, t = Thread (Tick time) (Ret r);
}.

Lemma start_linked t0 :
  linked (system_start t0) (idle (SharedFile false (fopen found))) [] None.
Proof. split; simpl; try done. constructor. Qed.

(** A step that touches nothing of the link. *)
Lemma link_same x x' cf ids line :
  linked x cf ids line →
  match Lifecycle.output_file (life x') with
  | None => file x' = None ∧ stream (shared cf) = fopen found
  | Some true => file x' = Some (stream (shared cf))
  | Some false => False
  end →
  is_held (output_file_mutex (life x')) = is_held (output_file_mutex (life x)) →
  talks x' = talks x → now x' = now x → clients (life x') = clients (life x) →
  has_line (clock_thread (life x')) = has_line (clock_thread (life x)) →
  linked x' cf ids line.
Proof.
  intros [] Hf Hm Ht Hn Hc Hk. by split; rewrite ?Hm, ?Ht, ?Hn, ?Hc, ?Hk.
Qed.

(** The client [i] and its thread [k] in the pool go on. *)
Lemma link_client_step x x' cf ids line i c v k p' v' q' b f o :
  linked x cf ids line → clients (life x) !! i = Some c → talks x !! i = Some v →
  ids !! i = Some k → given v' = given v → client_turn p' v' q' →
  Lifecycle.output_file (life x) = Some true → Lifecycle.output_file (life x') = Some true →
  file x' = Some f → is_held (output_file_mutex (life x')) = b →
  clients (life x') = alter (λ c, Client (info c) p') i (clients (life x)) →
  talks x' = <[i := v']> (talks x) → now x' = now x →
  clock_thread (life x') = clock_thread (life x) →
  linked x' (Config (SharedFile b f)
    (<[k := Thread (Talk (given v).1 (given v).2) q']> (threads cf)) o) ids line.
Proof.
  intros [] Hc Hv Hk Hg Hq Ho Ho' Hf Hb Hcs Hts Hn Hck.
  destruct (link_client0 i c v k Hc Hv Hk) as (q & Hq0 & _).
  assert (Hlen : (k < length (threads cf))%nat) by by eapply lookup_lt_Some.
  apply NoDup_app in link_nodup0 as (Hnd & Hdis & Hnl).
  assert (Hkin : k ∈ ids) by by eapply list_elem_of_lookup_2.
  split; simpl; rewrite ?Ho', ?Hcs, ?Hts, ?Hn, ?Hck; try done.
  - by rewrite length_insert, length_alter.
  - by rewrite length_alter.
  - intros j c' v1 k' Hc' Hv' Hk'. destruct (decide (i = j)) as [<-|Hij].
    + rewrite list_lookup_alter_eq, Hc in Hc'. injection Hc' as <-.
      rewrite list_lookup_insert_eq in Hv' by by eapply lookup_lt_Some. injection Hv' as <-.
      assert (k' = k) as -> by congruence. exists q'. rewrite Hg. simpl.
      by rewrite list_lookup_insert_eq.
    + rewrite list_lookup_alter_ne in Hc' by done. rewrite list_lookup_insert_ne in Hv' by done.
      assert (k ≠ k') by (intros <-; apply Hij; exact (NoDup_lookup _ _ _ _ Hnd Hk Hk')).
      rewrite list_lookup_insert_ne by done. by eapply link_client0.
  - destruct (has_line _), line as [l|]; try done.
    assert (k ≠ l) by (intros <-; by apply (Hdis k Hkin), list_elem_of_singleton).
    by rewrite list_lookup_insert_ne.
  - apply NoDup_app. by split_and!.
  - intros k' t Hk' Hni Hnk. rewrite list_lookup_insert_ne in Hk' by by intros <-. by eapply link_others0.
Qed.

(** The clock's line and its thread [k] in the pool go on. *)
Lemma link_line_step x x' cf ids p k q' b f o :
  linked x cf ids (Some k) → has_line (clock_thread (life x)) = Some p →
  (if has_line (clock_thread (life x')) is Some p' then clock_turn p' (now x) q'
   else ∃ r, q' = Ret (Ticked r)) →
  Lifecycle.output_file (life x') = Some true → file x' = Some f →
  is_held (output_file_mutex (life x')) = b →
  clients (life x') = clients (life x) → talks x' = talks x → now x' = now x →
  linked x' (Config (SharedFile b f) (<[k := Thread (Tick (now x)) q']> (threads cf)) o) ids
    (if has_line (clock_thread (life x')) is Some _ then Some k else None).
Proof.
  intros [] Hp Hp' Ho Hf Hb Hc Ht Hn. rewrite Hp in link_line0.
  destruct link_line0 as (q & Hq & _).
  assert (Hlen : (k < length (threads cf))%nat) by by eapply lookup_lt_Some.
  apply NoDup_app in link_nodup0 as (Hnd & Hdis & Hnl).
  assert (Hnin : k ∉ ids) by (intros Hin; by apply (Hdis k Hin), list_elem_of_singleton).
  split; simpl; rewrite ?Ho, ?Hc, ?Ht, ?Hn; try done.
  - intros i c v j Hci Hvi Hji. assert (k ≠ j).
    { intros <-. apply Hnin. by eapply list_elem_of_lookup_2. }
    rewrite list_lookup_insert_ne by done. by eapply link_client0.
  - destruct (has_line (clock_thread (life x'))); [|done]. exists q'. by rewrite list_lookup_insert_eq.
  - destruct (has_line (clock_thread (life x'))); [apply NoDup_app; by split_and!|]. simpl. by rewrite app_nil_r.
  - intros j t Hj Hni Hnl'. destruct (decide (k = j)) as [<-|Hkj].
    + destruct (has_line (clock_thread (life x'))); [done|]. rewrite list_lookup_insert_eq in Hj by done. injection Hj as <-.
      destruct Hp' as [r ->]. by do 2 eexists.
    + rewrite list_lookup_insert_ne in Hj by done. eapply link_others0; [done..|]. congruence.
Qed.

(** A client arrives. *)
Lemma link_arrive x x' cf ids line a io f :
  linked x cf ids line → Lifecycle.output_file (life x') = Some true → file x' = Some f →
  f = stream (shared cf) →
  is_held (output_file_mutex (life x')) = is_held (output_file_mutex (life x)) →
  clients (life x') = clients (life x) ++ [Client a Locking] →
  talks x' = talks x ++ [Conversation io (nothing_through io) (protocol_steps io)] → now x' = now x →
  clock_thread (life x') = clock_thread (life x) →
  linked x' (Config (shared cf) (threads cf ++ [Thread (Talk io.1 io.2) (talk_steps io)]) (order cf))
    (ids ++ [length (threads cf)]) line.
Proof.
  intros [] Ho Hf -> Hm Hc Ht Hn Hck.
  assert (Hold : ∀ k t, threads cf !! k = Some t → (k < length (threads cf))%nat)
    by (intros; by eapply lookup_lt_Some).
  assert (Hids : ∀ i k, ids !! i = Some k → (k < length (threads cf))%nat).
  { intros i k Hk. destruct (lookup_lt_is_Some_2 (clients (life x)) i) as [c Hci].
    { rewrite <- link_ids0. by eapply lookup_lt_Some. }
    destruct (lookup_lt_is_Some_2 (talks x) i) as [v Hvi].
    { rewrite link_talks0. by eapply lookup_lt_Some. }
    destruct (link_client0 i c v k Hci Hvi Hk) as (q & Hq & _). by eapply Hold. }
  split; simpl; rewrite ?Ho, ?Hc, ?Ht, ?Hn, ?Hm, ?Hck, ?length_app; simpl; try done; try lia.
  - intros i c v k Hci Hvi Hki.
    destruct (decide (i < length (clients (life x)))%nat) as [Hlt|Hge].
    + rewrite lookup_app_l in Hci by lia. rewrite lookup_app_l in Hvi by lia.
      rewrite lookup_app_l in Hki by lia.
      destruct (link_client0 i c v k Hci Hvi Hki) as (q & Hq & Hcq). exists q.
      split; [by apply lookup_app_l_Some|done].
    + rewrite lookup_app_r in Hci by lia. rewrite lookup_app_r in Hvi by lia.
      rewrite lookup_app_r in Hki by lia.
      apply list_lookup_singleton_Some in Hci as [Hi <-], Hvi as [_ <-], Hki as [_ <-].
      exists (talk_steps io). simpl. rewrite lookup_app_r, Nat.sub_diag by lia. by destruct io.
  - destruct (has_line _), line as [l|]; try done. destruct link_line0 as (q & Hq & Hcq).
    exists q. split; [by apply lookup_app_l_Some|done].
  - apply NoDup_app in link_nodup0 as (Hnd & Hdis & Hnl). apply NoDup_app. split; [|split; [|done]].
    + apply NoDup_app. split; [done|]. split; [|apply NoDup_singleton].
      intros k [i Hi]%list_elem_of_lookup ->%list_elem_of_singleton. apply Hids in Hi. lia.
    + intros k [Hk| ->%list_elem_of_singleton]%elem_of_app Hl; [by apply (Hdis k)|].
      destruct line as [l|]; [|by apply elem_of_nil in Hl]. apply list_elem_of_singleton in Hl as <-.
      destruct (has_line _); [|done]. destruct link_line0 as (q & Hq & _). apply Hold in Hq. lia.
  - intros k t Hk Hni Hnl. apply lookup_app_Some in Hk as [Hk|[Hge Hk]].
    + apply (link_others0 k t Hk); [|done]. intros Hin. apply Hni, elem_of_app. by left.
    + apply list_lookup_singleton_Some in Hk as [Hk <-]. destruct Hni. apply elem_of_app. right.
      apply list_elem_of_singleton. lia.
Qed.

(** A line of the clock arrives. *)
Lemma link_line_arrive x x' cf ids :
  linked x cf ids None → has_line (clock_thread (life x')) = Some At_mutex →
  Lifecycle.output_file (life x') = Lifecycle.output_file (life x) → file x' = file x →
  is_held (output_file_mutex (life x')) = is_held (output_file_mutex (life x)) →
  clients (life x') = clients (life x) → talks x' = talks x →
  linked x' (Config (shared cf) (threads cf ++ [Thread (Tick (now x')) (tick_steps (now x'))])
    (order cf)) ids (Some (length (threads cf))).
Proof.
  intros [] Hl Ho Hf Hm Hc Ht.
  split; simpl; rewrite ?Ho, ?Hf, ?Hc, ?Ht, ?Hm, ?Hl; try done.
  - intros i c v k Hci Hvi Hki. destruct (link_client0 i c v k Hci Hvi Hki) as (q & Hq & Hcq).
    exists q. split; [by apply lookup_app_l_Some|done].
  - exists (tick_steps (now x')). by rewrite lookup_app_r, Nat.sub_diag by lia.
  - apply NoDup_app in link_nodup0 as (Hnd & _ & _). apply NoDup_app.
    split; [done|]. split; [|apply NoDup_singleton].
    intros k [i Hi]%list_elem_of_lookup ->%list_elem_of_singleton.
    destruct (lookup_lt_is_Some_2 (clients (life x)) i) as [c Hci].
    { rewrite <- link_ids0. by eapply lookup_lt_Some. }
    destruct (lookup_lt_is_Some_2 (talks x) i) as [v Hvi].
    { rewrite link_talks0. by eapply lookup_lt_Some. }
    destruct (link_client0 i c v _ Hci Hvi Hi) as (q & Hq & _). apply lookup_lt_Some in Hq. lia.
  - intros k t Hk Hni Hnl. apply lookup_app_Some in Hk as [Hk|[Hge Hk]].
    + by apply (link_others0 k t Hk).
    + apply list_lookup_singleton_Some in Hk as [Hk <-]. destruct Hnl. f_equal. lia.
Qed.

(** Moves of the pool. *)
Lemma move_done (cf : config (shared_file D) turn turn_result) k c q q' s' :
  threads cf !! k = Some (Thread c q) → step q (shared cf) = Some (Done (q', s')) →
  ∃ o, move k cf = Some (Done (Config s' (<[k := Thread c q']> (threads cf)) o)).
Proof. intros Hk Hq. unfold move. rewrite Hk. simpl. rewrite Hq. simpl. by eexists. Qed.

(** ** What the life cycle does to the link *)

(** [data->output_file] stays, or it is opened. *)
Definition opens (s s' : server) : Prop :=
  Lifecycle.output_file s' = Lifecycle.output_file s ∨
  Lifecycle.output_file s = None ∧ Lifecycle.output_file s' = Some true.

Lemma frame_link l s s' :
  server_inv dev s → server_step dev l s = Some (Done s') →
  match l with Run _ | Clock _ _ | Client_step _ _ _ => False | _ => True end →
  Lifecycle.output_file s' ≠ Some false →
  has_line (clock_thread s') = has_line (clock_thread s) ∧
  is_held (output_file_mutex s') = is_held (output_file_mutex s) ∧ opens s s'.
Proof.
  intros [_ Hlive] Hs Hl Ho. pose proof (live_no_clock _ _ Hlive) as Hk.
  pose proof (live_closed _ _ Hlive) as Hcl. unfold opens.
  rewrite server_step_live in Hs by by eapply step_not_returned.
  destruct l as [answer| |ev| | | |lt fw|i uses last]; try done; try by apply malloc_undefined in Hs.
  - unfold main_call, server_init, server_exit, sem_post in Hs. by_cases Hs; auto.
    + destruct (Lifecycle.output_file s) as [[]|]; auto. by specialize (Hcl eq_refl).
    + rewrite (Hk Create_clock eq_refl eq_refl). auto.
  - unfold server_stop, sem_post in Hs. simpl in Hs. by_cases Hs; auto.
  - unfold timer_callback in Hs. by_cases Hs; auto.
  - unfold cleanup_step, cleanup_thread_body in Hs. by_cases Hs; auto.
Qed.

Lemma frame_run ev s :
  server_inv dev s → main s = Looping →
  let s' := main_run dev ev s in
  clock_thread s' = clock_thread s ∧ output_file_mutex s' = output_file_mutex s ∧ opens s s' ∧
  (clients s' = clients s ∨
   ∃ a w, ev = Connection w ∧ clients s' = clients s ++ [Client a Locking] ∧
     Lifecycle.output_file s' = Some true).
Proof.
  intros [_ Hlive] Hm. pose proof (live_init_file _ _ Hlive) as Hf. rewrite Hm in Hf.
  pose proof (live_closed _ _ Hlive) as Hcl. rewrite Hm in Hcl.
  unfold opens, main_run, server_run_body. destruct ev as [| |[b1 b2 b3 b4 b5 b6]]; simpl.
  - destruct (should_stop s); simpl; auto.
  - auto.
  - destruct b1; simpl; [|by auto].
    destruct dev; simpl.
    + case_bool_decide as Ho; simpl; [destruct b2; simpl; [|by auto]|]; destruct b6; simpl.
      * split_and!; auto. right. by do 2 eexists.
      * split_and!; auto.
      * split_and!; auto. right. do 2 eexists. split_and!; try done.
        destruct (Lifecycle.output_file s) as [[]|]; try done. by specialize (Hcl eq_refl).
      * split_and!; auto.
    + destruct b6; simpl; split_and!; auto. right. do 2 eexists. split_and!; auto.
Qed.

(** ** Every step of the system is a step of the pool, or none *)
Abbreviation pool := (config (shared_file D) turn turn_result).
Abbreviation steps_to := (system_step dev found).

Definition advances (new : list turn) (cf cf' : pool) : Prop :=
  (cf' = cf ∨ ∃ e, pool_step e cf = Some (Done cf')) ∧ calls cf' ⊆+ calls cf ++ new.

Lemma stays new cf : advances new cf cf.
Proof. split; [by left|]. by apply submseteq_inserts_r. Qed.

Lemma moves k new cf cf' : move k cf = Some (Done cf') → advances new cf cf'.
Proof.
  intros Hm. split; [right; by exists (Move k)|]. rewrite (move_calls _ _ _ Hm).
  by apply submseteq_inserts_r.
Qed.

Lemma arrives c cf :
  advances [c] cf (Config (shared cf) (threads cf ++ [Thread c (code c)]) (order cf)).
Proof. split; [right; by exists (Arrive c)|]. unfold calls. simpl. by rewrite fmap_app. Qed.

(** What a step leads to. *)
Definition link_goal (new : list turn) (x' : system D) (cf : pool) : Prop :=
  ∃ cf' ids' line', linked x' cf' ids' line' ∧ advances new cf cf'.

Lemma life_step_inv l x k x' :
  life_step dev l x k = Some (Done x') →
  ∃ s', server_step dev l (life x) = Some (Done s') ∧ x' = k s'.
Proof.
  unfold life_step. destruct (server_step dev l (life x)) as [[s'| |]|]; simpl; try done.
  intros [= <-]. by exists s'.
Qed.

(** The file of the system goes with the life cycle's. *)
Lemma link_opens x cf ids line s' :
  linked x cf ids line → opens (life x) s' →
  match Lifecycle.output_file s' with
  | None => file_after found (life x) s' (file x) = None ∧ stream (shared cf) = fopen found
  | Some true => file_after found (life x) s' (file x) = Some (stream (shared cf))
  | Some false => False
  end.
Proof.
  intros Hx Ho. pose proof (link_file _ _ _ _ Hx) as Hf. unfold file_after.
  destruct Ho as [->|[Hn ->]].
  - by destruct (Lifecycle.output_file (life x)) as [[]|].
  - rewrite Hn in *. destruct Hf as [_ ->]. done.
Qed.

Lemma link_quiet l new x cf ids line x' :
  server_inv dev (life x) → linked x cf ids line →
  life_step dev l x (with_life found x) = Some (Done x') →
  match l with Run _ | Clock _ _ | Client_step _ _ _ => False | _ => True end →
  Lifecycle.output_file (life x') ≠ Some false → link_goal new x' cf.
Proof.
  intros Hinv Hx Hs Hl Ho. apply life_step_inv in Hs as (s' & Hs & ->). simpl in Ho.
  destruct (frame_link l _ _ Hinv Hs Hl Ho) as (Hk & Hm & Hop).
  exists cf, ids, line. split; [|apply stays]. apply (link_same x); try done; simpl.
  - by apply (link_opens _ _ ids line).
  - eapply frame_clients; [exact Hs|]. by destruct l.
Qed.

Lemma link_round ev io x cf ids line x' :
  server_inv dev (life x) → linked x cf ids line →
  life_step dev (Run ev) x (serve found x io) = Some (Done x') →
  link_goal (offers dev (Main_round ev io)) x' cf.
Proof.
  intros Hinv Hx Hs. apply life_step_inv in Hs as (s' & Hs & ->).
  rewrite server_step_live in Hs by by eapply step_not_returned.
  case_bool_decide as Hm; [|done]. injection Hs as <-.
  destruct (frame_run ev _ Hinv Hm) as (Hk & Hmu & Hop & Hc).
  set (s' := main_run dev ev (life x)) in *.
  pose proof (link_opens _ _ _ _ s' Hx Hop) as Hf. unfold serve.
  destruct Hc as [Hc|(a & w & -> & Hc & Ho)].
  - exists cf, ids, line. split; [|apply stays]. rewrite Hc, bool_decide_false by lia.
    apply (link_same x); simpl; congruence || done.
  - rewrite Hc, length_app. rewrite bool_decide_true by (simpl; lia). rewrite Ho in Hf.
    exists (Config (shared cf) (threads cf ++ [Thread (Talk io.1 io.2) (talk_steps io)]) (order cf)),
      (ids ++ [length (threads cf)]), line. split.
    + apply (link_arrive x _ _ _ _ a io (stream (shared cf))); simpl; congruence || done.
    + pose proof (arrives (Talk io.1 io.2) cf) as Ha. simpl in Ha. by destruct io.
Qed.

(** The clock. *)
Lemma clock_output s p :
  live_inv dev s → clock_thread s = At p → p ≠ Waiting → Lifecycle.output_file s = Some true.
Proof.
  intros Hlive Hc Hp. pose proof (live_clock_dev _ _ Hlive) as Hd.
  pose proof (live_clock_file _ _ Hlive) as Hf. rewrite Hc in *. simpl in *.
  destruct dev; [|by apply Hf]. by specialize (Hd eq_refl eq_refl) as [= ->].
Qed.

Lemma has_line_at s p : clock_thread s = At p → p ≠ Waiting → has_line (clock_thread s) = Some p.
Proof. intros ->. by destruct p. Qed.

Lemma stream_step_inv {S A} (o : option (outcome (A * S))) k x' :
  stream_step o k = Some (Done x') → ∃ a f, o = Some (Done (a, f)) ∧ k a f = Some (Done x').
Proof. destruct o as [[[a f]| |]|]; simpl; try done. intros Hk. by exists a, f. Qed.

(** ** The steps of the threads at the file *)

(** A step of the system that is the next step of the pool's thread [k]. *)
Definition follows (k : nat) (cf : pool) (ids : list nat) (o : option (outcome (system D))) : Prop :=
  match o with
  | Some (Done x') => ∃ cf' line', move k cf = Some (Done cf') ∧ linked x' cf' ids line'
  | Some Undef => move k cf = Some Undef
  | Some NoFuel => move k cf = Some NoFuel
  | None => move k cf = None
  end.

Lemma move_waits (cf : pool) k c q :
  threads cf !! k = Some (Thread c q) → step q (shared cf) = None → move k cf = None.
Proof. intros Hk Hq. unfold move. rewrite Hk. simpl. by rewrite Hq. Qed.

Lemma move_fails (cf : pool) k c q :
  threads cf !! k = Some (Thread c q) →
  (step q (shared cf) = Some Undef → move k cf = Some Undef) ∧
  (step q (shared cf) = Some NoFuel → move k cf = Some NoFuel).
Proof. intros Hk. unfold move. rewrite Hk. simpl. by split; intros ->. Qed.

(** While the file is open the exit has not got to the mutex. *)
Lemma open_live s :
  server_inv dev s → Lifecycle.output_file s = Some true →
  (∀ st, main s ≠ Returned st) ∧ output_file_mutex s ≠ Destroyed ∧
  (clients s ≠ [] → thread_finished_signal s ≠ None).
Proof.
  intros [_ Hlive] Ho. pose proof (live_past_file _ _ Hlive) as Hp. rewrite Ho in Hp.
  assert (Hnp : past Close_file (main s) = false).
  { destruct (past Close_file (main s)); [|done]. by destruct (Hp eq_refl). }
  pose proof (live_mutex _ _ Hlive) as Hmu. pose proof (live_finished _ _ Hlive) as Hfin.
  assert (Hm : past Destroy_mutex (main s) = false ∧ past Destroy_finished (main s) = false).
  { destruct (main s) as [| |[] ok|]; done. }
  destruct Hm as [Hm1 Hm2]. split; [|split].
  - intros st E. by rewrite E in Hnp.
  - rewrite Hmu, Hm1. done.
  - intros Hc Hn. destruct (Hfin Hn) as [?|[_ ?]]; [congruence|done].
Qed.

(** A step of the life cycle, spelt out. *)
Lemma life_live l x k :
  (∀ st, main (life x) ≠ Returned st) →
  life_step dev l x k
  = (o ← match l with
     | Call answer => main_call dev answer (life x)
     | No_memory => malloc_fails (life x)
     | Run ev => if bool_decide (main (life x) = Looping) then Some (Done (main_run dev ev (life x)))
                 else None
     | Signal => Some (server_stop (life x))
     | Timer => if bool_decide (timer (life x) = Some (Some true))
                then Some (timer_callback (life x)) else None
     | Cleanup => cleanup_step (life x)
     | Clock lt fw => clock_step dev lt fw (life x)
     | Client_step i uses last => c ← clients (life x) !! i; client_thread i c uses last (life x)
     end; Some (s ← o; Done (k s))).
Proof. intros Hr. unfold life_step. by rewrite server_step_live by done. Qed.

(** *** The clock *)

(** Its next step under the mutex or at it. *)
Lemma clock_moved x x' cf ids line k p q' f b :
  linked x cf ids line → line = Some k → clock_thread (life x) = At p → p ≠ Waiting →
  (∀ q, clock_turn p (now x) q → step q (shared cf) = Some (Done (q', SharedFile b f))) →
  (if has_line (clock_thread (life x')) is Some p' then clock_turn p' (now x) q'
   else ∃ r, q' = Ret (Ticked r)) →
  Lifecycle.output_file (life x') = Some true → file x' = Some f →
  is_held (output_file_mutex (life x')) = b →
  clients (life x') = clients (life x) → talks x' = talks x → now x' = now x →
  follows k cf ids (Some (Done x')).
Proof.
  intros Hx -> Hc Hp Hq Hq' Ho Hf Hb Hcl Ht Hn. pose proof (has_line_at _ _ Hc Hp) as Hl.
  pose proof (link_line _ _ _ _ Hx) as Hline. rewrite Hl in Hline. destruct Hline as (q & Hk & Hturn).
  destruct (move_done cf k _ _ _ _ Hk (Hq q Hturn)) as [o Hm].
  eexists _, _. split; [exact Hm|]. by eapply link_line_step.
Qed.

(** A call on the stream: it does in the pool what it does here. *)
Lemma clock_calls x cf ids line k p time {B} (m : M (FILE D) B) (g : B → prog (shared_file D) turn_result)
    (next : B → option (FILE D) → option (outcome (system D))) :
  linked x cf ids line → line = Some k → clock_thread (life x) = At p → p ≠ Waiting → now x = time →
  (∀ q, clock_turn p time q → q = use m ≫= g) → file x = Some (stream (shared cf)) →
  (∀ b f1, step (use m ≫= g) (shared cf) = Some (Done (g b, SharedFile (file_mutex (shared cf)) f1)) →
    follows k cf ids (next b (Some f1))) →
  follows k cf ids (stream_step (Some (on_stream m (file x))) next).
Proof.
  intros Hx -> Hc Hp <- Hq Hf Hnext. pose proof (has_line_at _ _ Hc Hp) as Hl.
  pose proof (link_line _ _ _ _ Hx) as Hline. rewrite Hl in Hline. destruct Hline as (q & Hk & Hturn).
  rewrite (Hq q Hturn) in Hk. destruct (move_fails cf k _ _ Hk) as [Hu Hn]. rewrite Hf.
  assert (Hst : step (use m ≫= g) (shared cf)
    = match m (stream (shared cf)) with
      | Done (b, f1) => Some (Done (g b, SharedFile (file_mutex (shared cf)) f1))
      | Undef => Some Undef | NoFuel => Some NoFuel end).
  { simpl. unfold on_stream, shared_stream, mbind, outcome_bind.
    by destruct (m (stream (shared cf))) as [[b f1]| |]. }
  unfold on_stream, open_stream, mbind, outcome_bind. rewrite Hst in *.
  destruct (m (stream (shared cf))) as [[b f1]| |]; simpl in *; [by apply Hnext|by apply Hu|by apply Hn].
Qed.

(** Two steps of the clock that are not calls on the stream. *)
Lemma clock_enters x cf ids k :
  server_inv dev (life x) → linked x cf ids (Some k) → clock_thread (life x) = At At_mutex →
  follows k cf ids (life_step dev (Clock true true) x (with_life found x)).
Proof.
  intros Hinv Hx Hc. pose proof (clock_output _ _ (inv_live _ _ Hinv) Hc ltac:(done)) as Ho.
  destruct (open_live _ Hinv Ho) as (Hr & Hd & _). rewrite life_live by done.
  pose proof (link_file _ _ _ _ Hx) as Hf. pose proof (link_mutex _ _ _ _ Hx) as Hmu.
  rewrite Ho in Hf. unfold clock_step, mutex_lock. rewrite Hc.
  destruct (shared cf) as [b f] eqn:Hsh. simpl in Hf, Hmu.
  destruct (output_file_mutex (life x)) eqn:Hm; [| |done]; simpl in *.
  - eapply (clock_moved x _ cf ids _ k At_mutex _ f true); try done.
    + intros q ->. unfold tick_steps. simpl. rewrite Hsh, Hmu. done.
    + simpl. unfold file_after. simpl. by rewrite Ho.
  - pose proof (link_line _ _ _ _ Hx) as Hline. rewrite Hc in Hline.
    destruct Hline as (q & Hk & ->). apply (move_waits _ _ _ _ Hk).
    rewrite Hsh, Hmu. done.
Qed.

Lemma clock_leaves x cf ids k ok :
  server_inv dev (life x) → linked x cf ids (Some k) → clock_thread (life x) = At (Releasing ok) →
  follows k cf ids (life_step dev (Clock true true) x (with_life found x)).
Proof.
  intros Hinv Hx Hc. pose proof (clock_output _ _ (inv_live _ _ Hinv) Hc ltac:(done)) as Ho.
  destruct (open_live _ Hinv Ho) as (Hr & _ & _). rewrite life_live by done.
  pose proof (link_file _ _ _ _ Hx) as Hf. rewrite Ho in Hf.
  destruct (shared cf) as [b f] eqn:Hsh. simpl in Hf. unfold clock_step. rewrite Hc. simpl.
  eapply (clock_moved x _ cf ids _ k (Releasing ok) _ f false); try done.
  - intros q ->. by rewrite Hsh.
  - destruct ok; simpl; by eexists.
  - simpl. unfold file_after. simpl. by rewrite Ho.
Qed.

Lemma clock_follows lt x cf ids k :
  server_inv dev (life x) → linked x cf ids (Some k) → clock_thread (life x) ≠ At Waiting →
  follows k cf ids (clock_moves dev found lt x).
Proof.
  intros Hinv Hx Hw. pose proof (link_line _ _ _ _ Hx) as Hline.
  destruct (clock_thread (life x)) as [|p|] eqn:Hc; [done| |done].
  assert (Hp : p ≠ Waiting) by congruence.
  pose proof (clock_output _ p (inv_live _ _ Hinv) Hc Hp) as Ho.
  destruct (open_live _ Hinv Ho) as (Hr & _ & _).
  pose proof (link_file _ _ _ _ Hx) as Hf. pose proof (link_mutex _ _ _ _ Hx) as Hmu. rewrite Ho in Hf.
  unfold clock_moves. rewrite Hc. destruct p as [| | | |ok]; [done|by apply clock_enters| | |by eapply clock_leaves].
  - eapply (clock_calls x cf ids (Some k) k Writing (now x)); try done.
    intros w f1 Hst. rewrite life_live by done. unfold clock_step, file_call.
    rewrite Hc, Ho, !(bool_decide_true (Some true = Some true)) by done. simpl.
    eapply (clock_moved x _ cf ids _ k Writing _ f1); try done.
    + intros q ->. exact Hst.
    + simpl. rewrite bool_decide_not. by destruct (bool_decide _).
  - eapply (clock_calls x cf ids (Some k) k Flushing (now x)); try done.
    intros w f1 Hst. rewrite life_live by done. unfold clock_step, file_call.
    rewrite Hc, Ho, !(bool_decide_true (Some true = Some true)) by done. simpl.
    eapply (clock_moved x _ cf ids _ k Flushing _ f1); try done. intros q ->. exact Hst.
Qed.

Lemma link_waiting lt x cf ids line x' :
  linked x cf ids line → clock_thread (life x) = At Waiting →
  system_step dev found (Clock_step lt) x = Some (Done x') →
  link_goal (offers dev (Clock_step lt)) x' cf.
Proof.
  intros Hx Hc Hs. assert (Hs' : clock_moves dev found lt x = Some (Done x')).
  { unfold system_step in Hs. by destruct (main (life x)). }
  clear Hs. unfold clock_moves in Hs'. rewrite Hc in Hs'.
  apply life_step_inv in Hs' as (s' & Hs & ->).
  rewrite server_step_live in Hs by by eapply step_not_returned.
  pose proof (link_line _ _ _ _ Hx) as Hline. rewrite Hc in Hline. simpl in Hline.
  destruct line as [k|]; [done|].
  assert (Hfile : match Lifecycle.output_file (life x) with
    | None => file x = None ∧ stream (shared cf) = fopen found
    | Some true => file x = Some (stream (shared cf)) | Some false => False end) by apply Hx.
  unfold clock_step in Hs. rewrite Hc in Hs. destruct (clock_sem (life x)) as [n|]; [|done].
  case_bool_decide; [|done]. simpl in Hs.
  assert (Hend : ∀ t, has_line t = None → t ≠ At At_mutex →
    link_goal (offers dev (Clock_step lt)) (System (set_clock t (set_clock_sem (Some (n - 1)) (life x)))
      (file x) (talks x) (now x)) cf).
  { intros t Ht _. exists cf, ids, None. split; [|apply stays]. apply (link_same x); try done.
    simpl. by rewrite Ht, Hc. }
  destruct (should_stop (life x)); [injection Hs as <-; simpl; by apply (Hend Ended)|].
  destruct dev.
  { injection Hs as <-. simpl. rewrite Hc, bool_decide_false by done.
    replace (set_clock_sem (Some (n - 1)) (life x)) with
      (set_clock (At Waiting) (set_clock_sem (Some (n - 1)) (life x))).
    - by apply Hend.
    - unfold set_clock. simpl. by rewrite <- Hc. }
  destruct lt as [time|]; simpl in Hs; [|injection Hs as <-; simpl; by apply (Hend Ended)].
  injection Hs as <-. simpl.
  eexists _, ids, (Some (length (threads cf))).
  split; [|exact (arrives (Tick time) cf)]. simpl.
  eapply (link_line_arrive x (System _ _ _ time)); done.
Qed.

(** *** The clients *)
Lemma client_move_same s i c : clients s !! i = Some c →
  clients s = alter (λ c', Client (info c') (point c)) i (clients s).
Proof.
  intros Hc. apply list_eq. intros j. destruct (decide (i = j)) as [<-|Hij].
  - rewrite list_lookup_alter_eq, Hc. by destruct c.
  - by rewrite list_lookup_alter_ne.
Qed.

(** What a client that can step has in the pool. *)
Lemma link_find x cf ids line i c v :
  server_inv dev (life x) → linked x cf ids line →
  clients (life x) !! i = Some c → talks x !! i = Some v →
  Lifecycle.output_file (life x) = Some true ∧ file x = Some (stream (shared cf)) ∧
  ∃ k q, ids !! i = Some k ∧ threads cf !! k = Some (Thread (Talk (given v).1 (given v).2) q) ∧
    client_turn (point c) v q.
Proof.
  intros [_ Hlive] Hx Hc Hv. pose proof (link_file _ _ _ _ Hx) as Hf.
  pose proof (live_file _ _ Hlive (some_client _ _ _ Hc)) as Ho.
  destruct (Lifecycle.output_file (life x)) as [[]|]; [|done..]. do 2 (split; [done|]).
  destruct (lookup_lt_is_Some_2 ids i) as [k Hk].
  { rewrite (link_ids _ _ _ _ Hx). by eapply lookup_lt_Some. }
  destruct (link_client _ _ _ _ Hx i c v k Hc Hv Hk) as (q & Hq & Ht). by exists k, q.
Qed.

(** The turn of a client in the conversation. *)
Lemma finish_step (p : prog (line_state D) (ret_t * sockets)) b f :
  (∀ a, p ≠ Ret a) →
  step (finish (shared_prog p)) (SharedFile b f)
  = match step p (flowing (Some f)) with
    | Some (Done (p', LineState (Some f') _ _)) => Some (Done (finish (shared_prog p'), SharedFile b f'))
    | Some (Done (_, LineState None _ _)) | Some Undef => Some Undef
    | Some NoFuel => Some NoFuel
    | None => None
    end.
Proof.
  intros Hp. unfold finish. rewrite (step_bind (A := ret_t * sockets)).
  - rewrite (shared_step (A := ret_t * sockets)). by destruct (step p _) as [[[p' [[f'|] t h]]| |]|].
  - intros a. destruct p; [by destruct (Hp a0)|done..].
Qed.

Lemma result_Some {S A} (p : prog S A) a : result p = Some a ↔ p = Ret a.
Proof. destruct p; simpl; naive_solver. Qed.

Lemma result_None {S A} (p : prog S A) : result p = None → ∀ a, p ≠ Ret a.
Proof. by destruct p. Qed.

(** The steps of a client that the pool does not see: leaving the conversation
    and telling the cleanup thread. *)
Definition unseen (p : client_point) (v : conversation D) : Prop :=
  (p = Talking ∧ result (talk v) ≠ None) ∨ p = Signaling.

Definition past_unseen (p : client_point) : client_point :=
  match p with Talking => Unlocking | Signaling => Gone | _ => p end.

Lemma alter_point i c p' (l : list client) :
  l !! i = Some c → past_unseen (point c) = p' →
  alter (λ c, Client (info c) p') i l = alter (λ c, Client (info c) (past_unseen (point c))) i l.
Proof.
  intros Hc <-. apply list_eq. intros j. destruct (decide (i = j)) as [<-|Hij].
  - by rewrite !list_lookup_alter_eq, Hc.
  - by rewrite !list_lookup_alter_ne.
Qed.

(** A client's step that is a step of its thread in the pool. *)
Lemma client_moved x x' cf ids line i c v k q q' p' v' b f :
  linked x cf ids line → clients (life x) !! i = Some c → talks x !! i = Some v →
  ids !! i = Some k → threads cf !! k = Some (Thread (Talk (given v).1 (given v).2) q) →
  Lifecycle.output_file (life x) = Some true →
  step q (shared cf) = Some (Done (q', SharedFile b f)) → client_turn p' v' q' →
  given v' = given v → Lifecycle.output_file (life x') = Some true → file x' = Some f →
  is_held (output_file_mutex (life x')) = b →
  clients (life x') = alter (λ c, Client (info c) p') i (clients (life x)) →
  talks x' = <[i := v']> (talks x) → now x' = now x →
  clock_thread (life x') = clock_thread (life x) →
  follows k cf ids (Some (Done x')).
Proof.
  intros Hx Hc Hv Hk Hq Ho Hst Ht Hg Ho' Hf Hm Hcl Htk Hn Hck.
  destruct (move_done cf k _ _ _ _ Hq Hst) as [o Hmv]. eexists _, line. split; [exact Hmv|].
  by eapply link_client_step.
Qed.

(** A client's step that leaves the pool alone. *)
Lemma client_stays x x' cf ids line i c v p' :
  linked x cf ids line → clients (life x) !! i = Some c → talks x !! i = Some v →
  Lifecycle.output_file (life x) = Some true → file x = Some (stream (shared cf)) →
  (∀ q, client_turn (point c) v q → client_turn p' v q) →
  Lifecycle.output_file (life x') = Some true → file x' = file x →
  is_held (output_file_mutex (life x')) = is_held (output_file_mutex (life x)) →
  clients (life x') = alter (λ c, Client (info c) p') i (clients (life x)) →
  talks x' = talks x → now x' = now x → clock_thread (life x') = clock_thread (life x) →
  linked x' cf ids line.
Proof.
  intros Hx Hc Hv Ho Hf Ht Ho' Hf' Hm Hcl Htk Hn Hck.
  pose proof (link_mutex _ _ _ _ Hx) as Hmu.
  destruct (lookup_lt_is_Some_2 ids i) as [k Hk].
  { rewrite (link_ids _ _ _ _ Hx). by eapply lookup_lt_Some. }
  destruct (link_client _ _ _ _ Hx i c v k Hc Hv Hk) as (q & Hq & Hturn).
  replace cf with (Config (SharedFile (file_mutex (shared cf)) (stream (shared cf)))
    (<[k := Thread (Talk (given v).1 (given v).2) q]> (threads cf)) (order cf)).
  - eapply (link_client_step x x' cf ids line i c v k p' v); try done; [by apply Ht| | |].
    + congruence.
    + congruence.
    + by rewrite list_insert_id.
  - rewrite list_insert_id by done. by destruct cf as [[]].
Qed.

(** A client may also have to wait for the network, or find its stream NULL
    ([h]: which are there); the pool's clients do not. *)
Definition follows_or_not (h : bool * bool) (v : conversation D) (k : nat) (cf : pool) (ids : list nat)
    (o : option (outcome (system D))) : Prop :=
  follows k cf ids o ∨ (o = None ∧ carried v ≠ all_through) ∨ (o = Some Undef ∧ h ≠ (true, true)).

Lemma client_talks i x cf ids line c v k q :
  server_inv dev (life x) → linked x cf ids line →
  clients (life x) !! i = Some c → talks x !! i = Some v → ids !! i = Some k →
  threads cf !! k = Some (Thread (Talk (given v).1 (given v).2) q) → client_turn (point c) v q →
  point c = Talking → result (talk v) = None →
  follows_or_not (streams_of c (life x)) v k cf ids (client_moves dev found i x).
Proof.
  intros Hinv Hx Hc Hv Hk Hq Hturn Hp Hres.
  destruct (link_find _ _ _ _ _ _ _ Hinv Hx Hc Hv) as (Ho & Hf & _).
  destruct (open_live _ Hinv Ho) as (Hr & _ & _). pose proof (link_mutex _ _ _ _ Hx) as Hmu.
  unfold client_moves. rewrite Hc, Hv. simpl. rewrite Hp, Hres in *. rewrite Hf.
  destruct Hturn as [Hin ->]. set (h := streams_of c (life x)).
  pose proof (finish_step (talk v) (file_mutex (shared cf)) (stream (shared cf)) (result_None _ Hres))
    as Hfs.
  replace (SharedFile (file_mutex (shared cf)) (stream (shared cf))) with (shared cf) in Hfs
    by by destruct (shared cf).
  destruct (move_fails cf k _ _ Hq) as [Hu Hn].
  destruct (step (talk v) (LineState (Some (stream (shared cf))) (carried v) h)) as [o|] eqn:Hst.
  2:{ right. left. split; [done|]. by apply (conversing_waits _ _ _ _ Hin Hst (result_None _ Hres)). }
  destruct o as [[p' l]| |]; simpl.
  2,3: apply conversing_fails in Hst as [Hst|[? ?]]; [|right; right; done|done];
    left; rewrite Hst in Hfs; by (apply Hu || apply Hn).
  left. destruct (conversing_step _ _ _ _ _ _ Hin Hst) as (f1 & -> & Hin' & Hst'). rewrite Hst' in Hfs.
  rewrite life_live, Hc by done. unfold client_thread. simpl. rewrite Hp. simpl.
  eapply (client_moved x _ cf ids line i c v k _ (finish (shared_prog p')) Talking
    (Conversation (given v) (carried v) p')); try done.
  rewrite <- Hp. by apply client_move_same.
Qed.

(** While a client is there, the file is open and what it needs exists. *)
Lemma client_facts i x cf ids line c v k :
  server_inv dev (life x) → linked x cf ids line →
  clients (life x) !! i = Some c → talks x !! i = Some v → ids !! i = Some k →
  Lifecycle.output_file (life x) = Some true ∧ file x = Some (stream (shared cf)) ∧
  (∀ st, main (life x) ≠ Returned st) ∧ output_file_mutex (life x) ≠ Destroyed ∧
  (∃ m, thread_finished_signal (life x) = Some m) ∧
  (∀ s, Lifecycle.output_file s = Some true → file_after found (life x) s (file x) = file x) ∧
  talks x = <[i := v]> (talks x).
Proof.
  intros Hinv Hx Hc Hv Hk.
  destruct (link_find _ _ _ _ _ _ _ Hinv Hx Hc Hv) as (Ho & Hf & _).
  destruct (open_live _ Hinv Ho) as (Hr & Hd & Hfin). split_and!; try done.
  - destruct (thread_finished_signal (life x)) as [m|]; [by exists m|].
    destruct Hfin; [by eapply some_client|done].
  - intros s Hso. unfold file_after. by rewrite Hso, Ho.
  - by rewrite list_insert_id.
Qed.

(** A client that closes its streams has both of them. *)
Definition can_close (c : client) (s : server) : Prop :=
  point c = Signaling → streams_of c s = (true, true).

Lemma closes c s t :
  infos s !! info c = Some t → streams_of c s = (socket_input t, socket_output t).
Proof. intros Ht. unfold streams_of. simpl. by rewrite Ht. Qed.

Lemma client_hidden i x cf ids line c v k :
  server_inv dev (life x) → linked x cf ids line →
  clients (life x) !! i = Some c → talks x !! i = Some v → ids !! i = Some k →
  unseen (point c) v → can_close c (life x) →
  ∃ x', client_moves dev found i x = Some (Done x') ∧ linked x' cf ids line ∧
    clients (life x') = alter (λ c, Client (info c) (past_unseen (point c))) i (clients (life x)) ∧
    talks x' = talks x.
Proof.
  intros Hinv Hx Hc Hv Hk Hun Hcl.
  destruct (client_facts _ _ _ _ _ _ _ _ Hinv Hx Hc Hv Hk) as (Ho & Hf & Hr & _ & [m Hsem] & Hfile & _).
  unfold client_moves. rewrite Hc, Hv. simpl. destruct Hun as [[Hp Hres]|Hp]; rewrite Hp.
  - destruct (result (talk v)) as [[r io]|] eqn:Hres'; [|done].
    rewrite life_live, Hc by done. unfold client_thread. simpl. rewrite Hp. simpl.
    eexists. split; [done|]. split; [|by split; [apply (alter_point _ c); [|rewrite Hp]|]].
    apply result_Some in Hres'.
    eapply (client_stays x _ cf ids line i c v Unlocking); try done; [|by apply Hfile].
    rewrite Hp. intros q' [_ ->]. rewrite Hres'. by exists r, io.
  - rewrite life_live, Hc by done. unfold client_thread. simpl. rewrite Hp.
    destruct (inv_infos _ (inv_clients _ _ Hinv) c) as [t Ht]; [by eapply list_elem_of_lookup_2|].
    specialize (Hcl Hp). rewrite (closes _ _ _ Ht) in Hcl. injection Hcl as Hi' Ho'.
    rewrite Ht, Hi', Ho'. simpl. rewrite Hsem. simpl. eexists. split; [done|].
    split; [|by split; [apply (alter_point _ c); [|rewrite Hp]|]].
    eapply (client_stays x _ cf ids line i c v Gone); try done; [|by apply Hfile]. by rewrite Hp.
Qed.

(** Closing a stream that is NULL. *)
Lemma client_fails_to_close i x cf ids line c v :
  server_inv dev (life x) → linked x cf ids line →
  clients (life x) !! i = Some c → talks x !! i = Some v →
  ¬ can_close c (life x) → client_moves dev found i x = Some Undef.
Proof.
  intros Hinv Hx Hc Hv Hcl. destruct (link_find _ _ _ _ _ _ _ Hinv Hx Hc Hv) as (Ho & _).
  destruct (open_live _ Hinv Ho) as (Hr & _). unfold can_close in Hcl.
  destruct (inv_infos _ (inv_clients _ _ Hinv) c) as [t Ht]; [by eapply list_elem_of_lookup_2|].
  rewrite (closes _ _ _ Ht) in Hcl. unfold client_moves. rewrite Hc, Hv. simpl.
  destruct (point c) eqn:Hp; try by destruct Hcl.
  rewrite life_live, Hc by done. unfold client_thread. simpl. rewrite Hp, Ht.
  destruct (socket_input t), (socket_output t); done.
Qed.

#[export] Instance can_close_dec c s : Decision (can_close c s).
Proof. unfold can_close. apply _. Defined.

Lemma client_follows i x cf ids line c v k :
  server_inv dev (life x) → linked x cf ids line →
  clients (life x) !! i = Some c → talks x !! i = Some v → ids !! i = Some k →
  ¬ unseen (point c) v →
  follows_or_not (streams_of c (life x)) v k cf ids (client_moves dev found i x).
Proof.
  intros Hinv Hx Hc Hv Hk Hun.
  destruct (client_facts _ _ _ _ _ _ _ _ Hinv Hx Hc Hv Hk) as (Ho & Hf & Hr & Hd & _ & Hfile & Hts).
  destruct (link_client _ _ _ _ Hx i c v k Hc Hv Hk) as (q & Hq & Hturn).
  assert (Hfile' : ∀ s, Lifecycle.output_file s = Some true →
    file_after found (life x) s (file x) = Some (stream (shared cf))).
  { intros s Hs. by rewrite Hfile. }
  pose proof (link_mutex _ _ _ _ Hx) as Hmu. destruct (point c) eqn:Hp.
  2:{ eapply client_talks; try done; [by rewrite Hp|]. destruct (result (talk v)) eqn:Hres; [|done].
      destruct Hun. left. by rewrite Hres. }
  3:{ destruct Hun. by right. }
  all: left; unfold client_moves; rewrite Hc, Hv; simpl; rewrite Hp, life_live, Hc by done.
  all: unfold client_thread, mutex_lock; simpl; rewrite Hp.
  all: destruct (shared cf) as [b f] eqn:Hsh; simpl in Hmu, Hfile'.
  - destruct Hturn as [Htalk ->]. destruct (output_file_mutex (life x)) eqn:Hm; [| |done]; simpl.
    + eapply (client_moved x _ cf ids line i c v k _ (finish (shared_prog (talk v))) Talking v _ f);
        try done; [| |by apply Hfile'].
      * rewrite Hsh, Hmu, Htalk, shared_protocol. by destruct (given v).
      * split; [rewrite Htalk; apply protocol_conversing|done].
    + apply (move_waits _ _ _ _ Hq). by rewrite Hsh, Hmu.
  - destruct Hturn as (r & io & Hres & ->). simpl.
    eapply (client_moved x _ cf ids line i c v k _ (Ret (Talked r io.1 io.2)) Signaling v _ f);
      try done; [by rewrite Hsh|by exists r, io|by apply Hfile'].
  - simpl. destruct Hturn as (r & io & _ & ->). by apply (move_waits _ _ _ _ Hq).
Qed.

#[export] Instance unseen_dec p v : Decision (unseen p v).
Proof. unfold unseen. apply _. Defined.

(** The thread of a client in the pool. *)
Lemma client_found i x cf ids line o :
  linked x cf ids line → client_moves dev found i x = Some o →
  ∃ c v k, clients (life x) !! i = Some c ∧ talks x !! i = Some v ∧ ids !! i = Some k.
Proof.
  intros Hx Hs. unfold client_moves in Hs.
  destruct (clients (life x) !! i) as [c|] eqn:Hc; [|done].
  destruct (talks x !! i) as [v|] eqn:Hv; [|done].
  destruct (lookup_lt_is_Some_2 ids i) as [k Hk].
  { rewrite (link_ids _ _ _ _ Hx). by eapply lookup_lt_Some. }
  by exists c, v, k.
Qed.

Lemma link_client_moves i x cf ids line x' :
  server_inv dev (life x) → linked x cf ids line →
  client_moves dev found i x = Some (Done x') → link_goal [] x' cf.
Proof.
  intros Hinv Hx Hs. destruct (client_found _ _ _ _ _ _ Hx Hs) as (c & v & k & Hc & Hv & Hk).
  destruct (decide (unseen (point c) v)) as [Hun|Hun].
  - destruct (decide (can_close c (life x))) as [Hcl|Hcl].
    2:{ apply (client_fails_to_close _ _ _ _ _ _ _ Hinv Hx Hc Hv) in Hcl. congruence. }
    destruct (client_hidden _ _ _ _ _ _ _ _ Hinv Hx Hc Hv Hk Hun Hcl) as (x1 & Hs1 & Hx1 & _).
    assert (x1 = x') as -> by congruence. exists cf, ids, line. split; [done|apply stays].
  - destruct (client_follows _ _ _ _ _ _ _ _ Hinv Hx Hc Hv Hk Hun) as [Hm|[[Hm _]|[Hm _]]];
      rewrite Hs in Hm; [|done..].
    destruct Hm as (cf' & line' & Hm & Hx'). exists cf', ids, line'. split; [done|by eapply moves].
Qed.

(** The network's steps are not the pool's. *)
Lemma network_inv i t x x' :
  network i t x = Some (Done x') →
  life x' = life x ∧ file x' = file x ∧ now x' = now x ∧
  ∃ v, talks x !! i = Some v ∧ talks x' = <[i := Conversation (given v) t (talk v)]> (talks x).
Proof.
  unfold network. destruct (talks x !! i) as [v|]; [|done]. simpl.
  destruct (goes_on _ _); [|done]. intros [= <-]. do 3 (split; [done|]). by exists v.
Qed.

(** What a step does to the conversations. *)
Inductive talks_change (l : system_label) (x : system D) : list (conversation D) → Prop :=
| talks_same : talks_change l x (talks x)
| talks_new ev io :
    l = Main_round ev io → talks_change l x (talks x ++ [Conversation io (nothing_through io) (protocol_steps io)])
| talks_network i t v :
    l = Network i t → talks x !! i = Some v → goes_on (carried v) t = true →
    talks_change l x (<[i := Conversation (given v) t (talk v)]> (talks x))
| talks_move i c v p s :
    l = Client_moves i → clients (life x) !! i = Some c → point c = Talking →
    talks x !! i = Some v →
    step (talk v) (LineState (file x) (carried v) (streams_of c (life x))) = Some (Done (p, s)) →
    talks_change l x (<[i := Conversation (given v) (net s) p]> (talks x)).

Lemma talks_step l x x' : steps_to l x = Some (Done x') → talks_change l x (talks x').
Proof.
  intros Hs. unfold system_step in Hs.
  assert (Hsame : ∀ l' k, (∀ s, talks (k s) = talks x) → life_step dev l' x k = Some (Done x') →
    talks_change l x (talks x')).
  { intros l' k Hk Hl. apply life_step_inv in Hl as (s' & _ & ->). rewrite Hk. constructor. }
  destruct (main (life x)); try done.
  all: destruct l as [answer| |ev io| | | |lt|i|i t]; try by eapply Hsame; [|exact Hs].
  all: try (apply life_step_inv in Hs as (s' & _ & ->); simpl; case_bool_decide; by econstructor).
  all: try (unfold clock_moves in Hs; destruct (clock_thread (life x)) as [|[]|];
    try (by eapply Hsame; [|exact Hs]);
    apply stream_step_inv in Hs as (a & f & _ & Hs); by eapply Hsame; [|exact Hs]).
  all: try (unfold network in Hs; destruct (talks x !! i) as [v|] eqn:Hv; [|done]; simpl in Hs;
    destruct (goes_on (carried v) t) eqn:Hg; [|done]; injection Hs as <-; by eapply talks_network).
  all: unfold client_moves in Hs; destruct (clients (life x) !! i) as [c|] eqn:Hc; [|done].
  all: destruct (talks x !! i) as [v|] eqn:Hv; [|done]; simpl in Hs.
  all: destruct (point c) eqn:Hp; try (by eapply Hsame; [|exact Hs]).
  all: destruct (result (talk v)); [by eapply Hsame; [|exact Hs]|].
  all: apply stream_step_inv in Hs as (p' & s & Hst & Hs); apply life_step_inv in Hs as (s' & _ & ->).
  all: by eapply talks_move.
Qed.

Lemma link_network i t x cf ids line x' :
  linked x cf ids line → network i t x = Some (Done x') → linked x' cf ids line.
Proof.
  intros [] Hs. apply network_inv in Hs as (Hl & Hf & Hn & v & Hv & Ht).
  split; rewrite ?Hl, ?Hf, ?Hn; try done; [by rewrite Ht, length_insert|].
  intros j c w k Hc Hw Hk. rewrite Ht in Hw. destruct (decide (i = j)) as [<-|Hij].
  - rewrite list_lookup_insert_eq in Hw by by eapply lookup_lt_Some. injection Hw as <-.
    exact (link_client0 i c v k Hc Hv Hk).
  - rewrite list_lookup_insert_ne in Hw by done. by eapply link_client0.
Qed.

Lemma link_clock lt x cf ids line x' :
  server_inv dev (life x) → linked x cf ids line →
  system_step dev found (Clock_step lt) x = Some (Done x') →
  link_goal (offers dev (Clock_step lt)) x' cf.
Proof.
  intros Hinv Hx Hs.
  destruct (decide (clock_thread (life x) = At Waiting)) as [Hw|Hw]; [by eapply link_waiting|].
  assert (Hs' : clock_moves dev found lt x = Some (Done x')).
  { unfold system_step in Hs. by destruct (main (life x)). }
  destruct line as [k|].
  - pose proof (clock_follows lt _ _ _ _ Hinv Hx Hw) as Hm. rewrite Hs' in Hm.
    destruct Hm as (cf' & line' & Hm & Hx'). exists cf', ids, line'. split; [done|by eapply moves].
  - pose proof (link_line _ _ _ _ Hx) as Hline. unfold clock_moves, life_step in Hs'.
    destruct (clock_thread (life x)) as [|[]|] eqn:Hc; try done.
    all: unfold server_step, clock_step in Hs'; rewrite Hc in Hs'; by destruct (main (life x)).
Qed.

Lemma link_step l x cf ids line x' :
  server_inv dev (life x) → linked x cf ids line → steps_to l x = Some (Done x') →
  Lifecycle.output_file (life x') ≠ Some false → link_goal (offers dev l) x' cf.
Proof.
  intros Hinv Hx Hs Ho. destruct l as [answer| |ev io| | | |lt|i|i t]; try by eapply link_clock.
  all: unfold system_step in Hs; destruct (main (life x)); try done.
  all: first [by eapply link_quiet|by eapply link_round|by eapply link_client_moves|idtac].
  all: exists cf, ids, line; split; [by eapply link_network|apply stays].
Qed.

(** ** Runs *)

(** A step of the system is a step of the life cycle, of the same thread, or the
    network's. *)
Definition main_label (l : system_label) : bool :=
  match l with Main_call _ | Main_no_memory | Main_round _ _ => true | _ => false end.

(** The client whose thread takes the step. *)
Definition client_label (l : system_label) : option nat :=
  match l with Client_moves i => Some i | _ => None end.

Definition stepping_client (l : label) : option nat :=
  match l with Client_step i _ _ => Some i | _ => None end.

Lemma system_life l x x' :
  steps_to l x = Some (Done x') →
  (∃ i t, l = Network i t ∧ network i t x = Some (Done x')) ∨
  ∃ l', of_main l' = main_label l ∧ stepping_client l' = client_label l ∧
    server_step dev l' (life x) = Some (Done (life x')).
Proof.
  intros Hs. destruct l as [answer| |ev io| | | |lt|i|i t];
    [| | | | | | | |left; exists i, t; unfold system_step in Hs; by destruct (main (life x))]; right.
  all: match goal with |- context [main_label ?l] => set (l0 := l) in * end.
  all: assert (Hlife : ∀ l' k, (∀ s, life (k s) = s) → of_main l' = main_label l0 →
    stepping_client l' = client_label l0 → life_step dev l' x k = Some (Done x') →
    ∃ l', of_main l' = main_label l0 ∧ stepping_client l' = client_label l0 ∧
      server_step dev l' (life x) = Some (Done (life x')))
    by (intros l' k Hk Hm Hsc Hl; apply life_step_inv in Hl as (s' & Hl & ->); exists l'; by rewrite Hk).
  all: unfold l0, system_step, clock_moves, client_moves in Hs; destruct (main (life x)); try done.
  all: try by eapply Hlife; [| | |exact Hs].
  all: try (destruct (clock_thread (life x)) as [|[| | | |ok']|]).
  all: try (by eapply Hlife; [| | |exact Hs]).
  all: try (apply stream_step_inv in Hs as (a & f & _ & Hs); by eapply Hlife; [| | |exact Hs]).
  all: destruct (clients (life x) !! i) as [c|], (talks x !! i) as [v|]; simpl in Hs; try done.
  all: destruct (point c); try by eapply Hlife; [| | |exact Hs].
  all: destruct (result (talk v)); [by eapply Hlife; [| | |exact Hs]|].
  all: apply stream_step_inv in Hs as (a & f & _ & Hs); by eapply Hlife; [| | |exact Hs].
Qed.

Lemma closed_stays l s s' :
  server_inv dev s → server_step dev l s = Some (Done s') →
  Lifecycle.output_file s = Some false → Lifecycle.output_file s' = Some false.
Proof.
  intros [_ Hlive] Hs Hf. pose proof (live_closed _ _ Hlive Hf) as Hp.
  rewrite server_step_live in Hs by by eapply step_not_returned.
  destruct l as [answer| |ev| | | |lt fw|i uses last]; try by apply malloc_undefined in Hs.
  - unfold main_call, server_init, server_exit, sem_post in Hs. by_cases Hs; done.
  - case_bool_decide as Hm; [|done]. by rewrite Hm in Hp.
  - unfold server_stop, sem_post in Hs. simpl in Hs. by_cases Hs; done.
  - unfold timer_callback in Hs. by_cases Hs; done.
  - unfold cleanup_step, cleanup_thread_body in Hs. by_cases Hs; done.
  - unfold clock_step, mutex_lock, file_call in Hs. by_cases Hs; done.
  - destruct (clients s !! i); simplify_eq/=.
    unfold client_thread, mutex_lock, sem_post in Hs. by_cases Hs; done.
Qed.

(** The runs of the system are runs of the life cycle. *)
Lemma run_life x0 ls x :
  system_run dev found x0 ls x →
  ∃ ls', steps dev (life x0) ls' (life x) ∧ omap stepping_client ls' = omap client_label ls.
Proof.
  induction 1 as [|ls x l x' _ (ls' & IH & Hls) Hs]; [exists []; by split; [constructor|]|].
  apply system_life in Hs as [(i & t & -> & Hn)|(l' & _ & Hc & Hl)].
  - apply network_inv in Hn as (-> & _). exists ls'. split; [done|].
    by rewrite omap_app, app_nil_r.
  - exists (ls' ++ [l']). split; [by eapply steps_snoc|]. rewrite !omap_app, Hls. f_equal. simpl.
    by rewrite Hc.
Qed.

Lemma run_server_inv t0 ls x :
  system_run dev found (system_start t0) ls x → server_inv dev (life x).
Proof. intros Hrun. apply run_life in Hrun as (ls' & Hrun & _). by eapply steps_inv. Qed.

Lemma offered_snoc ls l : offered dev (ls ++ [l]) = offered dev ls ++ offers dev l.
Proof. unfold offered. by rewrite bind_app, bind_singleton. Qed.

(** While the file is not closed, they are runs of the pool. *)
Lemma run_linked t0 ls x :
  system_run dev found (system_start t0) ls x → Lifecycle.output_file (life x) ≠ Some false →
  ∃ cf ids line, pool_run (idle (SharedFile false (fopen found))) cf ∧ linked x cf ids line ∧
    calls cf ⊆+ offered dev ls.
Proof.
  intros Hrun. induction Hrun as [|ls x l x' Hrun IH Hs]; intros Ho.
  { exists (idle (SharedFile false (fopen found))), [], None. split; [constructor|].
    split; [apply start_linked|done]. }
  pose proof (run_server_inv _ _ _ Hrun) as Hinv.
  destruct IH as (cf & ids & line & Hcf & Hx & Hcs).
  { intros Hf. apply Ho. destruct (system_life _ _ _ Hs) as [(i & t & -> & Hn)|(l' & _ & _ & Hl)].
    - by apply network_inv in Hn as (-> & _).
    - by eapply closed_stays. }
  destruct (link_step l x cf ids line x' Hinv Hx Hs Ho) as (cf' & ids' & line' & Hx' & Hadv & Hcs').
  exists cf', ids', line'. split; [|split; [done|]].
  - destruct Hadv as [->|[e He]]; [done|by eapply run_step].
  - rewrite offered_snoc. etrans; [exact Hcs'|]. by apply submseteq_skips_r.
Qed.
End Link.
