(* ===== verification/SystemFair.v ===== *)
(** * What the pool's theorems give for the complete server

    Which turns of the pool are whose.  With any clients the turns are those of
    the sequential model one after another ([any_atomic]); with well-behaved ones
    they are operations on the log ([fair_serialized]), and a step is undefined
    only where the life cycle's is ([fair_undefined]). *)

From S2P Require Import Prelude Kernel Stdio OutputFile ServerProtocol Timestamp RegularFile ServerDevice ServerTheorems Interleaving Serializability ServerSessions ServerInterleavings Lifecycle LifecycleInvariant LifecycleTheorems System SystemPool.

(** The conversation of the client [i] is over: the turn it was, and its result. *)
Definition over {D} (x : system D) (i : nat) (t : turn) (r : turn_result) : Prop :=
  ∃ c v ret io, clients (life x) !! i = Some c ∧ talks x !! i = Some v ∧
    (point c = Signaling ∨ point c = Gone) ∧ talk v = Ret (ret, io) ∧
    t = Talk (given v).1 (given v).2 ∧ r = Talked ret io.1 io.2.

(** Whose turn it was: a client's, or the clock's. *)
Definition turn_of {D} (x : system D) (who : option nat) (t : turn) (r : turn_result) : Prop :=
  match who with
  | Some i => over x i t r
  | None => ∃ time, t = Tick time
  end.

Section Link.
Context {D : Type} `{Descriptor D} {found : D}.
Implicit Types (x : system D) (cf : config (shared_file D) turn turn_result).

Lemma client_turn_ret p (v : conversation D) r :
  client_turn p v (Ret r) →
  (p = Signaling ∨ p = Gone) ∧ ∃ ret io, talk v = Ret (ret, io) ∧ r = Talked ret io.1 io.2.
Proof.
  destruct p; simpl.
  - by intros [_ ?].
  - intros [_ Hr]. unfold finish in Hr. by destruct (shared_prog (talk v)) as [[ret io]| |].
  - by intros (ret & io & _ & ?).
  - intros (ret & io & Ht & [= ->]). split; [by left|]. by exists ret, io.
  - intros (ret & io & Ht & [= ->]). split; [by right|]. by exists ret, io.
Qed.

(** The client of a thread, and the thread of a client. *)
Lemma client_at x cf ids line i k :
  linked found x cf ids line → ids !! i = Some k →
  ∃ c v, clients (life x) !! i = Some c ∧ talks x !! i = Some v ∧
    calls cf !! k = Some (Talk (given v).1 (given v).2).
Proof.
  intros Hx Hk. pose proof (lookup_lt_Some _ _ _ Hk) as Hi. rewrite (link_ids _ _ _ _ _ Hx) in Hi.
  destruct (lookup_lt_is_Some_2 _ _ Hi) as [c Hc]. rewrite <- (link_talks _ _ _ _ _ Hx) in Hi.
  destruct (lookup_lt_is_Some_2 _ _ Hi) as [v Hv]. exists c, v. do 2 (split; [done|]).
  destruct (link_client _ _ _ _ _ Hx i c v k Hc Hv Hk) as (q & Hq & _).
  unfold calls. by rewrite list_lookup_fmap, Hq.
Qed.

Lemma client_id x cf ids line i v :
  linked found x cf ids line → talks x !! i = Some v → ∃ k, ids !! i = Some k.
Proof.
  intros Hx Hv. apply lookup_lt_is_Some_2. rewrite (link_ids _ _ _ _ _ Hx).
  rewrite <- (link_talks _ _ _ _ _ Hx). by eapply lookup_lt_Some.
Qed.

(** A thread of the pool that has returned is a client's or an old line. *)
Lemma returned_turn x cf ids line k t r :
  linked found x cf ids line → returned cf k t r →
  turn_of x (fst <$> list_find (eq k) ids) t r.
Proof.
  intros Hx Hr. unfold turn_of. destruct (list_find (eq k) ids) as [[i k']|] eqn:Hf; simpl.
  - apply list_find_Some in Hf as (Hk & <- & _).
    destruct (client_at _ _ _ _ _ _ Hx Hk) as (c & v & Hc & Hv & _).
    destruct (link_client _ _ _ _ _ Hx i c v k Hc Hv Hk) as (q & Hq & Ht).
    unfold returned in Hr. rewrite Hr in Hq. injection Hq as -> <-.
    apply client_turn_ret in Ht as (Hp & ret & io & Htalk & ->). by exists c, v, ret, io.
  - apply list_find_None in Hf.
    assert (Hni : k ∉ ids) by (intros Hin; rewrite Forall_forall in Hf; by apply (Hf k)).
    destruct (decide (line = Some k)) as [->|Hl].
    + pose proof (link_line _ _ _ _ _ Hx) as Hline.
      destruct (has_line (clock_thread (life x))) as [p|]; [|done].
      destruct Hline as (q & Hq & Ht). unfold returned in Hr. rewrite Hr in Hq.
      injection Hq as -> <-. by eexists.
    + destruct (link_others _ _ _ _ _ Hx k _ Hr Hni Hl) as (time & r' & [= -> _]). by exists time.
Qed.

(** A client whose conversation is over has returned in the pool. *)
Lemma over_returned x cf ids line i t r :
  linked found x cf ids line → over x i t r → ∃ k, ids !! i = Some k ∧ returned cf k t r.
Proof.
  intros Hx (c & v & ret & io & Hc & Hv & Hp & Htalk & -> & ->).
  destruct (client_id _ _ _ _ _ _ Hx Hv) as [k Hk].
  exists k. split; [done|]. destruct (link_client _ _ _ _ _ Hx i c v k Hc Hv Hk) as (q & Hq & Ht).
  unfold returned. rewrite Hq. do 2 f_equal.
  destruct Hp as [Hp|Hp]; rewrite Hp in Ht; destruct Ht as (ret' & io' & Htalk' & ->);
    rewrite Htalk in Htalk'; by injection Htalk' as -> ->.
Qed.

Lemma find_in (ids : list nat) i k :
  NoDup ids → ids !! i = Some k → fst <$> list_find (eq k) ids = Some i.
Proof.
  intros Hn Hi. destruct (list_find (eq k) ids) as [[j k']|] eqn:Hf; simpl.
  - apply list_find_Some in Hf as (Hj & <- & _). f_equal. by eapply NoDup_lookup.
  - apply list_find_None in Hf. rewrite Forall_lookup in Hf. by destruct (Hf i k Hi).
Qed.

(** Whose the threads [ks] of the pool are; a client is there once. *)
Definition owners (ids ks : list nat) : list (option nat) :=
  (λ k, fst <$> list_find (eq k) ids) <$> ks.

Lemma owner_in (ids ks : list nat) i :
  Some i ∈ owners ids ks → ∃ k, ids !! i = Some k ∧ k ∈ ks.
Proof.
  intros (k & Hk & Hin)%list_elem_of_fmap. exists k. split; [|done].
  destruct (list_find (eq k) ids) as [[j k']|] eqn:Hf; simplify_eq/=.
  by apply list_find_Some in Hf as (? & <- & _).
Qed.

Lemma owners_NoDup (ids ks : list nat) : NoDup ks → NoDup (omap id (owners ids ks)).
Proof.
  unfold owners. induction 1 as [|k ks Hk _ IH]; simpl; [constructor|].
  destruct (fst <$> list_find (eq k) ids) as [i|] eqn:Hf; simpl; [|done].
  constructor; [|done]. intros (o & Ho & Ho')%list_elem_of_omap. simpl in Ho'. subst o.
  apply owner_in in Ho as (k' & Hk' & Hin).
  destruct (owner_in ids [k] i) as (k0 & Hk0 & Hin0); [simpl; rewrite Hf; by left|].
  apply list_elem_of_singleton in Hin0 as ->. congruence.
Qed.
(** What the threads that have returned are in the system. *)
Lemma link_owners x cf ids line ks ts rs :
  linked found x cf ids line → Forall3 (returned cf) ks ts rs → NoDup ks →
  (∀ k t r, returned cf k t r → k ∈ ks) →
  Forall3 (turn_of x) (owners ids ks) ts rs ∧ NoDup (omap id (owners ids ks)) ∧
  ∀ i t r, over x i t r → Some i ∈ owners ids ks.
Proof.
  intros Hx H3 Hks Hin. split; [|split; [by apply owners_NoDup|]].
  - clear -H3 Hx. induction H3 as [|k t r ks ts rs Hr _ IH]; constructor; [|done].
    by eapply returned_turn.
  - intros i t r Hover. destruct (over_returned _ _ _ _ _ _ _ Hx Hover) as (k & Hk & Hr).
    apply list_elem_of_fmap. exists k. split; [|by eapply Hin].
    symmetry. apply find_in; [|done]. pose proof (link_nodup _ _ _ _ _ Hx) as Hnd.
    by apply NoDup_app in Hnd as [Hnd _].
Qed.
End Link.

(** ** Where a step is undefined *)

(** The hazards of the life cycle are those of the complete server. *)
Definition system_hazard (l : system_label) (s : server) : Prop :=
  match l with
  | Main_call answer => hazard (Call answer) s
  | Main_no_memory => hazard No_memory s
  | Stop_signal => hazard Signal s
  | Client_moves i => ∃ uses, hazard (Client_step i uses false) s
  | _ => False
  end.

(** The turn that a step is part of. *)
Definition turn_at {D} (l : system_label) (x : system D) (t : turn) : Prop :=
  match l with
  | Client_moves i => ∃ v, talks x !! i = Some v ∧ t = Talk (given v).1 (given v).2
  | Clock_step _ => t = Tick (now x)
  | _ => False
  end.

Section Fails.
Context {D : Type} `{Descriptor D} {dev : bool} {found : D} {x : system D}.
Hypothesis Hinv : server_inv dev (life x).
Abbreviation pool := (config (shared_file D) turn turn_result).

(** The step function, when the main thread has not returned. *)
Lemma system_step_live l :
  (∀ st, main (life x) ≠ Returned st) →
  system_step dev found l x
  = match l with
    | Main_call answer => life_step dev (Call answer) x (with_life found x)
    | Main_no_memory => life_step dev No_memory x (with_life found x)
    | Main_round ev io => life_step dev (Run ev) x (serve found x io)
    | Stop_signal => life_step dev Signal x (with_life found x)
    | Timer_signal => life_step dev Timer x (with_life found x)
    | Cleanup_step => life_step dev Cleanup x (with_life found x)
    | Clock_step localtime => clock_moves dev found localtime x
    | Client_moves i => client_moves dev found i x
    | Network i t => network i t x
    end.
Proof. intros Hr. unfold system_step. destruct (main (life x)) as [| | |st]; try done. by destruct (Hr st). Qed.

Lemma step_live l o : system_step dev found l x = Some o → ∀ st, main (life x) ≠ Returned st.
Proof. intros Hs st E. unfold system_step in Hs. by rewrite E in Hs. Qed.

(** Undefined, or out of the fuel of a definition below. *)
Definition bad {A} (o : option (outcome A)) : Prop := o = Some Undef ∨ o = Some NoFuel.

(** The pool's thread [k] fails in the same way. *)
Definition fails_as {A} (k : nat) (cf : pool) (o : option (outcome A)) : Prop :=
  match o with
  | Some Undef => move k cf = Some Undef
  | Some NoFuel => move k cf = Some NoFuel
  | _ => False
  end.

Lemma network_defined i t (y : system D) : ¬ bad (network i t y).
Proof.
  unfold bad, network. destruct (talks y !! i) as [v|]; simpl; [|by intros [?|?]].
  destruct (goes_on _ _); by intros [?|?].
Qed.

Lemma follows_fails k cf ids o : follows found k cf ids o → bad o → fails_as k cf o.
Proof. by intros Hf [-> | ->]. Qed.

Lemma life_fails l k :
  bad (life_step dev l x k) → life_step dev l x k = Some Undef ∧ hazard l (life x).
Proof using Hinv.
  unfold life_step, bad. pose proof (undefined_iff_hazard dev (life x) l Hinv) as Hu.
  destruct (server_step dev l (life x)) as [[s'| |]|] eqn:Hs; simpl; try naive_solver.
  by destruct (server_step_fuel dev l (life x)).
Qed.

Lemma clock_line_open p :
  has_line (clock_thread (life x)) = Some p →
  clock_thread (life x) ≠ At Waiting ∧ Lifecycle.output_file (life x) = Some true.
Proof using Hinv.
  intros Hl. destruct (clock_thread (life x)) as [|q|] eqn:Hc; [done| |done].
  assert (Hq : q ≠ Waiting) by (intros ->; done). split; [congruence|].
  by eapply clock_output; [apply Hinv|..].
Qed.

(** Without a line the clock is defined. *)
Lemma clock_quiet lt : has_line (clock_thread (life x)) = None → ¬ bad (clock_moves dev found lt x).
Proof using Hinv.
  intros Hl. unfold clock_moves.
  destruct (clock_thread (life x)) as [|[]|]; simplify_eq/=; by intros [_ ?]%life_fails.
Qed.

Section Open.
Context {cf : pool} {ids : list nat} {line : option nat} (Hx : linked found x cf ids line).

Lemma clock_fails lt :
  bad (clock_moves dev found lt x) →
  ∃ k, calls cf !! k = Some (Tick (now x)) ∧ fails_as k cf (clock_moves dev found lt x).
Proof using Hinv Hx.
  intros Hb. pose proof (link_line _ _ _ _ _ Hx) as Hline.
  destruct (has_line (clock_thread (life x))) as [p|] eqn:Hl; [|by destruct (clock_quiet lt Hl)].
  destruct (clock_line_open p Hl) as [Hw _]. destruct line as [k|]; [|done].
  destruct Hline as (q & Hk & _). exists k. split; [unfold calls; by rewrite list_lookup_fmap, Hk|].
  eapply follows_fails; [|done]. by apply clock_follows.
Qed.

(** A client whose stream is not there. *)
Lemma null_hazard i c :
  clients (life x) !! i = Some c → streams_of c (life x) ≠ (true, true) →
  point c = Talking ∨ point c = Signaling → system_hazard (Client_moves i) (life x).
Proof using.
  intros Hc Hn Hp. assert (∃ st, null_stream st c (life x)) as [st Hst].
  { unfold streams_of in Hn. destruct (usable c Its_input (life x)) eqn:Hi; [|by exists Its_input].
    destruct (usable c Its_output (life x)) eqn:Ho; [done|by exists Its_output]. }
  exists (Some st), c. split; [done|].
  destruct Hp as [-> | ->]; [exists st; split; [done|by right]|right; by exists st].
Qed.

Lemma client_fails i :
  bad (client_moves dev found i x) →
  (client_moves dev found i x = Some Undef ∧ system_hazard (Client_moves i) (life x)) ∨
  ∃ v k, talks x !! i = Some v ∧ calls cf !! k = Some (Talk (given v).1 (given v).2) ∧
    fails_as k cf (client_moves dev found i x).
Proof using Hinv Hx.
  intros Hb. assert (∃ o, client_moves dev found i x = Some o) as [o Ho]
    by by destruct Hb as [-> | ->]; eexists.
  destruct (client_found _ _ _ _ _ _ _ _ Hx Ho) as (c & v & k & Hc & Hv & Hk).
  destruct (decide (unseen (point c) v)) as [Hun|Hun].
  { left. destruct (decide (can_close c (life x))) as [Hcl|Hcl].
    - destruct (client_hidden dev found i x cf ids line c v k Hinv Hx Hc Hv Hk Hun Hcl) as (x' & Hx' & _).
      rewrite Hx' in Hb. by destruct Hb.
    - split; [by eapply client_fails_to_close|]. unfold can_close in Hcl.
      destruct (decide (point c = Signaling)) as [Hp|Hp]; [|by destruct Hcl].
      eapply null_hazard; [done| |by right]. intros E. by destruct Hcl. }
  destruct (client_follows dev found i x cf ids line c v k Hinv Hx Hc Hv Hk Hun)
    as [Hf|[[Hn _]|[Hu Hn]]]; [|congruence|].
  - right. exists v, k. split; [done|]. split; [|by eapply follows_fails].
    destruct (client_at _ _ _ _ _ _ Hx Hk) as (c' & v' & _ & Hv' & Hcall). by simplify_eq.
  - destruct (decide (point c = Talking)) as [Hp|Hp].
    { left. split; [done|]. by eapply null_hazard; [..|left]. }
    assert (Hl : client_moves dev found i x = life_step dev (Client_step i None false) x (with_life found x)).
    { unfold client_moves. rewrite Hc, Hv. simpl. by destruct (point c). }
    left. split; [done|]. rewrite Hl in Hb. destruct (life_fails _ _ Hb) as [_ Hz]. by exists None.
Qed.

(** While the file is not closed: a hazard, or a turn that fails. *)
Lemma open_fails l :
  bad (system_step dev found l x) →
  (system_step dev found l x = Some Undef ∧ system_hazard l (life x)) ∨
  ∃ k t, calls cf !! k = Some t ∧ turn_at l x t ∧ fails_as k cf (system_step dev found l x).
Proof using Hinv Hx.
  intros Hb. rewrite system_step_live in * by by destruct Hb as [Hb|Hb]; eapply step_live.
  destruct l as [answer| |ev io| | | |lt|i|i t]; simpl; try (destruct (life_fails _ _ Hb); by left).
  - right. destruct (clock_fails lt Hb) as (k & Hk & Hf). by exists k, (Tick (now x)).
  - destruct (client_fails i Hb) as [?|(v & k & Hv & Hk & Hf)]; [by left|right].
    exists k, (Talk (given v).1 (given v).2). split; [done|]. split; [by exists v|done].
  - by destruct (network_defined i t x).
Qed.
End Open.

(** When it is closed, only hazards are left. *)
Lemma closed_fails l :
  Lifecycle.output_file (life x) = Some false → system_step dev found l x = Some Undef →
  system_hazard l (life x).
Proof using Hinv.
  intros Ho. pose proof (live_closed _ _ (inv_live _ _ Hinv) Ho) as Hp.
  intros Hu. rewrite system_step_live in Hu by by eapply step_live.
  destruct l as [answer| |ev io| | | |lt|i|i t]; try by destruct (life_fails _ _ (or_introl Hu)).
  - destruct (has_line (clock_thread (life x))) as [p|] eqn:Hl.
    + destruct (clock_line_open p Hl). congruence.
    + destruct (clock_quiet lt Hl). by left.
  - unfold client_moves in Hu. destruct (clients (life x) !! i) as [c|] eqn:Hc; [|done].
    destruct (talks x !! i) as [v|]; [|done]. simpl in Hu.
    destruct (point c) eqn:Hpc;
      try by destruct (life_fails (Client_step i None false) _ (or_introl Hu)) as [_ ?]; exists None.
    exists (Some The_file), c. split; [done|]. rewrite Hpc. exists The_file. split; [done|by left].
  - destruct (network_defined i t x). by left.
Qed.
End Fails.

(** ** Any clients *)
Section AnyRun.
Context {D : Type} `{Descriptor D} {dev : bool} {found : D} {t0 : tm}.
Context {ls : list system_label} {x : system D}.
Hypothesis Hrun : system_run dev found (system_start t0) ls x.

Lemma any_atomic :
  Lifecycle.output_file (life x) ≠ Some false →
  ∃ who ts rs s fuel,
    serial (turn_run fuel) ts (SharedFile false (fopen found)) = Done (rs, s) ∧
    Forall3 (turn_of x) who ts rs ∧ NoDup (omap id who) ∧
    (∀ i t r, over x i t r → Some i ∈ who) ∧ ts ⊆+ offered dev ls ∧
    (Lifecycle.output_file (life x) = Some true → is_held (output_file_mutex (life x)) = false →
      file x = Some (stream s)) ∧
    ∀ l, system_step dev found l x = Some Undef → system_hazard l (life x) ∨
      ∃ t fuel, turn_at l x t ∧
        serial (turn_run fuel) (ts ++ [t]) (SharedFile false (fopen found)) = Undef.
Proof using Hrun.
  intros Ho. pose proof (run_server_inv _ _ _ _ _ Hrun) as Hinv.
  destruct (run_linked dev found t0 ls x Hrun Ho) as (cf & ids & line & Hcf & Hx & Hc).
  destruct (turns_atomic (fopen found) cf Hcf)
    as (ks & ts & rs & s & fuel & Hser & Hsub & H3 & Hn & [k Hk] & Hfree & Hin & Hu).
  assert (Hks : NoDup ks) by (rewrite Hk in Hn; by apply NoDup_app in Hn as [Hn _]).
  destruct (link_owners x cf ids line ks ts rs Hx H3 Hks Hin) as (Hw & Hnd & Hover).
  exists (owners ids ks), ts, rs, s, fuel. do 4 (split; [done|]). split; [by etrans|]. split.
  - intros Hopen Hm. rewrite <- (link_mutex _ _ _ _ _ Hx) in Hm. apply Hfree in Hm as [_ <-].
    pose proof (link_file _ _ _ _ _ Hx) as Hlf. by rewrite Hopen in Hlf.
  - intros l Hl. destruct (open_fails Hinv Hx l (or_introl Hl)) as [[_ ?]|(j & t & Hj & Ht & Hf)]; [by left|].
    right. rewrite Hl in Hf. destruct (Hu j Hf) as (t' & fuel' & Ht' & _ & Hs).
    exists t, fuel'. split; [done|]. assert (t' = t) as -> by congruence. done.
Qed.
End AnyRun.

(** ** The turns are served one after another *)

(** What the theorems below assume of a run: the file that [fopen] gives is ready,
    and the clients and the clock's times are well-behaved. *)
Record fair_run {D A} `{TL : TextLog D A} (dev : bool) (found : D) (t0 : tm) (n : Z) (a : A)
    (ls : list system_label) (x : system D) : Prop := FairRun {
  fair_ready : file_ready n (fopen found) a;
  fair_clean : clean a;
  fair_steps : system_run dev found (system_start t0) ls x;
  fair_turns : Forall (well_behaved (A := A)) (offered dev ls);
  fair_space : demands (offered dev ls) ≤ n;
}.
Arguments fair_ready {D A H H0 TL dev found t0 n a ls x} _.
Arguments fair_clean {D A H H0 TL dev found t0 n a ls x} _.
Arguments fair_steps {D A H H0 TL dev found t0 n a ls x} _.
Arguments fair_turns {D A H H0 TL dev found t0 n a ls x} _.
Arguments fair_space {D A H H0 TL dev found t0 n a ls x} _.

Section Fair.
Context {D A : Type} `{TL : TextLog D A} {dev : bool} {found : D} {t0 : tm} {n : Z} {a : A}.
Context {ls : list system_label} {x : system D} (Hfair : fair_run dev found t0 n a ls x).

Lemma fair_inv : server_inv dev (life x).
Proof using Hfair. eapply run_server_inv, (fair_steps Hfair). Qed.

(** As long as the file is not closed, the pool of its turns. *)
Lemma fair_pool :
  Lifecycle.output_file (life x) ≠ Some false →
  ∃ cf ids line, pool_run (start (fopen found)) cf ∧ linked found x cf ids line ∧
    served (A := A) n (calls cf) ∧ calls cf ⊆+ offered dev ls.
Proof using Hfair.
  intros Ho.
  destruct (run_linked dev found t0 ls x (fair_steps Hfair) Ho) as (cf & ids & line & Hcf & Hx & Hc).
  exists cf, ids, line. do 2 (split; [done|]). split; [|done].
  apply (served_some n _ _ Hc). split; apply Hfair.
Qed.

Lemma fair_serialized :
  Lifecycle.output_file (life x) ≠ Some false →
  ∃ who ts,
    Forall3 (turn_of x) who ts (take_turns ts a).1 ∧
    NoDup (omap id who) ∧ (∀ i t r, over x i t r → Some i ∈ who) ∧ ts ⊆+ offered dev ls ∧
    (Lifecycle.output_file (life x) = Some true → is_held (output_file_mutex (life x)) = false →
      ∃ f n', file x = Some f ∧ file_ready n' f (take_turns ts a).2).
Proof using Hfair.
  intros Ho. destruct (fair_pool Ho) as (cf & ids & line & Hcf & Hx & Hserved & Hc).
  destruct (turns_serial n (fopen found) a (fair_ready Hfair) (fair_clean Hfair) cf Hcf Hserved)
    as (ks & ts & H3 & Hsub & Hn & Hp & Hfree & Hin).
  assert (Hks : NoDup ks).
  { destruct Hp as [k Hk]. rewrite Hk in Hn. by apply NoDup_app in Hn as [Hn _]. }
  destruct (link_owners x cf ids line ks ts _ Hx H3 Hks Hin) as (Hw & Hnd & Hover).
  exists (owners ids ks), ts. do 3 (split; [done|]). split; [by etrans|].
  intros Hopen Hm. rewrite <- (link_mutex _ _ _ _ _ Hx) in Hm. apply Hfree in Hm as [_ [n' Hn']].
  exists (stream (shared cf)), n'. pose proof (link_file _ _ _ _ _ Hx) as Hlf. by rewrite Hopen in Hlf.
Qed.

(** A client that is done has had a conversation. *)
Lemma fair_talks i :
  Lifecycle.output_file (life x) ≠ Some false → (i < length (clients (life x)))%nat →
  (∀ j d, clients (life x) !! j = Some d → point d = Signaling ∨ point d = Gone) →
  ∃ t r, over x i t r.
Proof using Hfair.
  intros Ho Hi Hall. destruct (fair_pool Ho) as (cf & ids & line & _ & Hx & _ & _).
  rewrite <- (link_ids _ _ _ _ _ Hx) in Hi. destruct (lookup_lt_is_Some_2 _ _ Hi) as [k Hk].
  destruct (client_at _ _ _ _ _ _ Hx Hk) as (c & v & Hc & Hv & _).
  destruct (link_client _ _ _ _ _ Hx i c v k Hc Hv Hk) as (q & _ & Ht).
  destruct (Hall i c Hc) as [Hp|Hp]; rewrite Hp in Ht; destruct Ht as (ret & io & Htalk & _).
  all: exists (Talk (given v).1 (given v).2), (Talked ret io.1 io.2), c, v, ret, io; auto 7.
Qed.

(** When all conversations are over, each client has had the answer to its turn. *)
Lemma fair_answers who ts (F : nat → turn → turn_result) :
  Lifecycle.output_file (life x) ≠ Some false →
  (∀ j d, clients (life x) !! j = Some d → point d = Signaling ∨ point d = Gone) →
  Forall3 (turn_of x) who ts (take_turns ts a).1 → (∀ i t r, over x i t r → Some i ∈ who) →
  (∀ k t, ts !! k = Some t → (take_turns ts a).1 !! k = Some (F k t)) →
  ∀ i, (i < length (clients (life x)))%nat →
    ∃ k t, who !! k = Some (Some i) ∧ ts !! k = Some t ∧ over x i t (F k t).
Proof using Hfair.
  intros Ho Hall H3 Hin HF i Hi. destruct (fair_talks i Ho Hi Hall) as (t & r & Hover).
  pose proof (Hin i t r Hover) as [k Hk]%list_elem_of_lookup.
  destruct (Forall3_lookup_l _ _ _ _ _ _ H3 Hk) as (t' & r' & Ht' & Hr' & Hturn).
  exists k, t'. do 2 (split; [done|]). rewrite (HF k t' Ht') in Hr'. injection Hr' as <-. exact Hturn.
Qed.

(** No turn fails, so a step that is undefined is a hazard. *)
Lemma fair_undefined l :
  (system_step dev found l x = Some Undef → system_hazard l (life x)) ∧
  (Lifecycle.output_file (life x) ≠ Some false → system_step dev found l x ≠ Some NoFuel).
Proof using Hfair.
  assert (Hopen : Lifecycle.output_file (life x) ≠ Some false → bad (system_step dev found l x) →
    system_step dev found l x = Some Undef ∧ system_hazard l (life x)).
  { intros Ho Hb. destruct (fair_pool Ho) as (cf & ids & line & Hcf & Hx & Hserved & _).
    destruct (open_fails fair_inv Hx l Hb) as [?|(k & t & _ & _ & Hf)]; [done|].
    destruct (turns_finish n (fopen found) a (fair_ready Hfair) (fair_clean Hfair) cf Hcf Hserved) as [Hm _].
    destruct (Hm k). by destruct Hb as [Hb|Hb]; rewrite Hb in Hf. }
  split.
  - intros Hu. destruct (decide (Lifecycle.output_file (life x) = Some false)) as [Ho|Ho].
    + by eapply closed_fails; [apply fair_inv|..].
    + apply Hopen; [done|by left].
  - intros Ho Hn. destruct (Hopen Ho) as [Hu _]; [by right|congruence].
Qed.
End Fair.
