(* ===== verification/SystemStalls.v ===== *)
(** * A client that the server waits for

    A client whose thread holds the mutex and waits for the network: its line has
    not come, or its reply is not taken.  Until the network moves nothing gets
    past it. *)

From S2P Require Import Prelude Kernel Stdio OutputFile ServerProtocol Timestamp Interleaving Serializability ServerSessions Lifecycle LifecycleInvariant LifecycleTheorems System SystemPool SystemFair.

(** ** Traffic only brings more *)
Lemma enough_take k n m l : (n ≤ m)%nat → enough k (take n l) = true → enough k (take m l) = true.
Proof.
  intros Hnm. unfold enough. rewrite !orb_true_iff, !bool_decide_eq_true, !length_take.
  intros [Hin|Hk]; [left|right; lia].
  rewrite <- (take_drop n (take m l)), take_take, Nat.min_l by done. apply elem_of_app. by left.
Qed.

Lemma goes_on_ready t t' i :
  goes_on t t' = true → input_ready t i = true → input_ready t' i = true.
Proof.
  unfold goes_on, input_ready. intros [[Hc He]%andb_prop _]%andb_prop. apply bool_decide_eq_true in Hc.
  rewrite !orb_true_iff, !andb_true_iff, !bool_decide_eq_true. intros [Hr|[H0 Hcl]].
  - left. eapply enough_take; [|exact Hr]. lia.
  - right. rewrite Hcl in He. split; [lia|done].
Qed.

(** What [fgets] gives once it need not wait are bytes that have come. *)
Lemma fgets_arrived t i :
  input_ready t i = true →
  ∃ r rest, fgets BUFFER_SIZE (InStream (arrived t i) (ends i)) = (r, InStream rest (ends i)) ∧
    fgets BUFFER_SIZE i
    = (r, InStream (rest ++ drop (length (unread i) - coming t) (unread i)) (ends i)).
Proof.
  intros Hr. set (tl := drop _ _).
  assert (Hu : unread i = arrived t i ++ tl) by (unfold arrived, tl; by rewrite take_drop).
  unfold fgets at 2. rewrite Hu. unfold fgets. simpl unread.
  assert (fgets_take (Z.to_nat (BUFFER_SIZE - 1)) (arrived t i ++ tl)
    = let '(chunk, rest, hit) := fgets_take (Z.to_nat (BUFFER_SIZE - 1)) (arrived t i) in
      (chunk, rest ++ tl, hit)) as ->.
  { apply orb_true_iff in Hr as [Hr|[H0%bool_decide_eq_true _]%andb_prop]; [by apply fgets_take_enough|].
    assert (tl = []) as -> by (unfold tl; rewrite H0, Nat.sub_0_r; apply drop_all).
    rewrite app_nil_r. destruct (fgets_take _ _) as [[? rest] ?]. by rewrite app_nil_r. }
  destruct (fgets_take _ (arrived t i)) as [[chunk rest] []], (ends i); by do 2 eexists.
Qed.

Section Stalls.
Context {D : Type} `{Descriptor D} {dev : bool} {found : D}.
Implicit Types (x : system D) (p : prog (line_state D) (ret_t * sockets)) (t : traffic).

(** Code that waits for the network (or whose next call is undefined, on a stream
    that is NULL), and code that will after at most one step that does nothing. *)
Definition waiting p t : Prop :=
  (∀ a, p ≠ Ret a) ∧ ∀ f h p' l, step p (LineState f t h) ≠ Some (Done (p', l)).

Definition stuck p t : Prop :=
  (∀ a, p ≠ Ret a) ∧
  ∀ f h p' l, step p (LineState f t h) = Some (Done (p', l)) → l = LineState f t h ∧ waiting p' t.

Lemma waiting_stuck p t : waiting p t → stuck p t.
Proof. intros [Hp Hw]. split; [done|]. intros f h p' l Hs. by destruct (Hw f h p' l). Qed.

(** A [fgets] whose bytes have not come does not return. *)
Lemma unready_waits {A} i (a : A) (k : A → prog (line_state D) (ret_t * sockets)) s p' s' :
  input_ready (net s) i = false → step (Act (own_act (receivable i) a) k) s ≠ Some (Done (p', s')).
Proof.
  intros Hr. simpl. unfold own_act. simpl. unfold socket_call. rewrite Hr. by destruct (there s).1.
Qed.

(** A conversation that has not got past its first [fgets]. *)
Definition early p (io : sockets) : Prop :=
  p = protocol_steps io ∨ ∀ s, step (protocol_steps io) s = Some (Done (p, s)).

Lemma early_step p io s p' s' :
  early p io → step p s = Some (Done (p', s')) → input_ready (net s) io.1 = false →
  early p' io ∧ s' = s.
Proof.
  intros [->|Hp] Hs Hr.
  - split; [right|by injection Hs]. intros s1. injection Hs as <- _. done.
  - specialize (Hp s). injection Hp as <-. by destruct (unready_waits _ _ _ _ _ _ Hr Hs).
Qed.

Lemma early_stuck p io t : early p io → input_ready t io.1 = false → stuck p t.
Proof.
  intros He Hr.
  assert (Hw : ∀ q, (∀ s, step (protocol_steps io) s = Some (Done (q, s))) → waiting q t).
  { intros q Hq. specialize (Hq (LineState None t (true, true))). injection Hq as <-.
    split; [done|]. intros f h p' l. by apply unready_waits. }
  destruct He as [->|Hp]; [|by apply waiting_stuck, Hw].
  split; [done|]. intros f h p' l Hs. injection Hs as <- <-. split; [done|]. by apply Hw.
Qed.

(** In every run: a client whose first line has not come is early. *)
Lemma run_early (t0 : tm) ls x :
  system_run dev found (system_start t0) ls x →
  ∀ i v, talks x !! i = Some v → conversing (talk v) ∧
    (input_ready (carried v) (given v).1 = false → early (talk v) (given v)).
Proof.
  induction 1 as [|ls x l x' _ IH Hs]; [done|]. intros j w.
  destruct (talks_step _ _ _ _ _ Hs) as [|ev io _|i t v _ Hv Hg|i c v p s _ Hc Hp Hv Hst]; [apply IH|..].
  - intros [Hw|[_ Hw]]%lookup_app_Some; [exact (IH j w Hw)|].
    apply list_lookup_singleton_Some in Hw as [_ <-]. split; [apply protocol_conversing|by left].
  - destruct (decide (i = j)) as [<-|Hij]; [|rewrite list_lookup_insert_ne by done; apply IH].
    rewrite list_lookup_insert_eq by by eapply lookup_lt_Some. intros [= <-]. simpl.
    destruct (IH i v Hv) as [Hcv He]. split; [done|]. intros Hr. apply He.
    destruct (input_ready (carried v) _) eqn:E; [|done]. by apply (goes_on_ready _ t) in E as <-.
  - destruct (decide (i = j)) as [<-|Hij]; [|rewrite list_lookup_insert_ne by done; apply IH].
    rewrite list_lookup_insert_eq by by eapply lookup_lt_Some. intros [= <-]. simpl.
    destruct (IH i v Hv) as [Hcv He]. split; [by eapply every_step|].
    rewrite (conversing_net _ _ _ _ Hcv Hst). simpl. intros Hr.
    by destruct (early_step _ _ _ _ _ (He Hr) Hst).
Qed.

(** A client whose thread is in the conversation and stuck. *)
Definition held_up (i : nat) (c : client) (t : traffic) (x : system D) : Prop :=
  server_inv dev (life x) ∧ clients (life x) !! i = Some c ∧ point c = Talking ∧
  ∃ v, talks x !! i = Some v ∧ carried v = t ∧ stuck (talk v) t.

(** Its own step changes nothing of the life cycle. *)
Lemma held_up_moves i c t x x' :
  held_up i c t x → client_moves dev found i x = Some (Done x') →
  held_up i c t x' ∧ clients (life x') = clients (life x).
Proof.
  intros (Hinv & Hc & Hp & v & Hv & Ht & Hn & Hst) Hs. unfold client_moves in Hs.
  rewrite Hc, Hv in Hs. simpl in Hs. rewrite Hp in Hs.
  destruct (result (talk v)) as [a|] eqn:Hres; [by destruct (Hn a); apply result_Some|].
  apply stream_step_inv in Hs as (p' & l & Hl & Hs). rewrite Ht in Hl.
  destruct (Hst _ _ _ _ Hl) as [-> Hw]. apply life_step_inv in Hs as (s' & Hs & ->).
  assert (clients s' = clients (life x)) as Hcl.
  { rewrite server_step_live in Hs by by eapply step_not_returned. rewrite Hc in Hs. simpl in Hs.
    unfold client_thread in Hs. rewrite Hp in Hs. by injection Hs as <-. }
  split; [|done]. split; [by eapply server_step_inv|]. simpl. rewrite Hcl. do 2 (split; [done|]).
  eexists. split; [apply list_lookup_insert_eq; by eapply lookup_lt_Some|]. split; [done|].
  by apply waiting_stuck.
Qed.

Lemma held_up_step i c t l x x' :
  held_up i c t x → (∀ t', l ≠ Network i t') → system_step dev found l x = Some (Done x') →
  held_up i c t x' ∧
  ∀ j d, clients (life x) !! j = Some d → point d = Locking → clients (life x') !! j = Some d.
Proof.
  intros Hh Hl Hs. pose proof Hh as (Hinv & Hc & Hp & v & Hv & Ht & Hstk).
  destruct (decide (client_label l = Some i)) as [Hli|Hli].
  { destruct l; try done. injection Hli as ->.
    assert (Hm : client_moves dev found i x = Some (Done x')).
    { unfold system_step in Hs. by destruct (main (life x)). }
    destruct (held_up_moves _ _ _ _ _ Hh Hm) as [Hh' Hcl]. split; [done|]. intros j d Hd _. by rewrite Hcl. }
  assert (Htk : talks x' !! i = Some v).
  { destruct (talks_step _ _ _ _ _ Hs) as [|ev io _|j t' w -> Hw _|j d w p s -> _ _ Hw _]; [done| | |].
    - by apply lookup_app_l_Some.
    - rewrite list_lookup_insert_ne; [done|]. intros ->. by destruct (Hl t').
    - rewrite list_lookup_insert_ne; [done|]. intros ->. by destruct Hli. }
  destruct (system_life _ _ _ _ _ Hs) as [(j & t' & -> & Hn)|(l' & _ & Hsc & Hs')].
  - apply network_inv in Hn as (Hlf & _). rewrite Hlf. split; [|done].
    unfold held_up. rewrite Hlf. do 3 (split; [done|]). by exists v.
  - destruct (held_step dev l' (life x) (life x') i c Hinv Hc) as [_ Hk]; [by unfold in_file; rewrite Hp| |exact Hs'|].
    { destruct l'; try done. simpl. apply bool_decide_eq_false. intros ->. by destruct Hli. }
    split; [|intros j d Hd Hd'; apply Hk; [done|by right]].
    split; [by eapply server_step_inv|]. split; [apply Hk; [done|by left]|]. split; [done|].
    by exists v.
Qed.

Lemma held_up_run i c t ls x x' :
  held_up i c t x → (∀ t', Network i t' ∉ ls) → system_run dev found x ls x' →
  held_up i c t x' ∧
  ∀ j d, clients (life x) !! j = Some d → point d = Locking → clients (life x') !! j = Some d.
Proof.
  intros Hh Hn Hrun. induction Hrun as [|ls x1 l x2 _ IH Hs]; [done|].
  destruct IH as [Hh1 Hk1]; [intros t' Hin; apply (Hn t'), elem_of_app; by left|].
  destruct (held_up_step i c t l x1 x2 Hh1) as [Hh2 Hk2]; [|done|].
  - intros t' ->. apply (Hn t'), elem_of_app. right. by left.
  - split; [done|]. intros j d Hd Hp. apply Hk2; [by apply Hk1|done].
Qed.

(** Who is held up: a client whose first line has not come, or whose next step
    waits. *)
Lemma run_held_up (t0 : tm) ls x i c v :
  system_run dev found (system_start t0) ls x →
  clients (life x) !! i = Some c → point c = Talking → talks x !! i = Some v →
  input_ready (carried v) (given v).1 = false ∨ system_step dev found (Client_moves i) x = None →
  held_up i c (carried v) x.
Proof.
  intros Hrun Hc Hp Hv Hw. pose proof (run_server_inv _ _ _ _ _ Hrun) as Hinv.
  destruct (run_early _ _ _ Hrun i v Hv) as [Hcv He].
  do 3 (split; [done|]). exists v. do 2 (split; [done|]). destruct Hw as [Hw|Hw].
  - eapply early_stuck; [by apply He|done].
  - apply waiting_stuck.
    assert (Hr : ∀ st, main (life x) ≠ Returned st)
      by (eapply holder_alone; [done|exact Hc|by unfold in_file; rewrite Hp]).
    assert (Htalk : ∀ uses last k, life_step dev (Client_step i uses last) x k ≠ None).
    { intros uses last k. rewrite life_live, Hc by done. simpl. unfold client_thread. rewrite Hp.
      by destruct (from_option _ _ _). }
    rewrite system_step_live in Hw by done. unfold client_moves in Hw.
    rewrite Hc, Hv in Hw. simpl in Hw. rewrite Hp in Hw.
    destruct (result (talk v)) eqn:Hres; [by apply Htalk in Hw|].
    split; [by apply result_None|]. intros f h p l.
    destruct (step (talk v) (LineState (file x) (carried v) (streams_of c (life x))))
      as [[[p1 l1]| |]|] eqn:Hst; try done.
    + by apply Htalk in Hw.
    + apply (conversing_waits _ _ _ _ Hcv Hst). by apply result_None.
Qed.
End Stalls.
