(* ===== verification/SystemStop.v ===== *)
(** * The complete server can be stopped

    From every state in the main loop with well-behaved clients, each with both of
    its streams, the threads can be scheduled so that every client is served and the clock is back at its semaphore; from there a signal
    leads to the end. *)

From S2P Require Import Prelude Kernel Stdio OutputFile ServerProtocol Timestamp RegularFile ServerDevice ServerTheorems Interleaving Serializability ServerSessions ServerInterleavings Lifecycle LifecycleInvariant LifecycleTheorems System SystemPool SystemFair.

Section Runs.
Context {D : Type} `{Descriptor D} {dev : bool} {found : D}.
Implicit Types (x : system D) (cf : config (shared_file D) turn turn_result).

Lemma run_app x ls1 x1 ls2 x2 :
  system_run dev found x ls1 x1 → system_run dev found x1 ls2 x2 →
  system_run dev found x (ls1 ++ ls2) x2.
Proof.
  intros H1. induction 1 as [|ls2 x2 l x3 _ IH Hs]; [by rewrite app_nil_r|].
  rewrite app_assoc. by eapply run_snoc.
Qed.

Lemma run_one l x x' : system_step dev found l x = Some (Done x') → system_run dev found x [l] x'.
Proof. intros Hs. apply (run_snoc _ _ _ [] x l x'); [constructor|done]. Qed.

(** A step of a client or of the clock under way. *)
Definition serving (l : system_label) : bool :=
  match l with Client_moves _ | Clock_step None => true | _ => false end.

(** The network has done its part for every client. *)
Definition delivered (x : system D) : Prop := ∀ i v, talks x !! i = Some v → carried v = all_through.

(** All bytes of the clients come and are taken. *)
Definition deliveries (x : system D) : list system_label :=
  (λ i, Network i all_through) <$> seq 0 (length (talks x)).

Definition through (v : conversation D) : conversation D := Conversation (given v) all_through (talk v).

Lemma goes_through t : goes_on t all_through = true.
Proof. unfold goes_on. rewrite bool_decide_true by (simpl; lia). by destruct (closed t), (window t). Qed.

Lemma delivers_below x cf ids line n :
  (∀ st, main (life x) ≠ Returned st) → linked found x cf ids line → (n ≤ length (talks x))%nat →
  ∃ x', system_run dev found x ((λ i, Network i all_through) <$> seq 0 n) x' ∧
    life x' = life x ∧ linked found x' cf ids line ∧
    talks x' = (through <$> take n (talks x)) ++ drop n (talks x).
Proof.
  intros Hr Hx. induction n as [|n IH]; intros Hn; [exists x; split; [apply run_nil|by rewrite drop_0]|].
  destruct IH as (x1 & Hrun & Hl & Hx1 & Ht); [lia|].
  destruct (lookup_lt_is_Some_2 (talks x) n) as [v Hv]; [lia|].
  assert (Hlen : length (through <$> take n (talks x)) = n) by (rewrite length_fmap, length_take; lia).
  assert (Hv1 : talks x1 !! n = Some v).
  { rewrite Ht, lookup_app_r by lia. by rewrite Hlen, Nat.sub_diag, lookup_drop, Nat.add_0_r. }
  assert (∃ x', network n all_through x1 = Some (Done x')) as [x' Hs].
  { unfold network. rewrite Hv1. simpl. rewrite goes_through. by eexists. }
  exists x'. pose proof (network_inv _ _ _ _ Hs) as (Hl' & _ & _ & w & Hw & Ht').
  assert (w = v) as -> by congruence.
  split; [|split; [congruence|split; [by eapply link_network|]]].
  - rewrite seq_S, fmap_app. eapply run_snoc; [done|]. rewrite system_step_live; [done|by rewrite Hl].
  - rewrite Ht', Ht. change (Conversation _ _ _) with (through v).
    rewrite insert_app_r_alt by lia. rewrite Hlen, Nat.sub_diag.
    rewrite (drop_S _ _ _ Hv). simpl. by rewrite (take_S_r _ _ _ Hv), fmap_app, <- app_assoc.
Qed.

Lemma delivers x cf ids line :
  (∀ st, main (life x) ≠ Returned st) → linked found x cf ids line →
  ∃ x', system_run dev found x (deliveries x) x' ∧ life x' = life x ∧
    linked found x' cf ids line ∧ talks x' = through <$> talks x ∧ delivered x'.
Proof.
  intros Hr Hx. destruct (delivers_below x cf ids line _ Hr Hx (le_n _)) as (x' & Hrun & Hl & Hx' & Ht).
  rewrite firstn_all, drop_all, app_nil_r in Ht.
  exists x'. split_and!; try done. intros i v. rewrite Ht, list_lookup_fmap.
  destruct (talks x !! i); simpl; [|done]. by intros [= <-].
Qed.

(** Every client in the server has both of its streams. *)
Definition streams_there (s : server) : Prop :=
  ∀ i c, clients s !! i = Some c → streams_of c s = (true, true).

Lemma client_streams i c uses last s s' j d :
  clients s !! i = Some c → client_thread i c uses last s = Some (Done s') →
  clients s' !! j = Some d → ∃ e, clients s !! j = Some e ∧ streams_of d s' = streams_of e s.
Proof.
  intros Hc Hs Hd.
  assert (Hmv : ∀ p s1, clients s1 = clients s → infos s1 = infos s → s' = client_move i p s1 →
    ∃ e, clients s !! j = Some e ∧ streams_of d s' = streams_of e s).
  { intros p s1 Hc1 Hi1 ->. simpl in Hd. rewrite Hc1 in Hd. unfold streams_of, usable. simpl. rewrite Hi1.
    destruct (decide (i = j)) as [<-|Hij].
    - rewrite list_lookup_alter_eq, Hc in Hd. injection Hd as <-. by exists c.
    - rewrite list_lookup_alter_ne in Hd by done. by exists d. }
  unfold client_thread in Hs. destruct (point c).
  - unfold mutex_lock in Hs. destruct (output_file_mutex s); simplify_eq/=.
    eapply (Hmv Talking (set_mutex _ s)); done.
  - destruct (from_option _ _ _); [done|]. injection Hs as <-. destruct last; [|by exists d].
    by eapply (Hmv Unlocking).
  - injection Hs as <-. by eapply (Hmv Signaling (set_mutex Free s)).
  - destruct (infos s !! info c) as [t|] eqn:Ht; [|done].
    destruct (negb _); [done|]. simpl in Hs. destruct (thread_finished_signal s); simplify_eq/=.
    assert (Hsame : ∀ e, streams_of e (set_infos (<[info c:=ThreadInfo (socket_input t) (socket_output t) true]>
      (infos s)) s) = streams_of e s).
    { intros e. unfold streams_of, usable. simpl. destruct (decide (info c = info e)) as [<-|Hne].
      - by rewrite lookup_insert_eq, Ht.
      - by rewrite lookup_insert_ne. }
    destruct (decide (i = j)) as [<-|Hij].
    + rewrite list_lookup_alter_eq, Hc in Hd. injection Hd as <-. exists c. split; [done|].
      rewrite <- Hsame. done.
    + rewrite list_lookup_alter_ne in Hd by done. exists d. split; [done|]. rewrite <- Hsame. done.
  - done.
Qed.

(** They are the main thread's to give, and nobody takes them away. *)
Lemma keeps_streams l s s' :
  server_inv dev s → of_main l = false → server_step dev l s = Some (Done s') →
  streams_there s → streams_there s'.
Proof.
  intros Hinv Hl Hs Hall.
  enough (∀ i c', clients s' !! i = Some c' → ∃ c, clients s !! i = Some c ∧ streams_of c' s' = streams_of c s)
    as Hold by (intros i c' (c & Hc & ->)%Hold; by eapply Hall).
  assert (Hsame : clients s' = clients s → infos s' = infos s →
    ∀ i c', clients s' !! i = Some c' → ∃ c, clients s !! i = Some c ∧ streams_of c' s' = streams_of c s).
  { intros Hc Hi i c' Hi'. exists c'. unfold streams_of, usable. by rewrite <- Hc, Hi. }
  pose proof (inv_list _ (inv_clients _ _ Hinv)) as Hlist.
  rewrite server_step_live in Hs by by eapply step_not_returned.
  destruct l as [answer| |ev| | | |lt fw|i uses last]; try done.
  - unfold int_handler, server_stop, sem_post in Hs. simpl in Hs. apply Hsame; by by_cases Hs.
  - unfold timer_callback, sem_post in Hs. apply Hsame; by by_cases Hs.
  - unfold cleanup_step, cleanup_thread_body in Hs. simpl in Hs. rewrite Hlist in Hs.
    apply Hsame; by by_cases Hs.
  - unfold clock_step, mutex_lock, file_call in Hs. apply Hsame; by by_cases Hs.
  - destruct (clients s !! i) as [c|] eqn:Hc; simplify_eq/=. intros j d Hd.
    eapply client_streams; [done|exact Hs|done].
Qed.

(** A state in the main loop and the pool of its turns. *)
Record at_work (x : system D) (cf : config (shared_file D) turn turn_result) (ids : list nat)
    (line : option nat) : Prop := AtWork {
  work_inv : server_inv dev (life x);
  work_main : main (life x) = Looping;
  work_linked : linked found x cf ids line;
  work_delivered : delivered x;
  work_streams : streams_there (life x);
}.

(** The server's own steps leave the traffic alone. *)
Lemma serving_delivers l x x' cf ids line :
  serving l = true → at_work x cf ids line → system_step dev found l x = Some (Done x') → delivered x'.
Proof.
  intros Hl [_ _ Hx Hd _] Hs j w. apply talks_step in Hs.
  destruct Hs as [|ev io ->|i t v ->|i c v p s -> Hc Hp Hv Hst]; [apply Hd|done..|].
  destruct (decide (i = j)) as [<-|Hij]; [|rewrite list_lookup_insert_ne by done; apply Hd].
  rewrite list_lookup_insert_eq by by eapply lookup_lt_Some. intros [= <-].
  destruct (client_id _ _ _ _ _ _ Hx Hv) as [k Hk].
  destruct (link_client _ _ _ _ _ Hx i c v k Hc Hv Hk) as (q & _ & Ht). rewrite Hp in Ht.
  apply conversing_net in Hst; [|apply Ht]. simpl. rewrite Hst. by eapply Hd.
Qed.

(** What such steps lead to. *)
Definition leads (x : system D) (cf : config (shared_file D) turn turn_result) (ids : list nat)
    (P : system D → Prop) : Prop :=
  ∃ ls x' line, Forall serving ls ∧ system_run dev found x ls x' ∧ at_work x' cf ids line ∧ P x'.

Lemma leads_trans x cf ids P cf' Q :
  leads x cf ids P → (∀ x' line, at_work x' cf ids line → P x' → leads x' cf' ids Q) →
  leads x cf' ids Q.
Proof.
  intros (ls1 & x1 & l1 & Hs1 & Hr1 & Hw1 & HP) Hnext.
  destruct (Hnext x1 l1 Hw1 HP) as (ls2 & x2 & l2 & Hs2 & Hr2 & Hw2 & HQ).
  exists (ls1 ++ ls2), x2, l2. split; [by apply Forall_app|]. split; [by eapply run_app|done].
Qed.

Lemma leads_here x cf ids line (P : system D → Prop) : at_work x cf ids line → P x → leads x cf ids P.
Proof. intros Hw HP. exists [], x, line. split; [constructor|]. by split; [constructor|]. Qed.

Lemma leads_step l x x' cf cf' ids line (P : system D → Prop) line' :
  serving l = true → at_work x cf ids line → system_step dev found l x = Some (Done x') →
  linked found x' cf' ids line' → P x' → leads x cf' ids P.
Proof.
  intros Hl Hw Hs Hx' HP. pose proof (serving_delivers _ _ _ _ _ _ Hl Hw Hs) as Hd'.
  pose proof Hw as [Hinv Hm _ Hd Hst].
  destruct (system_life _ _ _ _ _ Hs) as [(i & t & -> & _)|(l' & Hl' & _ & Hs')]; [done|].
  exists [l], x', line'. split; [by repeat constructor; rewrite Hl|]. split; [by apply run_one|].
  assert (Hlm : of_main l' = false) by (rewrite Hl'; by destruct l).
  split; [|done]. split; [by eapply server_step_inv| |done..|by eapply keeps_streams].
  by rewrite (frame_main _ _ _ _ Hlm Hs').
Qed.

Lemma follows_done k cf cf' ids o :
  follows found k cf ids o → move k cf = Some (Done cf') →
  ∃ x' line', o = Some (Done x') ∧ linked found x' cf' ids line'.
Proof.
  intros Ho Hm. destruct o as [[x'| |]|]; simpl in Ho; rewrite Hm in Ho; try done.
  destruct Ho as (cf1 & line' & [= <-] & Hx'). by exists x', line'.
Qed.

Lemma work_live x cf ids line : at_work x cf ids line → ∀ st, main (life x) ≠ Returned st.
Proof. intros [_ -> _ _ _]. done. Qed.

(** A client's next move in the pool. *)
Lemma client_can x cf cf' ids line i c v k :
  at_work x cf ids line → clients (life x) !! i = Some c → talks x !! i = Some v →
  ids !! i = Some k → move k cf = Some (Done cf') → leads x cf' ids (λ _, True).
Proof.
  intros Hw Hc Hv Hk Hm. pose proof Hw as [Hinv _ Hx Hd Hst].
  destruct (decide (unseen (point c) v)) as [Hun|Hun].
  - destruct (client_hidden dev found i x cf ids line c v k Hinv Hx Hc Hv Hk Hun
      (λ _, Hst i c Hc)) as (x1 & Hs1 & Hx1 & Hc1 & Ht1).
    eapply (leads_trans x cf ids (λ y, clients (life y) = clients (life x1) ∧ talks y = talks x1)).
    + eapply (leads_step (Client_moves i)); [done|done|by rewrite system_step_live by (by eapply work_live)|done|done].
    + intros y line' Hwy [Hcy Hty]. rewrite <- Hcy in Hc1. rewrite <- Hty in Ht1.
      assert (Hci : clients (life y) !! i = Some (Client (info c) (past_unseen (point c)))).
      { by rewrite Hc1, list_lookup_alter_eq, Hc. }
      rewrite <- Ht1 in Hv. pose proof Hwy as [Hinvy _ Hxy Hdy Hsty].
      assert (Hnun : ¬ unseen (past_unseen (point c)) v).
      { unfold unseen in *. destruct (point c); simpl; naive_solver. }
      destruct (client_follows dev found i y cf ids line' _ v k Hinvy Hxy Hci Hv Hk Hnun)
        as [Hf|[[_ Hn]|[_ Hn]]]; [|by rewrite (Hdy i v Hv) in Hn|by rewrite (Hsty _ _ Hci) in Hn].
      destruct (follows_done _ _ _ _ _ Hf Hm) as (x2 & line2 & Hs2 & Hx2).
      eapply (leads_step (Client_moves i)); [done|done|by rewrite system_step_live by (by eapply work_live)|done|done].
  - destruct (client_follows dev found i x cf ids line c v k Hinv Hx Hc Hv Hk Hun)
      as [Hf|[[_ Hn]|[_ Hn]]]; [|by rewrite (Hd i v Hv) in Hn|by rewrite (Hst _ _ Hc) in Hn].
    destruct (follows_done _ _ _ _ _ Hf Hm) as (x1 & line1 & Hs1 & Hx1).
    eapply (leads_step (Client_moves i)); [done|done|by rewrite system_step_live by (by eapply work_live)|done|done].
Qed.

(** Every move of the pool can be made by the server. *)
Lemma thread_can x cf cf' ids line k :
  at_work x cf ids line → move k cf = Some (Done cf') → leads x cf' ids (λ _, True).
Proof.
  intros Hw Hm. pose proof Hw as [Hinv _ Hx _ _].
  destruct (decide (k ∈ ids)) as [[i Hk]%list_elem_of_lookup|Hni].
  - destruct (client_at _ _ _ _ _ _ Hx Hk) as (c & v & Hc & Hv & _). by eapply client_can.
  - destruct (decide (line = Some k)) as [->|Hl].
    + pose proof (link_line _ _ _ _ _ Hx) as Hline.
      assert (Hcw : clock_thread (life x) ≠ At Waiting).
      { intros E. rewrite E in Hline. done. }
      destruct (follows_done _ _ _ _ _ (clock_follows dev found None x cf ids k Hinv Hx Hcw) Hm)
        as (x' & line' & Hs & Hx').
      eapply (leads_step (Clock_step None)); [done|done|by rewrite system_step_live by (by eapply work_live)|done|done].
    + unfold move in Hm. destruct (threads cf !! k) as [t|] eqn:Ht; [|done].
      by destruct (link_others _ _ _ _ _ Hx k t Ht Hni Hl) as (time & r & ->).
Qed.

Lemma schedule_can es x cf cf' ids line :
  at_work x cf ids line → Forall (λ e, ∃ i, e = Move i) es → schedule es cf = Some (Done cf') →
  leads x cf' ids (λ _, True).
Proof.
  revert x cf line. induction es as [|e es IH]; intros x cf line Hw Hes Hs; simpl in Hs.
  { simplify_eq. by eapply leads_here. }
  apply Forall_cons in Hes as [[k ->] Hes].
  destruct (pool_step (Move k) cf) as [[cf1| |]|] eqn:E; [|done..].
  eapply leads_trans; [by eapply thread_can|]. intros x' line' Hw' _. by eapply IH.
Qed.

(** ** Every client is served *)
Lemma clock_turn_ret p time r : ¬ clock_turn p time (Ret r : prog (shared_file D) turn_result).
Proof. destruct p; [by intros []|intros E; discriminate E..]. Qed.

(** When all turns have returned, all conversations are over and the clock is not
    at the file. *)
Lemma returned_over x cf ids line :
  at_work x cf ids line → all_returned cf →
  has_line (clock_thread (life x)) = None ∧
  ∀ i c v, clients (life x) !! i = Some c → talks x !! i = Some v →
    (point c = Signaling ∨ point c = Gone) ∧
    ∃ r, over x i (Talk (given v).1 (given v).2) r.
Proof.
  intros [_ _ Hx _ _] Hall. unfold all_returned in Hall. rewrite Forall_lookup in Hall. split.
  - pose proof (link_line _ _ _ _ _ Hx) as Hline.
    destruct (has_line (clock_thread (life x))) as [p|], line as [k|]; try done.
    destruct Hline as (q & Hk & Ht). destruct (Hall k _ Hk) as [r Hr]. simpl in Hr. subst q.
    by destruct (clock_turn_ret _ _ _ Ht).
  - intros i c v Hc Hv. destruct (client_id _ _ _ _ _ _ Hx Hv) as [k Hk].
    destruct (link_client _ _ _ _ _ Hx i c v k Hc Hv Hk) as (q & Hq & Ht).
    destruct (Hall k _ Hq) as [r Hr]. simpl in Hr. subst q.
    apply client_turn_ret in Ht as (Hp & ret & io & Htalk & ->). split; [done|].
    exists (Talked ret io.1 io.2). by exists c, v, ret, io.
Qed.

(** The clients below [j] are gone. *)
Definition gone_below (j : nat) (x : system D) : Prop :=
  ∀ i c, (i < j)%nat → clients (life x) !! i = Some c → point c = Gone.

Lemma gone_can x cf ids line j :
  at_work x cf ids line → all_returned cf → (j ≤ length ids)%nat → leads x cf ids (gone_below j).
Proof.
  intros Hw Hall. induction j as [|j IH]; intros Hj.
  { eapply leads_here; [done|]. intros i c Hi. lia. }
  eapply leads_trans; [apply IH; lia|]. clear x line Hw IH. intros x line Hw Hgone.
  pose proof Hw as [Hinv _ Hx _ Hst]. destruct (returned_over _ _ _ _ Hw Hall) as [_ Hover].
  destruct (lookup_lt_is_Some_2 ids j) as [k Hk]; [lia|].
  destruct (client_at _ _ _ _ _ _ Hx Hk) as (c & v & Hc & Hv & _).
  destruct (Hover j c v Hc Hv) as [Hp _].
  assert (Hbelow : ∀ y, clients (life y) = alter (λ c, Client (info c) (past_unseen (point c))) j
      (clients (life x)) → gone_below (S j) y).
  { intros y Hy i d Hi. rewrite Hy. destruct (decide (i = j)) as [->|Hij].
    - rewrite list_lookup_alter_eq, Hc. intros [= <-]. simpl. by destruct Hp as [-> | ->].
    - rewrite list_lookup_alter_ne by done. intros Hd. apply (Hgone i d); [lia|done]. }
  destruct Hp as [Hp|Hp].
  - assert (Hun : unseen (point c) v) by by right.
    destruct (client_hidden dev found j x cf ids line c v k Hinv Hx Hc Hv Hk Hun
      (λ _, Hst j c Hc)) as (x1 & Hs1 & Hx1 & Hc1 & _).
    eapply (leads_step (Client_moves j)); [done|done|by rewrite system_step_live by (by eapply work_live)|done|].
    by apply Hbelow.
  - eapply leads_here; [done|]. intros i d Hi Hd. destruct (decide (i = j)) as [->|Hij]; [congruence|].
    apply (Hgone i d); [lia|done].
Qed.

(** ** The exit *)

(** The system's step for one of the exit. *)
Definition exit_label (l : label) : system_label :=
  match l with Call answer => Main_call answer | Cleanup => Cleanup_step | _ => Clock_step None end.

Lemma exit_simulated x ls s' :
  steps dev (life x) ls s' → Forall internal ls → should_stop (life x) = true →
  has_line (clock_thread (life x)) = None → out_of_loop (main (life x)) = true →
  ∃ x', system_run dev found x (exit_label <$> ls) x' ∧ life x' = s' ∧
    should_stop s' = true ∧ has_line (clock_thread s') = None ∧ out_of_loop (main s') = true.
Proof.
  intros Hsteps Hint Hstop Hline Hout.
  induction Hsteps as [|ls s l s' _ IH Hs]; [exists x; by split; [constructor|]|].
  apply Forall_app in Hint as [Hint Hl]. apply Forall_inv, Is_true_true in Hl.
  destruct (IH Hint) as (x1 & Hr & <- & Hst1 & Hl1 & Ho1). clear IH Hint Hstop Hline Hout.
  pose proof (out_of_loop_step _ _ _ _ Ho1 Hs) as Ho'.
  pose proof (step_not_returned _ _ _ _ Hs) as Hnr.
  enough (∃ x', system_step dev found (exit_label l) x1 = Some (Done x') ∧ life x' = s' ∧
    should_stop s' = true ∧ has_line (clock_thread s') = None) as (x' & Hx' & <- & ? & ?).
  { exists x'. split; [|done]. rewrite fmap_app. by eapply run_snoc. }
  assert (Hframe : match l with Clock _ _ => False | _ => True end →
    should_stop s' = true ∧ has_line (clock_thread s') = None).
  { intros Hl'. destruct (frame_clock dev l (life x1) s' Hs) as [-> ->]; [by destruct l| |done].
    intros E. by rewrite E in Ho1. }
  assert (Hlife : ∀ l' k, server_step dev l' (life x1) = Some (Done s') → (∀ s, life (k s) = s) →
    ∃ x', life_step dev l' x1 k = Some (Done x') ∧ life x' = s').
  { intros l' k Hs' Hk. exists (k s'). unfold life_step. by rewrite Hs'. }
  unfold system_step.
  destruct (main (life x1)) eqn:Hm; [done|done| |by destruct (Hnr exit_status)].
  destruct l as [answer| |ev| | | |lt fw|i uses last]; try done; simpl.
  - destruct (Hlife _ (with_life found x1) Hs) as (x' & Hx' & Hlx); [done|]. exists x'. auto.
  - destruct (Hlife _ (with_life found x1) Hs) as (x' & Hx' & Hlx); [done|]. exists x'. auto.
  - rewrite server_step_live in Hs by congruence.
    unfold clock_step in Hs. unfold clock_moves.
    destruct (clock_thread (life x1)) as [|[]|] eqn:Hc; try done.
    assert (Hs' : server_step dev (Clock false true) (life x1) = Some (Done s') ∧
      clock_thread s' = Ended ∧ should_stop s' = true).
    { rewrite server_step_live by congruence. unfold clock_step. rewrite Hc.
      destruct (clock_sem (life x1)); [|done]. case_bool_decide; [|done]. simpl in *.
      rewrite Hst1 in *. by simplify_eq. }
    destruct Hs' as (Hs' & Hcs & ?). rewrite bool_decide_false by by intros [].
    match goal with |- context [life_step _ _ _ ?k] => destruct (Hlife _ k Hs') as (x' & Hx' & Hlx) end;
      [done|]. exists x'. by rewrite Hcs.
Qed.

(** From a state in the main loop where no client is left. *)
Lemma exit_after_stop x cf ids line io :
  at_work x cf ids line → all_gone (life x) → has_line (clock_thread (life x)) = None →
  ∃ ls x', (length ls ≤ 17)%nat ∧ Forall internal ls ∧
    system_run dev found x ([Stop_signal; Main_round Select_interrupted io] ++ (exit_label <$> ls)) x' ∧
    main (life x') = Returned 0 ∧ released (life x').
Proof.
  intros Hw Hgone Hline. pose proof Hw as [Hinv Hm Hx _ _].
  pose proof (inv_live _ _ Hinv) as Hlive.
  pose proof (live_init_clock _ _ Hlive) as Hsem. rewrite Hm in Hsem. specialize (Hsem eq_refl).
  destruct (clock_sem (life x)) as [m|] eqn:Hcs; [|done]. clear Hsem.
  set (s1 := set_clock_sem (Some (m + 1)) (set_stop true (life x))).
  set (s2 := set_main (Leaving Delete_timer true) s1).
  assert (H1 : server_step dev Signal (life x) = Some (Done s1)).
  { rewrite server_step_live by congruence. unfold server_stop. simpl. by rewrite Hcs. }
  assert (H2 : server_step dev (Run Select_interrupted) s1 = Some (Done s2)).
  { rewrite server_step_live by (simpl; congruence). by rewrite bool_decide_true. }
  pose proof (server_step_inv _ _ _ _ Hinv H1) as Hinv1.
  pose proof (server_step_inv _ _ _ _ Hinv1 H2) as Hinv2.
  assert (Hfree : client_holds s2 = false).
  { unfold client_holds. simpl. destruct (output_file_mutex (life x)) as [|[i|]|] eqn:Hmu; try done.
    apply (inv_owner _ (inv_clients _ _ Hinv)) in Hmu as (c & Hc & Hin). unfold all_gone in Hgone.
    rewrite Forall_lookup in Hgone. unfold in_file in Hin. by rewrite (Hgone i c Hc) in Hin. }
  destruct (exit_run dev s2 Delete_timer true) as (ls & s' & Hint & Hlen & Hrun & Hh & Hend); [|done|].
  { split; try done; [by do 2 eexists| |by rewrite Hfree]. simpl. intros Ht.
    pose proof (live_timer _ _ Hlive Ht). congruence. }
  pose proof (exit_length s2 Delete_timer true eq_refl).
  set (x1 := with_life found x s1). set (x2 := serve found x1 io s2).
  assert (Hr2 : system_run dev found x [Stop_signal; Main_round Select_interrupted io] x2).
  { apply (run_snoc _ _ _ [Stop_signal] x1); [apply run_one|].
    - rewrite system_step_live by (by eapply work_live). unfold life_step. by rewrite H1.
    - unfold system_step. simpl. rewrite Hm. unfold life_step. simpl life. by rewrite H2. }
  destruct (exit_simulated x2 ls s' Hrun Hint) as (x' & Hrx & Hlx & _); [done|done|done|].
  exists ls, x'. split; [lia|]. split; [done|]. split; [by eapply run_app|]. rewrite Hlx.
  pose proof (run_inv_steps _ _ _ _ Hinv2 Hrun) as Hinv'.
  destruct Hend as [Hend|[_ Hb]]; [|congruence]. split; [done|by eapply returned_released].
Qed.
End Runs.

Section Fair.
Context {D A : Type} `{TL : TextLog D A} {dev : bool} {found : D} {t0 : tm} {n : Z} {a : A}.
Context {ls : list system_label} {x : system D} (Hfair : fair_run dev found t0 n a ls x).

(** When the clients' bytes are there, the threads at work can serve every client
    and come to rest. *)
Lemma fair_rests :
  main (life x) = Looping → streams_there (life x) →
  ∃ x0 ls' x' cf ids line, system_run dev found x (deliveries x) x0 ∧
    Forall serving ls' ∧ system_run dev found x0 ls' x' ∧
    at_work (dev := dev) (found := found) x' cf ids line ∧ all_gone (life x') ∧
    has_line (clock_thread (life x')) = None ∧
    ∀ i v, talks x !! i = Some v → ∃ r, over x' i (Talk (given v).1 (given v).2) r.
Proof using Hfair.
  intros Hm Hst. pose proof (fair_inv Hfair) as Hinv.
  destruct (fair_pool Hfair) as (cf & ids & line & Hcf & Hx & Hserved & _).
  { intros Ho. apply (live_closed _ _ (inv_live _ _ Hinv)) in Ho. by rewrite Hm in Ho. }
  destruct (turns_finish n (fopen found) a (fair_ready Hfair) (fair_clean Hfair) cf Hcf Hserved)
    as (_ & es & cf' & Hes & Hsch & Hall & Hcalls).
  destruct (delivers (dev := dev) (found := found) x cf ids line) as (x0 & Hr0 & Hl0 & Hx0 & Ht0 & Hd0);
    [by rewrite Hm|done|].
  assert (Hw : at_work (dev := dev) x0 cf ids line) by (split; [by rewrite Hl0..|done|done|by rewrite Hl0]).
  destruct (leads_trans (dev := dev) (found := found) x0 cf' ids (λ _, True) cf' (gone_below (length ids)))
    as (ls' & x' & line' & Hls & Hrun & Hw' & Hgone).
  { by eapply schedule_can. }
  { intros y line' Hwy _. by eapply gone_can. }
  exists x0, ls', x', cf', ids, line'. do 4 (split; [done|]).
  pose proof Hw' as [_ _ Hx' _ _]. destruct (returned_over _ _ _ _ Hw' Hall) as [Hline Hover].
  split; [|split; [done|]].
  - unfold all_gone. apply Forall_lookup. intros i c Hi. apply (Hgone i c); [|done].
    rewrite (link_ids _ _ _ _ _ Hx'). by eapply lookup_lt_Some.
  - intros i v Hv. destruct (client_id _ _ _ _ _ _ Hx Hv) as [k Hk].
    destruct (client_at _ _ _ _ _ _ Hx Hk) as (c & v1 & _ & Hv1 & Hcall).
    destruct (client_at _ _ _ _ _ _ Hx' Hk) as (c' & v' & Hc' & Hv' & Hcall').
    rewrite Hcalls, Hcall in Hcall'. assert (v1 = v) as -> by congruence. injection Hcall' as -> ->.
    destruct (Hover i c' v' Hc' Hv') as [_ Ho]. exact Ho.
Qed.
End Fair.
