(* ===== verification/SystemTheorems.v ===== *)
(** * What the complete server guarantees

    Theorems about every run of [System.system_step] from the start: what the
    clients get and what is in the output file, where a step is undefined, and
    that the server can always be stopped. *)

From S2P Require Import Prelude Kernel Stdio OutputFile ServerProtocol Timestamp RegularFile ServerDevice ServerTheorems Interleaving Serializability ServerSessions ServerInterleavings Lifecycle LifecycleInvariant LifecycleTheorems System SystemPool SystemFair SystemStop SystemStalls.

(** ** Some runs *)
Section Play.
Context {D : Type} `{Descriptor D} (dev : bool) (found : D).

Fixpoint system_play (ls : list system_label) (x : system D) : option (system D) :=
  match ls with
  | [] => Some x
  | l :: ls' =>
      match system_step dev found l x with
      | Some (Done x') => system_play ls' x'
      | _ => None
      end
  end.

Lemma system_play_run ls x x' : system_play ls x = Some x' → system_run dev found x ls x'.
Proof.
  revert x. induction ls as [|l ls IH]; intros x; simpl; [intros [= <-]; constructor|].
  destruct (system_step dev found l x) as [[x1| |]|] eqn:Hl; try done. intros Hp.
  apply (run_app x [l] x1); [by apply run_one|by apply IH].
Qed.

Lemma system_play_app ls1 ls2 x :
  system_play (ls1 ++ ls2) x = x' ← system_play ls1 x; system_play ls2 x'.
Proof.
  revert x. induction ls1 as [|l ls1 IH]; intros x; [done|]. simpl.
  by destruct (system_step dev found l x) as [[x1| |]|].
Qed.

(** The state after a list of steps from the start, and whether they can be
    taken. *)
Definition played (ls : list system_label) : system D :=
  default (system_start leap_second) (system_play ls (system_start leap_second)).

Definition playable (ls : list system_label) : bool :=
  match system_play ls (system_start leap_second) with Some _ => true | None => false end.

Lemma playable_run ls :
  playable ls = true → system_run dev found (system_start leap_second) ls (played ls).
Proof.
  unfold playable, played. destruct (system_play ls _) as [x|] eqn:Hx; [|done]. intros _.
  by apply system_play_run.
Qed.

Lemma playable_from ls1 ls2 :
  playable ls1 = true → playable (ls1 ++ ls2) = true →
  system_run dev found (played ls1) ls2 (played (ls1 ++ ls2)).
Proof.
  unfold playable, played. rewrite system_play_app.
  destruct (system_play ls1 (system_start leap_second)) as [x|]; [|done]. simpl.
  destruct (system_play ls2 x) as [x'|] eqn:Hx; [|done]. intros _ _. by apply system_play_run.
Qed.
End Play.

Definition first_client : sockets := (InStream (text "one" ++ NL :: text "more") Eof, nothing_sent).
Definition second_client : sockets := (InStream (text "two") Eof, nothing_sent).

Definition accepts (io : sockets) : system_label := Main_round (Connection all_well) io.

(** What is under the file's name before the server starts: the line "old". *)
Definition sample_disk : regular := Regular old_log 4 1000.

(** The server over the regular file: a client's line comes in
    two pieces and is served while a second client (without a newline) and the
    clock wait for it. *)
Definition busy : list system_label :=
  replicate 10 (Main_call true) ++
  [accepts first_client; Client_moves 0; Client_moves 0; Network 0 (Traffic 6 false (Some 0%nat));
   accepts second_client; Timer_signal; Clock_step (Some leap_second);
   Network 0 (Traffic 4 false (Some 100%nat))] ++ replicate 8 (Client_moves 0).

(** Then all of them finish. *)
Definition at_rest : list system_label :=
  busy ++ replicate 7 (Client_moves 0) ++ [Network 1 all_through] ++ replicate 11 (Client_moves 1) ++
  replicate 4 (Clock_step None).

(** The client is waiting for the mutex when the exit destroys it. *)
Definition too_late : list system_label :=
  replicate 10 (Main_call true) ++
  [accepts first_client; Stop_signal; Main_round Select_interrupted first_client] ++
  replicate 2 (Main_call true) ++ [Cleanup_step; Main_call true; Clock_step None] ++
  replicate 4 (Main_call true).

(** A client that takes two bytes of its reply and hangs up, and one that writes
    after it. *)
Definition hung_up : list system_label :=
  replicate 10 (Main_call true) ++
  [accepts (InStream (text "new" ++ [NL]) Eof, OutStream [] (Some 2%nat)); accepts first_client;
   Network 0 all_through; Network 1 all_through] ++
  replicate 14 (Client_moves 0) ++ replicate 3 (Client_moves 1).

(** A client that has sent the beginning of a line. *)
Definition hesitant : list system_label :=
  replicate 10 (Main_call true) ++
  [accepts first_client; Client_moves 0; Client_moves 0; accepts second_client;
   Network 0 (Traffic 6 false (Some 0%nat))].

(** What the others then do. *)
Definition meanwhile : list system_label :=
  [Network 1 all_through; Timer_signal; Clock_step (Some leap_second); Stop_signal;
   Main_round Select_interrupted first_client] ++ replicate 2 (Main_call true) ++
  [Cleanup_step; Main_call true].

Abbreviation server_after := (played false sample_disk).

(** A conversation of a state. *)
Definition talk_at (i : nat) (x : system regular) : conversation regular :=
  nth i (talks x) (Conversation second_client all_through (mret (RET_OK, second_client))).

Lemma talk_at_lookup i x :
  Nat.ltb i (length (talks x)) = true → talks x !! i = Some (talk_at i x).
Proof.
  intros Hi%Nat.ltb_lt. destruct (lookup_lt_is_Some_2 _ _ Hi) as [v Hv]. rewrite Hv. f_equal.
  unfold talk_at. symmetry. by apply nth_lookup_Some.
Qed.

(** The clients that arrive in these runs, and the clock's line. *)
Definition arrivals : list turn :=
  [Talk first_client.1 first_client.2; Talk second_client.1 second_client.2; Tick leap_second].

Lemma sample_fair k ls :
  playable false sample_disk ls = true → offered false ls = take k arrivals →
  fair_run false sample_disk leap_second 1000 [] ls (server_after ls).
Proof.
  intros Hp Ho. assert (Hk : served (A := list ascii) 1000 (take k arrivals)).
  { apply (served_some 1000 _ arrivals); [apply sublist_submseteq, sublist_take|].
    split; [|by vm_compute]. constructor; [by split; [left; by apply plain_check|]|].
    constructor; [by split; [left; by apply plain_check|]|]. by constructor; [split|]. }
  rewrite <- Ho in Hk. destruct Hk as [Hw Hd].
  split; [by apply regular_fopen_ready|by apply not_elem_of_nil|by apply playable_run|done|done].
Qed.

Lemma busy_fair : fair_run false sample_disk leap_second 1000 [] busy (server_after busy).
Proof. apply (sample_fair 3); by vm_compute. Qed.

Lemma at_rest_fair : fair_run false sample_disk leap_second 1000 [] at_rest (server_after at_rest).
Proof. apply (sample_fair 3); by vm_compute. Qed.

Lemma too_late_fair :
  fair_run false sample_disk leap_second 1000 [] too_late (server_after too_late).
Proof. apply (sample_fair 1); by vm_compute. Qed.

Lemma hung_up_run : system_run false sample_disk (system_start leap_second) hung_up (server_after hung_up).
Proof. apply playable_run. by vm_compute. Qed.

(** ** Theorems *)

(** C14: in every run of the complete server, with any clients at all, whichever
    calls fail: as long as the output file is not closed, the conversations and the clock's lines that
    are over are those that [server_protocol] and the clock's code give one after
    another, each alone, in one order of them (each client once); the file is as
    they leave it whenever its mutex is free; and a step that is undefined is a
    hazard of the life cycle or belongs to a turn that, run after those, is
    undefined alone too. *)
Theorem system_atomic {D} `{Descriptor D} dev (found : D) t0 ls (x : system D) :
  system_run dev found (system_start t0) ls x → output_file (life x) ≠ Some false →
  ∃ who ts rs s fuel,
    serial (turn_run fuel) ts (SharedFile false (fopen found)) = Done (rs, s) ∧
    Forall3 (turn_of x) who ts rs ∧ NoDup (omap id who) ∧
    (∀ i t r, over x i t r → Some i ∈ who) ∧ ts ⊆+ offered dev ls ∧
    (output_file (life x) = Some true → is_held (output_file_mutex (life x)) = false →
      file x = Some (stream s)) ∧
    ∀ l, system_step dev found l x = Some Undef → system_hazard l (life x) ∨
      ∃ t fuel, turn_at l x t ∧
        serial (turn_run fuel) (ts ++ [t]) (SharedFile false (fopen found)) = Undef.
Proof. apply any_atomic. Qed.

Lemma system_atomic_witness :
  (point <$> clients (life (server_after hung_up)) = [Gone; Talking] ∧
   system_step false sample_disk (Client_moves 1) (server_after hung_up) = Some Undef) ∧
  ∃ who ts rs s fuel,
    serial (turn_run fuel) ts (SharedFile false (fopen sample_disk)) = Done (rs, s) ∧
    Forall3 (turn_of (server_after hung_up)) who ts rs ∧ NoDup (omap id who) ∧
    (∀ i t r, over (server_after hung_up) i t r → Some i ∈ who) ∧ ts ⊆+ offered false hung_up ∧
    (output_file (life (server_after hung_up)) = Some true →
      is_held (output_file_mutex (life (server_after hung_up))) = false →
      file (server_after hung_up) = Some (stream s)) ∧
    ∀ l, system_step false sample_disk l (server_after hung_up) = Some Undef →
      system_hazard l (life (server_after hung_up)) ∨
      ∃ t fuel, turn_at l (server_after hung_up) t ∧
        serial (turn_run fuel) (ts ++ [t]) (SharedFile false (fopen sample_disk)) = Undef.
Proof.
  split; [by vm_compute|].
  apply (system_atomic false sample_disk leap_second hung_up (server_after hung_up) hung_up_run).
  by vm_compute.
Defined.

(** C13: the complete server with well-behaved clients ([fair_run]: each sends text
    without NUL that is not a seek command, or one whole line with a seek that is
    defined in every state of the device, and takes its reply; the file has room
    for all of it and no NUL in what it holds), from the start of [main] to the close of the output file, under
    every interleaving of its threads, signals and failing calls: the
    conversations and the clock's lines that are over are those that are served
    one after another as atomic operations on the log of the output file, each
    client once and with the reply to its turn, and the file holds that log
    whenever it is open and its mutex is free. *)
Theorem system_serialized {D A} `{TL : TextLog D A} dev found t0 n a ls (x : system D) :
  fair_run dev found t0 n a ls x → output_file (life x) ≠ Some false →
  ∃ who ts,
    Forall3 (turn_of x) who ts (take_turns ts a).1 ∧
    NoDup (omap id who) ∧ (∀ i t r, over x i t r → Some i ∈ who) ∧ ts ⊆+ offered dev ls ∧
    (output_file (life x) = Some true → is_held (output_file_mutex (life x)) = false →
      ∃ f n', file x = Some f ∧ file_ready n' f (take_turns ts a).2).
Proof. apply fair_serialized. Qed.

Lemma system_serialized_witness :
  (output_file (life (server_after at_rest)) = Some true ∧
   is_held (output_file_mutex (life (server_after at_rest))) = false) ∧
  ∃ who ts,
    Forall3 (turn_of (server_after at_rest)) who ts (take_turns ts ([] : list ascii)).1 ∧
    NoDup (omap id who) ∧ (∀ i t r, over (server_after at_rest) i t r → Some i ∈ who) ∧
    ts ⊆+ offered false at_rest ∧
    (output_file (life (server_after at_rest)) = Some true →
      is_held (output_file_mutex (life (server_after at_rest))) = false →
      ∃ f n', file (server_after at_rest) = Some f ∧ file_ready n' f (take_turns ts ([] : list ascii)).2).
Proof.
  split; [by vm_compute|].
  apply (system_serialized false sample_disk leap_second 1000 [] at_rest (server_after at_rest)
    at_rest_fair).
  by vm_compute.
Defined.



(** C18: with well-behaved clients and room for what they send ([fair_run]) a step
    of the complete server, in any state it reaches and whichever calls fail, is
    undefined only where [system_hazard] says: a signal without a semaphore, the
    use of a block that [malloc] did not give, the deletion of a timer that was not
    created, the destruction of a mutex that is held, a client whose own stream is
    NULL because [dup] or [fdopen] failed, and a client that goes on when the exit
    has taken away what it needs; nothing in the conversations or the clock's lines
    themselves is, nor does a loop of the device run out of its bound while the
    file is not closed. *)
Theorem system_undefined {D A} `{TL : TextLog D A} dev found t0 n a ls (x : system D) l :
  fair_run dev found t0 n a ls x →
  (system_step dev found l x = Some Undef → system_hazard l (life x)) ∧
  (output_file (life x) ≠ Some false → system_step dev found l x ≠ Some NoFuel).
Proof. intros Hfair. apply (fair_undefined Hfair l). Qed.

Lemma system_undefined_witness :
  system_step false sample_disk (Client_moves 0) (server_after too_late) = Some Undef ∧
  (system_step false sample_disk (Client_moves 0) (server_after too_late) = Some Undef →
    system_hazard (Client_moves 0) (life (server_after too_late))) ∧
  (output_file (life (server_after too_late)) ≠ Some false →
    system_step false sample_disk (Client_moves 0) (server_after too_late) ≠ Some NoFuel).
Proof.
  split; [by vm_compute|].
  apply (system_undefined false sample_disk leap_second 1000 [] too_late
    (server_after too_late) (Client_moves 0) too_late_fair).
Defined.

(** C17: from every state in the main loop that the complete server reaches with
    well-behaved clients and room for what they send ([fair_run]), when [dup] and
    [fdopen] have given every client in it its two streams: once the network has
    delivered what the clients send and taken what they are sent, the client
    threads and the clock can be scheduled so that every client accepted so far is
    served and gone; a signal and the round of the loop that it interrupts then
    lead, in at most 17 more steps of the server's own threads, to the end with
    status 0 and everything given up. *)
Theorem system_stops {D A} `{TL : TextLog D A} dev found t0 n a ls (x : system D) io :
  fair_run dev found t0 n a ls x → main (life x) = Looping → streams_there (life x) →
  ∃ x0 ls1 x1 ls2 x2,
    system_run dev found x (deliveries x) x0 ∧ Forall serving ls1 ∧ system_run dev found x0 ls1 x1 ∧
    (∀ i v, talks x !! i = Some v → ∃ r, over x1 i (Talk (given v).1 (given v).2) r) ∧
    all_gone (life x1) ∧ (length ls2 ≤ 17)%nat ∧ Forall internal ls2 ∧
    system_run dev found x1
      ([Stop_signal; Main_round Select_interrupted io] ++ (exit_label <$> ls2)) x2 ∧
    main (life x2) = Returned 0 ∧ released (life x2).
Proof.
  intros Hfair Hm Hst.
  destruct (fair_rests Hfair Hm Hst) as (x0 & ls1 & x1 & cf & ids & line & Hr0 & Hs & Hr1 & Hw & Hg & Hline & Hover).
  destruct (exit_after_stop x1 cf ids line io Hw Hg Hline) as (ls2 & x2 & Hlen & Hi & Hr2 & Hend).
  by exists x0, ls1, x1, ls2, x2.
Qed.

Lemma system_stops_witness :
  ∃ x0 ls1 x1 ls2 x2,
    system_run false sample_disk (server_after busy) (deliveries (server_after busy)) x0 ∧
    Forall serving ls1 ∧ system_run false sample_disk x0 ls1 x1 ∧
    (∀ i v, talks (server_after busy) !! i = Some v →
       ∃ r, over x1 i (Talk (given v).1 (given v).2) r) ∧
    all_gone (life x1) ∧ (length ls2 ≤ 17)%nat ∧ Forall internal ls2 ∧
    system_run false sample_disk x1
      ([Stop_signal; Main_round Select_interrupted first_client] ++ (exit_label <$> ls2)) x2 ∧
    main (life x2) = Returned 0 ∧ released (life x2).
Proof.
  apply (system_stops false sample_disk leap_second 1000 [] busy (server_after busy) first_client
    busy_fair); [by vm_compute|].
  intros i c Hc. apply list_elem_of_lookup_2 in Hc. revert c Hc. apply Forall_forall.
  vm_compute. by repeat constructor.
Defined.

(** C19: a client thread holds the mutex from before its client has sent anything,
    so it can hold up the server: as long as the network brings nothing new of a
    client in its conversation that has not sent a newline, a full buffer or its
    end, or whose reply is not taken, every other client stays where it waits, no
    other thread gets to the output file, and the server does not come to its end,
    whatever the other clients send, the signals, the timer and the threads do. *)
Theorem held_up_client_blocks {D} `{Descriptor D} dev (found : D) t0 ls0 (x : system D) i c v ls x' :
  system_run dev found (system_start t0) ls0 x →
  clients (life x) !! i = Some c → point c = Talking → talks x !! i = Some v →
  input_ready (carried v) (given v).1 = false ∨ system_step dev found (Client_moves i) x = None →
  system_run dev found x ls x' → (∀ t, Network i t ∉ ls) →
  clients (life x') !! i = Some c ∧
  (∀ j d, clients (life x) !! j = Some d → point d = Locking → clients (life x') !! j = Some d) ∧
  (∀ j d, clients (life x') !! j = Some d → in_file d = true → j = i) ∧
  clock_in_file (clock_thread (life x')) = false ∧ ∀ st, main (life x') ≠ Returned st.
Proof.
  intros Hrun Hc Hp Hv Hw Hls Hn.
  pose proof (run_held_up t0 ls0 x i c v Hrun Hc Hp Hv Hw) as Hh.
  destruct (held_up_run i c (carried v) ls x x' Hh Hn Hls) as [(Hinv & Hc' & _) Hk].
  do 2 (split; [done|]). eapply holder_alone; [done|exact Hc'|by unfold in_file; rewrite Hp].
Qed.

Lemma held_up_client_blocks_witness :
  let x := server_after hesitant in let x' := server_after (hesitant ++ meanwhile) in
  (clients (life x) !! 1%nat = Some (Client 1 Locking) ∧ main (life x') = Leaving Join_clock true ∧
   system_step false sample_disk (Main_call true) x' = None) ∧
  clients (life x') !! 0%nat = Some (Client 0 Talking) ∧
  (∀ j d, clients (life x) !! j = Some d → point d = Locking → clients (life x') !! j = Some d) ∧
  (∀ j d, clients (life x') !! j = Some d → in_file d = true → j = 0%nat) ∧
  clock_in_file (clock_thread (life x')) = false ∧ ∀ st, main (life x') ≠ Returned st.
Proof.
  split; [by vm_compute|].
  apply (held_up_client_blocks false sample_disk leap_second hesitant (server_after hesitant) 0
    (Client 0 Talking) (talk_at 0 (server_after hesitant)) meanwhile (server_after (hesitant ++ meanwhile))).
  - apply playable_run. by vm_compute.
  - by vm_compute.
  - done.
  - apply talk_at_lookup. by vm_compute.
  - left. by vm_compute.
  - apply playable_from; by vm_compute.
  - intros t Hin. simpl in Hin.
    repeat (apply elem_of_cons in Hin as [Hin|Hin]; [discriminate Hin|]). by apply elem_of_nil in Hin.
Defined.
