(* ===== verification/SystemDevice.v ===== *)
(** * The complete server on the character device

    The server built with USE_AESD_CHAR_DEVICE over the driver of [CharDriver]:
    all the parts of the repository together. *)

From S2P Require Import Prelude Kernel CircularBuffer CharDriver DriverSpec DriverTheorems Stdio OutputFile ServerProtocol Timestamp ServerDevice ServerTheorems Interleaving Serializability ServerSessions ServerInterleavings DeviceLog Lifecycle LifecycleInvariant LifecycleTheorems System SystemPool SystemFair SystemStop SystemStalls SystemTheorems.

(** With the device the clock writes no lines. *)
Lemma offered_talks ls : Forall is_talk (offered true ls).
Proof.
  apply Forall_forall. intros t (l & Ht & _)%list_elem_of_bind.
  destruct l as [| |[| |a]| | | |[time|]| |]; simpl in Ht; try by apply not_elem_of_nil in Ht.
  by apply list_elem_of_singleton in Ht as ->.
Qed.

(** C16: the complete server on the device, with well-behaved clients ([fair_run]):
    each sends text without NUL that is no seek command, or one whole line with a
    seek that is defined whatever commands the device holds (so a command index of
    0 or of ten and more), and takes its reply; [kmalloc] gives the memory for what
    they send, what was on the device has no NUL, and all fits into [limit].  Once
    every conversation is over and the mutex is free, the driver holds the last ten
    commands that the bytes of the clients' turns complete, after what was on the
    device, and the bytes pending after them; every client has had, exactly once
    and in one order of all of them, the answer that the device gives at its turn. *)
Theorem system_device_last_ten `{KS : KernelServices, KL : !KernelLaws} limit
    `{AM : !AmpleMemory limit} found t0 n s ls (x : system device) :
  fair_run (TL := device_text limit) true found t0 n s ls x →
  output_file (life x) = Some true → is_held (output_file_mutex (life x)) = false →
  (∀ i d, clients (life x) !! i = Some d → point d = Signaling ∨ point d = Gone) →
  ∃ f who ts, file x = Some f ∧ wbuf f = [] ∧
    represents ∅ (drv (fd f)) (spec_after s (concat (kept <$> ts))) ∧
    ts ⊆+ offered true ls ∧ length who = length ts ∧ NoDup (omap id who) ∧
    ∀ i, (i < length (clients (life x)))%nat → ∃ k t,
      who !! k = Some (Some i) ∧ ts !! k = Some t ∧
      over x i t (answer (H0 := device_log limit) t (spec_after s (concat (kept <$> take (S k) ts)))).
Proof.
  intros Hfair Hf Hm Hall. assert (Ho : output_file (life x) ≠ Some false) by congruence.
  destruct (fair_serialized Hfair Ho) as (who & ts & H3 & Hnd & Hin & Hsub & Hfile).
  destruct (Hfile Hf Hm) as (f & n' & Hfx & Hn').
  assert (Hs : fits s) by (destruct (ready_dev _ _ _ (fair_ready Hfair)) as [HR _]; by eapply represents_fits).
  assert (Ht : Forall is_talk ts) by 
    (apply Forall_forall; intros t Hin'; eapply Forall_forall; [apply (offered_talks ls)|];
     by eapply elem_of_submseteq).
  destruct (device_turns limit ts s Hs Ht) as [H2 H1]. rewrite H2 in Hn'. destruct Hn' as [Hwb _ _ [HR _]].
  exists f, who, ts. do 4 (split; [done|]). split; [by eapply Forall3_length_lm|]. split; [done|].
  by apply (fair_answers Hfair who ts).
Qed.

(** ** A run *)
#[local] Existing Instance ServerTheorems.server_kernel.
#[local] Existing Instance ServerTheorems.server_kernel_laws.
#[local] Existing Instance ServerTheorems.server_kernel_ample.

(** The device holds "hello", "world" and the pending "ab"; one client sends a
    line in two pieces, another one seeks to byte 2 of the first command. *)
Definition line_client : sockets := (InStream (text "c" ++ [NL]) Eof, nothing_sent).
Definition seek_client : sockets :=
  (InStream (text "AESDCHAR_IOCSEEKTO:0,2" ++ [NL]) Eof, nothing_sent).

Definition device_found : device := Device short_driver 0.

Lemma device_found_ready : file_ready (LD := device_log (2 ^ 60)) 1000 (fopen device_found) short_spec.
Proof. apply device_fopen_ready; [apply short_rep|by vm_compute|done]. Qed.

Definition device_day : list system_label :=
  replicate 9 (Main_call true) ++
  [accepts line_client; accepts seek_client; Network 0 (Traffic 1 false (Some 0%nat));
   Network 1 all_through; Client_moves 0; Client_moves 0; Timer_signal; Clock_step None;
   Network 0 all_through] ++
  replicate 21 (Client_moves 0) ++ replicate 21 (Client_moves 1).

Abbreviation device_after := (played true device_found).

Lemma device_day_fair :
  fair_run (TL := device_text (2 ^ 60)) true device_found leap_second 1000 short_spec device_day
    (device_after device_day).
Proof.
  split.
  - apply device_found_ready.
  - split; [by repeat constructor; apply (bool_decide_unpack _)|by apply (bool_decide_unpack _)].
  - apply playable_run. by vm_compute.
  - change (offered true device_day)
      with [Talk line_client.1 line_client.2; Talk seek_client.1 seek_client.2].
    constructor; [by split; [left; by apply plain_check|]|]. constructor; [|done].
    split; [right|done]. split; [by vm_compute|].
    split; [by apply (bool_decide_unpack (NUL ∉ text "AESDCHAR_IOCSEEKTO:0,2" ++ [NL]))|].
    split; [by apply (bool_decide_unpack (length (text "AESDCHAR_IOCSEEKTO:0,2" ++ [NL]) ≤ 255)%nat)|].
    replace (command _) with (Some (0, 2)) by by vm_compute.
    intros n d a Hd. exact (first_command_safe (2 ^ 60) n d a 2 Hd).
  - by vm_compute.
Qed.

Lemma system_device_last_ten_witness :
  (point <$> clients (life (device_after device_day)) = [Gone; Gone] ∧
   commands (spec_after short_spec (text "c" ++ [NL])) = [text "hello" ++ [NL]; text "world" ++ [NL]; text "abc" ++ [NL]]) ∧
  ∃ f who ts, file (device_after device_day) = Some f ∧ wbuf f = [] ∧
    represents ∅ (drv (fd f)) (spec_after short_spec (concat (kept <$> ts))) ∧
    ts ⊆+ offered true device_day ∧ length who = length ts ∧ NoDup (omap id who) ∧
    ∀ i, (i < length (clients (life (device_after device_day))))%nat → ∃ k t,
      who !! k = Some (Some i) ∧ ts !! k = Some t ∧
      over (device_after device_day) i t (answer (H0 := device_log (2 ^ 60)) t
        (spec_after short_spec (concat (kept <$> take (S k) ts)))).
Proof.
  split; [by vm_compute|].
  apply (system_device_last_ten (2 ^ 60) device_found leap_second 1000 short_spec device_day
    (device_after device_day) device_day_fair); [by vm_compute..|].
  intros i d Hd. right. apply list_elem_of_lookup_2 in Hd. revert d Hd. apply Forall_forall.
  vm_compute. by repeat constructor.
Defined.
